(* ===== verification/_CoqProject ===== *)
-Q . S2P
Prelude.v
Keys.v
Types.v
Retry.v
Queue.v
Graph.v
Units.v
MergeCancel.v
State.v
Slots.v
Executions.v
Outbox.v
Lease.v
Commit.v
Groups.v
Signals.v
Records.v
Seeding.v
Arrivals.v
Verdict.v
Delivery.v
Progress.v
System.v
Typed.v
Completion.v
Flush.v
Keeper.v
Runs.v
Offsets.v
Blobs.v
Cron.v
