(* ===== verification/Prelude.v ===== *)
(** * Verification of the xflow workflow engine

    xflow runs workflows as graphs of nodes.  The compiler groups nodes into
    scheduling units ([src/engine/graph]); the engine ([src/engine]) leases
    tasks to runners, judges their results, commits them and delivers the work
    that becomes ready; a state store ([src/backend/providers/local]) keeps
    every execution, node record, counter and durable intent.  The store's
    methods run under one mutex, so the program is modelled as functions on one
    store record, and concurrency as interleavings of those functions.  Around
    this core stand the queues between the engine and its workers (in memory and
    over Kafka), the store of large payloads with its garbage collector, and the
    triggers that start executions.

    ** Files

    - [Prelude]: record updates, the [res] result type ([Ok], [Err], [Panic],
      [OutOfFuel]) for code that may fail or index out of range, frame
      relations, shared list and map lemmas, and the hint database [store].
    - [Keys]: the slash-joined map keys and intent ids, and when a key
      determines its parts.
    - [Types]: the enums, requests, tasks and snapshots of [src/types] and
      [src/engine], field by field.
    - [Retry]: [engine/retry.go], the backoff delay with binary64 growth, int64
      durations and the FNV-1a jitter.
    - [Queue]: the in-memory task queue ([memory_queue.go]): two lanes, workers,
      delayed retries and the stop, every goroutine a value and every select case
      a move; the class [TaskQueue] says what a flush needs of any queue.
    - [Graph], [Units]: [engine/graph/graph.go], [unit.go] and the cycle check
      of [compile.go]: [buildUnits], [buildUnitEdges], [detectUnitCycle].
    - [MergeCancel]: which nodes a merge that went ahead cancels
      ([engine/graph/merge_cancel.go]).
    - [State]: the maps of [memoryState] ([memory_state.go]) and the outbox
      write every component uses.
    - [Slots]: the concurrency limit: admission, waiting line, promotion,
      release.
    - [Executions]: creation, rollback, status writes, pause, queue expiry,
      sweeps ([memory_state.go], [execution_pause.go], [store_mirror.go]).
    - [Outbox]: the durable intents and their dead letters
      ([atomic_state.go]).
    - [Lease]: node records and task leases ([memory_state.go]).
    - [Commit]: request validation ([engine/atomic.go]), the fenced commit, the
      fan-in counters and the advance path ([atomic_state.go]).
    - [Groups]: co-location groups as one unit ([group_state.go]).
    - [Signals]: suspension, signals, quorum waits, resume intents
      ([memory_state.go]).
    - [Records]: outputs, expansion children, sub-workflow links, idempotency
      claims.
    - [Seeding]: reruns ([execution_seed.go]) and entry admissions
      ([entry_admission.go]).
    - [Arrivals]: what a finished node or group sends to its successors
      ([engine/atomic.go], [engine/group_exec.go]).
    - [Verdict]: the engine's verdict on a task result ([engine/commit.go],
      [atomic_commit.go], [errorpolicy.go], [scheduler.go]).
    - [Delivery]: the start of an execution and the tasks the engine consumes
      itself: skips, advances, disabled and pinned nodes, merge cancellations,
      lease reclaims ([engine/initial_outbox.go], [atomic.go], [disabled.go],
      [pin_data.go], [merge_cancel.go], [lease.go]).
    - [Progress], [Completion]: one execution driven by the engine over the
      store and its queue, with dead letters, replays and dropped tasks: the step
      relation, its invariant, and that the start of every startable execution
      establishes and every step keeps it.
    - [System], [Typed], [Runs]: every state-changing operation of the store as
      one step relation and as executable runs, and the typing of the store.
    - [Flush], [Keeper]: the delivery loop of one execution and the renewal of
      its delivery leases ([engine/atomic.go], [outbox_lease.go]), against the
      interface [TaskQueue].
    - [Offsets]: the Kafka consumer ([distributed/internal/queue/kafka]): the
      offset tracker, the committer, the goroutines of one topic and the verdict
      on one message.
    - [Blobs]: content-addressed payloads ([src/store/blob]): the lifecycle
      index, the writers, the collector and its loop ([blob_gc.go]).
    - [Cron]: the cron trigger ([src/node/trigger/cron]): catch-up plans, the
      cursor, the overlap policy and firings over the local deduplicator.

    A definition carries the name of the function it models; a helper that
    models part of a function body is named after what that part does.  A
    method that reads the clock takes the instant as [now]; a method that ranges
    over a Go map whose order matters takes the order as an argument.  Pointers
    to snapshots become values, because the store copies on the way in and out.

    ** What the theorems show

    - Units: [buildUnits] terminates on every accepted node graph, rejects
      exactly the cyclic ones, partitions the nodes and counts the inbound edges
      of every unit.
    - Leases and commits: a revoked or superseded runner cannot commit; the
      first terminal commit of a node is final; a lease lasts until its deadline
      and is recovered after it; a worker commit is applied exactly when its
      fence holds.
    - Scheduling: the decision of a unit depends only on the totals of its
      arrivals; folding arrivals into a commit equals the separate advance; in a
      compiled graph every unit is decided once all nodes have finished.
    - Progress: an execution of a compiled acyclic graph without groups always
      has work under way for an unfinished node until it has ended, whatever the
      order of deliveries, reports, retries, timeouts, cancellations and
      reclaims, and it succeeds only when every node has finished.
    - Merge cancellation: the scan returns exactly the ancestors of the merge,
      sources first.
    - Results: when a failure is retried, what each error policy commits, that
      the atomic and the legacy path agree, that the engine's requests are never
      refused by the store's check, and that a cyclic execution always goes on
      or ends.
    - Queues and flushes: whatever the goroutines do, every accepted task is in
      the queue, with a worker, waiting or let go with a reason; a flush returns
      within a bounded number of polls, leaves a well-typed store in which the
      invariants hold, and has left nothing due when it ends for lack of work; a
      keeper that ticks in time keeps its whole batch.
    - Kafka: no record below the committed position is unfinished, along every
      interleaving with rebalances and partly applied commits; a consumer at rest
      has committed everything it fetched; a message reported finished is
      accounted for.
    - Blobs: a payload whose link has not expired keeps its bytes; a tick of the
      collector removes exactly the garbage.
    - Cron: the plan of a catch-up equals the newest instants of the schedule in
      the window, a catch-up repeats no identity, and the cursor names the instant
      that is due, whatever its history.
    - Outbox and signals: delivery leases are exclusive, unacknowledged intents
      are kept, replays are safe and idempotent, a signal and its waiter meet in
      either order.
    - Capacity and lifecycle: along every interleaving of operations no
      workflow exceeds its limit, nobody waits while a slot is free, slots
      belong to live executions, an ended execution, a decided unit and an
      admission are final.
    - Limits of the code: theorems that exhibit a behaviour the comments rule
      out (a signal lost behind a pending resume, a skipped group that starves
      its successors, a lease renewed to the past, a catch-up that repeats a
      moment outside UTC, and others).

    ** Bounds and fuel

    [kahn] runs with as much fuel as there are vertices, one round per vertex;
    [promoteLoop] with the length of the line; [closureLoop] with one round per
    node and edge; all are shown to suffice.  [FlushOutbox] takes the list of the
    clock readings of its polls and ends before a list longer than the intents
    plus, for each open node, the edges is used up.  [walkLoop] has the code's own
    limit on the instants it examines, [gcTick] the code's limit on its passes;
    [cursorLoop] needs no more rounds than time units have passed.  The lists of
    answers of [publishRetrying] are what the writes of one call meet until its
    context ends.
    Counters, attempts and durations that the code keeps far from their limits
    are unbounded integers; the retry delay, where overflow is possible, is
    computed at its machine width.

    ** Not modelled

    The Redis side of the distributed backend (Lua scripts), the projection of
    the store to SQL rows, the SQL blob index and the blobs' frame codec, the
    compiler's parsing and expression checks, node handlers, the other triggers
    and the control plane's admission of firings, network services,
    observability and the web console: they are I/O or run in other engines.
    SHA-256 and the platform's answer to
    an out-of-range float conversion are arguments of the definitions that use
    them.  [Progress] leaves out suspensions, pauses, deadlines and groups, whose
    operations are modelled in the components.  In [Verdict] the building of a
    task's input, the expansion of a loop and the expiry of an execution are
    arguments as well.  In [Offsets] the broker, the reader and the other members
    of the group are moves guarded by what Kafka documents; in [Cron] the
    schedule's [Next] and the offsets of time zones are arguments. *)

From Stdlib Require Export ZArith Lia Ascii String.
From stdpp Require Export base list gmap strings sorting pretty relations.

Declare Scope xflow_scope.
Delimit Scope xflow_scope with xflow.

(** Frame lemmas: what an operation leaves alone.  Each component registers its
    operations, so that a property of the whole store goes by one [auto]. *)
Create HintDb store discriminated.

(** ** Record updates

    Go assigns single fields of structs that live in maps.  [Eta R] gives the
    eta expansion of a record; from it the update of any one projection is
    computed by the elaborator, so that [r <| p := v |>] reads like the
    assignment it models. *)

Class Eta (R : Type) : Type := eta_of : R -> R.

Class Update {R T : Type} (proj : R -> T) : Type := upd : (T -> T) -> R -> R.
Arguments upd {R T} proj {_} f r.

Ltac solve_update :=
  match goal with
  | |- @Update ?R ?T ?proj =>
      let i := constr:(_ : Eta R) in
      let e := eval hnf in i in
      let f := fresh "f" in
      let r := fresh "r" in
      intros f r;
      let body := eval cbv beta in (e r) in
      match eval pattern (proj r) in body with
      | ?g _ => let b := eval cbv beta in (g (f (proj r))) in exact b
      end
  end.

#[export] Hint Extern 1 (Update _) => solve_update : typeclass_instances.

#[warnings="-postfix-notation-not-level-1"]
Notation "r <| p ::= f |>" := (upd p f r)
  (at level 12, left associativity, p at level 11,
   format "r  '/' <|  p  ::=  f  |>") : xflow_scope.
#[warnings="-postfix-notation-not-level-1"]
Notation "r <| p := v |>" := (upd p (fun _ => v) r)
  (at level 12, left associativity, p at level 11,
   format "r  '/' <|  p  :=  v  |>") : xflow_scope.

Open Scope xflow_scope.
Open Scope Z_scope.

(** ** Relations between a state and its successor

    Frame conditions and preserved invariants compose: both are preorders, so a
    fact about every step of an operation is a fact about the operation. *)

Definition same {A B} (f : A -> B) : relation A := fun a b => f b = f a.
Definition keeps {A} (P : A -> Prop) : relation A := fun a b => P a -> P b.

#[export] Instance same_preorder {A B} (f : A -> B) : PreOrder (same f).
Proof. split; [done|]. intros a b c E1 E2. unfold same. by rewrite E2. Qed.

#[export] Instance keeps_preorder {A} (P : A -> Prop) : PreOrder (keeps P).
Proof. split; [intros a H; exact H|intros a b c H1 H2 H; auto]. Qed.

(** ** Separators

    Composite keys are built by joining components with a separator; these
    lemmas say when the components can be read back. *)

Section separators.
Context {A : Type}.
Implicit Types (x : A) (l k : list A).

Lemma sep_first_inj x l1 l2 k1 k2 :
  x ∉ l1 -> x ∉ l2 -> l1 ++ x :: k1 = l2 ++ x :: k2 -> l1 = l2 /\ k1 = k2.
Proof.
  revert l2. induction l1 as [|y l1 IH]; intros [|z l2] H1 H2 E; simpl in *;
    rewrite ?not_elem_of_cons in *; destruct_and?; simplify_eq; [done|].
  edestruct IH as [-> ->]; done.
Qed.

Lemma sep_last_inj x l1 l2 k1 k2 :
  x ∉ k1 -> x ∉ k2 -> l1 ++ x :: k1 = l2 ++ x :: k2 -> l1 = l2 /\ k1 = k2.
Proof.
  intros H1 H2 E.
  destruct (sep_first_inj x (reverse k1) (reverse k2) (reverse l1) (reverse l2))
    as [Ek El]; [by rewrite elem_of_reverse|by rewrite elem_of_reverse|..].
  - apply (f_equal reverse) in E.
    by rewrite !reverse_app, !reverse_cons, <- !app_assoc in E.
  - by simplify_eq.
Qed.
End separators.

(** ** Lists *)

Lemma list_filter_all {A} (P : A -> Prop) `{!forall x, Decision (P x)} l :
  Forall P l -> filter P l = l.
Proof.
  induction 1 as [|x l Hx _ IH]; [done|].
  by rewrite filter_cons_True, IH.
Qed.

Lemma filter_none {A} (P : A -> Prop) `{!forall x, Decision (P x)} l :
  (forall x, x ∈ l -> ~ P x) -> filter P l = [].
Proof.
  induction l as [|x l IH]; [done|]. intros Hno.
  rewrite filter_cons_False by (apply Hno; by left). apply IH. intros y Hy. apply Hno. by right.
Qed.

Lemma filter_all {A} (P : A -> Prop) `{!forall x, Decision (P x)} (l : list A) :
  (forall x, x ∈ l -> P x) -> filter P l = l.
Proof. intros Hl. by apply list_filter_all, Forall_forall. Qed.

Lemma filter_ext_in {A} (P Q : A -> Prop) `{!forall x, Decision (P x), !forall x, Decision (Q x)}
    (l : list A) :
  (forall x, x ∈ l -> P x <-> Q x) -> filter P l = filter Q l.
Proof.
  induction l as [|x l IH]; intros Hl; [done|].
  rewrite !filter_cons, IH by (intros y Hy; apply Hl; by right).
  destruct (Hl x) as [H1 H2]; [by left|]. repeat case_decide; tauto || done.
Qed.

Lemma length_filter_split {A} (P Q R : A -> Prop)
    `{!forall x, Decision (P x), !forall x, Decision (Q x), !forall x, Decision (R x)} (l : list A) :
  (forall x, x ∈ l -> P x <-> Q x \/ R x) -> (forall x, Q x -> R x -> False) ->
  length (filter P l) = (length (filter Q l) + length (filter R l))%nat.
Proof.
  intros Hl Hd. induction l as [|x l IH]; [done|].
  rewrite !filter_cons. specialize (IH (fun y Hy => Hl y (list_elem_of_further _ _ _ Hy))).
  pose proof (Hl x (list_elem_of_here _ _)) as Hx. pose proof (Hd x).
  repeat case_decide; cbn; first [lia|tauto].
Qed.

Lemma length_filter_drop {A} (P Q : A -> Prop) `{!forall x, Decision (P x), !forall x, Decision (Q x)}
    (l : list A) i :
  NoDup l -> i ∈ l -> P i -> ~ Q i -> (forall x, x ∈ l -> x <> i -> P x <-> Q x) ->
  length (filter P l) = S (length (filter Q l)).
Proof.
  intros Hn. induction Hn as [|x l Hx Hn IH]; [by intros ?%elem_of_nil|].
  intros Hin HP HQ Hl. rewrite !filter_cons. apply elem_of_cons in Hin as [->|Hin].
  - rewrite decide_True, decide_False by done. cbn. do 2 f_equal. apply filter_ext_in.
    intros y Hy. apply Hl; [by right|]. by intros ->.
  - assert (x <> i) by (by intros ->). pose proof (Hl x (list_elem_of_here _ _)) as E.
    assert (IH' := IH Hin HP HQ (fun y Hy => Hl y (list_elem_of_further _ _ _ Hy))).
    repeat case_decide; cbn; first [lia|tauto].
Qed.

Lemma NoDup_take {A} n (l : list A) : NoDup l -> NoDup (take n l).
Proof.
  intros H. rewrite <- (take_drop n l) in H. by apply NoDup_app in H as [? _].
Qed.

(** ** Sums over maps *)

Section map_sum.
Context `{Countable K} {A : Type} (f : A -> Z).
Implicit Types (m : gmap K A).

Definition map_sum (m : gmap K A) : Z := map_fold (fun _ a n => f a + n) 0 m.

Lemma map_sum_new m k a : m !! k = None -> map_sum (<[k := a]> m) = f a + map_sum m.
Proof. intros Hk. unfold map_sum. rewrite map_fold_insert_L by (done || (intros; lia)). done. Qed.

Lemma map_sum_delete m k : map_sum (delete k m) = map_sum m - from_option f 0 (m !! k).
Proof.
  destruct (m !! k) as [a|] eqn:E; cbn; [|rewrite delete_id by done; lia].
  rewrite <- (insert_delete_id m k a) at 2 by done.
  rewrite map_sum_new by apply lookup_delete_eq. lia.
Qed.

Lemma map_sum_insert m k a : map_sum (<[k := a]> m) = map_sum m - from_option f 0 (m !! k) + f a.
Proof.
  rewrite <- insert_delete_eq, map_sum_new by apply lookup_delete_eq.
  rewrite map_sum_delete. lia.
Qed.

Lemma map_sum_nonneg m : (forall k a, m !! k = Some a -> 0 <= f a) -> 0 <= map_sum m.
Proof.
  induction m as [|k a m Hk IH] using map_ind; intros Hf; [unfold map_sum; by rewrite map_fold_empty|].
  rewrite map_sum_new by done. specialize (Hf k a) as Ha. rewrite lookup_insert_eq in Ha.
  specialize (Ha eq_refl). enough (0 <= map_sum m) by lia. apply IH. intros j b Hj.
  apply (Hf j). rewrite lookup_insert_ne; [done|]. by intros ->; congruence.
Qed.

Lemma map_sum_zero m : (forall k a, m !! k = Some a -> f a = 0) -> map_sum m = 0.
Proof.
  induction m as [|k a m Hk IH] using map_ind; intros Hf; [unfold map_sum; by rewrite map_fold_empty|].
  rewrite map_sum_new by done. rewrite (Hf k a) by apply lookup_insert_eq.
  rewrite IH; [lia|]. intros j b Hj.
  apply (Hf j). rewrite lookup_insert_ne; [done|]. by intros ->; congruence.
Qed.
End map_sum.

(** ** Sets of strings *)

Lemma gset_remove_absent (x : string) (X : gset string) : x ∉ X -> X ∖ {[x]} = X.
Proof. set_solver. Qed.

Lemma gset_readd (x : string) (X : gset string) : {[x]} ∪ X ∖ {[x]} = {[x]} ∪ X.
Proof.
  apply set_eq. intros y. rewrite !elem_of_union, elem_of_difference, elem_of_singleton.
  destruct (decide (y = x)); tauto.
Qed.

(** ** Strings *)

Abbreviation chars := list_ascii_of_string.

Lemma chars_app s t : chars (s +:+ t) = chars s ++ chars t.
Proof. induction s as [|a s IH]; simpl; [done|by rewrite IH]. Qed.

Lemma length_chars s : length (chars s) = String.length s.
Proof. induction s; simpl; auto. Qed.

Lemma string_app_nil_r s : s +:+ "" = s.
Proof. induction s as [|a s IH]; [done|]. by apply (f_equal (String a)). Qed.

Lemma string_app_assoc s t u : s +:+ (t +:+ u) = (s +:+ t) +:+ u.
Proof. induction s as [|a s IH]; [done|]. by apply (f_equal (String a)). Qed.

Lemma chars_inj s t : chars s = chars t -> s = t.
Proof.
  intros E. by rewrite <- (string_of_list_ascii_of_string s), E,
    string_of_list_ascii_of_string.
Qed.

(** [strings.HasPrefix] and [strings.TrimPrefix] in one: the rest of a string
    that starts with a prefix. *)
Fixpoint cutPrefix (p s : string) : option string :=
  match p, s with
  | EmptyString, _ => Some s
  | String a p, String b s => if decide (a = b) then cutPrefix p s else None
  | String _ _, EmptyString => None
  end.

Lemma cutPrefix_Some p s t : cutPrefix p s = Some t <-> s = p +:+ t.
Proof.
  revert s. induction p as [|a p IH]; intros s; [simpl; naive_solver|].
  destruct s as [|b s]; [done|]. simpl. case_decide as E; [subst|].
  - rewrite IH. split; [by intros ->|]. by intros [= ->].
  - split; [done|]. intros [= ? _]. congruence.
Qed.

(** ** Results of Go code

    A computation returns a value, returns an error, panics (an index out of
    range), or exhausts the fuel of a loop whose recursion is not
    structural. *)

Inductive res (A : Type) : Type :=
| Ok (a : A)
| Err (msg : string)
| Panic
| OutOfFuel.
Arguments Ok {A} a.
Arguments Err {A} msg.
Arguments Panic {A}.
Arguments OutOfFuel {A}.

#[export] Instance res_ret : MRet res := fun _ a => Ok a.
#[export] Instance res_bind : MBind res := fun _ _ f m =>
  match m with
  | Ok a => f a
  | Err e => Err e
  | Panic => Panic
  | OutOfFuel => OutOfFuel
  end.

(** Reading and writing a slice at an index; out of range panics. *)
Definition idx {A} (l : list A) (i : nat) : res A :=
  match l !! i with Some a => Ok a | None => Panic end.
Definition idx_alter {A} (f : A -> A) (l : list A) (i : nat) : res (list A) :=
  if decide (i < length l)%nat then Ok (alter f i l) else Panic.

Lemma idx_Ok {A} (l : list A) i a : idx l i = Ok a <-> l !! i = Some a.
Proof. unfold idx. destruct (l !! i); naive_solver. Qed.

Lemma idx_alter_Ok {A} (f : A -> A) l i :
  (i < length l)%nat -> idx_alter f l i = Ok (alter f i l).
Proof. intros. unfold idx_alter. by rewrite decide_True. Qed.

Lemma res_bind_Ok {A B} (m : res A) (f : A -> res B) b :
  (m ≫= f) = Ok b <-> exists a, m = Ok a /\ f a = Ok b.
Proof. destruct m; simpl; naive_solver. Qed.

(** A loop over a slice that threads a state. *)
Fixpoint foldM {S A} (f : S -> A -> res S) (l : list A) (s : S) : res S :=
  match l with
  | [] => Ok s
  | a :: l => f s a ≫= foldM f l
  end.

