(* ===== verification/Keys.v ===== *)
(** * Composite keys and outbox ids

    The memory backend stores every record in Go maps whose keys are strings
    joined with slashes ([memoryNodeKey], [memoryCounterKey], ...), and names
    every durable intent by a slash-joined outbox id.  This file holds the key
    builders as the code writes them and shows when a key determines its
    components. *)

From S2P Require Import Prelude.

(** [fmt.Sprintf("%d", z)] and [strconv.Itoa]. *)
Definition itoa (z : Z) : string := pretty z.

Definition memoryNodeKey (id name : string) : string := id +:+ "/" +:+ name.

Definition memoryCounterKey (id : string) (unitIdx : Z) : string :=
  id +:+ "/" +:+ itoa unitIdx.

Definition memoryAdvanceKey (id name : string) (activationID : Z) : string :=
  id +:+ "/" +:+ name +:+ "/" +:+ itoa activationID.

Definition advanceOutboxID (id name : string) (activationID : Z) : string :=
  "advance/" +:+ id +:+ "/" +:+ name +:+ "/" +:+ itoa activationID.

Definition mergeCancelOutboxID (id name : string) (activationID : Z) : string :=
  "mergecancel/" +:+ id +:+ "/" +:+ name +:+ "/" +:+ itoa activationID.

Definition executeOutboxID (id name : string) (activationID : Z) : string :=
  "execute/" +:+ id +:+ "/" +:+ name +:+ "/" +:+ itoa activationID.

Definition skipOutboxID (id name : string) (activationID : Z) : string :=
  "skip/" +:+ id +:+ "/" +:+ name +:+ "/" +:+ itoa activationID.

Definition initialOutboxID (id name : string) (activationID : Z) : string :=
  "root/" +:+ id +:+ "/" +:+ name +:+ "/" +:+ itoa activationID.

Definition retryOutboxID (id name : string) (activationID attempt : Z) : string :=
  "retry/" +:+ id +:+ "/" +:+ name +:+ "/" +:+ itoa activationID +:+ "/" +:+ itoa attempt.

Definition requeueOutboxID (id name : string) (activationID : Z) (leaseID : string) : string :=
  "requeue/" +:+ id +:+ "/" +:+ name +:+ "/" +:+ itoa activationID +:+ "/" +:+ leaseID.

Definition requeueGroupOutboxID (id : string) (unitIdx : Z) (leaseID : string) : string :=
  "requeue-group/" +:+ id +:+ "/" +:+ itoa unitIdx +:+ "/" +:+ leaseID.

Definition cyclicOutboxID (id name : string) (activationID : Z) : string :=
  "cyclic/" +:+ id +:+ "/" +:+ name +:+ "/" +:+ itoa activationID.

(** An identifier without the separator: what makes a joined key readable. *)
Definition slash_free (s : string) : Prop := "/"%char ∉ chars s.

#[export] Instance slash_free_dec s : Decision (slash_free s).
Proof. unfold slash_free. apply _. Defined.

(** ** Reading keys back *)

Lemma join_last_inj s1 s2 t1 t2 :
  slash_free t1 -> slash_free t2 ->
  s1 +:+ "/" +:+ t1 = s2 +:+ "/" +:+ t2 -> s1 = s2 /\ t1 = t2.
Proof.
  intros H1 H2 E. apply (f_equal chars) in E. rewrite !chars_app in E.
  apply sep_last_inj in E as [E1 E2]; [|done..].
  by split; apply chars_inj.
Qed.

Lemma string_app_inj_l (p s t : string) : p +:+ s = p +:+ t -> s = t.
Proof. induction p; simpl; [done|intros [= ?]; auto]. Qed.

(** A character that is neither a digit nor a sign. *)
Definition not_numeric (c : ascii) : Prop :=
  c <> "-"%char /\ forall n, pretty_N_char n <> c.

Lemma not_numeric_slash : not_numeric "/".
Proof. split; [done|]. intros n. unfold pretty_N_char. by repeat case_match. Qed.

Lemma not_numeric_colon : not_numeric ":".
Proof. split; [done|]. intros n. unfold pretty_N_char. by repeat case_match. Qed.

Lemma pretty_N_go_free c n s :
  not_numeric c -> c ∉ chars s -> c ∉ chars (pretty_N_go n s).
Proof.
  intros [_ Hc]. revert s. induction (N.lt_wf_0 n) as [n _ IH]. intros s Hs.
  destruct (decide (n = 0)%N) as [->|Hn]; [by rewrite pretty_N_go_0|].
  rewrite pretty_N_go_step by lia. apply IH; [apply N.div_lt; lia|].
  simpl. rewrite not_elem_of_cons; split; [|done].
  intros E. by apply (Hc (n `mod` 10)%N).
Qed.

Lemma pretty_N_free c (n : N) : not_numeric c -> c ∉ chars (pretty n).
Proof.
  intros Hc. unfold pretty, pretty_N. case_decide.
  - simpl. destruct Hc as [_ Hc]. specialize (Hc 0%N). simpl in Hc.
    rewrite list_elem_of_singleton. congruence.
  - apply pretty_N_go_free; [done|]. by apply not_elem_of_nil.
Qed.

Lemma itoa_free c z : not_numeric c -> c ∉ chars (itoa z).
Proof.
  intros Hc. unfold itoa, pretty, pretty_Z. destruct z as [|p|p].
  - by apply (pretty_N_free c 0).
  - by apply pretty_N_free.
  - rewrite chars_app. simpl. rewrite not_elem_of_cons.
    split; [by destruct Hc|by apply pretty_N_free].
Qed.

Lemma slash_free_itoa z : slash_free (itoa z).
Proof. apply itoa_free, not_numeric_slash. Qed.

Lemma itoa_inj z1 z2 : itoa z1 = itoa z2 -> z1 = z2.
Proof. apply (inj pretty). Qed.

#[export] Hint Resolve slash_free_itoa : core.

(** ** Keys determine their components *)

Lemma memoryNodeKey_name_inj id n1 n2 :
  memoryNodeKey id n1 = memoryNodeKey id n2 -> n1 = n2.
Proof. intros E. apply string_app_inj_l in E. by simplify_eq/=. Qed.

(** A length-prefixed component can be cut off the front whatever bytes it
    holds. *)
Lemma length_prefix_inj s1 s2 t1 t2 :
  itoa (Z.of_nat (String.length s1)) +:+ ":" +:+ s1 +:+ t1
  = itoa (Z.of_nat (String.length s2)) +:+ ":" +:+ s2 +:+ t2 -> s1 = s2 /\ t1 = t2.
Proof.
  intros E. apply (f_equal chars) in E. rewrite !chars_app in E.
  change (chars ":") with [":"%char] in E. cbn [app] in E.
  apply sep_first_inj in E as [E1 E2]; [|apply itoa_free, not_numeric_colon..].
  apply chars_inj, itoa_inj in E1.
  apply app_inj_1 in E2 as [E2 E3]; [|rewrite !length_chars; lia].
  by split; apply chars_inj.
Qed.
