(* ===== verification/Types.v ===== *)
(** * Domain types

    The types of [src/types] and the request, task and snapshot structures of
    [src/engine], with the source's field names (prefixed per structure).
    Instants are nanoseconds since 0001-01-01T00:00:00Z, so that Go's zero
    [time.Time] is [0]; durations are nanoseconds.  A [map[string]any] is an
    optional finite map, [None] being Go's nil map; copying such a map
    ([cloneData]) is the identity on values. *)

From Stdlib Require Import SpecFloat.
From S2P Require Import Prelude Keys.

(** ** Dynamic values *)

Inductive any : Type :=
| ANil
| ABool (b : bool)
| ANum (z : Z)
| AStr (s : string)
| AArr (l : list any)
| AObj (l : list (string * any)).

Abbreviation Data := (option (gmap string any)).

Definition cloneData (d : Data) : Data :=
  match d with None => None | Some m => Some m end.

Lemma cloneData_id d : cloneData d = d.
Proof. by destruct d. Qed.

(** ** Time *)

Definition Time := Z.
Definition Duration := Z.

Definition Millisecond : Duration := 1000000.
Definition Second : Duration := 1000000000.

Definition zeroTime : Time := 0.
Definition IsZero (t : Time) : bool := t =? zeroTime.
Definition After (t u : Time) : bool := u <? t.
Definition Before (t u : Time) : bool := t <? u.
Definition Equal (t u : Time) : bool := t =? u.
Definition Add (t : Time) (d : Duration) : Time := t + d.

(** Nanoseconds from 0001-01-01 to the Unix epoch. *)
Definition unixEpoch : Time := 62135596800 * Second.

Definition UnixMilli (t : Time) : Z := (t - unixEpoch) / Millisecond.

(** [t.Sub(u)] saturates at the bounds of an int64 duration. *)
Definition maxDuration : Duration := 9223372036854775807.
Definition minDuration : Duration := -9223372036854775808.
Definition Sub (t u : Time) : Duration :=
  Z.max minDuration (Z.min maxDuration (t - u)).

(** ** Statuses *)

Inductive ExecutionStatus : Type :=
| ExecutionStatusNone  (* the zero value, "" *)
| ExecutionStatusPending
| ExecutionStatusRunning
| ExecutionStatusSuccess
| ExecutionStatusFailed
| ExecutionStatusCanceling
| ExecutionStatusCanceled
| ExecutionStatusTimeout
| ExecutionStatusQueued
| ExecutionStatusPaused.

#[export] Instance ExecutionStatus_eq_dec : EqDecision ExecutionStatus.
Proof. solve_decision. Defined.

Inductive NodeStatus : Type :=
| NodeStatusPending
| NodeStatusRunning
| NodeStatusCommitting
| NodeStatusSuccess
| NodeStatusFailed
| NodeStatusSkipped
| NodeStatusSuspended
| NodeStatusContinued
| NodeStatusCanceled
| NodeStatusWaiting
| NodeStatusPinned
| NodeStatusExpired.

#[export] Instance NodeStatus_eq_dec : EqDecision NodeStatus.
Proof. solve_decision. Defined.

Definition IsTerminalExecutionStatus (s : ExecutionStatus) : bool :=
  match s with
  | ExecutionStatusSuccess | ExecutionStatusFailed
  | ExecutionStatusCanceled | ExecutionStatusTimeout => true
  | _ => false
  end.

Definition IsTerminalNodeStatus (s : NodeStatus) : bool :=
  match s with
  | NodeStatusSuccess | NodeStatusFailed | NodeStatusSkipped
  | NodeStatusCanceled | NodeStatusContinued | NodeStatusPinned => true
  | _ => false
  end.

(** ** Suspension and signals *)

Inductive SuspendMode : Type := ModeSignal | ModeTimer | ModeMultiSignal.

#[export] Instance SuspendMode_eq_dec : EqDecision SuspendMode.
Proof. solve_decision. Defined.

Record SuspendSpec : Type := mkSuspendSpec {
  sp_Mode : SuspendMode;
  sp_Signals : list string;
  sp_Quorum : Z;
  sp_Timer : Duration;
  sp_Timeout : Duration;
  sp_StripFromOutput : list string
}.

Inductive SignalTrigger : Type := SignalReceived | TimeoutFired | TimerFired.

Record SignalPayload : Type := mkSignalPayload {
  pl_Triggered : SignalTrigger;
  pl_Name : string;
  pl_Data : Data;
  pl_All : option (gmap string Data)
}.

(** ** Tasks and durable intents *)

Inductive TaskType : Type :=
| TaskTypeNodeExec
| TaskTypeNodeResume
| TaskTypeNodeAdvance
| TaskTypeNodeSkip
| TaskTypeNodeBatch
| TaskTypeGroupExec
| TaskTypeSubWorkflow
| TaskTypeMergeCancel.

#[export] Instance TaskType_eq_dec : EqDecision TaskType.
Proof. solve_decision. Defined.

Record Task : Type := mkTask {
  t_ExecutionID : string;
  t_NodeName : string;
  t_NodeIdx : Z;
  t_Type : TaskType;
  t_Payload : option SignalPayload;
  t_AutoDepth : Z;
  t_ActivationID : Z;
  t_Port : option string;
  t_UnitIdx : Z;
  t_DeliverableAt : Time;
  t_IntentCreatedAt : Time;
  t_Generation : Z
}.

#[export] Instance Eta_Task : Eta Task := fun r =>
  mkTask (t_ExecutionID r) (t_NodeName r) (t_NodeIdx r) (t_Type r) (t_Payload r)
    (t_AutoDepth r) (t_ActivationID r) (t_Port r) (t_UnitIdx r)
    (t_DeliverableAt r) (t_IntentCreatedAt r) (t_Generation r).

(** The zero [Task]; struct literals update its fields. *)
Definition zeroTask : Task :=
  mkTask "" "" 0 TaskTypeNodeExec None 0 0 None 0 zeroTime zeroTime 0.

Record OutboxEntry : Type := mkOutboxEntry {
  oe_ID : string;
  oe_Task : Task;
  oe_AvailableAt : Time;
  oe_CreatedAt : Time;
  oe_Attempts : Z;
  oe_LeasedFromScoreMs : Z;
  oe_LeaseDeadlineMs : Z
}.

#[export] Instance Eta_OutboxEntry : Eta OutboxEntry := fun r =>
  mkOutboxEntry (oe_ID r) (oe_Task r) (oe_AvailableAt r) (oe_CreatedAt r)
    (oe_Attempts r) (oe_LeasedFromScoreMs r) (oe_LeaseDeadlineMs r).

Definition cloneTask (t : Task) : Task := t.
Definition cloneOutboxEntry (e : OutboxEntry) : OutboxEntry :=
  e <| oe_Task ::= cloneTask |>.

(** ** Retries *)

(** [Multiplier] is an IEEE 754 double. *)
Record RetrySettings : Type := mkRetrySettings {
  rs_Enabled : option bool;
  rs_MaxAttempts : Z;
  rs_Strategy : string;
  rs_InitialInterval : Z;
  rs_MaxInterval : Z;
  rs_Multiplier : spec_float
}.

Definition IsEnabled (r : option RetrySettings) : bool :=
  match r with
  | None => false
  | Some r => default true (rs_Enabled r) && (0 <? rs_MaxAttempts r)
  end.

(** ** Leases and node snapshots *)

Inductive CommitOutcome : Type :=
| CommitOutcomeAccepted
| CommitOutcomeDuplicateTerminal
| CommitOutcomeStaleToken
| CommitOutcomeExecutionInactive
| CommitOutcomeTransientError.

#[export] Instance CommitOutcome_eq_dec : EqDecision CommitOutcome.
Proof. solve_decision. Defined.

Definition ReleasesLeasedCapacity (o : CommitOutcome) : bool :=
  match o with
  | CommitOutcomeAccepted | CommitOutcomeDuplicateTerminal
  | CommitOutcomeStaleToken | CommitOutcomeExecutionInactive => true
  | CommitOutcomeTransientError => false
  end.

(** The part of [engine.TaskLease] the store reads. *)
Record TaskLease : Type := mkTaskLease {
  tl_LeaseID : string;
  tl_LeaseToken : string;
  tl_Attempt : Z;
  tl_Task : Task;
  tl_IssuedAt : Time;
  tl_TTL : Duration
}.

Definition Deadline (l : TaskLease) : Time :=
  if IsZero (tl_IssuedAt l) || (tl_TTL l <=? 0) then zeroTime
  else Add (tl_IssuedAt l) (tl_TTL l).

Record NodeSnapshot : Type := mkNodeSnapshot {
  ns_ExecutionID : string;
  ns_Name : string;
  ns_NodeIdx : Z;
  ns_UnitIdx : Z;
  ns_Status : NodeStatus;
  ns_LeaseID : string;
  ns_LeaseToken : string;
  ns_Attempt : Z;
  ns_ActivationID : Z;
  ns_AutoDepth : Z;
  ns_LeaseIssuedAt : Time;
  ns_LeaseTTL : Duration;
  ns_LeaseTaskType : TaskType;
  ns_LeasePayload : option SignalPayload;
  ns_LeaseGeneration : Z;
  ns_CommittedLeaseToken : string;
  ns_CommittedAttempt : Z;
  ns_StartedAt : Time;
  ns_FinishedAt : Time;
  ns_Output : Data;
  ns_PrivateOutput : bool;
  ns_Port : string;
  ns_Error : string;
  ns_ErrorDetails : Data;
  ns_ChildExecutionID : string
}.

#[export] Instance Eta_NodeSnapshot : Eta NodeSnapshot := fun r =>
  mkNodeSnapshot (ns_ExecutionID r) (ns_Name r) (ns_NodeIdx r) (ns_UnitIdx r)
    (ns_Status r) (ns_LeaseID r) (ns_LeaseToken r) (ns_Attempt r)
    (ns_ActivationID r) (ns_AutoDepth r) (ns_LeaseIssuedAt r) (ns_LeaseTTL r)
    (ns_LeaseTaskType r) (ns_LeasePayload r) (ns_LeaseGeneration r)
    (ns_CommittedLeaseToken r) (ns_CommittedAttempt r) (ns_StartedAt r)
    (ns_FinishedAt r) (ns_Output r) (ns_PrivateOutput r) (ns_Port r)
    (ns_Error r) (ns_ErrorDetails r) (ns_ChildExecutionID r).

Definition zeroNodeSnapshot : NodeSnapshot :=
  mkNodeSnapshot "" "" 0 0 NodeStatusPending "" "" 0 0 0 zeroTime 0
    TaskTypeNodeExec None 0 "" 0 zeroTime zeroTime None false "" "" None "".

(** ** Scheduling requests *)

Record DownstreamArrival : Type := mkArrival {
  da_NodeName : string;
  da_NodeIdx : Z;
  da_UnitIdx : Z;
  da_ArrivalCount : Z;
  da_ActiveCount : Z;
  da_MergeMode : string;
  da_ExecTaskType : TaskType
}.

#[export] Instance Eta_DownstreamArrival : Eta DownstreamArrival := fun r =>
  mkArrival (da_NodeName r) (da_NodeIdx r) (da_UnitIdx r) (da_ArrivalCount r)
    (da_ActiveCount r) (da_MergeMode r) (da_ExecTaskType r).

Record SkippedUnit : Type := mkSkippedUnit {
  sk_NodeName : string;
  sk_Count : Z
}.

Record CommitNodeRequest : Type := mkCommitNodeRequest {
  req_ExecutionID : string;
  req_NodeName : string;
  req_NodeIdx : Z;
  req_UnitIdx : Z;
  req_ActivationID : Z;
  req_AutoDepth : Z;
  req_LeaseID : string;
  req_LeaseToken : string;
  req_Attempt : Z;
  req_Status : NodeStatus;
  req_Output : Data;
  req_StoreOutput : bool;
  req_ReclaimOutputNames : list string;
  req_PrivateOutput : bool;
  req_Port : string;
  req_Error : string;
  req_ErrorDetails : Data;
  req_System : bool;
  req_Fatal : bool;
  req_AdvanceTask : option Task;
  req_MergeCancel : option Task;
  req_Arrivals : list DownstreamArrival;
  req_AllowCycles : bool;
  req_CyclicOutbox : list OutboxEntry;
  req_CyclicComplete : bool;
  req_CyclicFinalStatus : ExecutionStatus;
  req_CyclicFinalError : string
}.

#[export] Instance Eta_CommitNodeRequest : Eta CommitNodeRequest := fun r =>
  mkCommitNodeRequest (req_ExecutionID r) (req_NodeName r) (req_NodeIdx r)
    (req_UnitIdx r) (req_ActivationID r) (req_AutoDepth r) (req_LeaseID r)
    (req_LeaseToken r) (req_Attempt r) (req_Status r) (req_Output r)
    (req_StoreOutput r) (req_ReclaimOutputNames r) (req_PrivateOutput r)
    (req_Port r) (req_Error r) (req_ErrorDetails r) (req_System r) (req_Fatal r)
    (req_AdvanceTask r) (req_MergeCancel r) (req_Arrivals r) (req_AllowCycles r)
    (req_CyclicOutbox r) (req_CyclicComplete r) (req_CyclicFinalStatus r)
    (req_CyclicFinalError r).

Definition zeroCommitNodeRequest : CommitNodeRequest :=
  mkCommitNodeRequest "" "" 0 0 0 0 "" "" 0 NodeStatusPending None false []
    false "" "" None false false None None [] false [] false
    ExecutionStatusNone "".

Record CommitNodeResult : Type := mkCommitNodeResult {
  res_Outcome : CommitOutcome;
  res_Applied : bool;
  res_ExecutionDone : bool;
  res_ExecutionStatus : ExecutionStatus;
  res_OutboxIDs : list string;
  res_Skipped : list SkippedUnit
}.

#[export] Instance Eta_CommitNodeResult : Eta CommitNodeResult := fun r =>
  mkCommitNodeResult (res_Outcome r) (res_Applied r) (res_ExecutionDone r)
    (res_ExecutionStatus r) (res_OutboxIDs r) (res_Skipped r).

(** A result that carries only an outcome. *)
Definition outcomeOnly (o : CommitOutcome) : CommitNodeResult :=
  mkCommitNodeResult o false false ExecutionStatusNone [] [].

Record AdvanceNodeRequest : Type := mkAdvanceNodeRequest {
  adv_ExecutionID : string;
  adv_NodeName : string;
  adv_NodeIdx : Z;
  adv_ActivationID : Z;
  adv_AutoDepth : Z;
  adv_Arrivals : list DownstreamArrival
}.

Record AdvanceNodeResult : Type := mkAdvanceNodeResult {
  advr_Applied : bool;
  advr_OutboxIDs : list string;
  advr_Skipped : list SkippedUnit
}.

Definition TerminalExecutionError (status : ExecutionStatus)
    (nodeErr cyclicErr : string) : string :=
  if decide (status <> ExecutionStatusFailed) then ""
  else if decide (cyclicErr <> "") then cyclicErr
  else nodeErr.
