(* ===== verification/Retry.v ===== *)
(** * Retry delays

    [engine/retry.go]: the delay before a failed attempt runs again, computed in
    IEEE 754 doubles (the standard library's [SpecFloat]) and 64-bit integers,
    with a jitter taken from an FNV-1a hash. *)

From Stdlib Require Import SpecFloat.
From S2P Require Import Prelude Keys Types.

(** ** Machine arithmetic *)

(** The value of an [int64] after an operation whose exact result is [z]. *)
Definition wrap64 (z : Z) : Z := (z + 2 ^ 63) mod 2 ^ 64 - 2 ^ 63.

Definition float_mul : spec_float -> spec_float -> spec_float := SFmul 53 1024.
Definition float_of (z : Z) : spec_float := binary_normalize 53 1024 z 0 false.

(** [int64(f)] truncates; Go leaves the conversion of the infinities and of NaN
    unspecified. *)
Definition truncate (f : spec_float) : option Z :=
  match f with
  | S754_zero _ => Some 0
  | S754_finite s m e =>
      let v := if 0 <=? e then Z.pos m * 2 ^ e else Z.pos m / 2 ^ (- e) in
      Some (if s then - v else v)
  | S754_infinity _ | S754_nan => None
  end.

(** ** The hash *)

Definition fnvByte (h b : Z) : Z := (Z.lxor h b * 1099511628211) mod 2 ^ 64.
Definition fnv64a (bytes : list Z) : Z := foldl fnvByte 14695981039346656037 bytes.
Definition bytesOf (s : string) : list Z := map (fun c => Z.of_N (N_of_ascii c)) (chars s).

(** ** The delay *)

Definition retryBackoffCap : Duration := 300 * Second.
Abbreviation RetryStrategyFixed := "fixed".

Definition jitterFor (execID nodeName : string) (attempt : Z) (d : Duration) : Duration :=
  if d <=? 0 then 0
  else
    let byte (z : Z) := z mod 256 in
    let h := fnv64a (bytesOf execID ++ [0] ++ bytesOf nodeName ++ [0] ++
                     [byte attempt; byte (attempt ≫ 8); byte (attempt ≫ 16); byte (attempt ≫ 24)]) in
    let span := d `quot` 5 in
    if span <=? 0 then 0 else h mod (2 * span) - span.

(** The loop, at most [n] further rounds. *)
Fixpoint grow (multiplier capF : spec_float) (n : nat) (d : spec_float) : spec_float :=
  match n with
  | O => d
  | S n =>
      let d := float_mul d multiplier in
      if SFleb capF d then capF else grow multiplier capF n d
  end.

Definition retryBase (settings : option RetrySettings) : Duration :=
  match settings with
  | Some r => if 0 <? rs_InitialInterval r then wrap64 (rs_InitialInterval r * Millisecond) else Second
  | None => Second
  end.

Definition retryMultiplier (settings : option RetrySettings) : spec_float :=
  match settings with
  | Some r => if SFltb (S754_zero false) (rs_Multiplier r) then rs_Multiplier r else float_of 2
  | None => float_of 2
  end.

(** The delay before jitter. *)
Definition retryDelay (attempt : Z) (settings : option RetrySettings) : option Duration :=
  let capF := float_of retryBackoffCap in
  let fixed := match settings with
               | Some r => bool_decide (rs_Strategy r = RetryStrategyFixed)
               | None => false
               end in
  let rounds := if fixed then 0%nat else Z.to_nat (Z.min attempt 32) in
  let d := grow (retryMultiplier settings) capF rounds (float_of (retryBase settings)) in
  let d := if SFleb capF d then capF else d in
  out ← truncate d;
  let out := match settings with
             | Some r => if 0 <? rs_MaxInterval r
                         then Z.min out (wrap64 (rs_MaxInterval r * Millisecond)) else out
             | None => out
             end in
  Some (Z.min out retryBackoffCap).

Definition retryBackoff (attempt : Z) (settings : option RetrySettings) (execID nodeName : string)
    : option Duration :=
  let attempt := Z.max attempt 0 in
  out ← retryDelay attempt settings;
  Some (out + jitterFor execID nodeName attempt out).

(** ** The delay is bounded *)

(** A double without sign, up to the infinity. *)
Definition unsigned (f : spec_float) : Prop :=
  match f with
  | S754_zero false | S754_finite false _ _ | S754_infinity false => True
  | _ => False
  end.

Lemma shr_1_nonneg r : 0 <= shr_m r -> 0 <= shr_m (shr_1 r).
Proof. destruct r as [[|[p|p|]|p] b s]; cbn; intros; lia. Qed.

Lemma iter_shr_nonneg n r : 0 <= shr_m r -> 0 <= shr_m (SpecFloat.iter_pos shr_1 n r).
Proof. revert r. induction n as [n IH|n IH|]; cbn; auto using shr_1_nonneg. Qed.

Lemma shr_fexp_nonneg m e l : 0 <= m -> 0 <= shr_m (shr_fexp 53 1024 m e l).1.
Proof.
  intros Hm. unfold shr_fexp, shr.
  assert (Hr : 0 <= shr_m (shr_record_of_loc m l)) by (destruct l as [|[]]; done).
  case_match; cbn; [done|by apply iter_shr_nonneg|done].
Qed.

Lemma round_nonneg m e l : 0 <= m -> unsigned (binary_round_aux 53 1024 false m e l).
Proof.
  intros Hm. unfold binary_round_aux. pose proof (shr_fexp_nonneg m e l Hm) as H1.
  destruct (shr_fexp 53 1024 m e l) as [r1 e1]. cbn [fst] in H1.
  set (m' := round_nearest_even _ _).
  assert (Hm' : 0 <= m') by (unfold m', round_nearest_even; repeat case_match; lia).
  pose proof (shr_fexp_nonneg m' e1 loc_Exact Hm') as H2.
  destruct (shr_fexp 53 1024 m' e1 loc_Exact) as [r2 e2]. cbn [fst] in H2.
  destruct (shr_m r2); [done|by case_match|lia].
Qed.

Lemma float_of_unsigned z : 0 <= z -> unsigned (float_of z).
Proof.
  intros Hz. unfold float_of, binary_normalize. destruct z as [|p|p]; [done| |lia].
  unfold binary_round. destruct (shl_align _ _ _). by apply round_nonneg.
Qed.

Lemma float_mul_unsigned f m e : unsigned f -> unsigned (float_mul f (S754_finite false m e)).
Proof. intros Hf. destruct f as [[]|[]| |[]]; try done. by apply round_nonneg. Qed.

Definition capF : spec_float := Eval vm_compute in float_of retryBackoffCap.

Lemma float_cap : float_of retryBackoffCap = capF.
Proof. by vm_compute. Qed.

Lemma grow_unsigned m e n d : unsigned d -> unsigned (grow (S754_finite false m e) capF n d).
Proof.
  revert d. induction n as [|n IH]; intros d Hd; [done|]. cbn [grow].
  destruct (SFleb _ _); [done|]. by apply IH, float_mul_unsigned.
Qed.

Lemma truncate_unsigned f :
  unsigned f -> f <> S754_infinity false -> exists z, truncate f = Some z /\ 0 <= z.
Proof.
  intros Hf Nf. destruct f as [[]|[]| |[] m e]; try done; [by exists 0|].
  cbn. eexists. split; [done|]. destruct (Z.leb_spec 0 e); [lia|].
  apply Z.div_pos; [lia|]. apply Z.pow_pos_nonneg; lia.
Qed.

(** Intervals that fit, and a finite multiplier. *)
Definition saneRetry (settings : option RetrySettings) : Prop :=
  forall r, settings = Some r ->
    rs_InitialInterval r * Millisecond < 2 ^ 63 /\ rs_MaxInterval r * Millisecond < 2 ^ 63 /\
    rs_Multiplier r <> S754_infinity false.

Lemma wrap64_small z : 0 <= z < 2 ^ 63 -> wrap64 z = z.
Proof. intros H. unfold wrap64. rewrite Z.mod_small; lia. Qed.

Lemma retryBase_pos settings : saneRetry settings -> 0 < retryBase settings.
Proof.
  intros Hs. unfold retryBase. destruct settings as [r|]; [|done].
  destruct (Hs r eq_refl) as (H1 & _). destruct (Z.ltb_spec 0 (rs_InitialInterval r)); [|done].
  unfold Millisecond in *. rewrite wrap64_small; lia.
Qed.

Lemma retryMultiplier_finite settings :
  saneRetry settings -> exists m e, retryMultiplier settings = S754_finite false m e.
Proof.
  intros Hs. destruct settings as [r|]; cbn; [|by repeat eexists].
  destruct (Hs r eq_refl) as (_ & _ & Hm). unfold SFltb.
  destruct (rs_Multiplier r) as [[]|[]| |[]]; cbn; try done; by repeat eexists.
Qed.

Lemma retryDelay_range attempt settings :
  saneRetry settings ->
  exists out, retryDelay attempt settings = Some out /\ 0 <= out <= retryBackoffCap /\
    forall r, settings = Some r -> 0 < rs_MaxInterval r -> out <= rs_MaxInterval r * Millisecond.
Proof.
  intros Hs. unfold retryDelay. rewrite float_cap. cbn zeta.
  destruct (retryMultiplier_finite settings Hs) as (m & e & ->).
  pose proof (retryBase_pos settings Hs) as Hpos.
  pose proof (float_of_unsigned (retryBase settings)) as Hb.
  match goal with |- context [grow _ _ ?n _] => set (rounds := n) end.
  pose proof (grow_unsigned m e rounds (float_of (retryBase settings)) (Hb ltac:(lia))) as Hg.
  set (d := grow _ _ _ _) in *.
  assert (Hd : exists z, truncate (if SFleb capF d then capF else d) = Some z /\ 0 <= z).
  { destruct (SFleb capF d) eqn:E; [by apply truncate_unsigned|].
    apply truncate_unsigned; [done|]. intros E'. by rewrite E' in E. }
  destruct Hd as (z & -> & Hz). cbn [mbind option_bind].
  eexists. split; [reflexivity|]. assert (Hc : 0 <= retryBackoffCap) by done.
  destruct settings as [r|]; [|split; [lia|done]]. destruct (Hs r eq_refl) as (_ & Hmax & _).
  unfold Millisecond in *. destruct (Z.ltb_spec 0 (rs_MaxInterval r)).
  - rewrite wrap64_small by lia. split; [lia|]. intros r' [= <-]. lia.
  - split; [lia|]. intros r' [= <-]. lia.
Qed.

Lemma jitter_range id name attempt d :
  0 <= d -> - (d `quot` 5) <= jitterFor id name attempt d <= d `quot` 5.
Proof.
  intros Hd. unfold jitterFor. assert (0 <= d `quot` 5) by (apply Z.quot_pos; lia).
  destruct (d <=? 0); [lia|]. cbn zeta. destruct (Z.leb_spec (d `quot` 5) 0); [lia|].
  set (h := fnv64a _). pose proof (Z.mod_pos_bound h (2 * (d `quot` 5)) ltac:(lia)). lia.
Qed.

(** ** Main results *)

(** C37. For retry settings whose intervals fit into 64-bit nanoseconds, every
    retry has a delay, the delay before jitter is between zero, the configured
    maximum and five minutes, whatever the attempt and the multiplier, and the
    jitter moves it by at most a fifth. *)
Theorem retry_delay_bounded attempt settings id name :
  saneRetry settings ->
  exists out d, retryDelay (Z.max attempt 0) settings = Some out /\
    retryBackoff attempt settings id name = Some d /\
    0 <= out <= retryBackoffCap /\
    (forall r, settings = Some r -> 0 < rs_MaxInterval r -> out <= rs_MaxInterval r * Millisecond) /\
    out - out `quot` 5 <= d <= out + out `quot` 5.
Proof.
  intros Hs. destruct (retryDelay_range (Z.max attempt 0) settings Hs) as (out & E & Hr & Hm).
  exists out. eexists. split; [done|]. unfold retryBackoff. cbn zeta. rewrite E.
  split; [reflexivity|]. split_and!; [lia..|done| |];
    pose proof (jitter_range id name (Z.max attempt 0) out ltac:(lia)); lia.
Qed.

Definition demoRetry : RetrySettings := mkRetrySettings None 5 "" 500 60000 (float_of 3).

Lemma retry_delay_bounded_witness :
  exists out d, retryDelay 2 (Some demoRetry) = Some out /\
    retryBackoff 2 (Some demoRetry) "e1" "a" = Some d /\ out = 4500 * Millisecond /\
    3600 * Millisecond <= d <= 5400 * Millisecond.
Proof.
  destruct (retry_delay_bounded 2 (Some demoRetry) "e1" "a") as (out & d & E & Ed & _ & _ & Hd).
  - by intros r [= <-].
  - exists out, d. split; [exact E|]. split; [exact Ed|].
    assert (out = 4500 * Millisecond) as -> by (vm_compute in E; by injection E as <-).
    split; [done|exact Hd].
Defined.

(** An interval of three centuries overflows: the delay is negative, and the
    retry is due at once. *)
Lemma retry_interval_overflow :
  retryBackoff 0 (Some (mkRetrySettings None 5 "" 9223372036855 0 (float_of 2))) "e1" "a"
  = Some (-9223372036854551552).
Proof. by vm_compute. Qed.
