(* ===== verification/Queue.v ===== *)
(** * The in-memory task queue

    [backend/providers/local/memory_queue.go]: two buffered lanes, a pool of
    workers that serve the interactive lane ahead of the batch lane, background
    goroutines for delayed and retried tasks, and an orderly stop.  A goroutine
    is a value that says where it stands; each of its moves is a function of the
    queue and of the case its [select] takes, and is [None] when that case is not
    ready.  Logging and contexts are left out.  The class [TaskQueue] states what
    the engine relies on. *)

From S2P Require Import Prelude Keys Types Retry.

(** ** Constants and envelopes *)

Definition transientRequeueInitial : Duration := 100 * Millisecond.
Definition transientRequeueCap : Duration := 30 * Second.
Abbreviation transientRequeueMax := 1000.
Abbreviation defaultMemoryQueueCapacity := 1024%nat.
Definition interactiveBurst : Z := 8.

Record queueEnvelope : Type := mkEnvelope {
  env_task : Task;
  env_transientTries : Z
}.

#[export] Instance Eta_queueEnvelope : Eta queueEnvelope := fun r =>
  mkEnvelope (env_task r) (env_transientTries r).

(** A left shift of an [int64] wraps, and shifts everything out beyond its width. *)
Definition transientBackoff (attempt : Z) : Duration :=
  let attempt := if attempt <? 0 then 0 else attempt in
  let d := wrap64 (Z.shiftl transientRequeueInitial attempt) in
  if (d <=? 0) || (transientRequeueCap <? d) then transientRequeueCap else d.

(** ** Goroutines *)

(** A worker before its first [select], in the blocking one, in the handler, or
    returned; [served] counts the interactive tasks since the last batch turn. *)
Inductive worker : Type :=
| Polling (served : Z)
| Waiting (served : Z)
| Handling (served : Z) (env : queueEnvelope)
| Returned.

(** A delayed or retried task, before and after its timer. *)
Inductive background : Type :=
| Delaying (env : queueEnvelope) (delay : Duration)
| Sending (env : queueEnvelope).

Record memoryQueue : Type := mkQueue {
  q_ch : list queueEnvelope;
  q_batchCh : list queueEnvelope;
  q_capacity : nat;
  q_workers : list worker;
  q_background : list background;
  q_stopped : bool;
  q_stopCh : bool
}.

#[export] Instance Eta_memoryQueue : Eta memoryQueue := fun r =>
  mkQueue (q_ch r) (q_batchCh r) (q_capacity r) (q_workers r) (q_background r) (q_stopped r)
    (q_stopCh r).

Definition newMemoryQueueWithCapacity (capacity : nat) : memoryQueue :=
  mkQueue [] [] capacity [] [] false false.

Definition Start (concurrency : nat) (q : memoryQueue) : memoryQueue :=
  q <| q_workers ::= fun ws => ws ++ replicate concurrency (Polling 0) |>.

(** ** Lanes *)

Inductive lane : Type := Interactive | Batch.

#[export] Instance lane_eq_dec : EqDecision lane.
Proof. solve_decision. Defined.

Definition laneFor (t : Task) : lane :=
  if decide (t_Type t = TaskTypeNodeBatch) then Batch else Interactive.

Definition waitingIn (q : memoryQueue) (l : lane) : list queueEnvelope :=
  match l with Interactive => q_ch q | Batch => q_batchCh q end.

Definition setLane (q : memoryQueue) (l : lane) (envs : list queueEnvelope) : memoryQueue :=
  match l with Interactive => q <| q_ch := envs |> | Batch => q <| q_batchCh := envs |> end.

(** A send into a lane, when it has room. *)
Definition send (q : memoryQueue) (env : queueEnvelope) : option memoryQueue :=
  let l := laneFor (env_task env) in
  if decide (length (waitingIn q l) < q_capacity q)%nat
  then Some (setLane q l (waitingIn q l ++ [env])) else None.

Definition receive (q : memoryQueue) (l : lane) : option (queueEnvelope * memoryQueue) :=
  match waitingIn q l with env :: envs => Some (env, setLane q l envs) | [] => None end.

(** ** Producers *)

Inductive EnqueueError : Type := ErrQueueFull | ErrQueueStopped | ErrContext.

(** [preferSend] is the choice of the [select] when the queue has stopped and the
    lane has room. *)
Definition TryEnqueue (preferSend : bool) (q : memoryQueue) (t : Task)
    : memoryQueue * option EnqueueError :=
  match send q (mkEnvelope t 0) with
  | Some q' => if q_stopCh q && negb preferSend then (q, Some ErrQueueStopped) else (q', None)
  | None => (q, Some (if q_stopCh q then ErrQueueStopped else ErrQueueFull))
  end.

Inductive enqueueCase : Type := CaseSend | CaseDone | CaseStopped.

(** [None]: the case is not ready; the caller blocks until one is. *)
Definition Enqueue (c : enqueueCase) (q : memoryQueue) (t : Task)
    : option (memoryQueue * option EnqueueError) :=
  match c with
  | CaseSend => q' ← send q (mkEnvelope t 0); Some (q', None)
  | CaseDone => Some (q, Some ErrContext)
  | CaseStopped => if q_stopCh q then Some (q, Some ErrQueueStopped) else None
  end.

(** A background goroutine, unless the queue is stopping. *)
Definition beginBackground (q : memoryQueue) (b : background) : option memoryQueue :=
  if q_stopped q then None else Some (q <| q_background ::= fun bs => bs ++ [b] |>).

Definition EnqueueDelayed (q : memoryQueue) (t : Task) (delay : Duration)
    : memoryQueue * option EnqueueError :=
  match beginBackground q (Delaying (mkEnvelope t 0) delay) with
  | Some q' => (q', None)
  | None => (q, Some ErrQueueStopped)
  end.

(** ** Consumers *)

(** What became of an envelope a worker or a background goroutine let go. *)
Inductive fate : Type := Done | DroppedPermanent | DroppedExhausted | DroppedStopped.

Inductive HandlerAnswer : Type := HandlerOk | HandlerPermanent | HandlerTransient.

Definition dispatch (a : HandlerAnswer) (q : memoryQueue) (env : queueEnvelope)
    : memoryQueue * option fate :=
  match a with
  | HandlerOk => (q, Some Done)
  | HandlerPermanent => (q, Some DroppedPermanent)
  | HandlerTransient =>
      if transientRequeueMax <=? env_transientTries env then (q, Some DroppedExhausted)
      else
        let delay := transientBackoff (env_transientTries env) in
        match beginBackground q (Delaying (env <| env_transientTries ::= Z.succ |>) delay) with
        | Some q' => (q', None)
        | None => (q, Some DroppedStopped)
        end
  end.

Inductive selectCase : Type := CaseStop | CaseReceive (l : lane) | CaseDefault.

(** What a move reports: the envelope let go and its fate. *)
Definition report : Type := option (queueEnvelope * fate).

(** The first [select] of a round: one lane, without blocking. *)
Definition pollLane (c : selectCase) (q : memoryQueue) (l : lane) (got missed : Z)
    : option (memoryQueue * worker) :=
  match c with
  | CaseStop => if q_stopCh q then Some (q, Returned) else None
  | CaseReceive l' =>
      if decide (l' = l) then '(env, q') ← receive q l; Some (q', Handling got env) else None
  | CaseDefault =>
      if q_stopCh q || (0 <? length (waitingIn q l))%nat then None else Some (q, Waiting missed)
  end.

Definition workerStep (c : selectCase) (a : HandlerAnswer) (q : memoryQueue) (w : worker)
    : option (memoryQueue * worker * report) :=
  match w with
  | Polling served =>
      r ← (if served <? interactiveBurst
           then pollLane c q Interactive (served + 1) served
           else pollLane c q Batch 0 0);
      Some (r, None)
  | Waiting served =>
      match c with
      | CaseStop => if q_stopCh q then Some (q, Returned, None) else None
      | CaseReceive Interactive =>
          '(env, q') ← receive q Interactive; Some (q', Handling (served + 1) env, None)
      | CaseReceive Batch =>
          '(env, q') ← receive q Batch; Some (q', Handling 0 env, None)
      | CaseDefault => None
      end
  | Handling served env =>
      let '(q', f) := dispatch a q env in Some (q', Polling served, pair env <$> f)
  | Returned => None
  end.

(** A background goroutine waits for its timer, then for room; [None] in the
    second component is a goroutine that has returned. *)
Inductive backgroundCase : Type := CaseTimer | CaseLane | CaseStopping.

Definition backgroundStep (c : backgroundCase) (q : memoryQueue) (b : background)
    : option (memoryQueue * option background * report) :=
  match b, c with
  | Delaying env _, CaseTimer => Some (q, Some (Sending env), None)
  | Sending env, CaseLane => q' ← send q env; Some (q', None, None)
  | Delaying env _, CaseStopping | Sending env, CaseStopping =>
      if q_stopCh q then Some (q, None, Some (env, DroppedStopped)) else None
  | _, _ => None
  end.

(** [Stop] marks the queue, closes the channel and then waits for [wg]. *)
Definition beginStop (q : memoryQueue) : memoryQueue := q <| q_stopped := true |>.
Definition closeStop (q : memoryQueue) : memoryQueue := q <| q_stopCh := true |>.

Definition running (w : worker) : bool := match w with Returned => false | _ => true end.
Definition wg (q : memoryQueue) : nat :=
  (length (filter (fun w => running w = true) (q_workers q)) + length (q_background q))%nat.

(** ** Runs *)

(** One move of a producer, a worker, a background goroutine or the stop, with
    the task it let in and the envelope it let go. *)
Inductive move : memoryQueue -> option Task -> report -> memoryQueue -> Prop :=
| mv_try p q t q' : TryEnqueue p q t = (q', None) -> move q (Some t) None q'
| mv_enqueue c q t q' : Enqueue c q t = Some (q', None) -> move q (Some t) None q'
| mv_delayed q t d q' : EnqueueDelayed q t d = (q', None) -> move q (Some t) None q'
| mv_worker c a q i w q' w' r :
    q_workers q !! i = Some w -> workerStep c a q w = Some (q', w', r) ->
    move q None r (q' <| q_workers ::= <[i := w']> |>)
| mv_background c q i b q' b' r :
    q_background q !! i = Some b -> backgroundStep c q b = Some (q', b', r) ->
    move q None r (q' <| q_background ::= fun bs =>
      match b' with Some b' => <[i := b']> bs | None => delete i bs end |>)
| mv_stop q : move q None None (beginStop q)
| mv_close q : q_stopped q = true -> move q None None (closeStop q).

Inductive moves : memoryQueue -> list Task -> list (queueEnvelope * fate) -> memoryQueue -> Prop :=
| ms_refl q : moves q [] [] q
| ms_step q q1 q2 ts fs t f :
    moves q ts fs q1 -> move q1 t f q2 -> moves q (option_list t ++ ts) (option_list f ++ fs) q2.

(** ** The backoff *)

Lemma wrap64_id z : - 2 ^ 63 <= z < 2 ^ 63 -> wrap64 z = z.
Proof. intros H. unfold wrap64. rewrite Z.mod_small by lia. lia. Qed.

Lemma wrap64_multiple k z : 0 <= k <= 64 -> (2 ^ k | z) -> (2 ^ k | wrap64 z).
Proof.
  intros Hk Hz. unfold wrap64. rewrite Z.mod_eq by lia.
  replace (z + 2 ^ 63 - 2 ^ 64 * ((z + 2 ^ 63) / 2 ^ 64) - 2 ^ 63)
    with (z - 2 ^ 64 * ((z + 2 ^ 63) / 2 ^ 64)) by lia.
  apply Z.divide_sub_r; [done|]. apply Z.divide_mul_l. exists (2 ^ (64 - k)).
  rewrite <- Z.pow_add_r by lia. f_equal. lia.
Qed.

(** The delay before a transient failure is dispatched again doubles with
    every attempt from 100ms and stops at 30s, for every attempt number: where
    the shift overflows the 64-bit duration, the guard of the code always
    answers with the cap. *)
Theorem transient_backoff_doubles attempt :
  transientBackoff attempt
  = Z.min transientRequeueCap (transientRequeueInitial * 2 ^ Z.max 0 attempt).
Proof.
  unfold transientBackoff.
  replace (if attempt <? 0 then 0 else attempt) with (Z.max 0 attempt)
    by (destruct (Z.ltb_spec attempt 0); lia).
  set (n := Z.max 0 attempt). assert (Hn : 0 <= n) by lia. clearbody n.
  rewrite Z.shiftl_mul_pow2 by done. set (d := transientRequeueInitial * 2 ^ n).
  assert (Hcap : transientRequeueCap = 30000000000) by done.
  destruct (decide (n < 27)) as [Hlt|Hge].
  - assert (Hp : 0 < 2 ^ n <= 2 ^ 26) by (split; [lia|apply Z.pow_le_mono_r; lia]).
    assert (Hd : 0 < d <= transientRequeueInitial * 2 ^ 26) by (unfold d, transientRequeueInitial, Millisecond; lia).
    assert (Hmax : transientRequeueInitial * 2 ^ 26 < 2 ^ 63) by done.
    rewrite wrap64_id by lia. destruct (Z.leb_spec d 0); [lia|]. cbn.
    destruct (Z.ltb_spec transientRequeueCap d); lia.
  - assert (Hbig : transientRequeueCap < d).
    { assert (2 ^ 27 <= 2 ^ n) by (apply Z.pow_le_mono_r; lia).
      unfold d, transientRequeueInitial, Millisecond. rewrite Hcap. lia. }
    assert (Hdiv : (2 ^ 35 | wrap64 d)).
    { apply wrap64_multiple; [lia|]. exists (390625 * 2 ^ (n - 27)). unfold d.
      replace n with ((n - 27) + 27) at 1 by lia. rewrite Z.pow_add_r by lia.
      unfold transientRequeueInitial, Millisecond. lia. }
    destruct Hdiv as [m Hm]. rewrite Hm, Hcap.
    destruct (Z.leb_spec (m * 2 ^ 35) 0); [cbn; lia|].
    destruct (Z.ltb_spec 30000000000 (m * 2 ^ 35)); cbn; lia.
Qed.

(** ** Fairness *)

Definition workerOK (w : worker) : Prop :=
  match w with
  | Polling served | Handling served _ => 0 <= served <= interactiveBurst
  | Waiting served => 0 <= served < interactiveBurst
  | Returned => True
  end.

(** The lane a move takes a task from. *)
Definition takes (w : worker) (c : selectCase) : option lane :=
  match w, c with
  | Polling _, CaseReceive l | Waiting _, CaseReceive l => Some l
  | _, _ => None
  end.

(** [k] moves of one worker, each with the queue open and a task in the batch
    lane, none of which takes a task from there; between them the rest of the
    system may do anything. *)
Inductive passedOver (w : worker) : nat -> worker -> Prop :=
| po_refl : passedOver w 0 w
| po_step k c a q w1 q' w2 r :
    passedOver w k w1 -> q_stopCh q = false -> q_batchCh q <> [] -> takes w1 c <> Some Batch ->
    workerStep c a q w1 = Some (q', w2, r) -> passedOver w (S k) w2.

(** The moves left before the batch lane must have its turn. *)
Definition patience (w : worker) : Z :=
  match w with
  | Polling served => 3 * (interactiveBurst - served)
  | Waiting served => 3 * (interactiveBurst - served) - 1
  | Handling served _ => 3 * (interactiveBurst - served) + 1
  | Returned => 0
  end.

Lemma pass_step c a q w q' w' r :
  workerOK w -> q_stopCh q = false -> q_batchCh q <> [] -> takes w c <> Some Batch ->
  workerStep c a q w = Some (q', w', r) ->
  workerOK w' /\ w' <> Returned /\ patience w' < patience w.
Proof.
  intros Hw Ho Hb Ht E. destruct w as [s|s|s env|]; unfold workerOK in Hw; unfold workerStep in E.
  - destruct (Z.ltb_spec s interactiveBurst); destruct c as [|[]|]; cbn in E; rewrite ?Ho in E; try done.
    + unfold receive, waitingIn in E. destruct (q_ch q); [done|]. injection E as <- <- <-.
      unfold workerOK, patience. split_and!; [lia|lia|done|lia].
    + destruct (length (q_ch q)); [|done]. injection E as <- <- <-.
      unfold workerOK, patience. split_and!; [lia|lia|done|lia].
    + by destruct (q_batchCh q).
  - destruct c as [|[]|]; rewrite ?Ho in E; try done.
    unfold receive, waitingIn in E. destruct (q_ch q); [done|]. injection E as <- <- <-.
    unfold workerOK, patience. split_and!; [lia|lia|done|lia].
  - destruct (dispatch a q env) as [q1 f]. injection E as <- <- <-.
    unfold workerOK, patience. split_and!; [lia|lia|done|lia].
  - done.
Qed.

Lemma worker_ready a q w :
  w <> Returned -> q_stopCh q = false -> q_batchCh q <> [] -> exists c r, workerStep c a q w = Some r.
Proof.
  intros Hw Ho Hb. destruct (q_batchCh q) as [|env envs] eqn:Eb; [done|].
  destruct w as [s|s|s env'|]; [| | |done]; unfold workerStep.
  - destruct (s <? interactiveBurst).
    + destruct (q_ch q) as [|env1 envs1] eqn:Ec.
      * exists CaseDefault. eexists. cbn. by rewrite Ho, Ec.
      * exists (CaseReceive Interactive). eexists. cbn. unfold receive. cbn. by rewrite Ec.
    + exists (CaseReceive Batch). eexists. cbn. unfold receive. cbn. by rewrite Eb.
  - exists (CaseReceive Batch). eexists. unfold receive. cbn. by rewrite Eb.
  - exists CaseDefault. destruct (dispatch a q env'). by eexists.
Qed.

(** The batch lane is not starved.  While a task waits there and the queue is
    open, a worker never blocks, and it takes a task from the batch lane within
    26 of its own moves (8 interactive tasks at most), whatever producers and
    other workers do in between. *)
Theorem batch_lane_not_starved w k w' :
  workerOK w -> w <> Returned -> passedOver w k w' ->
  (k <= 25)%nat /\
  forall q a, q_stopCh q = false -> q_batchCh q <> [] ->
    exists c r, workerStep c a q w' = Some r.
Proof.
  intros Hw Hne H.
  assert (HH : workerOK w' /\ w' <> Returned /\ Z.of_nat k + patience w' <= patience w).
  { induction H as [|k c a q w1 q' w2 r _ (Hw1 & _ & Hk) Ho Hb Ht E]; [split_and!; [done|done|lia]|].
    destruct (pass_step c a q w1 q' w2 r Hw1 Ho Hb Ht E) as (Hw2 & Hr & Hp). split_and!; [done|done|lia]. }
  destruct HH as (Hw' & Hne' & Hk). split; [|intros; by apply worker_ready].
  unfold patience, workerOK, interactiveBurst in *. destruct w, w'; lia || done.
Qed.

Definition demoBatch : Task := zeroTask <| t_Type := TaskTypeNodeBatch |>.
Definition demoLanes : memoryQueue :=
  newMemoryQueueWithCapacity 4 <| q_ch := [mkEnvelope zeroTask 0] |>
    <| q_batchCh := [mkEnvelope demoBatch 0] |>.

(** After the eighth interactive task the batch lane has its turn. *)
Lemma batch_lane_not_starved_witness :
  passedOver (Polling 7) 2 (Polling 8) /\
  exists c r, workerStep c HandlerOk demoLanes (Polling 8) = Some r.
Proof.
  assert (H : passedOver (Polling 7) 2 (Polling 8)).
  { eapply (po_step _ 1 CaseDefault HandlerOk demoLanes (Handling 8 (mkEnvelope zeroTask 0)));
      [|done..].
    by eapply (po_step _ 0 (CaseReceive Interactive) HandlerOk demoLanes); [constructor|..]. }
  split; [done|]. by apply (batch_lane_not_starved (Polling 7) 2 (Polling 8)).
Defined.

(** ** No task is lost *)

Definition heldBy (w : worker) : list queueEnvelope :=
  match w with Handling _ env => [env] | _ => [] end.
Definition carried (b : background) : queueEnvelope :=
  match b with Delaying env _ | Sending env => env end.

(** The tasks inside the queue: in a lane, with a worker or in the background. *)
Definition envelopes (q : memoryQueue) : list queueEnvelope :=
  q_ch q ++ q_batchCh q ++ map carried (q_background q) ++ (q_workers q ≫= heldBy).
Definition tasksOf (q : memoryQueue) : list Task := map env_task (envelopes q).

(** Why an envelope was let go. *)
Definition excused (q : memoryQueue) (ef : queueEnvelope * fate) : Prop :=
  match ef.2 with
  | Done | DroppedPermanent => True
  | DroppedExhausted => transientRequeueMax <= env_transientTries ef.1
  | DroppedStopped => q_stopped q = true
  end.

Definition stopOK (q : memoryQueue) : Prop := q_stopCh q = true -> q_stopped q = true.

Lemma send_envelopes q env q' :
  send q env = Some q' ->
  envelopes q' ≡ₚ env :: envelopes q /\ q_workers q' = q_workers q /\
  q_background q' = q_background q /\ q_stopped q' = q_stopped q /\ q_stopCh q' = q_stopCh q.
Proof.
  unfold send. case_decide; [|done]. intros [= <-]. unfold envelopes.
  destruct (laneFor (env_task env)); cbn; split_and!; try done; solve_Permutation.
Qed.

(** The tasks outside the workers' hands. *)
Definition loose (q : memoryQueue) : list queueEnvelope :=
  q_ch q ++ q_batchCh q ++ map carried (q_background q).

Lemma receive_loose q l env q' :
  receive q l = Some (env, q') ->
  loose q ≡ₚ env :: loose q' /\ q_workers q' = q_workers q /\ q_background q' = q_background q /\
  q_stopped q' = q_stopped q /\ q_stopCh q' = q_stopCh q.
Proof.
  unfold receive, loose. destruct l; cbn.
  - destruct (q_ch q) as [|e es]; [done|]. intros [= <- <-]. cbn. by split_and!.
  - destruct (q_batchCh q) as [|e es]; [done|]. intros [= <- <-]. cbn.
    split_and!; [solve_Permutation|done..].
Qed.

(** What one move of a worker does. *)
Record worked (q : memoryQueue) (w : worker) (q' : memoryQueue) (w' : worker) (r : report) : Prop := {
  wk_workers : q_workers q' = q_workers q;
  wk_stopped : q_stopped q' = q_stopped q /\ q_stopCh q' = q_stopCh q;
  wk_tasks : map env_task (option_list (fst <$> r) ++ heldBy w' ++ loose q')
             ≡ₚ map env_task (heldBy w ++ loose q);
  wk_excused : forall ef, r = Some ef -> excused q ef;
  wk_count : (length (q_background q') + (if running w' then 1 else 0)
              <= length (q_background q) + (if running w then 1 else 0)
                 + (if q_stopped q then 0 else 1))%nat
}.

Lemma dispatch_worked a q served env q' f :
  dispatch a q env = (q', f) -> worked q (Handling served env) q' (Polling served) (pair env <$> f).
Proof.
  destruct a; cbn; [intros [= <- <-]; by split; try naive_solver; case_match; cbn; lia..|].
  destruct (Z.leb_spec transientRequeueMax (env_transientTries env)).
  { intros [= <- <-]. split; try done; [naive_solver|cbn; case_match; lia]. }
  unfold beginBackground. destruct (q_stopped q) eqn:Es; intros [= <- <-].
  - split; try done; [naive_solver|cbn; case_match; lia].
  - split; try done; cbn.
    + unfold loose. cbn. rewrite !map_app. cbn. solve_Permutation.
    + rewrite length_app, Es. cbn. lia.
Qed.

Lemma received_worked q w served l env q' :
  heldBy w = [] -> running w = true -> receive q l = Some (env, q') ->
  worked q w q' (Handling served env) None.
Proof.
  intros Hw Hr E. destruct (receive_loose q l env q' E) as (Hp & E1 & E2 & E3 & E4).
  split; try done.
  - cbn. rewrite Hw. cbn. rewrite (Permutation_map env_task Hp). done.
  - rewrite E2, Hr. cbn. case_match; lia.
Qed.

Lemma quiet_worked q w w' :
  heldBy w = [] -> heldBy w' = [] -> running w = true -> worked q w q w' None.
Proof.
  intros H H' Hr. split; try done; [by rewrite H, H'|]. rewrite Hr. repeat case_match; lia.
Qed.

Lemma workerStep_worked c a q w q' w' r :
  workerStep c a q w = Some (q', w', r) -> worked q w q' w' r.
Proof.
  destruct w as [s|s|s env|]; unfold workerStep.
  - intros E. assert (Hp : exists l got missed, pollLane c q l got missed = Some (q', w') /\ r = None).
    { destruct (s <? _);
        [destruct (pollLane c q Interactive _ _) as [p|] eqn:Ep
        |destruct (pollLane c q Batch _ _) as [p|] eqn:Ep]; cbn in E; try done;
        injection E as -> <-; by repeat eexists. }
    destruct Hp as (l & got & missed & Hp & ->). destruct c as [|l'|]; cbn in Hp.
    + destruct (q_stopCh q); [|done]. injection Hp as <- <-. by apply quiet_worked.
    + case_decide; [|done]. destruct (receive q l) as [[env q1]|] eqn:Er; [|done].
      injection Hp as <- <-. by eapply received_worked.
    + destruct (_ || _); [done|]. injection Hp as <- <-. by apply quiet_worked.
  - destruct c as [|[]|]; intros E.
    + destruct (q_stopCh q); [|done]. injection E as <- <- <-. by apply quiet_worked.
    + destruct (receive q Interactive) as [[env q1]|] eqn:Er; [|done].
      injection E as <- <- <-. by eapply received_worked.
    + destruct (receive q Batch) as [[env q1]|] eqn:Er; [|done].
      injection E as <- <- <-. by eapply received_worked.
    + done.
  - destruct (dispatch a q env) as [q1 f] eqn:Ed. intros [= <- <- <-]. by eapply dispatch_worked.
  - done.
Qed.

Lemma insert_perm {A} (l : list A) i x y :
  l !! i = Some x -> x :: <[i := y]> l ≡ₚ y :: l.
Proof.
  revert i. induction l as [|z l IH]; intros [|i]; try done; cbn.
  - intros [= ->]. apply Permutation_swap.
  - intros H. rewrite (Permutation_swap z x), (Permutation_swap z y). by rewrite (IH i H).
Qed.

Lemma perm_exchange {A} (a h h' l l' w w' : list A) :
  a ++ h' ++ l' ≡ₚ h ++ l -> h ++ w' ≡ₚ h' ++ w -> a ++ l' ++ w' ≡ₚ l ++ w.
Proof.
  intros H1 H2. apply (Permutation_app_inv_l h). transitivity (a ++ l' ++ h ++ w'); [solve_Permutation|].
  rewrite H2. transitivity ((a ++ h' ++ l') ++ w); [solve_Permutation|]. rewrite H1. solve_Permutation.
Qed.

Lemma insert_held ws i w w' :
  ws !! i = Some w ->
  heldBy w ++ (<[i := w']> ws ≫= heldBy) ≡ₚ heldBy w' ++ (ws ≫= heldBy).
Proof. intros H. exact (bind_Permutation heldBy _ _ (insert_perm ws i w w' H)). Qed.

Lemma insert_running ws i w w' :
  ws !! i = Some w ->
  (length (filter (fun w => running w = true) (<[i := w']> ws)) + (if running w then 1 else 0)
   = length (filter (fun w => running w = true) ws) + (if running w' then 1 else 0))%nat.
Proof.
  intros H. pose proof (filter_Permutation (fun w => running w = true) _ _ (insert_perm ws i w w' H)) as Hp.
  apply Permutation_length in Hp. rewrite !filter_cons in Hp.
  repeat case_decide; cbn in Hp; repeat case_match; lia || done.
Qed.

(** What one move does to the whole queue. *)
Record moved (q : memoryQueue) (t : option Task) (r : report) (q' : memoryQueue) : Prop := {
  md_stopOK : stopOK q -> stopOK q';
  md_stopped : q_stopped q = true -> q_stopped q' = true;
  md_tasks : map env_task (option_list (fst <$> r)) ++ tasksOf q' ≡ₚ option_list t ++ tasksOf q;
  md_excused : stopOK q -> forall ef, r = Some ef -> excused q ef;
  md_wg : stopOK q -> q_stopped q = true -> (wg q' <= wg q)%nat
}.

Lemma sent_moved q t q' :
  send q (mkEnvelope t 0) = Some q' -> moved q (Some t) None q'.
Proof.
  intros E. destruct (send_envelopes _ _ _ E) as (Hp & Ew & Eb & Es & Ec).
  split; unfold stopOK, tasksOf, wg; rewrite ?Es, ?Ec, ?Ew, ?Eb; try done.
  by rewrite (Permutation_map env_task Hp).
Qed.

Lemma worker_moved c a q i w q' w' r :
  q_workers q !! i = Some w -> workerStep c a q w = Some (q', w', r) ->
  moved q None r (q' <| q_workers ::= <[i := w']> |>).
Proof.
  intros Hw E. destruct (workerStep_worked _ _ _ _ _ _ _ E) as [Ew [Es Ec] Ht Hx Hc]. split.
  - unfold stopOK. cbn. by rewrite Es, Ec.
  - cbn. by rewrite Es.
  - assert (Hr : envelopes (q' <| q_workers ::= <[i := w']> |>)
                 = loose q' ++ (<[i := w']> (q_workers q) ≫= heldBy))
      by (unfold envelopes, loose; cbn; by rewrite Ew, <- !app_assoc).
    unfold tasksOf. rewrite Hr. replace (envelopes q) with (loose q ++ (q_workers q ≫= heldBy))
      by (unfold envelopes, loose; by rewrite <- !app_assoc).
    pose proof (Permutation_map env_task (insert_held (q_workers q) i w w' Hw)) as Hi.
    rewrite !map_app in Ht, Hi |- *. rewrite (map_app _ (heldBy w)) in Ht.
    exact (perm_exchange _ _ _ _ _ _ _ Ht Hi).
  - done.
  - intros _ Hs. pose proof (insert_running (q_workers q) i w w' Hw) as Hi. rewrite Hs in Hc.
    unfold wg. cbn. rewrite Ew. lia.
Qed.

Lemma stopped_moved q i b env :
  q_background q !! i = Some b -> carried b = env ->
  carried b :: envelopes (q <| q_background ::= delete i |>) ≡ₚ envelopes q ->
  q_stopCh q = true -> moved q None (Some (env, DroppedStopped)) (q <| q_background ::= delete i |>).
Proof.
  intros Hb <- Hp Hs. split; try done.
  - cbn. by rewrite <- (Permutation_map env_task Hp).
  - intros H ef [= <-]. by apply H.
  - intros _ _. unfold wg. cbn.
    assert (Hlen : length (q_background q) = S (length (delete i (q_background q)))).
    { rewrite (delete_Permutation _ i b Hb) at 1. done. }
    lia.
Qed.

Lemma background_moved c q i b q' b' r :
  q_background q !! i = Some b -> backgroundStep c q b = Some (q', b', r) ->
  moved q None r (q' <| q_background ::= fun bs =>
    match b' with Some b' => <[i := b']> bs | None => delete i bs end |>).
Proof.
  intros Hb E.
  assert (Hdel : map carried (q_background q) ≡ₚ carried b :: map carried (delete i (q_background q))).
  { by rewrite (delete_Permutation _ i b Hb) at 1. }
  assert (Hlen : length (q_background q) = S (length (delete i (q_background q)))).
  { rewrite (delete_Permutation _ i b Hb) at 1. done. }
  assert (Hgone : carried b :: envelopes (q <| q_background ::= delete i |>) ≡ₚ envelopes q).
  { unfold envelopes. cbn. rewrite Hdel. solve_Permutation. }
  destruct b as [env d|env], c; cbn in E; try done.
  - injection E as <- <- <-. split; try done.
    + assert (Hi : map carried (<[i := Sending env]> (q_background q)) = map carried (q_background q)).
      { rewrite list_fmap_insert. apply list_insert_id. by rewrite list_lookup_fmap, Hb. }
      unfold tasksOf, envelopes. cbn. by rewrite Hi.
    + unfold wg. cbn. by rewrite length_insert.
  - destruct (q_stopCh q) eqn:Ec; [|done]. injection E as <- <- <-. by eapply stopped_moved.
  - destruct (send q env) as [q1|] eqn:Es; [|done]. injection E as <- <- <-.
    destruct (send_envelopes _ _ _ Es) as (Hp & Ew & Eb & E1 & E2). split; try done.
    + unfold stopOK. cbn. by rewrite E1, E2.
    + cbn. by rewrite E1.
    + apply (Permutation_map env_task), (Permutation_cons_inv (a := env)).
      rewrite <- Hp. unfold envelopes. cbn. rewrite Eb, Ew, Hdel. solve_Permutation.
    + unfold wg. cbn. rewrite Eb, Ew, Hlen. lia.
  - destruct (q_stopCh q) eqn:Ec; [|done]. injection E as <- <- <-. by eapply stopped_moved.
Qed.

Lemma move_moved q t r q' : move q t r q' -> moved q t r q'.
Proof.
  intros H. destruct H as [p q t q' E|c q t q' E|q t d q' E|c a q i w q' w' r Hw E|c q i b q' b' r Hb E|q|q Hs].
  - unfold TryEnqueue in E. destruct (send q _) as [q1|] eqn:Es; [|done].
    destruct (_ && _); [done|]. injection E as <-. by apply sent_moved.
  - destruct c; cbn in E; [|done|by destruct (q_stopCh q)].
    destruct (send q _) as [q1|] eqn:Es; [|done]. injection E as <-. by apply sent_moved.
  - unfold EnqueueDelayed, beginBackground in E. destruct (q_stopped q) eqn:Es; [done|].
    injection E as <-. split; try done; [|congruence].
    unfold tasksOf, envelopes. cbn. rewrite !map_app. cbn. solve_Permutation.
  - by eapply worker_moved.
  - by eapply background_moved.
  - by split.
  - split; try done. intros _ _. exact Hs.
Qed.

Lemma moves_moved q ts fs q' :
  stopOK q -> moves q ts fs q' ->
  stopOK q' /\ (q_stopped q = true -> q_stopped q' = true /\ (wg q' <= wg q)%nat) /\
  map (env_task ∘ fst) fs ++ tasksOf q' ≡ₚ ts ++ tasksOf q /\ Forall (excused q') fs.
Proof.
  intros H0 H. induction H as [q|q q1 q2 ts fs t f _ IH Hm]; [by split_and!|].
  destruct (IH H0) as (Hok & Hst & Hp & Hx). destruct (move_moved _ _ _ _ Hm) as [M1 M2 M3 M4 M5].
  assert (Hlift : forall ef, excused q1 ef -> excused q2 ef).
  { intros [env []]; unfold excused; cbn; [done..|]. by apply M2. }
  split_and!.
  - by apply M1.
  - intros Hs. destruct (Hst Hs) as [Hs1 Hw]. split; [by apply M2|]. specialize (M5 Hok Hs1). lia.
  - rewrite map_app, <- !app_assoc. rewrite (Permutation_app_comm (map _ fs)), app_assoc.
    replace (map (env_task ∘ fst) (option_list f)) with (map env_task (option_list (fst <$> f)))
      by (by destruct f).
    rewrite M3, <- app_assoc, (Permutation_app_comm (tasksOf q1)), Hp. done.
  - apply Forall_app. split; [|by eapply Forall_impl].
    destruct f as [ef|]; cbn; [|constructor]. constructor; [|constructor]. by apply Hlift, M4.
Qed.

(** C29. The queue loses no task.  From the start of the pool, whatever producers,
    workers, timers and the stop do, the tasks let go together with those still
    inside are exactly the tasks accepted, each as often; and a task is let go
    only when its handler succeeded or failed for good, after 1000 transient
    failures, or because the queue has been stopped. *)
Theorem queue_keeps_tasks capacity concurrency ts fs q :
  moves (Start concurrency (newMemoryQueueWithCapacity capacity)) ts fs q ->
  map (env_task ∘ fst) fs ++ tasksOf q ≡ₚ ts /\ Forall (excused q) fs.
Proof.
  intros H. assert (Hok : stopOK (Start concurrency (newMemoryQueueWithCapacity capacity))) by done.
  destruct (moves_moved _ _ _ _ Hok H) as (_ & _ & Hp & Hx).
  split; [|done]. rewrite Hp. unfold tasksOf, envelopes. cbn.
  replace (replicate concurrency (Polling 0) ≫= heldBy) with (@nil queueEnvelope);
    [by rewrite app_nil_r|].
  clear. induction concurrency as [|n IH]; [done|exact IH].
Qed.

(** A task is accepted, taken by the worker and handled. *)
Lemma queue_keeps_tasks_witness :
  exists q, moves (Start 1 (newMemoryQueueWithCapacity 1)) [zeroTask]
              [(mkEnvelope zeroTask 0, Done)] q /\
    zeroTask :: tasksOf q ≡ₚ [zeroTask].
Proof.
  assert (H : exists q, moves (Start 1 (newMemoryQueueWithCapacity 1)) [zeroTask]
                          [(mkEnvelope zeroTask 0, Done)] q).
  { eexists. eapply (ms_step _ _ _ [zeroTask] [] None (Some _)).
    - eapply (ms_step _ _ _ [zeroTask] [] None None).
      + by eapply (ms_step _ _ _ [] [] (Some zeroTask) None); [constructor|eapply (mv_try true)].
      + by eapply (mv_worker (CaseReceive Interactive) HandlerOk _ 0).
    - by eapply (mv_worker CaseDefault HandlerOk _ 0). }
  destruct H as [q H]. exists q. split; [done|].
  by apply (queue_keeps_tasks 1 1 [zeroTask] [(mkEnvelope zeroTask 0, Done)] q).
Defined.

Lemma idle_worker q i w : wg q = 0%nat -> q_workers q !! i = Some w -> w = Returned.
Proof.
  unfold wg. intros Hw Hi. destruct (running w) eqn:Hr; [exfalso|by destruct w].
  assert (Hf : w ∈ filter (fun w => running w = true) (q_workers q)).
  { apply list_elem_of_filter. split; [done|]. by eapply list_elem_of_lookup_2. }
  destruct (filter _ (q_workers q)); [by apply elem_of_nil in Hf|cbn in Hw; lia].
Qed.

Lemma idle_moves q ts fs q' :
  stopOK q -> q_stopped q = true -> wg q = 0%nat -> moves q ts fs q' -> fs = [].
Proof.
  intros Hok Hs Hw H. induction H as [|q q1 q2 ts fs t f Hms IH Hm]; [done|].
  destruct (moves_moved _ _ _ _ Hok Hms) as (_ & Hst & _). destruct (Hst Hs) as [_ Hle].
  rewrite (IH Hok Hs Hw), app_nil_r. assert (Hw1 : wg q1 = 0%nat) by lia.
  destruct Hm as [| | |c a q1 i w q' w' r Hi E|c q1 i b q' b' r Hi E| |]; try done.
  - by rewrite (idle_worker q1 i w Hw1 Hi) in E.
  - apply lookup_lt_Some in Hi. unfold wg in Hw1. lia.
Qed.

(** Stopping quiesces.  Once the stop has begun the wait group never grows
    again, so no goroutine is added behind the wait; and when it has reached
    zero, nothing is dispatched or let go any more, whatever is still offered. *)
Theorem stop_quiesces q ts fs q' :
  stopOK q -> q_stopped q = true -> moves q ts fs q' ->
  (wg q' <= wg q)%nat /\ (wg q = 0%nat -> fs = []).
Proof.
  intros Hok Hs H. destruct (moves_moved _ _ _ _ Hok H) as (_ & Hst & _).
  split; [by apply Hst|]. intros Hw. by eapply idle_moves.
Qed.

Lemma stop_quiesces_witness :
  exists q, moves (closeStop (beginStop (Start 1 demoLanes))) [] [] q /\ (wg q <= 1)%nat.
Proof.
  eexists. assert (H : moves (closeStop (beginStop (Start 1 demoLanes))) [] []
    (closeStop (beginStop (Start 1 demoLanes)) <| q_workers ::= <[0%nat := Returned]> |>)).
  { eapply (ms_step _ _ _ [] [] None None); [constructor|].
    by eapply (mv_worker CaseStop HandlerOk _ 0). }
  split; [exact H|]. by apply (stop_quiesces (closeStop (beginStop (Start 1 demoLanes))) [] []).
Defined.

(** ** What the engine relies on *)

(** A queue that does not block its caller: an accepted task is in the queue, and
    a refused one leaves it as it was. *)
Class TaskQueue (Q : Type) : Type := {
  tryEnqueue : Q -> Task -> Q * option EnqueueError;
  enqueueDelayed : Q -> Task -> Duration -> Q * option EnqueueError;
  queued : Q -> list Task;
  tryEnqueue_accepted q t q' : tryEnqueue q t = (q', None) -> queued q' ≡ₚ t :: queued q;
  tryEnqueue_refused q t q' e : tryEnqueue q t = (q', Some e) -> q' = q;
  enqueueDelayed_accepted q t d q' : enqueueDelayed q t d = (q', None) -> queued q' ≡ₚ t :: queued q;
  enqueueDelayed_refused q t d q' e : enqueueDelayed q t d = (q', Some e) -> q' = q
}.

#[export, refine] Instance memoryQueue_TaskQueue (preferSend : memoryQueue -> Task -> bool)
    : TaskQueue memoryQueue := {
  tryEnqueue q t := TryEnqueue (preferSend q t) q t;
  enqueueDelayed := EnqueueDelayed;
  queued := tasksOf
}.
Proof.
  - intros q t q' E. apply (md_tasks _ _ _ _ (move_moved _ _ _ _ (mv_try _ _ _ _ E))).
  - intros q t q' e. unfold TryEnqueue. destruct (send q _); [destruct (_ && _)|]; by intros [= <- _].
  - intros q t d q' E. apply (md_tasks _ _ _ _ (move_moved _ _ _ _ (mv_delayed _ _ _ _ E))).
  - intros q t d q' e. unfold EnqueueDelayed. destruct (beginBackground q _); by intros [= <- _].
Defined.
