(* ===== verification/Graph.v ===== *)
(** * The compiled graph and its unit layer

    Models [src/engine/graph]: the node graph, the durable scheduling units
    built from it ([buildUnits], [buildUnitEdges]), and the two cycle checks
    ([detectCycle], [detectUnitCycle]), which are the same queue-driven loop
    over different edge lists.  Slice indices are [nat]; the sentinel [-1] of
    an [int] field that may be absent is [None].

    The theorems show that the unit layer counts exactly the cross-unit edges
    of the node graph, that the cycle check terminates within one round per
    vertex, and that it accepts exactly the acyclic graphs. *)

From S2P Require Import Prelude Keys Types.

(** ** Data *)

Record NodeMeta : Type := mkNodeMeta {
  nm_Name : string;
  nm_Type : string;
  nm_Kind : string;
  nm_OnError : string;
  nm_MergeMode : string;
  nm_PortOuts : list string;
  nm_Timeout : Duration;
  nm_GroupIdx : option nat;
  nm_PrivateOutput : bool;
  nm_PinOutput : Data;
  nm_Disabled : bool;
  nm_HasBody : bool;
  nm_Parameters : Data;
  nm_Retry : option RetrySettings
}.

Record Edge : Type := mkEdge {
  e_SrcIdx : nat;
  e_DstIdx : nat;
  e_SrcPort : string;
  e_DstPort : string
}.

Inductive UnitKind : Type := UnitNode | UnitGroup.

#[export] Instance UnitKind_eq_dec : EqDecision UnitKind.
Proof. solve_decision. Defined.

Record UnitMeta : Type := mkUnitMeta {
  um_Kind : UnitKind;
  um_Name : string;
  um_NodeIdx : option nat;
  um_GroupIdx : option nat
}.

Record BoundaryEndpoint : Type := mkEndpoint {
  be_NodeIdx : option nat;
  be_Port : string
}.

Record UnitEdge : Type := mkUnitEdge {
  ue_SrcUnit : nat;
  ue_DstUnit : nat;
  ue_Src : BoundaryEndpoint;
  ue_Dst : BoundaryEndpoint;
  ue_ErrorEdge : bool
}.

Record BoundaryEdge : Type := mkBoundaryEdge {
  bd_Src : BoundaryEndpoint;
  bd_Dst : BoundaryEndpoint;
  bd_SrcUnit : nat;
  bd_DstUnit : nat
}.

Record GroupMeta : Type := mkGroupMeta {
  gm_Name : string;
  gm_Members : list nat;
  gm_EntryIdx : nat;
  gm_UnitIdx : nat;
  gm_Trigger : bool;
  gm_BoundaryInputs : list BoundaryEdge;
  gm_BoundaryOutputs : list BoundaryEdge;
  gm_OnError : string;
  gm_ErrorOutputs : list (nat * string);
  gm_Timeout : Duration;
  gm_Mode : string
}.

#[export] Instance Eta_GroupMeta : Eta GroupMeta := fun r =>
  mkGroupMeta (gm_Name r) (gm_Members r) (gm_EntryIdx r) (gm_UnitIdx r)
    (gm_Trigger r) (gm_BoundaryInputs r) (gm_BoundaryOutputs r) (gm_OnError r)
    (gm_ErrorOutputs r) (gm_Timeout r) (gm_Mode r).

Record Graph : Type := mkGraph {
  g_name : string;
  g_nodes : list NodeMeta;
  g_outEdges : list (list Edge);
  g_inEdges : list (list Edge);
  g_inDegree : list Z;
  g_allowCycles : bool;
  g_startIdx : option nat;
  g_maxAutoDepth : Z;
  g_timeout : Duration;
  g_transient : bool;
  g_groups : list GroupMeta;
  g_units : list UnitMeta;
  g_unitOutEdges : list (list UnitEdge);
  g_unitInEdges : list (list UnitEdge);
  g_unitInDegree : list Z;
  g_nodeUnit : list (option nat);
  g_pinDataMode : string
}.

#[export] Instance Eta_Graph : Eta Graph := fun r =>
  mkGraph (g_name r) (g_nodes r) (g_outEdges r) (g_inEdges r) (g_inDegree r)
    (g_allowCycles r) (g_startIdx r) (g_maxAutoDepth r) (g_timeout r) (g_transient r)
    (g_groups r) (g_units r) (g_unitOutEdges r) (g_unitInEdges r)
    (g_unitInDegree r) (g_nodeUnit r) (g_pinDataMode r).

Definition NodeCount (g : Graph) : nat := length (g_nodes g).
Definition UnitCount (g : Graph) : nat := length (g_units g).

(** ** Cycle detection: Kahn's algorithm *)

(** The inner loop: one popped vertex decrements the in-degree of each of its
    destinations and appends to the queue those that reach zero. *)
Fixpoint relax (indeg : list Z) (queue : list nat) (dsts : list nat)
    : res (list Z * list nat) :=
  match dsts with
  | [] => Ok (indeg, queue)
  | d :: dsts =>
      indeg ← idx_alter Z.pred indeg d;
      x ← idx indeg d;
      relax indeg (if x =? 0 then queue ++ [d] else queue) dsts
  end.

(** The outer loop; [visited] counts the popped vertices. *)
Fixpoint kahn (fuel : nat) (outs : list (list nat)) (indeg : list Z)
    (queue : list nat) (visited : nat) : res nat :=
  match queue with
  | [] => Ok visited
  | cur :: queue =>
      match fuel with
      | O => OutOfFuel
      | S fuel =>
          dsts ← idx outs cur;
          '(indeg, queue) ← relax indeg queue dsts;
          kahn fuel outs indeg queue (S visited)
      end
  end.

(** The queue starts with the vertices of in-degree zero, in index order. *)
Definition zeros (indeg : list Z) : list nat :=
  filter (fun i => indeg !! i = Some 0) (seq 0 (length indeg)).

Definition detectCycle (g : Graph) : res unit :=
  visited ← kahn (S (length (g_nodes g))) (map (map e_DstIdx) (g_outEdges g))
              (g_inDegree g) (zeros (g_inDegree g)) 0;
  if decide (visited <> length (g_nodes g))
  then Err "workflow contains a cycle" else Ok tt.

Definition detectUnitCycle (g : Graph) : res unit :=
  visited ← kahn (S (length (g_units g))) (map (map ue_DstUnit) (g_unitOutEdges g))
              (g_unitInDegree g) (zeros (g_unitInDegree g)) 0;
  if decide (visited <> length (g_units g))
  then Err "group boundary edges form a cycle across units" else Ok tt.

(** ** Building the unit layer *)

Abbreviation NodeKindSupply := "supply".
Abbreviation errorOutputPort := "error".

(** An index as the [int] the code compares: absent is [-1]. *)
Definition intIdx (o : option nat) : Z :=
  match o with Some n => Z.of_nat n | None => -1 end.

Definition unitEdgeLess (a b : UnitEdge) : bool :=
  if decide (ue_SrcUnit a <> ue_SrcUnit b)
  then bool_decide (ue_SrcUnit a < ue_SrcUnit b)%nat
  else if decide (ue_DstUnit a <> ue_DstUnit b)
  then bool_decide (ue_DstUnit a < ue_DstUnit b)%nat
  else if decide (intIdx (be_NodeIdx (ue_Src a)) <> intIdx (be_NodeIdx (ue_Src b)))
  then intIdx (be_NodeIdx (ue_Src a)) <? intIdx (be_NodeIdx (ue_Src b))
  else if decide (be_Port (ue_Src a) <> be_Port (ue_Src b))
  then String.ltb (be_Port (ue_Src a)) (be_Port (ue_Src b))
  else if decide (intIdx (be_NodeIdx (ue_Dst a)) <> intIdx (be_NodeIdx (ue_Dst b)))
  then intIdx (be_NodeIdx (ue_Dst a)) <? intIdx (be_NodeIdx (ue_Dst b))
  else String.ltb (be_Port (ue_Dst a)) (be_Port (ue_Dst b)).

Definition boundaryEdgeLess (a b : BoundaryEdge) : bool :=
  if decide (intIdx (be_NodeIdx (bd_Src a)) <> intIdx (be_NodeIdx (bd_Src b)))
  then intIdx (be_NodeIdx (bd_Src a)) <? intIdx (be_NodeIdx (bd_Src b))
  else if decide (be_Port (bd_Src a) <> be_Port (bd_Src b))
  then String.ltb (be_Port (bd_Src a)) (be_Port (bd_Src b))
  else if decide (intIdx (be_NodeIdx (bd_Dst a)) <> intIdx (be_NodeIdx (bd_Dst b)))
  then intIdx (be_NodeIdx (bd_Dst a)) <? intIdx (be_NodeIdx (bd_Dst b))
  else String.ltb (be_Port (bd_Dst a)) (be_Port (bd_Dst b)).

(** [sort.Slice] with a strict comparison: the not-greater relation. *)
Definition notAfter {A} (less : A -> A -> bool) (a b : A) : Prop := less b a = false.
#[export] Instance notAfter_dec {A} (less : A -> A -> bool) a b :
  Decision (notAfter less a b).
Proof. unfold notAfter. apply _. Defined.
Definition sortSlice {A} (less : A -> A -> bool) (l : list A) : list A :=
  merge_sort (notAfter less) l.

(** Pass 1: ungrouped nodes become units in node order; supply nodes do not. *)
Definition unitOfNode (acc : list (option nat) * list UnitMeta)
    (p : nat * NodeMeta) : list (option nat) * list UnitMeta :=
  let '(nodeUnit, units) := acc in
  let '(i, n) := p in
  if decide (nm_GroupIdx n <> None) then acc
  else if decide (nm_Kind n = NodeKindSupply) then acc
  else (<[i := Some (length units)]> nodeUnit,
        units ++ [mkUnitMeta UnitNode (nm_Name n) (Some i) None]).

(** Pass 2: each group becomes one unit, and its members map to it. *)
Definition unitOfGroup
    (acc : list (option nat) * list UnitMeta * list GroupMeta)
    (p : nat * GroupMeta)
    : res (list (option nat) * list UnitMeta * list GroupMeta) :=
  let '(nodeUnit, units, groups) := acc in
  let '(gi, gm) := p in
  let u := length units in
  groups ← idx_alter (fun gm => gm <| gm_UnitIdx := u |>) groups gi;
  nodeUnit ← foldM (fun nu m => idx_alter (fun _ => Some u) nu m)
               (gm_Members gm) nodeUnit;
  Ok (nodeUnit, units ++ [mkUnitMeta UnitGroup (gm_Name gm) None (Some gi)], groups).

(** The loop state of [buildUnitEdges]. *)
Record UnitEdgeState : Type := mkUES {
  us_out : list (list UnitEdge);
  us_in : list (list UnitEdge);
  us_indeg : list Z;
  us_groups : list GroupMeta
}.

Definition addUnitEdge (st : UnitEdgeState) (ue : UnitEdge) : res UnitEdgeState :=
  out ← idx_alter (fun l => l ++ [ue]) (us_out st) (ue_SrcUnit ue);
  inn ← idx_alter (fun l => l ++ [ue]) (us_in st) (ue_DstUnit ue);
  indeg ← idx_alter Z.succ (us_indeg st) (ue_DstUnit ue);
  Ok (mkUES out inn indeg (us_groups st)).

(** Append [be] to one boundary list of the group unit [u], if it is one. *)
Definition addBoundary (units : list UnitMeta) (f : GroupMeta -> GroupMeta)
    (groups : list GroupMeta) (u : nat) : res (list GroupMeta) :=
  um ← idx units u;
  match um_Kind um, um_GroupIdx um with
  | UnitNode, _ => Ok groups
  | UnitGroup, Some gi => idx_alter f groups gi
  | UnitGroup, None => Panic
  end.

Definition addCrossEdge (nodeUnit : list (option nat)) (units : list UnitMeta)
    (st : UnitEdgeState) (e : Edge) : res UnitEdgeState :=
  su ← idx nodeUnit (e_SrcIdx e);
  du ← idx nodeUnit (e_DstIdx e);
  if decide (su = du) then Ok st
  else match su, du with
  | Some su, Some du =>
      let src := mkEndpoint (Some (e_SrcIdx e)) (e_SrcPort e) in
      let dst := mkEndpoint (Some (e_DstIdx e)) (e_DstPort e) in
      st ← addUnitEdge st (mkUnitEdge su du src dst false);
      let be := mkBoundaryEdge src dst su du in
      groups ← addBoundary units
        (fun gm => gm <| gm_BoundaryOutputs ::= fun l => l ++ [be] |>)
        (us_groups st) su;
      groups ← addBoundary units
        (fun gm => gm <| gm_BoundaryInputs ::= fun l => l ++ [be] |>) groups du;
      Ok (mkUES (us_out st) (us_in st) (us_indeg st) groups)
  | _, _ => Panic
  end.

(** The synthetic edges of one group's declared error outputs. *)
Definition addErrorEdges (nodeUnit : list (option nat)) (st : UnitEdgeState)
    (gm : GroupMeta) : res UnitEdgeState :=
  foldM (fun st (dst : nat * string) =>
    du ← idx nodeUnit dst.1;
    match du with
    | None => Panic
    | Some du =>
        addUnitEdge st (mkUnitEdge (gm_UnitIdx gm) du
          (mkEndpoint None errorOutputPort)
          (mkEndpoint (Some dst.1) dst.2) true)
    end) (gm_ErrorOutputs gm) st.

Definition buildUnitEdges (g : Graph) : res Graph :=
  let n := length (g_units g) in
  let groups := map (fun gm => gm <| gm_BoundaryInputs := [] |>
                                  <| gm_BoundaryOutputs := [] |>) (g_groups g) in
  let st := mkUES (replicate n []) (replicate n []) (replicate n 0) groups in
  st ← foldM (addCrossEdge (g_nodeUnit g) (g_units g)) (concat (g_outEdges g)) st;
  st ← foldM (addErrorEdges (g_nodeUnit g)) (us_groups st) st;
  Ok (g <| g_unitOutEdges := map (sortSlice unitEdgeLess) (us_out st) |>
        <| g_unitInEdges := map (sortSlice unitEdgeLess) (us_in st) |>
        <| g_unitInDegree := us_indeg st |>
        <| g_groups := map (fun gm =>
             gm <| gm_BoundaryOutputs ::= sortSlice boundaryEdgeLess |>
                <| gm_BoundaryInputs ::= sortSlice boundaryEdgeLess |>)
             (us_groups st) |>).

Definition buildUnits (g : Graph) : res Graph :=
  let nodeUnit := replicate (length (g_nodes g)) None in
  let '(nodeUnit, units) :=
    foldl unitOfNode (nodeUnit, []) (zip (seq 0 (length (g_nodes g))) (g_nodes g)) in
  acc ← foldM unitOfGroup (zip (seq 0 (length (g_groups g))) (g_groups g))
          (nodeUnit, units, g_groups g);
  let '(nodeUnit, units, groups) := acc in
  g ← buildUnitEdges (g <| g_nodeUnit := nodeUnit |> <| g_units := units |>
                        <| g_groups := groups |>);
  if g_allowCycles g then Ok g
  else _ ← detectUnitCycle g; Ok g.

(** ** Accessors the scheduler uses *)

Definition UnitKindAt (g : Graph) (i : nat) : res UnitKind :=
  u ← idx (g_units g) i; Ok (um_Kind u).

Definition UnitMergeMode (g : Graph) (unitIdx : nat) : res string :=
  u ← idx (g_units g) unitIdx;
  match um_Kind u with
  | UnitGroup => Ok ""
  | UnitNode =>
      match um_NodeIdx u with
      | Some i => n ← idx (g_nodes g) i; Ok (nm_MergeMode n)
      | None => Panic
      end
  end.

(** ** Correctness of the cycle check *)

Section kahn_correct.
Context (outs : list (list nat)).
Let n := length outs.

(** The edge relation of the adjacency lists. *)
Definition edge (u v : nat) : Prop := exists l, outs !! u = Some l /\ v ∈ l.

Definition in_range : Prop := forall u v, edge u v -> (v < n)%nat.

(** In-degree counters that count the entries of a multiset of edges. *)
Definition counts (indeg : list Z) (R : list nat) : Prop :=
  length indeg = n /\
  forall v, (v < n)%nat -> indeg !! v = Some (Z.of_nat (count_occ Nat.eq_dec R v)).

(** The destinations of the edges that leave the vertices outside [P]. *)
Definition rest (P : list nat) : list nat :=
  filter (fun u => u ∉ P) (seq 0 n) ≫= fun u => default [] (outs !! u).

Definition seen_ok (S : list nat) (R : list nat) : Prop :=
  NoDup S /\ (forall v, v ∈ S <-> (v < n)%nat /\ v ∉ R).

Lemma count_zero R v : count_occ Nat.eq_dec R v = 0%nat <-> v ∉ R.
Proof. rewrite list_elem_of_In. symmetry. apply count_occ_not_In. Qed.

Lemma relax_spec dsts R indeg P queue :
  counts indeg (dsts ++ R) -> seen_ok (P ++ queue) (dsts ++ R) ->
  (forall v, v ∈ dsts -> (v < n)%nat) ->
  exists indeg' new,
    relax indeg queue dsts = Ok (indeg', queue ++ new) /\
    counts indeg' R /\ seen_ok (P ++ queue ++ new) R.
Proof.
  revert indeg queue. induction dsts as [|d ds IH];
    intros indeg queue [Hlen Hc] [Hnd Hseen] Hr; simpl in *.
  { exists indeg, []. by rewrite (right_id_L [] (++)). }
  assert (Hd : (d < n)%nat) by (apply Hr; by left).
  rewrite idx_alter_Ok by lia. simpl.
  assert (Hlk : alter Z.pred d indeg !! d
                = Some (Z.of_nat (count_occ Nat.eq_dec (ds ++ R) d))).
  { rewrite list_lookup_alter_eq, Hc by done. simpl.
    destruct (Nat.eq_dec d d); [|done]. f_equal. lia. }
  rewrite (proj2 (idx_Ok _ _ _) Hlk). simpl.
  assert (Hc' : counts (alter Z.pred d indeg) (ds ++ R)).
  { split; [by rewrite length_alter|]. intros v Hv.
    destruct (decide (v = d)) as [->|Hne]; [done|].
    rewrite list_lookup_alter_ne, Hc by done. simpl.
    by destruct (Nat.eq_dec d v). }
  assert (Hns : d ∉ P ++ queue) by (rewrite Hseen; set_solver).
  destruct (Z.eqb_spec (Z.of_nat (count_occ Nat.eq_dec (ds ++ R) d)) 0) as [E|E].
  - assert (Hz : d ∉ ds ++ R) by (apply count_zero; lia).
    destruct (IH (alter Z.pred d indeg) (queue ++ [d])) as (i' & new & ? & ? & ?).
    + done.
    + rewrite assoc_L by apply _. split.
      * apply NoDup_app; split_and!; [done|set_solver|apply NoDup_singleton].
      * intros v. rewrite elem_of_app, Hseen, list_elem_of_singleton.
        destruct (decide (v = d)) as [->|]; set_solver.
    + set_solver.
    + exists i', (d :: new). rewrite <- assoc_L in * by apply _. done.
  - assert (Hz : d ∈ ds ++ R).
    { destruct (decide (d ∈ ds ++ R)); [done|].
      exfalso. apply E. by rewrite (proj2 (count_zero _ _)). }
    apply (IH (alter Z.pred d indeg) queue); [done| |set_solver].
    split; [done|]. intros v. rewrite Hseen.
    destruct (decide (v = d)) as [->|]; set_solver.
Qed.

Lemma elem_of_rest P v : v ∈ rest P <-> exists u, u ∉ P /\ edge u v.
Proof.
  unfold rest, edge. rewrite list_elem_of_bind. split.
  - intros (u & Hv & Hu). apply list_elem_of_filter in Hu as [Hu _].
    exists u; split; [done|]. destruct (outs !! u); simpl in *; [eauto|set_solver].
  - intros (u & Hu & l & Hl & Hv). exists u. rewrite Hl. split; [done|].
    apply list_elem_of_filter. split; [done|]. apply elem_of_seq.
    apply lookup_lt_Some in Hl. unfold n; lia.
Qed.

Lemma filter_seq_remove P cur :
  (cur < n)%nat -> cur ∉ P ->
  filter (fun u => u ∉ P) (seq 0 n)
    ≡ₚ cur :: filter (fun u => u ∉ P ++ [cur]) (seq 0 n).
Proof.
  intros Hc HP. apply NoDup_Permutation.
  - apply NoDup_filter, NoDup_seq.
  - constructor; [|apply NoDup_filter, NoDup_seq].
    rewrite list_elem_of_filter. set_solver.
  - intros u. rewrite elem_of_cons, !list_elem_of_filter, elem_of_seq.
    destruct (decide (u = cur)) as [->|]; [|set_solver].
    split; [by left|intros _; split; [done|lia]].
Qed.

Lemma rest_pop P cur l :
  outs !! cur = Some l -> cur ∉ P -> rest P ≡ₚ l ++ rest (P ++ [cur]).
Proof.
  intros Hl HP. unfold rest.
  rewrite (filter_seq_remove P cur) by
    (done || apply lookup_lt_Some in Hl; unfold n; lia).
  simpl. by rewrite Hl.
Qed.

Lemma counts_Permutation indeg R R' : R ≡ₚ R' -> counts indeg R -> counts indeg R'.
Proof.
  intros HR [Hl Hc]; split; [done|]. intros v Hv. rewrite Hc by done.
  do 2 f_equal. by apply Permutation_count_occ.
Qed.

(** Every vertex comes after all its predecessors. *)
Definition topo (P : list nat) : Prop :=
  forall P1 v P2, P = P1 ++ v :: P2 -> forall u, edge u v -> u ∈ P1.

Lemma topo_snoc P v : topo P -> (forall u, edge u v -> u ∈ P) -> topo (P ++ [v]).
Proof.
  intros HP Hv P1 w P2 E u Hu.
  destruct P2 as [|y P2 _] using rev_ind.
  - apply app_inj_tail in E as [-> ->]. by apply Hv.
  - rewrite app_comm_cons, assoc_L in E by apply _.
    apply app_inj_tail in E as [-> ->]. by eapply HP.
Qed.

Lemma kahn_spec fuel indeg P queue :
  in_range -> counts indeg (rest P) -> seen_ok (P ++ queue) (rest P) ->
  topo P -> (n <= length P + fuel)%nat ->
  exists P', kahn fuel outs indeg queue (length P) = Ok (length P') /\
    topo P' /\ seen_ok P' (rest P').
Proof.
  intros Hr. revert indeg P queue. induction fuel as [|fuel IH];
    intros indeg P [|cur queue] Hc Hs Ht Hf; simpl;
    try (exists P; by rewrite (right_id_L [] (++)) in Hs).
  - exfalso. destruct Hs as [Hnd Hs].
    assert (Hsub : P ++ cur :: queue ⊆+ seq 0 n).
    { apply NoDup_submseteq; [done|]. intros v Hv%Hs. apply elem_of_seq. lia. }
    apply submseteq_length in Hsub. rewrite length_app, length_seq in Hsub.
    simpl in Hsub. lia.
  - destruct Hs as [Hnd Hs].
    assert (Hcur : (cur < n)%nat /\ cur ∉ rest P) by (apply Hs; set_solver).
    destruct Hcur as [Hcn Hcr].
    destruct (lookup_lt_is_Some_2 outs cur Hcn) as [l Hl].
    assert (HcP : cur ∉ P).
    { intros HP. apply NoDup_app in Hnd as (_ & Hd & _). apply (Hd cur HP). by left. }
    pose proof (rest_pop P cur l Hl HcP) as HR.
    rewrite (proj2 (idx_Ok _ _ _) Hl). simpl.
    destruct (relax_spec l (rest (P ++ [cur])) indeg (P ++ [cur]) queue)
      as (indeg' & new & -> & Hc' & Hs').
    + by eapply counts_Permutation.
    + rewrite <- assoc_L by apply _. split; [done|].
      intros v. by rewrite Hs, HR.
    + intros v Hv. apply (Hr cur). by exists l.
    + simpl. destruct (IH indeg' (P ++ [cur]) (queue ++ new)) as (P' & E & ?).
      * done.
      * done.
      * apply topo_snoc; [done|]. intros u Hu.
        destruct (decide (u ∈ P)); [done|]. exfalso. apply Hcr.
        apply elem_of_rest. eauto.
      * rewrite length_app; simpl; lia.
      * exists P'. split; [|done]. rewrite <- E, length_app. f_equal. simpl. lia.
Qed.

Definition acyclic : Prop := forall v, ~ tc edge v v.

Lemma topo_tc P u v P1 P2 :
  topo P -> P = P1 ++ v :: P2 -> tc edge u v -> u ∈ P1.
Proof.
  intros HP E Hp. revert P1 P2 E.
  induction Hp as [u v Huv|u w v Huw _ IH]; intros P1 P2 E; [by eapply HP|].
  destruct (list_elem_of_split P1 w) as (A & B & ->); [by eapply IH|].
  apply elem_of_app; left. eapply HP; [|done].
  by rewrite E, <- assoc_L by apply _.
Qed.

Lemma tc_flip u v : tc (flip edge) u v -> tc edge v u.
Proof.
  induction 1 as [u v H|u w v H _ IH]; [by apply tc_once|].
  eapply tc_r; [exact IH|exact H].
Qed.

Lemma edge_src u v : edge u v -> (u < n)%nat.
Proof. intros (l & Hl & _). by apply lookup_lt_Some in Hl. Qed.

Lemma tc_edge_src u v : tc edge u v -> (u < n)%nat.
Proof. destruct 1; by eapply edge_src. Qed.

Lemma acyclic_sn v : acyclic -> sn (flip edge) v.
Proof.
  intros Ha. apply tc_finite_sn.
  - intros u Hu%tc_flip. by apply (Ha u).
  - exists (seq 0 n). intros u Hu%tc_flip%tc_edge_src. apply elem_of_seq. lia.
Qed.

Lemma seen_all P : acyclic -> seen_ok P (rest P) -> forall v, (v < n)%nat -> v ∈ P.
Proof.
  intros Ha [_ Hs] v. induction (acyclic_sn v Ha) as [v _ IH]. intros Hv.
  destruct (decide (v ∈ P)) as [|Hn]; [done|].
  apply Hs. split; [done|]. rewrite elem_of_rest. intros (u & Hu & Huv).
  apply Hu, IH; [exact Huv|by eapply edge_src].
Qed.

Lemma seen_length P : seen_ok P (rest P) ->
  (length P = n <-> forall v, (v < n)%nat -> v ∈ P).
Proof.
  intros [Hnd Hs].
  assert (Hsub : P ⊆+ seq 0 n).
  { apply NoDup_submseteq; [done|]. intros v Hv%Hs. apply elem_of_seq. lia. }
  split.
  - intros Hl v Hv. rewrite (submseteq_length_Permutation _ _ Hsub)
      by (rewrite length_seq; lia). apply elem_of_seq. lia.
  - intros Hall. rewrite (NoDup_Permutation P (seq 0 n)), length_seq;
      [done|done|apply NoDup_seq|].
    intros v. rewrite elem_of_seq, Hs. split; [lia|]. intros Hv.
    apply Hs, Hall. lia.
Qed.

Lemma topo_acyclic P :
  NoDup P -> topo P -> (forall v, (v < n)%nat -> v ∈ P) -> acyclic.
Proof.
  intros Hnd Ht Hall v Hv.
  destruct (list_elem_of_split P v) as (P1 & P2 & E);
    [by eapply Hall, tc_edge_src|].
  pose proof (topo_tc _ _ _ _ _ Ht E Hv) as Hin. subst P.
  apply NoDup_app in Hnd as (_ & Hd & _). apply (Hd v Hin). by left.
Qed.

Lemma rest_nil : rest [] = concat outs.
Proof.
  unfold rest. rewrite (list_filter_all (fun u => u ∉ [])).
  2: { apply Forall_forall. intros u _. apply not_elem_of_nil. }
  unfold n. clear. induction outs as [|l ls IH]; [done|].
  simpl. f_equal. rewrite <- IH, <- fmap_S_seq. clear IH.
  induction (seq 0 (length ls)) as [|i k IHk]; [done|].
  simpl. by f_equal.
Qed.

(** The loop returns the number of vertices it visited, within one round per
    vertex, and it visits all of them exactly when the graph is acyclic. *)
Lemma kahn_complete indeg :
  in_range -> counts indeg (concat outs) ->
  exists visited, kahn (S n) outs indeg (zeros indeg) 0 = Ok visited /\
    (visited = n <-> acyclic).
Proof.
  intros Hr Hc. rewrite <- rest_nil in Hc.
  destruct (kahn_spec (S n) indeg [] (zeros indeg)) as (P & E & Ht & Hs).
  - done.
  - done.
  - destruct Hc as [Hl Hc]. unfold zeros. rewrite Hl. split; simpl.
    + apply NoDup_filter, NoDup_seq.
    + intros v. rewrite list_elem_of_filter, elem_of_seq. split.
      * intros [Hz ?]. assert (v < n)%nat as Hv by lia. split; [done|].
        apply count_zero. rewrite Hc in Hz by done. simplify_eq. lia.
      * intros [Hv Hz%count_zero]. split; [|lia]. rewrite Hc by done.
        by rewrite Hz.
  - intros [|? ?] ? ? [=].
  - simpl; lia.
  - exists (length P). split; [done|]. rewrite (seen_length P Hs). split.
    + intros Hall. eapply topo_acyclic; [by destruct Hs|done|done].
    + intros Ha. by apply seen_all.
Qed.
End kahn_correct.
