(* ===== verification/Units.v ===== *)
(** * The unit layer of a compiled graph

    What [buildUnits] produces from a node graph that registration, edge
    building and group compilation have accepted ([wf_nodes]): every
    schedulable node belongs to exactly one unit, every unit edge is one
    cross-unit node edge or one declared error output, the in-degree counters
    count them, and the function fails only on a cycle between units. *)

From S2P Require Import Prelude Keys Types Graph.

(** ** Well-formed node graphs *)

(** An ungrouped node that takes part in scheduling. *)
Definition plain (nd : NodeMeta) : Prop :=
  nm_GroupIdx nd = None /\ nm_Kind nd <> NodeKindSupply.
#[export] Instance plain_dec nd : Decision (plain nd).
Proof. unfold plain. apply _. Defined.

(** A node that some unit will run: a plain node or a group member. *)
Definition schedulable (g : Graph) (i : nat) : Prop :=
  exists nd, g_nodes g !! i = Some nd /\ (plain nd \/ nm_GroupIdx nd <> None).

Record wf_nodes (g : Graph) : Prop := {
  wf_edges : forall e, e ∈ concat (g_outEdges g) ->
    schedulable g (e_SrcIdx e) /\ schedulable g (e_DstIdx e);
  wf_grouped : forall i nd gi, g_nodes g !! i = Some nd -> nm_GroupIdx nd = Some gi ->
    exists gm, g_groups g !! gi = Some gm /\ i ∈ gm_Members gm;
  wf_members : forall gi gm i, g_groups g !! gi = Some gm -> i ∈ gm_Members gm ->
    exists nd, g_nodes g !! i = Some nd /\ nm_GroupIdx nd = Some gi;
  wf_error_outputs : forall gi gm d, g_groups g !! gi = Some gm ->
    d ∈ gm_ErrorOutputs gm -> schedulable g d.1
}.

(** ** What the unit layer must be *)

(** The unit edge of a node edge, if it crosses units. *)
Definition crossEdge (nodeUnit : list (option nat)) (e : Edge) : option UnitEdge :=
  match nodeUnit !! e_SrcIdx e, nodeUnit !! e_DstIdx e with
  | Some (Some su), Some (Some du) =>
      if decide (su = du) then None
      else Some (mkUnitEdge su du
                   (mkEndpoint (Some (e_SrcIdx e)) (e_SrcPort e))
                   (mkEndpoint (Some (e_DstIdx e)) (e_DstPort e)) false)
  | _, _ => None
  end.

Definition errorEdge (nodeUnit : list (option nat)) (gm : GroupMeta)
    (d : nat * string) : option UnitEdge :=
  match nodeUnit !! d.1 with
  | Some (Some du) =>
      Some (mkUnitEdge (gm_UnitIdx gm) du (mkEndpoint None errorOutputPort)
              (mkEndpoint (Some d.1) d.2) true)
  | _ => None
  end.

(** All edges of the unit layer, from the node graph and the groups. *)
Definition unitEdges (g : Graph) : list UnitEdge :=
  omap (crossEdge (g_nodeUnit g)) (concat (g_outEdges g))
  ++ (g_groups g ≫= fun gm => omap (errorEdge (g_nodeUnit g) gm) (gm_ErrorOutputs gm)).

(** The edge relation between units. *)
Definition unitEdge (g : Graph) (u v : nat) : Prop :=
  exists ue, ue ∈ unitEdges g /\ ue_SrcUnit ue = u /\ ue_DstUnit ue = v.

(** The units partition the schedulable nodes. *)
Record unit_partition (g : Graph) : Prop := {
  up_length : length (g_nodeUnit g) = length (g_nodes g);
  up_range : forall i u, g_nodeUnit g !! i = Some (Some u) -> (u < UnitCount g)%nat;
  up_sched : forall i, schedulable g i <-> exists u, g_nodeUnit g !! i = Some (Some u);
  up_node : forall u um i, g_units g !! u = Some um -> um_NodeIdx um = Some i ->
    um_Kind um = UnitNode /\ g_nodeUnit g !! i = Some (Some u);
  up_group : forall u um, g_units g !! u = Some um -> um_Kind um = UnitGroup ->
    exists gi gm, um_GroupIdx um = Some gi /\ g_groups g !! gi = Some gm /\
      gm_UnitIdx gm = u /\
      forall i, i ∈ gm_Members gm <-> g_nodeUnit g !! i = Some (Some u);
  up_kind : forall u um, g_units g !! u = Some um -> um_Kind um = UnitNode ->
    exists i, um_NodeIdx um = Some i;
  up_groups : forall gi gm, g_groups g !! gi = Some gm ->
    (gm_UnitIdx gm < UnitCount g)%nat;
  up_single : forall i u um, g_nodeUnit g !! i = Some (Some u) -> g_units g !! u = Some um ->
    um_Kind um = UnitNode -> um_NodeIdx um = Some i
}.

(** A small graph with a supply node and a group of two members:
    [start -> (a -> b) -> end], where the group also routes errors to [end]. *)
Definition exampleNode (name kind : string) (gi : option nat) : NodeMeta :=
  mkNodeMeta name "xflow.noop" kind "" "" [] 0 gi false None false false None None.

Definition exampleGraph : Graph :=
  mkGraph "example"
    [exampleNode "start" "action" None; exampleNode "a" "action" (Some 0%nat);
     exampleNode "b" "action" (Some 0%nat); exampleNode "rules" "supply" None;
     exampleNode "end" "action" None]
    [[mkEdge 0 1 "main" "main"]; [mkEdge 1 2 "main" "main"];
     [mkEdge 2 4 "main" "main"]; []; []]
    [[]; [mkEdge 0 1 "main" "main"]; [mkEdge 1 2 "main" "main"]; [];
     [mkEdge 2 4 "main" "main"]]
    [0; 1; 1; 0; 1] false None 0 0 false
    [mkGroupMeta "grp" [1%nat; 2%nat] 1 0 false [] [] "error_output"
       [(4%nat, "main")] 0 "durable"]
    [] [] [] [] [] "".

(** ** Accumulating edges *)

(** The loop state after the unit edges [L] were added. *)
Record tracks (n : nat) (st : UnitEdgeState) (L : list UnitEdge) : Prop := {
  tr_out : length (us_out st) = n /\ forall u, (u < n)%nat ->
    us_out st !! u = Some (filter (fun e => ue_SrcUnit e = u) L);
  tr_in : length (us_in st) = n /\ forall u, (u < n)%nat ->
    us_in st !! u = Some (filter (fun e => ue_DstUnit e = u) L);
  tr_deg : length (us_indeg st) = n /\ forall u, (u < n)%nat ->
    us_indeg st !! u = Some (Z.of_nat (length (filter (fun e => ue_DstUnit e = u) L)))
}.

(** Appending one edge to the list of the vertex [p] of an edge. *)
Lemma alter_filter_snoc (p : UnitEdge -> nat) n (out : list (list UnitEdge)) L ue :
  length out = n ->
  (forall u, (u < n)%nat -> out !! u = Some (filter (fun e => p e = u) L)) ->
  forall u, (u < n)%nat ->
    alter (fun l => l ++ [ue]) (p ue) out !! u
    = Some (filter (fun e => p e = u) (L ++ [ue])).
Proof.
  intros Hl Hout u Hu. rewrite filter_app, filter_cons, filter_nil.
  destruct (decide (p ue = u)) as [<-|Hne].
  - rewrite list_lookup_alter_eq, Hout by done. done.
  - rewrite list_lookup_alter_ne, Hout by done. by rewrite (right_id_L [] (++)).
Qed.

Lemma addUnitEdge_tracks n st L ue :
  tracks n st L -> (ue_SrcUnit ue < n)%nat -> (ue_DstUnit ue < n)%nat ->
  exists st', addUnitEdge st ue = Ok st' /\ tracks n st' (L ++ [ue]) /\
    us_groups st' = us_groups st.
Proof.
  intros [[Hlo Ho] [Hli Hi] [Hld Hd]] Hs Ht. unfold addUnitEdge.
  rewrite !idx_alter_Ok by lia. simpl. eexists; split; [done|]. split; [|done].
  split; simpl; (split; [by rewrite length_alter|]).
  - by apply (alter_filter_snoc ue_SrcUnit n).
  - by apply (alter_filter_snoc ue_DstUnit n).
  - intros u Hu. rewrite filter_app, filter_cons, filter_nil, length_app.
    destruct (decide (ue_DstUnit ue = u)) as [<-|Hne].
    + rewrite list_lookup_alter_eq, Hd by done. simpl. f_equal. lia.
    + rewrite list_lookup_alter_ne, Hd by done. simpl. f_equal. lia.
Qed.

Lemma tracks_init n groups :
  tracks n (mkUES (replicate n []) (replicate n []) (replicate n 0) groups) [].
Proof.
  split; (split; [apply length_replicate|]); simpl; intros u Hu;
    by apply lookup_replicate.
Qed.

(** The fields of a group that edge building only reads. *)
Definition core (gm : GroupMeta) : nat * list nat * list (nat * string) :=
  (gm_UnitIdx gm, gm_Members gm, gm_ErrorOutputs gm).

Lemma core_alter f i (gs : list GroupMeta) :
  (forall gm, core (f gm) = core gm) -> core <$> alter f i gs = core <$> gs.
Proof.
  intros Hf. apply list_eq. intros j. rewrite !list_lookup_fmap.
  destruct (decide (i = j)) as [<-|Hne].
  - rewrite list_lookup_alter_eq. destruct (gs !! i); simpl; [by rewrite Hf|done].
  - by rewrite list_lookup_alter_ne.
Qed.

Lemma core_length (gs gs' : list GroupMeta) :
  core <$> gs = core <$> gs' -> length gs = length gs'.
Proof. intros E. apply (f_equal length) in E. by rewrite !length_fmap in E. Qed.

(** Group units name an existing group. *)
Definition group_units_ok (units : list UnitMeta) (ngroups : nat) : Prop :=
  forall u um, units !! u = Some um -> um_Kind um = UnitGroup ->
    exists gi, um_GroupIdx um = Some gi /\ (gi < ngroups)%nat.

Lemma addBoundary_Ok units f groups u :
  group_units_ok units (length groups) -> (u < length units)%nat ->
  (forall gm, core (f gm) = core gm) ->
  exists groups', addBoundary units f groups u = Ok groups' /\
    core <$> groups' = core <$> groups.
Proof.
  intros Hok Hu Hf. unfold addBoundary.
  destruct (lookup_lt_is_Some_2 units u Hu) as [um Hum].
  rewrite (proj2 (idx_Ok _ _ _) Hum). simpl. destruct (um_Kind um) eqn:Hk; [eauto|].
  destruct (Hok u um Hum Hk) as (gi & -> & Hgi).
  rewrite idx_alter_Ok by done. eexists; split; [done|]. by apply core_alter.
Qed.

Section edges.
Context (g : Graph).
Let n := UnitCount g.
Context (Hrange : forall i u, g_nodeUnit g !! i = Some (Some u) -> (u < n)%nat).

Definition has_unit (i : nat) : Prop := exists u, g_nodeUnit g !! i = Some (Some u).

Lemma addCrossEdge_tracks st L e :
  tracks n st L -> group_units_ok (g_units g) (length (us_groups st)) ->
  has_unit (e_SrcIdx e) -> has_unit (e_DstIdx e) ->
  exists st', addCrossEdge (g_nodeUnit g) (g_units g) st e = Ok st' /\
    tracks n st' (L ++ option_list (crossEdge (g_nodeUnit g) e)) /\
    core <$> us_groups st' = core <$> us_groups st.
Proof.
  intros Ht Hok [su Hsu] [du Hdu]. unfold addCrossEdge, crossEdge.
  rewrite Hsu, Hdu, (proj2 (idx_Ok _ _ _) Hsu), (proj2 (idx_Ok _ _ _) Hdu). simpl.
  destruct (decide (su = du)) as [->|Hne].
  { rewrite decide_True by done. exists st. simpl. by rewrite (right_id_L [] (++)). }
  rewrite decide_False by congruence.
  pose proof (Hrange _ _ Hsu). pose proof (Hrange _ _ Hdu).
  match goal with |- context [addUnitEdge st ?ue] =>
    destruct (addUnitEdge_tracks n st L ue) as (st1 & -> & Ht1 & Hg1); [done..|] end.
  simpl. rewrite <- Hg1 in Hok.
  match goal with |- context [addBoundary _ ?f (us_groups st1) su] =>
    destruct (addBoundary_Ok (g_units g) f (us_groups st1) su) as (gs1 & -> & E1);
      [done..|] end. simpl.
  rewrite <- (core_length _ _ E1) in Hok.
  match goal with |- context [addBoundary _ ?f gs1 du] =>
    destruct (addBoundary_Ok (g_units g) f gs1 du) as (gs2 & -> & E2); [done..|] end.
  simpl. eexists; split; [done|]. split.
  - destruct Ht1 as [H1 H2 H3]. by split.
  - simpl. by rewrite E2, E1, Hg1.
Qed.

Lemma addCrossEdges_tracks es st L :
  tracks n st L -> group_units_ok (g_units g) (length (us_groups st)) ->
  (forall e, e ∈ es -> has_unit (e_SrcIdx e) /\ has_unit (e_DstIdx e)) ->
  exists st', foldM (addCrossEdge (g_nodeUnit g) (g_units g)) es st = Ok st' /\
    tracks n st' (L ++ omap (crossEdge (g_nodeUnit g)) es) /\
    core <$> us_groups st' = core <$> us_groups st.
Proof.
  revert st L. induction es as [|e es IH]; intros st L Ht Hok Hes; simpl.
  { exists st. by rewrite (right_id_L [] (++)). }
  destruct (Hes e) as [? ?]; [by left|].
  destruct (addCrossEdge_tracks st L e) as (st1 & -> & Ht1 & E1); [done..|]. simpl.
  destruct (IH st1 _ Ht1) as (st2 & -> & Ht2 & E2).
  - by rewrite (core_length _ _ E1).
  - intros e' He'. apply Hes. by right.
  - exists st2. split; [done|]. split; [|by rewrite E2].
    rewrite <- assoc_L in Ht2 by apply _.
    by destruct (crossEdge (g_nodeUnit g) e).
Qed.

Lemma addErrorEdges_tracks gm st L :
  tracks n st L -> (gm_UnitIdx gm < n)%nat ->
  (forall d, d ∈ gm_ErrorOutputs gm -> has_unit d.1) ->
  exists st', addErrorEdges (g_nodeUnit g) st gm = Ok st' /\
    tracks n st' (L ++ omap (errorEdge (g_nodeUnit g) gm) (gm_ErrorOutputs gm)) /\
    us_groups st' = us_groups st.
Proof.
  intros Ht Hu. unfold addErrorEdges. revert st L Ht.
  induction (gm_ErrorOutputs gm) as [|d ds IH]; intros st L Ht Hds; simpl.
  { exists st. by rewrite (right_id_L [] (++)). }
  destruct (Hds d) as [du Hdu]; [by left|].
  unfold errorEdge at 1. rewrite Hdu, (proj2 (idx_Ok _ _ _) Hdu). simpl.
  pose proof (Hrange _ _ Hdu).
  match goal with |- context [addUnitEdge st ?ue] =>
    destruct (addUnitEdge_tracks n st L ue) as (st1 & -> & Ht1 & Hg1); [done..|] end.
  simpl. destruct (IH st1 _ Ht1) as (st2 & -> & Ht2 & Hg2).
  - intros d' Hd'. apply Hds. by right.
  - exists st2. rewrite <- assoc_L in Ht2 by apply _. by rewrite Hg2.
Qed.

Lemma addAllErrorEdges_tracks gs st L :
  tracks n st L ->
  (forall gm, gm ∈ gs -> (gm_UnitIdx gm < n)%nat /\
     forall d, d ∈ gm_ErrorOutputs gm -> has_unit d.1) ->
  exists st', foldM (addErrorEdges (g_nodeUnit g)) gs st = Ok st' /\
    tracks n st' (L ++ (gs ≫= fun gm =>
      omap (errorEdge (g_nodeUnit g) gm) (gm_ErrorOutputs gm))) /\
    us_groups st' = us_groups st.
Proof.
  revert st L. induction gs as [|gm gs IH]; intros st L Ht Hgs; simpl.
  { exists st. by rewrite (right_id_L [] (++)). }
  destruct (Hgs gm) as [Hu Hd]; [by left|].
  destruct (addErrorEdges_tracks gm st L Ht Hu Hd) as (st1 & -> & Ht1 & Hg1). simpl.
  destruct (IH st1 _ Ht1) as (st2 & -> & Ht2 & Hg2).
  - intros gm' Hgm'. apply Hgs. by right.
  - exists st2. rewrite <- assoc_L in Ht2 by apply _. by rewrite Hg2.
Qed.
End edges.

(** ** The edge lists as multisets *)

Lemma filter_lt_S (p : UnitEdge -> nat) n (L : list UnitEdge) :
  filter (fun e => p e < S n)%nat L
    ≡ₚ filter (fun e => p e < n)%nat L ++ filter (fun e => p e = n) L.
Proof.
  induction L as [|e L IH]; [done|]. rewrite !filter_cons.
  destruct (decide (p e < n)%nat) as [H1|H1]; destruct (decide (p e = n)) as [H2|H2];
    try lia; repeat case_decide; try lia; simpl.
  - by rewrite IH.
  - rewrite IH. by rewrite Permutation_middle.
  - by rewrite IH.
Qed.

Lemma bind_filter_seq (p : UnitEdge -> nat) n (L : list UnitEdge) :
  (seq 0 n ≫= fun u => filter (fun e => p e = u) L)
    ≡ₚ filter (fun e => p e < n)%nat L.
Proof.
  induction n as [|n IH].
  - simpl. induction L as [|e L IH]; [done|].
    rewrite filter_cons_False by lia. done.
  - rewrite seq_S, bind_app, IH, filter_lt_S. simpl.
    by rewrite (right_id_L [] (++)).
Qed.

Lemma filter_range (p : UnitEdge -> nat) n (L : list UnitEdge) :
  (forall e, e ∈ L -> (p e < n)%nat) -> filter (fun e => p e < n)%nat L = L.
Proof. intros H. apply list_filter_all, Forall_forall. done. Qed.

Lemma count_occ_filter (p : UnitEdge -> nat) L v :
  count_occ Nat.eq_dec (map p L) v = length (filter (fun e => p e = v) L).
Proof.
  induction L as [|e L IH]; [done|]. rewrite filter_cons. simpl.
  destruct (Nat.eq_dec (p e) v); case_decide; simpl; congruence.
Qed.

Lemma sortSlice_Permutation {A} (less : A -> A -> bool) l : sortSlice less l ≡ₚ l.
Proof. apply merge_sort_Permutation. Qed.

Lemma list_as_seq {A} (f : nat -> A) n l :
  length l = n -> (forall u, (u < n)%nat -> l !! u = Some (f u)) -> l = f <$> seq 0 n.
Proof.
  intros Hl Hf. apply list_eq. intros u. rewrite list_lookup_fmap.
  destruct (decide (u < n)%nat).
  - rewrite Hf, lookup_seq_lt by lia. done.
  - rewrite lookup_ge_None_2, lookup_seq_ge by lia. done.
Qed.

(** The unit edges depend on the groups only through the fields they read. *)
Lemma bind_errorEdge_core nodeUnit gs gs' :
  core <$> gs = core <$> gs' ->
  (gs ≫= fun gm => omap (errorEdge nodeUnit gm) (gm_ErrorOutputs gm))
  = (gs' ≫= fun gm => omap (errorEdge nodeUnit gm) (gm_ErrorOutputs gm)).
Proof.
  revert gs'. induction gs as [|gm gs IH]; intros [|gm' gs'] E; simplify_eq/=; [done|].
  f_equal; [|by apply IH]. unfold errorEdge.
  replace (gm_UnitIdx gm') with (gm_UnitIdx gm) by congruence.
  by replace (gm_ErrorOutputs gm') with (gm_ErrorOutputs gm) by congruence.
Qed.

(** ** The unit edges of a graph *)

(** The edge lists and counters of a finished unit layer. *)
Record unit_edges_ok (g : Graph) : Prop := {
  uo_out : length (g_unitOutEdges g) = UnitCount g /\
    forall u l, g_unitOutEdges g !! u = Some l ->
      l ≡ₚ filter (fun e => ue_SrcUnit e = u) (unitEdges g);
  uo_in : length (g_unitInEdges g) = UnitCount g /\
    forall u l, g_unitInEdges g !! u = Some l ->
      l ≡ₚ filter (fun e => ue_DstUnit e = u) (unitEdges g);
  uo_degree : length (g_unitInDegree g) = UnitCount g /\
    forall u d, g_unitInDegree g !! u = Some d ->
      d = Z.of_nat (length (filter (fun e => ue_DstUnit e = u) (unitEdges g)));
  uo_range : forall e, e ∈ unitEdges g ->
    (ue_SrcUnit e < UnitCount g)%nat /\ (ue_DstUnit e < UnitCount g)%nat
}.

Lemma sorted_lists_ok (p : UnitEdge -> nat) n (out : list (list UnitEdge)) L :
  length out = n ->
  (forall u, (u < n)%nat -> out !! u = Some (filter (fun e => p e = u) L)) ->
  length (map (sortSlice unitEdgeLess) out) = n /\
  forall u l, map (sortSlice unitEdgeLess) out !! u = Some l ->
    l ≡ₚ filter (fun e => p e = u) L.
Proof.
  intros Hl Ho. split; [by rewrite length_map|]. intros u l Hu.
  apply list_lookup_fmap_Some in Hu as (l' & -> & Hu).
  pose proof (lookup_lt_Some _ _ _ Hu) as Hlt. rewrite Hl in Hlt.
  rewrite Ho in Hu by done. simplify_eq. apply sortSlice_Permutation.
Qed.

Lemma unitEdges_range g e :
  (forall i u, g_nodeUnit g !! i = Some (Some u) -> (u < UnitCount g)%nat) ->
  (forall gm, gm ∈ g_groups g -> (gm_UnitIdx gm < UnitCount g)%nat) ->
  e ∈ unitEdges g ->
  (ue_SrcUnit e < UnitCount g)%nat /\ (ue_DstUnit e < UnitCount g)%nat.
Proof.
  intros Hr Hg. unfold unitEdges. rewrite elem_of_app. intros [He|He].
  - apply list_elem_of_omap in He as (e' & _ & He'). unfold crossEdge in He'.
    repeat case_match; simplify_eq/=; eauto.
  - apply list_elem_of_bind in He as (gm & He & Hgm).
    apply list_elem_of_omap in He as (d & _ & Hd). unfold errorEdge in Hd.
    repeat case_match; simplify_eq/=; eauto.
Qed.

(** What edge building leaves as it was. *)
Definition same_units (g g' : Graph) : Prop :=
  g_nodes g' = g_nodes g /\ g_outEdges g' = g_outEdges g /\
  g_units g' = g_units g /\ g_nodeUnit g' = g_nodeUnit g /\
  g_allowCycles g' = g_allowCycles g /\
  core <$> g_groups g' = core <$> g_groups g.

Lemma same_units_edges g g' : same_units g g' -> unitEdges g' = unitEdges g.
Proof.
  intros (Hn & Ho & Hu & Hnu & _ & Hg). unfold unitEdges. rewrite Ho, Hnu.
  f_equal. by apply bind_errorEdge_core.
Qed.

Lemma map_core (f : GroupMeta -> GroupMeta) gs :
  (forall gm, core (f gm) = core gm) -> core <$> map f gs = core <$> gs.
Proof. intros Hf. induction gs as [|gm gs IH]; [done|]. simpl. f_equal; [apply Hf|exact IH]. Qed.

Lemma elem_of_core gm (gs gs' : list GroupMeta) :
  core <$> gs = core <$> gs' -> gm ∈ gs -> exists gm', gm' ∈ gs' /\ core gm' = core gm.
Proof.
  intros E H. apply (list_elem_of_fmap_2 core) in H. rewrite E in H.
  apply list_elem_of_fmap in H as (gm' & ? & ?). eauto.
Qed.

Lemma buildUnitEdges_spec g :
  (forall i u, g_nodeUnit g !! i = Some (Some u) -> (u < UnitCount g)%nat) ->
  group_units_ok (g_units g) (length (g_groups g)) ->
  (forall e, e ∈ concat (g_outEdges g) ->
     has_unit g (e_SrcIdx e) /\ has_unit g (e_DstIdx e)) ->
  (forall gm, gm ∈ g_groups g -> (gm_UnitIdx gm < UnitCount g)%nat /\
     forall d, d ∈ gm_ErrorOutputs gm -> has_unit g d.1) ->
  exists g', buildUnitEdges g = Ok g' /\ same_units g g' /\ unit_edges_ok g'.
Proof.
  intros Hr Hok He Hg. unfold buildUnitEdges.
  set (gs := map _ (g_groups g)).
  assert (Ecore : core <$> gs = core <$> g_groups g) by (by apply map_core).
  destruct (addCrossEdges_tracks g Hr (concat (g_outEdges g))
    _ _ (tracks_init (UnitCount g) gs)) as (st1 & E1 & Ht1 & Ec1); [|done|].
  { simpl. by rewrite (core_length _ _ Ecore). }
  unfold UnitCount in E1. rewrite E1. simpl in Ec1 |- *.
  destruct (addAllErrorEdges_tracks g Hr (us_groups st1) st1 _ Ht1)
    as (st2 & -> & Ht2 & Hg2).
  { intros gm Hgm. destruct (elem_of_core gm (us_groups st1) (g_groups g))
      as (gm' & Hgm' & E); [by rewrite Ec1|done|].
    unfold core in E. injection E as E2 _ E3. rewrite <- E2, <- E3. by apply Hg. }
  simpl. eexists; split; [done|].
  match goal with |- same_units _ ?x /\ _ => set (g2 := x) end.
  assert (Hsame : same_units g g2).
  { unfold same_units; simpl. split_and!; try done.
    rewrite map_core by done. by rewrite Hg2, Ec1. }
  split; [exact Hsame|].
  assert (EL : omap (crossEdge (g_nodeUnit g)) (concat (g_outEdges g)) ++
    (us_groups st1 ≫= fun gm => omap (errorEdge (g_nodeUnit g) gm) (gm_ErrorOutputs gm))
    = unitEdges g).
  { unfold unitEdges. f_equal. apply bind_errorEdge_core. by rewrite Ec1. }
  simpl in Ht2. rewrite EL in Ht2. destruct Ht2 as [[Hlo Ho] [Hli Hi] [Hld Hdeg]].
  split; rewrite (same_units_edges _ _ Hsame); simpl.
  - by apply sorted_lists_ok.
  - by apply sorted_lists_ok.
  - split; [done|]. intros u d Hd. pose proof (lookup_lt_Some _ _ _ Hd) as Hlt.
    rewrite Hdeg in Hd by (rewrite <- Hld; exact Hlt). by simplify_eq.
  - intros e. apply (unitEdges_range g); [done|]. intros gm Hgm. by apply Hg.
Qed.

(** ** The cycle check on the unit layer *)

Section unit_cycle.
Context (g : Graph) (Hok : unit_edges_ok g).
Let outs := map (map ue_DstUnit) (g_unitOutEdges g).

Lemma outs_edge u v : edge outs u v <-> unitEdge g u v.
Proof.
  destruct Hok as [[Hlo Ho] _ _ Hr]. unfold edge, unitEdge, outs. split.
  - intros (l & Hl & Hv). apply list_lookup_fmap_Some in Hl as (l' & -> & Hl).
    apply list_elem_of_fmap in Hv as (ue & -> & Hue).
    rewrite (Ho _ _ Hl) in Hue. apply list_elem_of_filter in Hue as [? ?]. eauto.
  - intros (ue & Hue & <- & <-). destruct (Hr _ Hue) as [Hs _].
    destruct (lookup_lt_is_Some_2 (g_unitOutEdges g) (ue_SrcUnit ue)) as [l Hl];
      [lia|].
    exists (map ue_DstUnit l). split.
    + by rewrite list_lookup_fmap, Hl.
    + apply list_elem_of_fmap. exists ue. split; [done|].
      rewrite (Ho _ _ Hl). by apply list_elem_of_filter.
Qed.

Lemma outs_acyclic : acyclic outs <-> forall u, ~ tc (unitEdge g) u u.
Proof.
  unfold acyclic. split; intros H u Hu; apply (H u);
    (eapply (tc_congruence id); [|exact Hu]); intros x y; apply outs_edge.
Qed.

Lemma concat_outs : concat outs ≡ₚ map ue_DstUnit (unitEdges g).
Proof.
  destruct Hok as [[Hlo Ho] _ _ Hr]. unfold outs.
  rewrite <- (filter_range ue_SrcUnit (UnitCount g) (unitEdges g)) by naive_solver.
  rewrite <- bind_filter_seq, <- concat_map. apply fmap_Permutation.
  rewrite <- Hlo. clear Hlo Hr. revert Ho.
  generalize (unitEdges g) as L. intros L.
  assert (Hgen : forall k ls, (forall u l, ls !! u = Some l ->
      l ≡ₚ filter (fun e => ue_SrcUnit e = k + u)%nat L) ->
    concat ls ≡ₚ seq k (length ls) ≫= fun u => filter (fun e => ue_SrcUnit e = u) L).
  { intros k ls. revert k. induction ls as [|l ls IH]; intros k Hls; simpl; [done|].
    rewrite (Hls 0%nat l eq_refl), Nat.add_0_r, (IH (S k)); [done|].
    intros u l' Hu. rewrite Nat.add_succ_comm. by apply Hls. }
  intros Ho. by apply Hgen.
Qed.

Lemma outs_in_range : in_range outs.
Proof.
  intros u v Huv%outs_edge. destruct Huv as (ue & Hue & _ & <-).
  unfold outs. rewrite length_map. destruct Hok as [[-> _] _ _ Hr]. by apply Hr.
Qed.

Lemma outs_counts : counts outs (g_unitInDegree g) (concat outs).
Proof.
  assert (Hl : length outs = UnitCount g).
  { unfold outs. rewrite length_map. by destruct Hok as [[? _] _ _ _]. }
  destruct (uo_degree g Hok) as [Hld Hd]. split; [by rewrite Hl|].
  rewrite Hl. intros v Hv.
  destruct (lookup_lt_is_Some_2 (g_unitInDegree g) v) as [d Hdv]; [lia|].
  rewrite Hdv. f_equal. rewrite (Hd _ _ Hdv). f_equal.
  rewrite <- count_occ_filter. symmetry. apply Permutation_count_occ, concat_outs.
Qed.

Lemma detectUnitCycle_spec :
  detectUnitCycle g = Ok tt /\ (forall u, ~ tc (unitEdge g) u u) \/
  detectUnitCycle g = Err "group boundary edges form a cycle across units" /\
    ~ (forall u, ~ tc (unitEdge g) u u).
Proof.
  destruct (kahn_complete outs (g_unitInDegree g) outs_in_range outs_counts)
    as (visited & E & Hv).
  assert (Hl : length outs = length (g_units g)).
  { unfold outs. rewrite length_map. by destruct Hok as [[? _] _ _ _]. }
  rewrite outs_acyclic, Hl in Hv. unfold detectUnitCycle. rewrite Hl in E.
  fold outs. rewrite E. simpl. case_decide as Hd; [right|left]; split; try done.
  - by rewrite <- Hv.
  - apply Hv. destruct (decide (visited = length (g_units g))); [done|tauto].
Qed.
End unit_cycle.

(** ** Assigning nodes to units *)

#[local] Arguments unitOfNode : simpl never.

Section passes.
Context (g : Graph).

(** The state after the first [k] nodes were visited. *)
Record pass1_ok (k : nat) (nodeUnit : list (option nat)) (units : list UnitMeta)
    : Prop := {
  p1_len : length nodeUnit = length (g_nodes g);
  p1_units : forall u um, units !! u = Some um -> exists i nd,
    g_nodes g !! i = Some nd /\ plain nd /\ nodeUnit !! i = Some (Some u) /\
    um = mkUnitMeta UnitNode (nm_Name nd) (Some i) None;
  p1_range : forall i u, nodeUnit !! i = Some (Some u) -> (u < length units)%nat;
  p1_single : forall i u um, nodeUnit !! i = Some (Some u) -> units !! u = Some um ->
    um_NodeIdx um = Some i;
  p1_plain : forall i nd, (i < k)%nat -> g_nodes g !! i = Some nd -> plain nd ->
    exists u, nodeUnit !! i = Some (Some u);
  p1_none : forall i nd, g_nodes g !! i = Some nd -> (k <= i)%nat \/ ~ plain nd ->
    nodeUnit !! i = Some None;
  p1_count : length units = length (filter plain (take k (g_nodes g)))
}.

Lemma unitOfNode_skip nodeUnit units k nd :
  ~ plain nd -> unitOfNode (nodeUnit, units) (k, nd) = (nodeUnit, units).
Proof. intros H. unfold unitOfNode, plain in *. repeat case_decide; naive_solver. Qed.

Lemma unitOfNode_plain nodeUnit units k nd :
  plain nd -> unitOfNode (nodeUnit, units) (k, nd)
  = (<[k := Some (length units)]> nodeUnit,
     units ++ [mkUnitMeta UnitNode (nm_Name nd) (Some k) None]).
Proof. intros [? ?]. unfold unitOfNode. repeat case_decide; naive_solver. Qed.

Lemma pass1_step k nodeUnit units nd :
  pass1_ok k nodeUnit units -> g_nodes g !! k = Some nd ->
  let '(nu, us) := unitOfNode (nodeUnit, units) (k, nd) in pass1_ok (S k) nu us.
Proof.
  intros [Hl Hu Hr Hsg Hp Hn Hct] Hk.
  assert (Htake : filter plain (take (S k) (g_nodes g))
    = filter plain (take k (g_nodes g)) ++ filter plain [nd])
    by (by erewrite take_S_r, filter_app).
  destruct (decide (plain nd)) as [Hpl|Hpl].
  2: { rewrite unitOfNode_skip by done. split; [done..| | |].
       - intros i nd' Hi. destruct (decide (i = k)) as [->|]; [naive_solver|].
         apply Hp. lia.
       - intros i nd' Hi [?|?]; (eapply Hn; [done|]); [left; lia|by right].
       - by rewrite Htake, filter_cons_False, filter_nil, (right_id_L [] (++)). }
  rewrite unitOfNode_plain by done.
  assert (Hlt : (k < length nodeUnit)%nat)
    by (rewrite Hl; by eapply lookup_lt_Some).
  assert (Hnone : nodeUnit !! k = Some None) by (eapply Hn; [done|by left]).
  split.
  - by rewrite length_insert.
  - intros u um Hum. apply lookup_snoc_Some in Hum as [[Hlu Hum]|[-> <-]].
    + destruct (Hu _ _ Hum) as (i & nd' & ? & ? & ? & ?). exists i, nd'.
      rewrite list_lookup_insert_ne by naive_solver. done.
    + exists k, nd. by rewrite list_lookup_insert_eq.
  - intros i u. rewrite length_app. simpl.
    destruct (decide (i = k)) as [->|].
    + rewrite list_lookup_insert_eq by done. intros; simplify_eq. lia.
    + rewrite list_lookup_insert_ne by done. intros ?%Hr. lia.
  - intros i u um Hi Hum. destruct (decide (i = k)) as [->|].
    + rewrite list_lookup_insert_eq in Hi by done. simplify_eq.
      rewrite list_lookup_middle in Hum by done. by simplify_eq.
    + rewrite list_lookup_insert_ne in Hi by done. eapply Hsg; [done|].
      rewrite lookup_app_l in Hum; [done|by eapply Hr].
  - intros i nd' Hi Hnd Hpl'. destruct (decide (i = k)) as [->|].
    + rewrite list_lookup_insert_eq by done. eauto.
    + rewrite list_lookup_insert_ne by done. apply (Hp _ nd'); [lia|done..].
  - intros i nd' Hi Hc. destruct (decide (i = k)) as [->|].
    + exfalso. simplify_eq. destruct Hc; [lia|done].
    + rewrite list_lookup_insert_ne by done. eapply Hn; [done|].
      destruct Hc; [left; lia|by right].
  - rewrite Htake, filter_cons_True, filter_nil, !length_app by done. by rewrite Hct.
Qed.

Lemma pass1_fold sfx k nodeUnit units :
  pass1_ok k nodeUnit units -> drop k (g_nodes g) = sfx ->
  let '(nu, us) := foldl unitOfNode (nodeUnit, units)
                     (zip (seq k (length sfx)) sfx) in
  pass1_ok (k + length sfx) nu us.
Proof.
  revert k nodeUnit units. induction sfx as [|nd sfx IH];
    intros k nodeUnit units Hok Hd; simpl; [by rewrite Nat.add_0_r|].
  assert (Hk : g_nodes g !! k = Some nd).
  { rewrite <- (Nat.add_0_r k), <- lookup_drop, Hd. done. }
  pose proof (pass1_step k nodeUnit units nd Hok Hk) as Hs.
  destruct (unitOfNode (nodeUnit, units) (k, nd)) as [nu us].
  rewrite <- Nat.add_succ_comm. apply IH; [done|].
  apply (f_equal (drop 1)) in Hd. by rewrite drop_drop, Nat.add_1_r in Hd.
Qed.

Lemma pass1_init :
  pass1_ok 0 (replicate (length (g_nodes g)) None) [].
Proof.
  split.
  - apply length_replicate.
  - done.
  - intros i u Hi. apply lookup_replicate in Hi as [? _]. done.
  - done.
  - lia.
  - intros i nd Hi _. apply lookup_replicate. split; [done|].
    by eapply lookup_lt_Some.
  - done.
Qed.
End passes.

Lemma assign_members (u : nat) (ms : list nat) (nodeUnit : list (option nat)) :
  (forall m, m ∈ ms -> (m < length nodeUnit)%nat) ->
  exists nu, foldM (fun nu m => idx_alter (fun _ => Some u) nu m) ms nodeUnit = Ok nu /\
    length nu = length nodeUnit /\
    forall i, nu !! i = if decide (i ∈ ms) then Some (Some u) else nodeUnit !! i.
Proof.
  revert nodeUnit. induction ms as [|m ms IH]; intros nodeUnit Hms; simpl.
  { exists nodeUnit. by split_and!. }
  assert (Hm : (m < length nodeUnit)%nat) by (apply Hms; by left).
  rewrite idx_alter_Ok by done. simpl.
  destruct (IH (alter (fun _ => Some u) m nodeUnit)) as (nu & -> & Hl & Hnu).
  - intros m' Hm'. rewrite length_alter. apply Hms. by right.
  - exists nu. split; [done|]. rewrite length_alter in Hl. split; [done|].
    intros i. rewrite Hnu. destruct (decide (i ∈ ms)).
    + rewrite decide_True by (by right). done.
    + destruct (decide (i = m)) as [->|].
      * rewrite list_lookup_alter_eq, decide_True by (by left).
        destruct (lookup_lt_is_Some_2 _ _ Hm) as [? ->]. done.
      * rewrite list_lookup_alter_ne, decide_False by set_solver. done.
Qed.

Section pass2.
Context (g : Graph) (Hwf : wf_nodes g).
Context (nu1 : list (option nat)) (us1 : list UnitMeta).
Context (H1 : pass1_ok g (length (g_nodes g)) nu1 us1).

Let n1 := length us1.

(** The state after the first [k] groups were visited. *)
Record pass2_ok (k : nat) (nu : list (option nat)) (us : list UnitMeta)
    (gs : list GroupMeta) : Prop := {
  p2_len : length nu = length (g_nodes g);
  p2_us : length us = (n1 + k)%nat;
  p2_us1 : forall u, (u < n1)%nat -> us !! u = us1 !! u;
  p2_us2 : forall gi gm, (gi < k)%nat -> g_groups g !! gi = Some gm ->
    us !! (n1 + gi)%nat = Some (mkUnitMeta UnitGroup (gm_Name gm) None (Some gi));
  p2_gs : gs = imap (fun gi gm =>
    if decide (gi < k)%nat then gm <| gm_UnitIdx := (n1 + gi)%nat |> else gm)
    (g_groups g);
  p2_nu : forall i nd, g_nodes g !! i = Some nd ->
    nu !! i = match nm_GroupIdx nd with
              | Some gi => if decide (gi < k)%nat then Some (Some (n1 + gi)%nat)
                           else nu1 !! i
              | None => nu1 !! i
              end
}.

Lemma pass2_step k nu us gs gm :
  pass2_ok k nu us gs -> g_groups g !! k = Some gm ->
  exists nu' us' gs', unitOfGroup (nu, us, gs) (k, gm) = Ok (nu', us', gs') /\
    pass2_ok (S k) nu' us' gs'.
Proof.
  intros [Hl Hus Hu1 Hu2 Hgs Hnu] Hk. unfold unitOfGroup.
  assert (Hlt : (k < length gs)%nat)
    by (rewrite Hgs, length_imap; by eapply lookup_lt_Some).
  rewrite idx_alter_Ok by done. cbn [mbind res_bind].
  destruct (assign_members (length us) (gm_Members gm) nu) as (nu' & -> & Hl' & Hnu').
  { intros m Hm. destruct (wf_members g Hwf _ _ _ Hk Hm) as (nd & Hnd & _).
    rewrite Hl. by eapply lookup_lt_Some. }
  cbn [mbind res_bind]. do 3 eexists; split; [done|]. split.
  - by rewrite Hl'.
  - rewrite length_app. simpl. lia.
  - intros u Hu. rewrite lookup_app_l by lia. by apply Hu1.
  - intros gi gm' Hgi Hgm'. destruct (decide (gi = k)) as [->|].
    + simplify_eq. by rewrite lookup_app_r, Hus, Nat.sub_diag by lia.
    + rewrite lookup_app_l by lia. apply Hu2; [lia|done].
  - subst gs. apply list_eq. intros j. rewrite list_lookup_imap.
    destruct (decide (j = k)) as [->|Hne].
    + rewrite list_lookup_alter_eq, list_lookup_imap, Hk. simpl.
      rewrite decide_False, decide_True by lia. by rewrite Hus.
    + rewrite list_lookup_alter_ne, list_lookup_imap by done.
      destruct (g_groups g !! j); simpl; [|done]. f_equal.
      repeat case_decide; by (lia || done).
  - intros i nd Hnd. rewrite Hnu'. destruct (decide (i ∈ gm_Members gm)) as [Hm|Hm].
    + destruct (wf_members g Hwf _ _ _ Hk Hm) as (nd' & ? & Hgi). simplify_eq.
      rewrite Hgi, decide_True by lia. by rewrite Hus.
    + rewrite (Hnu i nd Hnd). destruct (nm_GroupIdx nd) as [gi|] eqn:Hgi; [|done].
      destruct (decide (gi = k)) as [->|].
      * destruct (wf_grouped g Hwf _ _ _ Hnd Hgi) as (gm' & ? & ?). by simplify_eq.
      * repeat case_decide; by (lia || done).
Qed.

Lemma pass2_fold sfx k nu us gs :
  pass2_ok k nu us gs -> drop k (g_groups g) = sfx ->
  exists nu' us' gs',
    foldM unitOfGroup (zip (seq k (length sfx)) sfx) (nu, us, gs) = Ok (nu', us', gs') /\
    pass2_ok (k + length sfx) nu' us' gs'.
Proof.
  revert k nu us gs. induction sfx as [|gm sfx IH]; intros k nu us gs Hok Hd.
  { exists nu, us, gs. by rewrite Nat.add_0_r. }
  assert (Hk : g_groups g !! k = Some gm).
  { rewrite <- (Nat.add_0_r k), <- lookup_drop, Hd. done. }
  destruct (pass2_step k nu us gs gm Hok Hk) as (nu1' & us1' & gs1' & E & Hok').
  destruct (IH (S k) nu1' us1' gs1' Hok') as (nu2 & us2 & gs2 & E2 & Hok2).
  { apply (f_equal (drop 1)) in Hd. by rewrite drop_drop, Nat.add_1_r in Hd. }
  exists nu2, us2, gs2. cbn [length seq zip zip_with foldM]. rewrite E.
  split; [exact E2|]. simpl. by rewrite <- Nat.add_succ_comm.
Qed.

Lemma pass2_init : pass2_ok 0 nu1 us1 (g_groups g).
Proof.
  split.
  - by apply H1.
  - unfold n1; lia.
  - done.
  - lia.
  - apply list_eq. intros j. rewrite list_lookup_imap. by destruct (g_groups g !! j).
  - intros i nd _. by destruct (nm_GroupIdx nd).
Qed.
End pass2.

(** ** The unit layer as a whole *)

Section units_ok.
Context (g : Graph) (Hwf : wf_nodes g).
Context (nu1 nu : list (option nat)) (us1 us : list UnitMeta) (gs : list GroupMeta).
Context (H1 : pass1_ok g (length (g_nodes g)) nu1 us1).
Context (H2 : pass2_ok g nu1 us1 (length (g_groups g)) nu us gs).

Definition with_units : Graph :=
  g <| g_nodeUnit := nu |> <| g_units := us |> <| g_groups := gs |>.

Lemma group_lookup gi gm : gs !! gi = Some gm <-> exists gm0,
  g_groups g !! gi = Some gm0 /\ gm = gm0 <| gm_UnitIdx := (length us1 + gi)%nat |>.
Proof.
  rewrite (p2_gs _ _ _ _ _ _ _ H2), list_lookup_imap.
  destruct (g_groups g !! gi) as [gm0|] eqn:E; simpl; [|naive_solver].
  pose proof (lookup_lt_Some _ _ _ E). rewrite decide_True by done. naive_solver.
Qed.

(** The unit a node was assigned to. *)
Lemma node_unit i nd : g_nodes g !! i = Some nd ->
  nu !! i = match nm_GroupIdx nd with
            | Some gi => Some (Some (length us1 + gi)%nat)
            | None => nu1 !! i
            end.
Proof.
  intros Hi. rewrite (p2_nu _ _ _ _ _ _ _ H2 i nd Hi).
  destruct (nm_GroupIdx nd) as [gi|] eqn:E; [|done].
  destruct (wf_grouped g Hwf _ _ _ Hi E) as (gm & Hgm & _).
  apply lookup_lt_Some in Hgm. by rewrite decide_True.
Qed.

Lemma node_unit_inv i u : nu !! i = Some (Some u) ->
  exists nd, g_nodes g !! i = Some nd /\
    ((u < length us1)%nat /\ plain nd /\ nu1 !! i = Some (Some u) \/
     exists gi, u = (length us1 + gi)%nat /\ nm_GroupIdx nd = Some gi /\
       (gi < length (g_groups g))%nat).
Proof.
  intros Hu. destruct (lookup_lt_is_Some_2 (g_nodes g) i) as [nd Hnd].
  { rewrite <- (p2_len _ _ _ _ _ _ _ H2). by eapply lookup_lt_Some. }
  exists nd; split; [done|]. rewrite (node_unit i nd Hnd) in Hu.
  destruct (nm_GroupIdx nd) as [gi|] eqn:E.
  - right. exists gi. simplify_eq. split_and!; [done..|].
    destruct (wf_grouped g Hwf _ _ _ Hnd E) as (gm & Hgm & _).
    by eapply lookup_lt_Some.
  - left. split_and!; [by eapply p1_range| |done].
    destruct (decide (plain nd)); [done|].
    pose proof (p1_none _ _ _ _ H1 i nd Hnd (or_intror n)). congruence.
Qed.

Lemma unit_inv u um : us !! u = Some um ->
  us1 !! u = Some um /\ (u < length us1)%nat \/
  exists gi gm, u = (length us1 + gi)%nat /\ g_groups g !! gi = Some gm /\
    um = mkUnitMeta UnitGroup (gm_Name gm) None (Some gi).
Proof.
  intros Hu. pose proof (lookup_lt_Some _ _ _ Hu) as Hlt.
  rewrite (p2_us _ _ _ _ _ _ _ H2) in Hlt.
  destruct (decide (u < length us1)%nat).
  - left. split; [|done]. by rewrite <- (p2_us1 _ _ _ _ _ _ _ H2).
  - right. destruct (lookup_lt_is_Some_2 (g_groups g) (u - length us1)) as [gm Hgm];
      [lia|].
    exists (u - length us1)%nat, gm. split_and!; [lia|done|].
    pose proof (p2_us2 _ _ _ _ _ _ _ H2 (u - length us1)%nat gm ltac:(lia) Hgm) as Hu'.
    replace (length us1 + (u - length us1))%nat with u in Hu' by lia. congruence.
Qed.

Lemma with_units_partition : unit_partition with_units.
Proof.
  split; unfold with_units, UnitCount, schedulable; simpl.
  - by apply H2.
  - intros i u Hu. rewrite (p2_us _ _ _ _ _ _ _ H2).
    apply node_unit_inv in Hu as (nd & _ & [(? & _ & _)|(gi & -> & _ & ?)]); lia.
  - intros i. split.
    + intros (nd & Hnd & Hs). rewrite (node_unit i nd Hnd).
      destruct (nm_GroupIdx nd) as [gi|] eqn:E; [eauto|].
      destruct Hs as [Hp|?]; [|done]. eapply (p1_plain _ _ _ _ H1); [|done..].
      by eapply lookup_lt_Some.
    + intros (u & Hu). apply node_unit_inv in Hu as (nd & Hnd & Hc).
      exists nd; split; [done|]. naive_solver.
  - intros u um i Hu Hi. apply unit_inv in Hu as [[Hu Hlt]|(gi & gm & _ & _ & ->)];
      [|done].
    destruct (p1_units _ _ _ _ H1 _ _ Hu) as (j & nd & Hnd & [Hp ?] & Hnu & ->).
    simplify_eq/=. split; [done|]. by rewrite (node_unit i nd Hnd), Hp.
  - intros u um Hu Hk. apply unit_inv in Hu as [[Hu _]|(gi & gm & -> & Hgm & ->)].
    { destruct (p1_units _ _ _ _ H1 _ _ Hu) as (? & ? & _ & _ & _ & ->). done. }
    exists gi, (gm <| gm_UnitIdx := (length us1 + gi)%nat |>).
    split_and!; [done|apply group_lookup; eauto|done|].
    simpl. intros i. split.
    + intros Hm. destruct (wf_members g Hwf _ _ _ Hgm Hm) as (nd & Hnd & E).
      by rewrite (node_unit i nd Hnd), E.
    + intros Hnu. apply node_unit_inv in Hnu
        as (nd & Hnd & [(? & _ & _)|(gi' & ? & E & _)]); [lia|].
      destruct (wf_grouped g Hwf _ _ _ Hnd E) as (gm' & ? & ?).
      assert (gi' = gi) as -> by lia. by simplify_eq.
  - intros u um Hu Hk. apply unit_inv in Hu as [[Hu _]|(gi & gm & -> & _ & ->)]; [|done].
    destruct (p1_units _ _ _ _ H1 _ _ Hu) as (i & ? & _ & _ & _ & ->). by exists i.
  - intros gi gm Hgm. apply group_lookup in Hgm as (gm0 & Hgm0 & ->). simpl.
    apply lookup_lt_Some in Hgm0. rewrite (p2_us _ _ _ _ _ _ _ H2). lia.
  - intros i u um Hi Hu Hk. apply unit_inv in Hu as [[Hu Hlt]|(gi & gm & -> & _ & ->)]; [|done].
    apply node_unit_inv in Hi as (nd & _ & [(_ & _ & Hi)|(gi & -> & _)]); [|lia].
    by eapply (p1_single _ _ _ _ H1).
Qed.

Lemma with_units_edges :
  exists g', buildUnitEdges with_units = Ok g' /\ same_units with_units g' /\
    unit_edges_ok g'.
Proof.
  pose proof with_units_partition as Hp. apply buildUnitEdges_spec.
  - by apply Hp.
  - intros u um Hu Hk. destruct (up_group _ Hp u um Hu Hk) as (gi & gm & E & Hgm & _).
    exists gi; split; [done|]. by eapply lookup_lt_Some.
  - intros e He. destruct (wf_edges g Hwf e He) as [Hs Hd].
    split; by apply (up_sched _ Hp).
  - intros gm Hgm. apply list_elem_of_lookup in Hgm as [gi Hgi].
    split; [by eapply up_groups|]. intros d Hd. apply (up_sched _ Hp).
    apply group_lookup in Hgi as (gm0 & Hgm0 & ->).
    by eapply (wf_error_outputs g Hwf).
Qed.
End units_ok.

Lemma same_units_partition g g' :
  same_units g g' -> unit_partition g -> unit_partition g'.
Proof.
  intros (Hn & _ & Hu & Hnu & _ & Hg) [H1 H2 H3 H4 H5 H6 H7 H8].
  assert (Hgl : forall gi gm', g_groups g' !! gi = Some gm' -> exists gm,
    g_groups g !! gi = Some gm /\ core gm = core gm').
  { intros gi gm' E. apply (f_equal (fun l => l !! gi)) in Hg.
    rewrite !list_lookup_fmap, E in Hg. simpl in Hg.
    destruct (g_groups g !! gi) as [gm|] eqn:Hgm; [|done]. simpl in Hg.
    exists gm. split; [done|]. congruence. }
  split; unfold UnitCount, schedulable in *; rewrite ?Hn, ?Hnu, ?Hu; try done.
  - intros u um Hum Hk. destruct (H5 u um Hum Hk) as (gi & gm & ? & Hgm & E & Hm).
    pose proof (f_equal (fun l => l !! gi) Hg) as Hg'. cbn beta in Hg'.
    rewrite !list_lookup_fmap, Hgm in Hg'. simpl in Hg'.
    destruct (g_groups g' !! gi) as [gm'|] eqn:Hgm'; [|done]. simpl in Hg'.
    injection Hg' as E1 E2 _. exists gi, gm'.
    split_and!; [done|done|congruence|]. by rewrite E2.
  - intros gi gm' Hgm'. destruct (Hgl _ _ Hgm') as (gm & Hgm & E).
    injection E as <- _ _. by eapply H7.
Qed.

(** [buildUnits] on an accepted node graph, in one statement. *)
Lemma buildUnits_spec g :
  wf_nodes g ->
  exists g', g_nodes g' = g_nodes g /\ g_outEdges g' = g_outEdges g /\
    unit_partition g' /\ unit_edges_ok g' /\
    UnitCount g' = (length (filter plain (g_nodes g)) + length (g_groups g))%nat /\
    length (g_groups g') = length (g_groups g) /\
    ((g_allowCycles g = true \/ (forall u, ~ tc (unitEdge g') u u)) /\
       buildUnits g = Ok g' \/
     g_allowCycles g = false /\ ~ (forall u, ~ tc (unitEdge g') u u) /\
       buildUnits g = Err "group boundary edges form a cycle across units").
Proof.
  intros Hwf. unfold buildUnits.
  pose proof (pass1_fold g (g_nodes g) 0 _ _ (pass1_init g) eq_refl) as H1.
  simpl Nat.add in H1. destruct (foldl unitOfNode _ _) as [nu1 us1].
  destruct (pass2_fold g Hwf nu1 us1 (g_groups g) 0 _ _ _
    (pass2_init g nu1 us1 H1) eq_refl) as (nu & us & gs & -> & H2).
  cbn [mbind res_bind]. simpl Nat.add in H2.
  destruct (with_units_edges g Hwf nu1 nu us1 us gs H1 H2) as (g' & E & Hsame & Hok).
  fold (with_units g nu us gs). rewrite E. cbn [mbind res_bind].
  pose proof (same_units_partition _ _ Hsame
    (with_units_partition g Hwf nu1 nu us1 us gs H1 H2)) as Hp.
  destruct Hsame as (Hn & Ho & Hu & _ & Hc & Hgr).
  exists g'. split_and!; try done.
  - unfold UnitCount. rewrite Hu. simpl. rewrite (p2_us _ _ _ _ _ _ _ H2).
    by rewrite (p1_count _ _ _ _ H1), take_ge by lia.
  - apply (f_equal length) in Hgr. rewrite !length_fmap in Hgr. rewrite Hgr. cbn.
    by rewrite (p2_gs _ _ _ _ _ _ _ H2), length_imap.
  - rewrite Hc. simpl. destruct (g_allowCycles g); [by left; split; [left|]|].
    destruct (detectUnitCycle_spec g' Hok) as [[-> Ha]|[-> Ha]]; simpl.
    + left. split; [by right|done].
    + by right.
Qed.

(** ** Main results *)

#[export] Instance schedulable_dec g i : Decision (schedulable g i).
Proof.
  refine (match g_nodes g !! i as o return g_nodes g !! i = o -> _ with
          | Some nd => fun E => cast_if (decide (plain nd \/ nm_GroupIdx nd <> None))
          | None => fun E => right _
          end eq_refl); unfold schedulable; abstract naive_solver.
Defined.

Lemma filter_crossEdge g v es :
  (forall e, e ∈ es -> has_unit g (e_SrcIdx e) /\ has_unit g (e_DstIdx e)) ->
  length (filter (fun ue => ue_DstUnit ue = v) (omap (crossEdge (g_nodeUnit g)) es))
  = length (filter (fun e => g_nodeUnit g !! e_DstIdx e = Some (Some v) /\
                             g_nodeUnit g !! e_SrcIdx e <> Some (Some v)) es).
Proof.
  induction es as [|e es IH]; intros Hes; [done|].
  destruct (Hes e) as [[su Hsu] [du Hdu]]; [by left|].
  specialize (IH (fun e' H => Hes e' (list_elem_of_further _ _ _ H))).
  rewrite filter_cons. simpl omap. unfold crossEdge at 1. rewrite Hsu, Hdu.
  destruct (decide (su = du)) as [->|Hne]; simpl.
  - rewrite decide_False by naive_solver. exact IH.
  - rewrite filter_cons. simpl. destruct (decide (du = v)) as [->|Hdv].
    + rewrite decide_True by (split; congruence). simpl. by rewrite <- IH.
    + rewrite decide_False by (intros [? _]; congruence). exact IH.
Qed.

Lemma filter_errorEdges g v gs :
  length (filter (fun ue => ue_DstUnit ue = v)
    (gs ≫= fun gm => omap (errorEdge (g_nodeUnit g) gm) (gm_ErrorOutputs gm)))
  = sum_list (map (fun gm => length (filter (fun d : nat * string =>
      g_nodeUnit g !! d.1 = Some (Some v)) (gm_ErrorOutputs gm))) gs).
Proof.
  induction gs as [|gm gs IH]; [done|]. csimpl. rewrite filter_app, length_app, IH.
  f_equal. induction (gm_ErrorOutputs gm) as [|d ds IHd]; [done|].
  rewrite filter_cons. simpl omap. unfold errorEdge at 1.
  destruct (g_nodeUnit g !! d.1) as [[du|]|] eqn:E.
  - rewrite filter_cons. simpl. destruct (decide (du = v)) as [->|].
    + rewrite decide_True by done. simpl. f_equal. exact IHd.
    + rewrite decide_False by congruence. exact IHd.
  - rewrite decide_False by done. exact IHd.
  - rewrite decide_False by done. exact IHd.
Qed.

(** C36. On an accepted node graph [buildUnits] neither panics nor runs out of
    rounds: it returns the unit layer when cycles are allowed or the units form
    a DAG, and the cycle error exactly when they do not. *)
Theorem buildUnits_accepts_dag g :
  wf_nodes g ->
  exists g', g_nodes g' = g_nodes g /\ unit_partition g' /\ unit_edges_ok g' /\
    ((g_allowCycles g = true \/ (forall u, ~ tc (unitEdge g') u u)) ->
       buildUnits g = Ok g') /\
    (g_allowCycles g = false -> ~ (forall u, ~ tc (unitEdge g') u u) ->
       buildUnits g = Err "group boundary edges form a cycle across units").
Proof.
  intros Hwf. destruct (buildUnits_spec g Hwf)
    as (g' & Hn & Ho & Hp & Hok & Hc & _ & Hcase).
  exists g'. split_and!; [done..| |].
  - intros Ha. destruct Hcase as [[_ ?]|(? & Hcyc & _)]; [done|].
    destruct Ha; [congruence|done].
  - intros Ha Hcyc. destruct Hcase as [[[?|?] _]|(_ & _ & ?)]; [congruence|done|done].
Qed.

(** In the unit layer [buildUnits] returns, every schedulable node belongs
    to exactly one unit, the unit count is the number of plain nodes plus the
    number of groups, and the in-degree counter of a unit is the number of node
    edges that enter it from another unit plus the number of group error
    outputs that target it. *)
Theorem buildUnits_in_degree g g' v d :
  wf_nodes g -> buildUnits g = Ok g' -> g_unitInDegree g' !! v = Some d ->
  unit_partition g' /\
  UnitCount g' = (length (filter plain (g_nodes g)) + length (g_groups g))%nat /\
  d = Z.of_nat
    (length (filter (fun e => g_nodeUnit g' !! e_DstIdx e = Some (Some v) /\
                              g_nodeUnit g' !! e_SrcIdx e <> Some (Some v))
       (concat (g_outEdges g)))
     + sum_list (map (fun gm => length (filter (fun d : nat * string =>
         g_nodeUnit g' !! d.1 = Some (Some v)) (gm_ErrorOutputs gm))) (g_groups g'))).
Proof.
  intros Hwf E Hd. destruct (buildUnits_spec g Hwf)
    as (g2 & Hn & Ho & Hp & Hok & Hc & _ & Hcase).
  assert (g2 = g') as -> by (destruct Hcase as [[_ ?]|(_ & _ & ?)]; congruence).
  split_and!; [done..|]. destruct (uo_degree _ Hok) as [_ Hdeg]. rewrite (Hdeg _ _ Hd).
  f_equal. unfold unitEdges. rewrite filter_app, length_app, filter_errorEdges.
  f_equal. rewrite filter_crossEdge; [by rewrite Ho|]. rewrite Ho. intros e He.
  destruct (wf_edges g Hwf e He) as [(s & Hs & ?) (t & Ht & ?)].
  split; apply (up_sched _ Hp); eexists; (split; [by rewrite Hn|done]).
Qed.

Lemma exampleGraph_wf : wf_nodes exampleGraph.
Proof.
  split.
  - intros e He. revert e He. apply Forall_forall.
    by apply (bool_decide_unpack _).
  - intros i nd gi Hi Hg. destruct i as [|[|[|[|[|i]]]]]; simplify_eq/=;
      (eexists; split; [done|set_solver]).
  - intros gi gm i Hgi Hi. destruct gi as [|gi]; [|done]. simplify_eq/=.
    apply elem_of_cons in Hi as [->|Hi]; [by eexists|].
    apply list_elem_of_singleton in Hi as ->. by eexists.
  - intros gi gm d Hgi Hd. destruct gi as [|gi]; [|done]. simplify_eq/=.
    apply list_elem_of_singleton in Hd as ->. by apply (bool_decide_unpack _).
Qed.

Lemma buildUnits_accepts_dag_witness :
  exists g', g_nodes g' = g_nodes exampleGraph /\ unit_partition g' /\ unit_edges_ok g' /\
    ((g_allowCycles exampleGraph = true \/ (forall u, ~ tc (unitEdge g') u u)) ->
       buildUnits exampleGraph = Ok g') /\
    (g_allowCycles exampleGraph = false -> ~ (forall u, ~ tc (unitEdge g') u u) ->
       buildUnits exampleGraph = Err "group boundary edges form a cycle across units").
Proof. exact (buildUnits_accepts_dag exampleGraph exampleGraph_wf). Defined.

Lemma buildUnits_in_degree_witness :
  exists g', buildUnits exampleGraph = Ok g' /\ UnitCount g' = 3%nat /\
    g_unitInDegree g' !! 1%nat = Some 2.
Proof.
  destruct (buildUnits exampleGraph) as [g'| | |] eqn:E; try (vm_compute in E; done).
  assert (Hd : g_unitInDegree g' !! 1%nat = Some 2)
    by (vm_compute in E; injection E as <-; done).
  exists g'. split; [done|]. split; [|done].
  destruct (buildUnits_in_degree exampleGraph g' 1 2 exampleGraph_wf E Hd)
    as (_ & Hc & _).
  rewrite Hc. by vm_compute.
Defined.
