(* ===== verification/MergeCancel.v ===== *)
(** * The branches a merge cancels

    [engine/graph/merge_cancel.go]: the nodes a firing [wait_any] merge retires
    are those that reach it, in an order in which a node comes after all of its
    ancestors.  [CancelClosure] finds them by a depth-first walk of the in-edges
    with an explicit stack. *)

From S2P Require Import Prelude Keys Types Graph Units.

(** ** The policy *)

Abbreviation onOthersCancel := "cancel".
Abbreviation onOthersDetach := "detach".

(** The policy, whether the author wrote it, and whether the value is one. *)
Definition mergeOnOthers (params : Data) : string * bool * bool :=
  match params ≫= lookup "on_others" with
  | None | Some ANil => (onOthersCancel, false, true)
  | Some (AStr s) =>
      if decide (s = "") then (onOthersCancel, false, true)
      else if decide (s = onOthersCancel \/ s = onOthersDetach) then (s, true, true)
      else ("", true, false)
  | Some _ => ("", true, false)
  end.

Definition MergeCancelsOthers (g : Graph) (nodeIdx : Z) : bool :=
  if g_allowCycles g || (nodeIdx <? 0) || (Z.of_nat (NodeCount g) <=? nodeIdx) then false
  else match g_nodes g !! Z.to_nat nodeIdx with
       | None => false
       | Some n =>
           if decide (nm_MergeMode n <> "wait_any") then false
           else let '(policy, _, ok) := mergeOnOthers (nm_Parameters n) in
                ok && bool_decide (policy = onOthersCancel)
       end.

(** ** The walk *)

(** A frame: a node and the position in its in-edges; the head is the top. *)
Abbreviation frame := (nat * nat)%type.

Fixpoint closureLoop (fuel : nat) (inEdges : list (list Edge)) (nodeIdx : nat) (seen : list bool)
    (stack : list frame) (out : list nat) : res (list nat) :=
  match fuel, stack with
  | O, _ => OutOfFuel
  | S _, [] => Ok out
  | S fuel, (node, next) :: rest =>
      edges ← idx inEdges node;
      match edges !! next with
      | Some e =>
          let src := e_SrcIdx e in
          let stack := (node, S next) :: rest in
          visited ← idx seen src;
          if visited : bool then closureLoop fuel inEdges nodeIdx seen stack out
          else closureLoop fuel inEdges nodeIdx (<[src := true]> seen) ((src, 0%nat) :: stack) out
      | None =>
          closureLoop fuel inEdges nodeIdx seen rest
            (if decide (node = nodeIdx) then out else out ++ [node])
      end
  end.

(** One round per node and per edge, and one to see the empty stack. *)
Definition closureFuel (inEdges : list (list Edge)) : nat :=
  S (sum_list_with (S ∘ length) inEdges).

Definition CancelClosure (g : Graph) (nodeIdx : Z) : res (list nat) :=
  if g_allowCycles g || (nodeIdx <? 0) || (Z.of_nat (NodeCount g) <=? nodeIdx) then Ok []
  else
    let root := Z.to_nat nodeIdx in
    closureLoop (closureFuel (g_inEdges g)) (g_inEdges g) root
      (<[root := true]> (replicate (NodeCount g) false)) [(root, 0%nat)] [].

(** ** What it finds *)

(** [u] feeds [v] through a data edge. *)
Definition feeds (inEdges : list (list Edge)) (u v : nat) : Prop :=
  exists es e, inEdges !! v = Some es /\ e ∈ es /\ e_SrcIdx e = u.

(** No node of the list comes before one that feeds it. *)
Definition ancestorsFirst (inEdges : list (list Edge)) (out : list nat) : Prop :=
  forall A v B u, out = A ++ v :: B -> feeds inEdges u v -> u ∈ A.

(** The work the nodes not yet seen stand for. *)
Fixpoint unseen (seen : list bool) (es : list (list Edge)) : nat :=
  match seen, es with
  | b :: seen, l :: es => ((if b : bool then 0 else S (length l)) + unseen seen es)%nat
  | _, _ => 0%nat
  end.

Lemma unseen_insert seen es v l :
  seen !! v = Some false -> es !! v = Some l ->
  (unseen (<[v := true]> seen) es + S (length l) = unseen seen es)%nat.
Proof.
  revert es v. induction seen as [|b seen IH]; intros [|l' es] [|v] Hs He; simplify_eq/=; [lia|].
  rewrite <- (IH es v) by done. lia.
Qed.

Lemma unseen_replicate es : unseen (replicate (length es) false) es = sum_list_with (S ∘ length) es.
Proof. induction es as [|l es IH]; simpl; [done|]. by rewrite IH. Qed.

Section walk.
Set Default Proof Using "Type".
Context (inEdges : list (list Edge)) (root : nat)
  (Hrange : forall u v, feeds inEdges u v -> (u < length inEdges)%nat)
  (Hacyclic : forall v, ~ tc (feeds inEdges) v v)
  (Hroot : (root < length inEdges)%nat).

(** The frames, from the top: each is the source of an edge the one below has
    passed, and the other sources passed are done. *)
Fixpoint framesOK (out : list nat) (above : option nat) (stack : list frame) : Prop :=
  match stack with
  | [] => True
  | (n, k) :: rest =>
      (exists es, inEdges !! n = Some es /\ (k <= length es)%nat /\
         forall e, e ∈ take k es -> e_SrcIdx e ∈ out \/ above = Some (e_SrcIdx e)) /\
      (forall a, above = Some a -> feeds inEdges a n) /\ framesOK out (Some n) rest
  end.

Record walking (seen : list bool) (stack : list frame) (out : list nat) : Prop := {
  wk_length : length seen = length inEdges;
  wk_seen : forall u, seen !! u = Some true <-> u ∈ out \/ u ∈ map fst stack \/ u = root;
  wk_nodup : NoDup (out ++ map fst stack);
  wk_order : ancestorsFirst inEdges out;
  wk_frames : framesOK out None stack;
  wk_above : forall u, u ∈ out -> tc (feeds inEdges) u root;
  wk_bottom : stack = [] \/ last (map fst stack) = Some root;
  wk_done : stack = [] -> forall u, feeds inEdges u root -> u ∈ out
}.

(** What is left to do on the stack. *)
Definition toDo (stack : list frame) : nat :=
  sum_list_with (fun f : frame => S (length (default [] (inEdges !! f.1)) - f.2)) stack.

(** Every node of the stack is reached from the top one. *)
Lemma stack_reached out n rest u :
  framesOK out (Some n) rest -> u ∈ map fst rest -> tc (feeds inEdges) n u.
Proof.
  revert n. induction rest as [|[m j] rest IH]; intros n; cbn; [by intros _ ?%elem_of_nil|].
  intros (_ & Hn & Hr) [->|Hu]%elem_of_cons; [by apply tc_once, Hn|].
  eapply tc_l; [by apply Hn|]. by eapply IH.
Qed.

Lemma frames_mono out out' above stack :
  out ⊆ out' -> framesOK out above stack -> framesOK out' above stack.
Proof.
  intros Ho. revert above. induction stack as [|[n k] rest IH]; intros above; cbn; [done|].
  intros ((es & Hes & Hk & He) & Ha & Hr). split_and!; [|done|by apply IH].
  exists es. split_and!; [done|done|]. intros e Hin. destruct (He e Hin); auto.
Qed.

(** A popped frame is done for the one below. *)
Lemma frames_pop out n rest :
  framesOK out (Some n) rest -> n ∈ out -> framesOK out None rest.
Proof.
  destruct rest as [|[m j] rest]; cbn; [done|]. intros ((es & Hes & Hk & He) & _ & Hr) Hn.
  split_and!; [|done|done]. exists es. split_and!; [done|done|]. intros e Hin.
  destruct (He e Hin) as [H|[= <-]]; auto.
Qed.

Lemma last_feeds n k rest out :
  framesOK out None ((n, k) :: rest) -> last (map fst ((n, k) :: rest)) = Some root ->
  n = root \/ tc (feeds inEdges) n root.
Proof.
  intros (_ & _ & Hr) Hl. destruct rest as [|f rest]; [by injection Hl; left|]. right.
  eapply stack_reached; [exact Hr|]. cbn in Hl.
  apply last_Some_elem_of in Hl. exact Hl.
Qed.

Lemma last_head_nodup (n : nat) (l : list nat) :
  NoDup (n :: l) -> last (n :: l) = Some n -> l = [].
Proof.
  destruct l as [|m l]; [done|]. intros [Hn _]%NoDup_cons Hl. destruct Hn.
  by apply last_Some_elem_of.
Qed.

(** The three moves of the loop. *)
Lemma walk_push seen n k rest out es e :
  walking seen ((n, k) :: rest) out -> inEdges !! n = Some es -> es !! k = Some e ->
  seen !! e_SrcIdx e = Some false ->
  walking (<[e_SrcIdx e := true]> seen) ((e_SrcIdx e, 0%nat) :: (n, S k) :: rest) out.
Proof using Hrange Hacyclic Hroot.
  intros W Hes He Hs. pose proof (list_elem_of_lookup_2 _ _ _ He) as Hin.
  assert (Hf : feeds inEdges (e_SrcIdx e) n) by by exists es, e.
  assert (Hnew : ~ (e_SrcIdx e ∈ out \/ e_SrcIdx e ∈ map fst ((n, k) :: rest) \/ e_SrcIdx e = root)).
  { rewrite <- (wk_seen _ _ _ W). congruence. }
  pose proof (lookup_lt_Some _ _ _ Hs) as Hlt. split.
  - rewrite length_insert. apply W.
  - intros u. rewrite list_lookup_insert_Some. pose proof (wk_seen _ _ _ W u) as Hu.
    cbn in *. set_solver.
  - pose proof (wk_nodup _ _ _ W) as Hd. cbn in Hd |- *.
    cbn in Hnew.
    apply NoDup_app in Hd as (H1 & H2 & H3). apply NoDup_app. split_and!; [done|set_solver|].
    apply NoDup_cons. split; [set_solver|done].
  - apply W.
  - destruct (wk_frames _ _ _ W) as ((es' & Hes' & _ & Htake) & _ & Hr).
    rewrite Hes in Hes'. injection Hes' as <-. cbn. destruct (lookup_lt_is_Some_2 inEdges (e_SrcIdx e))
      as [es1 Hes1]; [by eapply Hrange|]. split_and!; [|done| |by intros ? [= <-]|done].
    + exists es1. split_and!; [done|lia|]. intros e1. rewrite take_0. by intros ?%elem_of_nil.
    + exists es. split_and!; [done|by apply lookup_lt_Some in He|]. intros e1.
      rewrite (take_S_r _ _ e) by done. intros [H|H]%elem_of_app.
      * destruct (Htake e1 H); [by left|done].
      * apply list_elem_of_singleton in H as ->. by right.
  - apply W.
  - right. destruct (wk_bottom _ _ _ W) as [|Hb]; [done|exact Hb].
  - done.
Qed.

Lemma walk_next seen n k rest out es e :
  walking seen ((n, k) :: rest) out -> inEdges !! n = Some es -> es !! k = Some e ->
  seen !! e_SrcIdx e = Some true -> walking seen ((n, S k) :: rest) out.
Proof using Hrange Hacyclic Hroot.
  intros W Hes He Hs. pose proof (list_elem_of_lookup_2 _ _ _ He) as Hin.
  assert (Hf : feeds inEdges (e_SrcIdx e) n) by by exists es, e.
  destruct (wk_frames _ _ _ W) as ((es' & Hes' & _ & Htake) & _ & Hr).
  rewrite Hes in Hes'. injection Hes' as <-.
  assert (Hout : e_SrcIdx e ∈ out).
  { apply (wk_seen _ _ _ W) in Hs as [H|[H|H]]; [done| |]; exfalso.
    - cbn in H. apply elem_of_cons in H as [H|H]; [rewrite H in Hf; by apply (Hacyclic n), tc_once|].
      apply (Hacyclic n). eapply tc_r; [by eapply stack_reached|done].
    - destruct (wk_bottom _ _ _ W) as [|Hb]; [done|].
      destruct (last_feeds n k rest out (wk_frames _ _ _ W) Hb) as [->|Ht].
      + rewrite H in Hf. by apply (Hacyclic root), tc_once.
      + rewrite H in Hf. apply (Hacyclic n). by eapply tc_r. }
  split; try apply W; [|by right; destruct (wk_bottom _ _ _ W)|done].
  cbn. split_and!; [|done|done]. exists es. split_and!; [done|by apply lookup_lt_Some in He|].
  intros e1. rewrite (take_S_r _ _ e) by done. intros [H|H]%elem_of_app.
  - destruct (Htake e1 H); [by left|done].
  - apply list_elem_of_singleton in H as ->. by left.
Qed.

Lemma order_snoc out n :
  ancestorsFirst inEdges out -> (forall u, feeds inEdges u n -> u ∈ out) ->
  ancestorsFirst inEdges (out ++ [n]).
Proof.
  intros Ho Hn A v B u E Hu. destruct B as [|b B _] using rev_ind.
  - apply app_inj_tail in E as [<- <-]. by apply Hn.
  - rewrite app_comm_cons, (assoc_L (++)) in E. apply app_inj_tail in E as [-> _]. by eapply Ho.
Qed.

Lemma walk_pop seen n k rest out es :
  walking seen ((n, k) :: rest) out -> inEdges !! n = Some es -> es !! k = None ->
  walking seen rest (if decide (n = root) then out else out ++ [n]).
Proof using Hrange Hacyclic Hroot.
  intros W Hes He. apply lookup_ge_None in He.
  destruct (wk_frames _ _ _ W) as ((es' & Hes' & Hk & Htake) & _ & Hr).
  rewrite Hes in Hes'. injection Hes' as <-.
  assert (Hsrc : forall u, feeds inEdges u n -> u ∈ out).
  { intros u (es' & e & Hes' & Hin & <-). rewrite Hes in Hes'. injection Hes' as <-.
    destruct (Htake e) as [H|H]; [by rewrite take_ge by lia|done|done]. }
  destruct (wk_bottom _ _ _ W) as [|Hb]; [done|].
  pose proof (wk_nodup _ _ _ W) as Hd. case_decide as Hn.
  - subst n. pose proof Hd as (_ & _ & Hd2)%NoDup_app. cbn in Hd2, Hb.
    pose proof (last_head_nodup _ _ Hd2 Hb) as ->%map_eq_nil.
    split; try apply W.
    + intros u. rewrite (wk_seen _ _ _ W). cbn. set_solver.
    + apply NoDup_app in Hd as (? & _ & _). by rewrite app_nil_r.
    + by left.
    + by intros _.
  - destruct (last_feeds n k rest out (wk_frames _ _ _ W) Hb) as [|Ht]; [done|]. split.
    + apply W.
    + intros u. rewrite (wk_seen _ _ _ W). cbn. set_solver.
    + by rewrite <- (assoc_L (++)).
    + apply order_snoc; [apply W|done].
    + eapply frames_pop; [eapply frames_mono; [|done]|]; set_solver.
    + intros u [H|H]%elem_of_app; [by apply W|]. by apply list_elem_of_singleton in H as ->.
    + right. destruct rest as [|f rest]; [by injection Hb|exact Hb].
    + intros ->. by injection Hb.
Qed.

Lemma walk_loop fuel seen stack out :
  walking seen stack out -> (unseen seen inEdges + toDo stack < fuel)%nat ->
  exists seen' out', closureLoop fuel inEdges root seen stack out = Ok out' /\
    walking seen' [] out'.
Proof using Hrange Hacyclic Hroot.
  revert seen stack out. induction fuel as [|fuel IH]; intros seen stack out W Hf; [lia|].
  destruct stack as [|[n k] rest]; [by exists seen, out|].
  destruct (wk_frames _ _ _ W) as ((es & Hes & Hk & _) & _ & _).
  cbn in Hf |- *. rewrite Hes in Hf. cbn in Hf. rewrite (proj2 (idx_Ok _ _ _) Hes). cbn.
  destruct (es !! k) as [e|] eqn:He.
  - pose proof (lookup_lt_Some _ _ _ He) as Hlt.
    destruct (lookup_lt_is_Some_2 inEdges (e_SrcIdx e)) as [es1 Hes1].
    { eapply Hrange. exists es, e. split_and!; [done|by eapply list_elem_of_lookup_2|done]. }
    destruct (lookup_lt_is_Some_2 seen (e_SrcIdx e)) as [b Hb].
    { rewrite (wk_length _ _ _ W). by eapply lookup_lt_Some. }
    rewrite (proj2 (idx_Ok _ _ _) Hb). cbn. destruct b.
    + apply IH; [by eapply walk_next|]. cbn. rewrite Hes. cbn. unfold toDo in Hf. lia.
    + apply IH; [by eapply walk_push|]. pose proof (unseen_insert _ _ _ _ Hb Hes1).
      cbn. rewrite Hes, Hes1. cbn. unfold toDo in Hf. lia.
  - apply IH; [by eapply walk_pop|]. unfold toDo in *. lia.
Qed.

Lemma walk_start :
  walking (<[root := true]> (replicate (length inEdges) false)) [(root, 0%nat)] [].
Proof using Hrange Hacyclic Hroot.
  destruct (lookup_lt_is_Some_2 inEdges root Hroot) as [es Hes]. split.
  - by rewrite length_insert, length_replicate.
  - intros u. rewrite list_lookup_insert_Some, length_replicate. cbn.
    rewrite lookup_replicate. set_solver.
  - cbn. apply NoDup_singleton.
  - intros A v B u E. by destruct A.
  - cbn. split_and!; [|done|done]. exists es. split_and!; [done|lia|].
    intros e. rewrite take_0. by intros ?%elem_of_nil.
  - by intros u ?%elem_of_nil.
  - by right.
  - done.
Qed.

(** A list that is closed under what feeds it, in order, holds all ancestors. *)
Lemma order_tc out A v B u :
  ancestorsFirst inEdges out -> out = A ++ v :: B -> tc (feeds inEdges) u v -> u ∈ A.
Proof.
  intros Ho E Ht. revert A B E. induction Ht as [u v Hu|u w v Huw _ IH]; intros A B E.
  - by eapply Ho.
  - destruct (list_elem_of_split A w (IH _ _ E)) as (A1 & A2 & ->).
    apply elem_of_app. left. eapply Ho; [|done]. by rewrite E, <- (assoc_L (++)).
Qed.
End walk.

(** ** The closure of a merge *)

(** The in-edges of an acyclic graph, one list per node. *)
Record inEdgesOK (g : Graph) : Prop := {
  ie_length : length (g_inEdges g) = NodeCount g;
  ie_range : forall u v, feeds (g_inEdges g) u v -> (u < NodeCount g)%nat;
  ie_acyclic : forall v, ~ tc (feeds (g_inEdges g)) v v
}.

(** The walk ends with everything above the merge. *)
Lemma closure_walk g root :
  inEdgesOK g -> g_allowCycles g = false -> (root < NodeCount g)%nat ->
  exists seen out, CancelClosure g (Z.of_nat root) = Ok out /\
    walking (g_inEdges g) root seen [] out.
Proof.
  intros [Hl Hr Ha] Hc Hroot. unfold CancelClosure. rewrite Hc.
  rewrite (proj2 (Z.ltb_ge _ _)), (proj2 (Z.leb_gt _ _)) by lia. cbn. rewrite Nat2Z.id, <- Hl.
  assert (Hrange : forall u v, feeds (g_inEdges g) u v -> (u < length (g_inEdges g))%nat)
    by (rewrite Hl; done).
  assert (Hroot' : (root < length (g_inEdges g))%nat) by lia.
  destruct (lookup_lt_is_Some_2 _ _ Hroot') as [es Hes].
  apply (walk_loop _ root Hrange Ha Hroot' (closureFuel (g_inEdges g)) _ _ _
    (walk_start _ _ Hrange Ha Hroot')).
  pose proof (unseen_insert (replicate (length (g_inEdges g)) false) (g_inEdges g) root es) as Hi.
  rewrite unseen_replicate in Hi. unfold closureFuel. cbn. rewrite Hes. cbn.
  rewrite <- Hi; [lia|by apply lookup_replicate_2|done].
Qed.

(** C27. A merge cancels exactly what can still reach it.  On an acyclic graph the
    walk ends, and what it returns are the nodes with a path of data edges to the
    merge, each once, without the merge itself, and every node after all of its
    own ancestors: whoever settles the list front to back has settled the
    ancestors of a node before the node. *)
Theorem cancel_closure g root :
  inEdgesOK g -> g_allowCycles g = false -> (root < NodeCount g)%nat ->
  exists out, CancelClosure g (Z.of_nat root) = Ok out /\ NoDup out /\
    (forall u, u ∈ out <-> tc (feeds (g_inEdges g)) u root) /\
    (forall A v B u, out = A ++ v :: B -> tc (feeds (g_inEdges g)) u v -> u ∈ A).
Proof.
  intros HI Hc Hroot. destruct (closure_walk g root HI Hc Hroot) as (seen & out & E & W).
  exists out. split_and!; [exact E| | |].
  - pose proof (wk_nodup _ _ _ _ _ W) as Hd. by rewrite app_nil_r in Hd.
  - intros u. split; [by apply W|]. intros Hu.
    assert (exists w, rtc (feeds (g_inEdges g)) u w /\ feeds (g_inEdges g) w root) as (w & Hu' & Hw).
    { clear -Hu. induction Hu as [u r H|u w r H _ (w' & IH1 & IH2)]; [by exists u|].
      exists w'. split; [by eapply rtc_l|done]. }
    pose proof (wk_done _ _ _ _ _ W eq_refl w Hw) as Hin.
    destruct (list_elem_of_split _ _ Hin) as (A & B & ->). destruct Hu' as [w|u w' w Huw Hw'].
    + done.
    + apply elem_of_app. left. eapply order_tc; [apply W|done|]. by eapply tc_rtc_r; [apply tc_once|].
  - intros A v B u. apply order_tc, W.
Qed.

(** A merge behind two branches of different length. *)
Definition demoMerge : Graph :=
  let e u v := mkEdge u v "main" "main" in
  exampleGraph <| g_inEdges := [[]; [e 0 1]; [e 0 2]; [e 2 3]; [e 1 4; e 3 4]]%nat |>.

Lemma demoMerge_up u v : feeds (g_inEdges demoMerge) u v -> (u < v /\ v < 5)%nat.
Proof.
  intros (es & e & Hes & He & <-). destruct v as [|[|[|[|[|v]]]]]; simplify_eq/=; set_solver by lia.
Qed.

Lemma demoMerge_ok : inEdgesOK demoMerge.
Proof.
  split; [done| |].
  - intros u v Hu%demoMerge_up. change (u < 5)%nat. lia.
  - assert (Hup : forall u v, tc (feeds (g_inEdges demoMerge)) u v -> (u < v)%nat).
    { induction 1 as [u v Hu%demoMerge_up|u w v Hu%demoMerge_up]; lia. }
    intros v Hv%Hup. lia.
Qed.

Lemma cancel_closure_witness :
  CancelClosure demoMerge 4 = Ok [0; 1; 2; 3]%nat /\
  exists out, CancelClosure demoMerge 4 = Ok out /\ NoDup out /\
    (forall u, u ∈ out <-> tc (feeds (g_inEdges demoMerge)) u 4%nat) /\
    (forall A v B u, out = A ++ v :: B -> tc (feeds (g_inEdges demoMerge)) u v -> u ∈ A).
Proof.
  split; [by vm_compute|].
  apply (cancel_closure demoMerge 4%nat demoMerge_ok); [done|]. change (4 < 5)%nat. lia.
Defined.
