(* ===== verification/State.v ===== *)
(** * The memory backend's state

    The fields of [memoryState] ([src/backend/providers/local/memory_state.go])
    that the modelled operations read and write, one finite map per Go map and
    keyed by the same strings, together with the helpers every component
    shares: writing an outbox intent, and the monotonic output-privacy marker.

    Every method of the store takes one mutex, so an operation is a function
    from the state to a result and the next state.  A [time.Now()] read inside
    the critical section is the argument [now].  A [*workflowSlot] pointer is
    the slot's key: the code keeps such a pointer only while the execution is a
    holder or stands in the line of that slot, and a slot leaves
    [workflowSlots] only when it has neither. *)

From S2P Require Import Prelude Keys Types Graph.

(** ** Data *)

(** [engine.ExecutionSnapshot] without its [Runtime] pointer, which the store
    carries and never reads. *)
Record ExecutionSnapshot : Type := mkExecutionSnapshot {
  ex_ID : string;
  ex_Graph : option Graph;
  ex_Status : ExecutionStatus;
  ex_Params : Data;
  ex_WorkflowID : string;
  ex_WorkflowVersion : string;
  ex_DefinitionHash : string;
  ex_CreatedAt : Time;
  ex_UpdatedAt : Time;
  ex_Deadline : Time;
  ex_Scope : Data;
  ex_TraceID : string;
  ex_SpanID : string;
  ex_TraceCarrier : option (gmap string string);
  ex_ParentID : string;
  ex_ParentNode : string;
  ex_Depth : Z;
  ex_RerunFrom : string;
  ex_Namespace : string;
  ex_TriggerKind : string;
  ex_Error : string;
  ex_TestRun : bool
}.

#[export] Instance Eta_ExecutionSnapshot : Eta ExecutionSnapshot := fun r =>
  mkExecutionSnapshot (ex_ID r) (ex_Graph r) (ex_Status r) (ex_Params r)
    (ex_WorkflowID r) (ex_WorkflowVersion r) (ex_DefinitionHash r) (ex_CreatedAt r)
    (ex_UpdatedAt r) (ex_Deadline r) (ex_Scope r) (ex_TraceID r) (ex_SpanID r)
    (ex_TraceCarrier r) (ex_ParentID r) (ex_ParentNode r) (ex_Depth r)
    (ex_RerunFrom r) (ex_Namespace r) (ex_TriggerKind r) (ex_Error r)
    (ex_TestRun r).

(** The zero snapshot; struct literals update its fields. *)
Definition zeroExecutionSnapshot : ExecutionSnapshot :=
  mkExecutionSnapshot "" None ExecutionStatusNone None "" "" "" zeroTime zeroTime
    zeroTime None "" "" None "" "" 0 "" "" "" "" false.

Abbreviation TriggerKindAPI := "api".
Abbreviation TriggerKindRerun := "rerun".
Abbreviation TriggerKindSubWorkflow := "subworkflow".

Definition ExecutionTriggerKind (s : option ExecutionSnapshot) : string :=
  match s with
  | None => ""
  | Some s =>
      if decide (ex_TriggerKind s <> "") then ex_TriggerKind s
      else if decide (ex_RerunFrom s <> "") then TriggerKindRerun
      else if decide (ex_ParentID s <> "") then TriggerKindSubWorkflow
      else TriggerKindAPI
  end.

Record execEntry : Type := mkExecEntry {
  snap : ExecutionSnapshot;
  closed : bool
}.

#[export] Instance Eta_execEntry : Eta execEntry := fun r =>
  mkExecEntry (snap r) (closed r).

(** The lifecycle status of an entry. *)
Definition status (e : execEntry) : ExecutionStatus := ex_Status (snap e).

Record memoryDeadLetterMeta : Type := mkDeadMeta {
  dm_node : string;
  dm_activation : string;
  dm_intent : string
}.

Record memoryOutboxEntry : Type := mkStored {
  ob_entry : OutboxEntry;
  ob_leasedUntil : Time;
  ob_deadMeta : option memoryDeadLetterMeta
}.

#[export] Instance Eta_memoryOutboxEntry : Eta memoryOutboxEntry := fun r =>
  mkStored (ob_entry r) (ob_leasedUntil r) (ob_deadMeta r).

Inductive DeadLetterReplayOutcome : Type :=
| ReplayReplayed
| ReplayAlreadyReplayed
| ReplayNotFound
| ReplayRejectedTerminal
| ReplayRejectedInactive
| ReplayRejectedNodeTerminal
| ReplayRejectedActivationMismatch
| ReplayRejectedMetadataMissing.

#[export] Instance DeadLetterReplayOutcome_eq_dec : EqDecision DeadLetterReplayOutcome.
Proof. solve_decision. Defined.

Record memoryReplayReceipt : Type := mkReceipt {
  rr_auditID : string;
  rr_node : string;
  rr_activation : string;
  rr_entryID : string;
  rr_operator : string;
  rr_reason : string;
  rr_outcome : DeadLetterReplayOutcome;
  rr_occurredAtMs : Z
}.

Record workflowSlot : Type := mkSlot {
  ws_key : string;
  ws_holders : gset string;
  ws_limit : Z;
  ws_queued : list string
}.

#[export] Instance Eta_workflowSlot : Eta workflowSlot := fun r =>
  mkSlot (ws_key r) (ws_holders r) (ws_limit r) (ws_queued r).

Record queuedExecution : Type := mkQueued {
  qe_slot : string;
  qe_deadline : Time
}.

Record SubExecution : Type := mkSubExecution {
  sub_ParentExecID : string;
  sub_ParentNode : string;
  sub_ChildExecID : string;
  sub_BatchIndex : Z;
  sub_Status : ExecutionStatus;
  sub_Result : Data
}.

#[export] Instance Eta_SubExecution : Eta SubExecution := fun r =>
  mkSubExecution (sub_ParentExecID r) (sub_ParentNode r) (sub_ChildExecID r)
    (sub_BatchIndex r) (sub_Status r) (sub_Result r).

Record SubWorkflowLink : Type := mkSubWorkflowLink {
  lk_ChildExecutionID : string;
  lk_ParentNode : string;
  lk_Generation : Z;
  lk_Depth : Z;
  lk_WaitDeadline : Time;
  lk_LeaseID : string;
  lk_LeaseToken : string;
  lk_Attempt : Z;
  lk_ActivationID : Z
}.

Record SubWorkflowConclusion : Type := mkConclusion {
  cc_ChildExecutionID : string;
  cc_Status : ExecutionStatus;
  cc_Error : string;
  cc_Output : Data
}.

(** The phases of a group unit ([groupUnitPending], ...). *)
Inductive groupPhase : Type :=
| groupUnitPending
| groupUnitRunning
| groupUnitDone
| groupUnitSuspended.

#[export] Instance groupPhase_eq_dec : EqDecision groupPhase.
Proof. solve_decision. Defined.

Record groupUnitState : Type := mkGroupUnit {
  gu_status : groupPhase;
  gu_leaseID : string;
  gu_leaseToken : string;
  gu_attempt : Z;
  gu_deadline : Time;
  gu_committedToken : string;
  gu_execID : string;
  gu_unitIdx : Z;
  gu_groupName : string;
  gu_entryNodeIdx : Z;
  gu_activationID : Z;
  gu_issuedAt : Time;
  gu_ttl : Duration
}.

#[export] Instance Eta_groupUnitState : Eta groupUnitState := fun r =>
  mkGroupUnit (gu_status r) (gu_leaseID r) (gu_leaseToken r) (gu_attempt r)
    (gu_deadline r) (gu_committedToken r) (gu_execID r) (gu_unitIdx r)
    (gu_groupName r) (gu_entryNodeIdx r) (gu_activationID r) (gu_issuedAt r)
    (gu_ttl r).

Definition zeroGroupUnit : groupUnitState :=
  mkGroupUnit groupUnitPending "" "" 0 zeroTime "" "" 0 "" 0 0 zeroTime 0.

Record admissionEntry : Type := mkAdmissionEntry {
  ae_executionID : string;
  ae_resultHash : string
}.

Record idempotencyClaim : Type := mkClaim {
  cl_fingerprint : string;
  cl_token : string;
  cl_confirmed : bool;
  cl_leaseUntil : Time;
  cl_expiresAt : Time
}.

#[export] Instance Eta_idempotencyClaim : Eta idempotencyClaim := fun r =>
  mkClaim (cl_fingerprint r) (cl_token r) (cl_confirmed r) (cl_leaseUntil r)
    (cl_expiresAt r).

(** [mirrorLocks] keeps the executions whose projection lock is in use; the
    done channels, the event watchers and the logger carry no scheduling
    state. *)
Record memoryState : Type := mkState {
  executions : gmap string execEntry;
  nodes : gmap string NodeSnapshot;
  inDegrees : gmap string Z;
  activeIns : gmap string Z;
  remaining : gmap string Z;
  failed : gmap string Z;
  advanced : gset string;
  scheduled : gmap string string;
  outbox : gmap string (gmap string memoryOutboxEntry);
  deadOutbox : gmap string (gmap string memoryOutboxEntry);
  replayReceipts : gmap string (gmap string memoryReplayReceipt);
  replayEntryIdx : gmap string (gmap string string);
  outputs : gmap string Data;
  privateOutputs : gset string;
  suspended : gmap string SuspendSpec;
  signals : gmap string Data;
  signalSets : gmap string (gmap string Data);
  resumed : gset string;
  subExecs : gmap string (list SubExecution);
  subWorkflowLinks : gmap string SubWorkflowLink;
  subWorkflowConclusions : gmap string SubWorkflowConclusion;
  groupUnits : gmap string groupUnitState;
  admissions : gmap string admissionEntry;
  idempotency : gmap string idempotencyClaim;
  workflowSlots : gmap string workflowSlot;
  slotHolders : gmap string string;
  queued : gmap string queuedExecution;
  cancelingSince : gmap string Time;
  dbAttached : bool;
  mirrorLocks : gset string;
  mirrorSkip : gset string;
  mirrorCreatePending : gset string;
  mirrorConflict : gset string;
  rolledBack : gset string;
  deadlines : gmap string Time
}.

#[export] Instance Eta_memoryState : Eta memoryState := fun r =>
  mkState (executions r) (nodes r) (inDegrees r) (activeIns r) (remaining r)
    (failed r) (advanced r) (scheduled r) (outbox r) (deadOutbox r)
    (replayReceipts r) (replayEntryIdx r) (outputs r) (privateOutputs r)
    (suspended r) (signals r) (signalSets r) (resumed r) (subExecs r)
    (subWorkflowLinks r) (subWorkflowConclusions r) (groupUnits r) (admissions r)
    (idempotency r) (workflowSlots r) (slotHolders r) (queued r)
    (cancelingSince r) (dbAttached r) (mirrorLocks r) (mirrorSkip r)
    (mirrorCreatePending r) (mirrorConflict r) (rolledBack r) (deadlines r).

(** Two states with the same fields are equal. *)
Lemma memoryState_ext s s' :
  executions s' = executions s ->
  nodes s' = nodes s ->
  inDegrees s' = inDegrees s ->
  activeIns s' = activeIns s ->
  remaining s' = remaining s ->
  failed s' = failed s ->
  advanced s' = advanced s ->
  scheduled s' = scheduled s ->
  outbox s' = outbox s ->
  deadOutbox s' = deadOutbox s ->
  replayReceipts s' = replayReceipts s ->
  replayEntryIdx s' = replayEntryIdx s ->
  outputs s' = outputs s ->
  privateOutputs s' = privateOutputs s ->
  suspended s' = suspended s ->
  signals s' = signals s ->
  signalSets s' = signalSets s ->
  resumed s' = resumed s ->
  subExecs s' = subExecs s ->
  subWorkflowLinks s' = subWorkflowLinks s ->
  subWorkflowConclusions s' = subWorkflowConclusions s ->
  groupUnits s' = groupUnits s ->
  admissions s' = admissions s ->
  idempotency s' = idempotency s ->
  workflowSlots s' = workflowSlots s ->
  slotHolders s' = slotHolders s ->
  queued s' = queued s ->
  cancelingSince s' = cancelingSince s ->
  dbAttached s' = dbAttached s ->
  mirrorLocks s' = mirrorLocks s ->
  mirrorSkip s' = mirrorSkip s ->
  mirrorCreatePending s' = mirrorCreatePending s ->
  mirrorConflict s' = mirrorConflict s ->
  rolledBack s' = rolledBack s ->
  deadlines s' = deadlines s ->
  s' = s.
Proof. destruct s, s'; simpl; intros; by subst. Qed.

Definition newMemoryState (db : bool) : memoryState :=
  mkState ∅ ∅ ∅ ∅ ∅ ∅ ∅ ∅ ∅ ∅ ∅ ∅ ∅ ∅ ∅ ∅ ∅ ∅ ∅ ∅ ∅ ∅ ∅ ∅ ∅ ∅ ∅ ∅ db ∅ ∅ ∅ ∅ ∅ ∅.

(** Reading an int map at an absent key gives 0, a string map "". *)
Definition counter (m : gmap string Z) (k : string) : Z := default 0 (m !! k).
Definition marker (m : gmap string string) (k : string) : string := default "" (m !! k).

(** The outbox of one execution; a nil inner map reads as empty. *)
Definition outboxOf (s : memoryState) (id : string) : gmap string memoryOutboxEntry :=
  default ∅ (outbox s !! id).

(** ** Outbox writes *)

(** [true] when a new intent was written.  A redelivered transition that
    writes the same id again writes nothing. *)
Definition putOutboxEntryLocked (now : Time) (s : memoryState) (id : string)
    (entry : OutboxEntry) : memoryState * bool :=
  if decide (oe_ID entry = "") then (s, false)
  else
    let entries := outboxOf s id in
    match entries !! oe_ID entry with
    | Some _ => (s, false)
    | None =>
        let entry :=
          if IsZero (oe_CreatedAt entry) then entry <| oe_CreatedAt := now |> else entry in
        let entry := entry <| oe_Task ::= cloneTask |> in
        (s <| outbox := <[id := <[oe_ID entry := mkStored entry zeroTime None]> entries]>
                          (outbox s) |>, true)
    end.

Definition newOutboxEntry (entryID : string) (task : Task) (availableAt : Time)
    : OutboxEntry :=
  mkOutboxEntry entryID task availableAt zeroTime 0 0 0.

Definition putOutboxLocked (now : Time) (s : memoryState) (id entryID : string)
    (task : Task) (availableAt : Time) : memoryState * bool :=
  putOutboxEntryLocked now s id (newOutboxEntry entryID task availableAt).

(** ** Output privacy *)

Definition outputIsPrivateLocked (s : memoryState) (key : string) : bool :=
  bool_decide (key ∈ privateOutputs s) ||
  match nodes s !! key with Some n => ns_PrivateOutput n | None => false end.

(** Records a privacy decision without ever clearing an earlier one. *)
Definition preserveOutputPrivacyLocked (s : memoryState) (key : string)
    (requested : bool) : memoryState * bool :=
  if requested || outputIsPrivateLocked s key then
    let s := s <| privateOutputs ::= fun m => {[key]} ∪ m |> in
    match nodes s !! key with
    | Some node =>
        if negb (ns_PrivateOutput node) || bool_decide (is_Some (ns_Output node))
        then (s <| nodes := <[key := node <| ns_PrivateOutput := true |>
                                          <| ns_Output := None |>]> (nodes s) |>, true)
        else (s, true)
    | None => (s, true)
    end
  else (s, false).

Definition publicNodeSnapshotLocked (s : memoryState) (key : string)
    (ns : option NodeSnapshot) : option NodeSnapshot :=
  match ns with
  | None => None
  | Some n =>
      if outputIsPrivateLocked s key
      then Some (n <| ns_PrivateOutput := true |> <| ns_Output := None |>)
      else Some n
  end.

(** ** Deadlines and pauses *)

Definition withdrawDeadlineLocked (s : memoryState) (id : string)
    (st : ExecutionStatus) : memoryState :=
  if decide (st <> ExecutionStatusTimeout)
  then s <| deadlines ::= delete id |> else s.

Definition dispatchHeldLocked (s : memoryState) (id : string) : bool :=
  match executions s !! id with
  | Some e => bool_decide (status e = ExecutionStatusPaused)
  | None => false
  end.
