(* ===== verification/Slots.v ===== *)
(** * Workflow concurrency slots

    Models the concurrency limit of [memory_state.go]: admission against a
    workflow's slot set, the FIFO line of queue-mode executions, promotion,
    release, and the parked ("held") initial intents. *)

From S2P Require Import Prelude Keys Types Graph State.

(** Midnight of 9999-01-01 UTC: 3651694 days after 0001-01-01. *)
Definition queuedOutboxHold : Time := 3651694 * 86400 * Second.

Abbreviation ConcurrencyModeQueue := "queue".
Abbreviation ConcurrencyModeReject := "reject".

Record ConcurrencyAdmission : Type := mkAdmission {
  ca_Namespace : string;
  ca_Workflow : string;
  ca_Limit : Z;
  ca_Mode : string;
  ca_MaxQueued : Z;
  ca_QueueTimeout : Duration
}.

Inductive AdmissionError : Type := ErrConcurrencyLimit | ErrConcurrencyQueueFull.

(** ** The slot key

    The digest is Go's [crypto/sha256]; the properties of the slot set do not
    depend on which function it is. *)

Definition concurrencyPayload (ns workflow : string) : string :=
  itoa (Z.of_nat (String.length ns)) +:+ ":" +:+ ns +:+
  itoa (Z.of_nat (String.length workflow)) +:+ ":" +:+ workflow.

Definition ConcurrencyKey (sha256hex : string -> string) (ns workflow : string) : string :=
  sha256hex (concurrencyPayload ns workflow).

(** ** Slots and the line *)

Definition putSlot (s : memoryState) (slot : workflowSlot) : memoryState :=
  s <| workflowSlots ::= <[ws_key slot := slot]> |>.

Definition slotForLocked (s : memoryState) (key : string) : workflowSlot :=
  default (mkSlot key ∅ 0 []) (workflowSlots s !! key).

(** [len(slot.holders)]. *)
Definition holding (slot : workflowSlot) : Z := Z.of_nat (size (ws_holders slot)).
(** [len(slot.queued)]. *)
Definition waiting (slot : workflowSlot) : Z := Z.of_nat (length (ws_queued slot)).

Definition chargeSlotLocked (s : memoryState) (slot : workflowSlot) (id : string)
    : memoryState :=
  putSlot s (slot <| ws_holders ::= fun h => {[id]} ∪ h |>)
    <| slotHolders ::= <[id := ws_key slot]> |>.

Definition parkOrChargeLocked (now : Time) (s : memoryState) (slot : workflowSlot)
    (id : string) (a : ConcurrencyAdmission) : memoryState * (AdmissionError + bool) :=
  if bool_decide (holding slot < ws_limit slot /\ waiting slot = 0)
  then (chargeSlotLocked s slot id, inr false)
  else if bool_decide (0 < ca_MaxQueued a /\ ca_MaxQueued a <= waiting slot)
  then (s, inl ErrConcurrencyQueueFull)
  else
    let deadline :=
      if 0 <? ca_QueueTimeout a then Add now (ca_QueueTimeout a) else zeroTime in
    (putSlot s (slot <| ws_queued ::= fun q => q ++ [id] |>)
       <| queued ::= <[id := mkQueued (ws_key slot) deadline]> |>, inr true).

(** [inr true]: parked; [inr false]: charged a slot.  The slot is created and
    its limit rewritten before the decision, also for a refused submission. *)
Definition chargeOrParkLocked (sha256hex : string -> string) (now : Time)
    (s : memoryState) (id : string) (a : ConcurrencyAdmission)
    : memoryState * (AdmissionError + bool) :=
  let slot := slotForLocked s (ConcurrencyKey sha256hex (ca_Namespace a) (ca_Workflow a)) in
  let slot := slot <| ws_limit := ca_Limit a |> in
  let s := putSlot s slot in
  if decide (ca_Mode a = ConcurrencyModeQueue) then parkOrChargeLocked now s slot id a
  else if ca_Limit a <=? holding slot then (s, inl ErrConcurrencyLimit)
  else (chargeSlotLocked s slot id, inr false).

(** 1-based position of [id] in a line, 0 when absent. *)
Fixpoint linePosition (id : string) (line : list string) (i : Z) : Z :=
  match line with
  | [] => 0
  | q :: line => if decide (q = id) then i + 1 else linePosition id line (i + 1)
  end.

Definition queuePositionLocked (s : memoryState) (id : string) : Z :=
  match queued s !! id with
  | None => 0
  | Some w => linePosition id (ws_queued (slotForLocked s (qe_slot w))) 0
  end.

(** Removes the first occurrence, keeping the order of the rest. *)
Fixpoint removeFirst (id : string) (line : list string) : list string :=
  match line with
  | [] => []
  | q :: line => if decide (q = id) then line else q :: removeFirst id line
  end.

Definition removeQueued (slot : workflowSlot) (id : string) : workflowSlot :=
  slot <| ws_queued ::= removeFirst id |>.

(** ** Held intents *)

Definition isHeld (e : memoryOutboxEntry) : bool :=
  Equal (oe_AvailableAt (ob_entry e)) queuedOutboxHold.

Definition setAvailable (t : Time) (e : memoryOutboxEntry) : memoryOutboxEntry :=
  e <| ob_entry ::= fun o => o <| oe_AvailableAt := t |> |>.

Definition holdOutboxLocked (s : memoryState) (id : string) : memoryState :=
  s <| outbox ::= alter (fmap (fun e =>
    if negb (IsZero (oe_AvailableAt (ob_entry e))) then e
    else setAvailable queuedOutboxHold e)) id |>.

(** Makes every held intent of one execution deliverable at once. *)
Definition unpark (s : memoryState) (id : string) : memoryState :=
  s <| outbox ::= alter (fmap (fun e =>
    if isHeld e then setAvailable zeroTime e else e)) id |>.

Definition dropHeldOutboxLocked (s : memoryState) (id : string) : memoryState :=
  let rest := filter (fun kv => isHeld kv.2 = false) (outboxOf s id) in
  if decide (rest = ∅) then s <| outbox ::= delete id |>
  else s <| outbox ::= <[id := rest]> |>.

(** ** Promotion and release *)

Definition setStatus (now : Time) (st : ExecutionStatus) (e : execEntry) : execEntry :=
  e <| snap ::= fun x => x <| ex_Status := st |> <| ex_UpdatedAt := now |> |>.

Definition completePromotionLocked (now : Time) (s : memoryState) (id : string)
    : memoryState :=
  let s :=
    match executions s !! id with
    | Some e =>
        if decide (status e = ExecutionStatusQueued)
        then s <| executions ::= <[id := setStatus now ExecutionStatusRunning e]> |>
        else s
    | None => s
    end in
  if decide (id ∈ mirrorCreatePending s) then s else unpark s id.

(** One round of the promotion loop: the head of the line takes a slot. *)
Definition promoteOne (now : Time) (s : memoryState) (slot : workflowSlot)
    : option (memoryState * workflowSlot) :=
  match ws_queued slot with
  | id :: line =>
      if bool_decide (0 < ws_limit slot /\ holding slot < ws_limit slot) then
        let slot := slot <| ws_queued := line |> <| ws_holders ::= fun h => {[id]} ∪ h |> in
        let s := putSlot s slot <| queued ::= delete id |>
                   <| slotHolders ::= <[id := ws_key slot]> |> in
        Some (completePromotionLocked now s id, slot)
      else None
  | [] => None
  end.

(** The loop shortens the line by one per round, so the line bounds it. *)
Fixpoint promoteLoop (fuel : nat) (now : Time) (s : memoryState) (slot : workflowSlot)
    : memoryState * workflowSlot :=
  match fuel with
  | O => (s, slot)
  | S fuel =>
      match promoteOne now s slot with
      | Some (s, slot) => promoteLoop fuel now s slot
      | None => (s, slot)
      end
  end.

Definition promoteLocked (now : Time) (s : memoryState) (slot : workflowSlot)
    : memoryState * workflowSlot :=
  promoteLoop (length (ws_queued slot)) now s slot.

Definition releaseWorkflowSlotLocked (now : Time) (s : memoryState) (id : string)
    : memoryState :=
  let finish (s : memoryState) (slot : workflowSlot) :=
    let '(s, slot) := promoteLocked now s slot in
    if bool_decide (ws_holders slot = ∅ /\ ws_queued slot = [])
    then s <| workflowSlots ::= delete (ws_key slot) |> else s in
  match slotHolders s !! id with
  | Some key =>
      let slot := slotForLocked s key <| ws_holders ::= fun h => h ∖ {[id]} |> in
      finish (putSlot (s <| slotHolders ::= delete id |>) slot) slot
  | None =>
      match queued s !! id with
      | Some w =>
          let slot := removeQueued (slotForLocked s (qe_slot w)) id in
          let s := putSlot (s <| queued ::= delete id |>) slot in
          finish (dropHeldOutboxLocked s id) slot
      | None => s
      end
  end.

#[global] Arguments completePromotionLocked : simpl never.
#[global] Arguments dropHeldOutboxLocked : simpl never.
#[global] Arguments promoteLocked : simpl never.
#[global] Arguments releaseWorkflowSlotLocked : simpl never.
#[global] Arguments chargeOrParkLocked : simpl never.

(** Where an execution waits. *)
Definition waits_at (s : memoryState) (id k : string) : Prop :=
  exists w, queued s !! id = Some w /\ qe_slot w = k.

(** ** Invariant

    The three places that record a slot agree: a holder is in exactly the slot
    [slotHolders] names, a waiting execution stands exactly once in the line
    [queued] names, and nobody is both. *)

Record slots_wf (s : memoryState) : Prop := {
  sw_key : forall k slot, workflowSlots s !! k = Some slot -> ws_key slot = k;
  sw_hold : forall id k, slotHolders s !! id = Some k <->
    exists slot, workflowSlots s !! k = Some slot /\ id ∈ ws_holders slot;
  sw_line : forall id k, waits_at s id k <->
    exists slot, workflowSlots s !! k = Some slot /\ id ∈ ws_queued slot;
  sw_nodup : forall k slot, workflowSlots s !! k = Some slot -> NoDup (ws_queued slot);
  sw_disj : forall id, ~ (is_Some (slotHolders s !! id) /\ is_Some (queued s !! id))
}.

(** Updates that leave the slot bookkeeping alone. *)
Definition same_slots (s s' : memoryState) : Prop :=
  workflowSlots s' = workflowSlots s /\ slotHolders s' = slotHolders s /\
  queued s' = queued s.

Lemma slots_wf_same s s' : same_slots s s' -> slots_wf s -> slots_wf s'.
Proof.
  intros (E1 & E2 & E3) [H1 H2 H3 H4 H5].
  split; unfold waits_at in *; rewrite ?E1, ?E2, ?E3; done.
Qed.

Lemma slots_wf_new db : slots_wf (newMemoryState db).
Proof.
  split; simpl.
  - intros k slot H. by rewrite lookup_empty in H.
  - intros id k. rewrite lookup_empty. split; [done|].
    intros (slot & H & _). by rewrite lookup_empty in H.
  - intros id k. unfold waits_at; simpl. setoid_rewrite lookup_empty.
    split; [by intros (? & ? & _)|].
    intros (slot & H & _). done.
  - intros k slot H. by rewrite lookup_empty in H.
  - intros id [[? H] _]. by rewrite lookup_empty in H.
Qed.

Lemma same_slots_refl s : same_slots s s.
Proof. done. Qed.

#[export] Instance same_slots_preorder : PreOrder same_slots.
Proof.
  split; [done|]. intros s1 s2 s3 (E1 & E2 & E3) (F1 & F2 & F3).
  unfold same_slots. by rewrite F1, F2, F3.
Qed.

Lemma completePromotion_same now s id : same_slots s (completePromotionLocked now s id).
Proof.
  unfold completePromotionLocked, unpark, same_slots.
  destruct (executions s !! id); repeat case_decide; done.
Qed.

Lemma dropHeld_same s id : same_slots s (dropHeldOutboxLocked s id).
Proof. unfold dropHeldOutboxLocked, same_slots. case_decide; done. Qed.

#[export] Hint Resolve same_slots_refl completePromotion_same dropHeld_same : core.

(** The members a slot key has in a state; an absent slot has none. *)
Definition holders_at (s : memoryState) (k : string) : gset string :=
  ws_holders (slotForLocked s k).
Definition line_at (s : memoryState) (k : string) : list string :=
  ws_queued (slotForLocked s k).

Lemma slots_wf_holders s id k :
  slots_wf s -> slotHolders s !! id = Some k <-> id ∈ holders_at s k.
Proof.
  intros H. rewrite (sw_hold s H). unfold holders_at, slotForLocked.
  destruct (workflowSlots s !! k) as [sl|]; simpl.
  - split; [by intros (? & [= <-] & ?)|eauto].
  - split; [by intros (? & ? & _)|set_solver].
Qed.

Lemma slots_wf_line s id k : slots_wf s -> waits_at s id k <-> id ∈ line_at s k.
Proof.
  intros H. rewrite (sw_line s H). unfold line_at, slotForLocked.
  destruct (workflowSlots s !! k) as [sl|]; simpl.
  - split; [by intros (? & [= <-] & ?)|eauto].
  - split; [by intros (? & ? & _)|]. intros Hin. by apply elem_of_nil in Hin.
Qed.

Lemma slots_wf_nodup s k : slots_wf s -> NoDup (line_at s k).
Proof.
  intros H. unfold line_at, slotForLocked.
  destruct (workflowSlots s !! k) as [sl|] eqn:E; [by eapply sw_nodup|constructor].
Qed.

Lemma slotFor_key s k : slots_wf s -> ws_key (slotForLocked s k) = k.
Proof.
  intros H. unfold slotForLocked.
  destruct (workflowSlots s !! k) as [sl|] eqn:E; [by eapply sw_key|done].
Qed.

(** A step that replaces one slot preserves the invariant when the holder and
    queue maps change accordingly for that slot and for no other. *)
Lemma slots_wf_update s s' slot :
  slots_wf s ->
  workflowSlots s' = <[ws_key slot := slot]> (workflowSlots s) ->
  NoDup (ws_queued slot) ->
  (forall id k, slotHolders s' !! id = Some k <->
     (if decide (k = ws_key slot) then id ∈ ws_holders slot
      else slotHolders s !! id = Some k)) ->
  (forall id k, waits_at s' id k <->
     (if decide (k = ws_key slot) then id ∈ ws_queued slot else waits_at s id k)) ->
  (forall id, ~ (is_Some (slotHolders s' !! id) /\ is_Some (queued s' !! id))) ->
  slots_wf s'.
Proof.
  intros [H1 H2 H3 H4 H5] Ew Hn Hh Hq Hd.
  assert (Hlk : forall k (Q : workflowSlot -> Prop),
    (exists sl, workflowSlots s' !! k = Some sl /\ Q sl) <->
    (if decide (k = ws_key slot) then Q slot
     else exists sl, workflowSlots s !! k = Some sl /\ Q sl)).
  { intros k Q. rewrite Ew. case_decide as E; [subst k|].
    - setoid_rewrite lookup_insert_eq. naive_solver.
    - by setoid_rewrite lookup_insert_ne. }
  split.
  - intros k sl. rewrite Ew. intros [[<- <-]|[? ?]]%lookup_insert_Some; [done|by apply H1].
  - intros id k. rewrite Hh, (Hlk k (fun sl => id ∈ ws_holders sl)).
    case_decide; [done|apply H2].
  - intros id k. rewrite Hq, (Hlk k (fun sl => id ∈ ws_queued sl)). case_decide; [done|apply H3].
  - intros k sl. rewrite Ew. intros [[<- <-]|[? ?]]%lookup_insert_Some; [done|by eapply H4].
  - done.
Qed.

Lemma slots_wf_charge s slot id :
  slots_wf s -> slotForLocked s (ws_key slot) <| ws_limit := ws_limit slot |> = slot ->
  slotHolders s !! id = None -> queued s !! id = None ->
  slots_wf (chargeSlotLocked s slot id).
Proof.
  intros H E Hh Hq.
  eapply (slots_wf_update s _ (slot <| ws_holders ::= fun h => {[id]} ∪ h |>)); simpl.
  - done.
  - done.
  - rewrite <- E. by apply slots_wf_nodup.
  - intros id' k. destruct (decide (id' = id)) as [->|Hid].
    + rewrite lookup_insert_eq. case_decide as Ek; [subst k|naive_solver].
      split; [set_solver|done].
    + rewrite lookup_insert_ne by done. case_decide as Ek; [subst k|done].
      rewrite slots_wf_holders by done. unfold holders_at.
      rewrite <- E at 2. simpl. set_solver.
  - intros id' k. unfold waits_at; simpl. fold (waits_at s id' k).
    case_decide as Ek; [subst k|done]. rewrite slots_wf_line by done.
    unfold line_at. by rewrite <- E at 2.
  - intros id'. destruct (decide (id' = id)) as [->|].
    + rewrite Hq. by intros [_ [? ?]].
    + rewrite lookup_insert_ne by done. apply (sw_disj s H).
Qed.

Lemma slotFor_putSlot s slot : slotForLocked (putSlot s slot) (ws_key slot) = slot.
Proof. unfold slotForLocked, putSlot; simpl. by rewrite lookup_insert_eq. Qed.

Lemma slotFor_put k s slot :
  ws_key slot = k -> slotForLocked (putSlot s slot) k = slot.
Proof. intros <-. apply slotFor_putSlot. Qed.

Lemma slots_wf_setLimit s k l :
  slots_wf s -> slots_wf (putSlot s (slotForLocked s k <| ws_limit := l |>)).
Proof.
  intros H. pose proof (slotFor_key s k H) as Ek.
  eapply (slots_wf_update s _ (slotForLocked s k <| ws_limit := l |>)); simpl.
  - done.
  - done.
  - by apply slots_wf_nodup.
  - intros id k'. case_decide as E; [|done]. subst k'. rewrite Ek.
    by apply slots_wf_holders.
  - intros id k'. unfold waits_at; simpl. fold (waits_at s id k').
    case_decide as E; [|done]. subst k'. rewrite Ek. by apply slots_wf_line.
  - apply (sw_disj s H).
Qed.

Lemma slots_wf_park s slot id d :
  slots_wf s -> slotForLocked s (ws_key slot) = slot ->
  slotHolders s !! id = None -> queued s !! id = None ->
  slots_wf (putSlot s (slot <| ws_queued ::= fun q => q ++ [id] |>)
              <| queued ::= <[id := mkQueued (ws_key slot) d]> |>).
Proof.
  intros H E Hh Hq.
  assert (Hnin : id ∉ ws_queued slot).
  { rewrite <- E. intros Hin%slots_wf_line; [|done].
    destruct Hin as (w & Hw & _). congruence. }
  eapply (slots_wf_update s _ (slot <| ws_queued ::= fun q => q ++ [id] |>)); simpl.
  - done.
  - done.
  - apply NoDup_app. split_and!; [rewrite <- E; by apply slots_wf_nodup|set_solver|].
    apply NoDup_singleton.
  - intros id' k. case_decide as Ek; [|done]. subst k.
    rewrite slots_wf_holders by done. unfold holders_at. by rewrite E.
  - intros id' k. unfold waits_at; simpl. destruct (decide (id' = id)) as [->|Hid].
    + setoid_rewrite lookup_insert_eq. case_decide as Ek; [subst k|].
      * split; [set_solver|]. intros _. by eexists.
      * split; [naive_solver|]. intros (w & Hw & _). congruence.
    + setoid_rewrite lookup_insert_ne; [|done]. fold (waits_at s id' k).
      case_decide as Ek; [subst k|done]. rewrite slots_wf_line by done.
      unfold line_at. rewrite E. set_solver.
  - intros id'. destruct (decide (id' = id)) as [->|].
    + rewrite Hh. by intros [[? ?] _].
    + rewrite lookup_insert_ne by done. apply (sw_disj s H).
Qed.

Lemma chargeOrPark_wf sha now s id a :
  slots_wf s -> slotHolders s !! id = None -> queued s !! id = None ->
  slots_wf (chargeOrParkLocked sha now s id a).1.
Proof.
  intros H Hh Hq. unfold chargeOrParkLocked.
  set (k := ConcurrencyKey _ _ _).
  pose proof (slots_wf_setLimit s k (ca_Limit a) H) as H'.
  pose proof (slotFor_putSlot s (slotForLocked s k <| ws_limit := ca_Limit a |>)) as E.
  set (slot := slotForLocked s k <| ws_limit := ca_Limit a |>) in *.
  set (s' := putSlot s slot) in *.
  assert (Hc : slots_wf (chargeSlotLocked s' slot id)).
  { apply slots_wf_charge; [done| |done|done]. rewrite E. by destruct slot. }
  case_decide; [|case_match; done].
  unfold parkOrChargeLocked. repeat case_bool_decide; cbn [fst]; try done.
  by apply (slots_wf_park s' slot).
Qed.

(** ** Promotion *)

Lemma holding_insert slot id :
  id ∉ ws_holders slot ->
  holding (slot <| ws_holders ::= fun h => {[id]} ∪ h |>) = holding slot + 1.
Proof.
  intros Hin. unfold holding; simpl. rewrite size_union, size_singleton by set_solver. lia.
Qed.

Lemma slots_wf_line_not_holder s k id :
  slots_wf s -> id ∈ line_at s k -> forall k', id ∉ holders_at s k'.
Proof.
  intros H (w & Hw & _)%slots_wf_line k' Hh%slots_wf_holders; [|done..].
  apply (sw_disj s H id). split; by eexists.
Qed.

Lemma promoteOne_wf now s slot s' slot' :
  slots_wf s -> slotForLocked s (ws_key slot) = slot ->
  promoteOne now s slot = Some (s', slot') ->
  slots_wf s' /\ slotForLocked s' (ws_key slot') = slot'.
Proof.
  intros H E. unfold promoteOne. destruct (ws_queued slot) as [|id line] eqn:Eq; [done|].
  case_bool_decide as Hlim; [|done]. intros [= <- <-]. simpl.
  set (sl := slot <| ws_queued := line |> <| ws_holders ::= fun h => {[id]} ∪ h |>).
  match goal with |- slots_wf (completePromotionLocked _ ?x _) /\ _ => set (s1 := x) end.
  assert (Hin : waits_at s id (ws_key slot)).
  { apply slots_wf_line; [done|]. unfold line_at. rewrite E, Eq. by left. }
  pose proof (slots_wf_nodup s (ws_key slot) H) as Hnd.
  unfold line_at in Hnd. rewrite E, Eq in Hnd. apply NoDup_cons in Hnd as [Hni Hnd].
  split; [|destruct (completePromotion_same now s1 id) as (Ew & _ & _);
           unfold slotForLocked; rewrite Ew; simpl; by rewrite lookup_insert_eq].
  eapply slots_wf_same; [apply completePromotion_same|].
  eapply (slots_wf_update s s1 sl); [done|done|done|..]; simpl.
  - intros id' k. destruct (decide (id' = id)) as [->|Hid].
    + rewrite lookup_insert_eq. case_decide as Ek; [subst k; set_solver|].
      split; [naive_solver|]. intros Hk. exfalso.
      destruct Hin as (w & Hw & _). apply (sw_disj s H id). split; by eexists.
    + rewrite lookup_insert_ne by done. case_decide as Ek; [subst k|done].
      rewrite slots_wf_holders by done. unfold holders_at. rewrite E. set_solver.
  - intros id' k. unfold waits_at; simpl. destruct (decide (id' = id)) as [->|Hid].
    + setoid_rewrite lookup_delete_eq. case_decide as Ek; [subst k; naive_solver|].
      split; [naive_solver|]. intros (w & Hw & <-).
      destruct Hin as (w' & Hw' & E'). congruence.
    + setoid_rewrite lookup_delete_ne; [|done]. fold (waits_at s id' k).
      case_decide as Ek; [subst k|done]. rewrite slots_wf_line by done.
      unfold line_at. rewrite E, Eq. set_solver.
  - intros id'. destruct (decide (id' = id)) as [->|].
    + rewrite lookup_delete_eq. by intros [_ [? ?]].
    + rewrite lookup_insert_ne, lookup_delete_ne by done. apply (sw_disj s H).
Qed.

(** The capacity a slot has left, and the slot after the head of its line
    filled it. *)
Definition freeSlots (slot : workflowSlot) : nat :=
  if 0 <? ws_limit slot then Z.to_nat (ws_limit slot - holding slot) else 0%nat.

Definition promoted (slot : workflowSlot) : workflowSlot :=
  slot <| ws_queued := drop (freeSlots slot) (ws_queued slot) |>
       <| ws_holders := list_to_set (take (freeSlots slot) (ws_queued slot)) ∪ ws_holders slot |>.

Lemma promoted_none slot :
  ws_queued slot = [] \/ freeSlots slot = 0%nat -> promoted slot = slot.
Proof.
  unfold promoted. destruct slot as [k h l q]; simpl. intros [-> | ->]; simpl.
  - rewrite drop_nil, take_nil. unfold upd; simpl. f_equal. set_solver.
  - unfold upd; simpl. f_equal. set_solver.
Qed.

Lemma freeSlots_pos slot :
  (0 < ws_limit slot /\ holding slot < ws_limit slot) <-> freeSlots slot <> 0%nat.
Proof. unfold freeSlots. case_match; lia. Qed.

Lemma promoteOne_step now s slot id line :
  slots_wf s -> slotForLocked s (ws_key slot) = slot -> ws_queued slot = id :: line ->
  freeSlots slot <> 0%nat ->
  exists s' slot', promoteOne now s slot = Some (s', slot') /\
    ws_key slot' = ws_key slot /\ ws_queued slot' = line /\
    promoted slot' = promoted slot.
Proof.
  intros H E Eq Hf. unfold promoteOne. rewrite Eq.
  rewrite bool_decide_true by (by apply freeSlots_pos).
  do 2 eexists; split; [done|]. split; [done|]. split; [done|].
  assert (Hnh : id ∉ ws_holders slot).
  { rewrite <- E. apply (slots_wf_line_not_holder s (ws_key slot)); [done|].
    unfold line_at. rewrite E, Eq. by left. }
  unfold promoted at 1. set (slot' := slot <| ws_queued := line |> <| ws_holders ::= _ |>).
  assert (Hfree : freeSlots slot = S (freeSlots slot')).
  { apply freeSlots_pos in Hf as [? ?]. unfold freeSlots.
    change (ws_limit slot') with (ws_limit slot).
    assert (holding slot' = holding slot + 1) as ->
      by (unfold holding; simpl; rewrite size_union, size_singleton by set_solver; lia).
    case_match; lia. }
  unfold promoted. rewrite Hfree, Eq. destruct slot as [k h l q]; unfold upd; simpl.
  f_equal. set_solver.
Qed.

Lemma promoteLoop_spec fuel now s slot :
  slots_wf s -> slotForLocked s (ws_key slot) = slot ->
  (length (ws_queued slot) <= fuel)%nat ->
  let r := promoteLoop fuel now s slot in
  slots_wf r.1 /\ slotForLocked r.1 (ws_key slot) = r.2 /\ r.2 = promoted slot.
Proof.
  revert s slot. induction fuel as [|fuel IH]; intros s slot H E Hl.
  { destruct (ws_queued slot) eqn:Eq; simpl in Hl; [|lia].
    simpl. split_and!; [done|done|]. rewrite promoted_none; auto. }
  destruct (ws_queued slot) as [|id line] eqn:Eq.
  { simpl. unfold promoteOne. rewrite Eq. split_and!; [done..|].
    rewrite promoted_none; auto. }
  destruct (decide (freeSlots slot = 0%nat)) as [Hz|Hz].
  - simpl. unfold promoteOne. rewrite Eq, bool_decide_false.
    2: { rewrite freeSlots_pos. lia. }
    split_and!; [done..|]. rewrite promoted_none; auto.
  - destruct (promoteOne_step now s slot id line H E Eq Hz)
      as (s' & slot' & Ep & Ek & Eq' & Epr).
    destruct (promoteOne_wf now s slot s' slot' H E Ep) as [H' E'].
    simpl. rewrite Ep. rewrite <- Ek, <- Epr. apply IH; [done..|].
    rewrite Eq'. simpl in Hl. lia.
Qed.

Lemma promoteLocked_spec now s slot :
  slots_wf s -> slotForLocked s (ws_key slot) = slot ->
  let r := promoteLocked now s slot in
  slots_wf r.1 /\ slotForLocked r.1 (ws_key slot) = r.2 /\ r.2 = promoted slot.
Proof. intros. by apply promoteLoop_spec. Qed.

(** ** Release *)

(** The slot an execution leaves, after its departure and before promotion. *)
Definition departed (s : memoryState) (id k : string) : workflowSlot :=
  let slot := slotForLocked s k in
  if decide (slotHolders s !! id = Some k)
  then slot <| ws_holders ::= fun h => h ∖ {[id]} |>
  else removeQueued slot id.

Lemma elem_of_removeFirst id line q :
  NoDup line -> q ∈ removeFirst id line <-> q ∈ line /\ q <> id.
Proof.
  induction line as [|a line IH]; intros Hnd; simpl; [set_solver|].
  apply NoDup_cons in Hnd as [Ha Hnd]. case_decide as E; [subst a; set_solver|].
  rewrite !elem_of_cons, IH by done. set_solver.
Qed.

Lemma NoDup_removeFirst id line : NoDup line -> NoDup (removeFirst id line).
Proof.
  induction line as [|a line IH]; intros Hnd; simpl; [done|].
  pose proof Hnd as Hnd'. apply NoDup_cons in Hnd as [Ha Hnd]. case_decide; [done|].
  apply NoDup_cons. split; [|by apply IH]. rewrite elem_of_removeFirst by done. tauto.
Qed.

(** Leaving a slot as a holder or from its line preserves the invariant. *)
Lemma slots_wf_depart s id k :
  slots_wf s -> slotHolders s !! id = Some k \/ waits_at s id k ->
  slots_wf (putSlot s (departed s id k) <| slotHolders ::= delete id |>
              <| queued ::= delete id |>).
Proof.
  intros H Hin. pose proof (slotFor_key s k H) as Ek.
  assert (Ed : ws_key (departed s id k) = k) by (unfold departed; by case_decide).
  assert (Hone : slotHolders s !! id = Some k /\ queued s !! id = None \/
                 slotHolders s !! id = None /\ waits_at s id k).
  { pose proof (sw_disj s H id) as Hd. destruct Hin as [Hh|Hw].
    - left. split; [done|]. destruct (queued s !! id) eqn:E; [|done].
      exfalso. apply Hd. split; by eexists.
    - right. split; [|done]. destruct (slotHolders s !! id) eqn:E; [|done].
      destruct Hw as (w & Hw & _). exfalso. apply Hd. split; by eexists. }
  eapply (slots_wf_update s _ (departed s id k)); [done|done|..]; simpl; rewrite ?Ed.
  - unfold departed. case_decide; simpl; [by apply slots_wf_nodup|].
    apply NoDup_removeFirst. by apply slots_wf_nodup.
  - intros id' k'. assert (Hm : forall x, x ∈ ws_holders (departed s id k) <->
      x ∈ holders_at s k /\ x <> id).
    { intros x. unfold departed, holders_at. case_decide as Eh; simpl; [set_solver|].
      split; [|tauto]. intros Hx. split; [done|]. intros ->.
      apply Eh, slots_wf_holders; done. }
    destruct (decide (id' = id)) as [->|Hid].
    + rewrite lookup_delete_eq. case_decide as E; [rewrite Hm; naive_solver|].
      destruct Hone as [[-> _]|[-> _]]; naive_solver.
    + rewrite lookup_delete_ne by done. case_decide as E; [subst k'|done].
      rewrite Hm, slots_wf_holders by done. naive_solver.
  - intros id' k'. assert (Hm : forall x, x ∈ ws_queued (departed s id k) <->
      x ∈ line_at s k /\ x <> id).
    { intros x. unfold departed, line_at. case_decide as Eh; simpl.
      - split; [|tauto]. intros Hx. split; [done|]. intros ->.
        apply (slots_wf_line s id k H) in Hx as (w & Hw & _).
        apply (sw_disj s H id). split; by eexists.
      - apply elem_of_removeFirst. by apply slots_wf_nodup. }
    unfold waits_at; simpl. destruct (decide (id' = id)) as [->|Hid].
    + setoid_rewrite lookup_delete_eq. case_decide as E; [rewrite Hm; naive_solver|].
      split; [naive_solver|]. intros (w & Hw & Hk).
      destruct Hone as [[_ ?]|[_ (w' & ? & ?)]]; congruence.
    + setoid_rewrite lookup_delete_ne; [|done]. fold (waits_at s id' k').
      case_decide as E; [subst k'|done]. rewrite Hm, slots_wf_line by done. naive_solver.
  - intros id'. destruct (decide (id' = id)) as [->|].
    + rewrite lookup_delete_eq. by intros [[? ?] _].
    + rewrite !lookup_delete_ne by done. apply (sw_disj s H).
Qed.

Lemma slots_wf_drop_empty s k :
  slots_wf s -> holders_at s k = ∅ -> line_at s k = [] ->
  slots_wf (s <| workflowSlots ::= delete k |>).
Proof.
  intros H Hh Hl.
  assert (Hlk : forall k' (Q : workflowSlot -> Prop),
    (k' = k -> forall sl, workflowSlots s !! k = Some sl -> ~ Q sl) ->
    (exists sl, delete k (workflowSlots s) !! k' = Some sl /\ Q sl) <->
    (exists sl, workflowSlots s !! k' = Some sl /\ Q sl)).
  { intros k' Q HQ. destruct (decide (k' = k)) as [->|].
    - setoid_rewrite lookup_delete_eq. split; [naive_solver|].
      intros (sl & Hs & Hq). by destruct (HQ eq_refl sl).
    - by setoid_rewrite lookup_delete_ne. }
  unfold holders_at, line_at, slotForLocked in *. destruct H as [H1 H2 H3 H4 H5].
  split; simpl.
  - intros k' sl [_ ?]%lookup_delete_Some. by apply H1.
  - intros id k'. rewrite H2. symmetry. apply (Hlk k' (fun sl => id ∈ ws_holders sl)).
    intros -> sl Hsl. rewrite Hsl in Hh. simpl in Hh. set_solver.
  - intros id k'. unfold waits_at; simpl. fold (waits_at s id k'). rewrite H3.
    symmetry. apply (Hlk k' (fun sl => id ∈ ws_queued sl)).
    intros -> sl Hsl. rewrite Hsl in Hl. simpl in Hl. rewrite Hl. apply not_elem_of_nil.
  - intros k' sl [_ ?]%lookup_delete_Some. by eapply H4.
  - done.
Qed.

(** The tail of a release: promote, then forget the slot if nobody is left. *)
Definition settle (now : Time) (s : memoryState) (slot : workflowSlot) : memoryState :=
  let '(s, slot) := promoteLocked now s slot in
  if bool_decide (ws_holders slot = ∅ /\ ws_queued slot = [])
  then s <| workflowSlots ::= delete (ws_key slot) |> else s.

Lemma release_cases now s id :
  slots_wf s ->
  releaseWorkflowSlotLocked now s id = s /\ slotHolders s !! id = None /\ queued s !! id = None \/
  exists k s1, (slotHolders s !! id = Some k \/ waits_at s id k) /\
    releaseWorkflowSlotLocked now s id = settle now s1 (departed s id k) /\
    same_slots (putSlot s (departed s id k) <| slotHolders ::= delete id |>
                  <| queued ::= delete id |>) s1.
Proof.
  intros H. unfold releaseWorkflowSlotLocked.
  destruct (slotHolders s !! id) as [k|] eqn:Eh.
  - right. exists k. eexists. split; [by left|].
    assert (queued s !! id = None).
    { destruct (queued s !! id) eqn:E; [|done]. exfalso. apply (sw_disj s H id).
      split; by eexists. }
    unfold departed. rewrite decide_True by done. split; [done|].
    unfold same_slots, putSlot; simpl. split_and!; [done|done|by rewrite delete_id].
  - destruct (queued s !! id) as [w|] eqn:Eq; [|by left].
    right. exists (qe_slot w). eexists. split; [right; by exists w|].
    unfold departed. rewrite decide_False by congruence. split; [done|].
    destruct (dropHeld_same (putSlot (s <| queued ::= delete id |>)
      (removeQueued (slotForLocked s (qe_slot w)) id)) id) as (E1 & E2 & E3).
    unfold same_slots. rewrite E1, E2, E3. simpl. by rewrite delete_id.
Qed.

Lemma promoteLoop_other fuel now s slot k :
  k <> ws_key slot ->
  workflowSlots (promoteLoop fuel now s slot).1 !! k = workflowSlots s !! k /\
  ws_key (promoteLoop fuel now s slot).2 = ws_key slot.
Proof.
  revert s slot. induction fuel as [|fuel IH]; intros s slot Hk; simpl; [done|].
  destruct (promoteOne now s slot) as [[s' slot']|] eqn:E; [|done].
  unfold promoteOne in E. destruct (ws_queued slot) as [|id line]; [done|].
  case_bool_decide; [|done]. simplify_eq.
  match goal with |- context [promoteLoop fuel now ?x ?y] =>
    destruct (IH x y Hk) as [-> ->] end.
  split; [|done].
  match goal with |- workflowSlots (completePromotionLocked _ ?x _) !! _ = _ =>
    destruct (completePromotion_same now x id) as (-> & _ & _) end.
  unfold putSlot; simpl. by rewrite lookup_insert_ne.
Qed.

Lemma settle_spec now s slot :
  slots_wf s -> slotForLocked s (ws_key slot) = slot ->
  slots_wf (settle now s slot) /\
  holders_at (settle now s slot) (ws_key slot) = ws_holders (promoted slot) /\
  line_at (settle now s slot) (ws_key slot) = ws_queued (promoted slot) /\
  (forall sl, workflowSlots (settle now s slot) !! ws_key slot = Some sl ->
     sl = promoted slot) /\
  (forall k, k <> ws_key slot ->
     workflowSlots (settle now s slot) !! k = workflowSlots s !! k).
Proof.
  intros H E. unfold settle.
  pose proof (promoteLocked_spec now s slot H E) as (H' & E' & E2).
  pose proof (fun k => promoteLoop_other (length (ws_queued slot)) now s slot k) as Ho.
  fold (promoteLocked now s slot) in Ho.
  destruct (promoteLocked now s slot) as [s' sl]. cbn [fst snd] in *.
  rewrite E2 in E' |- *. 
  case_bool_decide as Hempty.
  - destruct Hempty as [Hh Hl]. change (ws_key (promoted slot)) with (ws_key slot).
    split_and!.
    + apply slots_wf_drop_empty; [done|..].
      * unfold holders_at. by rewrite E'.
      * unfold line_at. by rewrite E'.
    + rewrite Hh. unfold holders_at, slotForLocked; simpl. by rewrite lookup_delete_eq.
    + rewrite Hl. unfold line_at, slotForLocked; simpl. by rewrite lookup_delete_eq.
    + simpl. intros sl'. by rewrite lookup_delete_eq.
    + intros k Hne. simpl. rewrite lookup_delete_ne by done. by apply Ho.
  - split_and!; [done|by unfold holders_at; rewrite E'|by unfold line_at; rewrite E'| |].
    + intros sl' Hsl. unfold slotForLocked in E'. rewrite Hsl in E'. done.
    + intros k Hne. by apply Ho.
Qed.

Lemma elem_of_promoted_holders x slot :
  x ∈ ws_holders (promoted slot) -> x ∈ ws_queued slot \/ x ∈ ws_holders slot.
Proof.
  simpl. rewrite elem_of_union, elem_of_list_to_set. intros [Hx|?]; [left|by right].
  by eapply subseteq_take.
Qed.

Lemma elem_of_promoted_line x slot : x ∈ ws_queued (promoted slot) -> x ∈ ws_queued slot.
Proof. simpl. apply subseteq_drop. Qed.

(** Everything a release does to the slot bookkeeping. *)
Lemma release_spec now s id :
  slots_wf s ->
  let s' := releaseWorkflowSlotLocked now s id in
  slots_wf s' /\ slotHolders s' !! id = None /\ queued s' !! id = None /\
  (s' = s \/ exists k, (slotHolders s !! id = Some k \/ waits_at s id k) /\
     holders_at s' k = ws_holders (promoted (departed s id k)) /\
     line_at s' k = ws_queued (promoted (departed s id k)) /\
     (forall sl, workflowSlots s' !! k = Some sl -> sl = promoted (departed s id k)) /\
     (forall k', k' <> k -> workflowSlots s' !! k' = workflowSlots s !! k')).
Proof.
  intros H. simpl. destruct (release_cases now s id H)
    as [(-> & Hh & Hq)|(k & s1 & Hin & -> & Hs1)]; [by split_and!; try left|].
  pose proof (slots_wf_same _ _ Hs1 (slots_wf_depart s id k H Hin)) as H1.
  assert (Ek : ws_key (departed s id k) = k).
  { unfold departed. case_decide; by apply slotFor_key. }
  assert (E1 : slotForLocked s1 (ws_key (departed s id k)) = departed s id k).
  { destruct Hs1 as (Ew & _ & _). unfold slotForLocked. rewrite Ew. simpl.
    by rewrite lookup_insert_eq. }
  destruct (settle_spec now s1 (departed s id k) H1 E1) as (H2 & Hh & Hl & Hsl & Hoth).
  rewrite Ek in Hh, Hl, Hsl, Hoth.
  assert (Hg1 : forall k', id ∉ holders_at s1 k' /\ id ∉ line_at s1 k').
  { destruct Hs1 as (_ & Eh & Eq). intros k'.
    rewrite <- slots_wf_holders, <- slots_wf_line by done. unfold waits_at.
    rewrite Eh, Eq. simpl. rewrite !lookup_delete_eq. naive_solver. }
  assert (Hgone : forall k', id ∉ holders_at (settle now s1 (departed s id k)) k' /\
                             id ∉ line_at (settle now s1 (departed s id k)) k').
  { intros k'. destruct (decide (k' = k)) as [->|Hne].
    - destruct (Hg1 k) as [Hg2 Hg3]. unfold holders_at, line_at in Hg2, Hg3.
      rewrite <- Ek, E1 in Hg2, Hg3. rewrite Hh, Hl.
      split; [intros [?|?]%elem_of_promoted_holders; tauto|].
      intros ?%elem_of_promoted_line. tauto.
    - unfold holders_at, line_at, slotForLocked. rewrite Hoth by done. apply Hg1. }
  split_and!; [done|..].
  - destruct (slotHolders (settle now s1 (departed s id k)) !! id) as [k'|] eqn:E;
      [|done].
    apply slots_wf_holders in E; [|done]. by destruct (Hgone k').
  - destruct (queued (settle now s1 (departed s id k)) !! id) as [w|] eqn:E; [|done].
    destruct (Hgone (qe_slot w)) as [_ Hn]. exfalso.
    apply Hn, slots_wf_line; [done|]. by exists w.
  - right. exists k. split_and!; try done. intros k' Hne. rewrite Hoth by done.
    destruct Hs1 as (-> & _ & _). simpl. rewrite lookup_insert_ne by congruence. done.
Qed.

(** ** Reachable slot states

    The slot bookkeeping changes by admissions of executions that neither hold
    a slot nor wait for one, and by releases; every other transition of the
    store leaves it alone.  [lim] is the limit each workflow declares. *)

Inductive slot_step (sha256hex : string -> string) (lim : string -> Z)
    : memoryState -> memoryState -> Prop :=
| step_admit now s id a :
    slotHolders s !! id = None -> queued s !! id = None ->
    ca_Limit a = lim (ConcurrencyKey sha256hex (ca_Namespace a) (ca_Workflow a)) ->
    slot_step sha256hex lim s (chargeOrParkLocked sha256hex now s id a).1
| step_release now s id :
    slot_step sha256hex lim s (releaseWorkflowSlotLocked now s id)
| step_other s s' :
    same_slots s s' -> slot_step sha256hex lim s s'.

Definition slot_reachable (sha256hex : string -> string) (lim : string -> Z)
    (db : bool) (s : memoryState) : Prop :=
  rtc (slot_step sha256hex lim) (newMemoryState db) s.

(** At most [lim] holders, and nobody waits while capacity is free. *)
Definition slot_full_or_idle (limit : Z) (slot : workflowSlot) : Prop :=
  ws_limit slot = limit /\ holding slot <= limit /\
  (ws_queued slot <> [] -> holding slot = limit).

Lemma slot_step_wf sha lim s s' : slot_step sha lim s s' -> slots_wf s -> slots_wf s'.
Proof.
  destruct 1 as [now s id a Hh Hq _|now s id|s s' Hs]; intros H.
  - by apply chargeOrPark_wf.
  - by apply release_spec.
  - by eapply slots_wf_same.
Qed.

Lemma holding_promoted slot :
  NoDup (ws_queued slot) -> (forall x, x ∈ ws_queued slot -> x ∉ ws_holders slot) ->
  holding (promoted slot)
  = holding slot + Z.of_nat (Nat.min (freeSlots slot) (length (ws_queued slot))).
Proof.
  intros Hn Hd. unfold holding. simpl. rewrite size_union.
  - rewrite size_list_to_set, length_take by (by apply NoDup_take). lia.
  - intros x Hx Hx'. apply elem_of_list_to_set in Hx. apply (Hd x); [|done].
    by eapply subseteq_take.
Qed.

Lemma departed_disjoint s id k x :
  slots_wf s -> x ∈ ws_queued (departed s id k) -> x ∉ ws_holders (departed s id k).
Proof.
  intros H Hx Hh. apply (slots_wf_line_not_holder s k x H) with (k' := k);
    revert Hx Hh; unfold departed, line_at, holders_at; case_decide; simpl.
  - done.
  - intros Hx _. apply elem_of_removeFirst in Hx; [tauto|by apply slots_wf_nodup].
  - set_solver.
  - done.
Qed.

Lemma promoted_full_or_idle limit slot :
  0 < limit -> ws_limit slot = limit -> holding slot <= limit ->
  NoDup (ws_queued slot) -> (forall x, x ∈ ws_queued slot -> x ∉ ws_holders slot) ->
  slot_full_or_idle limit (promoted slot).
Proof.
  intros Hl El Hh Hn Hd. unfold slot_full_or_idle. rewrite holding_promoted by done.
  split; [done|]. simpl. unfold freeSlots. rewrite El.
  destruct (Z.ltb_spec 0 limit); [|lia]. split; [lia|].
  intros Hq. assert (Z.to_nat (limit - holding slot) < length (ws_queued slot))%nat; [|lia].
  destruct (decide (Z.to_nat (limit - holding slot) < length (ws_queued slot))%nat);
    [done|]. exfalso. apply Hq, drop_ge. lia.
Qed.

Lemma holding_departed s id k : holding (departed s id k) <= holding (slotForLocked s k).
Proof.
  unfold departed, holding. case_decide; simpl; [|lia].
  apply inj_le, subseteq_size. set_solver.
Qed.

Lemma slot_step_full_or_idle sha lim s s' :
  (forall k, 0 < lim k) -> slot_step sha lim s s' -> slots_wf s ->
  (forall k slot, workflowSlots s !! k = Some slot -> slot_full_or_idle (lim k) slot) ->
  forall k slot, workflowSlots s' !! k = Some slot -> slot_full_or_idle (lim k) slot.
Proof.
  intros Hlim Hstep H Hinv.
  assert (Hfor : forall k, slot_full_or_idle (lim k)
                   (slotForLocked s k <| ws_limit := lim k |>)).
  { intros k. unfold slotForLocked. destruct (workflowSlots s !! k) as [sl|] eqn:E.
    - destruct (Hinv k sl E) as (El & Hh & Hq). simpl. by split_and!.
    - specialize (Hlim k). split_and!; [done| |done].
      assert (holding (mkSlot k ∅ 0 [] <| ws_limit := lim k |>) = 0) by done. simpl. lia. }
  destruct Hstep as [now s id a Hh Hq El|now s id|s s' (Ew & _ & _)].
  - unfold chargeOrParkLocked. set (k0 := ConcurrencyKey _ _ _) in *. rewrite El.
    specialize (Hfor k0).
    set (slot := slotForLocked s k0 <| ws_limit := lim k0 |>) in *.
    assert (Ek : ws_key slot = k0) by (by apply slotFor_key).
    assert (Hni : id ∉ ws_holders slot).
    { intros Hin. apply (slots_wf_holders s id k0 H) in Hin. congruence. }
    destruct Hfor as (_ & Hle & Hfull).
    assert (Hput : forall sl', ws_key sl' = k0 -> slot_full_or_idle (lim k0) sl' ->
      forall k sl, <[ws_key sl' := sl']> (<[ws_key slot := slot]> (workflowSlots s)) !! k
                   = Some sl -> slot_full_or_idle (lim k) sl).
    { intros sl' E Hok k sl. rewrite Ek, E, insert_insert_eq.
      intros [[<- <-]|[? ?]]%lookup_insert_Some; [done|by apply Hinv]. }
    assert (Hsame : forall k sl, <[ws_key slot := slot]> (workflowSlots s) !! k = Some sl ->
      slot_full_or_idle (lim k) sl).
    { intros k sl. rewrite Ek. intros [[<- <-]|[? ?]]%lookup_insert_Some;
        [done|by apply Hinv]. }
    assert (Hcharge : holding slot < lim k0 -> forall k sl,
      workflowSlots (chargeSlotLocked (putSlot s slot) slot id) !! k = Some sl ->
      slot_full_or_idle (lim k) sl).
    { intros Hlt. apply Hput; [done|]. unfold slot_full_or_idle.
      assert (holding (slot <| ws_holders ::= fun h => {[id]} ∪ h |>) = holding slot + 1)
        as -> by (by apply holding_insert).
      split; [done|]. split; [lia|]. intros Hq'. specialize (Hfull Hq'). lia. }
    case_decide; [|destruct (Z.leb_spec (lim k0) (holding slot)); simpl;
                   [done|by apply Hcharge]].
    unfold parkOrChargeLocked. case_bool_decide as Hroom;
      [by apply Hcharge, Hroom|].
    case_bool_decide; [done|]. apply Hput; [done|].
    split_and!; [done|done|]. intros _. change (holding slot = lim k0).
    destruct (decide (ws_queued slot = [])) as [E|]; [|by apply Hfull].
    assert (~ holding slot < lim k0); [|lia].
    intros Hlt. apply Hroom. split; [done|]. unfold waiting. by rewrite E.
  - destruct (release_spec now s id H) as (_ & _ & _ & [->|(k & Hin & _ & _ & Hk & Ho)]);
      [done|]. intros k' sl Hsl. destruct (decide (k' = k)) as [->|Hne].
    + rewrite (Hk sl Hsl).
      assert (exists sl0, workflowSlots s !! k = Some sl0) as [sl0 Hsl0].
      { destruct Hin as [Hin|Hin]; [apply (sw_hold s H) in Hin|apply (sw_line s H) in Hin];
          destruct Hin as (sl0 & ? & _); eauto. }
      assert (Es : slotForLocked s k = sl0) by (unfold slotForLocked; by rewrite Hsl0).
      destruct (Hinv k sl0 Hsl0) as (El & Hle & _). apply promoted_full_or_idle.
      * done.
      * unfold departed. rewrite Es. by case_decide.
      * pose proof (holding_departed s id k). rewrite Es in *. lia.
      * pose proof (slots_wf_nodup s k H). unfold departed.
        case_decide; [done|by apply NoDup_removeFirst].
      * intros x. by apply departed_disjoint.
    + apply Hinv. by rewrite <- Ho.
  - intros k sl. rewrite Ew. apply Hinv.
Qed.

Lemma slot_reachable_inv sha lim db s :
  (forall k, 0 < lim k) -> slot_reachable sha lim db s ->
  slots_wf s /\
  forall k slot, workflowSlots s !! k = Some slot -> slot_full_or_idle (lim k) slot.
Proof.
  intros Hlim. revert s. apply rtc_ind_r.
  - split; [apply slots_wf_new|]. intros k slot Hk. simpl in Hk. by rewrite lookup_empty in Hk.
  - intros s s' _ Hs [H Hinv]. split; [by eapply slot_step_wf|].
    by eapply slot_step_full_or_idle.
Qed.

(** In every state the slot machine reaches under fixed positive limits, the slot
    bookkeeping is consistent, a workflow never has more holders than its
    limit, and no execution waits while a slot of its workflow is free. *)
Lemma slot_reachable_capacity sha256hex lim db s k :
  (forall k, 0 < lim k) -> slot_reachable sha256hex lim db s ->
  slots_wf s /\ Z.of_nat (size (holders_at s k)) <= lim k /\
  (line_at s k <> [] -> Z.of_nat (size (holders_at s k)) = lim k).
Proof.
  intros Hlim Hr. destruct (slot_reachable_inv _ _ _ _ Hlim Hr) as [H Hinv].
  split; [done|]. unfold holders_at, line_at, slotForLocked.
  destruct (workflowSlots s !! k) as [slot|] eqn:E; simpl.
  - destruct (Hinv k slot E) as (_ & ? & ?). by split.
  - split; [|done]. apply Z.lt_le_incl, Hlim.
Qed.

(** ** What promotion does to the promoted executions *)

Definition startEntry (now : Time) (e : execEntry) : execEntry :=
  if decide (status e = ExecutionStatusQueued)
  then setStatus now ExecutionStatusRunning e else e.

Definition unparkEntry (e : memoryOutboxEntry) : memoryOutboxEntry :=
  if isHeld e then setAvailable zeroTime e else e.

Lemma completePromotion_exec now s id x :
  executions (completePromotionLocked now s id) !! x
  = (if decide (x = id) then startEntry now <$> executions s !! x else executions s !! x).
Proof.
  unfold completePromotionLocked, startEntry, unpark.
  assert (Hsame : forall s', executions s' = executions s ->
    executions (if decide (id ∈ mirrorCreatePending s') then s' else
      s' <| outbox ::= alter (fmap (fun e => if isHeld e then setAvailable zeroTime e else e)) id |>)
    !! x = executions s !! x) by (intros s' E; case_decide; simpl; by rewrite E).
  destruct (decide (x = id)) as [->|Hne].
  - destruct (executions s !! id) as [e|] eqn:Ee; simpl; [|by rewrite Hsame].
    destruct (decide (status e = ExecutionStatusQueued)).
    + case_decide; simpl; by rewrite lookup_insert_eq.
    + by rewrite Hsame.
  - destruct (executions s !! id) as [e|] eqn:Ee; [|by apply Hsame].
    destruct (decide (status e = ExecutionStatusQueued)); [|by apply Hsame].
    case_decide; simpl; by rewrite lookup_insert_ne.
Qed.

Lemma completePromotion_outbox now s id x :
  outbox (completePromotionLocked now s id) !! x
  = (if decide (x = id /\ id ∉ mirrorCreatePending s)
     then fmap unparkEntry <$> outbox s !! x else outbox s !! x) /\
  mirrorCreatePending (completePromotionLocked now s id) = mirrorCreatePending s.
Proof.
  unfold completePromotionLocked, unpark.
  set (s1 := match executions s !! id with Some e => _ | None => s end).
  assert (E1 : outbox s1 = outbox s /\ mirrorCreatePending s1 = mirrorCreatePending s).
  { unfold s1. destruct (executions s !! id); [|done]. by case_decide. }
  destruct E1 as [E1 E2]. rewrite E2. split; [|by case_decide; simpl].
  destruct (decide (id ∈ mirrorCreatePending s)) as [Hp|Hp].
  - rewrite decide_False by tauto. by rewrite E1.
  - simpl. rewrite E1. destruct (decide (x = id)) as [->|Hne].
    + rewrite decide_True by done. by rewrite lookup_alter_eq.
    + rewrite decide_False by tauto. by rewrite lookup_alter_ne.
Qed.

(** The executions a slot promotes. *)
Definition heads (slot : workflowSlot) : list string :=
  take (freeSlots slot) (ws_queued slot).

Lemma promoteOne_heads now s slot s' slot' :
  slots_wf s -> slotForLocked s (ws_key slot) = slot ->
  promoteOne now s slot = Some (s', slot') ->
  exists id s1, heads slot = id :: heads slot' /\ id ∉ ws_queued slot' /\
    s' = completePromotionLocked now s1 id /\
    executions s1 = executions s /\ outbox s1 = outbox s /\
    mirrorCreatePending s1 = mirrorCreatePending s.
Proof.
  intros H E Ep. pose proof Ep as Ep'. unfold promoteOne in Ep.
  destruct (ws_queued slot) as [|id line] eqn:Eq; [done|].
  case_bool_decide as Hc; [|done]. simplify_eq.
  assert (Hnh : id ∉ ws_holders slot).
  { rewrite <- E. apply (slots_wf_line_not_holder s (ws_key slot)); [done|].
    unfold line_at. rewrite E, Eq. by left. }
  exists id. eexists. split_and!; [|..|reflexivity|done|done|done].
  - unfold heads. rewrite Eq. simpl.
    set (sl := slot <| ws_queued := line |> <| ws_holders ::= fun h => {[id]} ∪ h |>).
    assert (Hh : holding sl = holding slot + 1)
      by (unfold holding; simpl; rewrite size_union, size_singleton by set_solver; lia).
    assert (freeSlots slot = S (freeSlots sl)) as ->; [|done].
    unfold freeSlots. change (ws_limit sl) with (ws_limit slot). rewrite Hh.
    case_match; lia.
  - simpl. pose proof (slots_wf_nodup s (ws_key slot) H) as Hnd.
    unfold line_at in Hnd. rewrite E, Eq in Hnd. by apply NoDup_cons in Hnd as [? _].
Qed.

Lemma promoteLoop_effects fuel now s slot x :
  slots_wf s -> slotForLocked s (ws_key slot) = slot ->
  (length (ws_queued slot) <= fuel)%nat ->
  let s' := (promoteLoop fuel now s slot).1 in
  executions s' !! x = (if decide (x ∈ heads slot)
    then startEntry now <$> executions s !! x else executions s !! x) /\
  outbox s' !! x = (if decide (x ∈ heads slot /\ x ∉ mirrorCreatePending s)
    then fmap unparkEntry <$> outbox s !! x else outbox s !! x) /\
  mirrorCreatePending s' = mirrorCreatePending s.
Proof.
  revert s slot. induction fuel as [|fuel IH]; intros s slot H E Hl; simpl.
  { destruct (ws_queued slot) eqn:Eq; simpl in Hl; [|lia]. unfold heads.
    rewrite Eq, take_nil. rewrite !decide_False by set_solver. done. }
  destruct (promoteOne now s slot) as [[s1 slot1]|] eqn:Ep.
  - destruct (promoteOne_heads now s slot s1 slot1 H E Ep)
      as (id & s0 & Eh & Hni & -> & Ee & Eo & Em).
    destruct (promoteOne_wf now s slot _ slot1 H E Ep) as [H1 E1].
    destruct (IH _ slot1 H1 E1) as (IHe & IHo & IHm).
    { revert Ep Hl. unfold promoteOne. destruct (ws_queued slot); [done|].
      case_bool_decide; [|done]. intros [= _ <-]. simpl. lia. }
    destruct (completePromotion_outbox now s0 id x) as [Co Cm].
    rewrite IHe, IHo, IHm, completePromotion_exec, Co, Cm, Ee, Eo, Em, Eh.
    assert (Hni' : id ∉ heads slot1)
      by (unfold heads; intros Hin; apply Hni; by eapply subseteq_take).
    destruct (decide (x = id)) as [->|Hne].
    + rewrite (decide_False (P := id ∈ heads slot1)) by done.
      rewrite (decide_True (P := id ∈ id :: heads slot1)) by (by left).
      rewrite (decide_False (P := id ∈ heads slot1 /\ _)) by tauto.
      split_and!; [done| |done].
      assert (Hin : id ∈ id :: heads slot1) by (by left).
      destruct (decide (id ∈ mirrorCreatePending s)).
      * by rewrite !decide_False by tauto.
      * by rewrite !decide_True by tauto.
    + rewrite !(decide_ext (x ∈ id :: heads slot1) (x ∈ heads slot1)) by set_solver.
      split_and!; [done| |done].
      rewrite (decide_False (P := x = id /\ _)) by tauto.
      rewrite (decide_ext (x ∈ id :: heads slot1 /\ x ∉ mirrorCreatePending s)
        (x ∈ heads slot1 /\ x ∉ mirrorCreatePending s)) by set_solver. done.
  - assert (heads slot = []) as ->.
    { unfold promoteOne in Ep. unfold heads. destruct (ws_queued slot); [apply take_nil|].
      case_bool_decide as Hc; [done|]. rewrite freeSlots_pos in Hc.
      by assert (freeSlots slot = 0%nat) as -> by lia. }
    rewrite !decide_False by set_solver. done.
Qed.

(** ** The queue position *)

Lemma linePosition_lookup id line (i : nat) o :
  NoDup line -> line !! i = Some id -> linePosition id line o = o + Z.of_nat i + 1.
Proof.
  revert i o. induction line as [|q line IH]; intros i o Hnd Hi; [done|]. simpl.
  apply NoDup_cons in Hnd as [Hq Hnd]. destruct i as [|i]; simpl in Hi.
  - simplify_eq. rewrite decide_True by done. lia.
  - rewrite decide_False by (intros ->; apply Hq; by eapply list_elem_of_lookup_2).
    rewrite (IH i) by done. lia.
Qed.

(** ** A worked line

    Three queue-mode submissions against a limit of one. *)

Definition demoAdmission : ConcurrencyAdmission :=
  mkAdmission "ns" "wf" 1 ConcurrencyModeQueue 0 0.
Definition demoKey : string := ConcurrencyKey (fun p => p) "ns" "wf".
Definition demoAdmit (s : memoryState) (id : string) : memoryState :=
  (chargeOrParkLocked (fun p => p) 1 s id demoAdmission).1.
Definition demoLine : memoryState :=
  demoAdmit (demoAdmit (demoAdmit (newMemoryState false) "e1") "e2") "e3".

Lemma demoLine_wf : slots_wf demoLine.
Proof. repeat (apply chargeOrPark_wf; [|done|done]). apply slots_wf_new. Qed.

(** ** Main results *)

Lemma departed_holder s id k :
  slotHolders s !! id = Some k ->
  departed s id k = slotForLocked s k <| ws_holders ::= fun h => h ∖ {[id]} |>.
Proof. intros Hh. unfold departed. by rewrite decide_True. Qed.

Lemma release_holder_eq now s id k :
  slotHolders s !! id = Some k ->
  releaseWorkflowSlotLocked now s id
  = settle now (putSlot (s <| slotHolders ::= delete id |>) (departed s id k))
      (departed s id k).
Proof.
  intros Hh. rewrite departed_holder by done. unfold releaseWorkflowSlotLocked.
  by rewrite Hh.
Qed.

(** Nothing of a started execution's outbox is held. *)
Lemma unparkEntry_not_held (m : gmap string memoryOutboxEntry) e eid :
  (unparkEntry <$> m) !! eid = Some e -> isHeld e = false.
Proof.
  rewrite lookup_fmap, fmap_Some. intros (e0 & _ & ->). unfold unparkEntry.
  destruct (isHeld e0) eqn:E; [|done]. unfold isHeld, setAvailable, Equal; simpl.
  by vm_compute.
Qed.

(** When a holder leaves, the head of the line fills exactly the free
    capacity in waiting order, everyone behind keeps their order, and each
    promoted execution that was queued is running with no held intent (unless
    its durable row is still being created). *)
Theorem release_promotes_in_order now s id k :
  slots_wf s -> slotHolders s !! id = Some k ->
  let n := freeSlots (slotForLocked s k <| ws_holders ::= fun h => h ∖ {[id]} |>) in
  let s' := releaseWorkflowSlotLocked now s id in
  line_at s' k = drop n (line_at s k) /\
  holders_at s' k = list_to_set (take n (line_at s k)) ∪ holders_at s k ∖ {[id]} /\
  forall x e, x ∈ take n (line_at s k) -> executions s !! x = Some e ->
    status e = ExecutionStatusQueued ->
    (exists e', executions s' !! x = Some e' /\ status e' = ExecutionStatusRunning) /\
    (x ∉ mirrorCreatePending s -> forall eid o, outboxOf s' x !! eid = Some o ->
       isHeld o = false).
Proof.
  intros H Hh. simpl.
  destruct (release_spec now s id H) as (_ & Hg & _ & [Heq|(k' & Hin & Hho & Hl & _)]).
  { rewrite Heq in Hg. congruence. }
  assert (k' = k) as ->.
  { destruct Hin as [?|(w & Hw & _)]; [congruence|]. exfalso.
    apply (sw_disj s H id). split; by eexists. }
  rewrite departed_holder in Hho, Hl by done. split_and!; [done|done|].
  intros x e Hx He Hq. rewrite (release_holder_eq now s id k Hh), departed_holder by done.
  set (slot := slotForLocked s k <| ws_holders ::= fun h => h ∖ {[id]} |>) in *.
  set (s1 := putSlot (s <| slotHolders ::= delete id |>) slot).
  assert (Hs1 : slots_wf s1).
  { eapply slots_wf_same; [|by apply (slots_wf_depart s id k); [|left]].
    rewrite departed_holder by done. split_and!; [done|done|].
    simpl. rewrite delete_id; [done|]. destruct (queued s !! id) eqn:E; [|done].
    exfalso. apply (sw_disj s H id). split; by eexists. }
  assert (E1 : slotForLocked s1 (ws_key slot) = slot) by apply slotFor_putSlot.
  destruct (promoteLoop_effects (length (ws_queued slot)) now s1 slot x Hs1 E1)
    as (Ee & Eo & _); [done|].
  change (promoteLoop (length (ws_queued slot)) now s1 slot)
    with (promoteLocked now s1 slot) in *.
  rewrite decide_True in Ee by done. unfold settle.
  destruct (promoteLocked now s1 slot) as [s2 sl2]. simpl in Ee, Eo.
  assert (Ee2 : executions s2 !! x = Some (setStatus now ExecutionStatusRunning e)).
  { rewrite Ee, He. simpl. unfold startEntry. by rewrite decide_True. }
  split.
  - case_bool_decide; simpl; eexists; (split; [exact Ee2|done]).
  - intros Hp eid o. rewrite decide_True in Eo by done. unfold outboxOf.
    assert (Hout : outbox (if bool_decide (ws_holders sl2 = ∅ /\ ws_queued sl2 = [])
      then s2 <| workflowSlots ::= delete (ws_key sl2) |> else s2) !! x
      = fmap unparkEntry <$> outbox s !! x) by (case_bool_decide; exact Eo).
    rewrite Hout. destruct (outbox s !! x) as [m|]; simpl; [|by rewrite lookup_empty].
    apply unparkEntry_not_held.
Qed.

Lemma release_promotes_in_order_witness :
  line_at (releaseWorkflowSlotLocked 2 demoLine "e1") demoKey = ["e3"].
Proof. by destruct (release_promotes_in_order 2 demoLine "e1" demoKey demoLine_wf) as [-> _]. Defined.

(** A refused submission writes nothing but the limit of the slot it was
    refused by: the recorded limit becomes the one the refused submission
    declared. *)
Theorem refused_submission_effect sha256hex now s id a err :
  (chargeOrParkLocked sha256hex now s id a).2 = inl err ->
  (chargeOrParkLocked sha256hex now s id a).1
  = putSlot s (slotForLocked s (ConcurrencyKey sha256hex (ca_Namespace a) (ca_Workflow a))
                 <| ws_limit := ca_Limit a |>).
Proof.
  unfold chargeOrParkLocked, parkOrChargeLocked.
  case_decide; repeat case_bool_decide; repeat case_match; simpl; done.
Qed.

Lemma refused_submission_effect_witness :
  ws_limit (slotForLocked (chargeOrParkLocked (fun p => p) 2 demoLine "e4"
    (mkAdmission "ns" "wf" 0 ConcurrencyModeReject 0 0)).1 demoKey) = 0.
Proof.
  rewrite (refused_submission_effect (fun p => p) 2 demoLine "e4"
    (mkAdmission "ns" "wf" 0 ConcurrencyModeReject 0 0) ErrConcurrencyLimit);
    by vm_compute.
Defined.

(** An admission never fills capacity for the executions already waiting:
    while the line is not empty a queue-mode submission leaves the holders as
    they are, whatever limit it declares, and joins the end of the line. *)
Theorem queue_admission_never_promotes sha256hex now s id a :
  let k := ConcurrencyKey sha256hex (ca_Namespace a) (ca_Workflow a) in
  let r := chargeOrParkLocked sha256hex now s id a in
  slots_wf s -> ca_Mode a = ConcurrencyModeQueue -> line_at s k <> [] ->
  holders_at r.1 k = holders_at s k /\
  line_at r.1 k = line_at s k ++ (match r.2 with inr true => [id] | _ => [] end) /\
  r.2 <> inr false.
Proof.
  simpl. intros H Hm Hl. unfold chargeOrParkLocked. rewrite decide_True by done.
  set (k := ConcurrencyKey _ _ _) in *.
  pose proof (slotFor_key s k H) as Ek. unfold parkOrChargeLocked.
  rewrite bool_decide_false.
  2: { intros [_ Hw]. unfold waiting in Hw. simpl in Hw. apply Hl. unfold line_at.
       destruct (ws_queued (slotForLocked s k)); [done|simpl in Hw; lia]. }
  case_bool_decide; cbn [fst snd]; unfold holders_at, line_at.
  - rewrite (slotFor_put k) by done. by rewrite (right_id_L [] (++)).
  - match goal with |- context [slotForLocked (upd queued ?f ?s0) k] =>
      change (slotForLocked (upd queued f s0) k) with (slotForLocked s0 k) end.
    by rewrite (slotFor_put k).
Qed.

Lemma queue_admission_never_promotes_witness :
  holders_at (chargeOrParkLocked (fun p => p) 2 demoLine "e4"
    (mkAdmission "ns" "wf" 5 ConcurrencyModeQueue 0 0)).1 demoKey
  = holders_at demoLine demoKey.
Proof.
  apply (queue_admission_never_promotes (fun p => p) 2 demoLine "e4"
    (mkAdmission "ns" "wf" 5 ConcurrencyModeQueue 0 0) demoLine_wf); by vm_compute.
Defined.

(** The reported queue position is the execution's place in the line of the
    slot it waits for, counted from 1, and 0 for an execution that does not
    wait. *)
Theorem queue_position_spec s id :
  slots_wf s ->
  (queued s !! id = None -> queuePositionLocked s id = 0) /\
  (forall k (i : nat), line_at s k !! i = Some id ->
     queuePositionLocked s id = Z.of_nat i + 1).
Proof.
  intros H. unfold queuePositionLocked. split; [by intros ->|].
  intros k i Hi. destruct (proj2 (slots_wf_line s id k H)) as (w & -> & ->);
    [by eapply list_elem_of_lookup_2|].
  rewrite (linePosition_lookup id _ i); [lia|by apply slots_wf_nodup|done].
Qed.

Lemma queue_position_spec_witness : queuePositionLocked demoLine "e3" = 2.
Proof. by apply (queue_position_spec demoLine "e3" demoLine_wf) with (k := demoKey) (i := 1%nat). Defined.

(** The text that is hashed into a slot key determines the namespace and
    the workflow: two workflows share a slot set only through a collision of
    the digest. *)
Theorem concurrencyPayload_inj ns1 wf1 ns2 wf2 :
  concurrencyPayload ns1 wf1 = concurrencyPayload ns2 wf2 -> ns1 = ns2 /\ wf1 = wf2.
Proof.
  intros E. apply length_prefix_inj in E as [-> E].
  split; [done|]. apply (length_prefix_inj wf1 wf2 "" "").
  by rewrite !string_app_nil_r.
Qed.

Lemma concurrencyPayload_inj_witness : "a:1" = "a:1" /\ "b" = "b".
Proof. by apply (concurrencyPayload_inj "a:1" "b" "a:1" "b"). Defined.
