(* ===== verification/Executions.v ===== *)
(** * Execution lifecycle

    The operations of [memory_state.go], [execution_pause.go] and
    [store_mirror.go] that create executions, move their status, and undo a
    create whose durable row could not be written.

    An API method that projects to the durable store runs as two critical
    sections with the store call in between; the first is modelled by the
    definition with the method's name, the second by
    [releaseInitialMirrorHold] (the row landed) or [rollbackCreatedExecution]
    (it did not), so that other operations may run in between. *)

From S2P Require Import Prelude Keys Types Graph State Slots.

(** ** Mirror bookkeeping *)

(** [hint]: the context carries a per-execution transient hint. *)
Definition noteMirrorModeLocked (hint : bool) (s : memoryState) (e : ExecutionSnapshot)
    : memoryState :=
  if negb (dbAttached s) then s
  else
    let transient := match ex_Graph e with Some g => g_transient g | None => false end in
    let transient := if hint then true else transient in
    if transient then s <| mirrorSkip ::= fun m => {[ex_ID e]} ∪ m |>
    else s <| mirrorSkip ::= fun m => m ∖ {[ex_ID e]} |>.

Definition markMirrorCreatePendingLocked (s : memoryState) (id : string)
    : memoryState * bool :=
  if negb (dbAttached s) || bool_decide (id ∈ mirrorSkip s) then (s, false)
  else (s <| mirrorCreatePending ::= fun m => {[id]} ∪ m |>, true).

Definition markMirrorConflict (s : memoryState) (id : string) : memoryState :=
  s <| mirrorSkip ::= fun m => {[id]} ∪ m |> <| mirrorConflict ::= fun m => {[id]} ∪ m |>.

Definition pruneMirrorStateLocked (s : memoryState) (id : string) : memoryState :=
  match executions s !! id with
  | None => s
  | Some e =>
      if negb (IsTerminalExecutionStatus (status e)) || bool_decide (id ∈ mirrorCreatePending s)
      then s
      else if decide (id ∈ mirrorLocks s) then s
      else if decide (id ∈ mirrorConflict s) then s
      else s <| mirrorSkip ::= fun m => m ∖ {[id]} |>
  end.

Definition pruneTransientSkipAfterTerminal (s : memoryState) (id : string) : memoryState :=
  if negb (dbAttached s) then s else pruneMirrorStateLocked s id.

(** ** Creating an execution *)

(** The in-degree counters of the units; compilation gives every unit one. *)
Fixpoint seedInDegrees (id : string) (i : Z) (degrees : list Z) (m : gmap string Z)
    : gmap string Z :=
  match degrees with
  | [] => m
  | d :: degrees => seedInDegrees id (i + 1) degrees (<[memoryCounterKey id i := d]> m)
  end.

Definition unitDegrees (g : Graph) : list Z :=
  map (fun i => default 0 (g_unitInDegree g !! i)) (seq 0 (UnitCount g)).

Definition createExecutionLocked (now : Time) (s : memoryState) (e : ExecutionSnapshot)
    : memoryState :=
  let id := ex_ID e in
  let s := s <| rolledBack ::= fun m => m ∖ {[id]} |>
             <| mirrorConflict ::= fun m => m ∖ {[id]} |> in
  let cp := if IsZero (ex_CreatedAt e) then e <| ex_CreatedAt := now |> else e in
  let cp := if IsZero (ex_UpdatedAt cp) then cp <| ex_UpdatedAt := ex_CreatedAt cp |> else cp in
  let s := s <| executions ::= <[id := mkExecEntry cp false]> |> in
  let s := if negb (IsZero (ex_Deadline cp))
           then s <| deadlines ::= <[id := ex_Deadline cp]> |> else s in
  match ex_Graph e with
  | None => s
  | Some g =>
      let s := s <| inDegrees ::= seedInDegrees id 0 (unitDegrees g) |> in
      if g_allowCycles g then s
      else s <| remaining ::= <[id := Z.of_nat (UnitCount g)]> |> <| failed ::= <[id := 0]> |>
  end.

Definition writeInitialIntent (now : Time) (id : string) (availableAt : Time)
    (s : memoryState) (entry : OutboxEntry) : memoryState :=
  let s := if decide (t_Type (oe_Task entry) = TaskTypeNodeSkip)
           then s <| scheduled ::= <[memoryCounterKey id (t_UnitIdx (oe_Task entry)) := "skip"]> |>
           else s in
  let entry := if negb (IsZero availableAt)
               then entry <| oe_AvailableAt := availableAt |> else entry in
  (putOutboxEntryLocked now s id entry).1.

Definition writeInitialIntentsLocked (now : Time) (s : memoryState) (id : string)
    (entries : list OutboxEntry) (availableAt : Time) : memoryState :=
  foldl (writeInitialIntent now id availableAt) s entries.

Definition CreateExecution (hint : bool) (now : Time) (s : memoryState)
    (e : ExecutionSnapshot) : memoryState :=
  let s := noteMirrorModeLocked hint s e in
  let s := (markMirrorCreatePendingLocked s (ex_ID e)).1 in
  createExecutionLocked now s e.

(** The second component: the initial intents are parked until the row lands. *)
Definition CreateExecutionWithOutbox (hint : bool) (now : Time) (s : memoryState)
    (e : ExecutionSnapshot) (entries : list OutboxEntry) : memoryState * bool :=
  let s := noteMirrorModeLocked hint s e in
  let '(s, holdForMirror) := markMirrorCreatePendingLocked s (ex_ID e) in
  let s := createExecutionLocked now s e in
  let availableAt := if holdForMirror then queuedOutboxHold else zeroTime in
  (writeInitialIntentsLocked now s (ex_ID e) entries availableAt, holdForMirror).

Record ConcurrencyAdmissionResult : Type := mkAdmissionResult {
  car_Queued : bool;
  car_QueuePosition : Z
}.

(** The last component of an admitted submission: hold for the mirror. *)
Definition CreateExecutionWithConcurrency (sha256hex : string -> string) (hint : bool)
    (now : Time) (s : memoryState) (e : ExecutionSnapshot) (entries : list OutboxEntry)
    (admission : ConcurrencyAdmission)
    : memoryState * (AdmissionError + ConcurrencyAdmissionResult * bool) :=
  let id := ex_ID e in
  match chargeOrParkLocked sha256hex now s id admission with
  | (s, inl err) => (s, inl err)
  | (s, inr pending) =>
      let st := if pending : bool then ExecutionStatusQueued else ExecutionStatusRunning in
      let admitted := e <| ex_Status := st |> in
      let s := noteMirrorModeLocked hint s admitted in
      let '(s, holdForMirror) := markMirrorCreatePendingLocked s id in
      let s := createExecutionLocked now s admitted in
      let hold := if pending || holdForMirror then queuedOutboxHold else zeroTime in
      let s := writeInitialIntentsLocked now s id entries hold in
      let result := if pending then mkAdmissionResult true (queuePositionLocked s id)
                    else mkAdmissionResult false 0 in
      (s, inr (result, holdForMirror))
  end.

(** ** After the durable insert *)

Definition releaseInitialMirrorHold (s : memoryState) (id : string) : memoryState :=
  let s := s <| mirrorCreatePending ::= fun m => m ∖ {[id]} |> in
  match executions s !! id with
  | None => dropHeldOutboxLocked s id
  | Some e =>
      if IsTerminalExecutionStatus (status e) then dropHeldOutboxLocked s id
      else if decide (status e = ExecutionStatusQueued) then s
      else unpark s id
  end.

Definition deleteKeysWithPrefix {V} (prefix : string) (m : gmap string V) : gmap string V :=
  filter (fun kv => String.prefix prefix kv.1 = false) m.
Definition deleteMarksWithPrefix (prefix : string) (m : gset string) : gset string :=
  filter (fun k => String.prefix prefix k = false) m.

Definition rollbackCreatedExecution (now : Time) (s : memoryState) (id : string)
    : memoryState :=
  let s := releaseWorkflowSlotLocked now s id in
  let s := s <| executions ::= delete id |> in
  let prefix := id +:+ "/" in
  let s := s <| nodes ::= deleteKeysWithPrefix prefix |>
             <| inDegrees ::= deleteKeysWithPrefix prefix |>
             <| activeIns ::= deleteKeysWithPrefix prefix |>
             <| advanced ::= deleteMarksWithPrefix prefix |>
             <| scheduled ::= deleteKeysWithPrefix prefix |>
             <| outputs ::= deleteKeysWithPrefix prefix |>
             <| privateOutputs ::= deleteMarksWithPrefix prefix |>
             <| suspended ::= deleteKeysWithPrefix prefix |>
             <| signals ::= deleteKeysWithPrefix prefix |>
             <| signalSets ::= deleteKeysWithPrefix prefix |>
             <| resumed ::= deleteMarksWithPrefix prefix |>
             <| subExecs ::= deleteKeysWithPrefix prefix |>
             <| subWorkflowLinks ::= deleteKeysWithPrefix prefix |>
             <| subWorkflowConclusions ::= deleteKeysWithPrefix prefix |>
             <| groupUnits ::= deleteKeysWithPrefix prefix |> in
  let s := s <| outbox ::= delete id |> <| deadOutbox ::= delete id |>
             <| replayReceipts ::= delete id |> <| replayEntryIdx ::= delete id |>
             <| remaining ::= delete id |> <| failed ::= delete id |>
             <| idempotency ::= delete id |> <| cancelingSince ::= delete id |>
             <| mirrorLocks ::= fun m => m ∖ {[id]} |>
             <| mirrorSkip ::= fun m => m ∖ {[id]} |>
             <| mirrorCreatePending ::= fun m => m ∖ {[id]} |>
             <| mirrorConflict ::= fun m => m ∖ {[id]} |> in
  s <| rolledBack ::= fun m => {[id]} ∪ m |>
    <| admissions ::= filter (fun kv => ae_executionID kv.2 <> id) |>.

(** ** Status transitions *)

(** Marks the entry's done channel closed. *)
Definition markClosed (s : memoryState) (id : string) : memoryState :=
  s <| executions ::= alter (fun e => e <| closed := true |>) id |>.

(** [true] when the transition landed. *)
Definition updateExecutionStatusLocked (now : Time) (s : memoryState) (id : string)
    (st : ExecutionStatus) (errMsg : string) : memoryState * bool :=
  match executions s !! id with
  | None => (s, false)
  | Some e =>
      if IsTerminalExecutionStatus (status e) then (s, false)
      else if decide (status e = ExecutionStatusCanceling /\ st <> ExecutionStatusCanceled)
      then (s, false)
      else
        let s := if decide (st = ExecutionStatusCanceling /\ cancelingSince s !! id = None)
                 then s <| cancelingSince ::= <[id := now]> |> else s in
        let e := setStatus now st e in
        let e := if decide (errMsg <> "")
                 then e <| snap ::= fun x => x <| ex_Error := errMsg |> |> else e in
        let s := s <| executions ::= <[id := e]> |> in
        if IsTerminalExecutionStatus st then
          let s := s <| cancelingSince ::= delete id |> in
          let s := withdrawDeadlineLocked s id st in
          let s := releaseWorkflowSlotLocked now s id in
          (markClosed s id, true)
        else (s, true)
  end.

Definition finishExecutionLocked (now : Time) (s : memoryState) (id : string)
    (e : execEntry) (st : ExecutionStatus) (errMsg : string) : memoryState :=
  if IsTerminalExecutionStatus (status e) then s
  else
    let e := setStatus now st e in
    let e := if decide (st = ExecutionStatusFailed /\ errMsg <> "")
             then e <| snap ::= fun x => x <| ex_Error := errMsg |> |> else e in
    let s := s <| executions ::= <[id := e]> |> in
    let s := withdrawDeadlineLocked s id st in
    let s := releaseWorkflowSlotLocked now s id in
    markClosed s id.

(** ** Queue timeouts *)

Abbreviation ConcurrencyQueueTimeoutError := "concurrency queue timeout".

Definition queueOverdue (now : Time) (w : queuedExecution) : bool :=
  negb (IsZero (qe_deadline w) || After (qe_deadline w) now).

(** The first loop; [line] is the order the map iteration visits. *)
Fixpoint expiredQueued (now : Time) (s : memoryState) (limit : Z) (line : list string)
    (expired : list string) : list string :=
  match line with
  | [] => expired
  | id :: line =>
      if (0 <? limit) && (limit <=? Z.of_nat (length expired)) then expired
      else
        match queued s !! id with
        | Some w =>
            if queueOverdue now w then expiredQueued now s limit line (expired ++ [id])
            else expiredQueued now s limit line expired
        | None => expiredQueued now s limit line expired
        end
  end.

Fixpoint expireAll (now : Time) (s : memoryState) (ids projected : list string)
    : memoryState * list string :=
  match ids with
  | [] => (s, projected)
  | id :: ids =>
      let '(s, ok) := updateExecutionStatusLocked now s id ExecutionStatusTimeout
                        ConcurrencyQueueTimeoutError in
      expireAll now s ids (if ok : bool then projected ++ [id] else projected)
  end.

(** The number reported, and the executions projected to the mirror. *)
Definition ExpireQueuedExecutions (now : Time) (s : memoryState) (limit : Z)
    (line : list string) : memoryState * (Z * list string) :=
  if decide (queued s = ∅) then (s, (0, []))
  else
    let expired := expiredQueued now s limit line [] in
    let '(s, projected) := expireAll now s expired [] in
    (s, (Z.of_nat (length expired), projected)).

Definition ConcurrencyQueuePosition (s : memoryState) (id : string) : Z :=
  queuePositionLocked s id.

(** ** Pause and resume *)

Inductive PauseError : Type := ErrExecutionNotPausable | ErrExecutionNotPaused.

Definition PauseExecution (now : Time) (s : memoryState) (id : string)
    : memoryState * option PauseError :=
  match executions s !! id with
  | None => (s, Some ErrExecutionNotPausable)
  | Some e =>
      match status e with
      | ExecutionStatusPaused => (s, None)
      | ExecutionStatusRunning =>
          (s <| executions ::= <[id := setStatus now ExecutionStatusPaused e]> |>, None)
      | _ => (s, Some ErrExecutionNotPausable)
      end
  end.

Definition ResumeExecution (now : Time) (s : memoryState) (id : string)
    : memoryState * option PauseError :=
  match executions s !! id with
  | Some e =>
      if decide (status e <> ExecutionStatusPaused) then (s, Some ErrExecutionNotPaused)
      else (s <| executions ::= <[id := setStatus now ExecutionStatusRunning e]> |>, None)
  | None => (s, Some ErrExecutionNotPaused)
  end.

(** ** Reads *)

Definition GetExecution (s : memoryState) (id : string) : option ExecutionSnapshot :=
  snap <$> executions s !! id.

Definition GetExecutionTraceCarrier (s : memoryState) (id : string)
    : option (gmap string string) :=
  e ← executions s !! id;
  m ← ex_TraceCarrier (snap e);
  if decide (m = ∅) then None else Some m.

Definition GetExecutionStatus (s : memoryState) (id : string) : option ExecutionStatus :=
  status <$> executions s !! id.

(** Absent executions leave the zero status. *)
Definition GetExecutionStatuses (s : memoryState) (ids : list string)
    : list ExecutionStatus :=
  map (fun id => default ExecutionStatusNone (GetExecutionStatus s id)) ids.

(** Oldest instant first, ties by execution id. *)
Definition agedLess (a b : string * Time) : bool :=
  if negb (Equal a.2 b.2) then Before a.2 b.2 else String.ltb a.1 b.1.

Definition agedPage (limit : Z) (m : gmap string Time) : list (string * Time) :=
  take (Z.to_nat limit) (sortSlice agedLess (map_to_list m)).

(** Entries whose execution is not canceling any more are dropped. *)
Definition ListCancelingExecutions (s : memoryState) (olderThan : Time) (limit : Z)
    : memoryState * list (string * Time) :=
  if limit <=? 0 then (s, [])
  else
    let live := filter (fun kv => GetExecutionStatus s kv.1 = Some ExecutionStatusCanceling)
                  (cancelingSince s) in
    (s <| cancelingSince := live |>,
     agedPage limit (filter (fun kv => After kv.2 olderThan = false) live)).

Definition deadlineWithdrawn (o : option ExecutionStatus) : bool :=
  match o with
  | None => true
  | Some ExecutionStatusSuccess | Some ExecutionStatusFailed
  | Some ExecutionStatusCanceled => true
  | Some _ => false
  end.

Definition ListDeadlineExceededExecutions (s : memoryState) (before : Time) (limit : Z)
    : memoryState * list (string * Time) :=
  if limit <=? 0 then (s, [])
  else
    let live := filter (fun kv => deadlineWithdrawn (GetExecutionStatus s kv.1) = false)
                  (deadlines s) in
    (s <| deadlines := live |>,
     agedPage limit (filter (fun kv => After kv.2 before = false) live)).

Definition AckDeadlineExpired (s : memoryState) (id : string) : memoryState :=
  s <| deadlines ::= delete id |>.

#[global] Arguments createExecutionLocked : simpl never.
#[global] Arguments updateExecutionStatusLocked : simpl never.
#[global] Arguments finishExecutionLocked : simpl never.
#[global] Arguments rollbackCreatedExecution : simpl never.
#[global] Arguments writeInitialIntentsLocked : simpl never.

(** ** What a release does to executions *)

(** Either untouched, or promoted out of the queue. *)
Definition untouched_or_started (now : Time) (o o' : option execEntry) : Prop :=
  o' = o \/ exists e, o = Some e /\ status e = ExecutionStatusQueued /\
    o' = Some (setStatus now ExecutionStatusRunning e).

Lemma untouched_or_started_trans now o1 o2 o3 :
  untouched_or_started now o1 o2 -> untouched_or_started now o2 o3 ->
  untouched_or_started now o1 o3.
Proof.
  intros [-> |(e & -> & Hq & ->)] [-> |(e' & E & Hq' & ->)]; unfold untouched_or_started;
    eauto 6; simplify_eq; by unfold status in Hq'.
Qed.

Lemma completePromotion_started now s id x :
  untouched_or_started now (executions s !! x) (executions (completePromotionLocked now s id) !! x).
Proof.
  rewrite completePromotion_exec. case_decide; [|by left].
  destruct (executions s !! x) as [e|]; [|by left]. simpl. unfold startEntry.
  case_decide; [right; eauto|by left].
Qed.

Lemma promoteLoop_started fuel now s slot x :
  untouched_or_started now (executions s !! x) (executions (promoteLoop fuel now s slot).1 !! x).
Proof.
  revert s slot. induction fuel as [|fuel IH]; intros s slot; simpl; [by left|].
  unfold promoteOne. destruct (ws_queued slot) as [|id line]; [by left|].
  case_bool_decide; [|by left]. eapply untouched_or_started_trans; [|apply IH].
  eapply untouched_or_started_trans; [|apply completePromotion_started]. by left.
Qed.

Lemma dropHeld_executions s id : executions (dropHeldOutboxLocked s id) = executions s.
Proof. unfold dropHeldOutboxLocked. by case_decide. Qed.

Lemma release_started now s id x :
  untouched_or_started now (executions s !! x)
    (executions (releaseWorkflowSlotLocked now s id) !! x).
Proof.
  assert (Hset : forall s1 slot, executions s1 = executions s ->
    untouched_or_started now (executions s !! x) (executions (settle now s1 slot) !! x)).
  { intros s1 slot E. unfold settle, promoteLocked. rewrite <- E.
    pose proof (promoteLoop_started (length (ws_queued slot)) now s1 slot x) as Hp.
    destruct (promoteLoop _ now s1 slot) as [s2 sl]. by case_bool_decide. }
  unfold releaseWorkflowSlotLocked. destruct (slotHolders s !! id); [by apply Hset|].
  destruct (queued s !! id); [|by left]. apply Hset. by rewrite dropHeld_executions.
Qed.

(** The fields a release may write. *)
Definition slot_effect (s s' : memoryState) : Prop :=
  exists ex ob ws sh q, s' = s <| executions := ex |> <| outbox := ob |>
    <| workflowSlots := ws |> <| slotHolders := sh |> <| queued := q |>.

#[export] Instance slot_effect_preorder : PreOrder slot_effect.
Proof.
  split.
  - intros s. exists (executions s), (outbox s), (workflowSlots s), (slotHolders s), (queued s).
    by apply memoryState_ext.
  - intros s1 s2 s3 (ex & ob & ws & sh & q & ->) (ex' & ob' & ws' & sh' & q' & ->).
    exists ex', ob', ws', sh', q'. by apply memoryState_ext.
Qed.

Ltac slot_effect_by :=
  eexists _, _, _, _, _; apply memoryState_ext; cbn; reflexivity.

Lemma completePromotion_effect now s id : slot_effect s (completePromotionLocked now s id).
Proof.
  unfold completePromotionLocked, unpark.
  destruct (executions s !! id); repeat case_decide; try reflexivity; slot_effect_by.
Qed.

Lemma promoteLoop_effect fuel now s slot : slot_effect s (promoteLoop fuel now s slot).1.
Proof.
  revert s slot. induction fuel as [|fuel IH]; intros s slot; simpl; [reflexivity|].
  unfold promoteOne. destruct (ws_queued slot) as [|id line]; [reflexivity|].
  case_bool_decide; [|reflexivity]. etrans; [|apply IH].
  etrans; [|apply completePromotion_effect]. slot_effect_by.
Qed.

Lemma dropHeld_effect s id : slot_effect s (dropHeldOutboxLocked s id).
Proof. unfold dropHeldOutboxLocked. case_decide; slot_effect_by. Qed.

Lemma settle_effect now s slot : slot_effect s (settle now s slot).
Proof.
  unfold settle, promoteLocked.
  pose proof (promoteLoop_effect (length (ws_queued slot)) now s slot) as Hp.
  destruct (promoteLoop _ now s slot) as [s2 sl]. cbn [fst] in Hp. etrans; [exact Hp|].
  case_bool_decide; [slot_effect_by|reflexivity].
Qed.

Lemma release_effect now s id : slot_effect s (releaseWorkflowSlotLocked now s id).
Proof.
  unfold releaseWorkflowSlotLocked. destruct (slotHolders s !! id).
  - etrans; [|apply settle_effect]. slot_effect_by.
  - destruct (queued s !! id); [|reflexivity]. etrans; [|apply settle_effect].
    etrans; [|apply dropHeld_effect]. slot_effect_by.
Qed.

(** Holding a slot or standing in a line. *)
Definition in_slots (s : memoryState) (id : string) : Prop :=
  is_Some (slotHolders s !! id) \/ is_Some (queued s !! id).

Lemma in_slots_at s x :
  slots_wf s -> in_slots s x <-> exists k, x ∈ holders_at s k \/ x ∈ line_at s k.
Proof.
  intros H. split.
  - intros [[k Hk]|[w Hw]].
    + exists k. left. by apply slots_wf_holders.
    + exists (qe_slot w). right. apply slots_wf_line; [done|]. by exists w.
  - intros (k & [Hx|Hx]).
    + left. exists k. by apply slots_wf_holders.
    + right. apply slots_wf_line in Hx as (w & Hw & _); [by exists w|done].
Qed.

Lemma release_in_slots now s id x :
  slots_wf s -> in_slots (releaseWorkflowSlotLocked now s id) x -> in_slots s x /\ x <> id.
Proof.
  intros H. destruct (release_spec now s id H) as (H' & Hh & Hq & Hcase).
  set (s' := releaseWorkflowSlotLocked now s id) in *. clearbody s'. intros Hin.
  split; [|intros ->; destruct Hin as [[? ?]|[? ?]]; congruence].
  destruct Hcase as [-> |(k & Hid & Eh & El & _ & Ho)]; [done|].
  apply (in_slots_at s' x H') in Hin as (k' & Hx). apply (in_slots_at s x H). exists k'.
  destruct (decide (k' = k)) as [->|Hne].
  - assert (Hd : x ∈ ws_holders (departed s id k) \/ x ∈ ws_queued (departed s id k)).
    { destruct Hx as [Hx|Hx]; [rewrite Eh in Hx; apply elem_of_promoted_holders in Hx; tauto|].
      rewrite El in Hx. apply elem_of_promoted_line in Hx. by right. }
    revert Hd. unfold departed, holders_at, line_at. case_decide; simpl; [set_solver|].
    rewrite elem_of_removeFirst by (by apply slots_wf_nodup). tauto.
  - unfold holders_at, line_at, slotForLocked in *. by rewrite Ho in Hx.
Qed.

(** ** Invariant

    Capacity follows liveness: whoever holds a slot or waits for one is an
    execution that has not ended, so no slot outlives its execution; and the
    done channel of an execution is closed exactly when it has ended. *)

Definition ended (e : execEntry) : bool := IsTerminalExecutionStatus (status e).

Record life_inv (s : memoryState) : Prop := {
  li_slots : slots_wf s;
  li_active : forall id, in_slots s id ->
    exists e, executions s !! id = Some e /\ ended e = false;
  li_closed : forall id e, executions s !! id = Some e -> closed e = ended e
}.

(** Updates that leave the executions and the slots alone. *)
Definition life_frame (s s' : memoryState) : Prop :=
  executions s' = executions s /\ same_slots s s'.

#[export] Instance life_frame_preorder : PreOrder life_frame.
Proof.
  split; [done|]. intros s1 s2 s3 (E1 & E2 & E3 & E4) (F1 & F2 & F3 & F4).
  unfold life_frame, same_slots. by rewrite F1, F2, F3, F4.
Qed.

Lemma life_inv_frame s s' : life_frame s s' -> life_inv s -> life_inv s'.
Proof.
  intros (E & E1 & E2 & E3) [H1 H2 H3]. split.
  - by apply (slots_wf_same s); [split_and!|].
  - intros id. unfold in_slots. rewrite E, E2, E3. apply H2.
  - rewrite E. apply H3.
Qed.

Lemma life_inv_new db : life_inv (newMemoryState db).
Proof.
  split; [apply slots_wf_new|..]; simpl.
  - intros id [[? H]|[? H]]; simpl in H; by rewrite lookup_empty in H.
  - intros id e H. by rewrite lookup_empty in H.
Qed.

Lemma started_ended now o o' e' :
  untouched_or_started now o o' -> o' = Some e' ->
  exists e, o = Some e /\ closed e' = closed e /\ ended e' = ended e.
Proof.
  intros [-> |(e & -> & Hq & ->)] E; simplify_eq; [eauto|].
  exists e. split_and!; [done|done|]. unfold ended. by rewrite Hq.
Qed.

(** Writing another unended status for an unended execution. *)
Lemma life_inv_insert s id e e' :
  life_inv s -> executions s !! id = Some e ->
  closed e' = ended e' -> ended e' = ended e ->
  life_inv (s <| executions ::= <[id := e']> |>).
Proof.
  intros [H1 H2 H3] He Hc Hd. split; simpl.
  - by apply (slots_wf_same s); [split_and!|].
  - intros id' Hin. destruct (H2 id' Hin) as (e0 & He0 & Hd0).
    destruct (decide (id' = id)) as [->|].
    + exists e'. rewrite lookup_insert_eq. split; [done|]. congruence.
    + exists e0. by rewrite lookup_insert_ne.
  - intros id' e0 [[<- <-]|[_ ?]]%lookup_insert_Some; [done|by eapply H3].
Qed.

(** The common end of every terminal transition: the ended entry is in place,
    its slot is given up, its channel is closed. *)
Lemma life_inv_end now s s1 id e :
  life_inv s -> same_slots s s1 -> executions s1 = <[id := e]> (executions s) ->
  ended e = true ->
  life_inv (markClosed (releaseWorkflowSlotLocked now s1 id) id).
Proof.
  intros [H1 H2 H3] Hs E He. pose proof (slots_wf_same _ _ Hs H1) as H1'.
  pose proof (fun x => release_started now s1 id x) as Hst.
  pose proof (release_spec now s1 id H1') as (Hwf & _).
  pose proof (fun x => release_in_slots now s1 id x H1') as Hin.
  set (s2 := releaseWorkflowSlotLocked now s1 id) in *. clearbody s2. split.
  - by apply (slots_wf_same s2); [split_and!|].
  - intros x Hx. destruct (Hin x Hx) as [Hx1 Hne].
    assert (in_slots s x) as Hx0.
    { destruct Hs as (_ & Eh & Eq). unfold in_slots in Hx1. by rewrite Eh, Eq in Hx1. }
    destruct (H2 x Hx0) as (e0 & He0 & Hd). simpl. rewrite lookup_alter_ne by done.
    destruct (Hst x) as [-> |(e1 & E1 & Hq & ->)]; rewrite E, lookup_insert_ne in * by done;
      [eauto|]. eexists; split; [done|]. done.
  - intros x ex. simpl. destruct (decide (x = id)) as [->|Hne].
    + rewrite lookup_alter_eq, fmap_Some. intros (e0 & He0 & ->). simpl.
      destruct (started_ended now _ _ e0 (Hst id) He0) as (e1 & E1 & _ & Hd).
      rewrite E, lookup_insert_eq in E1. simplify_eq.
      symmetry. change (ended e0 = true). congruence.
    + rewrite lookup_alter_ne by done. intros Hx.
      destruct (started_ended now _ _ ex (Hst x) Hx) as (e1 & E1 & -> & ->).
      rewrite E, lookup_insert_ne in E1 by done. by eapply H3.
Qed.

Lemma withdraw_frame s id st : life_frame s (withdrawDeadlineLocked s id st).
Proof. unfold withdrawDeadlineLocked. by case_decide. Qed.

Lemma frame_executions s s' : life_frame s s' -> executions s' = executions s.
Proof. by intros [? _]. Qed.

Lemma update_life_inv now s id st errMsg :
  life_inv s -> life_inv (updateExecutionStatusLocked now s id st errMsg).1.
Proof.
  intros H. unfold updateExecutionStatusLocked.
  destruct (executions s !! id) as [e|] eqn:He; [|done].
  fold (ended e). destruct (ended e) eqn:Hd; [done|]. case_decide; [done|].
  pose proof (li_closed s H id e He) as Hc.
  set (s0 := if decide (st = _ /\ _) then _ else s).
  set (e' := if decide (errMsg <> "") then _ else setStatus now st e).
  assert (Hf : life_frame s s0) by (unfold s0; by case_decide).
  assert (He' : status e' = st /\ closed e' = closed e) by (unfold e'; by case_decide).
  destruct He' as [Hst Hcl]. pose proof (life_inv_frame _ _ Hf H) as Hs0.
  destruct (IsTerminalExecutionStatus st) eqn:Ht; cbn [fst].
  - destruct Hf as [Ee Hs].
    match goal with |- context [withdrawDeadlineLocked ?x id st] =>
      pose proof (withdraw_frame x id st) as [Ew Hsw] end.
    apply (life_inv_end now s0 _ id e'); [done| |by rewrite Ew|by unfold ended; rewrite Hst].
    exact Hsw.
  - apply (life_inv_insert s0 id e); [done|by rewrite (frame_executions s)|..];
      unfold ended in *; congruence.
Qed.

Lemma finish_life_inv now s id e st errMsg :
  life_inv s -> IsTerminalExecutionStatus st = true ->
  life_inv (finishExecutionLocked now s id e st errMsg).
Proof.
  intros H Ht. unfold finishExecutionLocked. destruct (IsTerminalExecutionStatus (status e)); [done|].
  match goal with |- context [withdrawDeadlineLocked ?x id st] =>
    pose proof (withdraw_frame x id st) as [Ew Hsw] end.
  eapply (life_inv_end now s); [done|exact Hsw|by rewrite Ew|].
  unfold ended. by case_decide.
Qed.

Lemma pause_life_inv now s id : life_inv s -> life_inv (PauseExecution now s id).1.
Proof.
  intros H. unfold PauseExecution. destruct (executions s !! id) as [e|] eqn:He; [|done].
  pose proof (li_closed s H id e He) as Hc. unfold ended in Hc.
  destruct (status e) eqn:Hs; try done.
  apply (life_inv_insert s id e); [done..|by unfold ended; rewrite Hs].
Qed.

Lemma resume_life_inv now s id : life_inv s -> life_inv (ResumeExecution now s id).1.
Proof.
  intros H. unfold ResumeExecution. destruct (executions s !! id) as [e|] eqn:He; [|done].
  pose proof (li_closed s H id e He) as Hc. unfold ended in Hc. case_decide as Hs; [done|].
  rewrite Hs in Hc.
  apply (life_inv_insert s id e); [done..|by unfold ended; rewrite Hs].
Qed.

Lemma expireAll_life_inv now s ids projected :
  life_inv s -> life_inv (expireAll now s ids projected).1.
Proof.
  revert s projected. induction ids as [|id ids IH]; intros s projected H; [done|]. simpl.
  pose proof (update_life_inv now s id ExecutionStatusTimeout ConcurrencyQueueTimeoutError H).
  destruct (updateExecutionStatusLocked _ _ _ _ _) as [s' ok]. by apply IH.
Qed.

Lemma expire_life_inv now s limit line :
  life_inv s -> life_inv (ExpireQueuedExecutions now s limit line).1.
Proof.
  intros H. unfold ExpireQueuedExecutions. case_decide; [done|].
  pose proof (expireAll_life_inv now s (expiredQueued now s limit line []) [] H).
  by destruct (expireAll _ _ _ _).
Qed.

(** A rollback releases first, so nobody in the slots loses their entry. *)
Lemma rollback_life_inv now s id : life_inv s -> life_inv (rollbackCreatedExecution now s id).
Proof.
  intros [H1 H2 H3].
  pose proof (fun x => release_started now s id x) as Hst.
  pose proof (release_spec now s id H1) as (Hwf & _).
  pose proof (fun x => release_in_slots now s id x H1) as Hin.
  unfold rollbackCreatedExecution.
  set (s2 := releaseWorkflowSlotLocked now s id) in *. clearbody s2.
  apply (life_inv_frame (s2 <| executions ::= delete id |>)); [done|]. split.
  - by apply (slots_wf_same s2); [split_and!|].
  - intros x Hx. destruct (Hin x Hx) as [Hx1 Hne]. simpl. rewrite lookup_delete_ne by done.
    destruct (H2 x Hx1) as (e & He & Hd).
    destruct (Hst x) as [-> |(e1 & E1 & Hq & ->)]; [eauto|]. eexists; split; [done|]. done.
  - intros x e. simpl. intros [Hne Hx]%lookup_delete_Some.
    destruct (started_ended now _ _ e (Hst x) Hx) as (e1 & E1 & -> & ->). by eapply H3.
Qed.

(** A finish also withdraws the deadline. *)
Definition finish_effect (s s' : memoryState) : Prop :=
  exists s1 dl, slot_effect s s1 /\ s' = s1 <| deadlines := dl |>.

Lemma finish_shape now s id e st errMsg :
  finish_effect s (finishExecutionLocked now s id e st errMsg).
Proof.
  unfold finishExecutionLocked. destruct (IsTerminalExecutionStatus (status e)).
  { exists s, (deadlines s). split; [reflexivity|]. by apply memoryState_ext. }
  match goal with |- finish_effect _ (markClosed (releaseWorkflowSlotLocked _ ?x _) _) =>
    pose proof (release_effect now x id) as (ex & ob & ws & sh & q & ->) end.
  unfold withdrawDeadlineLocked, markClosed. case_decide.
  - exists (s <| executions := alter (fun e => e <| closed := true |>) id ex |>
      <| outbox := ob |> <| workflowSlots := ws |> <| slotHolders := sh |> <| queued := q |>),
      (delete id (deadlines s)). split; [slot_effect_by|apply memoryState_ext; reflexivity].
  - exists (s <| executions := alter (fun e => e <| closed := true |>) id ex |>
      <| outbox := ob |> <| workflowSlots := ws |> <| slotHolders := sh |> <| queued := q |>),
      (deadlines s). split; [slot_effect_by|apply memoryState_ext; reflexivity].
Qed.

(** ** Creation *)

Lemma noteMirror_frame hint s e : life_frame s (noteMirrorModeLocked hint s e).
Proof. unfold noteMirrorModeLocked. repeat case_match; done. Qed.

Lemma markPending_frame s id : life_frame s (markMirrorCreatePendingLocked s id).1.
Proof. unfold markMirrorCreatePendingLocked. by case_match. Qed.

Lemma putOutboxEntry_frame now s id entry :
  life_frame s (putOutboxEntryLocked now s id entry).1.
Proof. unfold putOutboxEntryLocked. case_decide; [done|]. by case_match. Qed.

Lemma writeInitialIntents_frame now s id entries t :
  life_frame s (writeInitialIntentsLocked now s id entries t).
Proof.
  unfold writeInitialIntentsLocked. revert s.
  induction entries as [|o entries IH]; intros s; [done|]. simpl.
  etrans; [|apply IH]. unfold writeInitialIntent. etrans; [|apply putOutboxEntry_frame].
  by case_decide.
Qed.

#[export] Hint Resolve noteMirror_frame markPending_frame putOutboxEntry_frame
  writeInitialIntents_frame : core.

(** The entry a create stores. *)
Definition createdEntry (now : Time) (e : ExecutionSnapshot) : execEntry :=
  let cp := if IsZero (ex_CreatedAt e) then e <| ex_CreatedAt := now |> else e in
  mkExecEntry (if IsZero (ex_UpdatedAt cp) then cp <| ex_UpdatedAt := ex_CreatedAt cp |>
               else cp) false.

Lemma create_frame now s e :
  life_frame (s <| executions ::= <[ex_ID e := createdEntry now e]> |>)
    (createExecutionLocked now s e).
Proof.
  unfold createExecutionLocked, createdEntry.
  set (cp := if IsZero (ex_UpdatedAt _) then _ else _).
  destruct (negb (IsZero (ex_Deadline cp))), (ex_Graph e) as [g|]; try done;
    destruct (g_allowCycles g); done.
Qed.

Lemma created_status now e : status (createdEntry now e) = ex_Status e.
Proof. unfold createdEntry. by repeat case_match. Qed.

(** Creating also restores the invariant for an execution that was admitted in
    the same critical section. *)
Lemma create_life_inv now s e :
  slots_wf s ->
  (forall x, in_slots s x -> x = ex_ID e \/
     exists ex, executions s !! x = Some ex /\ ended ex = false) ->
  (forall x ex, executions s !! x = Some ex -> closed ex = ended ex) ->
  IsTerminalExecutionStatus (ex_Status e) = false ->
  life_inv (createExecutionLocked now s e).
Proof.
  intros H1 H2 H3 Ht. eapply life_inv_frame; [apply create_frame|].
  assert (Hn : ended (createdEntry now e) = false)
    by (unfold ended; by rewrite created_status).
  split; simpl.
  - by apply (slots_wf_same s); [split_and!|].
  - intros x Hx. destruct (decide (x = ex_ID e)) as [->|Hne].
    + rewrite lookup_insert_eq. eauto.
    + rewrite lookup_insert_ne by done. destruct (H2 x Hx) as [?|?]; done.
  - intros x ex [[<- <-]|[_ ?]]%lookup_insert_Some; [by rewrite Hn|by eapply H3].
Qed.

Lemma create_outbox_life_inv hint now s e entries :
  life_inv s -> IsTerminalExecutionStatus (ex_Status e) = false ->
  life_inv (CreateExecutionWithOutbox hint now s e entries).1.
Proof.
  intros H Ht. unfold CreateExecutionWithOutbox.
  pose proof (markPending_frame (noteMirrorModeLocked hint s e) (ex_ID e)) as Hf.
  destruct (markMirrorCreatePendingLocked _ _) as [s1 hold]. cbn [fst] in *.
  eapply life_inv_frame; [apply writeInitialIntents_frame|].
  assert (H1 : life_inv s1) by (eapply life_inv_frame; [|exact H]; etrans; [apply noteMirror_frame|exact Hf]).
  apply create_life_inv; [apply H1| |apply H1|done].
  intros x Hx. right. by apply H1.
Qed.

Lemma chargeOrPark_effect sha now s id a :
  let s' := (chargeOrParkLocked sha now s id a).1 in
  executions s' = executions s /\ forall x, in_slots s' x -> in_slots s x \/ x = id.
Proof.
  unfold chargeOrParkLocked, parkOrChargeLocked, in_slots. cbn zeta.
  repeat case_match; cbn [fst]; (split; [reflexivity|]); intros x;
    (destruct (decide (x = id)) as [->|]; [tauto|]); simpl;
    rewrite ?lookup_insert_ne by done; tauto.
Qed.

Lemma chargeOrPark_refused sha now s id a err :
  (chargeOrParkLocked sha now s id a).2 = inl err ->
  forall x, in_slots (chargeOrParkLocked sha now s id a).1 x -> in_slots s x.
Proof.
  unfold chargeOrParkLocked, parkOrChargeLocked.
  repeat case_match; repeat case_bool_decide; done.
Qed.

Lemma unpark_frame s id : life_frame s (unpark s id).
Proof. done. Qed.

Lemma dropHeld_frame s id : life_frame s (dropHeldOutboxLocked s id).
Proof. split; [apply dropHeld_executions|apply dropHeld_same]. Qed.

Lemma releaseHold_frame s id : life_frame s (releaseInitialMirrorHold s id).
Proof.
  unfold releaseInitialMirrorHold. simpl.
  repeat case_match; (etrans; [|apply dropHeld_frame || apply unpark_frame || reflexivity]); done.
Qed.

(** ** Undoing a create *)

Lemma prefix_app p t : String.prefix p (p +:+ t) = true.
Proof.
  induction p as [|a p IH]; [by destruct t|]. simpl. destruct (ascii_dec a a); [apply IH|congruence].
Qed.

Lemma counterKey_prefix id i : String.prefix (id +:+ "/") (memoryCounterKey id i) = true.
Proof. unfold memoryCounterKey. rewrite string_app_assoc. apply prefix_app. Qed.

Lemma deletePrefix_insert {V} p k (v : V) m :
  String.prefix p k = true ->
  deleteKeysWithPrefix p (<[k := v]> m) = deleteKeysWithPrefix p m.
Proof.
  intros Hp. unfold deleteKeysWithPrefix. apply map_eq. intros k'.
  apply option_eq. intros v'. rewrite !map_lookup_filter_Some. simpl.
  destruct (decide (k' = k)) as [->|]; [rewrite Hp; naive_solver|by rewrite lookup_insert_ne].
Qed.

(** No key of one execution's key space is in use. *)
Definition no_prefix {V} (p : string) (m : gmap string V) : Prop :=
  map_Forall (fun k _ => String.prefix p k = false) m.

Lemma deletePrefix_none {V} p (m : gmap string V) : no_prefix p m -> deleteKeysWithPrefix p m = m.
Proof.
  intros H. unfold deleteKeysWithPrefix. apply map_filter_id. intros k v Hk. by apply (H k v).
Qed.

Lemma deleteMarks_none p m : (forall k, k ∈ m -> String.prefix p k = false) ->
  deleteMarksWithPrefix p m = m.
Proof. unfold deleteMarksWithPrefix. set_solver. Qed.

Lemma seedInDegrees_prefix id i ds m :
  deleteKeysWithPrefix (id +:+ "/") (seedInDegrees id i ds m)
  = deleteKeysWithPrefix (id +:+ "/") m.
Proof.
  revert i m. induction ds as [|d ds IH]; intros i m; simpl; [done|].
  rewrite IH. apply deletePrefix_insert, counterKey_prefix.
Qed.

Lemma putOutboxEntry_shape now s id entry :
  exists ob, (putOutboxEntryLocked now s id entry).1 = s <| outbox := ob |> /\
    delete id ob = delete id (outbox s).
Proof.
  unfold putOutboxEntryLocked. case_decide; [exists (outbox s); by destruct s|].
  case_match; [exists (outbox s); by destruct s|]. eexists. split; [done|].
  by rewrite delete_insert_eq.
Qed.

Lemma writeInitialIntents_shape now id entries t s :
  exists sch ob, writeInitialIntentsLocked now s id entries t
      = s <| scheduled := sch |> <| outbox := ob |> /\
    deleteKeysWithPrefix (id +:+ "/") sch = deleteKeysWithPrefix (id +:+ "/") (scheduled s) /\
    delete id ob = delete id (outbox s).
Proof.
  unfold writeInitialIntentsLocked. revert s.
  induction entries as [|o entries IH]; intros s.
  { exists (scheduled s), (outbox s). by destruct s. }
  simpl. destruct (IH (writeInitialIntent now id t s o)) as (sch & ob & -> & Hs & Ho).
  unfold writeInitialIntent in *.
  match goal with |- context [putOutboxEntryLocked now ?x id ?o'] =>
    destruct (putOutboxEntry_shape now x id o') as (ob1 & E1 & Ho1) end.
  rewrite E1 in *. exists sch, ob.
  case_decide; simpl in Hs, Ho, Ho1; rewrite ?deletePrefix_insert in Hs
    by apply counterKey_prefix; (split; [by destruct s|]); split; congruence.
Qed.

Lemma noteMirror_shape hint s e :
  exists m, noteMirrorModeLocked hint s e = s <| mirrorSkip := m |> /\
    m ∖ {[ex_ID e]} = mirrorSkip s ∖ {[ex_ID e]}.
Proof.
  unfold noteMirrorModeLocked. destruct (negb (dbAttached s));
    [exists (mirrorSkip s); by destruct s|].
  case_match; eexists; (split; [done|set_solver]).
Qed.

Lemma markPending_shape s id :
  exists m, (markMirrorCreatePendingLocked s id).1 = s <| mirrorCreatePending := m |> /\
    m ∖ {[id]} = mirrorCreatePending s ∖ {[id]}.
Proof.
  unfold markMirrorCreatePendingLocked. case_match.
  - exists (mirrorCreatePending s). by destruct s.
  - eexists. split; [done|set_solver].
Qed.

Lemma created_deadline now e :
  ex_Deadline (snap (createdEntry now e)) = ex_Deadline e.
Proof. unfold createdEntry. by repeat case_match. Qed.

Lemma create_shape now s e :
  exists ind rem fl, createExecutionLocked now s e
    = s <| rolledBack ::= fun m => m ∖ {[ex_ID e]} |>
        <| mirrorConflict ::= fun m => m ∖ {[ex_ID e]} |>
        <| executions ::= <[ex_ID e := createdEntry now e]> |>
        <| deadlines ::= fun m => if IsZero (ex_Deadline e) then m
                                  else <[ex_ID e := ex_Deadline e]> m |>
        <| inDegrees := ind |> <| remaining := rem |> <| failed := fl |> /\
    deleteKeysWithPrefix (ex_ID e +:+ "/") ind
      = deleteKeysWithPrefix (ex_ID e +:+ "/") (inDegrees s) /\
    delete (ex_ID e) rem = delete (ex_ID e) (remaining s) /\
    delete (ex_ID e) fl = delete (ex_ID e) (failed s).
Proof.
  unfold createExecutionLocked.
  pose proof (created_deadline now e) as Hd. unfold createdEntry in *.
  set (cp := if IsZero (ex_UpdatedAt _) then _ else _) in *. cbn [snap] in Hd. rewrite Hd.
  clearbody cp. destruct (ex_Graph e) as [g|]; [destruct (g_allowCycles g)|].
  - exists (seedInDegrees (ex_ID e) 0 (unitDegrees g) (inDegrees s)), (remaining s), (failed s).
    rewrite seedInDegrees_prefix. split; [|done]. destruct (IsZero (ex_Deadline e)); apply memoryState_ext; cbn; reflexivity.
  - exists (seedInDegrees (ex_ID e) 0 (unitDegrees g) (inDegrees s)),
      (<[ex_ID e := Z.of_nat (UnitCount g)]> (remaining s)), (<[ex_ID e := 0]> (failed s)).
    rewrite seedInDegrees_prefix, !delete_insert_eq.
    split; [|done]. destruct (IsZero (ex_Deadline e)); apply memoryState_ext; cbn; reflexivity.
  - exists (inDegrees s), (remaining s), (failed s).
    split; [|done]. destruct (IsZero (ex_Deadline e)); apply memoryState_ext; cbn; reflexivity.
Qed.

Lemma release_absent now s id : ~ in_slots s id -> releaseWorkflowSlotLocked now s id = s.
Proof.
  unfold in_slots, releaseWorkflowSlotLocked. intros H.
  destruct (slotHolders s !! id), (queued s !! id); try done; exfalso; eauto.
Qed.

(** Nothing in the store belongs to the execution id. *)
Record unused (s : memoryState) (id : string) : Prop := {
  un_exec : executions s !! id = None;
  un_slots : ~ in_slots s id;
  un_nodes : no_prefix (id +:+ "/") (nodes s);
  un_inDegrees : no_prefix (id +:+ "/") (inDegrees s);
  un_activeIns : no_prefix (id +:+ "/") (activeIns s);
  un_scheduled : no_prefix (id +:+ "/") (scheduled s);
  un_outputs : no_prefix (id +:+ "/") (outputs s);
  un_suspended : no_prefix (id +:+ "/") (suspended s);
  un_signals : no_prefix (id +:+ "/") (signals s);
  un_signalSets : no_prefix (id +:+ "/") (signalSets s);
  un_subExecs : no_prefix (id +:+ "/") (subExecs s);
  un_links : no_prefix (id +:+ "/") (subWorkflowLinks s);
  un_conclusions : no_prefix (id +:+ "/") (subWorkflowConclusions s);
  un_groups : no_prefix (id +:+ "/") (groupUnits s);
  un_advanced : forall k, k ∈ advanced s -> String.prefix (id +:+ "/") k = false;
  un_private : forall k, k ∈ privateOutputs s -> String.prefix (id +:+ "/") k = false;
  un_resumed : forall k, k ∈ resumed s -> String.prefix (id +:+ "/") k = false;
  un_outbox : outbox s !! id = None;
  un_dead : deadOutbox s !! id = None;
  un_receipts : replayReceipts s !! id = None;
  un_index : replayEntryIdx s !! id = None;
  un_remaining : remaining s !! id = None;
  un_failed : failed s !! id = None;
  un_canceling : cancelingSince s !! id = None;
  un_locks : id ∉ mirrorLocks s;
  un_skip : id ∉ mirrorSkip s;
  un_pending : id ∉ mirrorCreatePending s;
  un_conflict : id ∉ mirrorConflict s;
  un_admissions : map_Forall (fun _ a => ae_executionID a <> id) (admissions s)
}.

Lemma unused_new db id : unused (newMemoryState db) id.
Proof.
  split; try exact (lookup_empty id); try apply not_elem_of_empty; try apply map_Forall_empty;
    try (intros k Hk; by apply elem_of_empty in Hk).
  intros [[? H]|[? H]]; simpl in H; by rewrite lookup_empty in H.
Qed.

Definition demoExecution : ExecutionSnapshot :=
  zeroExecutionSnapshot <| ex_ID := "e1" |> <| ex_Status := ExecutionStatusRunning |>.
Definition demoTimed : ExecutionSnapshot := demoExecution <| ex_Deadline := 9 |>.
Definition demoCreated : memoryState :=
  (CreateExecutionWithOutbox false 1 (newMemoryState false) demoExecution []).1.

Lemma demoCreated_inv : life_inv demoCreated.
Proof. by apply create_outbox_life_inv; [apply life_inv_new|]. Qed.

(** ** Main results *)

(** A status write lands exactly when the execution exists, has not ended,
    and either is not canceling or is being canceled; a write that lands
    records the status and any non-empty reason, and keeps everything else of
    the snapshot but the update time; a refused write changes nothing. *)
Theorem updateExecutionStatus_spec now s id st errMsg :
  life_inv s ->
  match updateExecutionStatusLocked now s id st errMsg with
  | (s', true) =>
      exists e e', executions s !! id = Some e /\ ended e = false /\
        (status e = ExecutionStatusCanceling -> st = ExecutionStatusCanceled) /\
        executions s' !! id = Some e' /\
        snap e' = snap e <| ex_Status := st |> <| ex_UpdatedAt := now |>
                    <| ex_Error := if decide (errMsg = "") then ex_Error (snap e) else errMsg |> /\
        closed e' = IsTerminalExecutionStatus st /\
        (IsTerminalExecutionStatus st = true -> ~ in_slots s' id)
  | (s', false) =>
      s' = s /\ forall e, executions s !! id = Some e -> ended e = true \/
        status e = ExecutionStatusCanceling /\ st <> ExecutionStatusCanceled
  end.
Proof.
  intros H. unfold updateExecutionStatusLocked.
  destruct (executions s !! id) as [e|] eqn:He; [|done].
  pose proof (li_closed s H id e He) as Hc. fold (ended e).
  destruct (ended e) eqn:Hd; [split; [done|]; intros ? [= <-]; by left|].
  case_decide as Hcan; [split; [done|]; intros ? [= <-]; by right|].
  assert (Hcan' : status e = ExecutionStatusCanceling -> st = ExecutionStatusCanceled)
    by (destruct (decide (st = ExecutionStatusCanceled)); tauto).
  set (s0 := if decide (st = _ /\ _) then _ else s).
  set (e' := if decide (errMsg <> "") then _ else setStatus now st e).
  assert (Hf : life_frame s s0) by (unfold s0; by case_decide).
  assert (He' : closed e' = closed e /\ snap e' = snap e <| ex_Status := st |>
    <| ex_UpdatedAt := now |>
    <| ex_Error := if decide (errMsg = "") then ex_Error (snap e) else errMsg |>).
  { unfold e'. destruct (decide (errMsg = "")) as [->|Hne];
      [rewrite decide_False by tauto|rewrite decide_True by done]; [|done].
    split; [done|]. unfold setStatus; simpl. by destruct e as [[] ?]. }
  destruct He' as [Hcl Hsn].
  destruct (IsTerminalExecutionStatus st) eqn:Ht.
  - match goal with |- context [releaseWorkflowSlotLocked now ?x id] => set (s1 := x) end.
    assert (E1 : executions s1 = <[id := e']> (executions s0)).
    { unfold s1. by rewrite (frame_executions _ _ (withdraw_frame _ _ _)). }
    assert (Hslot : slots_wf s1).
    { apply (slots_wf_same s); [|apply H]. etrans; [apply Hf|].
      unfold s1. match goal with |- context [withdrawDeadlineLocked ?x id st] =>
        exact (proj2 (withdraw_frame x id st)) end. }
    exists e, (e' <| closed := true |>). split_and!; [done|done|done| |exact Hsn|done|].
    + simpl. rewrite lookup_alter_eq.
      destruct (release_started now s1 id id) as [-> |(e1 & Ee & Hq & _)];
        rewrite E1, lookup_insert_eq in *; [done|]. simplify_eq.
      unfold status in Hq. rewrite Hsn in Hq. simpl in Hq. by rewrite Hq in Ht.
    + intros _ Hin. by apply (release_in_slots now s1 id id Hslot) in Hin as [_ ?].
  - exists e, e'. split_and!; [done|done|done| |exact Hsn|congruence|done].
    simpl. by rewrite lookup_insert_eq.
Qed.

Lemma updateExecutionStatus_spec_witness :
  exists e, executions (updateExecutionStatusLocked 5 demoCreated "e1"
    ExecutionStatusFailed "boom").1 !! "e1" = Some e /\ ex_Error (snap e) = "boom".
Proof.
  pose proof (updateExecutionStatus_spec 5 demoCreated "e1" ExecutionStatusFailed "boom"
    demoCreated_inv) as H.
  destruct (updateExecutionStatusLocked _ _ _ _ _) as [s' [|]] eqn:E.
  - destruct H as (e & e' & _ & _ & _ & He & Hs & _). exists e'. by rewrite Hs.
  - apply (f_equal snd) in E. by vm_compute in E.
Defined.

(** C38. Rolling back a create whose durable row failed restores the whole store,
    with three exceptions: the id is tombstoned, its idempotency claim is gone,
    and a deadline the create registered stays registered. *)
Theorem rollback_undoes_create hint now now' s e entries :
  unused s (ex_ID e) ->
  rollbackCreatedExecution now' (CreateExecutionWithOutbox hint now s e entries).1 (ex_ID e)
  = s <| rolledBack ::= fun m => {[ex_ID e]} ∪ m |>
      <| idempotency ::= delete (ex_ID e) |>
      <| deadlines ::= fun m => if IsZero (ex_Deadline e) then m
                                else <[ex_ID e := ex_Deadline e]> m |>.
Proof.
  set (id := ex_ID e). intros []. unfold CreateExecutionWithOutbox.
  destruct (noteMirror_shape hint s e) as (m1 & -> & Hm1).
  destruct (markPending_shape (s <| mirrorSkip := m1 |>) (ex_ID e)) as (m2 & E2 & Hm2).
  destruct (markMirrorCreatePendingLocked _ _) as [s2 hold]. cbn [fst] in *. subst s2.
  destruct (create_shape now (s <| mirrorSkip := m1 |> <| mirrorCreatePending := m2 |>) e)
    as (ind & rem & fl & -> & Hi & Hr & Hfl).
  match goal with |- context [writeInitialIntentsLocked now ?x (ex_ID e) entries ?t] =>
    destruct (writeInitialIntents_shape now (ex_ID e) entries t x)
      as (sch & ob & -> & Hs & Ho) end.
  fold id in Hm1, Hm2, Hi, Hr, Hfl, Hs, Ho |- *. unfold rollbackCreatedExecution.
  rewrite release_absent by done.
  apply memoryState_ext; cbn;
    rewrite ?Hm1, ?Hm2, ?Hi, ?Hr, ?Hfl, ?Hs, ?Ho, ?delete_insert_eq; try reflexivity;
    try (by apply deletePrefix_none); try (by apply deleteMarks_none);
    try (by apply delete_id); try (by apply gset_remove_absent).
  - apply map_filter_id. intros k a Ha. by apply (un_admissions0 k a).
  - by rewrite !gset_remove_absent by (rewrite ?gset_remove_absent; done).
  - apply gset_readd.
Qed.

Lemma rollback_undoes_create_witness :
  deadlines (rollbackCreatedExecution 2 (CreateExecutionWithOutbox false 1 (newMemoryState true)
    demoTimed []).1 (ex_ID demoTimed)) = {["e1" := 9]}.
Proof.
  by rewrite (rollback_undoes_create false 1 2 (newMemoryState true)
    demoTimed []
    (unused_new true "e1")).
Defined.
