(* ===== verification/Outbox.v ===== *)
(** * The durable outbox

    The delivery half of [atomic_state.go]: listing and leasing ready intents,
    renewing and releasing delivery leases, acknowledging, dead-lettering after
    too many failures, and replaying dead letters. *)

From S2P Require Import Prelude Keys Types Graph State Slots Executions.

Definition OutboxDeliveryLeaseTTL : Duration := 5 * Second.
Abbreviation DefaultOutboxMaxDeliveryAttempts := 10.

(** ** Ready intents *)

Definition dueAt (before : Time) (e : memoryOutboxEntry) : bool :=
  negb (After (ob_leasedUntil e) before) &&
  (IsZero (oe_AvailableAt (ob_entry e)) || negb (After (oe_AvailableAt (ob_entry e)) before)).

(** A non-positive bound on a page: zero is no entries, negative is all. *)
Definition bounded {A} (limit : Z) (l : list A) : list A :=
  if (0 <? limit) && (limit <? Z.of_nat (length l)) then take (Z.to_nat limit) l else l.

Definition readyOutboxIDsLocked (s : memoryState) (id : string) (before : Time)
    (limit : Z) : list string :=
  let entries := outboxOf s id in
  if bool_decide (entries = ∅) || (limit =? 0) || dispatchHeldLocked s id then []
  else
    let ids := map fst (filter (fun kv => dueAt before kv.2 = true) (map_to_list entries)) in
    bounded limit (sortSlice String.ltb ids).

Definition ListOutbox (s : memoryState) (id : string) (before : Time) (limit : Z)
    : list OutboxEntry :=
  omap (fun entryID => cloneOutboxEntry ∘ ob_entry <$> outboxOf s id !! entryID)
    (readyOutboxIDsLocked s id before limit).

(** Writing one entry of one execution's outbox in place. *)
Definition setOutbox (s : memoryState) (id entryID : string) (e : memoryOutboxEntry)
    : memoryState :=
  s <| outbox ::= alter <[entryID := e]> id |>.

Fixpoint leaseAll (now : Time) (s : memoryState) (id : string) (ids : list string)
    : memoryState * list OutboxEntry :=
  match ids with
  | [] => (s, [])
  | entryID :: ids =>
      match outboxOf s id !! entryID with
      | None => leaseAll now s id ids
      | Some held =>
          let held := held <| ob_leasedUntil := Add now OutboxDeliveryLeaseTTL |> in
          let s := setOutbox s id entryID held in
          let leased := cloneOutboxEntry (ob_entry held)
                          <| oe_LeaseDeadlineMs := UnixMilli (ob_leasedUntil held) |> in
          let '(s, out) := leaseAll now s id ids in
          (s, leased :: out)
      end
  end.

Definition LeaseOutbox (s : memoryState) (id : string) (now : Time) (limit : Z)
    : memoryState * list OutboxEntry :=
  leaseAll now s id (readyOutboxIDsLocked s id now limit).

Definition renewOne (now : Time) (id : string) (acc : memoryState * list OutboxEntry)
    (entry : OutboxEntry) : memoryState * list OutboxEntry :=
  let '(s, out) := acc in
  let deadline := Add now OutboxDeliveryLeaseTTL in
  match outboxOf s id !! oe_ID entry with
  | None => (s, out)
  | Some held =>
      if negb (After (ob_leasedUntil held) now) then (s, out)
      else if negb (UnixMilli (ob_leasedUntil held) =? oe_LeaseDeadlineMs entry) then (s, out)
      else
        let held := held <| ob_leasedUntil := deadline |> in
        let renewed := cloneOutboxEntry (ob_entry held)
                         <| oe_LeasedFromScoreMs := oe_LeasedFromScoreMs entry |>
                         <| oe_LeaseDeadlineMs := UnixMilli deadline |> in
        (setOutbox s id (oe_ID entry) held, out ++ [renewed])
  end.

Definition RenewOutbox (s : memoryState) (id : string) (renew : list OutboxEntry)
    (now : Time) : memoryState * list OutboxEntry :=
  foldl (renewOne now id) (s, []) renew.

(** Deletes an entry, and the execution's outbox with its last entry. *)
Definition deleteEntry {A} (id entryID : string) (m : gmap string (gmap string A))
    : gmap string (gmap string A) :=
  match m !! id with
  | None => m
  | Some entries =>
      let entries := delete entryID entries in
      if decide (entries = ∅) then delete id m else <[id := entries]> m
  end.

Definition AckOutbox (s : memoryState) (id entryID : string) : memoryState :=
  s <| outbox ::= deleteEntry id entryID |>.

Definition ReleaseOutbox (s : memoryState) (id : string) (entry : OutboxEntry)
    : memoryState :=
  match outboxOf s id !! oe_ID entry with
  | None => s
  | Some held => setOutbox s id (oe_ID entry) (held <| ob_leasedUntil := zeroTime |>)
  end.

(** ** Dead letters *)

(** The text before the first slash; without a slash, the empty string. *)
Fixpoint beforeSlash (s : string) : option string :=
  match s with
  | EmptyString => None
  | String c s =>
      if decide (c = "/"%char) then Some "" else String c <$> beforeSlash s
  end.

Definition deadLetterIntent (entryID : string) : string := default "" (beforeSlash entryID).

Record OutboxDeliveryFailure : Type := mkFailure {
  df_Attempts : Z;
  df_DeadLettered : bool
}.

Definition RecordOutboxFailure (s : memoryState) (id : string) (entry : OutboxEntry)
    (maxAttempts : Z) : memoryState * OutboxDeliveryFailure :=
  let entryID := oe_ID entry in
  match outboxOf s id !! entryID with
  | None => (s, mkFailure 0 false)
  | Some stored =>
      let maxAttempts :=
        if maxAttempts <=? 0 then DefaultOutboxMaxDeliveryAttempts else maxAttempts in
      let stored := stored <| ob_entry ::= fun o => o <| oe_Attempts ::= Z.succ |> |> in
      let attempts := oe_Attempts (ob_entry stored) in
      if maxAttempts <=? attempts then
        let s := s <| outbox ::= deleteEntry id entryID |> in
        let meta := mkDeadMeta (t_NodeName (oe_Task entry))
                      (itoa (t_ActivationID (oe_Task entry))) (deadLetterIntent entryID) in
        let stored := stored <| ob_deadMeta := Some meta |> in
        let dead := default ∅ (deadOutbox s !! id) in
        let s := s <| deadOutbox ::= <[id := <[entryID := stored]> dead]> |>
                   <| replayEntryIdx ::= alter (delete entryID) id |> in
        (s, mkFailure attempts true)
      else (setOutbox s id entryID stored, mkFailure attempts false)
  end.

Record ReplayDeadLetterRequest : Type := mkReplayRequest {
  rq_ExecutionID : string;
  rq_EntryID : string;
  rq_RequestID : string;
  rq_Operator : string;
  rq_Reason : string
}.

Record ReplayDeadLetterResult : Type := mkReplayResult {
  rp_Outcome : DeadLetterReplayOutcome;
  rp_AuditID : string;
  rp_ExecutionID : string;
  rp_NodeID : string;
  rp_ActivationID : string
}.

Definition receiptResult (r : memoryReplayReceipt) (id : string) : ReplayDeadLetterResult :=
  let outcome := if decide (rr_outcome r = ReplayReplayed) then ReplayAlreadyReplayed
                 else rr_outcome r in
  mkReplayResult outcome (rr_auditID r) id (rr_node r) (rr_activation r).

Definition replayIntentAllowsNode (intent : string) (node : option NodeSnapshot) : bool :=
  let among (l : list string) := bool_decide (intent ∈ l) in
  match node with
  | None => among ["root"; "execute"; "skip"]
  | Some n =>
      match ns_Status n with
      | NodeStatusPending => among ["root"; "retry"; "requeue"; "resume"; "execute"; "skip"]
      | NodeStatusRunning | NodeStatusCommitting | NodeStatusWaiting =>
          among ["root"; "retry"; "requeue"; "execute"; "skip"]
      | NodeStatusSuspended => among ["resume"]
      | _ => false
      end
  end.

Definition writeReplayReceiptLocked (now : Time) (s : memoryState)
    (req : ReplayDeadLetterRequest) (requestID auditID : string)
    (meta : memoryDeadLetterMeta) (outcome : DeadLetterReplayOutcome)
    : memoryState * memoryReplayReceipt :=
  let receipt := mkReceipt auditID (dm_node meta) (dm_activation meta) (rq_EntryID req)
                   (rq_Operator req) (rq_Reason req) outcome (UnixMilli now) in
  let receipts := default ∅ (replayReceipts s !! rq_ExecutionID req) in
  (s <| replayReceipts ::= <[rq_ExecutionID req := <[requestID := receipt]> receipts]> |>,
   receipt).

(** The guards of a replay (steps 3 to 6); [None] lets the entry through. *)
Definition replayGuard (s : memoryState) (id : string) (meta : memoryDeadLetterMeta)
    : option DeadLetterReplayOutcome :=
  let intent := dm_intent meta in
  if decide (dm_node meta = "" \/ dm_activation meta = "")
  then Some ReplayRejectedMetadataMissing
  else
    match executions s !! id with
    | None => Some ReplayRejectedInactive
    | Some exec =>
        if decide (status exec <> ExecutionStatusRunning) then Some ReplayRejectedTerminal
        else
          let node := nodes s !! memoryNodeKey id (dm_node meta) in
          let nodeTerminal :=
            match node with Some n => IsTerminalNodeStatus (ns_Status n) | None => false end in
          let refused :=
            if decide (intent = "advance" \/ intent = "mergecancel") then
              if negb nodeTerminal then Some ReplayRejectedMetadataMissing else None
            else if nodeTerminal then Some ReplayRejectedNodeTerminal
            else if negb (replayIntentAllowsNode intent node)
            then Some ReplayRejectedMetadataMissing else None in
          match refused with
          | Some outcome => Some outcome
          | None =>
              match node with
              | None => None
              | Some n =>
                  if decide (itoa (ns_ActivationID n) <> dm_activation meta)
                  then Some ReplayRejectedActivationMismatch else None
              end
          end
    end.

Definition replayRequestID (req : ReplayDeadLetterRequest) : string :=
  if decide (rq_RequestID req = "") then rq_EntryID req else rq_RequestID req.

(** A receipt under the request id, else one a successful replay of the entry
    left under another request id. *)
Definition priorReceipt (s : memoryState) (req : ReplayDeadLetterRequest)
    : option memoryReplayReceipt :=
  let receipts := default ∅ (replayReceipts s !! rq_ExecutionID req) in
  match receipts !! replayRequestID req with
  | Some r => Some r
  | None =>
      let prior := default "" (default ∅ (replayEntryIdx s !! rq_ExecutionID req)
                                 !! rq_EntryID req) in
      if decide (prior <> "") then receipts !! prior else None
  end.

Definition ReplayDeadLetter (now : Time) (s : memoryState) (req : ReplayDeadLetterRequest)
    : memoryState * ReplayDeadLetterResult :=
  let id := rq_ExecutionID req in
  let notFound := mkReplayResult ReplayNotFound "" id "" "" in
  if decide (rq_EntryID req = "") then (s, notFound)
  else
    let requestID := replayRequestID req in
    match priorReceipt s req with
    | Some r => (s, receiptResult r id)
    | None =>
        match default ∅ (deadOutbox s !! id) !! rq_EntryID req with
        | None => (s, notFound)
        | Some stored =>
            let meta := default (mkDeadMeta "" "" "") (ob_deadMeta stored) in
            let auditID := requestID +:+ ":" +:+ itoa (UnixMilli now) in
            match replayGuard s id meta with
            | Some outcome =>
                let '(s, receipt) :=
                  writeReplayReceiptLocked now s req requestID auditID meta outcome in
                (s, receiptResult receipt id)
            | None =>
                let stored := stored <| ob_entry ::= fun o => o <| oe_Attempts := 0 |> |>
                                <| ob_leasedUntil := zeroTime |> <| ob_deadMeta := None |> in
                let s := s <| outbox ::= <[id := <[rq_EntryID req := stored]> (outboxOf s id)]> |>
                           <| deadOutbox ::= deleteEntry id (rq_EntryID req) |> in
                let '(s, receipt) :=
                  writeReplayReceiptLocked now s req requestID auditID meta ReplayReplayed in
                let index := default ∅ (replayEntryIdx s !! id) in
                let s := s <| replayEntryIdx ::=
                           <[id := <[rq_EntryID req := requestID]> index]> |> in
                (s, mkReplayResult ReplayReplayed (rr_auditID receipt) id (rr_node receipt)
                      (rr_activation receipt))
            end
        end
    end.

(** ** Reads *)

Record OutboxMetricsSnapshot : Type := mkMetrics {
  om_Pending : Z;
  om_Ready : Z;
  om_DeadLettered : Z;
  om_OldestPendingAt : Time
}.

#[export] Instance Eta_OutboxMetricsSnapshot : Eta OutboxMetricsSnapshot := fun r =>
  mkMetrics (om_Pending r) (om_Ready r) (om_DeadLettered r) (om_OldestPendingAt r).

Definition meterEntry (now : Time) (m : OutboxMetricsSnapshot) (stored : memoryOutboxEntry)
    : OutboxMetricsSnapshot :=
  let m := m <| om_Pending ::= Z.succ |> in
  let availableAt := oe_AvailableAt (ob_entry stored) in
  let m := if IsZero availableAt || negb (After availableAt now)
           then m <| om_Ready ::= Z.succ |> else m in
  let createdAt := oe_CreatedAt (ob_entry stored) in
  let createdAt := if IsZero createdAt then availableAt else createdAt in
  if negb (IsZero createdAt) &&
     (IsZero (om_OldestPendingAt m) || Before createdAt (om_OldestPendingAt m))
  then m <| om_OldestPendingAt := createdAt |> else m.

Definition OutboxMetrics (now : Time) (s : memoryState) : OutboxMetricsSnapshot :=
  let stored := (map_to_list (outbox s)).*2 ≫= fun es => (map_to_list es).*2 in
  let m := foldl (meterEntry now) (mkMetrics 0 0 0 zeroTime) stored in
  m <| om_DeadLettered :=
      foldr Z.add 0 (map (fun es => Z.of_nat (size es.2)) (map_to_list (deadOutbox s))) |>.

Record DeadLetterPage : Type := mkPage { pg_Cursor : string; pg_Limit : Z }.
Record DeadLetterList : Type := mkDeadLetterList {
  dl_Entries : list OutboxEntry;
  dl_NextCursor : string
}.

Definition deadAge (e : OutboxEntry) : Time :=
  if IsZero (oe_CreatedAt e) then oe_AvailableAt e else oe_CreatedAt e.

(** What follows the first entry with the cursor's id. *)
Fixpoint afterCursor (cursor : string) (l : list OutboxEntry) : list OutboxEntry :=
  match l with
  | [] => []
  | e :: l => if decide (oe_ID e <> cursor) then afterCursor cursor l else l
  end.

(** [out] is the order the unstable sort left the entries in: any arrangement
    of the dead entries that is sorted by age. *)
Definition pageOf (out : list OutboxEntry) (page : DeadLetterPage) : DeadLetterList :=
  let limit := if pg_Limit page <=? 0 then 100 else pg_Limit page in
  let limit := if 500 <? limit then 500 else limit in
  let page2 := if decide (pg_Cursor page <> "") then afterCursor (pg_Cursor page) out else out in
  if limit <? Z.of_nat (length page2)
  then mkDeadLetterList (take (Z.to_nat limit) page2)
         (default "" (oe_ID <$> page2 !! Z.to_nat (limit - 1)))
  else mkDeadLetterList page2 "".

Definition deadEntries (s : memoryState) (id : string) : list OutboxEntry :=
  map (fun kv => ob_entry kv.2) (map_to_list (default ∅ (deadOutbox s !! id))).

Definition ListDeadLetters (s : memoryState) (id : string) (page : DeadLetterPage)
    : DeadLetterList :=
  pageOf (sortSlice (fun a b => Before (deadAge a) (deadAge b)) (deadEntries s id)) page.

Definition allOutboxEntriesHeld (entries : gmap string memoryOutboxEntry) : bool :=
  bool_decide (map_Forall (fun _ e => isHeld e = true) entries).

Definition ListOutboxExecutions (s : memoryState) (limit : Z) : list string :=
  bounded limit (sortSlice String.ltb
    (map fst (filter (fun kv => (bool_decide (kv.2 = ∅) || allOutboxEntriesHeld kv.2) = false)
       (map_to_list (outbox s))))).

#[global] Arguments readyOutboxIDsLocked : simpl never.
#[global] Arguments LeaseOutbox : simpl never.
#[global] Arguments RenewOutbox : simpl never.
#[global] Arguments renewOne : simpl never.
#[global] Arguments RecordOutboxFailure : simpl never.
#[global] Arguments ReplayDeadLetter : simpl never.
#[global] Arguments replayIntentAllowsNode : simpl never.

(** ** A worked outbox

    One running execution with one execute intent, and the same with that
    intent dead-lettered. *)

Definition demoEntry : OutboxEntry :=
  newOutboxEntry "execute/e1/a/0"
    (zeroTask <| t_ExecutionID := "e1" |> <| t_NodeName := "a" |>) zeroTime.
Definition demoOutbox : memoryState :=
  (CreateExecutionWithOutbox false 1 (newMemoryState false) demoExecution [demoEntry]).1.
Definition demoDead : memoryState := (RecordOutboxFailure demoOutbox "e1" demoEntry 1).1.
Definition demoReplay : ReplayDeadLetterRequest :=
  mkReplayRequest "e1" "execute/e1/a/0" "r1" "op" "why".

(** ** What is ready *)

Lemma elem_of_bounded {A} limit (l : list A) x : x ∈ bounded limit l -> x ∈ l.
Proof. unfold bounded. case_match; [apply subseteq_take|done]. Qed.

Lemma elem_of_sortSlice {A} (less : A -> A -> bool) l x : x ∈ sortSlice less l <-> x ∈ l.
Proof. unfold sortSlice. by rewrite merge_sort_Permutation. Qed.

(** An intent of the execution that is due and that nobody is delivering. *)
Definition ready (s : memoryState) (id : string) (before : Time) (eid : string) : Prop :=
  exists e, outboxOf s id !! eid = Some e /\ dueAt before e = true /\
    dispatchHeldLocked s id = false.

Lemma elem_of_due before (m : gmap string memoryOutboxEntry) eid :
  eid ∈ map fst (filter (fun kv => dueAt before kv.2 = true) (map_to_list m)) <->
  exists e, m !! eid = Some e /\ dueAt before e = true.
Proof.
  rewrite list_elem_of_fmap. split.
  - intros ([k e] & -> & [Hd Hk]%list_elem_of_filter). simpl in *.
    apply elem_of_map_to_list in Hk. eauto.
  - intros (e & Hk & Hd). exists (eid, e). split; [done|].
    apply list_elem_of_filter. split; [done|]. by apply elem_of_map_to_list.
Qed.

Lemma elem_of_ready s id before limit eid :
  eid ∈ readyOutboxIDsLocked s id before limit -> ready s id before eid.
Proof.
  unfold readyOutboxIDsLocked, ready.
  destruct (bool_decide (outboxOf s id = ∅)); [by intros ?%elem_of_nil|].
  destruct (limit =? 0); [by intros ?%elem_of_nil|].
  destruct (dispatchHeldLocked s id); [by intros ?%elem_of_nil|]. simpl.
  intros Hin%elem_of_bounded%elem_of_sortSlice%elem_of_due.
  destruct Hin as (e & ? & ?). eauto.
Qed.

(** ** Writing entries in place *)

Lemma outboxOf_setOutbox s id eid e0 e id' :
  outboxOf s id !! eid = Some e0 ->
  outboxOf (setOutbox s id eid e) id'
  = if decide (id' = id) then <[eid := e]> (outboxOf s id') else outboxOf s id'.
Proof.
  intros H0. unfold outboxOf, setOutbox in *. simpl. case_decide as E.
  - subst. rewrite lookup_alter_eq. destruct (outbox s !! id); simpl in *; [done|].
    by rewrite lookup_empty in H0.
  - by rewrite lookup_alter_ne.
Qed.

Lemma lookup_setOutbox s id eid e0 e id' eid' :
  outboxOf s id !! eid = Some e0 ->
  outboxOf (setOutbox s id eid e) id' !! eid'
  = if decide (id' = id /\ eid' = eid) then Some e else outboxOf s id' !! eid'.
Proof.
  intros H0. rewrite (outboxOf_setOutbox s id eid e0) by done.
  repeat case_decide; destruct_and?; subst; try done.
  - by rewrite lookup_insert_eq.
  - by rewrite lookup_insert_ne by (intros ->; tauto).
Qed.

Definition leaseUntil (t : Time) (e : memoryOutboxEntry) : memoryOutboxEntry :=
  e <| ob_leasedUntil := t |>.

Lemma leaseAll_lookup now s id ids id' eid :
  outboxOf (leaseAll now s id ids).1 id' !! eid
  = if decide (id' = id /\ eid ∈ ids)
    then leaseUntil (Add now OutboxDeliveryLeaseTTL) <$> outboxOf s id' !! eid
    else outboxOf s id' !! eid.
Proof.
  revert s. induction ids as [|x ids IH]; intros s; simpl.
  { by rewrite decide_False by (by intros [_ ?%elem_of_nil]). }
  destruct (outboxOf s id !! x) as [held|] eqn:Ex.
  - specialize (IH (setOutbox s id x (leaseUntil (Add now OutboxDeliveryLeaseTTL) held))).
    change (held <| ob_leasedUntil := Add now OutboxDeliveryLeaseTTL |>)
      with (leaseUntil (Add now OutboxDeliveryLeaseTTL) held).
    destruct (leaseAll _ _ _ ids) as [s' out]. cbn [fst] in *. rewrite IH.
    rewrite (lookup_setOutbox s id x held) by done. clear IH.
    destruct (decide (id' = id /\ eid = x)) as [[-> ->]|Hne].
    + rewrite (decide_True (P := id = id /\ x ∈ x :: ids)) by (split; [done|by left]).
      rewrite Ex. by case_decide.
    + apply decide_ext. set_solver.
  - rewrite IH. destruct (decide (id' = id /\ eid = x)) as [[-> ->]|Hne].
    + rewrite Ex. by repeat case_decide.
    + apply decide_ext. set_solver.
Qed.

Lemma put_keeps now s id entry id' eid e :
  outboxOf s id' !! eid = Some e ->
  outboxOf (putOutboxEntryLocked now s id entry).1 id' !! eid = Some e.
Proof.
  intros He. unfold putOutboxEntryLocked. case_decide; [done|].
  destruct (outboxOf s id !! oe_ID entry) eqn:Ex; [done|]. unfold outboxOf in *. simpl.
  destruct (decide (id' = id)) as [->|]; [|by rewrite lookup_insert_ne].
  rewrite lookup_insert_eq. simpl. rewrite lookup_insert_ne; [done|].
  intros E. repeat case_match; simpl in E; congruence.
Qed.

Lemma lookup_deleteEntry {A} id' eid' (m : gmap string (gmap string A)) id eid :
  default ∅ (deleteEntry id' eid' m !! id) !! eid
  = if decide (id = id' /\ eid = eid') then None else default ∅ (m !! id) !! eid.
Proof.
  unfold deleteEntry. destruct (m !! id') as [es|] eqn:Em.
  - destruct (decide (id = id')) as [->|Hid].
    + rewrite Em. simpl. destruct (decide (delete eid' es = ∅)) as [E|E].
      * rewrite lookup_delete_eq. simpl. rewrite lookup_empty.
        destruct (decide (eid = eid')) as [->|Hne]; [by rewrite decide_True|].
        rewrite decide_False by tauto. rewrite <- (lookup_delete_ne es eid' eid), E by done.
        by rewrite lookup_empty.
      * rewrite lookup_insert_eq. simpl. destruct (decide (eid = eid')) as [->|Hne].
        -- rewrite lookup_delete_eq. by rewrite decide_True.
        -- rewrite lookup_delete_ne by done. by rewrite decide_False by tauto.
    + rewrite (decide_False (P := id = id' /\ _)) by tauto.
      case_decide; [by rewrite lookup_delete_ne|by rewrite lookup_insert_ne].
  - case_decide as E; [|done]. destruct E as [-> _]. rewrite Em. simpl. apply lookup_empty.
Qed.

Lemma outboxOf_ack s id' eid' id eid :
  outboxOf (AckOutbox s id' eid') id !! eid
  = if decide (id = id' /\ eid = eid') then None else outboxOf s id !! eid.
Proof. unfold outboxOf, AckOutbox. simpl. apply lookup_deleteEntry. Qed.

Lemma renewOne_lookup now id' acc entry id eid :
  outboxOf (renewOne now id' acc entry).1 id !! eid = outboxOf acc.1 id !! eid \/
  exists e, outboxOf acc.1 id !! eid = Some e /\
    After (ob_leasedUntil e) now = true /\
    UnixMilli (ob_leasedUntil e) = oe_LeaseDeadlineMs entry /\ oe_ID entry = eid /\
    outboxOf (renewOne now id' acc entry).1 id !! eid
    = Some (leaseUntil (Add now OutboxDeliveryLeaseTTL) e).
Proof.
  destruct acc as [s out]. unfold renewOne. cbn [fst].
  destruct (outboxOf s id' !! oe_ID entry) as [held|] eqn:Eh; [|by left].
  destruct (After (ob_leasedUntil held) now) eqn:Ea; [|by left]. simpl.
  destruct (Z.eqb_spec (UnixMilli (ob_leasedUntil held)) (oe_LeaseDeadlineMs entry)); [|by left].
  simpl. rewrite (lookup_setOutbox s id' (oe_ID entry) held) by done.
  case_decide as E; [|by left]. destruct E as [-> ->]. right. exists held. by split_and!.
Qed.

Lemma release_outbox_lookup s id' entry id eid :
  ~ (id = id' /\ eid = oe_ID entry) ->
  outboxOf (ReleaseOutbox s id' entry) id !! eid = outboxOf s id !! eid.
Proof.
  intros Hne. unfold ReleaseOutbox. destruct (outboxOf s id' !! oe_ID entry) eqn:E; [|done].
  rewrite (lookup_setOutbox s id' (oe_ID entry) m) by done. by rewrite decide_False.
Qed.

Lemma fail_outbox_lookup s id' entry maxA id eid :
  ~ (id = id' /\ eid = oe_ID entry) ->
  outboxOf (RecordOutboxFailure s id' entry maxA).1 id !! eid = outboxOf s id !! eid.
Proof.
  intros Hne. unfold RecordOutboxFailure.
  destruct (outboxOf s id' !! oe_ID entry) as [st|] eqn:E; [|done].
  match goal with |- context [?a <=? ?b] => destruct (a <=? b) end; cbn [fst].
  - unfold outboxOf. simpl. rewrite lookup_deleteEntry. by rewrite decide_False.
  - rewrite (lookup_setOutbox s id' (oe_ID entry) st) by done. by rewrite decide_False.
Qed.

(** ** Exclusive delivery

    What other flushes and the rest of the store may do, no earlier than [t0],
    to a claimed intent: anything but acknowledging, releasing or failing that
    very intent, which only its deliverer does. *)

Inductive delivery_step (t0 : Time) (id eid : string) : memoryState -> memoryState -> Prop :=
| ds_lease s id' now limit :
    t0 <= now -> delivery_step t0 id eid s (LeaseOutbox s id' now limit).1
| ds_renew s id' renew now :
    t0 <= now -> delivery_step t0 id eid s (RenewOutbox s id' renew now).1
| ds_put s id' now entry :
    delivery_step t0 id eid s (putOutboxEntryLocked now s id' entry).1
| ds_ack s id' eid' :
    ~ (id = id' /\ eid = eid') -> delivery_step t0 id eid s (AckOutbox s id' eid')
| ds_release s id' entry :
    ~ (id = id' /\ eid = oe_ID entry) -> delivery_step t0 id eid s (ReleaseOutbox s id' entry)
| ds_fail s id' entry maxA :
    ~ (id = id' /\ eid = oe_ID entry) ->
    delivery_step t0 id eid s (RecordOutboxFailure s id' entry maxA).1
| ds_other s s' : outbox s' = outbox s -> delivery_step t0 id eid s s'.

(** The intent is there and claimed at least until [d]. *)
Definition leased_past (d : Time) (s : memoryState) (id eid : string) : Prop :=
  exists e, outboxOf s id !! eid = Some e /\ d <= ob_leasedUntil e.

Lemma leased_past_not_ready d s id eid t :
  leased_past d s id eid -> t < d -> ~ ready s id t eid.
Proof.
  intros (e & He & Hd) Ht (e' & He' & Hdue & _). simplify_eq.
  unfold dueAt, After in Hdue. destruct (Z.ltb_spec t (ob_leasedUntil e)); [done|lia].
Qed.

Lemma renew_leased_past d t0 s out id' renew now id eid :
  d <= Add t0 OutboxDeliveryLeaseTTL -> t0 <= now ->
  leased_past d s id eid -> leased_past d (foldl (renewOne now id') (s, out) renew).1 id eid.
Proof.
  intros Hd Ht. revert s out. induction renew as [|r renew IH]; intros s out H; [done|]. simpl.
  pose proof (renewOne_lookup now id' (s, out) r id eid) as Hr.
  destruct (renewOne now id' (s, out) r) as [s' out']. apply IH. cbn [fst] in Hr.
  destruct H as (e & He & Hle). destruct Hr as [Er|(e' & _ & _ & _ & _ & Er)].
  - exists e. by rewrite Er.
  - exists (leaseUntil (Add now OutboxDeliveryLeaseTTL) e'). split; [done|].
    simpl. unfold Add in *. lia.
Qed.

Lemma delivery_step_leased d t0 id eid s s' :
  d <= Add t0 OutboxDeliveryLeaseTTL ->
  delivery_step t0 id eid s s' -> leased_past d s id eid -> leased_past d s' id eid.
Proof.
  intros Hd Hstep. destruct Hstep as [s id' now limit Ht|s id' renew now Ht|s id' now entry
    |s id' eid' Hne|s id' entry Hne|s id' entry maxA Hne|s s' E]; intros H.
  - destruct H as (e & He & Hle). unfold LeaseOutbox, leased_past.
    rewrite leaseAll_lookup. case_decide as Hin; [|eauto].
    rewrite He. simpl. eexists; split; [done|]. simpl. unfold Add in *. lia.
  - by eapply renew_leased_past.
  - destruct H as (e & He & Hle). exists e. by split; [apply put_keeps|].
  - destruct H as (e & He & Hle). exists e. rewrite outboxOf_ack. by rewrite decide_False.
  - destruct H as (e & He & Hle). exists e. by rewrite release_outbox_lookup.
  - destruct H as (e & He & Hle). exists e. by rewrite fail_outbox_lookup.
  - destruct H as (e & He & Hle). exists e. unfold outboxOf. by rewrite E.
Qed.

Lemma delivery_leased d t0 id eid s s' :
  d <= Add t0 OutboxDeliveryLeaseTTL ->
  rtc (delivery_step t0 id eid) s s' -> leased_past d s id eid -> leased_past d s' id eid.
Proof. intros Hd. induction 1; eauto using delivery_step_leased. Qed.

Lemma lease_leased s id now limit eid :
  eid ∈ readyOutboxIDsLocked s id now limit ->
  exists e, outboxOf s id !! eid = Some e /\
    outboxOf (LeaseOutbox s id now limit).1 id !! eid
    = Some (leaseUntil (Add now OutboxDeliveryLeaseTTL) e).
Proof.
  intros Hin. destruct (elem_of_ready _ _ _ _ _ Hin) as (e & He & _). exists e.
  split; [done|]. unfold LeaseOutbox. rewrite leaseAll_lookup, decide_True by done.
  by rewrite He.
Qed.

(** A claimed intent is delivered by its claimer alone: whatever the rest of
    the store does meanwhile, no flush finds the intent ready before the claim
    runs out, unless the claimer acknowledges, releases or fails it. *)
Theorem lease_exclusive s id now limit eid s' t limit' :
  eid ∈ readyOutboxIDsLocked s id now limit ->
  rtc (delivery_step now id eid) (LeaseOutbox s id now limit).1 s' ->
  t < Add now OutboxDeliveryLeaseTTL ->
  eid ∉ readyOutboxIDsLocked s' id t limit'.
Proof.
  intros Hin Hrtc Ht Hin'. apply elem_of_ready in Hin'.
  eapply leased_past_not_ready; [|exact Ht|exact Hin'].
  eapply delivery_leased; [done|exact Hrtc|].
  destruct (lease_leased s id now limit eid Hin) as (e & _ & He). by eexists.
Qed.

Lemma lease_exclusive_witness :
  oe_ID demoEntry ∉ readyOutboxIDsLocked (LeaseOutbox demoOutbox "e1" 10 1).1 "e1" 11 1.
Proof.
  apply (lease_exclusive demoOutbox "e1" 10 1 (oe_ID demoEntry)
    (LeaseOutbox demoOutbox "e1" 10 1).1 11 1); [vm_compute; by left|apply rtc_refl|done].
Defined.

(** Consecutive claims of one intent have deadlines a full claim apart. *)
Lemma UnixMilli_apart t u : t + OutboxDeliveryLeaseTTL <= u -> UnixMilli u <> UnixMilli t.
Proof.
  unfold UnixMilli, OutboxDeliveryLeaseTTL, Second, Millisecond. intros H E.
  assert ((t - unixEpoch) / 1000000 + 5000 <= (u - unixEpoch) / 1000000); [|lia].
  rewrite <- Z.div_add by lia. apply Z.div_le_mono; lia.
Qed.

(** A deliverer whose claim lapsed and whose intent another flush has claimed
    since cannot renew: its renewal grants nothing and changes nothing. *)
Theorem stale_renewal_refused s1 id now1 limit1 s2 now2 limit2 now3 e :
  oe_ID e ∈ readyOutboxIDsLocked s1 id now1 limit1 ->
  oe_LeaseDeadlineMs e = UnixMilli (Add now1 OutboxDeliveryLeaseTTL) ->
  rtc (delivery_step now1 id (oe_ID e)) (LeaseOutbox s1 id now1 limit1).1 s2 ->
  oe_ID e ∈ readyOutboxIDsLocked s2 id now2 limit2 ->
  RenewOutbox (LeaseOutbox s2 id now2 limit2).1 id [e] now3
  = ((LeaseOutbox s2 id now2 limit2).1, []).
Proof.
  intros H1 Hms Hrtc H2.
  assert (Hle : Add now1 OutboxDeliveryLeaseTTL <= now2).
  { destruct (Z.le_gt_cases (Add now1 OutboxDeliveryLeaseTTL) now2); [done|]. exfalso.
    destruct (lease_leased s1 id now1 limit1 (oe_ID e) H1) as (e1 & _ & He1).
    eapply leased_past_not_ready; [|done|by eapply elem_of_ready].
    eapply delivery_leased; [done|exact Hrtc|]. by eexists. }
  destruct (lease_leased s2 id now2 limit2 (oe_ID e) H2) as (e2 & _ & He2).
  unfold RenewOutbox, renewOne. simpl. rewrite He2. simpl.
  destruct (After _ now3); [|done]. simpl.
  destruct (Z.eqb_spec (UnixMilli (Add now2 OutboxDeliveryLeaseTTL)) (oe_LeaseDeadlineMs e))
    as [E|]; [|done].
  rewrite Hms in E. exfalso. revert E. apply UnixMilli_apart. unfold Add in *. lia.
Qed.

Lemma stale_renewal_refused_witness :
  let s2 := (LeaseOutbox demoOutbox "e1" 10 1).1 in
  let e := demoEntry <| oe_LeaseDeadlineMs := UnixMilli (Add 10 OutboxDeliveryLeaseTTL) |> in
  (RenewOutbox (LeaseOutbox s2 "e1" 5000000010 1).1 "e1" [e] 5000000011).2 = [].
Proof.
  intros s2 e. by rewrite (stale_renewal_refused demoOutbox "e1" 10 1 s2 5000000010 1
    5000000011 e); [|vm_compute; by left|done|apply rtc_refl|vm_compute; by left].
Defined.

(** ** No intent is lost *)

(** Waiting for delivery or dead-lettered. *)
Definition kept (s : memoryState) (id eid : string) : Prop :=
  is_Some (outboxOf s id !! eid) \/ is_Some (default ∅ (deadOutbox s !! id) !! eid).

(** Every operation of the outbox; [acked] lists what has been acknowledged. *)
Inductive outbox_step : memoryState -> option (string * string) -> memoryState -> Prop :=
| os_lease s id now limit : outbox_step s None (LeaseOutbox s id now limit).1
| os_renew s id renew now : outbox_step s None (RenewOutbox s id renew now).1
| os_put s id now entry : outbox_step s None (putOutboxEntryLocked now s id entry).1
| os_ack s id eid : outbox_step s (Some (id, eid)) (AckOutbox s id eid)
| os_release s id entry : outbox_step s None (ReleaseOutbox s id entry)
| os_fail s id entry maxA : outbox_step s None (RecordOutboxFailure s id entry maxA).1
| os_replay s now req : outbox_step s None (ReplayDeadLetter now s req).1
| os_other s s' :
    outbox s' = outbox s -> deadOutbox s' = deadOutbox s ->
    replayReceipts s' = replayReceipts s -> replayEntryIdx s' = replayEntryIdx s ->
    outbox_step s None s'.

(** A sequence of operations and the acknowledgements among them. *)
Inductive outbox_run : memoryState -> list (string * string) -> memoryState -> Prop :=
| or_nil s : outbox_run s [] s
| or_cons s1 o s2 l s3 :
    outbox_step s1 o s2 -> outbox_run s2 l s3 -> outbox_run s1 (option_list o ++ l) s3.

Lemma leaseAll_dead now s id ids :
  let s' := (leaseAll now s id ids).1 in
  deadOutbox s' = deadOutbox s /\ replayReceipts s' = replayReceipts s.
Proof.
  revert s. induction ids as [|x ids IH]; intros s; simpl; [done|].
  case_match; [|apply IH].
  match goal with |- context [leaseAll now ?x id ids] => specialize (IH x);
    destruct (leaseAll now x id ids) end. exact IH.
Qed.

Lemma renew_dead now id s out renew :
  let s' := (foldl (renewOne now id) (s, out) renew).1 in
  deadOutbox s' = deadOutbox s /\ replayReceipts s' = replayReceipts s.
Proof.
  revert s out. induction renew as [|r renew IH]; intros s out; simpl; [done|].
  assert (Hr : deadOutbox (renewOne now id (s, out) r).1 = deadOutbox s /\
    replayReceipts (renewOne now id (s, out) r).1 = replayReceipts s).
  { unfold renewOne. by repeat case_match. }
  destruct (renewOne now id (s, out) r) as [s' out']. cbn [fst] in Hr.
  destruct Hr as [<- <-]. apply IH.
Qed.

Lemma put_dead now s id entry :
  let s' := (putOutboxEntryLocked now s id entry).1 in
  deadOutbox s' = deadOutbox s /\ replayReceipts s' = replayReceipts s.
Proof. unfold putOutboxEntryLocked. by repeat case_match. Qed.

Lemma renew_present now id' s out renew id eid :
  is_Some (outboxOf s id !! eid) ->
  is_Some (outboxOf (foldl (renewOne now id') (s, out) renew).1 id !! eid).
Proof.
  revert s out. induction renew as [|r renew IH]; intros s out H; [done|]. simpl.
  pose proof (renewOne_lookup now id' (s, out) r id eid) as Hr.
  destruct (renewOne now id' (s, out) r) as [s' out']. apply IH. cbn [fst] in Hr.
  destruct Hr as [-> |(e & _ & _ & _ & _ & ->)]; [done|by eexists].
Qed.

Lemma record_failure_lookup s id entry maxA st :
  outboxOf s id !! oe_ID entry = Some st ->
  let '(s', r) := RecordOutboxFailure s id entry maxA in
  if df_DeadLettered r then is_Some (default ∅ (deadOutbox s' !! id) !! oe_ID entry)
  else is_Some (outboxOf s' id !! oe_ID entry).
Proof.
  intros Hs. unfold RecordOutboxFailure. rewrite Hs. simpl.
  match goal with |- context [?a <=? ?b] => destruct (a <=? b) end; simpl.
  - rewrite lookup_insert_eq. simpl. rewrite lookup_insert_eq. by eexists.
  - rewrite (lookup_setOutbox s id (oe_ID entry) st) by done.
    rewrite decide_True by done. by eexists.
Qed.

(** One more delivery failure: an intent below the limit stays ready with one
    more attempt counted; at the limit it leaves the outbox and is found among
    the dead letters, with its body and the metadata a replay checks. *)
Theorem record_failure_spec s id entry maxA stored :
  let limit := if maxA <=? 0 then DefaultOutboxMaxDeliveryAttempts else maxA in
  let eid := oe_ID entry in
  let '(s', r) := RecordOutboxFailure s id entry maxA in
  outboxOf s id !! eid = Some stored ->
  df_Attempts r = oe_Attempts (ob_entry stored) + 1 /\
  (df_DeadLettered r = true <-> limit <= oe_Attempts (ob_entry stored) + 1) /\
  if df_DeadLettered r then
    outboxOf s' id !! eid = None /\
    exists dead, default ∅ (deadOutbox s' !! id) !! eid = Some dead /\
      oe_Task (ob_entry dead) = oe_Task (ob_entry stored) /\
      ob_deadMeta dead = Some (mkDeadMeta (t_NodeName (oe_Task entry))
        (itoa (t_ActivationID (oe_Task entry))) (deadLetterIntent eid))
  else exists e', outboxOf s' id !! eid = Some e' /\
    oe_Task (ob_entry e') = oe_Task (ob_entry stored) /\
    ob_leasedUntil e' = ob_leasedUntil stored.
Proof.
  simpl. destruct (RecordOutboxFailure s id entry maxA) as [s' r] eqn:E. intros Hs.
  unfold RecordOutboxFailure in E. rewrite Hs in E. simpl in E.
  set (limit := if maxA <=? 0 then _ else _) in *.
  destruct (Z.leb_spec limit (Z.succ (oe_Attempts (ob_entry stored)))); simplify_eq; simpl.
  - split; [done|]. split; [split; [intros _; lia|done]|]. split.
    + unfold outboxOf. simpl. rewrite lookup_deleteEntry. by rewrite decide_True.
    + rewrite lookup_insert_eq. simpl. rewrite lookup_insert_eq. by eexists.
  - split; [done|]. split; [split; [done|lia]|].
    rewrite (lookup_setOutbox s id (oe_ID entry) stored) by done.
    rewrite decide_True by done. by eexists.
Qed.

Lemma record_failure_spec_witness :
  df_DeadLettered (RecordOutboxFailure demoOutbox "e1" demoEntry 1).2 = true.
Proof.
  pose proof (record_failure_spec demoOutbox "e1" demoEntry 1
    (mkStored (demoEntry <| oe_CreatedAt := 1 |>) zeroTime None)) as H. cbv zeta in H.
  destruct (RecordOutboxFailure demoOutbox "e1" demoEntry 1) as [s' r].
  apply H; [by vm_compute|done].
Defined.

Lemma fail_kept s id' entry maxA id eid :
  kept s id eid -> kept (RecordOutboxFailure s id' entry maxA).1 id eid.
Proof.
  intros H. destruct (decide (id = id' /\ eid = oe_ID entry)) as [[E1 E2]|Hne].
  - subst id eid. destruct (outboxOf s id' !! oe_ID entry) as [st|] eqn:E.
    + pose proof (record_failure_lookup s id' entry maxA st E) as Hr.
      destruct (RecordOutboxFailure s id' entry maxA) as [s' r]. cbn [fst].
      destruct (df_DeadLettered r); [right|left]; tauto.
    + unfold RecordOutboxFailure. by rewrite E.
  - destruct H as [H|H]; [left; by rewrite fail_outbox_lookup|]. right.
    unfold RecordOutboxFailure. destruct (outboxOf s id' !! oe_ID entry); [|done].
    match goal with |- context [?a <=? ?b] => destruct (a <=? b) end; [|done]. simpl.
    destruct (decide (id = id')) as [->|]; [|by rewrite lookup_insert_ne].
    rewrite lookup_insert_eq. simpl. rewrite lookup_insert_ne; [done|]. intros E. apply Hne. by split.
Qed.

(** A replay either changes only receipts, or moves exactly one entry. *)
Inductive replay_shape (now : Time) (s : memoryState) (req : ReplayDeadLetterRequest)
    : memoryState -> ReplayDeadLetterResult -> Prop :=
| rs_absent :
    rq_EntryID req = "" \/ default ∅ (deadOutbox s !! rq_ExecutionID req) !! rq_EntryID req = None ->
    replay_shape now s req s (mkReplayResult ReplayNotFound "" (rq_ExecutionID req) "" "")
| rs_recorded r :
    rq_EntryID req <> "" -> priorReceipt s req = Some r ->
    replay_shape now s req s (receiptResult r (rq_ExecutionID req))
| rs_rejected stored meta outcome auditID s' r :
    rq_EntryID req <> "" -> priorReceipt s req = None ->
    default ∅ (deadOutbox s !! rq_ExecutionID req) !! rq_EntryID req = Some stored ->
    replayGuard s (rq_ExecutionID req) meta = Some outcome -> outcome <> ReplayReplayed ->
    writeReplayReceiptLocked now s req (replayRequestID req) auditID meta outcome = (s', r) ->
    replay_shape now s req s' (receiptResult r (rq_ExecutionID req))
| rs_moved stored meta auditID s1 s' r :
    rq_EntryID req <> "" -> priorReceipt s req = None ->
    default ∅ (deadOutbox s !! rq_ExecutionID req) !! rq_EntryID req = Some stored ->
    meta = default (mkDeadMeta "" "" "") (ob_deadMeta stored) ->
    replayGuard s (rq_ExecutionID req) meta = None ->
    s1 = s <| outbox ::= <[rq_ExecutionID req :=
                <[rq_EntryID req := stored <| ob_entry ::= fun o => o <| oe_Attempts := 0 |> |>
                   <| ob_leasedUntil := zeroTime |> <| ob_deadMeta := None |>]>
                  (outboxOf s (rq_ExecutionID req))]> |>
           <| deadOutbox ::= deleteEntry (rq_ExecutionID req) (rq_EntryID req) |> ->
    writeReplayReceiptLocked now s1 req (replayRequestID req) auditID meta ReplayReplayed
      = (s', r) ->
    replay_shape now s req
      (s' <| replayEntryIdx ::= <[rq_ExecutionID req := <[rq_EntryID req := replayRequestID req]>
               (default ∅ (replayEntryIdx s' !! rq_ExecutionID req))]> |>)
      (mkReplayResult ReplayReplayed auditID (rq_ExecutionID req) (dm_node meta)
         (dm_activation meta)).

Lemma receiptResult_outcome r id : rp_Outcome (receiptResult r id) <> ReplayReplayed.
Proof.
  unfold receiptResult. cbn [rp_Outcome]. destruct (decide (rr_outcome r = ReplayReplayed)); done.
Qed.

Lemma replayGuard_not_replayed s id meta : replayGuard s id meta <> Some ReplayReplayed.
Proof. unfold replayGuard. repeat case_match; congruence. Qed.

Lemma ReplayDeadLetter_shape now s req :
  replay_shape now s req (ReplayDeadLetter now s req).1 (ReplayDeadLetter now s req).2.
Proof.
  unfold ReplayDeadLetter. case_decide as He; [constructor; by left|].
  destruct (priorReceipt s req) as [r|] eqn:Hp; [by constructor|].
  destruct (_ !! rq_EntryID req) as [stored|] eqn:Hs; [|constructor; by right].
  destruct (replayGuard s (rq_ExecutionID req) _) as [outcome|] eqn:Hg.
  - cbn [writeReplayReceiptLocked fst snd]. eapply rs_rejected; [done..| |reflexivity].
    intros ->. by apply (replayGuard_not_replayed s (rq_ExecutionID req) _ Hg).
  - cbn [fst snd]. eapply rs_moved; [done..|reflexivity|done|reflexivity|reflexivity].
Qed.

Lemma replay_kept now s req id eid :
  kept s id eid -> kept (ReplayDeadLetter now s req).1 id eid.
Proof.
  intros H. destruct (ReplayDeadLetter_shape now s req)
    as [_|r _ _|stored meta outcome auditID s' r _ _ _ _ _ E
       |stored meta auditID s1 s' r _ _ Hs _ _ -> E]; try done.
  - unfold writeReplayReceiptLocked in E. simplify_eq. done.
  - unfold writeReplayReceiptLocked in E. simplify_eq. unfold kept, outboxOf in *. simpl.
    rewrite lookup_deleteEntry.
    destruct (decide (id = rq_ExecutionID req)) as [->|Hne].
    + rewrite lookup_insert_eq. simpl.
      destruct (decide (eid = rq_EntryID req)) as [->|Hne].
      * left. rewrite lookup_insert_eq. by eexists.
      * rewrite lookup_insert_ne by done. by rewrite decide_False by tauto.
    + rewrite lookup_insert_ne by done. by rewrite decide_False by tauto.
Qed.

Lemma kept_same_dead s s' id eid :
  (is_Some (outboxOf s id !! eid) -> is_Some (outboxOf s' id !! eid)) ->
  deadOutbox s' = deadOutbox s -> kept s id eid -> kept s' id eid.
Proof. intros H E [?|?]; [left; auto|right; by rewrite E]. Qed.

Lemma outbox_step_kept s o s' id eid :
  outbox_step s o s' -> o <> Some (id, eid) -> kept s id eid -> kept s' id eid.
Proof.
  intros Hstep Ho. destruct Hstep as [s id' now limit|s id' renew now|s id' now entry
    |s id' eid'|s id' entry|s id' entry maxA|s now req|s s' E1 E2 _ _].
  - apply kept_same_dead; [|apply leaseAll_dead]. intros [e He]. unfold LeaseOutbox.
    rewrite leaseAll_lookup, He. case_decide; by eexists.
  - apply kept_same_dead; [apply renew_present|apply renew_dead].
  - apply kept_same_dead; [|apply put_dead]. intros [e He]. exists e. by apply put_keeps.
  - apply kept_same_dead; [|done]. rewrite outboxOf_ack.
    rewrite decide_False; [done|]. intros [-> ->]. done.
  - apply kept_same_dead; unfold ReleaseOutbox; [|by case_match].
    destruct (outboxOf s id' !! oe_ID entry) as [m|] eqn:E; [|done].
    rewrite (lookup_setOutbox s id' (oe_ID entry) m) by done. case_decide; [by eexists|done].
  - apply fail_kept.
  - apply replay_kept.
  - unfold kept, outboxOf. by rewrite E1, E2.
Qed.

(** ** Receipts are immutable *)

Definition receiptAt (s : memoryState) (id reqID : string) : option memoryReplayReceipt :=
  default ∅ (replayReceipts s !! id) !! reqID.

Lemma writeReceipt_keeps now s req rid aid meta outcome id reqID r :
  receiptAt s (rq_ExecutionID req) rid = None -> receiptAt s id reqID = Some r ->
  receiptAt (writeReplayReceiptLocked now s req rid aid meta outcome).1 id reqID = Some r.
Proof.
  unfold receiptAt. intros Hn Hr. simpl. destruct (decide (id = rq_ExecutionID req)) as [->|];
    [|by rewrite lookup_insert_ne].
  rewrite lookup_insert_eq. simpl. rewrite lookup_insert_ne; [done|]. congruence.
Qed.

Lemma priorReceipt_none s req :
  priorReceipt s req = None -> receiptAt s (rq_ExecutionID req) (replayRequestID req) = None.
Proof. unfold priorReceipt, receiptAt. by case_match. Qed.

Lemma replay_keeps_receipts now s req id reqID r :
  receiptAt s id reqID = Some r -> receiptAt (ReplayDeadLetter now s req).1 id reqID = Some r.
Proof.
  intros H. destruct (ReplayDeadLetter_shape now s req)
    as [_|r' _ _|stored meta outcome auditID s' r' _ Hp _ _ _ E
       |stored meta auditID s1 s' r' _ Hp _ _ _ -> E]; try done.
  - pose proof (writeReceipt_keeps now s req (replayRequestID req) auditID meta outcome id reqID r
      (priorReceipt_none s req Hp) H) as Hk. by rewrite E in Hk.
  - match type of E with writeReplayReceiptLocked _ ?x _ _ _ _ _ = _ =>
      pose proof (writeReceipt_keeps now x req (replayRequestID req) auditID meta ReplayReplayed
        id reqID r (priorReceipt_none s req Hp) H) as Hk end. by rewrite E in Hk.
Qed.

Lemma outbox_step_receipts s o s' id reqID r :
  outbox_step s o s' -> receiptAt s id reqID = Some r -> receiptAt s' id reqID = Some r.
Proof.
  intros Hstep H. destruct Hstep as [s id' now limit|s id' renew now|s id' now entry
    |s id' eid'|s id' entry|s id' entry maxA|s now req|s s' _ _ E _].
  - unfold receiptAt, LeaseOutbox. by rewrite (proj2 (leaseAll_dead now s id' _)).
  - unfold receiptAt, RenewOutbox. by rewrite (proj2 (renew_dead now id' s [] renew)).
  - unfold receiptAt. by rewrite (proj2 (put_dead now s id' entry)).
  - done.
  - unfold ReleaseOutbox. by case_match.
  - unfold RecordOutboxFailure. by repeat case_match.
  - by apply replay_keeps_receipts.
  - unfold receiptAt. by rewrite E.
Qed.

Lemma outbox_run_receipts s l s' id reqID r :
  outbox_run s l s' -> receiptAt s id reqID = Some r -> receiptAt s' id reqID = Some r.
Proof. induction 1; eauto using outbox_step_receipts. Qed.

(** A decision made by a call is on record under that call's request id. *)
Lemma replay_leaves_receipt now s req :
  let '(s', res) := ReplayDeadLetter now s req in
  priorReceipt s req = None -> rp_Outcome res <> ReplayNotFound -> rq_EntryID req <> "" /\
  exists r, receiptAt s' (rq_ExecutionID req) (replayRequestID req) = Some r /\
    res = mkReplayResult (rr_outcome r) (rr_auditID r) (rq_ExecutionID req)
            (rr_node r) (rr_activation r).
Proof.
  pose proof (ReplayDeadLetter_shape now s req) as Hsh.
  destruct (ReplayDeadLetter now s req) as [s' res]. cbn [fst snd] in Hsh. intros Hp Hnf.
  destruct Hsh as [_|r He Hp'|stored meta outcome auditID s' r He _ _ _ Hne E
       |stored meta auditID s1 s' r He _ _ _ _ -> E]; [done|congruence|..];
    (split; [done|]); exists r; unfold writeReplayReceiptLocked in E; simplify_eq;
    unfold receiptAt; simpl; rewrite lookup_insert_eq; simpl; rewrite lookup_insert_eq;
    (split; [done|]); [|done].
  unfold receiptResult. simpl. by rewrite decide_False.
Qed.

(** A replay decision is final under its request id: whatever the outbox does
    afterwards, the same request is answered with the decision on record, under
    the same audit id (a replay as already replayed), and changes nothing. *)
Theorem replay_idempotent now1 s req s1 res1 acked s2 now2 :
  ReplayDeadLetter now1 s req = (s1, res1) -> priorReceipt s req = None ->
  rp_Outcome res1 <> ReplayNotFound -> outbox_run s1 acked s2 ->
  ReplayDeadLetter now2 s2 req
  = (s2, mkReplayResult
           (if decide (rp_Outcome res1 = ReplayReplayed) then ReplayAlreadyReplayed
            else rp_Outcome res1)
           (rp_AuditID res1) (rp_ExecutionID res1) (rp_NodeID res1) (rp_ActivationID res1)).
Proof.
  intros E Hp Hnf Hrun. pose proof (replay_leaves_receipt now1 s req) as Hr. rewrite E in Hr.
  destruct (Hr Hp Hnf) as (He & r & Hat & ->). simpl.
  apply (outbox_run_receipts _ _ _ _ _ _ Hrun) in Hat.
  unfold ReplayDeadLetter. rewrite decide_False by done. unfold priorReceipt.
  unfold receiptAt in Hat. by rewrite Hat.
Qed.

Lemma replay_idempotent_witness :
  rp_Outcome (ReplayDeadLetter 9 (ReplayDeadLetter 7 demoDead demoReplay).1 demoReplay).2
  = ReplayAlreadyReplayed.
Proof.
  rewrite (replay_idempotent 7 demoDead demoReplay (ReplayDeadLetter 7 demoDead demoReplay).1
    (ReplayDeadLetter 7 demoDead demoReplay).2 [] (ReplayDeadLetter 7 demoDead demoReplay).1 9).
  - by vm_compute.
  - apply surjective_pairing.
  - by vm_compute.
  - by vm_compute.
  - apply or_nil.
Defined.

(** A dead letter is put back only for a running execution, with its node
    where the intent needs it and at the recorded activation; it is then ready
    again with its body, a fresh attempt count and no claim, and no longer
    dead. *)
Theorem replay_safe now s req :
  let '(s', res) := ReplayDeadLetter now s req in
  let id := rq_ExecutionID req in
  rp_Outcome res = ReplayReplayed ->
  exists stored meta exec,
    default ∅ (deadOutbox s !! id) !! rq_EntryID req = Some stored /\
    ob_deadMeta stored = Some meta /\
    executions s !! id = Some exec /\ status exec = ExecutionStatusRunning /\
    (forall n, nodes s !! memoryNodeKey id (dm_node meta) = Some n ->
       itoa (ns_ActivationID n) = dm_activation meta /\
       (IsTerminalNodeStatus (ns_Status n) = true <->
        dm_intent meta = "advance" \/ dm_intent meta = "mergecancel")) /\
    default ∅ (deadOutbox s' !! id) !! rq_EntryID req = None /\
    exists e', outboxOf s' id !! rq_EntryID req = Some e' /\
      oe_Task (ob_entry e') = oe_Task (ob_entry stored) /\
      oe_Attempts (ob_entry e') = 0 /\ ob_leasedUntil e' = zeroTime.
Proof.
  pose proof (ReplayDeadLetter_shape now s req) as Hsh.
  destruct (ReplayDeadLetter now s req) as [s' res]. cbn [fst snd] in Hsh. cbn zeta. intros Hout.
  destruct Hsh as [_|r _ _|stored meta outcome auditID s' r _ _ _ _ Hne E
       |stored meta auditID s1 s' r _ _ Hs Hm Hg -> E]; [done|..].
  - by apply receiptResult_outcome in Hout.
  - by apply receiptResult_outcome in Hout.
  - destruct (ob_deadMeta stored) as [meta'|] eqn:Em; [|subst meta; done].
    simpl in Hm. subst meta'. unfold replayGuard in Hg.
    destruct (decide (dm_node meta = "" \/ _)) as [|_]; [done|].
    destruct (executions s !! rq_ExecutionID req) as [exec|] eqn:Ee; [|done].
    case_decide as Hrun; [done|].
    exists stored, meta, exec. split_and!; try done.
    + intros n Hn. rewrite Hn in Hg.
      destruct (decide (dm_intent meta = "advance" \/ dm_intent meta = "mergecancel")) as [Hi|Hi];
        destruct (IsTerminalNodeStatus (ns_Status n)) eqn:Ht; simpl in Hg; try done;
        destruct (replayIntentAllowsNode (dm_intent meta) (Some n)); simpl in Hg; try done;
        case_decide as Ha; try done;
        (split; [done|split; intros ?; done || tauto]).
    + unfold writeReplayReceiptLocked in E. simplify_eq. simpl. rewrite lookup_deleteEntry.
      by rewrite decide_True.
    + unfold writeReplayReceiptLocked in E. simplify_eq. unfold outboxOf. simpl.
      rewrite lookup_insert_eq. simpl. rewrite lookup_insert_eq. by eexists.
Qed.

Lemma replay_safe_witness :
  exists e', outboxOf (ReplayDeadLetter 7 demoDead demoReplay).1 "e1" !! "execute/e1/a/0" = Some e' /\
    oe_Attempts (ob_entry e') = 0.
Proof.
  pose proof (replay_safe 7 demoDead demoReplay) as H. cbv zeta in H.
  assert (Ho : rp_Outcome (ReplayDeadLetter 7 demoDead demoReplay).2 = ReplayReplayed)
    by (by vm_compute).
  destruct (ReplayDeadLetter 7 demoDead demoReplay) as [s' res].
  destruct (H Ho) as (st & meta & ex & _ & _ & _ & _ & _ & _ & e' & He & _ & Ha & _).
  exists e'. by split.
Defined.

(** ** Pages of dead letters *)

Lemma afterCursor_found l i e :
  NoDup (map oe_ID l) -> l !! i = Some e -> afterCursor (oe_ID e) l = drop (S i) l.
Proof.
  revert i. induction l as [|x l IH]; intros i Hnd Hi; [done|]. simpl in Hnd.
  apply NoDup_cons in Hnd as [Hx Hnd]. destruct i as [|i]; simpl in *.
  - simplify_eq. by rewrite decide_False by tauto.
  - rewrite decide_True; [by apply IH|]. intros E. apply Hx. rewrite E.
    apply list_elem_of_fmap. exists e. split; [done|]. by eapply list_elem_of_lookup_2.
Qed.

Lemma afterCursor_absent cursor l : cursor ∉ map oe_ID l -> afterCursor cursor l = [].
Proof.
  induction l as [|x l IH]; intros H; [done|]. simpl in *. apply not_elem_of_cons in H as [Hx H].
  rewrite decide_True by congruence. by apply IH.
Qed.

(** The bound a page is cut at. *)
Definition pageLimit (page : DeadLetterPage) : Z :=
  let limit := if pg_Limit page <=? 0 then 100 else pg_Limit page in
  if 500 <? limit then 500 else limit.

(** A page of dead letters holds what follows its cursor, up to the limit
    (between 1 and 500), and its next cursor is empty exactly on the last page;
    but when the entry the cursor names is gone, the page is empty and marked
    as the last, whatever dead letters remain. *)
Theorem dead_letter_page s id page :
  let out := sortSlice (fun a b => Before (deadAge a) (deadAge b)) (deadEntries s id) in
  let r := ListDeadLetters s id page in
  NoDup (map oe_ID out) ->
  (1 <= pageLimit page <= 500) /\
  (pg_Cursor page <> "" -> pg_Cursor page ∉ map oe_ID out ->
     r = mkDeadLetterList [] "") /\
  (forall rest, (pg_Cursor page = "" /\ rest = out \/
     exists i e, out !! i = Some e /\ oe_ID e = pg_Cursor page /\ oe_ID e <> "" /\
       rest = drop (S i) out) ->
     dl_Entries r = take (Z.to_nat (pageLimit page)) rest /\
     (dl_NextCursor r <> "" -> (Z.to_nat (pageLimit page) < length rest)%nat /\
        oe_ID <$> last (dl_Entries r) = Some (dl_NextCursor r))).
Proof.
  intros out r Hnd. unfold r, ListDeadLetters, pageOf. fold out.
  assert (Hl : 1 <= pageLimit page <= 500) by (unfold pageLimit; repeat case_match; lia).
  change (if 500 <? (if pg_Limit page <=? 0 then 100 else pg_Limit page) then 500
          else if pg_Limit page <=? 0 then 100 else pg_Limit page) with (pageLimit page).
  set (lim := pageLimit page) in *. split; [done|]. split.
  - intros Hc Hn. rewrite decide_True by done. rewrite afterCursor_absent by done.
    case_match eqn:E; [|done]. apply Z.ltb_lt in E. simpl in E. lia.
  - intros rest Hrest.
    assert (Er : (if decide (pg_Cursor page <> "") then afterCursor (pg_Cursor page) out
                  else out) = rest).
    { destruct Hrest as [[-> ->]|(i & e & Hi & <- & Hne & ->)].
      - by rewrite decide_False by tauto.
      - rewrite decide_True by done. by apply afterCursor_found. }
    rewrite Er. destruct (Z.ltb_spec lim (Z.of_nat (length rest))); simpl.
    + split; [done|]. intros _. split; [lia|].
      destruct (lookup_lt_is_Some_2 rest (Z.to_nat (lim - 1))) as [e He]; [lia|].
      rewrite He. simpl. rewrite last_lookup, length_take.
      replace (pred (Z.to_nat lim `min` length rest)) with (Z.to_nat (lim - 1)) by lia.
      rewrite lookup_take_lt by lia. by rewrite He.
    + split; [|done]. rewrite take_ge by lia. done.
Qed.

Lemma dead_letter_page_witness :
  ListDeadLetters demoDead "e1" (mkPage "replayed-meanwhile" 10) = mkDeadLetterList [] "".
Proof.
  apply (dead_letter_page demoDead "e1" (mkPage "replayed-meanwhile" 10)).
  - vm_compute. apply NoDup_singleton.
  - done.
  - vm_compute. by intros H%list_elem_of_singleton.
Defined.

(** ** Pausing *)

Lemma ready_ids_ext s s' id t limit :
  outboxOf s' id = outboxOf s id -> dispatchHeldLocked s' id = dispatchHeldLocked s id ->
  readyOutboxIDsLocked s' id t limit = readyOutboxIDsLocked s id t limit.
Proof. intros E1 E2. unfold readyOutboxIDsLocked. by rewrite E1, E2. Qed.

Lemma ready_ids_held s id t limit :
  dispatchHeldLocked s id = true -> readyOutboxIDsLocked s id t limit = [].
Proof. intros E. unfold readyOutboxIDsLocked. rewrite E. by rewrite orb_true_r. Qed.

(** A pause hides the whole ready set of the execution at every instant and
    of no other; and a resume exposes exactly what an execution that was never
    paused would have, including the intents written meanwhile. *)
Theorem pause_holds_dispatch now s id s1 :
  PauseExecution now s id = (s1, None) ->
  (forall t limit, readyOutboxIDsLocked s1 id t limit = []) /\
  (forall id' t limit, id' <> id ->
     readyOutboxIDsLocked s1 id' t limit = readyOutboxIDsLocked s id' t limit) /\
  (forall now2 s2, executions s2 !! id = executions s1 !! id ->
     exists s3, ResumeExecution now2 s2 id = (s3, None) /\ outbox s3 = outbox s2 /\
       forall t limit s', dispatchHeldLocked s' id = false -> outbox s' = outbox s2 ->
         readyOutboxIDsLocked s3 id t limit = readyOutboxIDsLocked s' id t limit).
Proof.
  intros Hp.
  assert (Hs : outbox s1 = outbox s /\ (exists e, executions s1 !! id = Some e /\
    status e = ExecutionStatusPaused) /\
    forall id', id' <> id -> executions s1 !! id' = executions s !! id').
  { unfold PauseExecution in Hp. destruct (executions s !! id) as [e|] eqn:He; [|done].
    destruct (status e) eqn:Hst; simplify_eq; simpl; [|by eauto].
    rewrite lookup_insert_eq. split; [done|]. split; [by eexists|].
    intros id' Hne. by rewrite lookup_insert_ne. }
  destruct Hs as (Eo & (e & He & Hst) & Hne).
  assert (Hheld : dispatchHeldLocked s1 id = true).
  { unfold dispatchHeldLocked. rewrite He. by apply bool_decide_eq_true. }
  split_and!.
  - intros t limit. by apply ready_ids_held.
  - intros id' t limit Hid. apply ready_ids_ext; [unfold outboxOf; by rewrite Eo|].
    unfold dispatchHeldLocked. by rewrite Hne.
  - intros now2 s2 E2. unfold ResumeExecution. rewrite E2, He. rewrite decide_False by tauto.
    eexists. split; [done|]. split; [done|]. intros t limit s' Hd Eo'.
    apply ready_ids_ext; [unfold outboxOf; by rewrite Eo'|]. rewrite Hd.
    unfold dispatchHeldLocked. simpl. by rewrite lookup_insert_eq.
Qed.

Lemma pause_holds_dispatch_witness :
  readyOutboxIDsLocked (PauseExecution 5 demoOutbox "e1").1 "e1" 100 10 = [].
Proof.
  apply (pause_holds_dispatch 5 demoOutbox "e1" (PauseExecution 5 demoOutbox "e1").1).
  by vm_compute.
Defined.

(** ** Parked executions *)

Definition all_held (m : gmap string memoryOutboxEntry) : Prop :=
  map_Forall (fun _ e => isHeld e = true) m.

Lemma put_held now s id entry :
  oe_AvailableAt entry = queuedOutboxHold -> all_held (outboxOf s id) ->
  all_held (outboxOf (putOutboxEntryLocked now s id entry).1 id).
Proof.
  intros Ha H. unfold putOutboxEntryLocked. case_decide; [done|]. case_match; [done|].
  unfold outboxOf at 1. simpl. rewrite lookup_insert_eq. simpl.
  apply map_Forall_insert_2; [|done].
  unfold isHeld. destruct (IsZero (oe_CreatedAt entry)); simpl; by rewrite Ha.
Qed.

Lemma writeInitialIntents_held now s id entries :
  all_held (outboxOf s id) ->
  all_held (outboxOf (writeInitialIntentsLocked now s id entries queuedOutboxHold) id).
Proof.
  unfold writeInitialIntentsLocked. revert s.
  induction entries as [|o entries IH]; intros s H; [done|]. simpl. apply IH.
  unfold writeInitialIntent. apply put_held; [done|]. by case_decide.
Qed.

Lemma held_not_ready s id t limit :
  all_held (outboxOf s id) -> t < queuedOutboxHold -> readyOutboxIDsLocked s id t limit = [].
Proof.
  intros H Ht. destruct (readyOutboxIDsLocked s id t limit) as [|x l] eqn:E; [done|].
  assert (Hx : x ∈ readyOutboxIDsLocked s id t limit) by (rewrite E; by left).
  apply elem_of_ready in Hx as (e & He & Hd & _). apply H in He.
  unfold isHeld, Equal in He. apply Z.eqb_eq in He. unfold dueAt in Hd. rewrite He in Hd.
  apply andb_true_iff in Hd as [_ Hd]. unfold IsZero, After in Hd.
  destruct (Z.ltb_spec t queuedOutboxHold); [|lia]. by vm_compute in Hd.
Qed.

Lemma create_outbox now s e : outbox (createExecutionLocked now s e) = outbox s.
Proof.
  unfold createExecutionLocked. set (cp := if IsZero (ex_UpdatedAt _) then _ else _).
  destruct (negb (IsZero (ex_Deadline cp))), (ex_Graph e) as [g|]; try done;
    destruct (g_allowCycles g); done.
Qed.

Lemma chargeOrPark_outbox sha now s id a :
  outbox (chargeOrParkLocked sha now s id a).1 = outbox s.
Proof. unfold chargeOrParkLocked, parkOrChargeLocked. by repeat case_match. Qed.

Lemma queued_all_held sha hint now s e entries a s' r hold :
  CreateExecutionWithConcurrency sha hint now s e entries a = (s', inr (r, hold)) ->
  car_Queued r = true -> outbox s !! ex_ID e = None -> all_held (outboxOf s' (ex_ID e)).
Proof.
  intros E Hq Hn. unfold CreateExecutionWithConcurrency in E.
  pose proof (chargeOrPark_outbox sha now s (ex_ID e) a) as Eo.
  destruct (chargeOrParkLocked sha now s (ex_ID e) a) as [s1 [err|pending]]; [done|].
  cbn [fst] in Eo. destruct pending; [|by destruct (markMirrorCreatePendingLocked _ _); simplify_eq].
  set (e' := e <| ex_Status := _ |>) in *.
  destruct (noteMirror_shape hint s1 e') as (m1 & E1 & _).
  destruct (markPending_shape (noteMirrorModeLocked hint s1 e') (ex_ID e)) as (m2 & E2 & _).
  destruct (markMirrorCreatePendingLocked _ _) as [s2 h]. cbn [fst] in E2. simplify_eq.
  simpl. apply writeInitialIntents_held. unfold outboxOf. rewrite create_outbox. simpl.
  rewrite E1. simpl. rewrite Eo, Hn. apply map_Forall_empty.
Qed.

(** A submission that has to wait for a slot is not dispatched: none of its
    intents is ready at any instant before the hold date, and the dispatcher's
    discovery does not report it. *)
Theorem queued_not_dispatched sha256hex hint now s e entries a s' r hold t limit :
  CreateExecutionWithConcurrency sha256hex hint now s e entries a = (s', inr (r, hold)) ->
  car_Queued r = true -> outbox s !! ex_ID e = None -> t < queuedOutboxHold ->
  readyOutboxIDsLocked s' (ex_ID e) t limit = [] /\
  ex_ID e ∉ ListOutboxExecutions s' limit.
Proof.
  intros E Hq Hn Ht. pose proof (queued_all_held _ _ _ _ _ _ _ _ _ _ E Hq Hn) as Hh.
  split; [by apply held_not_ready|].
  unfold ListOutboxExecutions. intros Hin%elem_of_bounded%elem_of_sortSlice.
  apply list_elem_of_fmap in Hin as ([k m] & Ek & [Hf Hm]%list_elem_of_filter). simpl in *.
  subst k. apply elem_of_map_to_list in Hm. unfold outboxOf in Hh. rewrite Hm in Hh.
  simpl in Hh. unfold allOutboxEntriesHeld in Hf.
  rewrite (bool_decide_true (map_Forall _ m)) in Hf by exact Hh.
  by rewrite orb_true_r in Hf.
Qed.

Lemma queued_not_dispatched_witness :
  let e := demoExecution <| ex_ID := "e4" |> in
  let r := CreateExecutionWithConcurrency (fun p => p) false 5 demoLine e [demoEntry]
             demoAdmission in
  readyOutboxIDsLocked r.1 "e4" 100 10 = [].
Proof.
  intros e r.
  apply (queued_not_dispatched (fun p => p) false 5 demoLine e [demoEntry] demoAdmission r.1
    (mkAdmissionResult true 3) false 100 10); by vm_compute.
Defined.
