(* ===== verification/Lease.v ===== *)
(** * Node records and task leases

    The node half of [memory_state.go]: writing node snapshots, acquiring,
    claiming, renewing and revoking the lease a runner holds on a node, the
    retry reset, and the sweep over expired leases. *)

From S2P Require Import Prelude Keys Types Graph State Slots Executions Outbox.

Definition LoadGraph (s : memoryState) (id : string) : option Graph :=
  executions s !! id ≫= fun e => ex_Graph (snap e).

Definition isTerminalNode (st : NodeStatus) : bool := IsTerminalNodeStatus st.

(** The statuses in which a runner owns the node. *)
Definition leasedStatus (st : NodeStatus) : bool :=
  match st with
  | NodeStatusRunning | NodeStatusCommitting | NodeStatusWaiting => true
  | _ => false
  end.

(** Copies carry the same values. *)
Definition cloneLeasePayload (p : option SignalPayload) : option SignalPayload := p.

(** Applies a privacy decision to a copied snapshot. *)
Definition withPrivacy (p : bool) (n : NodeSnapshot) : NodeSnapshot :=
  let n := n <| ns_PrivateOutput := p |> in
  if p then n <| ns_Output := None |> else n.

(** Stores a copy of a node, keeping the privacy decisions made so far. *)
Definition storeNode (s : memoryState) (key : string) (n : NodeSnapshot) : memoryState :=
  let '(s, p) := preserveOutputPrivacyLocked s key (ns_PrivateOutput n) in
  s <| nodes ::= <[key := withPrivacy p n]> |>.

(** ** Node records *)

Definition upsertNodeLocked (now : Time) (s : memoryState) (n : NodeSnapshot)
    : memoryState * bool :=
  let key := memoryNodeKey (ns_ExecutionID n) (ns_Name n) in
  let '(s, privateOutput) := preserveOutputPrivacyLocked s key (ns_PrivateOutput n) in
  let existing := nodes s !! key in
  let fenced :=
    match existing with
    | None => false
    | Some x =>
        isTerminalNode (ns_Status x) && (ns_ActivationID n <=? ns_ActivationID x) ||
        match ns_Status x with NodeStatusCommitting | NodeStatusWaiting => true | _ => false end &&
        bool_decide (ns_Status n = NodeStatusRunning)
    end in
  if fenced then (s, false)
  else
    let cp := n in
    let cp :=
      match existing with
      | None => cp
      | Some x =>
          let cp := if negb (IsZero (ns_StartedAt x))
                    then cp <| ns_StartedAt := ns_StartedAt x |> else cp in
          if negb (IsZero (ns_FinishedAt x))
          then cp <| ns_FinishedAt := ns_FinishedAt x |> else cp
      end in
    let cp := if IsTerminalNodeStatus (ns_Status cp) && IsZero (ns_FinishedAt cp)
              then cp <| ns_FinishedAt := now |> else cp in
    (s <| nodes ::= <[key := withPrivacy privateOutput cp]> |>, true).

Definition GetNode (s : memoryState) (id name : string) : option NodeSnapshot :=
  let key := memoryNodeKey id name in
  publicNodeSnapshotLocked s key (nodes s !! key).

Definition CancelSuspendedNode (now : Time) (s : memoryState) (id name : string)
    : memoryState * bool :=
  let key := memoryNodeKey id name in
  match nodes s !! key with
  | None => (s, false)
  | Some ns =>
      if decide (ns_Status ns <> NodeStatusSuspended) then (s, false)
      else
        let cp := ns <| ns_Status := NodeStatusCanceled |> in
        let cp := if IsZero (ns_FinishedAt cp) then cp <| ns_FinishedAt := now |> else cp in
        let s := storeNode s key cp in
        (s <| suspended ::= delete key |> <| signalSets ::= delete key |>, true)
  end.

(** ** Acquiring a lease *)

(** The node refuses a new lease. *)
Definition acquireRefused (current : NodeSnapshot) (lease : TaskLease) : bool :=
  let activation := t_ActivationID (tl_Task lease) in
  (0 <? activation) && (activation <? ns_ActivationID current) ||
  isTerminalNode (ns_Status current) &&
    ((activation <=? 0) || (activation <=? ns_ActivationID current)) ||
  match ns_Status current with NodeStatusCommitting | NodeStatusWaiting => true | _ => false end ||
  bool_decide (ns_Status current = NodeStatusRunning) &&
    bool_decide (ns_LeaseToken current <> "") &&
    (IsZero (ns_LeaseIssuedAt current) || (ns_LeaseTTL current <=? 0) ||
     Before (tl_IssuedAt lease) (Add (ns_LeaseIssuedAt current) (ns_LeaseTTL current))).

(** Attempts count the retries within one activation. *)
Definition nextAttempt (current : option NodeSnapshot) (lease : TaskLease) : Z :=
  match current with
  | Some n => if ns_ActivationID n =? t_ActivationID (tl_Task lease) then ns_Attempt n + 1 else 1
  | None => 1
  end.

Definition leasedNode (current : option NodeSnapshot) (lease : TaskLease)
    (privateOutput : bool) : NodeSnapshot :=
  let t := tl_Task lease in
  let startedAt :=
    match current with
    | Some n => if negb (IsZero (ns_StartedAt n)) then ns_StartedAt n else tl_IssuedAt lease
    | None => tl_IssuedAt lease
    end in
  let node := zeroNodeSnapshot <| ns_ExecutionID := t_ExecutionID t |>
    <| ns_Name := t_NodeName t |> <| ns_NodeIdx := t_NodeIdx t |>
    <| ns_UnitIdx := t_UnitIdx t |> <| ns_Status := NodeStatusRunning |>
    <| ns_LeaseID := tl_LeaseID lease |> <| ns_LeaseToken := tl_LeaseToken lease |>
    <| ns_Attempt := nextAttempt current lease |> <| ns_ActivationID := t_ActivationID t |>
    <| ns_AutoDepth := t_AutoDepth t |> <| ns_LeaseIssuedAt := tl_IssuedAt lease |>
    <| ns_LeaseTTL := tl_TTL lease |> <| ns_StartedAt := startedAt |>
    <| ns_LeaseTaskType := t_Type t |> <| ns_LeasePayload := cloneLeasePayload (t_Payload t) |>
    <| ns_LeaseGeneration := t_Generation t |> <| ns_PrivateOutput := privateOutput |> in
  match current with
  | Some n => node <| ns_ChildExecutionID := ns_ChildExecutionID n |>
                   <| ns_FinishedAt := ns_FinishedAt n |>
  | None => node
  end.

Definition acquireTaskLeaseLocked (s : memoryState) (lease : TaskLease)
    : memoryState * option NodeSnapshot * bool :=
  let id := t_ExecutionID (tl_Task lease) in
  if decide (id ∈ rolledBack s) then (s, None, false)
  else
    let key := memoryNodeKey id (t_NodeName (tl_Task lease)) in
    let current := nodes s !! key in
    let refused := match current with Some n => acquireRefused n lease | None => false end in
    if refused then (s, publicNodeSnapshotLocked s key current, false)
    else
      let '(s, privateOutput) := preserveOutputPrivacyLocked s key false in
      let s := s <| nodes ::= <[key := leasedNode current lease privateOutput]> |> in
      (s, publicNodeSnapshotLocked s key current, true).

Abbreviation AcquireTaskLease := acquireTaskLeaseLocked.

Record LeaseAcquireResult : Type := mkAcquireResult {
  lar_Acquired : bool;
  lar_Previous : option NodeSnapshot;
  lar_ExecutionStatus : ExecutionStatus;
  lar_ExecutionFound : bool
}.

Definition AcquireTaskLeaseChecked (s : memoryState) (lease : TaskLease) (allowCycles : bool)
    : memoryState * LeaseAcquireResult :=
  let id := t_ExecutionID (tl_Task lease) in
  let key := memoryNodeKey id (t_NodeName (tl_Task lease)) in
  match executions s !! id with
  | None => (s, mkAcquireResult false None ExecutionStatusNone false)
  | Some e =>
      let refuse prev := (s, mkAcquireResult false prev (status e) true) in
      if IsTerminalExecutionStatus (status e) then refuse None
      else
        let current := nodes s !! key in
        let shown := publicNodeSnapshotLocked s key current in
        if allowCycles && (t_ActivationID (tl_Task lease) <=? 0) then refuse shown
        else if negb allowCycles &&
                match current with Some n => isTerminalNode (ns_Status n) | None => false end
        then refuse shown
        else
          let '(s, prev, acquired) := acquireTaskLeaseLocked s lease in
          (s, mkAcquireResult acquired prev (status e) true)
  end.

(** ** Giving a lease back *)

Definition clearLease (n : NodeSnapshot) : NodeSnapshot :=
  n <| ns_LeaseID := "" |> <| ns_LeaseToken := "" |> <| ns_LeaseIssuedAt := zeroTime |>
    <| ns_LeaseTTL := 0 |> <| ns_LeaseTaskType := TaskTypeNodeExec |>
    <| ns_LeasePayload := None |> <| ns_LeaseGeneration := 0 |>.

(** [token = None]: the variadic token was omitted. *)
Definition resetNodeForRetryLocked (s : memoryState) (id name : string)
    (token : option string) : memoryState * bool :=
  let key := memoryNodeKey id name in
  match nodes s !! key with
  | None => (s, false)
  | Some ns =>
      if negb (leasedStatus (ns_Status ns)) then (s, false)
      else if match token with
              | Some t => bool_decide (t = "" \/ ns_LeaseToken ns <> t)
              | None => false
              end then (s, false)
      else (storeNode s key (clearLease (ns <| ns_Status := NodeStatusPending |>)), true)
  end.

Definition ResetNodeForRetryWithOutbox (now : Time) (s : memoryState) (id name token : string)
    (entry : OutboxEntry) : memoryState * bool :=
  let '(s, ok) := resetNodeForRetryLocked s id name (Some token) in
  if negb ok then (s, false)
  else ((putOutboxLocked now s id (oe_ID entry) (oe_Task entry) (oe_AvailableAt entry)).1, true).

Definition revokeLeaseLocked (s : memoryState) (id name token : string) : memoryState * bool :=
  let key := memoryNodeKey id name in
  match nodes s !! key with
  | None => (s, false)
  | Some ns =>
      if negb (leasedStatus (ns_Status ns)) then (s, false)
      else if decide (token = "" \/ ns_LeaseToken ns <> token) then (s, false)
      else (storeNode s key (clearLease (ns <| ns_Status := NodeStatusPending |>)), true)
  end.

Abbreviation RevokeLease := revokeLeaseLocked.

Definition RevokeLeaseWithOutbox (now : Time) (s : memoryState) (id name token : string)
    (entry : OutboxEntry) : memoryState * bool :=
  let '(s, ok) := revokeLeaseLocked s id name token in
  if negb ok then (s, false)
  else ((putOutboxLocked now s id (oe_ID entry) (oe_Task entry) (oe_AvailableAt entry)).1, true).

(** ** Expired leases *)

Record ExpiredLease : Type := mkExpiredLease {
  xl_ExecutionID : string;
  xl_NodeName : string;
  xl_NodeIdx : Z;
  xl_UnitIdx : Z;
  xl_LeaseID : string;
  xl_LeaseToken : string;
  xl_IssuedAt : Time;
  xl_TTL : Duration;
  xl_ActivationID : Z;
  xl_AutoDepth : Z;
  xl_TaskType : TaskType;
  xl_Payload : option SignalPayload;
  xl_Generation : Z
}.

Definition expiredNodeLease (before : Time) (ns : NodeSnapshot) : option ExpiredLease :=
  if negb (leasedStatus (ns_Status ns)) then None
  else if IsZero (ns_LeaseIssuedAt ns) || (ns_LeaseTTL ns <=? 0) then None
  else if After (Add (ns_LeaseIssuedAt ns) (ns_LeaseTTL ns)) before then None
  else Some (mkExpiredLease (ns_ExecutionID ns) (ns_Name ns) (ns_NodeIdx ns) (ns_UnitIdx ns)
    (ns_LeaseID ns) (ns_LeaseToken ns) (ns_LeaseIssuedAt ns) (ns_LeaseTTL ns)
    (ns_ActivationID ns) (ns_AutoDepth ns) (ns_LeaseTaskType ns)
    (cloneLeasePayload (ns_LeasePayload ns)) (ns_LeaseGeneration ns)).

Definition expiredGroupLease (before : Time) (gs : groupUnitState) : option ExpiredLease :=
  if decide (gu_status gs <> groupUnitRunning \/ gu_leaseToken gs = "") then None
  else if IsZero (gu_deadline gs) || After (gu_deadline gs) before then None
  else Some (mkExpiredLease (gu_execID gs) (gu_groupName gs) (gu_entryNodeIdx gs)
    (gu_unitIdx gs) (gu_leaseID gs) (gu_leaseToken gs) (gu_issuedAt gs) (gu_ttl gs)
    (gu_activationID gs) 0 TaskTypeGroupExec None 0).

Definition ListExpiredLeases (s : memoryState) (before : Time) : list ExpiredLease :=
  omap (fun kv => expiredNodeLease before kv.2) (map_to_list (nodes s)) ++
  omap (fun kv => expiredGroupLease before kv.2) (map_to_list (groupUnits s)).

(** ** Using a lease *)

(** The node as it is shown, and whether the claim holds. *)
Definition ClaimTaskLease (s : memoryState) (lease : TaskLease)
    : memoryState * option NodeSnapshot * bool :=
  let t := tl_Task lease in
  let key := memoryNodeKey (t_ExecutionID t) (t_NodeName t) in
  match nodes s !! key with
  | None => (s, None, false)
  | Some ns =>
      let shown := publicNodeSnapshotLocked s key (Some ns) in
      let otherActivation :=
        (0 <? t_ActivationID t) && negb (ns_ActivationID ns =? t_ActivationID t) in
      if isTerminalNode (ns_Status ns) then (s, shown, negb otherActivation)
      else if otherActivation then (s, shown, false)
      else if decide (ns_Status ns <> NodeStatusRunning \/ ns_LeaseToken ns = "" \/
                      ns_LeaseToken ns <> tl_LeaseToken lease) then (s, shown, false)
      else if decide (tl_LeaseID lease <> "" /\ ns_LeaseID ns <> tl_LeaseID lease)
      then (s, shown, false)
      else if decide (tl_Attempt lease <> 0 /\ ns_Attempt ns <> tl_Attempt lease)
      then (s, shown, false)
      else
        let s := storeNode s key (ns <| ns_Status := NodeStatusCommitting |>) in
        (s, publicNodeSnapshotLocked s key (nodes s !! key), true)
  end.

Definition RenewTaskLease (now : Time) (s : memoryState) (id name token : string)
    (deadline : Time) : memoryState * bool :=
  if decide (token = "") then (s, false)
  else
    let key := memoryNodeKey id name in
    match nodes s !! key with
    | None => (s, false)
    | Some ns =>
        if decide (ns_LeaseToken ns <> token) then (s, false)
        else if decide (ns_Status ns <> NodeStatusRunning /\ ns_Status ns <> NodeStatusWaiting)
        then (s, false)
        else
          let issuedAt := if IsZero (ns_LeaseIssuedAt ns) then now else ns_LeaseIssuedAt ns in
          let ttl := Sub deadline issuedAt in
          let ttl := if ttl <? 0 then 0 else ttl in
          (s <| nodes ::= <[key := ns <| ns_LeaseIssuedAt := issuedAt |>
                                      <| ns_LeaseTTL := ttl |>]> |>, true)
    end.

(** ** Counters of the legacy scheduling path *)

Definition DecrementInDegree (s : memoryState) (id : string) (unitIdx : Z) (portActive : bool)
    : memoryState * (Z * Z) :=
  let key := memoryCounterKey id unitIdx in
  let s := s <| inDegrees ::= fun m => <[key := counter m key - 1]> m |> in
  let s := if portActive then s <| activeIns ::= fun m => <[key := counter m key + 1]> m |>
           else s in
  (s, (counter (inDegrees s) key, counter (activeIns s) key)).

Definition CheckCompletion (s : memoryState) (id : string) (totalNodes : Z) : bool * bool :=
  let blocked :=
    match executions s !! id with
    | Some e => IsTerminalExecutionStatus (status e) ||
                bool_decide (status e = ExecutionStatusCanceling)
    | None => false
    end in
  if blocked then (false, false)
  else
    let mine := filter (fun kv => String.prefix (id +:+ "/") kv.1 = true) (nodes s) in
    let done := size (filter (fun kv => isTerminalNode (ns_Status kv.2) = true) mine) in
    (totalNodes <=? Z.of_nat done,
     bool_decide (filter (fun kv => ns_Status kv.2 = NodeStatusFailed) mine <> ∅)).

#[global] Arguments storeNode : simpl never.
#[global] Arguments acquireTaskLeaseLocked : simpl never.
#[global] Arguments leasedNode : simpl never.

(** A dated lease of node [a] of the worked execution. *)
Definition demoLease : TaskLease :=
  mkTaskLease "l1" "tok" 0 (oe_Task demoEntry) 20 1000.

(** ** What a node write changes *)

(** A snapshot without its output and privacy fields, which every copy may
    redact. *)
Definition core (n : NodeSnapshot) : NodeSnapshot :=
  n <| ns_Output := None |> <| ns_PrivateOutput := false |>.

Definition coreAt (s : memoryState) (key : string) : option NodeSnapshot :=
  core <$> nodes s !! key.

Lemma core_withPrivacy p n : core (withPrivacy p n) = core n.
Proof. by destruct p. Qed.

Lemma preserve_coreAt s key req k :
  coreAt (preserveOutputPrivacyLocked s key req).1 k = coreAt s k.
Proof.
  unfold preserveOutputPrivacyLocked, coreAt. destruct (req || outputIsPrivateLocked s key); [|done].
  simpl. destruct (nodes s !! key) as [n|] eqn:E; [|done].
  destruct (negb (ns_PrivateOutput n) || _); [|done]. simpl.
  destruct (decide (k = key)) as [->|]; [|by rewrite lookup_insert_ne].
  by rewrite lookup_insert_eq, E.
Qed.

Lemma insert_coreAt s key n k :
  coreAt (s <| nodes ::= <[key := n]> |>) k
  = if decide (k = key) then Some (core n) else coreAt s k.
Proof.
  unfold coreAt. simpl. case_decide as E; [subst; by rewrite lookup_insert_eq|].
  by rewrite lookup_insert_ne.
Qed.

Lemma storeNode_coreAt s key n k :
  coreAt (storeNode s key n) k = if decide (k = key) then Some (core n) else coreAt s k.
Proof.
  unfold storeNode. pose proof (preserve_coreAt s key (ns_PrivateOutput n) k) as H.
  destruct (preserveOutputPrivacyLocked s key (ns_PrivateOutput n)) as [s' p]. cbn [fst] in H.
  rewrite insert_coreAt, H. by rewrite core_withPrivacy.
Qed.

Lemma acquire_coreAt s lease k :
  let '(s', _, ok) := acquireTaskLeaseLocked s lease in
  let key := memoryNodeKey (t_ExecutionID (tl_Task lease)) (t_NodeName (tl_Task lease)) in
  coreAt s' k = if decide (ok = true /\ k = key)
                then Some (core (leasedNode (nodes s !! key) lease false)) else coreAt s k.
Proof.
  unfold acquireTaskLeaseLocked. case_decide; [by rewrite decide_False by (by intros [? _])|].
  set (key := memoryNodeKey _ _).
  destruct (match nodes s !! key with Some n => _ | None => false end);
    [by rewrite decide_False by (by intros [? _])|].
  pose proof (preserve_coreAt s key false k) as Hc.
  destruct (preserveOutputPrivacyLocked s key false) as [s' p]. cbn [fst] in Hc.
  rewrite insert_coreAt, Hc.
  destruct (decide (k = key)); [rewrite decide_True by done|by rewrite decide_False by tauto].
  unfold leasedNode. by destruct (nodes s !! key).
Qed.

(** Reading a field of the snapshot that redaction leaves alone. *)
Lemma coreAt_Some s key n : nodes s !! key = Some n -> coreAt s key = Some (core n).
Proof. unfold coreAt. by intros ->. Qed.

Lemma coreAt_inv s key c : coreAt s key = Some c -> exists n, nodes s !! key = Some n /\ core n = c.
Proof. unfold coreAt. rewrite fmap_Some. intros (n & ? & ->). eauto. Qed.

(** ** A held lease is exclusive *)

(** What anyone but the holder of [token] does to leases, on the node [key], by
    requests issued before [deadline]. *)
Inductive foreign_step (token key : string) (deadline : Time)
    : memoryState -> memoryState -> Prop :=
| fs_acquire s lease :
    tl_IssuedAt lease < deadline ->
    foreign_step token key deadline s (acquireTaskLeaseLocked s lease).1.1
| fs_claim s lease :
    tl_LeaseToken lease <> token -> foreign_step token key deadline s (ClaimTaskLease s lease).1.1
| fs_revoke s id name token' :
    token' <> token -> foreign_step token key deadline s (revokeLeaseLocked s id name token').1
| fs_reset s id name token' :
    token' <> token ->
    foreign_step token key deadline s (resetNodeForRetryLocked s id name (Some token')).1
| fs_renew s now id name token' t :
    token' <> token -> foreign_step token key deadline s (RenewTaskLease now s id name token' t).1
| fs_cancel s now id name :
    foreign_step token key deadline s (CancelSuspendedNode now s id name).1
| fs_other s s' : coreAt s' key = coreAt s key -> foreign_step token key deadline s s'.

(** A running node under a live, dated lease. *)
Definition heldUntil (token : string) (deadline : Time) (n : NodeSnapshot) : Prop :=
  ns_Status n = NodeStatusRunning /\ ns_LeaseToken n = token /\ token <> "" /\
  ns_LeaseIssuedAt n <> zeroTime /\ 0 < ns_LeaseTTL n /\
  deadline = ns_LeaseIssuedAt n + ns_LeaseTTL n.

Lemma heldUntil_core token d n n' : core n = core n' -> heldUntil token d n -> heldUntil token d n'.
Proof. intros E. unfold heldUntil. by destruct n, n'; simplify_eq/=. Qed.

Lemma heldUntil_refuses token d n lease :
  heldUntil token d n -> tl_IssuedAt lease < d -> acquireRefused n lease = true.
Proof.
  intros (Hs & Ht & Hne & _ & _ & ->) Hi. unfold acquireRefused. rewrite Hs.
  rewrite (bool_decide_true (_ = NodeStatusRunning)) by done.
  rewrite (bool_decide_true (ns_LeaseToken n <> "")) by congruence.
  unfold Before, Add. destruct (Z.ltb_spec (tl_IssuedAt lease) (ns_LeaseIssuedAt n + ns_LeaseTTL n));
    [|lia]. by rewrite !orb_true_r.
Qed.

(** An operation that stores one node leaves every other key alone. *)
Lemma storeNode_other s key n k : k <> key -> coreAt (storeNode s key n) k = coreAt s k.
Proof. intros H. rewrite storeNode_coreAt. by rewrite decide_False. Qed.

Lemma claim_cases s lease :
  let key := memoryNodeKey (t_ExecutionID (tl_Task lease)) (t_NodeName (tl_Task lease)) in
  (ClaimTaskLease s lease).1.1 = s \/
  exists n, nodes s !! key = Some n /\ ns_Status n = NodeStatusRunning /\
    ns_LeaseToken n = tl_LeaseToken lease /\ ns_LeaseToken n <> "" /\
    (0 < t_ActivationID (tl_Task lease) -> ns_ActivationID n = t_ActivationID (tl_Task lease)) /\
    (ClaimTaskLease s lease).1.1 = storeNode s key (n <| ns_Status := NodeStatusCommitting |>).
Proof.
  unfold ClaimTaskLease. set (key := memoryNodeKey _ _).
  destruct (nodes s !! key) as [n|] eqn:En; [|by left].
  destruct (isTerminalNode (ns_Status n)); [by left|].
  destruct ((0 <? _) && negb _) eqn:Ea; [by left|].
  case_decide as H1; [by left|]. case_decide; [by left|]. case_decide; [by left|].
  right. exists n. split_and!; try done.
  - destruct (decide (ns_Status n = NodeStatusRunning)); tauto.
  - destruct (decide (ns_LeaseToken n = tl_LeaseToken lease)); tauto.
  - destruct (decide (ns_LeaseToken n = "")); tauto.
  - intros Hpos. destruct (Z.ltb_spec 0 (t_ActivationID (tl_Task lease))); [|lia].
    destruct (Z.eqb_spec (ns_ActivationID n) (t_ActivationID (tl_Task lease))); done.
Qed.

Lemma revoke_cases s id name token :
  let key := memoryNodeKey id name in
  revokeLeaseLocked s id name token = (s, false) \/
  exists n, nodes s !! key = Some n /\ leasedStatus (ns_Status n) = true /\
    ns_LeaseToken n = token /\ token <> "" /\
    revokeLeaseLocked s id name token
    = (storeNode s key (clearLease (n <| ns_Status := NodeStatusPending |>)), true).
Proof.
  unfold revokeLeaseLocked. destruct (nodes s !! memoryNodeKey id name) as [n|] eqn:En; [|by left].
  destruct (leasedStatus (ns_Status n)) eqn:Es; [|by left]. simpl.
  case_decide as H; [by left|]. right. exists n. split_and!; try done; [|tauto].
  destruct (decide (ns_LeaseToken n = token)); tauto.
Qed.

Lemma reset_cases s id name token :
  let key := memoryNodeKey id name in
  resetNodeForRetryLocked s id name (Some token) = (s, false) \/
  exists n, nodes s !! key = Some n /\ leasedStatus (ns_Status n) = true /\
    ns_LeaseToken n = token /\ token <> "" /\
    resetNodeForRetryLocked s id name (Some token)
    = (storeNode s key (clearLease (n <| ns_Status := NodeStatusPending |>)), true).
Proof.
  unfold resetNodeForRetryLocked.
  destruct (nodes s !! memoryNodeKey id name) as [n|] eqn:En; [|by left].
  destruct (leasedStatus (ns_Status n)) eqn:Es; [|by left]. simpl.
  case_bool_decide as H; [by left|]. right. exists n. split_and!; try done; [|tauto].
  destruct (decide (ns_LeaseToken n = token)); tauto.
Qed.

Lemma renew_cases now s id name token t :
  let key := memoryNodeKey id name in
  RenewTaskLease now s id name token t = (s, false) \/
  exists n issuedAt, nodes s !! key = Some n /\ ns_LeaseToken n = token /\ token <> "" /\
    (ns_Status n = NodeStatusRunning \/ ns_Status n = NodeStatusWaiting) /\
    issuedAt = (if IsZero (ns_LeaseIssuedAt n) then now else ns_LeaseIssuedAt n) /\
    RenewTaskLease now s id name token t
    = (s <| nodes ::= <[key := n <| ns_LeaseIssuedAt := issuedAt |>
             <| ns_LeaseTTL := Z.max 0 (Sub t issuedAt) |>]> |>, true).
Proof.
  unfold RenewTaskLease. case_decide as Ht; [by left|].
  destruct (nodes s !! memoryNodeKey id name) as [n|] eqn:En; [|by left].
  case_decide as H1; [by left|]. case_decide as H2; [by left|]. right.
  eexists n, _. split_and!; [done| |done| |reflexivity|].
  - destruct (decide (ns_LeaseToken n = token)); tauto.
  - destruct (decide (ns_Status n = NodeStatusRunning)), (decide (ns_Status n = NodeStatusWaiting));
      tauto.
  - set (iss := if IsZero (ns_LeaseIssuedAt n) then now else ns_LeaseIssuedAt n).
    replace (Z.max 0 (Sub t iss)) with (if Sub t iss <? 0 then 0 else Sub t iss); [done|].
    destruct (Z.ltb_spec (Sub t iss) 0); lia.
Qed.

Lemma cancel_cases now s id name :
  let key := memoryNodeKey id name in
  CancelSuspendedNode now s id name = (s, false) \/
  exists n f, nodes s !! key = Some n /\ ns_Status n = NodeStatusSuspended /\
    f = (if IsZero (ns_FinishedAt n) then now else ns_FinishedAt n) /\
    CancelSuspendedNode now s id name
    = (storeNode s key (n <| ns_Status := NodeStatusCanceled |> <| ns_FinishedAt := f |>)
         <| suspended ::= delete key |> <| signalSets ::= delete key |>, true).
Proof.
  unfold CancelSuspendedNode. destruct (nodes s !! memoryNodeKey id name) as [n|] eqn:En; [|by left].
  case_decide as H; [by left|]. right. eexists n, _. split_and!; [done| |reflexivity|].
  - destruct (decide (ns_Status n = NodeStatusSuspended)); tauto.
  - simpl. destruct (IsZero (ns_FinishedAt n)); [done|]. by destruct n.
Qed.

Lemma foreign_step_core token key d s s' n :
  foreign_step token key d s s' -> nodes s !! key = Some n -> heldUntil token d n ->
  coreAt s' key = coreAt s key.
Proof.
  intros Hstep Hn Hh. pose proof Hh as (Hs & Htok & Hne & _).
  assert (Hkey : forall k' n', nodes s !! k' = Some n' -> ns_LeaseToken n' <> token \/
    ns_Status n' = NodeStatusSuspended -> key <> k').
  { intros k' n' Hk' Hor ->. simplify_eq. destruct Hor; congruence. }
  destruct Hstep as [s lease Hi|s lease Hl|s id name t' Ht|s id name t' Ht|s now id name t' t Ht
    |s now id name|s s' E]; [..|done].
  - pose proof (acquire_coreAt s lease key) as Ha.
    destruct (acquireTaskLeaseLocked s lease) as [[s' prev] ok] eqn:Ea. cbn [fst].
    rewrite Ha. destruct (decide (ok = true /\ _)) as [[-> Hk]|]; [|done]. exfalso.
    unfold acquireTaskLeaseLocked in Ea. case_decide; [done|]. rewrite <- Hk, Hn in Ea.
    by rewrite (heldUntil_refuses token d) in Ea.
  - destruct (claim_cases s lease) as [-> |(n' & Hn' & _ & Hl' & _ & _ & ->)]; [done|].
    apply storeNode_other, (Hkey _ n'); [done|left; congruence].
  - destruct (revoke_cases s id name t') as [-> |(n' & Hn' & _ & Hl' & _ & ->)]; [done|].
    apply storeNode_other, (Hkey _ n'); [done|left; congruence].
  - destruct (reset_cases s id name t') as [-> |(n' & Hn' & _ & Hl' & _ & ->)]; [done|].
    apply storeNode_other, (Hkey _ n'); [done|left; congruence].
  - destruct (renew_cases now s id name t' t) as [-> |(n' & i & Hn' & Hl' & _ & _ & _ & ->)];
      [done|]. cbn [fst]. rewrite insert_coreAt.
    rewrite decide_False; [done|]. apply (Hkey _ n'); [done|left; congruence].
  - destruct (cancel_cases now s id name) as [-> |(n' & f & Hn' & Hl' & _ & ->)]; [done|].
    apply (storeNode_other s), (Hkey _ n'); [done|by right].
Qed.

Lemma foreign_steps_core token key d s s' n :
  rtc (foreign_step token key d) s s' -> nodes s !! key = Some n -> heldUntil token d n ->
  coreAt s' key = coreAt s key.
Proof.
  intros Hr. revert n. induction Hr as [s|s1 s2 s3 Hstep _ IH]; intros n Hn Hh; [done|].
  pose proof (foreign_step_core _ _ _ _ _ _ Hstep Hn Hh) as E.
  rewrite (coreAt_Some s1 key n Hn) in E. destruct (coreAt_inv _ _ _ E) as (n2 & Hn2 & Ec).
  rewrite (IH n2 Hn2); [by rewrite E, (coreAt_Some s1 key n)|].
  by eapply heldUntil_core; [|exact Hh].
Qed.

Lemma acquired_node s lease s1 prev :
  acquireTaskLeaseLocked s lease = (s1, prev, true) ->
  let key := memoryNodeKey (t_ExecutionID (tl_Task lease)) (t_NodeName (tl_Task lease)) in
  exists n, nodes s1 !! key = Some n /\ core n = core (leasedNode (nodes s !! key) lease false).
Proof.
  intros Ha key. pose proof (acquire_coreAt s lease key) as Hc. rewrite Ha in Hc.
  cbn zeta in Hc. rewrite decide_True in Hc by done. by apply coreAt_inv.
Qed.


Lemma demoLease_acquired :
  acquireTaskLeaseLocked demoOutbox demoLease
  = ((acquireTaskLeaseLocked demoOutbox demoLease).1.1, None, true).
Proof. by vm_compute. Qed.


(** ** A revoked token is dead *)

(** No record of the node carries the token. *)
Definition tokenAbsent (token : string) (s : memoryState) (key : string) : Prop :=
  forall c, coreAt s key = Some c -> ns_LeaseToken c <> token.

(** Everything leases go through, new leases being issued under other tokens. *)
Inductive reissue_step (token key : string) : memoryState -> memoryState -> Prop :=
| rs_acquire s lease :
    tl_LeaseToken lease <> token ->
    reissue_step token key s (acquireTaskLeaseLocked s lease).1.1
| rs_claim s lease : reissue_step token key s (ClaimTaskLease s lease).1.1
| rs_revoke s id name t : reissue_step token key s (revokeLeaseLocked s id name t).1
| rs_reset s id name t : reissue_step token key s (resetNodeForRetryLocked s id name (Some t)).1
| rs_renew s now id name t d : reissue_step token key s (RenewTaskLease now s id name t d).1
| rs_cancel s now id name : reissue_step token key s (CancelSuspendedNode now s id name).1
| rs_other s s' : coreAt s' key = coreAt s key -> reissue_step token key s s'.

Lemma storeNode_absent token s key k n :
  tokenAbsent token s k -> (k = key -> ns_LeaseToken n <> token) ->
  tokenAbsent token (storeNode s key n) k.
Proof.
  intros H Hn c. rewrite storeNode_coreAt. case_decide; [|apply H].
  intros [= <-]. by apply Hn.
Qed.

Lemma tokenAbsent_node token s key n :
  tokenAbsent token s key -> nodes s !! key = Some n -> ns_LeaseToken n <> token.
Proof. intros H Hn. apply (H (core n)). by apply coreAt_Some. Qed.

Lemma reissue_step_absent token key s s' :
  token <> "" -> reissue_step token key s s' -> tokenAbsent token s key ->
  tokenAbsent token s' key.
Proof.
  intros Hne Hstep H. destruct Hstep as [s lease Hl|s lease|s id name t|s id name t
    |s now id name t d|s now id name|s s' E].
  - intros c. pose proof (acquire_coreAt s lease key) as Ha.
    destruct (acquireTaskLeaseLocked s lease) as [[s' prev] ok]. cbn [fst].
    rewrite Ha. destruct (decide (ok = true /\ _)); [|apply H]. intros [= <-].
    unfold leasedNode. by destruct (nodes s !! _).
  - destruct (claim_cases s lease) as [-> |(n & Hn & _ & _ & _ & _ & ->)]; [done|].
    apply storeNode_absent; [done|]. intros ->. by eapply tokenAbsent_node in Hn.
  - destruct (revoke_cases s id name t) as [-> |(n & Hn & _ & _ & _ & ->)]; [done|].
    apply storeNode_absent; [done|]. intros ->. simpl. congruence.
  - destruct (reset_cases s id name t) as [-> |(n & Hn & _ & _ & _ & ->)]; [done|].
    apply storeNode_absent; [done|]. intros ->. simpl. congruence.
  - destruct (renew_cases now s id name t d) as [-> |(n & i & Hn & _ & _ & _ & _ & ->)]; [done|].
    intros c. cbn [fst]. rewrite insert_coreAt. case_decide as E; [|apply H]. intros [= <-].
    subst key. by eapply tokenAbsent_node in Hn.
  - destruct (cancel_cases now s id name) as [-> |(n & f & Hn & _ & _ & ->)]; [done|].
    apply (storeNode_absent token s); [done|]. intros ->. by eapply tokenAbsent_node in Hn.
  - intros c. rewrite E. apply H.
Qed.

Lemma reissue_steps_absent token key s s' :
  token <> "" -> rtc (reissue_step token key) s s' -> tokenAbsent token s key ->
  tokenAbsent token s' key.
Proof. intros Hne. induction 1; eauto using reissue_step_absent. Qed.

Lemma revoke_absent s id name token s1 :
  revokeLeaseLocked s id name token = (s1, true) -> tokenAbsent token s1 (memoryNodeKey id name).
Proof.
  intros E. destruct (revoke_cases s id name token) as [E'|(n & _ & _ & _ & Hne & E')];
    rewrite E' in E; simplify_eq.
  intros c. rewrite storeNode_coreAt, decide_True by done. intros [= <-]. simpl. congruence.
Qed.

(** Once a lease is revoked its token is worthless: however the node is leased
    afterwards under other tokens, a claim, a renewal, a retry reset or a
    second revocation that presents the old token changes nothing. *)
Theorem revoked_token_fenced s id name token s1 s2 lease now t :
  let key := memoryNodeKey id name in
  revokeLeaseLocked s id name token = (s1, true) ->
  rtc (reissue_step token key) s1 s2 ->
  tl_LeaseToken lease = token -> t_ExecutionID (tl_Task lease) = id ->
  t_NodeName (tl_Task lease) = name ->
  (ClaimTaskLease s2 lease).1.1 = s2 /\
  RenewTaskLease now s2 id name token t = (s2, false) /\
  resetNodeForRetryLocked s2 id name (Some token) = (s2, false) /\
  revokeLeaseLocked s2 id name token = (s2, false).
Proof.
  intros key Hrev Hr Ht Hid Hname.
  assert (Hne : token <> "").
  { destruct (revoke_cases s id name token) as [E|(n & _ & _ & _ & ? & _)]; congruence. }
  pose proof (reissue_steps_absent token key s1 s2 Hne Hr (revoke_absent _ _ _ _ _ Hrev)) as Ha.
  assert (Hno : forall n, nodes s2 !! key = Some n -> ns_LeaseToken n <> token)
    by (intros n; by apply tokenAbsent_node).
  split_and!.
  - destruct (claim_cases s2 lease) as [-> |(n & Hn & _ & Hl & _)]; [done|].
    rewrite Hid, Hname in Hn. apply Hno in Hn. congruence.
  - destruct (renew_cases now s2 id name token t) as [-> |(n & i & Hn & Hl & _)]; [done|].
    by apply Hno in Hn.
  - destruct (reset_cases s2 id name token) as [-> |(n & Hn & _ & Hl & _)]; [done|].
    by apply Hno in Hn.
  - destruct (revoke_cases s2 id name token) as [-> |(n & Hn & _ & Hl & _)]; [done|].
    by apply Hno in Hn.
Qed.

Lemma revoked_token_fenced_witness :
  let s := (acquireTaskLeaseLocked demoOutbox demoLease).1.1 in
  let s1 := (revokeLeaseLocked s "e1" "a" "tok").1 in
  revokeLeaseLocked s1 "e1" "a" "tok" = (s1, false).
Proof.
  intros s s1. apply (revoked_token_fenced s "e1" "a" "tok" s1 s1 demoLease 7 8);
    [by vm_compute|apply rtc_refl|done..].
Defined.

(** ** Expired leases are recovered *)

Lemma preserve_frame s key req : life_frame s (preserveOutputPrivacyLocked s key req).1.
Proof. unfold preserveOutputPrivacyLocked. by repeat case_match. Qed.

Lemma preserve_outbox s key req :
  let s' := (preserveOutputPrivacyLocked s key req).1 in
  outbox s' = outbox s /\ rolledBack s' = rolledBack s.
Proof. unfold preserveOutputPrivacyLocked. by repeat case_match. Qed.

Lemma storeNode_outbox s key n :
  outbox (storeNode s key n) = outbox s /\ rolledBack (storeNode s key n) = rolledBack s.
Proof.
  unfold storeNode. pose proof (preserve_outbox s key (ns_PrivateOutput n)) as H.
  destruct (preserveOutputPrivacyLocked s key (ns_PrivateOutput n)). exact H.
Qed.

Lemma put_entry_present now s id o :
  oe_ID o <> "" -> is_Some (outboxOf (putOutboxEntryLocked now s id o).1 id !! oe_ID o).
Proof.
  intros Hne. unfold putOutboxEntryLocked. rewrite decide_False by done.
  destruct (outboxOf s id !! oe_ID o) eqn:E; [by eexists|]. cbn zeta. unfold outboxOf. cbn.
  rewrite lookup_insert_eq. cbn. destruct (IsZero _); cbn; rewrite lookup_insert_eq; by eexists.
Qed.

Lemma put_present now s id entryID task t :
  entryID <> "" -> is_Some (outboxOf (putOutboxLocked now s id entryID task t).1 id !! entryID).
Proof. apply (put_entry_present now s id (newOutboxEntry entryID task t)). Qed.

Lemma put_nodes now s id entry :
  nodes (putOutboxEntryLocked now s id entry).1 = nodes s /\
  rolledBack (putOutboxEntryLocked now s id entry).1 = rolledBack s.
Proof. unfold putOutboxEntryLocked. by repeat case_match. Qed.

(** A pending node can be leased again at the same activation. *)
Lemma acquire_pending s lease n :
  let t := tl_Task lease in
  nodes s !! memoryNodeKey (t_ExecutionID t) (t_NodeName t) = Some n ->
  ns_Status n = NodeStatusPending -> ns_ActivationID n = t_ActivationID t ->
  t_ExecutionID t ∉ rolledBack s ->
  (acquireTaskLeaseLocked s lease).2 = true.
Proof.
  intros t Hn Hs Ha Hr. unfold acquireTaskLeaseLocked. rewrite decide_False by done.
  fold t. rewrite Hn. unfold acquireRefused. rewrite Hs, Ha. fold t. simpl.
  rewrite Z.ltb_irrefl. rewrite andb_false_r. simpl.
  by destruct (preserveOutputPrivacyLocked _ _ _).
Qed.

(** C35. No node is stranded by a dead runner: a leased node whose deadline has
    passed is reported by the sweep, revoking the reported token succeeds, the
    redelivery intent is in the outbox in the same step, and the node can be
    leased again, one attempt later. *)
Theorem expired_lease_recovered now s id name n before entry :
  let key := memoryNodeKey id name in
  nodes s !! key = Some n -> ns_ExecutionID n = id -> ns_Name n = name ->
  leasedStatus (ns_Status n) = true -> ns_LeaseToken n <> "" ->
  ns_LeaseIssuedAt n <> zeroTime -> 0 < ns_LeaseTTL n ->
  ns_LeaseIssuedAt n + ns_LeaseTTL n <= before ->
  oe_ID entry <> "" -> id ∉ rolledBack s ->
  exists x, x ∈ ListExpiredLeases s before /\
    xl_ExecutionID x = id /\ xl_NodeName x = name /\ xl_LeaseToken x = ns_LeaseToken n /\
    let '(s1, ok) := RevokeLeaseWithOutbox now s id name (xl_LeaseToken x) entry in
    ok = true /\ is_Some (outboxOf s1 id !! oe_ID entry) /\
    forall lease, t_ExecutionID (tl_Task lease) = id -> t_NodeName (tl_Task lease) = name ->
      t_ActivationID (tl_Task lease) = ns_ActivationID n ->
      (acquireTaskLeaseLocked s1 lease).2 = true /\
      nextAttempt (nodes s1 !! key) lease = ns_Attempt n + 1.
Proof.
  intros key Hn Hid Hname Hst Htok Hi Httl Hexp Hent Hrb.
  eexists (mkExpiredLease id name (ns_NodeIdx n) (ns_UnitIdx n) (ns_LeaseID n) (ns_LeaseToken n)
    (ns_LeaseIssuedAt n) (ns_LeaseTTL n) (ns_ActivationID n) (ns_AutoDepth n)
    (ns_LeaseTaskType n) (ns_LeasePayload n) (ns_LeaseGeneration n)).
  split_and!; [|done..|].
  - unfold ListExpiredLeases. apply elem_of_app. left. apply list_elem_of_omap.
    exists (key, n). split; [by apply elem_of_map_to_list|]. unfold expiredNodeLease. simpl.
    rewrite Hst. simpl. unfold IsZero, After, Add.
    destruct (Z.eqb_spec (ns_LeaseIssuedAt n) zeroTime); [done|].
    destruct (Z.leb_spec (ns_LeaseTTL n) 0); [lia|]. simpl.
    destruct (Z.ltb_spec before (ns_LeaseIssuedAt n + ns_LeaseTTL n)); [lia|].
    by rewrite Hid, Hname.
  - cbn [xl_LeaseToken]. unfold RevokeLeaseWithOutbox.
    destruct (revoke_cases s id name (ns_LeaseToken n)) as [E|(n' & Hn' & _ & _ & _ & E)].
    { exfalso. unfold revokeLeaseLocked in E. fold key in E. rewrite Hn, Hst in E. simpl in E.
      rewrite decide_False in E by tauto. done. }
    rewrite E. fold key in Hn' |- *. simpl. simplify_eq.
    pose proof (storeNode_coreAt s key (clearLease (n <| ns_Status := NodeStatusPending |>)) key)
      as Hc. rewrite decide_True in Hc by done.
    pose proof (storeNode_outbox s key (clearLease (n <| ns_Status := NodeStatusPending |>)))
      as [_ Hrb'].
    set (s0 := storeNode s key _) in *. split; [done|]. split; [by apply put_present|].
    intros lease Hl1 Hl2 Hl3. unfold putOutboxLocked.
    destruct (put_nodes now s0 (ns_ExecutionID n)
      (newOutboxEntry (oe_ID entry) (oe_Task entry) (oe_AvailableAt entry))) as [En Er].
    destruct (coreAt_inv _ _ _ Hc) as (m & Hm & Ecore).
    assert (Hf : ns_Status m = NodeStatusPending /\ ns_ActivationID m = ns_ActivationID n /\
      ns_Attempt m = ns_Attempt n) by (destruct m, n; simplify_eq/=; done).
    destruct Hf as (Hf1 & Hf2 & Hf3). split.
    + apply (acquire_pending _ lease m); [|done|congruence|].
      * rewrite En, Hl1, Hl2. exact Hm.
      * rewrite Er, Hrb', Hl1. done.
    + rewrite En. unfold nextAttempt. rewrite Hm, Hf2, Hl3, Z.eqb_refl. by rewrite Hf3.
Qed.

Lemma expired_lease_recovered_witness :
  let s := (acquireTaskLeaseLocked demoOutbox demoLease).1.1 in
  exists x, x ∈ ListExpiredLeases s 5000 /\ xl_LeaseToken x = "tok".
Proof.
  intros s.
  destruct (acquired_node demoOutbox demoLease s None demoLease_acquired) as (n & Hn & _).
  assert (En : Some n = nodes s !! "e1/a") by (symmetry; exact Hn). vm_compute in En.
  injection En as ->.
  destruct (expired_lease_recovered 6000 s "e1" "a" _ 5000 demoEntry Hn)
    as (x & Hx & _ & _ & Ht & _); [done..|by vm_compute|]. exists x. by split.
Defined.

(** A renewal to an instant at or before the issue time makes the lease
    permanent instead of ending it: the node is never again reported as
    expired, and no acquire issued at any time succeeds. *)
Theorem renewal_to_the_past_never_expires now s id name token t n s1 :
  let key := memoryNodeKey id name in
  nodes s !! key = Some n -> ns_Status n = NodeStatusRunning ->
  ns_LeaseIssuedAt n <> zeroTime -> t <= ns_LeaseIssuedAt n ->
  RenewTaskLease now s id name token t = (s1, true) ->
  exists n1, nodes s1 !! key = Some n1 /\
    (forall before, expiredNodeLease before n1 = None) /\
    (forall lease, t_ExecutionID (tl_Task lease) = id -> t_NodeName (tl_Task lease) = name ->
       (acquireTaskLeaseLocked s1 lease).2 = false).
Proof.
  intros key Hn Hs Hi Ht Hr.
  destruct (renew_cases now s id name token t)
    as [E|(n' & i & Hn' & Htok & Hne & _ & -> & E)]; rewrite E in Hr; simplify_eq.
  fold key in Hn' |- *. simplify_eq.
  assert (Httl : Z.max 0 (Sub t (if IsZero (ns_LeaseIssuedAt n) then now
                                 else ns_LeaseIssuedAt n)) = 0).
  { unfold IsZero. destruct (Z.eqb_spec (ns_LeaseIssuedAt n) zeroTime); [done|].
    unfold Sub, minDuration, maxDuration. lia. }
  rewrite Httl. eexists. split; [simpl; apply lookup_insert_eq|]. split.
  - intros before. unfold expiredNodeLease. simpl. rewrite Hs. simpl. by rewrite orb_true_r.
  - intros lease Hid Hname. unfold acquireTaskLeaseLocked. case_decide; [done|].
    rewrite Hid, Hname. simpl. rewrite lookup_insert_eq. unfold acquireRefused. simpl.
    rewrite Hs, !bool_decide_true by done. by rewrite !orb_true_r.
Qed.

Lemma renewal_to_the_past_never_expires_witness :
  let s := (acquireTaskLeaseLocked demoOutbox demoLease).1.1 in
  exists n1, nodes (RenewTaskLease 30 s "e1" "a" "tok" 20).1 !! "e1/a" = Some n1 /\
    expiredNodeLease 999999 n1 = None.
Proof.
  intros s.
  destruct (acquired_node demoOutbox demoLease s None demoLease_acquired) as (n & Hn & _).
  assert (En : Some n = nodes s !! "e1/a") by (symmetry; exact Hn). vm_compute in En.
  injection En as ->.
  destruct (renewal_to_the_past_never_expires 30 s "e1" "a" "tok" 20 _
    (RenewTaskLease 30 s "e1" "a" "tok" 20).1 Hn) as (n1 & Hn1 & Hx & _);
    [done..|by vm_compute|]. exists n1. split; [exact Hn1|apply Hx].
Defined.
