(* ===== verification/Commit.v ===== *)
(** * Committing a node and scheduling its successors

    [CommitNodeRequest.Validate] of [src/engine/atomic.go], and the fenced
    commit of [atomic_state.go] with the counters that turn arrivals into
    execute or skip intents. *)

From S2P Require Import Prelude Keys Types Graph State Slots Executions Outbox Lease.

(** ** Validation *)

(** The reasons a request is refused before it reaches the store. *)
Inductive CommitRequestError : Type :=
| ArrivalsOnCyclic
| ArrivalsOnFatal
| ArrivalsAndAdvance
| MergeCancelAndAdvance
| MergeCancelMisplaced
| ReclaimMisplaced
| FatalOnCyclic
| AdvanceOnCyclic
| CyclicOutboxOnAcyclic
| CyclicCompleteOnAcyclic.

(** Only a successful, non-system, non-fatal, acyclic commit may reclaim
    outputs or cancel the losing branches of a merge. *)
Definition notPlainSuccess (r : CommitNodeRequest) : bool :=
  req_AllowCycles r || req_Fatal r || req_System r ||
  bool_decide (req_Status r <> NodeStatusSuccess).

Definition isSome {A} (o : option A) : bool := match o with Some _ => true | None => false end.
Definition nonEmpty {A} (l : list A) : bool := match l with [] => false | _ => true end.

Definition Validate (r : CommitNodeRequest) : option CommitRequestError :=
  if nonEmpty (req_Arrivals r) && req_AllowCycles r then Some ArrivalsOnCyclic
  else if nonEmpty (req_Arrivals r) && req_Fatal r then Some ArrivalsOnFatal
  else if nonEmpty (req_Arrivals r) && isSome (req_AdvanceTask r) then Some ArrivalsAndAdvance
  else if isSome (req_MergeCancel r) && isSome (req_AdvanceTask r) then Some MergeCancelAndAdvance
  else if isSome (req_MergeCancel r) && notPlainSuccess r then Some MergeCancelMisplaced
  else if nonEmpty (req_ReclaimOutputNames r) && notPlainSuccess r then Some ReclaimMisplaced
  else if req_AllowCycles r then
    if req_Fatal r then Some FatalOnCyclic
    else if isSome (req_AdvanceTask r) then Some AdvanceOnCyclic
    else None
  else if nonEmpty (req_CyclicOutbox r) then Some CyclicOutboxOnAcyclic
  else if req_CyclicComplete r then Some CyclicCompleteOnAcyclic
  else None.

(** ** Arrivals *)

(** What the counters of a destination decide; the empty string is "not yet". *)
Definition decideSchedule (arrival : DownstreamArrival) (previousActive inDegree active : Z)
    : string :=
  if bool_decide (da_MergeMode arrival = "wait_any") && (0 <? da_ActiveCount arrival) &&
     (previousActive =? 0) then "execute"
  else if inDegree <=? 0 then if 0 <? active then "execute" else "skip"
  else "".

Definition applyArrival (now : Time) (id : string) (activationID autoDepth : Z)
    (acc : memoryState * (list string * list SkippedUnit)) (arrival : DownstreamArrival)
    : memoryState * (list string * list SkippedUnit) :=
  let '(s, (outboxIDs, skipped)) := acc in
  if da_ArrivalCount arrival <=? 0 then acc
  else
    let counterKey := memoryCounterKey id (da_UnitIdx arrival) in
    let previousActive := counter (activeIns s) counterKey in
    let s := s <| inDegrees ::= fun m =>
               <[counterKey := counter m counterKey - da_ArrivalCount arrival]> m |> in
    let s := if 0 <? da_ActiveCount arrival
             then s <| activeIns ::= fun m =>
                    <[counterKey := counter m counterKey + da_ActiveCount arrival]> m |>
             else s in
    if decide (marker (scheduled s) counterKey <> "") then (s, (outboxIDs, skipped))
    else
      let schedule := decideSchedule arrival previousActive
                        (counter (inDegrees s) counterKey) (counter (activeIns s) counterKey) in
      if decide (schedule = "") then (s, (outboxIDs, skipped))
      else
        let s := s <| scheduled ::= <[counterKey := schedule]> |> in
        let isSkip := bool_decide (schedule = "skip") in
        let taskType := if isSkip then TaskTypeNodeSkip else da_ExecTaskType arrival in
        let outboxID := if isSkip then skipOutboxID id (da_NodeName arrival) activationID
                        else executeOutboxID id (da_NodeName arrival) activationID in
        let task := zeroTask <| t_ExecutionID := id |> <| t_NodeName := da_NodeName arrival |>
          <| t_NodeIdx := da_NodeIdx arrival |> <| t_UnitIdx := da_UnitIdx arrival |>
          <| t_Type := taskType |> <| t_ActivationID := activationID |>
          <| t_AutoDepth := autoDepth |> in
        let '(s, written) := putOutboxLocked now s id outboxID task zeroTime in
        if negb written then (s, (outboxIDs, skipped))
        else (s, (outboxIDs ++ [outboxID],
                  if isSkip then skipped ++ [mkSkippedUnit (da_NodeName arrival) 1]
                  else skipped)).

Definition applyArrivalsLocked (now : Time) (s : memoryState) (id : string)
    (activationID autoDepth : Z) (arrivals : list DownstreamArrival)
    : memoryState * (list string * list SkippedUnit) :=
  foldl (applyArrival now id activationID autoDepth) (s, ([], [])) arrivals.

(** ** The commit *)

Definition cancelFenceAdmitsLocked (s : memoryState) (req : CommitNodeRequest)
    (current : option NodeSnapshot) : bool :=
  let mark := marker (scheduled s) (memoryCounterKey (req_ExecutionID req) (req_UnitIdx req)) in
  let unleased := bool_decide (mark = "execute") in
  match current with
  | None => unleased
  | Some n =>
      match ns_Status n with
      | NodeStatusSuspended | NodeStatusRunning | NodeStatusCommitting =>
          bool_decide (mark <> "skip")
      | NodeStatusPending => unleased
      | _ => false
      end
  end.

(** The fence of a live execution's unfinished node; [false] is a stale token. *)
Definition commitAdmits (s : memoryState) (req : CommitNodeRequest)
    (current : option NodeSnapshot) : bool :=
  if req_System req && bool_decide (req_Status req = NodeStatusCanceled)
  then cancelFenceAdmitsLocked s req current
  else if req_System req then
    let mark := marker (scheduled s) (memoryCounterKey (req_ExecutionID req) (req_UnitIdx req)) in
    let skipMarked := bool_decide (mark = "skip") in
    let pinned := bool_decide (req_Status req = NodeStatusPinned) in
    let skippedStatus := bool_decide (req_Status req = NodeStatusSkipped) in
    if pinned && skipMarked || negb pinned && negb skippedStatus && negb skipMarked then false
    else match current with
         | Some n => bool_decide (ns_Status n = NodeStatusPending)
         | None => true
         end
  else
    match current with
    | None => false
    | Some n =>
        leasedStatus (ns_Status n) && bool_decide (ns_LeaseID n = req_LeaseID req) &&
        bool_decide (ns_LeaseToken n = req_LeaseToken req) &&
        (ns_Attempt n =? req_Attempt req) && (ns_ActivationID n =? req_ActivationID req)
    end.

(** The terminal record a commit stores. *)
Definition committedNode (now : Time) (req : CommitNodeRequest) (current : option NodeSnapshot)
    (privateOutput : bool) : NodeSnapshot :=
  let node := zeroNodeSnapshot <| ns_ExecutionID := req_ExecutionID req |>
    <| ns_Name := req_NodeName req |> <| ns_NodeIdx := req_NodeIdx req |>
    <| ns_Status := req_Status req |> <| ns_Attempt := req_Attempt req |>
    <| ns_ActivationID := req_ActivationID req |> <| ns_AutoDepth := req_AutoDepth req |>
    <| ns_PrivateOutput := privateOutput |> <| ns_Port := req_Port req |>
    <| ns_Error := req_Error req |> <| ns_ErrorDetails := cloneData (req_ErrorDetails req) |>
    <| ns_CommittedLeaseToken := req_LeaseToken req |>
    <| ns_CommittedAttempt := req_Attempt req |> in
  let node := if negb privateOutput then node <| ns_Output := cloneData (req_Output req) |>
              else node in
  let node :=
    match current with
    | Some n =>
        let node := if req_System req then node <| ns_Attempt := ns_Attempt n |>
                                                <| ns_AutoDepth := ns_AutoDepth n |>
                    else node in
        node <| ns_ChildExecutionID := ns_ChildExecutionID n |>
             <| ns_StartedAt := ns_StartedAt n |> <| ns_FinishedAt := ns_FinishedAt n |>
    | None => node
    end in
  if IsTerminalNodeStatus (req_Status req) && IsZero (ns_FinishedAt node)
  then node <| ns_FinishedAt := now |> else node.

(** Storing the record, the output and the retired waiter of a canceled node. *)
Definition commitWriteNode (now : Time) (s : memoryState) (req : CommitNodeRequest)
    (current : option NodeSnapshot) : memoryState :=
  let key := memoryNodeKey (req_ExecutionID req) (req_NodeName req) in
  let '(s, privateOutput) := preserveOutputPrivacyLocked s key (req_PrivateOutput req) in
  let s := s <| nodes ::= <[key := committedNode now req current privateOutput]> |> in
  let s := if req_StoreOutput req then s <| outputs ::= <[key := cloneData (req_Output req)]> |>
           else s in
  let s := if req_System req && bool_decide (req_Status req = NodeStatusCanceled)
           then s <| suspended ::= delete key |> <| signalSets ::= delete key |> else s in
  s <| outputs ::= fun m =>
       foldl (fun m name => delete (memoryNodeKey (req_ExecutionID req) name) m) m
         (req_ReclaimOutputNames req) |>.

(** Counting the unit down, and finishing the execution on the last one or on a
    fatal failure.  The result carries the final status when it finished. *)
Definition commitCount (now : Time) (s : memoryState) (req : CommitNodeRequest)
    (entry : execEntry) : memoryState * option ExecutionStatus :=
  let id := req_ExecutionID req in
  if req_AllowCycles req then (s, None)
  else
    let s := s <| remaining ::= fun m => <[id := counter m id - 1]> m |> in
    let s := if decide (req_Status req = NodeStatusFailed)
             then s <| failed ::= fun m => <[id := counter m id + 1]> m |> else s in
    if req_Fatal req || (counter (remaining s) id =? 0) then
      let st := if req_Fatal req || (0 <? counter (failed s) id)
                then ExecutionStatusFailed else ExecutionStatusSuccess in
      let terminalErr := TerminalExecutionError st (req_Error req) "" in
      (finishExecutionLocked now s id entry st terminalErr, Some st)
    else (s, None).

(** Writes an optional single intent. *)
Definition putOptional (now : Time) (s : memoryState) (id outboxID : string) (task : option Task)
    : memoryState * list string :=
  match task with
  | None => (s, [])
  | Some t =>
      let '(s, written) := putOutboxLocked now s id outboxID t zeroTime in
      (s, if written : bool then [outboxID] else [])
  end.

Definition arrivalCandidateOutboxIDs (id : string) (activationID : Z)
    (arrivals : list DownstreamArrival) : list string :=
  arrivals ≫= fun a => [executeOutboxID id (da_NodeName a) activationID;
                        skipOutboxID id (da_NodeName a) activationID].

Definition isCanceling (s : memoryState) (id : string) : bool :=
  match executions s !! id with
  | Some e => bool_decide (status e = ExecutionStatusCanceling)
  | None => false
  end.

Definition putCyclic (now : Time) (id : string) (acc : memoryState * list string)
    (o : OutboxEntry) : memoryState * list string :=
  let '(s, ids) := acc in
  let '(s, written) := putOutboxEntryLocked now s id o in
  (s, if written : bool then ids ++ [oe_ID o] else ids).

(** Scheduling what follows a commit that was accepted. *)
Definition commitSchedule (now : Time) (s : memoryState) (req : CommitNodeRequest)
    (entry : execEntry) (final : option ExecutionStatus) : memoryState * CommitNodeResult :=
  let id := req_ExecutionID req in
  let done := isSome final in
  let live := negb (req_Fatal req) && negb done in
  let canceling := isCanceling s id in
  let '(s, ids1) :=
    putOptional now s id (advanceOutboxID id (req_NodeName req) (req_ActivationID req))
      (if live then req_AdvanceTask req else None) in
  let '(s, ids2) :=
    putOptional now s id (mergeCancelOutboxID id (req_NodeName req) (req_ActivationID req))
      (if live && negb canceling then req_MergeCancel req else None) in
  let '(s, skipped) :=
    if negb (req_AllowCycles req) && live && negb canceling then
      let '(s, (_, skipped)) := applyArrivalsLocked now s id (req_ActivationID req)
                                  (req_AutoDepth req) (req_Arrivals req) in
      (s, skipped)
    else (s, []) in
  let ids3 := if live then arrivalCandidateOutboxIDs id (req_ActivationID req) (req_Arrivals req)
              else [] in
  let result := mkCommitNodeResult CommitOutcomeAccepted true done
                  (default ExecutionStatusNone final) (ids1 ++ ids2 ++ ids3) skipped in
  if req_AllowCycles req && live then
    if nonEmpty (req_CyclicOutbox req) then
      let '(s, ids) := foldl (putCyclic now id) (s, res_OutboxIDs result) (req_CyclicOutbox req) in
      (s, result <| res_OutboxIDs := ids |>)
    else if req_CyclicComplete req then
      let terminalErr := TerminalExecutionError (req_CyclicFinalStatus req) (req_Error req)
                           (req_CyclicFinalError req) in
      (finishExecutionLocked now s id entry (req_CyclicFinalStatus req) terminalErr,
       result <| res_ExecutionDone := true |>
              <| res_ExecutionStatus := req_CyclicFinalStatus req |>)
    else (s, result)
  else (s, result).

Definition commitNodeLocked (now : Time) (s : memoryState) (req : CommitNodeRequest)
    : memoryState * CommitNodeResult :=
  let id := req_ExecutionID req in
  match executions s !! id with
  | None => (s, outcomeOnly CommitOutcomeExecutionInactive)
  | Some entry =>
      let current := nodes s !! memoryNodeKey id (req_NodeName req) in
      let terminal :=
        match current with
        | Some n =>
            if isTerminalNode (ns_Status n) then
              if (ns_ActivationID n =? req_ActivationID req) &&
                 (negb (req_System req) &&
                    bool_decide (ns_CommittedLeaseToken n = req_LeaseToken req) &&
                    bool_decide (req_LeaseToken req <> "") ||
                  req_System req && bool_decide (ns_Status n = req_Status req))
              then Some CommitOutcomeDuplicateTerminal
              else Some CommitOutcomeStaleToken
            else None
        | None => None
        end in
      match terminal with
      | Some outcome => (s, outcomeOnly outcome)
      | None =>
          if IsTerminalExecutionStatus (status entry)
          then (s, outcomeOnly CommitOutcomeExecutionInactive)
          else if negb (commitAdmits s req current)
          then (s, outcomeOnly CommitOutcomeStaleToken)
          else
            let s := commitWriteNode now s req current in
            let '(s, final) := commitCount now s req entry in
            commitSchedule now s req entry final
      end
  end.

Definition CommitNode (now : Time) (s : memoryState) (req : CommitNodeRequest)
    : memoryState * (CommitRequestError + CommitNodeResult) :=
  match Validate req with
  | Some err => (s, inl err)
  | None => let '(s, result) := commitNodeLocked now s req in (s, inr result)
  end.

Definition CommitLeasedNode := CommitNode.

Definition AdvanceNode (now : Time) (s : memoryState) (req : AdvanceNodeRequest)
    : memoryState * AdvanceNodeResult :=
  let id := adv_ExecutionID req in
  let nothing := (s, mkAdvanceNodeResult false [] []) in
  match executions s !! id with
  | None => nothing
  | Some entry =>
      if IsTerminalExecutionStatus (status entry) then nothing
      else
        match nodes s !! memoryNodeKey id (adv_NodeName req) with
        | None => nothing
        | Some node =>
            if negb (isTerminalNode (ns_Status node)) ||
               negb (ns_ActivationID node =? adv_ActivationID req) then nothing
            else
              let advanceKey := memoryAdvanceKey id (adv_NodeName req) (adv_ActivationID req) in
              if decide (advanceKey ∈ advanced s) then nothing
              else
                let s := s <| advanced ::= fun m => {[advanceKey]} ∪ m |> in
                let '(s, (ids, skipped)) :=
                  applyArrivalsLocked now s id (adv_ActivationID req) (adv_AutoDepth req)
                    (adv_Arrivals req) in
                (s, mkAdvanceNodeResult true ids skipped)
        end
  end.

#[global] Arguments applyArrival : simpl never.
#[global] Arguments applyArrivalsLocked : simpl never.
#[global] Arguments commitWriteNode : simpl never.
#[global] Arguments commitCount : simpl never.
#[global] Arguments commitSchedule : simpl never.
#[global] Arguments commitNodeLocked : simpl never.
#[global] Arguments committedNode : simpl never.

(** ** What each part of a commit touches *)

Lemma commitSchedule_applied now s req entry final :
  res_Outcome (commitSchedule now s req entry final).2 = CommitOutcomeAccepted /\
  res_Applied (commitSchedule now s req entry final).2 = true.
Proof.
  unfold commitSchedule. repeat (case_match; try done).
Qed.

(** The state of a commit that was not accepted. *)
Lemma commit_refused_same now s req :
  res_Outcome (commitNodeLocked now s req).2 <> CommitOutcomeAccepted ->
  (commitNodeLocked now s req).1 = s.
Proof.
  unfold commitNodeLocked. destruct (executions s !! _) as [entry|]; [|done].
  destruct (match nodes s !! _ with Some n => _ | None => None end); [done|].
  destruct (IsTerminalExecutionStatus _); [done|].
  destruct (negb (commitAdmits _ _ _)); [done|].
  destruct (commitCount _ _ _ _) as [s2 final].
  intros H. exfalso. by apply H, commitSchedule_applied.
Qed.

Lemma commit_applied_accepted now s req :
  res_Applied (commitNodeLocked now s req).2 = true ->
  res_Outcome (commitNodeLocked now s req).2 = CommitOutcomeAccepted.
Proof.
  unfold commitNodeLocked. destruct (executions s !! _) as [entry|]; [|done].
  destruct (match nodes s !! _ with Some n => _ | None => None end); [done|].
  destruct (IsTerminalExecutionStatus _); [done|].
  destruct (negb (commitAdmits _ _ _)); [done|].
  destruct (commitCount _ _ _ _) as [s2 final]. intros _. apply commitSchedule_applied.
Qed.

(** The conditions under which a commit is accepted. *)
Lemma commit_accepted_inv now s req :
  res_Outcome (commitNodeLocked now s req).2 = CommitOutcomeAccepted ->
  exists entry,
    let current := nodes s !! memoryNodeKey (req_ExecutionID req) (req_NodeName req) in
    executions s !! req_ExecutionID req = Some entry /\
    ended entry = false /\
    (forall n, current = Some n -> isTerminalNode (ns_Status n) = false) /\
    commitAdmits s req current = true /\
    commitNodeLocked now s req
    = (let s1 := commitWriteNode now s req current in
       let '(s2, final) := commitCount now s1 req entry in
       commitSchedule now s2 req entry final).
Proof.
  unfold commitNodeLocked. destruct (executions s !! _) as [entry|]; [|done].
  set (current := nodes s !! _).
  destruct (match current with Some n => _ | None => None end) as [o|] eqn:Et.
  { simpl. intros ->. exfalso. destruct current as [n|]; [|done].
    destruct (isTerminalNode (ns_Status n)); [|done].
    match type of Et with context [if ?b then _ else _] => destruct b end; done. }
  fold (ended entry). destruct (ended entry) eqn:Ee; [done|].
  destruct (commitAdmits s req current) eqn:Ea; [|done]. simpl. intros _. exists entry.
  split_and!; try done. intros n ->. destruct (isTerminalNode (ns_Status n)); [|done].
  match type of Et with context [if ?b then _ else _] => destruct b end; done.
Qed.

(** ** Counters of one unit *)

(** The three values the store keeps per unit. *)
Record tally : Type := mkTally { ta_in : Z; ta_active : Z; ta_mark : string }.

Definition tallyAt (s : memoryState) (id : string) (u : Z) : tally :=
  let k := memoryCounterKey id u in
  mkTally (counter (inDegrees s) k) (counter (activeIns s) k) (marker (scheduled s) k).

(** One arrival at its unit. *)
Definition tallyStep (t : tally) (a : DownstreamArrival) : tally :=
  if da_ArrivalCount a <=? 0 then t
  else
    let inn := ta_in t - da_ArrivalCount a in
    let act := if 0 <? da_ActiveCount a then ta_active t + da_ActiveCount a else ta_active t in
    mkTally inn act
      (if decide (ta_mark t <> "") then ta_mark t
       else decideSchedule a (ta_active t) inn act).

#[global] Arguments tallyAt : simpl never.
#[global] Arguments tallyStep : simpl never.

Lemma memoryCounterKey_inj id1 u1 id2 u2 :
  memoryCounterKey id1 u1 = memoryCounterKey id2 u2 -> id1 = id2 /\ u1 = u2.
Proof.
  intros E. apply join_last_inj in E as [-> E%itoa_inj]; [done|apply slash_free_itoa..].
Qed.

Lemma counter_insert m k v k' :
  counter (<[k := v]> m) k' = if decide (k' = k) then v else counter m k'.
Proof.
  unfold counter. case_decide as E; [subst; by rewrite lookup_insert_eq|].
  by rewrite lookup_insert_ne.
Qed.

Lemma marker_insert m k v k' :
  marker (<[k := v]> m) k' = if decide (k' = k) then v else marker m k'.
Proof.
  unfold marker. case_decide as E; [subst; by rewrite lookup_insert_eq|].
  by rewrite lookup_insert_ne.
Qed.

(** Writing an intent touches only the outbox. *)
Lemma putOutbox_only now s id entry :
  exists ob, (putOutboxEntryLocked now s id entry).1 = s <| outbox := ob |>.
Proof. destruct (putOutboxEntry_shape now s id entry) as (ob & E & _). by exists ob. Qed.

(** The intent an arrival's decision writes. *)
Definition scheduleOutboxID (id name : string) (activationID : Z) (schedule : string) : string :=
  if decide (schedule = "skip") then skipOutboxID id name activationID
  else executeOutboxID id name activationID.

(** Everything one counted arrival changes: its unit's counters, its unit's
    marker when a decision is due, and the outbox of its execution, which then
    holds the intent decided on. *)
Lemma applyArrival_shape now id act depth s r a :
  let k := memoryCounterKey id (da_UnitIdx a) in
  let t := tallyAt s id (da_UnitIdx a) in
  let t' := tallyStep t a in
  0 < da_ArrivalCount a ->
  exists ob,
    (applyArrival now id act depth (s, r) a).1
    = s <| inDegrees ::= <[k := ta_in t']> |>
        <| activeIns ::= (if 0 <? da_ActiveCount a then <[k := ta_active t']> else fun m => m) |>
        <| scheduled ::= (if decide (ta_mark t = "" /\ ta_mark t' <> "")
                          then <[k := ta_mark t']> else fun m => m) |>
        <| outbox := ob |> /\
    delete id ob = delete id (outbox s) /\
    (forall eid e, outboxOf s id !! eid = Some e -> default ∅ (ob !! id) !! eid = Some e) /\
    (ta_mark t = "" -> ta_mark t' <> "" -> is_Some (default ∅ (ob !! id) !!
       scheduleOutboxID id (da_NodeName a) act (ta_mark t'))).
Proof.
  intros k t t' Hc. destruct r as [ids sk].
  set (inn := counter (inDegrees s) k - da_ArrivalCount a).
  set (active := if 0 <? da_ActiveCount a then counter (activeIns s) k + da_ActiveCount a
                 else counter (activeIns s) k).
  assert (Et' : t' = mkTally inn active (if decide (marker (scheduled s) k <> "")
    then marker (scheduled s) k else decideSchedule a (counter (activeIns s) k) inn active)).
  { unfold t', tallyStep. destruct (Z.leb_spec (da_ArrivalCount a) 0); [lia|]. done. }
  clearbody t'. subst t'. cbn [ta_in ta_active ta_mark].
  change (ta_mark t) with (marker (scheduled s) k). clear t.
  unfold applyArrival. destruct (Z.leb_spec (da_ArrivalCount a) 0); [lia|]. fold k inn.
  set (s2 := if 0 <? da_ActiveCount a then _ else _).
  assert (E2 : s2 = s <| inDegrees ::= <[k := inn]> |>
    <| activeIns ::= (if 0 <? da_ActiveCount a then <[k := active]> else fun m => m) |>).
  { unfold s2, active. destruct (0 <? da_ActiveCount a); apply memoryState_ext; reflexivity. }
  assert (Ein : counter (inDegrees s2) k = inn)
    by (rewrite E2; simpl; rewrite counter_insert; by rewrite decide_True).
  assert (Eac : counter (activeIns s2) k = active).
  { rewrite E2. simpl. unfold active. destruct (0 <? da_ActiveCount a); [|done].
    rewrite counter_insert. by rewrite decide_True. }
  assert (Esc : scheduled s2 = scheduled s) by (by rewrite E2).
  assert (Eob : outbox s2 = outbox s) by (by rewrite E2).
  clearbody s2. rewrite Ein, Eac, Esc.
  set (d := decideSchedule a (counter (activeIns s) k) inn active).
  destruct (decide (marker (scheduled s) k <> "")) as [Hm|Hm].
  { exists (outbox s). rewrite decide_False by tauto. cbn [fst]. rewrite E2.
    split_and!; [by apply memoryState_ext|done|done|tauto]. }
  assert (Hm' : marker (scheduled s) k = "")
    by (destruct (decide (marker (scheduled s) k = "")); tauto).
  destruct (decide (d = "")) as [Hd|Hd].
  { exists (outbox s). rewrite decide_False by tauto. cbn [fst]. rewrite E2.
    split_and!; [by apply memoryState_ext|done|done|tauto]. }
  rewrite decide_True by done.
  match goal with |- context [putOutboxLocked now ?x id ?y ?z zeroTime] =>
    destruct (putOutboxEntry_shape now x id (newOutboxEntry y z zeroTime)) as (ob & Ep & Hdel);
    pose proof (fun eid e => put_keeps now x id (newOutboxEntry y z zeroTime) id eid e) as Hk;
    pose proof (put_present now x id y z zeroTime) as Hp;
    unfold putOutboxLocked in *;
    destruct (putOutboxEntryLocked now x id (newOutboxEntry y z zeroTime)) as [s3 w] end.
  cbn [fst] in Ep, Hk, Hp. exists ob.
  assert (Ef : (if negb w then (s3, (ids, sk)) else (s3, (ids ++
    [if bool_decide (d = "skip") then skipOutboxID id (da_NodeName a) act
     else executeOutboxID id (da_NodeName a) act],
    if bool_decide (d = "skip") then sk ++ [mkSkippedUnit (da_NodeName a) 1] else sk))).1 = s3)
    by (by destruct w).
  rewrite Ef. subst s3. split_and!.
  - rewrite E2. by apply memoryState_ext.
  - rewrite Hdel. simpl. by rewrite Eob.
  - intros eid e He. apply (Hk eid e). unfold outboxOf in *. simpl. by rewrite Eob.
  - intros _ _. unfold scheduleOutboxID.
    assert (Hne : (if bool_decide (d = "skip") then skipOutboxID id (da_NodeName a) act
      else executeOutboxID id (da_NodeName a) act) <> "") by (by case_bool_decide).
    specialize (Hp Hne). unfold outboxOf in Hp. simpl in Hp.
    destruct (decide (d = "skip")); [rewrite bool_decide_true in Hp by done
      |rewrite bool_decide_false in Hp by done]; exact Hp.
Qed.

Lemma applyArrival_none now id act depth acc a :
  da_ArrivalCount a <= 0 -> applyArrival now id act depth acc a = acc.
Proof.
  intros H. destruct acc as [s [ids sk]]. unfold applyArrival.
  by destruct (Z.leb_spec (da_ArrivalCount a) 0); [|lia].
Qed.

Lemma applyArrival_tally now id act depth s r a u :
  tallyAt (applyArrival now id act depth (s, r) a).1 id u
  = if decide (da_UnitIdx a = u) then tallyStep (tallyAt s id u) a else tallyAt s id u.
Proof.
  destruct (Z.le_gt_cases (da_ArrivalCount a) 0) as [Hz|Hc].
  { rewrite applyArrival_none by done. case_decide; [|done]. unfold tallyStep.
    by destruct (Z.leb_spec (da_ArrivalCount a) 0); [|lia]. }
  destruct (applyArrival_shape now id act depth s r a) as (ob & -> & _); [lia|].
  set (k := memoryCounterKey id (da_UnitIdx a)).
  assert (Hu : memoryCounterKey id u = k <-> da_UnitIdx a = u).
  { unfold k. split; [by intros [_ ->]%memoryCounterKey_inj|by intros ->]. }
  unfold tallyAt at 1. cbn [upd inDegrees activeIns scheduled].
  destruct (decide (da_UnitIdx a = u)) as [<-|Hne].
  - fold k. set (t := tallyAt s id (da_UnitIdx a)). set (t' := tallyStep t a).
    rewrite counter_insert, decide_True by done.
    assert (Ha : counter ((if 0 <? da_ActiveCount a then <[k := ta_active t']> else fun m => m)
      (activeIns s)) k = ta_active t').
    { destruct (0 <? da_ActiveCount a) eqn:E; [rewrite counter_insert; by rewrite decide_True|].
      unfold t', tallyStep. rewrite E. by destruct (Z.leb_spec (da_ArrivalCount a) 0); [lia|]. }
    assert (Hm : marker ((if decide (ta_mark t = "" /\ ta_mark t' <> "")
      then <[k := ta_mark t']> else fun m => m) (scheduled s)) k = ta_mark t').
    { destruct (decide (ta_mark t = "" /\ ta_mark t' <> "")) as [|Hn].
      - rewrite marker_insert. by rewrite decide_True.
      - change (marker (scheduled s) k) with (ta_mark t).
        destruct (decide (ta_mark t = "")) as [E|E].
        + rewrite E. destruct (decide (ta_mark t' = "")); [done|tauto].
        + unfold t', tallyStep. destruct (Z.leb_spec (da_ArrivalCount a) 0); [lia|]. simpl.
          by rewrite decide_True. }
    rewrite Ha, Hm. by destruct t'.
  - assert (Hk : memoryCounterKey id u <> k) by (by rewrite Hu).
    assert (Hins : forall (b : bool) v m, counter ((if b then <[k := v]> else fun m => m) m)
      (memoryCounterKey id u) = counter m (memoryCounterKey id u)).
    { intros [] v m; [rewrite counter_insert; by rewrite decide_False|done]. }
    rewrite counter_insert, decide_False, Hins by done.
    case_decide; [|done]. by rewrite marker_insert, decide_False.
Qed.

(** The counters after a list of arrivals are those of the unit's own arrivals
    in order. *)
Lemma fold_arrivals_tally now id act depth s r l u :
  tallyAt (foldl (applyArrival now id act depth) (s, r) l).1 id u
  = foldl tallyStep (tallyAt s id u) (filter (fun a => da_UnitIdx a = u) l).
Proof.
  revert s r. induction l as [|a l IH]; intros s r; [done|]. cbn [foldl].
  pose proof (applyArrival_tally now id act depth s r a u) as Ha.
  destruct (applyArrival now id act depth (s, r) a) as [s1 r1]. cbn [fst] in Ha.
  rewrite IH, Ha. rewrite filter_cons. by case_decide.
Qed.

Lemma applyArrivals_tally now s id act depth l u :
  tallyAt (applyArrivalsLocked now s id act depth l).1 id u
  = foldl tallyStep (tallyAt s id u) (filter (fun a => da_UnitIdx a = u) l).
Proof. apply fold_arrivals_tally. Qed.

(** ** The fan-in decision

    The abstract decision depends on totals only: how many of the unit's
    inbound edges have arrived and how many of them were active. *)

Definition arrived (l : list DownstreamArrival) : Z := foldr Z.add 0 (map da_ArrivalCount l).
Definition activeArrived (l : list DownstreamArrival) : Z := foldr Z.add 0 (map da_ActiveCount l).

Definition fanIn (mode : string) (inDegree total active : Z) : string :=
  if bool_decide (mode = "wait_any") && (0 <? active) then "execute"
  else if inDegree <=? total then if 0 <? active then "execute" else "skip"
  else "".

(** The arrivals of one transition at a unit: at least one edge each, no more
    active than arrived, all carrying the unit's merge mode. *)
Definition okArrival (mode : string) (a : DownstreamArrival) : Prop :=
  0 < da_ArrivalCount a /\ 0 <= da_ActiveCount a /\ da_MergeMode a = mode.

Lemma arrived_app l k : arrived (l ++ k) = arrived l + arrived k.
Proof. unfold arrived. rewrite map_app. induction l; simpl; lia. Qed.

Lemma activeArrived_app l k : activeArrived (l ++ k) = activeArrived l + activeArrived k.
Proof. unfold activeArrived. rewrite map_app. induction l; simpl; lia. Qed.

Lemma okArrivals_nonneg mode l :
  Forall (okArrival mode) l -> 0 <= activeArrived l /\ Z.of_nat (length l) <= arrived l.
Proof.
  unfold activeArrived, arrived.
  induction 1 as [|a l (H1 & H2 & _) _ IH]; simpl; [lia|]. lia.
Qed.

Lemma fanIn_correct mode d l :
  Forall (okArrival mode) l -> l <> [] -> arrived l <= d ->
  foldl tallyStep (mkTally d 0 "") l
  = mkTally (d - arrived l) (activeArrived l) (fanIn mode d (arrived l) (activeArrived l)).
Proof.
  induction l as [|a l IH] using rev_ind; intros Hok Hne Hle; [done|].
  apply Forall_app in Hok as [Hok Ha]. apply Forall_singleton in Ha as (H1 & H2 & Hm).
  rewrite foldl_app. cbn [foldl]. rewrite arrived_app, activeArrived_app in *.
  assert (E1 : arrived [a] = da_ArrivalCount a) by (unfold arrived; simpl; lia).
  assert (E2 : activeArrived [a] = da_ActiveCount a) by (unfold activeArrived; simpl; lia).
  rewrite E1, E2 in *. destruct (okArrivals_nonneg mode l Hok) as [Hact Hlen].
  assert (Hprev : foldl tallyStep (mkTally d 0 "") l = mkTally (d - arrived l) (activeArrived l)
    (if bool_decide (mode = "wait_any") && (0 <? activeArrived l) then "execute" else "")).
  { destruct (decide (l = [])) as [->|Hl].
    - unfold arrived, activeArrived. simpl. rewrite andb_false_r. f_equal. lia.
    - rewrite IH by (done || lia). f_equal. unfold fanIn.
      destruct (bool_decide (mode = "wait_any") && (0 <? activeArrived l)); [done|].
      by destruct (Z.leb_spec d (arrived l)); [lia|]. }
  rewrite Hprev. unfold tallyStep. destruct (Z.leb_spec (da_ArrivalCount a) 0); [lia|].
  cbn [ta_in ta_active ta_mark].
  assert (Eact : (if 0 <? da_ActiveCount a then activeArrived l + da_ActiveCount a
    else activeArrived l) = activeArrived l + da_ActiveCount a).
  { destruct (Z.ltb_spec 0 (da_ActiveCount a)); lia. }
  rewrite Eact. f_equal; [lia|]. unfold decideSchedule, fanIn. rewrite Hm.
  destruct (bool_decide (mode = "wait_any")); simpl.
  - destruct (Z.ltb_spec 0 (activeArrived l)); simpl.
    + destruct (Z.ltb_spec 0 (activeArrived l + da_ActiveCount a)); [done|lia].
    + destruct (Z.eqb_spec (activeArrived l) 0); [|lia].
      destruct (Z.ltb_spec 0 (da_ActiveCount a)), (Z.ltb_spec 0 (activeArrived l + da_ActiveCount a));
        simpl; try lia; [done|].
      destruct (Z.leb_spec (d - arrived l - da_ArrivalCount a) 0),
        (Z.leb_spec d (arrived l + da_ArrivalCount a)); try lia; done.
  - destruct (Z.leb_spec (d - arrived l - da_ArrivalCount a) 0),
      (Z.leb_spec d (arrived l + da_ArrivalCount a)); try lia; done.
Qed.

(** Fan-in is decided by totals: whatever order and grouping a unit's
    arrivals come in, its marker says execute, skip or nothing according to
    how many inbound edges have arrived and whether any was active; wait_any
    executes on the first active one. *)
Theorem fan_in_by_totals now s id act depth arrivals u mode d :
  let mine := filter (fun a => da_UnitIdx a = u) arrivals in
  tallyAt s id u = mkTally d 0 "" ->
  Forall (okArrival mode) mine -> mine <> [] -> arrived mine <= d ->
  tallyAt (applyArrivalsLocked now s id act depth arrivals).1 id u
  = mkTally (d - arrived mine) (activeArrived mine)
      (fanIn mode d (arrived mine) (activeArrived mine)).
Proof.
  intros mine Ht Hok Hne Hle. rewrite applyArrivals_tally, Ht. by apply fanIn_correct.
Qed.

Lemma fan_in_by_totals_witness :
  ta_mark (tallyAt (applyArrivalsLocked 5 (newMemoryState false
    <| inDegrees := {["e1/3" := 2]} |>) "e1" 0 0
    [mkArrival "m" 3 3 1 0 "" TaskTypeNodeExec; mkArrival "m" 3 3 1 1 "" TaskTypeNodeExec]).1
    "e1" 3) = "execute".
Proof.
  rewrite (fan_in_by_totals 5 _ "e1" 0 0 _ 3 "" 2); [done|by vm_compute|..]; cbn.
  - repeat constructor; simpl; lia.
  - done.
  - unfold arrived. simpl. lia.
Defined.

(** ** Commits *)

(** The node side of the store is left alone. *)
Definition node_frame (s s' : memoryState) : Prop :=
  nodes s' = nodes s /\ privateOutputs s' = privateOutputs s /\ outputs s' = outputs s /\
  suspended s' = suspended s /\ signals s' = signals s /\ signalSets s' = signalSets s /\
  resumed s' = resumed s.

#[export] Instance node_frame_preorder : PreOrder node_frame.
Proof.
  split; [done|]. intros s1 s2 s3 (E1 & E2 & E3 & E4 & E5 & E6 & E7)
    (F1 & F2 & F3 & F4 & F5 & F6 & F7).
  unfold node_frame. by rewrite F1, F2, F3, F4, F5, F6, F7.
Qed.

Lemma finish_node_frame now s id e st errMsg :
  node_frame s (finishExecutionLocked now s id e st errMsg).
Proof.
  destruct (finish_shape now s id e st errMsg)
    as (s1 & dl & (ex & ob & ws & sh & q & ->) & ->). done.
Qed.

Lemma put_node_frame now s id entry : node_frame s (putOutboxEntryLocked now s id entry).1.
Proof. by destruct (putOutbox_only now s id entry) as (ob & ->). Qed.

(** Arrivals only touch the counters, the markers and the outbox. *)
Lemma applyArrivals_rel (R : memoryState -> memoryState -> Prop) `{!PreOrder R}
    now s id act depth l :
  (forall s f g h ob, R s (s <| inDegrees ::= f |> <| activeIns ::= g |>
                             <| scheduled ::= h |> <| outbox := ob |>)) ->
  R s (applyArrivalsLocked now s id act depth l).1.
Proof.
  intros HR. unfold applyArrivalsLocked.
  generalize (([] : list string), ([] : list SkippedUnit)) as r.
  revert s. induction l as [|a l IH]; intros s r; [reflexivity|]. cbn [foldl].
  assert (Ha : R s (applyArrival now id act depth (s, r) a).1).
  { destruct (Z.le_gt_cases (da_ArrivalCount a) 0); [by rewrite applyArrival_none|].
    destruct (applyArrival_shape now id act depth s r a) as (ob & -> & _); [lia|]. apply HR. }
  destruct (applyArrival now id act depth (s, r) a) as [s1 r1]. etrans; [exact Ha|apply IH].
Qed.

Lemma applyArrivals_node_frame now s id act depth l :
  node_frame s (applyArrivalsLocked now s id act depth l).1.
Proof. by apply applyArrivals_rel; [apply _|]. Qed.

Lemma commitCount_node_frame now s req entry : node_frame s (commitCount now s req entry).1.
Proof.
  unfold commitCount. destruct (req_AllowCycles req); [done|]. cbn zeta.
  set (s1 := if decide (req_Status req = NodeStatusFailed) then _ else _).
  assert (H1 : node_frame s s1) by (unfold s1; by case_decide).
  destruct (_ || _); [|exact H1]. cbn [fst]. etrans; [exact H1|apply finish_node_frame].
Qed.

(** Scheduling after a commit is a sequence of intents, arrivals and at most one
    end of the execution: what those steps do, the whole does. *)
Section schedule.
Context (F R : memoryState -> memoryState -> Prop) `{!PreOrder F, !PreOrder R} (now : Time).
Context (req : CommitNodeRequest) (entry : execEntry).
Hypothesis F_put : forall s id o, F s (putOutboxEntryLocked now s id o).1.
Hypothesis F_arrivals : forall s id act depth l, F s (applyArrivalsLocked now s id act depth l).1.
Hypothesis F_R : forall s s', F s s' -> R s s'.

Lemma putOptional_rel s id oid task : F s (putOptional now s id oid task).1.
Proof.
  unfold putOptional. destruct task as [t|]; [|reflexivity]. unfold putOutboxLocked.
  pose proof (F_put s id (newOutboxEntry oid t zeroTime)) as H.
  by destruct (putOutboxEntryLocked _ _ _ _).
Qed.

Lemma putCyclic_rel id acc l : F acc.1 (foldl (putCyclic now id) acc l).1.
Proof.
  revert acc. induction l as [|o l IH]; intros [s ids]; [reflexivity|]. cbn [foldl].
  etrans; [|apply IH]. unfold putCyclic. pose proof (F_put s id o) as H.
  by destruct (putOutboxEntryLocked _ _ _ _).
Qed.

Lemma commitSchedule_rel s final :
  (final = None -> req_CyclicComplete req = true -> forall s1 msg, F s s1 ->
     R s1 (finishExecutionLocked now s1 (req_ExecutionID req) entry
             (req_CyclicFinalStatus req) msg)) ->
  R s (commitSchedule now s req entry final).1.
Proof.
  intros Hfin. unfold commitSchedule. cbn zeta.
  match goal with |- context [putOptional now s ?id ?o ?t] =>
    pose proof (putOptional_rel s id o t) as H1;
    destruct (putOptional now s id o t) as [s1 ids1] end.
  match goal with |- context [putOptional now s1 ?id ?o ?t] =>
    pose proof (putOptional_rel s1 id o t) as H2;
    destruct (putOptional now s1 id o t) as [s2 ids2] end.
  match goal with |- context [let '(s, skipped) := ?x in _] =>
    assert (H3 : F s x.1); [|destruct x as [s3 sk]] end.
  { etrans; [exact H1|]. etrans; [exact H2|].
    destruct (negb (req_AllowCycles req) && _ && _); [|reflexivity].
    pose proof (F_arrivals s2 (req_ExecutionID req) (req_ActivationID req)
      (req_AutoDepth req) (req_Arrivals req)) as H3.
    by destruct (applyArrivalsLocked now s2 _ _ _ _) as [s3 [ids3 sk3]]. }
  cbn [fst] in *. destruct (req_AllowCycles req && _) eqn:El; [|by apply F_R].
  destruct (nonEmpty (req_CyclicOutbox req)).
  - match goal with |- context [foldl (putCyclic now ?i) ?acc ?l] =>
      pose proof (putCyclic_rel i acc l) as H5;
      destruct (foldl (putCyclic now i) acc l) as [s5 ids5] end.
    cbn [fst] in *. apply F_R. by etrans.
  - destruct (req_CyclicComplete req) eqn:Ec; cbn [fst]; [|by apply F_R].
    etrans; [by apply F_R|]. apply Hfin; [|done..].
    by destruct (req_AllowCycles req), (req_Fatal req), final.
Qed.
End schedule.

Lemma commitSchedule_node_frame now s req entry final :
  node_frame s (commitSchedule now s req entry final).1.
Proof.
  apply (commitSchedule_rel node_frame node_frame); eauto using put_node_frame,
    applyArrivals_node_frame, finish_node_frame with typeclass_instances.
Qed.

(** ** What an accepted commit leaves behind *)

Lemma preserve_other s key req k :
  k <> key -> nodes (preserveOutputPrivacyLocked s key req).1 !! k = nodes s !! k.
Proof.
  intros Hk. unfold preserveOutputPrivacyLocked.
  destruct (req || outputIsPrivateLocked s key); [|done]. simpl.
  destruct (nodes s !! key) as [n|]; [|done].
  destruct (negb (ns_PrivateOutput n) || _); [|done]. simpl. by rewrite lookup_insert_ne.
Qed.

Lemma preserve_flag s key req :
  (preserveOutputPrivacyLocked s key req).2 = req || outputIsPrivateLocked s key.
Proof.
  unfold preserveOutputPrivacyLocked. destruct (req || outputIsPrivateLocked s key); [|done].
  by repeat case_match.
Qed.

Lemma commitWrite_nodes now s req current k :
  let key := memoryNodeKey (req_ExecutionID req) (req_NodeName req) in
  nodes (commitWriteNode now s req current) !! k
  = if decide (k = key)
    then Some (committedNode now req current (req_PrivateOutput req || outputIsPrivateLocked s key))
    else nodes s !! k.
Proof.
  intros key. unfold commitWriteNode. fold key.
  pose proof (preserve_other s key (req_PrivateOutput req) k) as Ho.
  pose proof (preserve_flag s key (req_PrivateOutput req)) as Hf.
  destruct (preserveOutputPrivacyLocked s key _) as [s1 p]. cbn [fst snd] in *. subst p.
  destruct (req_System req && _), (req_StoreOutput req); simpl;
    (case_decide as E; [subst; by rewrite lookup_insert_eq|rewrite lookup_insert_ne; auto]).
Qed.

(** The node records after an accepted commit. *)
Lemma commit_accepted_nodes now s req k :
  let key := memoryNodeKey (req_ExecutionID req) (req_NodeName req) in
  res_Outcome (commitNodeLocked now s req).2 = CommitOutcomeAccepted ->
  nodes (commitNodeLocked now s req).1 !! k
  = if decide (k = key)
    then Some (committedNode now req (nodes s !! key)
                 (req_PrivateOutput req || outputIsPrivateLocked s key))
    else nodes s !! k.
Proof.
  intros key H. apply commit_accepted_inv in H as (entry & _ & _ & _ & _ & ->). cbn zeta.
  etrans; [|apply commitWrite_nodes]. fold key. set (s1 := commitWriteNode now s req _).
  pose proof (commitCount_node_frame now s1 req entry) as [H1 _].
  destruct (commitCount now s1 req entry) as [s2 final]. cbn [fst] in H1.
  pose proof (commitSchedule_node_frame now s2 req entry final) as [H2 _].
  by rewrite H2, H1.
Qed.

Lemma commit_keeps_terminal now s req k n :
  nodes s !! k = Some n -> isTerminalNode (ns_Status n) = true ->
  nodes (commitNodeLocked now s req).1 !! k = Some n.
Proof.
  intros Hn Ht.
  destruct (decide (res_Outcome (commitNodeLocked now s req).2 = CommitOutcomeAccepted))
    as [Ha|Ha]; [|by rewrite commit_refused_same].
  rewrite commit_accepted_nodes by done. case_decide as E; [|done].
  apply commit_accepted_inv in Ha as (entry & _ & _ & Hnt & _). subst k.
  specialize (Hnt n Hn). congruence.
Qed.

(** ** A run of commits *)

(** Runners, retries and system commits, in the order the store's lock admits
    them. *)
Definition commitAll (s : memoryState) (l : list (Time * CommitNodeRequest)) : memoryState :=
  foldl (fun s r => (CommitNode r.1 s r.2).1) s l.

Lemma CommitNode_state now s req :
  (CommitNode now s req).1 = s \/ (CommitNode now s req).1 = (commitNodeLocked now s req).1.
Proof.
  unfold CommitNode. destruct (Validate req); [by left|right].
  by destruct (commitNodeLocked now s req).
Qed.

Lemma commitAll_terminal s l k n :
  nodes s !! k = Some n -> isTerminalNode (ns_Status n) = true ->
  nodes (commitAll s l) !! k = Some n.
Proof.
  revert s. induction l as [|[now req] l IH]; intros s Hn Ht; [done|]. simpl. apply IH; [|done].
  destruct (CommitNode_state now s req) as [-> | ->]; [done|by apply commit_keeps_terminal].
Qed.

(** No execution disappears. *)
Definition exec_kept (s s' : memoryState) : Prop :=
  forall x, is_Some (executions s !! x) -> is_Some (executions s' !! x).

#[export] Instance exec_kept_preorder : PreOrder exec_kept.
Proof. split; [by intros s x|]. intros s1 s2 s3 H1 H2 x H. by apply H2, H1. Qed.

Lemma frame_kept s s' : life_frame s s' -> exec_kept s s'.
Proof. intros [E _] x. by rewrite E. Qed.

Lemma finish_kept now s id e st errMsg : exec_kept s (finishExecutionLocked now s id e st errMsg).
Proof.
  intros x Hx. unfold finishExecutionLocked. destruct (IsTerminalExecutionStatus _); [done|].
  match goal with |- context [releaseWorkflowSlotLocked now ?s1 id] =>
    assert (Hr : is_Some (executions (releaseWorkflowSlotLocked now s1 id) !! x));
    [destruct (release_started now s1 id x) as [-> |(e1 & _ & _ & ->)]; [|done];
     rewrite (frame_executions _ _ (withdraw_frame _ _ _)); cbn
    |generalize dependent (releaseWorkflowSlotLocked now s1 id)] end.
  - destruct (decide (x = id)) as [->|]; [by rewrite lookup_insert_eq|by rewrite lookup_insert_ne].
  - intros s2 Hr. unfold markClosed. cbn. destruct (decide (x = id)) as [->|].
    + rewrite lookup_alter_eq. by apply fmap_is_Some.
    + by rewrite lookup_alter_ne.
Qed.

Lemma applyArrivals_frame now s id act depth l :
  life_frame s (applyArrivalsLocked now s id act depth l).1.
Proof. by apply applyArrivals_rel; [apply _|]. Qed.

Lemma commitWrite_frame now s req current : life_frame s (commitWriteNode now s req current).
Proof.
  unfold commitWriteNode. set (key := memoryNodeKey _ _).
  pose proof (preserve_frame s key (req_PrivateOutput req)) as H.
  destruct (preserveOutputPrivacyLocked s key _) as [s1 p]. cbn [fst] in H.
  by destruct (req_System req && _), (req_StoreOutput req).
Qed.

(** A commit is a sequence of quiet steps [F] that ends, at most, with the end of
    its own execution: what those do, the whole does. *)
Lemma commit_rel_steps (F R : memoryState -> memoryState -> Prop) `{!PreOrder F, !PreOrder R}
    now s req :
  (forall s1 s2, F s1 s2 -> R s1 s2) -> (forall s1 s2, F s1 s2 -> executions s2 = executions s1) ->
  (forall s1 current, F s1 (commitWriteNode now s1 req current)) ->
  (forall s1 f, F s1 (s1 <| remaining ::= f |>)) -> (forall s1 f, F s1 (s1 <| failed ::= f |>)) ->
  (forall s1 id o, F s1 (putOutboxEntryLocked now s1 id o).1) ->
  (forall s1 id act depth l, F s1 (applyArrivalsLocked now s1 id act depth l).1) ->
  (forall s1 e st msg, executions s1 !! req_ExecutionID req = Some e ->
     IsTerminalExecutionStatus st = true \/
       req_CyclicComplete req = true /\ st = req_CyclicFinalStatus req ->
     R s1 (finishExecutionLocked now s1 (req_ExecutionID req) e st msg)) ->
  R s (commitNodeLocked now s req).1.
Proof.
  intros HF HE Hw Hrem Hfail Hput Harr Hfin.
  destruct (decide (res_Outcome (commitNodeLocked now s req).2 = CommitOutcomeAccepted))
    as [Ha|Ha]; [|by rewrite commit_refused_same].
  apply commit_accepted_inv in Ha as (entry & He & _ & _ & _ & ->). cbn zeta.
  match goal with |- context [commitWriteNode now s req ?c] =>
    pose proof (Hw s c) as H1; set (s1 := commitWriteNode now s req c) in * end.
  etrans; [apply HF, H1|].
  assert (Hc : let r := commitCount now s1 req entry in R s1 r.1 /\ (r.2 = None -> F s1 r.1)).
  { unfold commitCount. destruct (req_AllowCycles req); [by split|]. cbn zeta.
    set (s2 := if decide (req_Status req = NodeStatusFailed) then _ else _).
    assert (H2 : F s1 s2) by (unfold s2; case_decide; [etrans; [apply Hrem|apply Hfail]|apply Hrem]).
    destruct (_ || (_ =? 0)); [|by split; [apply HF|]]. cbn [fst snd]. split; [|done].
    etrans; [apply HF, H2|]. apply Hfin; [by rewrite (HE _ _ H2), (HE _ _ H1)|].
    left. by destruct (_ || _). }
  destruct (commitCount now s1 req entry) as [s2 final]. cbn [fst snd] in Hc.
  destruct Hc as [Hc1 Hc2]. etrans; [exact Hc1|].
  apply (commitSchedule_rel F R); auto.
  intros Hn Hcc s3 msg H3. apply Hfin; [|by right]. by rewrite (HE _ _ H3), (HE _ _ (Hc2 Hn)), (HE _ _ H1).
Qed.

(** A commit changes the executions only by ending its own. *)
Lemma commit_rel (R : memoryState -> memoryState -> Prop) `{!PreOrder R} now s req :
  (forall s1 s2, life_frame s1 s2 -> R s1 s2) ->
  (forall s1 e st msg, executions s1 !! req_ExecutionID req = Some e ->
     IsTerminalExecutionStatus st = true \/
       req_CyclicComplete req = true /\ st = req_CyclicFinalStatus req ->
     R s1 (finishExecutionLocked now s1 (req_ExecutionID req) e st msg)) ->
  R s (commitNodeLocked now s req).1.
Proof.
  intros HF. apply (commit_rel_steps life_frame R); auto using commitWrite_frame,
    putOutboxEntry_frame, applyArrivals_frame, frame_executions with typeclass_instances; done.
Qed.

Lemma commit_kept now s req : exec_kept s (commitNodeLocked now s req).1.
Proof. apply commit_rel; eauto using frame_kept, finish_kept with typeclass_instances. Qed.

Lemma commitAll_kept s l : exec_kept s (commitAll s l).
Proof.
  revert s. induction l as [|[now req] l IH]; intros s; [reflexivity|]. cbn.
  etrans; [|apply IH]. destruct (CommitNode_state now s req) as [-> | ->];
    [reflexivity|apply commit_kept].
Qed.

Lemma commit_life_inv now s req :
  (req_CyclicComplete req = true -> IsTerminalExecutionStatus (req_CyclicFinalStatus req) = true) ->
  life_inv s -> life_inv (commitNodeLocked now s req).1.
Proof.
  intros Hc.
  apply (commit_rel (keeps life_inv)).
  - intros s1 s2. exact (life_inv_frame s1 s2).
  - intros s1 e st msg _ Hst Hs1. apply finish_life_inv; [done|].
    destruct Hst as [? |[? ->]]; auto.
Qed.

(** ** Main results *)

(** The request is the same decision delivered again. *)
Definition sameDecision (req req' : CommitNodeRequest) : bool :=
  (req_ActivationID req =? req_ActivationID req') &&
  (negb (req_System req') && bool_decide (req_LeaseToken req = req_LeaseToken req') &&
     bool_decide (req_LeaseToken req' <> "") ||
   req_System req' && bool_decide (req_Status req = req_Status req')).

Lemma committed_fields now req current p :
  let n := committedNode now req current p in
  ns_Status n = req_Status req /\ ns_ActivationID n = req_ActivationID req /\
  ns_CommittedLeaseToken n = req_LeaseToken req /\ ns_LeaseToken n = "" /\ ns_LeaseID n = "".
Proof.
  unfold committedNode. destruct p, current, (req_System req), (IsTerminalNodeStatus _);
    simpl; by repeat case_match.
Qed.


(** A worker's request for the lease of [demoLease]. *)
Definition demoLeased : memoryState := (acquireTaskLeaseLocked demoOutbox demoLease).1.1.
Definition demoCommit : CommitNodeRequest :=
  zeroCommitNodeRequest <| req_ExecutionID := "e1" |> <| req_NodeName := "a" |>
    <| req_LeaseID := "l1" |> <| req_LeaseToken := "tok" |> <| req_Attempt := 1 |>
    <| req_Status := NodeStatusSuccess |>.


Lemma worker_admits s req n :
  req_System req = false ->
  commitAdmits s req (Some n)
  = leasedStatus (ns_Status n) && bool_decide (ns_LeaseID n = req_LeaseID req) &&
    bool_decide (ns_LeaseToken n = req_LeaseToken req) &&
    (ns_Attempt n =? req_Attempt req) && (ns_ActivationID n =? req_ActivationID req).
Proof. unfold commitAdmits. by intros ->. Qed.

Lemma leased_not_terminal st : leasedStatus st = true -> isTerminalNode st = false.
Proof. by destruct st. Qed.

Lemma commit_accepts now s req e n :
  executions s !! req_ExecutionID req = Some e -> ended e = false ->
  nodes s !! memoryNodeKey (req_ExecutionID req) (req_NodeName req) = Some n ->
  isTerminalNode (ns_Status n) = false -> commitAdmits s req (Some n) = true ->
  res_Outcome (commitNodeLocked now s req).2 = CommitOutcomeAccepted.
Proof.
  intros He Hd Hn Ht Ha. unfold commitNodeLocked. rewrite He, Hn, Ht. fold (ended e).
  rewrite Hd, Ha. simpl. destruct (commitCount _ _ _ _). apply commitSchedule_applied.
Qed.

(** C22. Only the holder of the lease commits.  A worker's commit is applied exactly
    when its execution is live and the node is leased under the very lease id,
    token, attempt and activation it presents; any other worker commit, and any
    request that fails validation, leaves the whole store as it was. *)
Theorem worker_commit_applied_iff now s req :
  req_System req = false ->
  let key := memoryNodeKey (req_ExecutionID req) (req_NodeName req) in
  let applied := match (CommitNode now s req).2 with
                 | inr r => res_Applied r
                 | inl _ => false
                 end in
  (applied = true <->
   Validate req = None /\
   exists e n, executions s !! req_ExecutionID req = Some e /\ ended e = false /\
     nodes s !! key = Some n /\ leasedStatus (ns_Status n) = true /\
     ns_LeaseID n = req_LeaseID req /\ ns_LeaseToken n = req_LeaseToken req /\
     ns_Attempt n = req_Attempt req /\ ns_ActivationID n = req_ActivationID req) /\
  (applied = false -> (CommitNode now s req).1 = s).
Proof.
  intros Hsys key applied. subst applied. unfold CommitNode.
  destruct (Validate req) as [err|] eqn:Hv; [by split; [split; [|intros [? _]]|]|].
  pose proof (commit_refused_same now s req) as Hsame.
  pose proof (commit_applied_accepted now s req) as Hacc.
  pose proof (commit_accepted_inv now s req) as Hinv.
  pose proof (commit_accepts now s req) as Hok. fold key in Hok, Hinv.
  assert (Hap : res_Outcome (commitNodeLocked now s req).2 = CommitOutcomeAccepted ->
    res_Applied (commitNodeLocked now s req).2 = true).
  { intros H. apply Hinv in H as (entry & _ & _ & _ & _ & ->). cbn zeta.
    destruct (commitCount _ _ _ _). apply commitSchedule_applied. }
  destruct (commitNodeLocked now s req) as [s' r]. cbn [fst snd] in *. split; [split|].
  - intros H. apply Hacc, Hinv in H as (e & He & Hd & _ & Ha & _). split; [done|].
    destruct (nodes s !! key) as [n|] eqn:Hn; [|by unfold commitAdmits in Ha; rewrite Hsys in Ha].
    rewrite worker_admits in Ha by done. exists e, n. repeat case_bool_decide; try done;
      rewrite ?andb_false_r in Ha; try done.
    rewrite !andb_true_r in Ha. apply andb_true_iff in Ha as [Ha ?%Z.eqb_eq].
    by apply andb_true_iff in Ha as [? ?%Z.eqb_eq].
  - intros (_ & e & n & He & Hd & Hn & Hl & E1 & E2 & E3 & E4).
    apply Hap, (Hok e n); auto using leased_not_terminal.
    rewrite worker_admits by done. by rewrite Hl, E1, E2, E3, E4, !bool_decide_eq_true_2, !Z.eqb_refl.
  - intros H. apply Hsame. intros Hf. rewrite Hap in H; done.
Qed.

Lemma worker_commit_applied_iff_witness :
  (CommitNode 30 demoLeased (demoCommit <| req_LeaseToken := "old" |>)).1 = demoLeased.
Proof.
  apply (worker_commit_applied_iff 30 demoLeased (demoCommit <| req_LeaseToken := "old" |>));
    by vm_compute.
Defined.

(** Everything that can happen to a node after its lease was taken away. *)
Inductive rerun_step (token key : string) : memoryState -> memoryState -> Prop :=
| rr_lease s s' : reissue_step token key s s' -> rerun_step token key s s'
| rr_commit s now req : rerun_step token key s (CommitNode now s req).1
| rr_advance s now req : rerun_step token key s (AdvanceNode now s req).1.

Lemma advance_node_frame now s req : node_frame s (AdvanceNode now s req).1.
Proof.
  unfold AdvanceNode. destruct (executions s !! _) as [e|]; [|done].
  destruct (IsTerminalExecutionStatus _); [done|].
  destruct (nodes s !! _) as [n|]; [|done].
  destruct (negb (isTerminalNode _) || _); [done|]. destruct (decide _); [done|].
  match goal with |- context [applyArrivalsLocked now ?s1 ?id ?a ?d ?l] =>
    pose proof (applyArrivals_node_frame now s1 id a d l) as H;
    destruct (applyArrivalsLocked now s1 id a d l) as [s2 [ids sk]] end.
  cbn [fst] in *. etrans; [|exact H]. done.
Qed.

Lemma node_frame_absent token s s' key :
  node_frame s s' -> tokenAbsent token s key -> tokenAbsent token s' key.
Proof. intros [E _] H c. unfold coreAt. rewrite E. apply H. Qed.

Lemma commit_absent token key now s req :
  token <> "" -> tokenAbsent token s key -> tokenAbsent token (CommitNode now s req).1 key.
Proof.
  intros Hne H. destruct (CommitNode_state now s req) as [-> | ->]; [done|].
  destruct (decide (res_Outcome (commitNodeLocked now s req).2 = CommitOutcomeAccepted))
    as [Ha|Ha]; [|by rewrite commit_refused_same].
  intros c. unfold coreAt. rewrite commit_accepted_nodes by done. case_decide; [|apply H].
  intros [= <-]. simpl. match goal with |- ns_LeaseToken (committedNode ?a ?b ?c ?d) <> _ =>
    destruct (committed_fields a b c d) as (_ & _ & _ & -> & _) end. done.
Qed.

Lemma rerun_steps_absent token key s s' :
  token <> "" -> rtc (rerun_step token key) s s' -> tokenAbsent token s key ->
  tokenAbsent token s' key.
Proof.
  intros Hne. induction 1 as [|s s' s'' Hstep _ IH]; [done|]. intros H. apply IH.
  destruct Hstep; eauto using reissue_step_absent, commit_absent, node_frame_absent,
    advance_node_frame.
Qed.



(** ** Counting an execution down *)

(** The completion counters and the executions are left alone. *)
Definition count_frame (s s' : memoryState) : Prop :=
  remaining s' = remaining s /\ failed s' = failed s /\ executions s' = executions s.

#[export] Instance count_frame_preorder : PreOrder count_frame.
Proof.
  split; [done|]. intros s1 s2 s3 (E1 & E2 & E3) (F1 & F2 & F3).
  unfold count_frame. by rewrite F1, F2, F3.
Qed.

Lemma put_count_frame now s id o : count_frame s (putOutboxEntryLocked now s id o).1.
Proof. by destruct (putOutbox_only now s id o) as (ob & ->). Qed.

Lemma applyArrivals_count_frame now s id act depth l :
  count_frame s (applyArrivalsLocked now s id act depth l).1.
Proof. by apply applyArrivals_rel; [apply _|]. Qed.

Lemma finish_counters now s id e st errMsg :
  let s' := finishExecutionLocked now s id e st errMsg in
  remaining s' = remaining s /\ failed s' = failed s.
Proof.
  destruct (finish_shape now s id e st errMsg)
    as (s1 & dl & (ex & ob & ws & sh & q & ->) & ->). done.
Qed.

(** The row of an execution that was just finished. *)
Lemma finish_row now s id e st errMsg :
  executions s !! id = Some e -> ended e = false -> IsTerminalExecutionStatus st = true ->
  exists e', executions (finishExecutionLocked now s id e st errMsg) !! id = Some e' /\
    status e' = st /\ closed e' = true.
Proof.
  intros He Hd Ht. unfold finishExecutionLocked. fold (ended e). rewrite Hd.
  match goal with |- context [releaseWorkflowSlotLocked now ?s1 id] =>
    pose proof (release_started now s1 id id) as Hr; set (s2 := s1) in * end.
  assert (E : exists e1, executions s2 !! id = Some e1 /\ status e1 = st).
  { unfold s2. rewrite (frame_executions _ _ (withdraw_frame _ _ _)). cbn.
    rewrite lookup_insert_eq. eexists. split; [done|]. by case_decide. }
  destruct E as (e1 & E1 & Es). unfold markClosed. cbn. rewrite lookup_alter_eq.
  destruct Hr as [-> |(e2 & E2 & Hq & _)]; [rewrite E1; by eexists|].
  exfalso. rewrite E1 in E2. simplify_eq. by rewrite Hq in Ht.
Qed.

(** Nothing is scheduled by a commit that finished the execution. *)
Lemma commitSchedule_final now s req entry st :
  req_AllowCycles req = false ->
  commitSchedule now s req entry (Some st)
  = (s, mkCommitNodeResult CommitOutcomeAccepted true true st [] []).
Proof.
  intros Hac. unfold commitSchedule. rewrite Hac. cbn [isSome negb andb].
  by rewrite !andb_false_r.
Qed.

Lemma commitSchedule_open now s req entry :
  Validate req = None -> req_AllowCycles req = false ->
  count_frame s (commitSchedule now s req entry None).1 /\
  res_ExecutionDone (commitSchedule now s req entry None).2 = false.
Proof.
  intros Hv Hac. split.
  - apply (commitSchedule_rel count_frame count_frame);
      eauto using put_count_frame, applyArrivals_count_frame with typeclass_instances.
    intros _ Hcc. unfold Validate in Hv. rewrite Hac, Hcc in Hv. by repeat case_match.
  - unfold commitSchedule. rewrite Hac. cbn [andb isSome].
    by repeat (case_match; cbn [snd]; simplify_eq).
Qed.

Lemma commitWrite_counters now s req current :
  let w := commitWriteNode now s req current in
  remaining w = remaining s /\ failed w = failed s /\ advanced w = advanced s.
Proof.
  unfold commitWriteNode, preserveOutputPrivacyLocked. cbn zeta.
  by repeat (case_match; simplify_eq/=).
Qed.

(** What counting does to an acyclic execution, before anything is scheduled. *)
Lemma commitCount_spec now w req e :
  req_AllowCycles req = false ->
  let id := req_ExecutionID req in
  let left := counter (remaining w) id - 1 in
  let bad := counter (failed w) id + (if decide (req_Status req = NodeStatusFailed) then 1 else 0) in
  let st := if req_Fatal req || (0 <? bad) then ExecutionStatusFailed else ExecutionStatusSuccess in
  exists sc, life_frame w sc /\ (nodes sc = nodes w /\ advanced sc = advanced w) /\
    counter (remaining sc) id = left /\ counter (failed sc) id = bad /\
    commitCount now w req e
    = if req_Fatal req || (left =? 0)
      then (finishExecutionLocked now sc id e st (TerminalExecutionError st (req_Error req) ""),
            Some st)
      else (sc, None).
Proof.
  intros Hac. unfold commitCount. rewrite Hac. cbn zeta.
  set (id := req_ExecutionID req).
  set (w1 := if decide (req_Status req = NodeStatusFailed) then (_ : memoryState) else _).
  assert (Hw : life_frame w w1 /\ (nodes w1 = nodes w /\ advanced w1 = advanced w) /\
    counter (remaining w1) id = counter (remaining w) id - 1 /\
    counter (failed w1) id
    = counter (failed w) id + (if decide (req_Status req = NodeStatusFailed) then 1 else 0)).
  { unfold w1. destruct (decide (req_Status req = NodeStatusFailed)); cbn;
      rewrite ?counter_insert, ?decide_True by done; split_and!; try done; lia. }
  destruct Hw as (Hw & [? ?] & Hr & Hf). exists w1. rewrite Hr, Hf. by split_and!.
Qed.

(** The accepted branch of the completion law. *)
Lemma commit_counts now s req :
  life_inv s -> req_AllowCycles req = false -> Validate req = None ->
  res_Outcome (commitNodeLocked now s req).2 = CommitOutcomeAccepted ->
  let id := req_ExecutionID req in
  let s' := (commitNodeLocked now s req).1 in
  let r := (commitNodeLocked now s req).2 in
  let left := counter (remaining s) id - 1 in
  let bad := counter (failed s) id + (if decide (req_Status req = NodeStatusFailed) then 1 else 0) in
  let st := if req_Fatal req || (0 <? bad) then ExecutionStatusFailed else ExecutionStatusSuccess in
  counter (remaining s') id = left /\ counter (failed s') id = bad /\
  res_ExecutionDone r = req_Fatal req || (left =? 0) /\
  if res_ExecutionDone r
  then res_ExecutionStatus r = st /\ ~ in_slots s' id /\
       exists e, executions s' !! id = Some e /\ status e = st /\ closed e = true
  else executions s' !! id = executions s !! id.
Proof.
  intros Hlife Hac Hv Ha id s' r left bad st. subst s' r.
  assert (Hlife' : life_inv (commitNodeLocked now s req).1).
  { apply commit_life_inv; [|done]. intros Hcc. unfold Validate in Hv.
    rewrite Hac, Hcc in Hv. by repeat case_match. }
  apply commit_accepted_inv in Ha as (e & He & Hd & _ & _ & Ec). rewrite Ec in Hlife' |- *.
  clear Ec. cbn zeta in Hlife' |- *. fold id in Hlife' |- *. set (w := commitWriteNode now s req _) in *.
  pose proof (commitWrite_frame now s req (nodes s !! memoryNodeKey id (req_NodeName req))) as Hw.
  fold w in Hw. destruct (commitWrite_counters now s req
    (nodes s !! memoryNodeKey id (req_NodeName req))) as (Hwr & Hwf & _). fold w in Hwr, Hwf.
  destruct (commitCount_spec now w req e Hac) as (sc & Hsc & _ & Hr & Hf & Ecc).
  rewrite Hwr in Hr, Ecc. rewrite Hwf in Hf, Ecc. rewrite Ecc in Hlife' |- *.
  fold id left bad in Hr, Hf, Hlife' |- *.
  assert (He' : executions sc !! id = Some e).
  { by rewrite (frame_executions _ _ Hsc), (frame_executions _ _ Hw). }
  destruct (req_Fatal req || (left =? 0)) eqn:Ef.
  - rewrite commitSchedule_final in Hlife' |- * by done. fold st in Hlife' |- *.
    cbn [fst snd res_ExecutionDone] in *.
    destruct (finish_counters now sc id e st (TerminalExecutionError st (req_Error req) ""))
      as [-> ->].
    destruct (finish_row now sc id e st (TerminalExecutionError st (req_Error req) ""))
      as (e' & E' & Hs' & Hcl); [done|done|unfold st; by destruct (_ || _)|].
    split_and!; [done..| |by exists e'].
    intros Hin. apply (li_active _ Hlife') in Hin as (e2 & E2 & Hd2).
    assert (e2 = e') as -> by congruence. unfold ended in Hd2. rewrite Hs' in Hd2. unfold st in Hd2.
    by destruct (_ || _).
  - destruct (commitSchedule_open now sc req e Hv Hac) as [(C1 & C2 & C3) Hdone].
    rewrite C1, C2, C3, Hdone. split_and!; try done.
    by rewrite (frame_executions _ _ Hsc), (frame_executions _ _ Hw).
Qed.

(** C9. Completion.  An accepted commit of an acyclic execution counts exactly one
    unit down (and one failure up when the node failed).  It reports the
    execution done exactly when the commit is fatal or no unit is left; then the
    execution is stored as failed if the commit is fatal or any unit failed and
    as successful otherwise, is closed, and holds no concurrency slot nor queue
    place.  Otherwise the execution's record is untouched. *)
Theorem commit_completion now s req s' r :
  life_inv s -> req_AllowCycles req = false ->
  CommitNode now s req = (s', inr r) -> res_Applied r = true ->
  let id := req_ExecutionID req in
  let left := counter (remaining s) id - 1 in
  let bad := counter (failed s) id + (if decide (req_Status req = NodeStatusFailed) then 1 else 0) in
  let st := if req_Fatal req || (0 <? bad) then ExecutionStatusFailed else ExecutionStatusSuccess in
  counter (remaining s') id = left /\ counter (failed s') id = bad /\
  res_ExecutionDone r = req_Fatal req || (left =? 0) /\
  if res_ExecutionDone r
  then res_ExecutionStatus r = st /\ ~ in_slots s' id /\
       exists e, executions s' !! id = Some e /\ status e = st /\ closed e = true
  else executions s' !! id = executions s !! id.
Proof.
  intros Hlife Hac Hc Hap. unfold CommitNode in Hc.
  destruct (Validate req) as [|] eqn:Hv; [done|].
  pose proof (commit_counts now s req Hlife Hac Hv) as H.
  pose proof (commit_applied_accepted now s req) as Ha.
  destruct (commitNodeLocked now s req) as [s1 r1]. simplify_eq. exact (H (Ha Hap)).
Qed.

Definition demoLast : memoryState := demoLeased <| remaining := {["e1" := 1]} |>.

Lemma commit_completion_witness :
  let id := req_ExecutionID demoCommit in
  let r := default (outcomeOnly CommitOutcomeStaleToken)
             (match (CommitNode 30 demoLast demoCommit).2 with inr r => Some r | _ => None end) in
  counter (remaining (CommitNode 30 demoLast demoCommit).1) id
  = counter (remaining demoLast) id - 1 /\ res_ExecutionStatus r = ExecutionStatusSuccess.
Proof.
  pose proof (commit_completion 30 demoLast demoCommit (CommitNode 30 demoLast demoCommit).1
    (mkCommitNodeResult CommitOutcomeAccepted true true ExecutionStatusSuccess [] [])) as H.
  destruct H as (H1 & _); [|by vm_compute..|by split; [|vm_compute]].
  apply (life_inv_frame demoCreated); [by vm_compute|apply demoCreated_inv].
Defined.

(** ** Folded arrivals *)

(** Neither intents nor arrivals look at the advance markers. *)
Lemma put_advanced now s id o m :
  putOutboxEntryLocked now (s <| advanced := m |>) id o
  = ((putOutboxEntryLocked now s id o).1 <| advanced := m |>,
     (putOutboxEntryLocked now s id o).2).
Proof.
  unfold putOutboxEntryLocked. destruct (decide _); [done|]. cbn zeta.
  change (outboxOf (s <| advanced := m |>) id) with (outboxOf s id).
  by destruct (outboxOf s id !! oe_ID o).
Qed.

Lemma applyArrival_advanced now id act depth s r a m :
  applyArrival now id act depth (s <| advanced := m |>, r) a
  = ((applyArrival now id act depth (s, r) a).1 <| advanced := m |>,
     (applyArrival now id act depth (s, r) a).2).
Proof.
  destruct r as [ids sk]. unfold applyArrival.
  destruct (da_ArrivalCount a <=? 0); [done|]. cbn zeta.
  set (s1 := if 0 <? da_ActiveCount a then (_ : memoryState) else _).
  set (s2 := if 0 <? da_ActiveCount a then upd activeIns _ (upd inDegrees _ s) else _).
  assert (E : s1 = s2 <| advanced := m |>) by (unfold s1, s2; by destruct (0 <? _)).
  rewrite E. clearbody s1 s2. clear E s1.
  change (scheduled (s2 <| advanced := m |>)) with (scheduled s2).
  destruct (decide (marker (scheduled s2) _ <> "")); [done|].
  change (inDegrees (s2 <| advanced := m |>)) with (inDegrees s2).
  change (activeIns (s2 <| advanced := m |>)) with (activeIns s2).
  destruct (decide (decideSchedule _ _ _ _ = "")); [done|].
  unfold putOutboxLocked.
  match goal with |- context [putOutboxEntryLocked now (upd scheduled ?f (upd advanced ?g s2)) id ?o] =>
    change (upd scheduled f (upd advanced g s2)) with (upd advanced g (upd scheduled f s2)) end.
  rewrite put_advanced. destruct (putOutboxEntryLocked _ _ _ _) as [s3 w]. cbn [fst snd].
  by destruct w.
Qed.

Lemma applyArrivals_advanced now s id act depth l m :
  applyArrivalsLocked now (s <| advanced := m |>) id act depth l
  = ((applyArrivalsLocked now s id act depth l).1 <| advanced := m |>,
     (applyArrivalsLocked now s id act depth l).2).
Proof.
  unfold applyArrivalsLocked. generalize (([] : list string), ([] : list SkippedUnit)) as r.
  revert s. induction l as [|a l IH]; intros s r; [done|]. cbn [foldl].
  rewrite applyArrival_advanced. destruct (applyArrival now id act depth (s, r) a) as [s1 r1].
  apply IH.
Qed.

(** What is left to schedule of a live commit that carries arrivals only. *)
Lemma commitSchedule_arrivals now s req e :
  req_AllowCycles req = false -> req_Fatal req = false -> req_AdvanceTask req = None ->
  isCanceling s (req_ExecutionID req) = false ->
  let id := req_ExecutionID req in
  (commitSchedule now s req e None).1
  = (applyArrivalsLocked now
       (putOptional now s id (mergeCancelOutboxID id (req_NodeName req) (req_ActivationID req))
          (req_MergeCancel req)).1
       id (req_ActivationID req) (req_AutoDepth req) (req_Arrivals req)).1.
Proof.
  intros Hac Hf Had Hcan id. unfold commitSchedule. fold id in Hcan |- *.
  rewrite Hac, Hf, Had, Hcan. cbn [isSome negb andb putOptional].
  destruct (putOptional _ _ _ _ _) as [s1 ids1].
  by destruct (applyArrivalsLocked _ _ _ _ _ _) as [s2 [ids sk]].
Qed.

(** A commit that leaves its execution open is its own part, the same whatever
    the arrivals, followed by the arrivals. *)
Lemma open_commit now s req s' r :
  let id := req_ExecutionID req in
  CommitNode now s req = (s', inr r) -> res_Applied r = true -> res_ExecutionDone r = false ->
  req_AllowCycles req = false -> req_AdvanceTask req = None -> req_MergeCancel req = None ->
  isCanceling s id = false ->
  exists sc e n, executions sc !! id = Some e /\ ended e = false /\
    nodes sc !! memoryNodeKey id (req_NodeName req) = Some n /\
    ns_Status n = req_Status req /\ ns_ActivationID n = req_ActivationID req /\
    advanced sc = advanced s /\
    forall l, (CommitNode now s (req <| req_Arrivals := l |>)).1
      = (applyArrivalsLocked now sc id (req_ActivationID req) (req_AutoDepth req) l).1.
Proof.
  intros id Hc Hap Hdone Hac Had Hmc Hcan. unfold CommitNode in Hc.
  destruct (Validate req) eqn:Hv; [done|].
  pose proof (commit_applied_accepted now s req) as Ha.
  destruct (commitNodeLocked now s req) as [s1 r1] eqn:E. cbn [fst snd] in *. simplify_eq.
  specialize (Ha Hap). assert (Ha' : res_Outcome (commitNodeLocked now s req).2
    = CommitOutcomeAccepted) by (by rewrite E).
  apply commit_accepted_inv in Ha' as (e & He & Hd & Hnt & Hadm & Ec). rewrite E in Ec.
  revert Ec. cbn zeta. fold id in He |- *. fold id in Hnt, Hadm.
  set (current := nodes s !! memoryNodeKey id (req_NodeName req)) in *.
  pose proof (commitWrite_frame now s req current) as Hw.
  destruct (commitWrite_counters now s req current) as (_ & _ & Hwa).
  pose proof (commitWrite_nodes now s req current (memoryNodeKey id (req_NodeName req))) as Hwn.
  cbn zeta in Hwn. rewrite decide_True in Hwn by done.
  destruct (commitCount_spec now (commitWriteNode now s req current) req e Hac)
    as (sc & Hsc & [Hna Haa] & _ & _ & Hcount).
  rewrite Hcount. destruct (req_Fatal req) eqn:Hf; cbn [orb] in Hcount |- *.
  { rewrite commitSchedule_final by done. intros [= -> ->]. done. }
  destruct (_ =? 0) eqn:Hz; cbn [andb] in *.
  { rewrite commitSchedule_final by done. intros [= -> ->]. done. }
  intros _. assert (Hex : executions sc !! id = Some e).
  { by rewrite (frame_executions _ _ Hsc), (frame_executions _ _ Hw). }
  eexists sc, e, _. rewrite Hna, Hwn, Haa, Hwa. split; [done|]. split; [done|]. split; [done|].
  match goal with |- context [committedNode ?a ?b ?c ?d] =>
    destruct (committed_fields a b c d) as (-> & -> & _) end.
  split_and!; try done. intros l. unfold CommitNode.
  replace (Validate (req <| req_Arrivals := l |>)) with (@None CommitRequestError).
  2: { rewrite <- Hv. unfold Validate. cbn. rewrite Hac, Had, Hf. by rewrite !andb_false_r. }
  assert (Hl : commitNodeLocked now s (req <| req_Arrivals := l |>)
    = commitSchedule now sc (req <| req_Arrivals := l |>) e None).
  { unfold commitNodeLocked. cbn [req_ExecutionID]. change (req_ExecutionID (req <| req_Arrivals := l |>)) with id.
    change (req_NodeName (req <| req_Arrivals := l |>)) with (req_NodeName req).
    rewrite He. fold current. fold (ended e). rewrite Hd.
    change (commitAdmits s (req <| req_Arrivals := l |>) current) with (commitAdmits s req current).
    rewrite Hadm. change (commitWriteNode now s (req <| req_Arrivals := l |>) current)
      with (commitWriteNode now s req current).
    change (commitCount now (commitWriteNode now s req current) (req <| req_Arrivals := l |>) e)
      with (commitCount now (commitWriteNode now s req current) req e). rewrite Hcount.
    destruct current as [n|]; [rewrite (Hnt n eq_refl)|]; done. }
  rewrite Hl. transitivity (commitSchedule now sc (req <| req_Arrivals := l |>) e None).1;
    [by destruct (commitSchedule _ _ _ _ _)|].
  rewrite commitSchedule_arrivals; try done; [cbn; by rewrite Hmc|].
  unfold isCanceling in *. change (req_ExecutionID (req <| req_Arrivals := l |>)) with id.
  by rewrite Hex; rewrite He in Hcan.
Qed.

Lemma advance_open now s req e n :
  let id := adv_ExecutionID req in
  let key := memoryAdvanceKey id (adv_NodeName req) (adv_ActivationID req) in
  executions s !! id = Some e -> ended e = false ->
  nodes s !! memoryNodeKey id (adv_NodeName req) = Some n ->
  isTerminalNode (ns_Status n) = true -> ns_ActivationID n = adv_ActivationID req ->
  (AdvanceNode now s req).1
  = if decide (key ∈ advanced s) then s
    else (applyArrivalsLocked now s id (adv_ActivationID req) (adv_AutoDepth req)
            (adv_Arrivals req)).1 <| advanced := {[key]} ∪ advanced s |>.
Proof.
  intros id key He Hd Hn Ht Hact. unfold AdvanceNode. fold id.
  rewrite He, Hn. fold (ended e). rewrite Hd, Ht, Hact, Z.eqb_refl. cbn [negb orb]. fold key.
  destruct (decide (key ∈ advanced s)); [done|].
  change (s <| advanced ::= fun m => {[key]} ∪ m |>) with (s <| advanced := {[key]} ∪ advanced s |>).
  rewrite applyArrivals_advanced.
  by destruct (applyArrivalsLocked now s id _ _ _) as [s1 [ids sk]].
Qed.

(** Arrivals leave the advance markers where they are. *)
Lemma applyArrivals_keep_advanced now s id act depth l :
  advanced (applyArrivalsLocked now s id act depth l).1 = advanced s.
Proof.
  by apply (applyArrivals_rel (same advanced)).
Qed.


Definition demoFork : CommitNodeRequest :=
  demoCommit <| req_Arrivals := [mkArrival "b" 1 1 1 1 "" TaskTypeNodeExec] |>.

