(* ===== verification/Groups.v ===== *)
(** * Group units

    [src/backend/providers/local/group_state.go]: a co-location group is leased,
    renewed, reclaimed and committed as one unit. *)

From S2P Require Import Prelude Keys Types Graph State Slots Executions Outbox Lease Commit.

(** ** Data *)

Inductive GroupOutcome : Type :=
| GroupOutcomeSuccess
| GroupOutcomeFailed
| GroupOutcomeTimeout
| GroupOutcomeCanceled.

#[export] Instance GroupOutcome_eq_dec : EqDecision GroupOutcome.
Proof. solve_decision. Defined.

Record GroupExitResult : Type := mkGroupExit {
  ge_NodeIdx : Z;
  ge_NodeName : string;
  ge_Port : string;
  ge_Data : Data;
  ge_PrivateOutput : bool
}.

(** The fields of a group lease the store reads. *)
Record GroupLease : Type := mkGroupLease {
  gl_LeaseID : string;
  gl_LeaseToken : string;
  gl_Attempt : Z;
  gl_ExecutionID : string;
  gl_GroupUnitIdx : Z;
  gl_IssuedAt : Time;
  gl_TTL : Duration;
  gl_GroupName : string;
  gl_EntryNodeIdx : Z;
  gl_ActivationID : Z
}.

#[export] Instance Eta_GroupLease : Eta GroupLease := fun r =>
  mkGroupLease (gl_LeaseID r) (gl_LeaseToken r) (gl_Attempt r) (gl_ExecutionID r)
    (gl_GroupUnitIdx r) (gl_IssuedAt r) (gl_TTL r) (gl_GroupName r) (gl_EntryNodeIdx r)
    (gl_ActivationID r).

Record GroupCommitRequest : Type := mkGroupCommit {
  gc_ExecutionID : string;
  gc_GroupUnitIdx : Z;
  gc_LeaseToken : string;
  gc_Attempt : Z;
  gc_Outcome : GroupOutcome;
  gc_Exits : list GroupExitResult;
  gc_Error : string;
  gc_Fatal : bool;
  gc_Downstream : list DownstreamArrival
}.

Record GroupCommitResult : Type := mkGroupResult {
  gr_Outcome : CommitOutcome;
  gr_Applied : bool;
  gr_ExecutionDone : bool;
  gr_ExecutionStatus : ExecutionStatus;
  gr_OutboxIDs : list string;
  gr_Skipped : list SkippedUnit
}.

Definition refusedGroup (o : CommitOutcome) : GroupCommitResult :=
  mkGroupResult o false false ExecutionStatusNone [] [].

Inductive GroupUnitPhase : Type :=
| GroupUnitPhaseUnnamed
| GroupUnitPhasePending
| GroupUnitPhaseRunning
| GroupUnitPhaseDone.

(** ** Leases *)

Definition groupKey (id : string) (unitIdx : Z) : string := id +:+ "/" +:+ itoa unitIdx.

Definition GetGroupUnitPhase (s : memoryState) (id : string) (unitIdx : Z)
    : option GroupUnitPhase :=
  match groupUnits s !! groupKey id unitIdx with
  | None => None
  | Some st =>
      Some match gu_status st with
           | groupUnitPending => GroupUnitPhasePending
           | groupUnitRunning => GroupUnitPhaseRunning
           | groupUnitDone => GroupUnitPhaseDone
           | groupUnitSuspended => GroupUnitPhaseUnnamed
           end
  end.

(** The lease is returned with the attempt the store assigned. *)
Definition AcquireGroupLease (s : memoryState) (lease : GroupLease)
    : memoryState * (GroupLease * bool) :=
  let key := groupKey (gl_ExecutionID lease) (gl_GroupUnitIdx lease) in
  let st := default zeroGroupUnit (groupUnits s !! key) in
  let s := s <| groupUnits ::= <[key := st]> |> in
  match gu_status st with
  | groupUnitRunning | groupUnitDone => (s, (lease, false))
  | _ =>
      let attempt := if gl_Attempt lease <=? gu_attempt st then gu_attempt st + 1
                     else gl_Attempt lease in
      let st := st <| gu_status := groupUnitRunning |> <| gu_leaseID := gl_LeaseID lease |>
        <| gu_leaseToken := gl_LeaseToken lease |> <| gu_attempt := attempt |>
        <| gu_deadline := Add (gl_IssuedAt lease) (gl_TTL lease) |>
        <| gu_execID := gl_ExecutionID lease |> <| gu_unitIdx := gl_GroupUnitIdx lease |>
        <| gu_groupName := gl_GroupName lease |> <| gu_entryNodeIdx := gl_EntryNodeIdx lease |>
        <| gu_activationID := gl_ActivationID lease |>
        <| gu_issuedAt := gl_IssuedAt lease |> <| gu_ttl := gl_TTL lease |> in
      (s <| groupUnits ::= <[key := st]> |>, (lease <| gl_Attempt := attempt |>, true))
  end.

(** The unit, when it runs under the token. *)
Definition runningUnder (s : memoryState) (id : string) (unitIdx : Z) (token : string)
    : option groupUnitState :=
  match groupUnits s !! groupKey id unitIdx with
  | None => None
  | Some st =>
      if bool_decide (gu_status st <> groupUnitRunning) ||
         bool_decide (gu_leaseToken st <> token) then None
      else Some st
  end.

Definition RenewGroupLease (s : memoryState) (id : string) (unitIdx : Z) (token : string)
    (deadline : Time) : memoryState * bool :=
  match runningUnder s id unitIdx token with
  | None => (s, false)
  | Some st =>
      (s <| groupUnits ::= <[groupKey id unitIdx := st <| gu_deadline := deadline |>]> |>, true)
  end.

Definition GetGroupLease (s : memoryState) (id : string) (unitIdx : Z) : option GroupLease :=
  match groupUnits s !! groupKey id unitIdx with
  | None => None
  | Some st =>
      if decide (gu_status st <> groupUnitRunning) then None
      else Some (mkGroupLease (gu_leaseID st) (gu_leaseToken st) (gu_attempt st) id unitIdx
             (gu_issuedAt st) (gu_ttl st) (gu_groupName st) (gu_entryNodeIdx st)
             (gu_activationID st))
  end.

Definition expireGroupLeaseLocked (s : memoryState) (id : string) (unitIdx : Z) (token : string)
    : memoryState * bool :=
  match runningUnder s id unitIdx token with
  | None => (s, false)
  | Some st =>
      (s <| groupUnits ::= <[groupKey id unitIdx :=
             st <| gu_status := groupUnitPending |> <| gu_leaseID := "" |>
                <| gu_leaseToken := "" |> <| gu_deadline := zeroTime |>]> |>, true)
  end.

Definition ExpireGroupLease := expireGroupLeaseLocked.

(** The error is an intent without an id. *)
Definition RevokeGroupLeaseWithOutbox (now : Time) (s : memoryState) (id : string) (unitIdx : Z)
    (token : string) (entry : OutboxEntry) : memoryState * (string + bool) :=
  if decide (token = "") then (s, inr false)
  else if decide (oe_ID entry = "") then (s, inl "requeue outbox has empty ID")
  else
    let '(s, ok) := expireGroupLeaseLocked s id unitIdx token in
    if negb ok then (s, inr false)
    else ((putOutboxLocked now s id (oe_ID entry) (oe_Task entry) (oe_AvailableAt entry)).1,
          inr true).

(** ** The commit *)

Definition applyGroupArrival (now : Time) (id : string)
    (acc : memoryState * (list string * list SkippedUnit)) (arrival : DownstreamArrival)
    : memoryState * (list string * list SkippedUnit) :=
  let '(s, (ids, skipped)) := acc in
  if da_ArrivalCount arrival <=? 0 then acc
  else
    let counterKey := memoryCounterKey id (da_UnitIdx arrival) in
    let previousActive := counter (activeIns s) counterKey in
    let s := s <| inDegrees ::= fun m =>
               <[counterKey := counter m counterKey - da_ArrivalCount arrival]> m |> in
    let s := if 0 <? da_ActiveCount arrival
             then s <| activeIns ::= fun m =>
                    <[counterKey := counter m counterKey + da_ActiveCount arrival]> m |>
             else s in
    if decide (marker (scheduled s) counterKey <> "") then (s, (ids, skipped))
    else
      let schedule :=
        if bool_decide (da_MergeMode arrival = "wait_any") && (0 <? da_ActiveCount arrival) &&
           (previousActive =? 0) then "execute"
        else if counter (inDegrees s) counterKey <=? 0 then
               if 0 <? counter (activeIns s) counterKey then "execute" else "skip"
             else "" in
      if decide (schedule = "") then (s, (ids, skipped))
      else
        let s := s <| scheduled ::= <[counterKey := schedule]> |> in
        let isSkip := bool_decide (schedule = "skip") in
        let outboxID := if isSkip then skipOutboxID id (da_NodeName arrival) 0
                        else executeOutboxID id (da_NodeName arrival) 0 in
        let task := zeroTask <| t_ExecutionID := id |> <| t_NodeName := da_NodeName arrival |>
          <| t_NodeIdx := da_NodeIdx arrival |> <| t_UnitIdx := da_UnitIdx arrival |>
          <| t_Type := if isSkip then TaskTypeNodeSkip else da_ExecTaskType arrival |> in
        let '(s, written) := putOutboxLocked now s id outboxID task zeroTime in
        if written : bool
        then (s, (ids ++ [outboxID],
                  if isSkip then skipped ++ [mkSkippedUnit (da_NodeName arrival) 1]
                  else skipped))
        else (s, (ids, skipped)).

Definition applyGroupDownstreamLocked (now : Time) (s : memoryState) (id : string)
    (arrivals : list DownstreamArrival) : memoryState * (list string * list SkippedUnit) :=
  foldl (applyGroupArrival now id) (s, ([], [])) arrivals.

(** The outputs of the group's exits. *)
Definition storeExit (id : string) (s : memoryState) (ex : GroupExitResult) : memoryState :=
  let key := memoryNodeKey id (ge_NodeName ex) in
  let s := (preserveOutputPrivacyLocked s key (ge_PrivateOutput ex)).1 in
  s <| outputs ::= <[key := cloneData (ge_Data ex)]> |>.

Definition commitGroupLocked (now : Time) (s : memoryState) (req : GroupCommitRequest)
    : memoryState * GroupCommitResult :=
  let id := gc_ExecutionID req in
  let key := groupKey id (gc_GroupUnitIdx req) in
  let fenced :=
    match groupUnits s !! key with
    | Some st =>
        if bool_decide (gu_leaseToken st <> gc_LeaseToken req) ||
           negb (gu_attempt st =? gc_Attempt req) ||
           bool_decide (gu_status st <> groupUnitRunning) then None else Some st
    | None => None
    end in
  match fenced with
  | None =>
      (s, refusedGroup match groupUnits s !! key with
                       | Some st => if decide (gu_status st = groupUnitDone)
                                    then CommitOutcomeDuplicateTerminal
                                    else CommitOutcomeStaleToken
                       | None => CommitOutcomeStaleToken
                       end)
  | Some st =>
      match executions s !! id with
      | None => (s, refusedGroup CommitOutcomeExecutionInactive)
      | Some entry =>
          if IsTerminalExecutionStatus (status entry)
          then (s, refusedGroup CommitOutcomeExecutionInactive)
          else
            let s := foldl (storeExit id) s (gc_Exits req) in
            let st := st <| gu_status := groupUnitDone |>
              <| gu_committedToken := gc_LeaseToken req |>
              <| gu_leaseID := "" |> <| gu_leaseToken := "" |> in
            let s := s <| groupUnits ::= <[key := st]> |> in
            let s := s <| remaining ::= fun m => <[id := counter m id - 1]> m |> in
            let s := if decide (gc_Outcome req = GroupOutcomeFailed)
                     then s <| failed ::= fun m => <[id := counter m id + 1]> m |> else s in
            let '(s, final) :=
              if gc_Fatal req || (counter (remaining s) id =? 0) then
                let st := if gc_Fatal req || (0 <? counter (failed s) id)
                          then ExecutionStatusFailed else ExecutionStatusSuccess in
                (finishExecutionLocked now s id entry st
                   (TerminalExecutionError st (gc_Error req) ""), Some st)
              else (s, None) in
            let '(s, (ids, skipped)) :=
              applyGroupDownstreamLocked now s id (gc_Downstream req) in
            (s, mkGroupResult CommitOutcomeAccepted true (isSome final)
                  (default ExecutionStatusNone final) ids skipped)
      end
  end.

Definition CommitGroup := commitGroupLocked.

#[global] Arguments applyGroupArrival : simpl never.
#[global] Arguments applyGroupDownstreamLocked : simpl never.
#[global] Arguments commitGroupLocked : simpl never.
#[global] Arguments storeExit : simpl never.

(** ** One counting routine, twice *)

Lemma applyGroupArrival_eq now id acc a : applyGroupArrival now id acc a = applyArrival now id 0 0 acc a.
Proof.
  destruct acc as [s [ids sk]]. unfold applyGroupArrival, applyArrival, decideSchedule.
  destruct (da_ArrivalCount a <=? 0); [done|]. cbn zeta.
  destruct (decide (marker _ _ <> "")); [done|].
  match goal with |- context [decide (?x = "")] => destruct (decide (x = "")); [done|] end.
  match goal with |- context [putOutboxLocked ?n ?x ?i ?o ?t ?z] =>
    change (putOutboxLocked n x i o t z) with (putOutboxLocked n x i o (t <| t_ActivationID := 0 |>
      <| t_AutoDepth := 0 |>) z) end.
  match goal with |- (let '(_, _) := ?p in _) = (let '(_, _) := ?q in _) =>
    change q with p; destruct p as [s1 [|]] end; done.
Qed.

Lemma applyGroupDownstream_eq now s id l :
  applyGroupDownstreamLocked now s id l = applyArrivalsLocked now s id 0 0 l.
Proof.
  unfold applyGroupDownstreamLocked, applyArrivalsLocked. generalize (s, ([] : list string, [] : list SkippedUnit)).
  induction l as [|a l IH]; intros acc; [done|]. cbn [foldl]. by rewrite applyGroupArrival_eq.
Qed.

(** ** What a group commit touches *)

Lemma storeExit_frames id s ex :
  life_frame s (storeExit id s ex) /\ groupUnits (storeExit id s ex) = groupUnits s /\
  remaining (storeExit id s ex) = remaining s /\ failed (storeExit id s ex) = failed s.
Proof.
  unfold storeExit, preserveOutputPrivacyLocked. cbn zeta. by repeat case_match.
Qed.

Lemma storeExits_frames id s l :
  let s' := foldl (storeExit id) s l in
  life_frame s s' /\ groupUnits s' = groupUnits s /\
  remaining s' = remaining s /\ failed s' = failed s.
Proof.
  cbn zeta. revert s. induction l as [|ex l IH]; intros s; [done|]. cbn [foldl].
  destruct (storeExit_frames id s ex) as (H1 & H2 & H3 & H4).
  destruct (IH (storeExit id s ex)) as (G1 & G2 & G3 & G4).
  split_and!; [by etrans|congruence..].
Qed.

Lemma finish_groups now s id e st errMsg :
  groupUnits (finishExecutionLocked now s id e st errMsg) = groupUnits s.
Proof.
  destruct (finish_shape now s id e st errMsg)
    as (s1 & dl & (ex & ob & ws & sh & q & ->) & ->). done.
Qed.

(** Whether the fence lets a group commit through. *)
Definition groupAdmits (s : memoryState) (req : GroupCommitRequest) (st : groupUnitState)
    (e : execEntry) : Prop :=
  groupUnits s !! groupKey (gc_ExecutionID req) (gc_GroupUnitIdx req) = Some st /\
  gu_status st = groupUnitRunning /\ gu_leaseToken st = gc_LeaseToken req /\
  gu_attempt st = gc_Attempt req /\
  executions s !! gc_ExecutionID req = Some e /\ ended e = false.

(** The unit a commit leaves behind. *)
Definition doneUnit (st : groupUnitState) (token : string) : groupUnitState :=
  st <| gu_status := groupUnitDone |> <| gu_committedToken := token |>
     <| gu_leaseID := "" |> <| gu_leaseToken := "" |>.

Lemma commitGroup_cases now s req :
  ((commitGroupLocked now s req).1 = s /\ gr_Applied (commitGroupLocked now s req).2 = false) \/
  exists st e, groupAdmits s req st e /\ gr_Applied (commitGroupLocked now s req).2 = true /\
    groupUnits (commitGroupLocked now s req).1
    = <[groupKey (gc_ExecutionID req) (gc_GroupUnitIdx req) := doneUnit st (gc_LeaseToken req)]>
        (groupUnits s).
Proof.
  unfold commitGroupLocked. cbn zeta. set (id := gc_ExecutionID req).
  destruct (groupUnits s !! groupKey id (gc_GroupUnitIdx req)) as [st|] eqn:Hu; [|by left].
  destruct (bool_decide (gu_leaseToken st <> _) || _ || _) eqn:Hf; [by left|].
  destruct (executions s !! id) as [e|] eqn:He; [|by left].
  destruct (IsTerminalExecutionStatus (status e)) eqn:Hd; [by left|]. right. exists st, e.
  apply orb_false_iff in Hf as [[Ht Ha]%orb_false_iff Hr].
  apply bool_decide_eq_false, dec_stable in Ht, Hr. apply negb_false_iff, Z.eqb_eq in Ha.
  split; [by split_and!|].
  destruct (storeExits_frames id s (gc_Exits req)) as (_ & Hg & _).
  set (s1 := foldl (storeExit id) s (gc_Exits req)) in *.
  set (s2 := if decide (gc_Outcome req = GroupOutcomeFailed) then (_ : memoryState) else _).
  assert (Hs2 : groupUnits s2 = <[groupKey id (gc_GroupUnitIdx req)
    := doneUnit st (gc_LeaseToken req)]> (groupUnits s))
    by (rewrite <- Hg; unfold s2; by case_decide).
  destruct (gc_Fatal req || _); rewrite applyGroupDownstream_eq;
    (match goal with |- context [applyArrivalsLocked now ?x id 0 0 ?l] =>
       pose proof (applyArrivals_rel (same groupUnits) now x id 0 0 l ltac:(done)) as Hx;
       destruct (applyArrivalsLocked now x id 0 0 l) as [s3 [ids sk]] end;
     split; [done|]; cbn [fst] in *; unfold same in Hx; rewrite Hx, ?finish_groups; exact Hs2).
Qed.

(** ** A group unit through its life *)

(** Everything the store does to group units. *)
Inductive group_step : memoryState -> memoryState -> Prop :=
| gs_acquire s lease : group_step s (AcquireGroupLease s lease).1
| gs_renew s id u token d : group_step s (RenewGroupLease s id u token d).1
| gs_expire s id u token : group_step s (ExpireGroupLease s id u token).1
| gs_revoke s now id u token entry :
    group_step s (RevokeGroupLeaseWithOutbox now s id u token entry).1
| gs_commit s now req : group_step s (CommitGroup now s req).1
| gs_other s s' : groupUnits s' = groupUnits s -> group_step s s'.

Lemma runningUnder_Some s id u token st :
  runningUnder s id u token = Some st <->
  groupUnits s !! groupKey id u = Some st /\ gu_status st = groupUnitRunning /\
  gu_leaseToken st = token.
Proof.
  unfold runningUnder. destruct (groupUnits s !! _) as [st'|]; [|naive_solver].
  repeat case_bool_decide; simpl; naive_solver.
Qed.

Lemma acquire_cases s lease :
  let key := groupKey (gl_ExecutionID lease) (gl_GroupUnitIdx lease) in
  let st := default zeroGroupUnit (groupUnits s !! key) in
  (AcquireGroupLease s lease = (s, (lease, false)) /\
   (gu_status st = groupUnitRunning \/ gu_status st = groupUnitDone)) \/
  (gu_status st <> groupUnitRunning /\ gu_status st <> groupUnitDone /\
   exists st', groupUnits (AcquireGroupLease s lease).1 = <[key := st']> (groupUnits s) /\
     gu_status st' = groupUnitRunning /\ gu_leaseToken st' = gl_LeaseToken lease /\
     gu_attempt st < gu_attempt st' /\ gl_Attempt lease <= gu_attempt st' /\
     (AcquireGroupLease s lease).2 = (lease <| gl_Attempt := gu_attempt st' |>, true) /\
     executions (AcquireGroupLease s lease).1 = executions s).
Proof.
  intros key st. unfold AcquireGroupLease. fold key. fold st.
  assert (Hidem : gu_status st <> groupUnitPending -> s <| groupUnits ::= <[key := st]> |> = s).
  { intros Hp. apply memoryState_ext; try done. cbn. apply insert_id. unfold st in *.
    destruct (groupUnits s !! key); [done|]. by destruct Hp. }
  destruct (gu_status st) eqn:Hs.
  - right. split_and!; [done..|]. eexists. cbn. rewrite insert_insert_eq. split; [done|].
    split_and!; try done; cbn; case_match eqn:E; rewrite ?Z.leb_le, ?Z.leb_gt in *; lia.
  - left. rewrite Hidem by done. auto.
  - left. rewrite Hidem by done. auto.
  - right. split_and!; [done..|]. eexists. cbn. rewrite insert_insert_eq. split; [done|].
    split_and!; try done; cbn; case_match eqn:E; rewrite ?Z.leb_le, ?Z.leb_gt in *; lia.
Qed.

Lemma expire_cases s id u token :
  expireGroupLeaseLocked s id u token = (s, false) \/
  exists st, groupUnits s !! groupKey id u = Some st /\ gu_status st = groupUnitRunning /\
    gu_leaseToken st = token /\
    expireGroupLeaseLocked s id u token
    = (s <| groupUnits ::= <[groupKey id u :=
             st <| gu_status := groupUnitPending |> <| gu_leaseID := "" |>
                <| gu_leaseToken := "" |> <| gu_deadline := zeroTime |>]> |>, true).
Proof.
  unfold expireGroupLeaseLocked. destruct (runningUnder s id u token) as [st|] eqn:E; [|by left].
  apply runningUnder_Some in E as (? & ? & ?). right. by exists st.
Qed.

(** The unit is finished, whoever committed it. *)
Definition unitDone (key : string) (s : memoryState) : Prop :=
  exists st, groupUnits s !! key = Some st /\ gu_status st = groupUnitDone.

Lemma unitDone_insert key s s' k st st0 :
  unitDone key s -> groupUnits s !! k = Some st0 \/ gu_status st = groupUnitDone ->
  (groupUnits s !! k = Some st0 -> gu_status st0 <> groupUnitDone) ->
  groupUnits s' = <[k := st]> (groupUnits s) -> unitDone key s'.
Proof.
  intros (d & Hd & Hs) Hk Hne E. unfold unitDone. rewrite E.
  destruct (decide (key = k)) as [->|]; [|rewrite lookup_insert_ne by done; eauto].
  rewrite lookup_insert_eq. destruct Hk as [Hk|Hk]; [|eauto].
  specialize (Hne Hk). congruence.
Qed.

Lemma put_groups now s id o : groupUnits (putOutboxEntryLocked now s id o).1 = groupUnits s.
Proof. by destruct (putOutbox_only now s id o) as (ob & ->). Qed.

Lemma group_step_done key s s' : group_step s s' -> unitDone key s -> unitDone key s'.
Proof.
  intros Hstep Hd. destruct Hstep as [s lease|s id u token d|s id u token|s now id u token entry
    |s now req|s s' E].
  - destruct (acquire_cases s lease) as [[-> _]|(Hr & Hn & st' & E & _)]; [done|].
    destruct (groupUnits s !! groupKey (gl_ExecutionID lease) (gl_GroupUnitIdx lease)) as [st0|]
      eqn:Hk; cbn in *.
    + eapply unitDone_insert; [done|by left| |exact E]. congruence.
    + destruct Hd as (d & Hd & Hs). exists d. rewrite E, lookup_insert_ne; [done|]. congruence.
  - unfold RenewGroupLease. destruct (runningUnder s id u token) as [st|] eqn:E; [|done].
    apply runningUnder_Some in E as (E & Hr & _).
    by eapply unitDone_insert; [done|left; exact E|by rewrite Hr|].
  - unfold ExpireGroupLease. destruct (expire_cases s id u token) as [-> |(st & E & Hr & _ & ->)]; [done|].
    by eapply unitDone_insert; [done|left; exact E|by rewrite Hr|].
  - unfold RevokeGroupLeaseWithOutbox. case_decide; [done|]. case_decide; [done|].
    destruct (expire_cases s id u token) as [-> |(st & E & Hr & _ & ->)]; [done|]. cbn [negb fst].
    unfold putOutboxLocked, unitDone. rewrite put_groups.
    by eapply unitDone_insert; [done|left; exact E|by rewrite Hr|].
  - unfold CommitGroup. destruct (commitGroup_cases now s req)
      as [[-> _]|(st & e & (Hu & Hr & _) & _ & E)]; [done|].
    by eapply unitDone_insert; [done|right|by rewrite Hr|exact E].
  - unfold unitDone in *. by rewrite E.
Qed.

Lemma group_steps_done key s s' : rtc group_step s s' -> unitDone key s -> unitDone key s'.
Proof. induction 1; eauto using group_step_done. Qed.

Lemma commitGroup_stale now s req st :
  groupUnits s !! groupKey (gc_ExecutionID req) (gc_GroupUnitIdx req) = Some st ->
  gu_leaseToken st <> gc_LeaseToken req -> (CommitGroup now s req).1 = s.
Proof.
  intros Hu Ht. unfold CommitGroup.
  destruct (commitGroup_cases now s req) as [[-> _]|(st' & e & (Hu' & _ & ? & _) & _)]; [done|].
  congruence.
Qed.

(** ** Main results *)

(** C33. A group unit is committed at most once.  After a commit was accepted, and
    after whatever the store does next (leases, renewals, expiries, reclaims,
    commits of any units), every further commit of the unit is refused as a
    duplicate and changes nothing, and the unit can be neither leased, renewed
    nor expired again. *)
Theorem group_commit_once now s req s1 r s2 now' req' lease token d :
  CommitGroup now s req = (s1, r) -> gr_Applied r = true -> rtc group_step s1 s2 ->
  gc_ExecutionID req' = gc_ExecutionID req -> gc_GroupUnitIdx req' = gc_GroupUnitIdx req ->
  gl_ExecutionID lease = gc_ExecutionID req -> gl_GroupUnitIdx lease = gc_GroupUnitIdx req ->
  CommitGroup now' s2 req' = (s2, refusedGroup CommitOutcomeDuplicateTerminal) /\
  AcquireGroupLease s2 lease = (s2, (lease, false)) /\
  RenewGroupLease s2 (gc_ExecutionID req) (gc_GroupUnitIdx req) token d = (s2, false) /\
  ExpireGroupLease s2 (gc_ExecutionID req) (gc_GroupUnitIdx req) token = (s2, false).
Proof.
  intros Hc Hap Hsteps E1 E2 L1 L2.
  assert (Hd : unitDone (groupKey (gc_ExecutionID req) (gc_GroupUnitIdx req)) s2).
  { apply (group_steps_done _ _ _ Hsteps). unfold CommitGroup in Hc.
    destruct (commitGroup_cases now s req) as [[_ Hf]|(st & e & _ & _ & E)];
      rewrite Hc in *; cbn [fst snd] in *; [congruence|].
    exists (doneUnit st (gc_LeaseToken req)). by rewrite E, lookup_insert_eq. }
  destruct Hd as (st & Hst & Hdone).
  assert (Hno : runningUnder s2 (gc_ExecutionID req) (gc_GroupUnitIdx req) token = None).
  { unfold runningUnder. by rewrite Hst, Hdone. }
  split_and!.
  - unfold CommitGroup, commitGroupLocked. rewrite E1, E2, Hst, Hdone. cbn zeta.
    rewrite (bool_decide_eq_true_2 (groupUnitDone <> groupUnitRunning)), orb_true_r by done.
    by rewrite decide_True.
  - destruct (acquire_cases s2 lease) as [[-> _]|(_ & Hn & _)]; [done|].
    rewrite L1, L2, Hst in Hn. by destruct Hn.
  - unfold RenewGroupLease. by rewrite Hno.
  - unfold ExpireGroupLease, expireGroupLeaseLocked. by rewrite Hno.
Qed.

(** A group unit of the worked execution, leased and ready to commit. *)
Definition demoGroupLease : GroupLease := mkGroupLease "gl1" "gt1" 1 "e1" 3 20 1000 "grp" 2 0.
Definition demoGroupLeased : memoryState := (AcquireGroupLease demoCreated demoGroupLease).1.
Definition demoGroupCommit : GroupCommitRequest :=
  mkGroupCommit "e1" 3 "gt1" 1 GroupOutcomeSuccess [mkGroupExit 2 "out" "main" None false] "" false
    [mkArrival "end" 4 4 1 1 "" TaskTypeNodeExec].

Lemma group_commit_once_witness :
  let s1 := (CommitGroup 30 demoGroupLeased demoGroupCommit).1 in
  CommitGroup 40 s1 demoGroupCommit = (s1, refusedGroup CommitOutcomeDuplicateTerminal).
Proof.
  intros s1. apply (group_commit_once 30 demoGroupLeased demoGroupCommit s1
    (mkGroupResult CommitOutcomeAccepted true false ExecutionStatusNone ["execute/e1/end/0"] [])
    s1 40 demoGroupCommit demoGroupLease "gt1" 50); [by vm_compute|done|apply rtc_refl|done..].
Defined.

(** A stranded group lease is reclaimed without losing the group.  When the
    sweeper lists a group lease as expired and revokes it with a redelivery
    intent, the unit is pending again and the intent is in the outbox; the unit
    can be leased again at once, under a strictly larger attempt; and the old
    holder's commit is refused without effect, before and after that. *)
Theorem group_lease_reclaimed now s id u st before entry lease req now' :
  groupUnits s !! groupKey id u = Some st ->
  is_Some (expiredGroupLease before st) -> oe_ID entry <> "" ->
  gl_ExecutionID lease = id -> gl_GroupUnitIdx lease = u -> gl_LeaseToken lease <> gu_leaseToken st ->
  gc_ExecutionID req = id -> gc_GroupUnitIdx req = u -> gc_LeaseToken req = gu_leaseToken st ->
  let s1 := (RevokeGroupLeaseWithOutbox now s id u (gu_leaseToken st) entry).1 in
  let s2 := (AcquireGroupLease s1 lease).1 in
  let lease' := (AcquireGroupLease s1 lease).2.1 in
  (RevokeGroupLeaseWithOutbox now s id u (gu_leaseToken st) entry).2 = inr true /\
  GetGroupUnitPhase s1 id u = Some GroupUnitPhasePending /\
  is_Some (outboxOf s1 id !! oe_ID entry) /\
  (AcquireGroupLease s1 lease).2.2 = true /\ gu_attempt st < gl_Attempt lease' /\
  (CommitGroup now' s1 req).1 = s1 /\ (CommitGroup now' s2 req).1 = s2.
Proof.
  intros Hu Hexp Hid L1 L2 Ltok R1 R2 Rtok.
  assert (Hrun : gu_status st = groupUnitRunning /\ gu_leaseToken st <> "").
  { unfold expiredGroupLease in Hexp. case_decide as Hd; [by destruct Hexp|].
    split; [|tauto]. destruct (decide (gu_status st = groupUnitRunning)); [done|tauto]. }
  destruct Hrun as [Hrun Htok]. unfold RevokeGroupLeaseWithOutbox.
  rewrite !decide_False by done.
  destruct (expire_cases s id u (gu_leaseToken st)) as [E|(st' & Hu' & _ & _ & E)].
  { exfalso. assert (Hr : runningUnder s id u (gu_leaseToken st) = Some st)
      by (by apply runningUnder_Some). unfold expireGroupLeaseLocked in E. by rewrite Hr in E. }
  assert (st' = st) as -> by congruence. rewrite E. cbn [negb fst snd]. cbn zeta.
  match goal with |- context [putOutboxLocked now ?x ?i (oe_ID entry) ?t ?z] =>
    pose proof (put_present now x i (oe_ID entry) t z Hid) as Hob;
    pose proof (put_groups now x i (newOutboxEntry (oe_ID entry) t z)) as Hg;
    fold (putOutboxLocked now x i (oe_ID entry) t z) in Hg;
    set (s1 := (putOutboxLocked now x i (oe_ID entry) t z).1) in * end.
  cbn in Hg.
  assert (Hp : exists p, groupUnits s1 !! groupKey (gc_ExecutionID req) (gc_GroupUnitIdx req)
    = Some p /\ gu_status p = groupUnitPending /\ gu_leaseToken p = "" /\
    gu_attempt p = gu_attempt st).
  { rewrite Hg, R1, R2. eexists. by rewrite lookup_insert_eq. }
  clearbody s1. clear Hg. destruct Hp as (p & Hp & Hps & Hpt & Hpa).
  pose proof (acquire_cases s1 lease) as Hacq. cbn zeta in Hacq. rewrite L1, L2, <- R1, <- R2, Hp in Hacq. cbn in Hacq.
  rewrite Hps in Hacq. destruct Hacq as [[_ [?|?]]|(_ & _ & st2 & G & _ & T & A & _ & Ea & _)]; try done.
  assert (H1 : (CommitGroup now' s1 req).1 = s1) by (eapply commitGroup_stale; [exact Hp|congruence]).
  assert (H2 : (CommitGroup now' (AcquireGroupLease s1 lease).1 req).1 = (AcquireGroupLease s1 lease).1).
  { eapply commitGroup_stale; [by rewrite G, lookup_insert_eq|congruence]. }
  rewrite Ea. cbn [fst snd gl_Attempt].
  split_and!; try done; [|cbn; lia].
  unfold GetGroupUnitPhase. by rewrite <- R1, <- R2, Hp, Hps.
Qed.

Lemma group_lease_reclaimed_witness :
  let st := default zeroGroupUnit (groupUnits demoGroupLeased !! "e1/3") in
  let s1 := (RevokeGroupLeaseWithOutbox 2000 demoGroupLeased "e1" 3 (gu_leaseToken st)
               (demoEntry <| oe_ID := "group-requeue" |>)).1 in
  let s2 := (AcquireGroupLease s1 (demoGroupLease <| gl_LeaseToken := "gt2" |>)).1 in
  (CommitGroup 2100 s2 demoGroupCommit).1 = s2.
Proof.
  intros st.
  apply (group_lease_reclaimed 2000 demoGroupLeased "e1" 3 st 1500
    (demoEntry <| oe_ID := "group-requeue" |>) (demoGroupLease <| gl_LeaseToken := "gt2" |>)
    demoGroupCommit 2100); try (by vm_compute). vm_compute. by eexists.
Defined.
