(* ===== verification/Signals.v ===== *)
(** * Suspension and signals

    The suspend and signal operations of [memory_state.go]: parking a leased
    node, consuming signals that were delivered early, waking waiters, quorum
    waits, and the durable resume intents of [src/engine/atomic.go].

    Go ranges over the map of waiters in no fixed order.  Operations that pick
    the first matching waiter take the order as an argument, [waiters], a
    permutation of the map's entries. *)

From S2P Require Import Prelude Keys Types Graph State Slots Executions Outbox Lease Commit.

(** ** Helpers *)

Definition signalQuorum (spec : SuspendSpec) : Z :=
  if 0 <? sp_Quorum spec then sp_Quorum spec
  else if bool_decide (sp_Signals spec <> []) then Z.of_nat (length (sp_Signals spec))
  else 1.

Definition cloneSignalSet (m : gmap string Data) : gmap string Data := cloneData <$> m.

(** Adds one signal to the collection of a quorum wait; a payload is returned
    once the quorum is reached. *)
Definition addMultiSignalLocked (s : memoryState) (id nodeName signalName : string) (data : Data)
    (spec : SuspendSpec) : memoryState * option SignalPayload :=
  let key := id +:+ "/" +:+ nodeName in
  let all := <[signalName := data]> (default ∅ (signalSets s !! key)) in
  let s := s <| signalSets ::= <[key := all]> |> in
  (s, if Z.of_nat (size all) <? signalQuorum spec then None
      else Some (mkSignalPayload SignalReceived signalName data (Some (cloneSignalSet all)))).

(** The early signals of a single-signal wait, first name first. *)
Fixpoint consumeFirst (s : memoryState) (id : string) (names : list string)
    : memoryState * option SignalPayload :=
  match names with
  | [] => (s, None)
  | name :: names =>
      let sigKey := id +:+ "/" +:+ name in
      match signals s !! sigKey with
      | Some data => (s <| signals ::= delete sigKey |>,
                      Some (mkSignalPayload SignalReceived name (cloneData data) None))
      | None => consumeFirst s id names
      end
  end.

(** The early signals of a quorum wait. *)
Fixpoint consumeMulti (s : memoryState) (id nodeName : string) (spec : SuspendSpec)
    (names : list string) : memoryState * option SignalPayload :=
  match names with
  | [] => (s, None)
  | name :: names =>
      let sigKey := id +:+ "/" +:+ name in
      match signals s !! sigKey with
      | None => consumeMulti s id nodeName spec names
      | Some data =>
          let s := s <| signals ::= delete sigKey |> in
          let '(s, ready) := addMultiSignalLocked s id nodeName name data spec in
          match ready with
          | Some p => (s <| signalSets ::= delete (id +:+ "/" +:+ nodeName) |>, Some p)
          | None => consumeMulti s id nodeName spec names
          end
      end
  end.

(** ** Parking *)

Definition suspendOrConsumeMultiLocked (s : memoryState) (id nodeName : string)
    (spec : SuspendSpec) : memoryState * option SignalPayload :=
  let key := id +:+ "/" +:+ nodeName in
  let '(s, payload) := consumeMulti s id nodeName spec (sp_Signals spec) in
  match payload with
  | Some p => (s, Some p)
  | None => (s <| resumed ::= fun m => m ∖ {[key]} |> <| suspended ::= <[key := spec]> |>, None)
  end.

Definition SuspendOrConsume (s : memoryState) (id name : string) (spec : SuspendSpec)
    : memoryState * option SignalPayload :=
  if decide (sp_Mode spec = ModeMultiSignal) then suspendOrConsumeMultiLocked s id name spec
  else
    let key := id +:+ "/" +:+ name in
    match consumeFirst s id (sp_Signals spec) with
    | (s, Some p) => (s, Some p)
    | (s, None) => (s <| resumed ::= fun m => m ∖ {[key]} |> <| suspended ::= <[key := spec]> |>, None)
    end.

Definition SuspendResumeOutboxEntry (lease : TaskLease) (kind : string)
    (payload : option SignalPayload) (availableAt : Time) : OutboxEntry :=
  let t := tl_Task lease in
  newOutboxEntry
    ("resume/" +:+ t_ExecutionID t +:+ "/" +:+ t_NodeName t +:+ "/" +:+ itoa (t_ActivationID t)
       +:+ "/" +:+ tl_LeaseID lease +:+ "/" +:+ kind)
    (zeroTask <| t_ExecutionID := t_ExecutionID t |> <| t_NodeName := t_NodeName t |>
       <| t_NodeIdx := t_NodeIdx t |> <| t_UnitIdx := t_UnitIdx t |>
       <| t_Type := TaskTypeNodeResume |> <| t_Payload := payload |>
       <| t_ActivationID := t_ActivationID t |>)
    availableAt.

(** [clock] is what [time.Now] answers, for a caller that passes no time. *)
Definition SuspendOutboxEntries (clock : Time) (lease : TaskLease) (spec : SuspendSpec)
    (payload : option SignalPayload) (now : Time) : list OutboxEntry :=
  let now := if IsZero now then clock else now in
  match payload with
  | Some p => [SuspendResumeOutboxEntry lease "signal" (Some p) now]
  | None =>
      (if decide (sp_Mode spec = ModeTimer)
       then [SuspendResumeOutboxEntry lease "timer"
               (Some (mkSignalPayload TimerFired "_timer" None None)) (Add now (sp_Timer spec))]
       else []) ++
      (if 0 <? sp_Timeout spec
       then [SuspendResumeOutboxEntry lease "timeout"
               (Some (mkSignalPayload TimeoutFired "_timeout" None None)) (Add now (sp_Timeout spec))]
       else [])
  end.

Definition putEntry (now : Time) (id : string) (s : memoryState) (e : OutboxEntry) : memoryState :=
  (putOutboxLocked now s id (oe_ID e) (oe_Task e) (oe_AvailableAt e)).1.

(** The parked record of a node. *)
Definition parkedNode (node : NodeSnapshot) (privateOutput : bool) : NodeSnapshot :=
  let cp := node <| ns_Status := NodeStatusSuspended |> <| ns_LeaseID := "" |>
    <| ns_LeaseToken := "" |> <| ns_LeaseIssuedAt := zeroTime |> <| ns_LeaseTTL := 0 |>
    <| ns_LeaseTaskType := TaskTypeNodeExec |> <| ns_LeasePayload := None |>
    <| ns_LeaseGeneration := 0 |> <| ns_PrivateOutput := privateOutput |> in
  if privateOutput then cp <| ns_Output := None |> else cp.

Definition SuspendTaskLease (now : Time) (s : memoryState) (lease : TaskLease) (output : Data)
    (storeOutput privateOutput : bool) (spec : SuspendSpec) (oldSignalName : string)
    : memoryState * (option SignalPayload * bool) :=
  let id := t_ExecutionID (tl_Task lease) in
  let name := t_NodeName (tl_Task lease) in
  let key := id +:+ "/" +:+ name in
  match nodes s !! key with
  | None => (s, (None, false))
  | Some node =>
      if negb (bool_decide (ns_Status node = NodeStatusCommitting) &&
               bool_decide (ns_LeaseID node = tl_LeaseID lease) &&
               bool_decide (ns_LeaseToken node = tl_LeaseToken lease) &&
               (ns_Attempt node =? tl_Attempt lease) &&
               (ns_ActivationID node =? t_ActivationID (tl_Task lease)))
      then (s, (None, false))
      else
        let '(s, privateOutput) := preserveOutputPrivacyLocked s key privateOutput in
        let s := if storeOutput then s <| outputs ::= <[key := cloneData output]> |> else s in
        let s := s <| resumed ::= fun m => m ∖ {[key]} |> in
        let s := if decide (oldSignalName <> "") then s <| suspended ::= delete key |> else s in
        let '(s, payload) :=
          if decide (sp_Mode spec = ModeMultiSignal)
          then consumeMulti s id name spec (sp_Signals spec)
          else consumeFirst s id (sp_Signals spec) in
        let s := match payload with
                 | None => s <| suspended ::= <[key := spec]> |>
                 | Some _ => s <| suspended ::= delete key |>
                 end in
        let s := s <| nodes ::= <[key := parkedNode node privateOutput]> |> in
        let s := foldl (putEntry now id) s (SuspendOutboxEntries now lease spec payload now) in
        (s, (cloneLeasePayload payload, true))
  end.

Definition SuspendTaskLeaseWithOutbox (now : Time) (s : memoryState) (lease : TaskLease)
    (output : Data) (storeOutput privateOutput : bool) (spec : SuspendSpec) (oldSignalName : string)
    : memoryState * bool :=
  let '(s, (_, committed)) :=
    SuspendTaskLease now s lease output storeOutput privateOutput spec oldSignalName in
  (s, committed).

Definition ResuspendAtomic (s : memoryState) (id nodeName newSignalName : string)
    (spec : SuspendSpec) : memoryState * option SignalPayload :=
  let key := id +:+ "/" +:+ nodeName in
  let s := s <| resumed ::= fun m => m ∖ {[key]} |> <| suspended ::= delete key |> in
  let newSigKey := id +:+ "/" +:+ newSignalName in
  match signals s !! newSigKey with
  | Some sig => (s <| signals ::= delete newSigKey |>,
                 Some (mkSignalPayload SignalReceived newSignalName (cloneData sig) None))
  | None => (s <| suspended ::= <[key := spec]> |>, None)
  end.

(** ** Delivering *)

(** The first waiter, in the order of the range, of one execution for a signal,
    with its node name. *)
Fixpoint findWaiter (id signalName : string) (waiters : list (string * SuspendSpec))
    : option (string * SuspendSpec) :=
  match waiters with
  | [] => None
  | (key, spec) :: waiters =>
      match cutPrefix (id +:+ "/") key with
      | Some name =>
          if bool_decide (signalName ∈ sp_Signals spec) then Some (name, spec)
          else findWaiter id signalName waiters
      | None => findWaiter id signalName waiters
      end
  end.

Definition PeekResumeTarget (waiters : list (string * SuspendSpec)) (id signalName : string)
    : string :=
  match findWaiter id signalName waiters with Some (name, _) => name | None => "" end.

Definition storeSignal (s : memoryState) (id signalName : string) (data : Data) : memoryState :=
  s <| signals ::= <[id +:+ "/" +:+ signalName := cloneData data]> |>.

(** The last component says the signal was stored for later. *)
Definition DeliverSignal (waiters : list (string * SuspendSpec)) (s : memoryState)
    (id signalName : string) (data : Data)
    : memoryState * (string * option SignalPayload * bool) :=
  match findWaiter id signalName waiters with
  | None => (storeSignal s id signalName data, ("", None, true))
  | Some (name, spec) =>
      let key := id +:+ "/" +:+ name in
      if decide (sp_Mode spec = ModeMultiSignal) then
        let '(s, p) := addMultiSignalLocked s id name signalName data spec in
        match p with
        | None => (s, ("", None, false))
        | Some p => (s <| suspended ::= delete key |> <| signalSets ::= delete key |>,
                     (name, Some p, false))
        end
      else (s <| suspended ::= delete key |>, (name, None, false))
  end.

Record ResumeIntent : Type := mkResumeIntent {
  ri_NodeName : string;
  ri_NodeIdx : Z;
  ri_UnitIdx : Z;
  ri_ActivationID : Z;
  ri_AutoDepth : Z
}.

Definition resumeActivation (s : memoryState) (id nodeName : string) (intent : ResumeIntent) : Z :=
  match nodes s !! (id +:+ "/" +:+ nodeName) with
  | Some node => ns_ActivationID node
  | None => ri_ActivationID intent
  end.

Definition resumeEntryID (id nodeName : string) (activationID : Z) : string :=
  "resume/" +:+ id +:+ "/" +:+ nodeName +:+ "/" +:+ itoa activationID +:+ "/signal".

Definition resumeTask (id nodeName : string) (intent : ResumeIntent) (activationID : Z)
    (payload : SignalPayload) : Task :=
  zeroTask <| t_ExecutionID := id |> <| t_NodeName := nodeName |>
    <| t_NodeIdx := ri_NodeIdx intent |> <| t_UnitIdx := ri_UnitIdx intent |>
    <| t_Type := TaskTypeNodeResume |> <| t_Payload := Some payload |>
    <| t_ActivationID := activationID |> <| t_AutoDepth := ri_AutoDepth intent |>.

Definition scheduleResumeOutbox (now : Time) (s : memoryState) (id nodeName : string)
    (intent : ResumeIntent) (payload : SignalPayload) : memoryState :=
  let activationID := resumeActivation s id nodeName intent in
  (putOutboxLocked now s id (resumeEntryID id nodeName activationID)
     (resumeTask id nodeName intent activationID payload) now).1.

Definition DeliverSignalWithOutbox (now : Time) (waiters : list (string * SuspendSpec))
    (s : memoryState) (id signalName : string) (data : Data) (intent : ResumeIntent)
    : memoryState * (string * option SignalPayload * bool) :=
  if decide (ri_NodeName intent = "") then (storeSignal s id signalName data, ("", None, false))
  else
    match findWaiter id signalName waiters with
    | None => (storeSignal s id signalName data, ("", None, false))
    | Some (name, spec) =>
        let key := id +:+ "/" +:+ name in
        if decide (sp_Mode spec = ModeMultiSignal) then
          let '(s, p) := addMultiSignalLocked s id name signalName data spec in
          match p with
          | None => (s, ("", None, false))
          | Some p =>
              let s := s <| suspended ::= delete key |> <| signalSets ::= delete key |> in
              (scheduleResumeOutbox now s id name intent p, (name, Some p, true))
          end
        else
          let s := s <| suspended ::= delete key |> in
          let p := mkSignalPayload SignalReceived signalName (cloneData data) None in
          (scheduleResumeOutbox now s id name intent p, (name, Some p, true))
    end.

Definition AcquireResumeLock (s : memoryState) (id name : string) : memoryState * bool :=
  let key := id +:+ "/" +:+ name in
  if decide (key ∈ resumed s) then (s, false)
  else (s <| resumed ::= fun m => {[key]} ∪ m |>, true).

(** Some waiter of the execution for this signal already holds its resume lock. *)
Definition waiterResumed (s : memoryState) (id signalName : string) : bool :=
  existsb (fun kv => isSome (cutPrefix (id +:+ "/") kv.1) &&
                     bool_decide (signalName ∈ sp_Signals kv.2) &&
                     bool_decide (kv.1 ∈ resumed s))
    (map_to_list (suspended s)).

Definition RevokeSignal (s : memoryState) (id signalName : string) : memoryState * bool :=
  let sigKey := id +:+ "/" +:+ signalName in
  match signals s !! sigKey with
  | None => (s, false)
  | Some _ => if waiterResumed s id signalName then (s, false)
              else (s <| signals ::= delete sigKey |>, true)
  end.

Definition ListSuspendedNodes (s : memoryState) (id : string) : list string :=
  omap (fun kv => cutPrefix (id +:+ "/") kv.1) (map_to_list (suspended s)).

#[global] Arguments addMultiSignalLocked : simpl never.
#[global] Arguments SuspendTaskLease : simpl never.
#[global] Arguments DeliverSignalWithOutbox : simpl never.
#[global] Arguments DeliverSignal : simpl never.
#[global] Arguments scheduleResumeOutbox : simpl never.
#[global] Arguments putEntry : simpl never.
#[global] Arguments parkedNode : simpl never.

(** ** Frames *)

Lemma consumeFirst_shape s id names :
  exists m, (consumeFirst s id names).1 = s <| signals := m |>.
Proof.
  induction names as [|n names IH]; simpl; [exists (signals s); by destruct s|].
  destruct (signals s !! _); [by eexists|done].
Qed.

Lemma consumeMulti_shape s id name spec names :
  exists m x, (consumeMulti s id name spec names).1 = s <| signals := m |> <| signalSets := x |>.
Proof.
  revert s. induction names as [|n names IH]; intros s; simpl.
  { exists (signals s), (signalSets s). by destruct s. }
  destruct (signals s !! _) as [data|]; [|done]. unfold addMultiSignalLocked.
  destruct (_ <? _); [|by eexists _, _].
  match goal with |- context [consumeMulti ?s1 id name spec names] =>
    destruct (IH s1) as (m & x & ->) end. by eexists m, x.
Qed.

(** What the signal operations leave of the rest of the store. *)
Lemma consume_frame s id name spec :
  let r := if decide (sp_Mode spec = ModeMultiSignal)
           then consumeMulti s id name spec (sp_Signals spec)
           else consumeFirst s id (sp_Signals spec) in
  exists m x, r.1 = s <| signals := m |> <| signalSets := x |>.
Proof.
  cbn zeta. case_decide; [apply consumeMulti_shape|].
  destruct (consumeFirst_shape s id (sp_Signals spec)) as (m & ->).
  exists m, (signalSets s). by destruct s.
Qed.

Lemma putEntries_shape now id s l :
  exists ob, foldl (putEntry now id) s l = s <| outbox := ob |>.
Proof.
  revert s. induction l as [|e l IH]; intros s; [exists (outbox s); by destruct s|]. cbn [foldl].
  assert (exists ob, putEntry now id s e = s <| outbox := ob |>) as (ob & ->)
    by apply putOutbox_only.
  destruct (IH (s <| outbox := ob |>)) as (ob' & ->). by exists ob'.
Qed.

(** ** Waiters *)

(** The range order is one of the possible ones. *)
Definition rangeOf (s : memoryState) (waiters : list (string * SuspendSpec)) : Prop :=
  waiters ≡ₚ map_to_list (suspended s).

(** A node of the execution waits for the signal. *)
Definition waitsFor (s : memoryState) (id sig name : string) (spec : SuspendSpec) : Prop :=
  suspended s !! (id +:+ "/" +:+ name) = Some spec /\ sig ∈ sp_Signals spec.

Lemma cutPrefix_key id key name :
  cutPrefix (id +:+ "/") key = Some name <-> key = id +:+ "/" +:+ name.
Proof. by rewrite cutPrefix_Some, string_app_assoc. Qed.

Lemma rangeOf_elem s w key spec : rangeOf s w -> (key, spec) ∈ w <-> suspended s !! key = Some spec.
Proof. intros ->. apply elem_of_map_to_list. Qed.

Lemma findWaiter_Some id sig w name spec :
  findWaiter id sig w = Some (name, spec) ->
  (id +:+ "/" +:+ name, spec) ∈ w /\ sig ∈ sp_Signals spec.
Proof.
  induction w as [|[key sp] w IH]; simpl; [done|].
  destruct (cutPrefix (id +:+ "/") key) as [n|] eqn:E; [apply cutPrefix_key in E as ->|];
    [case_bool_decide|]; rewrite elem_of_cons; naive_solver.
Qed.

Lemma findWaiter_None id sig w name spec :
  findWaiter id sig w = None -> (id +:+ "/" +:+ name, spec) ∈ w -> sig ∉ sp_Signals spec.
Proof.
  induction w as [|[key sp] w IH]; cbn [findWaiter]; [by intros _ ?%elem_of_nil|].
  rewrite elem_of_cons. destruct (cutPrefix (id +:+ "/") key) as [n|] eqn:E.
  - case_bool_decide; [done|]. intros Hf [[= <- ->]|Hin]; [done|by apply IH].
  - intros Hf [[= <- ->]|Hin]; [|by apply IH].
    pose proof (proj2 (cutPrefix_key id (id +:+ "/" +:+ name) name) eq_refl). congruence.
Qed.

Lemma findWaiter_range s w id sig :
  rangeOf s w ->
  match findWaiter id sig w with
  | Some (name, spec) => waitsFor s id sig name spec
  | None => forall name spec, ~ waitsFor s id sig name spec
  end.
Proof.
  intros Hr. destruct (findWaiter id sig w) as [[name spec]|] eqn:E.
  - apply findWaiter_Some in E as [E ?]. split; [|done]. by apply (rangeOf_elem s w).
  - intros name spec [Hs Hin]. apply (rangeOf_elem s w) in Hs; [|done].
    by eapply findWaiter_None in Hs.
Qed.

Lemma sigKey_inj (id a b : string) : id +:+ "/" +:+ a = id +:+ "/" +:+ b -> a = b.
Proof. apply memoryNodeKey_name_inj. Qed.

(** A fresh intent is stored as given. *)
Lemma put_fresh now s id oid task t :
  oid <> "" -> outboxOf s id !! oid = None ->
  exists x, outboxOf (putOutboxLocked now s id oid task t).1 id !! oid = Some x /\
    oe_Task (ob_entry x) = task.
Proof.
  intros Hne Hno. unfold putOutboxLocked, putOutboxEntryLocked. cbn. rewrite decide_False by done.
  rewrite Hno. unfold outboxOf. cbn. rewrite lookup_insert_eq. cbn. rewrite lookup_insert_eq.
  by eexists.
Qed.

Lemma put_other now s id oid task t k :
  k <> oid -> outboxOf (putOutboxLocked now s id oid task t).1 id !! k = outboxOf s id !! k.
Proof.
  intros Hk. unfold putOutboxLocked, putOutboxEntryLocked. cbn. case_decide; [done|].
  destruct (outboxOf s id !! oid); [done|]. unfold outboxOf at 1. cbn. rewrite lookup_insert_eq. cbn.
  by rewrite lookup_insert_ne.
Qed.

Lemma consumeFirst_sole s id names sig data :
  (forall n, n ∈ names -> n <> sig -> signals s !! (id +:+ "/" +:+ n) = None) ->
  sig ∈ names -> signals s !! (id +:+ "/" +:+ sig) = Some data ->
  consumeFirst s id names
  = (s <| signals ::= delete (id +:+ "/" +:+ sig) |>,
     Some (mkSignalPayload SignalReceived sig (cloneData data) None)).
Proof.
  intros Hno Hin Hd. induction names as [|n names IH]; [by apply elem_of_nil in Hin|].
  cbn [consumeFirst]. destruct (decide (n = sig)) as [->|Hne]; [by rewrite Hd|].
  rewrite Hno by (set_solver || done). apply IH; set_solver.
Qed.

Lemma consumeFirst_nothing s id names :
  (forall n, n ∈ names -> signals s !! (id +:+ "/" +:+ n) = None) ->
  consumeFirst s id names = (s, None).
Proof.
  induction names as [|n names IH]; intros Hno; [done|]. cbn [consumeFirst].
  rewrite Hno by set_solver. apply IH. set_solver.
Qed.

(** ** Parking and waking *)

(** The lease that entered committing still owns the node. *)
Definition parks (s : memoryState) (lease : TaskLease) (node : NodeSnapshot) : Prop :=
  nodes s !! (t_ExecutionID (tl_Task lease) +:+ "/" +:+ t_NodeName (tl_Task lease)) = Some node /\
  ns_Status node = NodeStatusCommitting /\ ns_LeaseID node = tl_LeaseID lease /\
  ns_LeaseToken node = tl_LeaseToken lease /\ ns_Attempt node = tl_Attempt lease /\
  ns_ActivationID node = t_ActivationID (tl_Task lease).

(** A node is parked and a resume intent carries the signal's data to it. *)
Definition wokenWith (s : memoryState) (id name sig : string) (data : Data) : Prop :=
  suspended s !! (id +:+ "/" +:+ name) = None /\ signals s !! (id +:+ "/" +:+ sig) = None /\
  (exists n, nodes s !! (id +:+ "/" +:+ name) = Some n /\ ns_Status n = NodeStatusSuspended) /\
  exists oid x, outboxOf s id !! oid = Some x /\ t_NodeName (oe_Task (ob_entry x)) = name /\
    t_Type (oe_Task (ob_entry x)) = TaskTypeNodeResume /\
    t_Payload (oe_Task (ob_entry x)) = Some (mkSignalPayload SignalReceived sig (cloneData data) None).

(** Everything parking does before it looks for early signals. *)
Definition parkPrepare (s : memoryState) (key : string) (output : Data)
    (storeOutput privateOutput : bool) (oldSignalName : string) : memoryState * bool :=
  let '(s, privateOutput) := preserveOutputPrivacyLocked s key privateOutput in
  let s := if storeOutput then s <| outputs ::= <[key := cloneData output]> |> else s in
  let s := s <| resumed ::= fun m => m ∖ {[key]} |> in
  (if decide (oldSignalName <> "") then s <| suspended ::= delete key |> else s, privateOutput).

Lemma parkPrepare_frame s key output so po old :
  let s1 := (parkPrepare s key output so po old).1 in
  signals s1 = signals s /\ signalSets s1 = signalSets s /\ outbox s1 = outbox s /\
  delete key (suspended s1) = delete key (suspended s) /\
  (forall k, k <> key -> nodes s1 !! k = nodes s !! k).
Proof.
  unfold parkPrepare. pose proof (preserve_other s key po) as Ho.
  unfold preserveOutputPrivacyLocked in *. cbn zeta in *.
  destruct (po || outputIsPrivateLocked s key); cbn in *; repeat case_match; simplify_eq/=;
    split_and!; try done; rewrite ?delete_delete_eq; try done; intros k Hk; by apply (Ho k Hk).
Qed.

Lemma suspend_unfold now s lease output so po spec old node :
  parks s lease node ->
  let id := t_ExecutionID (tl_Task lease) in
  let name := t_NodeName (tl_Task lease) in
  let key := id +:+ "/" +:+ name in
  let s1 := (parkPrepare s key output so po old).1 in
  let p := (parkPrepare s key output so po old).2 in
  let r := if decide (sp_Mode spec = ModeMultiSignal)
           then consumeMulti s1 id name spec (sp_Signals spec)
           else consumeFirst s1 id (sp_Signals spec) in
  SuspendTaskLease now s lease output so po spec old
  = (foldl (putEntry now id)
       (match r.2 with
        | None => r.1 <| suspended ::= <[key := spec]> |>
        | Some _ => r.1 <| suspended ::= delete key |>
        end <| nodes ::= <[key := parkedNode node p]> |>)
       (SuspendOutboxEntries now lease spec r.2 now), (cloneLeasePayload r.2, true)).
Proof.
  intros (Hn & Hs & H1 & H2 & H3 & H4). cbn zeta. unfold SuspendTaskLease.
  rewrite Hn, Hs, H1, H2, H3, H4, !Z.eqb_refl, !bool_decide_eq_true_2 by done. cbn [andb negb].
  unfold parkPrepare. destruct (preserveOutputPrivacyLocked s _ po) as [s1 p]. cbn [fst snd].
  case_decide; (destruct (consumeMulti _ _ _ _ _) as [s2 payload] || destruct (consumeFirst _ _ _) as [s2 payload]);
    cbn [fst snd]; done.
Qed.

Lemma parkedNode_status node p : ns_Status (parkedNode node p) = NodeStatusSuspended.
Proof. unfold parkedNode. by destruct p. Qed.

(** Parking with the signal already there. *)
Lemma park_finds_signal now s lease node output so po spec old sig data :
  let id := t_ExecutionID (tl_Task lease) in
  parks s lease node -> sp_Mode spec <> ModeMultiSignal -> sig ∈ sp_Signals spec ->
  (forall n, n ∈ sp_Signals spec -> n <> sig -> signals s !! (id +:+ "/" +:+ n) = None) ->
  signals s !! (id +:+ "/" +:+ sig) = Some data ->
  outboxOf s id !! oe_ID (SuspendResumeOutboxEntry lease "signal" None now) = None ->
  wokenWith (SuspendTaskLease now s lease output so po spec old).1 id
    (t_NodeName (tl_Task lease)) sig data.
Proof.
  intros id Hp Hmode Hin Hno Hd Hob.
  pose proof (suspend_unfold now s lease output so po spec old node Hp) as E.
  cbn zeta in E. fold id in E. rewrite decide_False in E by done. rewrite E. clear E.
  set (key := id +:+ "/" +:+ t_NodeName (tl_Task lease)) in *.
  destruct (parkPrepare_frame s key output so po old) as (F1 & F2 & F3 & F4 & F5).
  set (s1 := (parkPrepare s key output so po old).1) in *.
  rewrite (consumeFirst_sole s1 id (sp_Signals spec) sig data) by (by rewrite F1 || done).
  cbn [fst snd]. unfold SuspendOutboxEntries. cbn [foldl].
  set (s2 := upd nodes _ _).
  set (e := SuspendResumeOutboxEntry lease "signal" (Some _) _).
  assert (Hs : exists ob, putEntry now id s2 e = s2 <| outbox := ob |>) by apply putOutbox_only.
  destruct (put_fresh now s2 id (oe_ID e) (oe_Task e) (oe_AvailableAt e)) as (x & Hx & Ht);
    [done|unfold outboxOf; cbn; rewrite F3; exact Hob|].
  fold (putEntry now id s2 e) in Hx. destruct Hs as (ob & Hs). split_and!.
  - rewrite Hs. cbn. apply lookup_delete_eq.
  - rewrite Hs. cbn. apply lookup_delete_eq.
  - rewrite Hs. cbn. rewrite lookup_insert_eq. eexists. split; [done|apply parkedNode_status].
  - exists (oe_ID e), x. split; [exact Hx|]. by rewrite Ht.
Qed.

(** The ids of the wake-up timers of a parked node. *)
Definition timerIDs (lease : TaskLease) : list string :=
  [oe_ID (SuspendResumeOutboxEntry lease "timer" None zeroTime);
   oe_ID (SuspendResumeOutboxEntry lease "timeout" None zeroTime)].

Lemma timers_other now id s lease spec k :
  k ∉ timerIDs lease ->
  outboxOf (foldl (putEntry now id) s (SuspendOutboxEntries now lease spec None now)) id !! k
  = outboxOf s id !! k.
Proof.
  unfold timerIDs. rewrite !not_elem_of_cons. intros (H1 & H2 & _). unfold SuspendOutboxEntries.
  destruct (decide (sp_Mode spec = ModeTimer)), (0 <? sp_Timeout spec); cbn [app foldl];
    unfold putEntry; rewrite ?put_other; done.
Qed.

Lemma resumeEntryID_not_timer lease id name act : resumeEntryID id name act ∉ timerIDs lease.
Proof.
  assert (H : forall kind, slash_free kind -> kind <> "signal" ->
    resumeEntryID id name act <> oe_ID (SuspendResumeOutboxEntry lease kind None zeroTime)).
  { intros kind Hk Hne E. set (t := tl_Task lease) in *.
    destruct (join_last_inj ("resume/" +:+ id +:+ "/" +:+ name +:+ "/" +:+ itoa act)
      ("resume/" +:+ t_ExecutionID t +:+ "/" +:+ t_NodeName t +:+ "/" +:+ itoa (t_ActivationID t)
         +:+ "/" +:+ tl_LeaseID lease) "signal" kind) as [_ ?]; [by apply (bool_decide_unpack _)|done| |done].
    rewrite <- !string_app_assoc. exact E. }
  unfold timerIDs. rewrite !not_elem_of_cons. split_and!; [..|apply not_elem_of_nil];
    (apply H; [by apply (bool_decide_unpack _)|done]).
Qed.

(** A signal for a parked node. *)
Lemma deliver_wakes now w s id name sig data intent spec :
  rangeOf s w -> ri_NodeName intent <> "" ->
  (forall nm sp, waitsFor s id sig nm sp -> nm = name) ->
  waitsFor s id sig name spec -> sp_Mode spec <> ModeMultiSignal ->
  DeliverSignalWithOutbox now w s id sig data intent
  = (let p := mkSignalPayload SignalReceived sig (cloneData data) None in
     (scheduleResumeOutbox now (s <| suspended ::= delete (id +:+ "/" +:+ name) |>) id name intent p,
      (name, Some p, true))).
Proof.
  intros Hr Hi Hsole Hw Hm. unfold DeliverSignalWithOutbox. rewrite decide_False by done.
  pose proof (findWaiter_range s w id sig Hr) as Hf.
  destruct (findWaiter id sig w) as [[nm sp]|]; [|by destruct (Hf name spec)].
  pose proof (Hsole nm sp Hf) as ->. destruct Hf as [Hf _], Hw as [Hw _].
  rewrite Hf in Hw. simplify_eq. by rewrite decide_False.
Qed.

Lemma schedule_wakes now s id name sig data intent n :
  let oid := resumeEntryID id name (resumeActivation s id name intent) in
  let s' := scheduleResumeOutbox now s id name intent
              (mkSignalPayload SignalReceived sig (cloneData data) None) in
  suspended s !! (id +:+ "/" +:+ name) = None -> signals s !! (id +:+ "/" +:+ sig) = None ->
  nodes s !! (id +:+ "/" +:+ name) = Some n -> ns_Status n = NodeStatusSuspended ->
  outboxOf s id !! oid = None -> wokenWith s' id name sig data.
Proof.
  intros oid s' H1 H2 H3 H4 H5. unfold s', scheduleResumeOutbox. fold oid.
  match goal with |- wokenWith (putOutboxLocked _ _ _ _ ?task ?t).1 _ _ _ _ =>
    destruct (put_fresh now s id oid task t) as (x & Hx & Ht); [done|done|];
    destruct (putOutbox_only now s id (newOutboxEntry oid task t)) as (ob & Hs);
    fold (putOutboxLocked now s id oid task t) in Hs end.
  split_and!; [by rewrite Hs..|rewrite Hs; by exists n|].
  exists oid, x. split; [exact Hx|]. by rewrite Ht.
Qed.

(** Parking without an early signal. *)
Lemma park_waits now s lease node output so po spec old :
  let id := t_ExecutionID (tl_Task lease) in
  let key := id +:+ "/" +:+ t_NodeName (tl_Task lease) in
  parks s lease node -> sp_Mode spec <> ModeMultiSignal ->
  (forall n, n ∈ sp_Signals spec -> signals s !! (id +:+ "/" +:+ n) = None) ->
  let s1 := (SuspendTaskLease now s lease output so po spec old).1 in
  suspended s1 !! key = Some spec /\ signals s1 = signals s /\
  (forall k, k <> key -> suspended s1 !! k = suspended s !! k) /\
  (exists n, nodes s1 !! key = Some n /\ ns_Status n = NodeStatusSuspended /\
     ns_ActivationID n = ns_ActivationID node) /\
  (forall k, k ∉ timerIDs lease -> outboxOf s1 id !! k = outboxOf s id !! k).
Proof.
  intros id key Hp Hmode Hno s1. unfold s1.
  pose proof (suspend_unfold now s lease output so po spec old node Hp) as E.
  cbn zeta in E. fold id in E. fold key in E. rewrite decide_False in E by done. rewrite E. clear E.
  destruct (parkPrepare_frame s key output so po old) as (F1 & F2 & F3 & F4 & F5).
  set (s2 := (parkPrepare s key output so po old).1) in *.
  rewrite (consumeFirst_nothing s2) by (by rewrite F1). cbn [fst snd].
  match goal with |- context [foldl (putEntry now id) ?x ?l] =>
    destruct (putEntries_shape now id x l) as (ob & Hs);
    pose proof (fun k => timers_other now id x lease spec k) as Ht end.
  split_and!.
  - rewrite Hs. cbn. by rewrite lookup_insert_eq.
  - rewrite Hs. done.
  - intros k Hk. rewrite Hs. cbn. rewrite lookup_insert_ne by done.
    rewrite <- (lookup_delete_ne (suspended s2) key k), F4 by done. by rewrite lookup_delete_ne.
  - rewrite Hs. cbn. rewrite lookup_insert_eq. eexists. split; [done|].
    split; [apply parkedNode_status|]. unfold parkedNode. by destruct (parkPrepare _ _ _ _ _ _).2.
  - intros k Hk. rewrite Ht by done. unfold outboxOf. cbn. by rewrite F3.
Qed.

(** ** Main results *)


(** A node of the worked execution that parks under its lease. *)
Definition demoCommitting : memoryState := (ClaimTaskLease demoLeased
  (mkTaskLease "l1" "tok" 1 (oe_Task demoEntry) 20 1000)).1.1.
Definition demoParkLease : TaskLease := mkTaskLease "l1" "tok" 1 (oe_Task demoEntry) 20 1000.
Definition demoWait : SuspendSpec := mkSuspendSpec ModeSignal ["go"] 0 0 500 [].
Definition demoIntent : ResumeIntent := mkResumeIntent "a" 0 0 0 0.


(** ** Quorum waits *)

Section quorum.
Context (ord : memoryState -> list (string * SuspendSpec)) (now : Time) (intent : ResumeIntent).
Hypothesis ord_range : forall s, rangeOf s (ord s).
Hypothesis intent_named : ri_NodeName intent <> "".

(** A sequence of deliveries to one execution, the map ranged over in any order
    each time. *)
Definition deliverSeq (id : string) (s : memoryState) (l : list (string * Data)) : memoryState :=
  foldl (fun s kv => (DeliverSignalWithOutbox now (ord s) s id kv.1 kv.2 intent).1) s l.

(** The data collected by a sequence of signals, the latest of each name. *)
Definition collected (l : list (string * Data)) : gmap string Data :=
  foldl (fun m kv => <[kv.1 := kv.2]> m) ∅ l.

(** The node is the only one of the execution that waits for these signals. *)
Record quorumWait (s : memoryState) (id name : string) (spec : SuspendSpec) : Prop := {
  qw_waits : suspended s !! (id +:+ "/" +:+ name) = Some spec;
  qw_mode : sp_Mode spec = ModeMultiSignal;
  qw_sole : forall nm sp sig, sig ∈ sp_Signals spec -> waitsFor s id sig nm sp -> nm = name;
  qw_fresh : signalSets s !! (id +:+ "/" +:+ name) = None
}.

Lemma collected_snoc l kv : collected (l ++ [kv]) = <[kv.1 := kv.2]> (collected l).
Proof. unfold collected. by rewrite foldl_app. Qed.

Lemma collected_size l kv : (size (collected l) <= size (collected (l ++ [kv])))%nat.
Proof.
  rewrite collected_snoc. destruct (collected l !! kv.1) eqn:E.
  - rewrite map_size_insert_Some; [lia|by eexists].
  - rewrite map_size_insert_None by done. lia.
Qed.

(** One delivery to a quorum wait that has collected [m] so far. *)
Lemma deliver_multi s id name spec n d m :
  suspended s !! (id +:+ "/" +:+ name) = Some spec -> sp_Mode spec = ModeMultiSignal ->
  (forall nm sp, waitsFor s id n nm sp -> nm = name) -> n ∈ sp_Signals spec ->
  default ∅ (signalSets s !! (id +:+ "/" +:+ name)) = m ->
  let all := <[n := d]> m in
  let p := mkSignalPayload SignalReceived n d (Some (cloneSignalSet all)) in
  let key := id +:+ "/" +:+ name in
  DeliverSignalWithOutbox now (ord s) s id n d intent
  = if Z.of_nat (size all) <? signalQuorum spec
    then (s <| signalSets ::= <[key := all]> |>, ("", None, false))
    else (scheduleResumeOutbox now (s <| signalSets ::= delete key |> <| suspended ::= delete key |>)
            id name intent p, (name, Some p, true)).
Proof.
  intros Hs Hm Hsole Hin Hset all p key. unfold DeliverSignalWithOutbox.
  rewrite decide_False by done. pose proof (findWaiter_range s (ord s) id n (ord_range s)) as Hf.
  destruct (findWaiter id n (ord s)) as [[nm sp]|]; [|by destruct (Hf name spec)].
  pose proof (Hsole nm sp Hf) as ->. destruct Hf as [Hf _]. fold key in Hs, Hf, Hset.
  rewrite Hf in Hs. simplify_eq. rewrite decide_True by done.
  unfold addMultiSignalLocked. fold key. fold all.
  destruct (Z.of_nat (size all) <? signalQuorum spec); [done|]. f_equal. f_equal.
  apply memoryState_ext; try done. cbn. apply delete_insert_eq.
Qed.

(** The waiting state after the signals of [l]. *)
Definition waitingAfter (s : memoryState) (key : string) (l : list (string * Data)) : memoryState :=
  match l with [] => s | _ => s <| signalSets ::= <[key := collected l]> |> end.

Lemma waitingAfter_set s key l :
  signalSets s !! key = None -> default ∅ (signalSets (waitingAfter s key l) !! key) = collected l.
Proof. intros H. destruct l; cbn; [by rewrite H|]. by rewrite lookup_insert_eq. Qed.

Lemma waitingAfter_step s key l kv :
  (waitingAfter s key l) <| signalSets ::= <[key := collected (l ++ [kv])]> |>
  = waitingAfter s key (l ++ [kv]).
Proof.
  destruct l as [|kv' l]; [done|]. apply memoryState_ext; try done. cbn. apply insert_insert_eq.
Qed.

Lemma waitingAfter_suspended s key l : suspended (waitingAfter s key l) = suspended s.
Proof. by destruct l. Qed.

Lemma deliverSeq_waiting s id name spec l :
  quorumWait s id name spec -> Forall (fun kv => kv.1 ∈ sp_Signals spec) l ->
  Z.of_nat (size (collected l)) < signalQuorum spec ->
  deliverSeq id s l = waitingAfter s (id +:+ "/" +:+ name) l.
Proof.
  intros Hq Hall. induction l as [|[n d] l IH] using rev_ind; intros Hlt; [done|].
  apply Forall_app in Hall as [Hall [Hn _]%Forall_cons]. cbn [fst] in Hn.
  pose proof (collected_size l (n, d)). unfold deliverSeq. rewrite foldl_app. cbn [foldl].
  fold (deliverSeq id s l). rewrite IH by (done || lia).
  rewrite (deliver_multi _ id name spec n d (collected l));
    [|by rewrite waitingAfter_suspended, (qw_waits _ _ _ _ Hq)|by apply (qw_mode _ _ _ _ Hq)
     | |done|apply waitingAfter_set, (qw_fresh _ _ _ _ Hq)].
  - rewrite collected_snoc in Hlt. cbn [fst snd] in Hlt.
    rewrite (proj2 (Z.ltb_lt _ _) Hlt). cbn [fst].
    rewrite <- waitingAfter_step, collected_snoc. done.
  - intros nm sp [Hw1 Hw2]. rewrite waitingAfter_suspended in Hw1. by eapply qw_sole.
Qed.

(** A node that waits for a quorum wakes at the quorum, not before and not
    after.  While fewer distinct signals than the quorum have arrived, it keeps
    waiting; the signal that completes the quorum removes the waiter and its
    collection and reports the node with the data of every signal collected, the
    latest for each name. *)
Theorem quorum_wakes s id name spec l n d :
  quorumWait s id name spec ->
  Forall (fun kv => kv.1 ∈ sp_Signals spec) (l ++ [(n, d)]) ->
  Z.of_nat (size (collected l)) < signalQuorum spec ->
  let key := id +:+ "/" +:+ name in
  let all := collected (l ++ [(n, d)]) in
  let s1 := deliverSeq id s l in
  let '(s2, result) := DeliverSignalWithOutbox now (ord s1) s1 id n d intent in
  if Z.of_nat (size all) <? signalQuorum spec
  then result = ("", None, false) /\ suspended s2 !! key = Some spec /\
       signalSets s2 !! key = Some all
  else result = (name, Some (mkSignalPayload SignalReceived n d (Some (cloneSignalSet all))), true) /\
       suspended s2 !! key = None /\ signalSets s2 !! key = None /\
       is_Some (outboxOf s2 id !! resumeEntryID id name (resumeActivation s1 id name intent)).
Proof.
  intros Hq [Hall [Hn _]%Forall_cons]%Forall_app Hlt key all s1. cbn [fst] in Hn.
  assert (E : s1 = waitingAfter s key l) by (by apply (deliverSeq_waiting s id name spec)).
  rewrite (deliver_multi s1 id name spec n d (collected l)).
  - unfold all. rewrite collected_snoc. cbn [fst snd]. fold key.
    destruct (_ <? _).
    + split_and!; [done|rewrite E; cbn; rewrite waitingAfter_suspended; exact (qw_waits _ _ _ _ Hq)|].
      cbn. by rewrite lookup_insert_eq.
    + unfold scheduleResumeOutbox.
      match goal with |- context [putOutboxLocked now ?x id ?o ?task ?t] =>
        destruct (putOutbox_only now x id (newOutboxEntry o task t)) as (ob & Hs);
        fold (putOutboxLocked now x id o task t) in Hs;
        pose proof (put_present now x id o task t) as Hpr end.
      split_and!; [done|rewrite Hs; cbn; apply lookup_delete_eq
        |rewrite Hs; cbn; apply lookup_delete_eq|by apply Hpr].
  - by rewrite E, waitingAfter_suspended, (qw_waits _ _ _ _ Hq).
  - by apply (qw_mode _ _ _ _ Hq).
  - intros nm sp [Hw1 Hw2]. rewrite E, waitingAfter_suspended in Hw1. by eapply qw_sole.
  - done.
  - rewrite E. apply waitingAfter_set, (qw_fresh _ _ _ _ Hq).
Qed.
End quorum.

Definition demoQuorum : SuspendSpec := mkSuspendSpec ModeMultiSignal ["x"; "y"] 0 0 0 [].
Definition demoQuorumWait : memoryState :=
  newMemoryState false <| suspended := {["e1/a" := demoQuorum]} |>.
Definition rangeOrder (s : memoryState) : list (string * SuspendSpec) := map_to_list (suspended s).

Lemma demoQuorumWait_sole nm sp sig : waitsFor demoQuorumWait "e1" sig nm sp -> nm = "a".
Proof.
  intros [H _]. cbn in H. apply lookup_singleton_Some in H as [H _].
  by apply (sigKey_inj "e1" "a" nm) in H.
Qed.

Lemma quorum_wakes_witness :
  let s1 := deliverSeq rangeOrder 7 demoIntent "e1" demoQuorumWait [("x", None)] in
  (DeliverSignalWithOutbox 7 (rangeOrder s1) s1 "e1" "y" None demoIntent).2
  = ("a", Some (mkSignalPayload SignalReceived "y" None
                  (Some (cloneSignalSet (collected ([("x", None)] ++ [("y", None)]))))), true).
Proof.
  intros s1.
  pose proof (quorum_wakes rangeOrder 7 demoIntent (fun s => reflexivity _) ltac:(done)
    demoQuorumWait "e1" "a" demoQuorum [("x", None)] "y" None) as H.
  cbn zeta in H. fold s1 in H.
  destruct (DeliverSignalWithOutbox 7 (rangeOrder s1) s1 "e1" "y" None demoIntent) as [s2 result].
  apply H.
  - split; [by vm_compute|done|by intros nm sp sig _ ?%demoQuorumWait_sole|by vm_compute].
  - repeat constructor; cbn; set_solver.
  - by vm_compute.
Defined.

(** A resume intent is named by node and activation only.  When one is still in
    the outbox (the node was woken, ran and parked again before the delivery was
    acknowledged), the next signal is reported as delivered and takes the waiter
    away, but no intent is written: the outbox is unchanged and the signal is not
    stored either, so its data is nowhere and no later signal finds a waiter. *)
Theorem signal_dropped_behind_pending_resume now w s id name sig data intent spec x :
  rangeOf s w -> ri_NodeName intent <> "" ->
  (forall nm sp, waitsFor s id sig nm sp -> nm = name) ->
  waitsFor s id sig name spec -> sp_Mode spec <> ModeMultiSignal ->
  outboxOf s id !! resumeEntryID id name (resumeActivation s id name intent) = Some x ->
  DeliverSignalWithOutbox now w s id sig data intent
  = (s <| suspended ::= delete (id +:+ "/" +:+ name) |>,
     (name, Some (mkSignalPayload SignalReceived sig (cloneData data) None), true)).
Proof.
  intros Hr Hi Hsole Hw Hm Hx. rewrite (deliver_wakes now w s id name sig data intent spec) by done.
  cbn zeta. unfold scheduleResumeOutbox, putOutboxLocked, putOutboxEntryLocked.
  set (s1 := s <| suspended ::= delete (id +:+ "/" +:+ name) |>).
  change (resumeActivation s1 id name intent) with (resumeActivation s id name intent).
  cbn [newOutboxEntry oe_ID]. rewrite decide_False by done.
  change (outboxOf s1 id) with (outboxOf s id). cbn zeta. by rewrite Hx.
Qed.

(** A node woken once, its resume still in the outbox, that parked again. *)
Definition demoReparked : memoryState :=
  newMemoryState false <| suspended := {["e1/a" := demoWait]} |>
    <| outbox := {["e1" := {[resumeEntryID "e1" "a" 0 := mkStored demoEntry zeroTime None]}]} |>.

Lemma signal_dropped_behind_pending_resume_witness :
  let s' := (DeliverSignalWithOutbox 7 (rangeOrder demoReparked) demoReparked "e1" "go" None
               demoIntent).1 in
  s' = demoReparked <| suspended ::= delete ("e1" +:+ "/" +:+ "a") |>.
Proof.
  intros s'. unfold s'.
  rewrite (signal_dropped_behind_pending_resume 7 (rangeOrder demoReparked) demoReparked "e1" "a"
    "go" None demoIntent demoWait (mkStored demoEntry zeroTime None)); try done.
  - unfold rangeOf, rangeOrder. reflexivity.
  - intros nm sp [H _]. cbn in H. apply lookup_singleton_Some in H as [H _].
    by apply (sigKey_inj "e1" "a" nm) in H.
  - split; [by vm_compute|]. by apply list_elem_of_singleton.
Defined.

(** Any waiter can come first in the range. *)
Lemma waiter_first s id sig name spec :
  waitsFor s id sig name spec ->
  exists w, rangeOf s w /\ findWaiter id sig w = Some (name, spec).
Proof.
  intros [Hs Hin]. apply elem_of_map_to_list in Hs. apply elem_of_Permutation in Hs as (l & Hl).
  exists ((id +:+ "/" +:+ name, spec) :: l). split; [unfold rangeOf; by symmetry|]. cbn [findWaiter].
  rewrite (proj2 (cutPrefix_key id _ name) eq_refl). by rewrite bool_decide_eq_true_2.
Qed.

(** Two waiters for one signal can be mixed up.  Peeking for the node to wake
    and delivering the signal range over the waiters separately; when two nodes
    wait for the signal there are range orders in which the intent is built for
    one of them and the other is woken.  The stored resume then names the woken
    node but addresses the graph node and unit of the other one. *)
Theorem resume_may_be_misaddressed now s id sig na nb spa spb data intent :
  waitsFor s id sig na spa -> waitsFor s id sig nb spb -> na <> "" ->
  sp_Mode spb <> ModeMultiSignal -> ri_NodeName intent = na ->
  let oid := resumeEntryID id nb (resumeActivation s id nb intent) in
  outboxOf s id !! oid = None ->
  exists w1 w2 x, rangeOf s w1 /\ rangeOf s w2 /\ PeekResumeTarget w1 id sig = na /\
    outboxOf (DeliverSignalWithOutbox now w2 s id sig data intent).1 id !! oid = Some x /\
    t_NodeName (oe_Task (ob_entry x)) = nb /\
    t_NodeIdx (oe_Task (ob_entry x)) = ri_NodeIdx intent /\
    t_UnitIdx (oe_Task (ob_entry x)) = ri_UnitIdx intent.
Proof.
  intros Ha Hb Hne Hm Hi oid Hno.
  destruct (waiter_first s id sig na spa Ha) as (w1 & Hr1 & F1).
  destruct (waiter_first s id sig nb spb Hb) as (w2 & Hr2 & F2).
  exists w1, w2. unfold PeekResumeTarget, DeliverSignalWithOutbox. rewrite F1, F2.
  rewrite !decide_False by congruence. cbn [fst]. unfold scheduleResumeOutbox.
  match goal with |- context [putOutboxLocked now ?s1 id ?o ?task ?t] =>
    destruct (put_fresh now s1 id oid task t) as (x & Hx & Ht); [done|exact Hno|] end.
  exists x. split_and!; try done; by rewrite Ht.
Qed.

Lemma resume_may_be_misaddressed_witness :
  let s := newMemoryState false <| suspended := {["e1/a" := demoWait; "e1/b" := demoWait]} |> in
  exists w2 x,
    outboxOf (DeliverSignalWithOutbox 7 w2 s "e1" "go" None (mkResumeIntent "a" 1 1 0 0)).1 "e1"
      !! resumeEntryID "e1" "b" 0 = Some x /\
    t_NodeName (oe_Task (ob_entry x)) = "b" /\ t_NodeIdx (oe_Task (ob_entry x)) = 1.
Proof.
  intros s.
  destruct (resume_may_be_misaddressed 7 s "e1" "go" "a" "b" demoWait demoWait None
    (mkResumeIntent "a" 1 1 0 0)) as (w1 & w2 & x & _ & _ & _ & H1 & H2 & H3 & _);
    [split; [by vm_compute|by apply list_elem_of_singleton]..|done|done|done|by vm_compute|].
  by exists w2, x.
Defined.
