(* ===== verification/Records.v ===== *)
(** * Outputs, children and keyed submissions

    The remaining records of the memory backend: node outputs
    ([memory_state.go]), batch expansion ([expand_state.go]), sub-workflow links
    and conclusions ([subworkflow_state.go]) and idempotency claims
    ([idempotency.go]).  [None] as an operation's answer is
    [ErrInvalidLeaseToken]. *)

From S2P Require Import Prelude Keys Types Graph State Slots Executions Outbox Lease Commit Signals.

(** ** Outputs *)

Definition PutOutput (s : memoryState) (id name : string) (data : Data) : memoryState :=
  let key := id +:+ "/" +:+ name in
  let s := (preserveOutputPrivacyLocked s key false).1 in
  s <| outputs ::= <[key := data]> |>.

Definition GetOutput (s : memoryState) (id name : string) : Data :=
  default None (outputs s !! (id +:+ "/" +:+ name)).

Definition GetOutputs (s : memoryState) (id : string) (names : list string) : gmap string Data :=
  foldl (fun m name => match outputs s !! (id +:+ "/" +:+ name) with
                       | Some data => <[name := data]> m
                       | None => m
                       end) ∅ names.

(** The public outputs of an execution, by node name. *)
Definition publicOutput (s : memoryState) (id : string) (kv : string * Data)
    : option (string * Data) :=
  match cutPrefix (id +:+ "/") kv.1 with
  | Some name => if outputIsPrivateLocked s kv.1 then None else Some (name, kv.2)
  | None => None
  end.

Definition GetAllOutputs (s : memoryState) (id : string) : gmap string Data :=
  list_to_map (omap (publicOutput s id) (map_to_list (outputs s))).

(** ** Sub-executions *)

Definition CreateSubExecution (s : memoryState) (sub : SubExecution) : memoryState :=
  let key := sub_ParentExecID sub +:+ "/" +:+ sub_ParentNode sub in
  s <| subExecs ::= fun m => <[key := default [] (m !! key) ++ [sub]]> m |>.

(** Whether every child is done. *)
Definition allTerminal (subs : list SubExecution) : bool :=
  forallb (fun sub => IsTerminalExecutionStatus (sub_Status sub)) subs.

Definition CompleteSubExecution (s : memoryState) (parentExecID parentNode childExecID : string)
    (st : ExecutionStatus) (result : Data) : memoryState * bool :=
  let key := parentExecID +:+ "/" +:+ parentNode in
  let subs := (fun sub => if decide (sub_ChildExecID sub = childExecID)
                          then sub <| sub_Status := st |> <| sub_Result := result |> else sub)
              <$> default [] (subExecs s !! key) in
  (match subExecs s !! key with
   | Some _ => s <| subExecs ::= <[key := subs]> |>
   | None => s
   end, allTerminal subs).

Definition presentResults (subs : list SubExecution) : list Data :=
  omap (fun sub => match sub_Result sub with Some m => Some (Some m) | None => None end) subs.

Definition GetSubExecutionResults (s : memoryState) (parentExecID parentNode : string)
    : list Data :=
  presentResults (default [] (subExecs s !! (parentExecID +:+ "/" +:+ parentNode))).

(** ** Batch expansion *)

Definition matchesExpansionLease (node : option NodeSnapshot) (lease : TaskLease)
    (st : NodeStatus) : bool :=
  match node with
  | None => false
  | Some n =>
      bool_decide (ns_Status n = st) && bool_decide (ns_LeaseID n = tl_LeaseID lease) &&
      bool_decide (ns_LeaseToken n = tl_LeaseToken lease) &&
      (ns_Attempt n =? tl_Attempt lease) && (ns_ActivationID n =? t_ActivationID (tl_Task lease))
  end.

Definition leaseNodeKey (lease : TaskLease) : string :=
  memoryNodeKey (t_ExecutionID (tl_Task lease)) (t_NodeName (tl_Task lease)).

Definition expansionSubExecutionKey (lease : TaskLease) : string :=
  t_ExecutionID (tl_Task lease) +:+ "/" +:+ t_NodeName (tl_Task lease) +:+ "/" +:+ tl_LeaseID lease.

(** The record of a node that waits for its children. *)
Definition setWaiting (s : memoryState) (key : string) : memoryState :=
  s <| nodes ::= alter (fun n => n <| ns_Status := NodeStatusWaiting |>) key |>.

Definition startChild (now : Time) (id key : string) (s : memoryState)
    (ce : SubExecution * OutboxEntry) : memoryState :=
  let child := ce.1 <| sub_Result ::= cloneData |> in
  let s := s <| subExecs ::= fun m => <[key := default [] (m !! key) ++ [child]]> m |> in
  putEntry now id s ce.2.

Definition validChild (lease : TaskLease) (ce : SubExecution * OutboxEntry) : bool :=
  bool_decide (sub_ChildExecID ce.1 <> "") &&
  bool_decide (sub_ParentExecID ce.1 = t_ExecutionID (tl_Task lease)) &&
  bool_decide (sub_ParentNode ce.1 = t_NodeName (tl_Task lease)) &&
  bool_decide (oe_ID ce.2 <> "").

Definition BeginTaskExpansionWithOutbox (now : Time) (s : memoryState) (lease : TaskLease)
    (children : list SubExecution) (entries : list OutboxEntry) : memoryState * option bool :=
  if negb (length children =? length entries)%nat then (s, None)
  else
    let key := leaseNodeKey lease in
    if negb (matchesExpansionLease (nodes s !! key) lease NodeStatusCommitting)
    then (s, Some false)
    else if negb (forallb (validChild lease) (zip children entries)) then (s, None)
    else
      let s := setWaiting s key in
      (foldl (startChild now (t_ExecutionID (tl_Task lease)) (expansionSubExecutionKey lease)) s
         (zip children entries), Some true).

Definition BeginTaskExpansion (s : memoryState) (lease : TaskLease) : memoryState * bool :=
  let key := leaseNodeKey lease in
  if negb (matchesExpansionLease (nodes s !! key) lease NodeStatusCommitting) then (s, false)
  else (setWaiting s key, true).

Definition CreateExpandedSubExecution (s : memoryState) (lease : TaskLease) (sub : SubExecution)
    : memoryState * option bool :=
  if decide (sub_ChildExecID sub = "") then (s, None)
  else if negb (matchesExpansionLease (nodes s !! leaseNodeKey lease) lease NodeStatusWaiting)
  then (s, Some false)
  else
    let key := expansionSubExecutionKey lease in
    let subs := default [] (subExecs s !! key) in
    if existsb (fun e => bool_decide (sub_ChildExecID e = sub_ChildExecID sub)) subs
    then (s, Some true)
    else (s <| subExecs ::= <[key := subs ++ [sub <| sub_Result ::= cloneData |>]]> |>, Some true).

(** The first child of that id, when it still runs, gets its status and
    result; [None] is no such child. *)
Fixpoint settleChild (childExecID : string) (st : ExecutionStatus) (result : Data)
    (subs : list SubExecution) : option (list SubExecution) :=
  match subs with
  | [] => None
  | sub :: subs =>
      if decide (sub_ChildExecID sub <> childExecID)
      then cons sub <$> settleChild childExecID st result subs
      else Some ((if decide (sub_Status sub = ExecutionStatusRunning)
                  then sub <| sub_Status := st |> <| sub_Result := cloneData result |>
                  else sub) :: subs)
  end.

Definition batchLe (a b : SubExecution) : Prop := sub_BatchIndex a <= sub_BatchIndex b.
#[export] Instance batchLe_dec : RelDecision batchLe.
Proof. intros a b. unfold batchLe. apply _. Defined.

Definition expansionResults (subs : list SubExecution) : list Data :=
  presentResults (merge_sort batchLe subs).

(** The answer says whether all children are done, whether the report was
    accepted, and the results when all are done. *)
Definition CompleteExpandedSubExecution (s : memoryState) (lease : TaskLease)
    (childExecID : string) (st : ExecutionStatus) (result : Data)
    : memoryState * option (bool * bool * list Data) :=
  if decide (childExecID = "") then (s, None)
  else if negb (matchesExpansionLease (nodes s !! leaseNodeKey lease) lease NodeStatusWaiting)
  then (s, Some (false, false, []))
  else
    let key := expansionSubExecutionKey lease in
    match settleChild childExecID st result (default [] (subExecs s !! key)) with
    | None => (s, Some (false, false, []))
    | Some subs =>
        let s := s <| subExecs ::= <[key := subs]> |> in
        if allTerminal subs then (s, Some (true, true, expansionResults subs))
        else (s, Some (false, true, []))
    end.

(** ** Sub-workflows *)

Definition matchesSubWorkflowLease (node : option NodeSnapshot) (lease : TaskLease) : bool :=
  match node with
  | None => false
  | Some n =>
      (bool_decide (ns_Status n = NodeStatusRunning) ||
       bool_decide (ns_Status n = NodeStatusCommitting)) &&
      bool_decide (ns_LeaseID n = tl_LeaseID lease) &&
      bool_decide (ns_LeaseToken n = tl_LeaseToken lease) &&
      (ns_Attempt n =? tl_Attempt lease) && (ns_ActivationID n =? t_ActivationID (tl_Task lease))
  end.

Definition BeginSubWorkflowWait (now : Time) (s : memoryState) (lease : TaskLease)
    (link : SubWorkflowLink) (entries : list OutboxEntry) : memoryState * option bool :=
  if bool_decide (lk_ChildExecutionID link = "") ||
     bool_decide (lk_ParentNode link <> t_NodeName (tl_Task lease)) then (s, None)
  else if existsb (fun e => bool_decide (oe_ID e = "")) entries then (s, None)
  else
    let key := leaseNodeKey lease in
    if negb (matchesSubWorkflowLease (nodes s !! key) lease) then (s, Some false)
    else
      let s := s <| nodes ::= alter (fun n => n <| ns_Status := NodeStatusWaiting |>
                    <| ns_ChildExecutionID := lk_ChildExecutionID link |>) key |> in
      let s := s <| subWorkflowLinks ::= <[key := link]> |> in
      (foldl (putEntry now (t_ExecutionID (tl_Task lease))) s entries, Some true).

Definition GetSubWorkflowLink (s : memoryState) (id nodeName : string) : option SubWorkflowLink :=
  subWorkflowLinks s !! memoryNodeKey id nodeName.

Definition subWorkflowConclusionKey (parentID nodeName childID : string) : string :=
  memoryNodeKey parentID nodeName +:+ "/" +:+ childID.

Definition cloneConclusion (c : SubWorkflowConclusion) : SubWorkflowConclusion :=
  mkConclusion (cc_ChildExecutionID c) (cc_Status c) (cc_Error c) (cloneData (cc_Output c)).

Definition RecordSubWorkflowConclusion (s : memoryState) (parentID nodeName : string)
    (c : SubWorkflowConclusion) : memoryState * option unit :=
  if bool_decide (cc_ChildExecutionID c = "") || bool_decide (nodeName = "") then (s, None)
  else (s <| subWorkflowConclusions ::=
             <[subWorkflowConclusionKey parentID nodeName (cc_ChildExecutionID c) :=
               cloneConclusion c]> |>, Some tt).

Definition GetSubWorkflowConclusion (s : memoryState) (parentID nodeName childID : string)
    : option SubWorkflowConclusion :=
  cloneConclusion <$> subWorkflowConclusions s !! subWorkflowConclusionKey parentID nodeName childID.

(** ** Keyed submissions *)

Inductive IdempotencyClaimState : Type :=
| IdempotencyClaimAccepted
| IdempotencyClaimTakeover
| IdempotencyClaimDuplicate
| IdempotencyClaimConflict
| IdempotencyClaimInProgress.

Record IdempotencyClaimRequest : Type := mkClaimRequest {
  cr_ExecutionID : string;
  cr_Fingerprint : string;
  cr_TTL : Duration;
  cr_Lease : Duration;
  cr_Token : string
}.

Record IdempotencyClaim : Type := mkClaimAnswer {
  ca_State : IdempotencyClaimState;
  ca_Status : option ExecutionStatus
}.

Definition putIdempotencyClaimLocked (s : memoryState) (req : IdempotencyClaimRequest) (now : Time)
    : memoryState :=
  let claim := mkClaim (cr_Fingerprint req) (cr_Token req) false (Add now (cr_Lease req))
                 (if 0 <? cr_TTL req then Add now (cr_TTL req) else zeroTime) in
  s <| idempotency ::= <[cr_ExecutionID req := claim]> |>.

(** A claim past its expiry is treated as absent. *)
Definition claimExpired (now : Time) (c : idempotencyClaim) : bool :=
  negb (IsZero (cl_expiresAt c)) && negb (Before now (cl_expiresAt c)).

Definition ClaimIdempotency (now : Time) (s : memoryState) (req : IdempotencyClaimRequest)
    : memoryState * IdempotencyClaim :=
  let id := cr_ExecutionID req in
  let '(s, existing) :=
    match idempotency s !! id with
    | Some c => if claimExpired now c then (s <| idempotency ::= delete id |>, None) else (s, Some c)
    | None => (s, None)
    end in
  let st := (fun e => status e) <$> executions s !! id in
  let created := isSome (executions s !! id) in
  match existing with
  | None =>
      if created then (s, mkClaimAnswer IdempotencyClaimDuplicate st)
      else (putIdempotencyClaimLocked s req now, mkClaimAnswer IdempotencyClaimAccepted None)
  | Some c =>
      if decide (cl_fingerprint c <> cr_Fingerprint req)
      then (s, mkClaimAnswer IdempotencyClaimConflict None)
      else if cl_confirmed c || created then (s, mkClaimAnswer IdempotencyClaimDuplicate st)
      else if Before now (cl_leaseUntil c) then (s, mkClaimAnswer IdempotencyClaimInProgress None)
      else (putIdempotencyClaimLocked s req now, mkClaimAnswer IdempotencyClaimTakeover None)
  end.

Definition ConfirmIdempotency (s : memoryState) (id token : string) : memoryState :=
  match idempotency s !! id with
  | Some c => if decide (cl_token c = token)
              then s <| idempotency ::= <[id := c <| cl_confirmed := true |>]> |> else s
  | None => s
  end.

Definition ReleaseIdempotency (s : memoryState) (id token : string) : memoryState :=
  match idempotency s !! id with
  | Some c => if bool_decide (cl_token c = token) && negb (cl_confirmed c)
              then s <| idempotency ::= delete id |> else s
  | None => s
  end.

#[global] Arguments ClaimIdempotency : simpl never.
#[global] Arguments startChild : simpl never.

(** ** One creator per key *)

(** The claim lets its requester go on and create the execution. *)
Definition grants (a : IdempotencyClaim) : bool :=
  match ca_State a with
  | IdempotencyClaimAccepted | IdempotencyClaimTakeover => true
  | _ => false
  end.

(** Claims, confirmations and releases of any requests by others than the holder
    of [token], before the instant [t]. *)
Inductive rival_step (token : string) (t : Time) : memoryState -> memoryState -> Prop :=
| ri_claim s now req : now < t -> rival_step token t s (ClaimIdempotency now s req).1
| ri_confirm s id tok : rival_step token t s (ConfirmIdempotency s id tok)
| ri_release s id tok : tok <> token -> rival_step token t s (ReleaseIdempotency s id tok)
| ri_other s s' : idempotency s' = idempotency s -> rival_step token t s s'.

(** The token holds the claim on [id] at least until [t]. *)
Definition claimHeld (token : string) (t : Time) (id : string) (s : memoryState) : Prop :=
  exists c, idempotency s !! id = Some c /\ cl_token c = token /\ t <= cl_leaseUntil c /\
    (cl_expiresAt c = zeroTime \/ t <= cl_expiresAt c).

Lemma held_not_expired now t (c : idempotencyClaim) :
  now < t -> cl_expiresAt c = zeroTime \/ t <= cl_expiresAt c -> claimExpired now c = false.
Proof.
  intros Hn [E|E]; unfold claimExpired, IsZero, Before; [by rewrite E|].
  destruct (Z.ltb_spec now (cl_expiresAt c)); [by rewrite andb_false_r|lia].
Qed.

Lemma held_claim now t token id s req :
  now < t -> claimHeld token t id s -> cr_ExecutionID req = id ->
  (ClaimIdempotency now s req).1 = s /\ grants (ClaimIdempotency now s req).2 = false.
Proof.
  intros Hn (c & Hc & _ & Hl & He) Hid. unfold ClaimIdempotency. rewrite Hid, Hc.
  rewrite (held_not_expired now t c Hn He). case_decide; [done|].
  destruct (_ || _); [done|]. unfold Before.
  by destruct (Z.ltb_spec now (cl_leaseUntil c)); [|lia].
Qed.

(** Claims of other ids leave this one alone. *)
Lemma other_claim now id s req :
  cr_ExecutionID req <> id -> idempotency (ClaimIdempotency now s req).1 !! id = idempotency s !! id.
Proof.
  intros Hid. unfold ClaimIdempotency.
  destruct (idempotency s !! cr_ExecutionID req) as [c|]; [destruct (claimExpired now c)|];
    cbn; repeat case_match; cbn; rewrite ?lookup_insert_ne, ?lookup_delete_ne by done; done.
Qed.

Lemma rival_held token t id s s' : rival_step token t s s' -> claimHeld token t id s -> claimHeld token t id s'.
Proof.
  intros Hstep Hh. destruct Hstep as [s now req Hn|s id' tok|s id' tok Hne|s s' E].
  - destruct (decide (cr_ExecutionID req = id)) as [Hid|Hid].
    + by destruct (held_claim now t token id s req Hn Hh Hid) as [-> _].
    + unfold claimHeld. by rewrite other_claim.
  - unfold ConfirmIdempotency. destruct (idempotency s !! id') as [c'|] eqn:E; [|done].
    case_decide; [|done]. destruct Hh as (c & Hc & Ht & Hl & He). unfold claimHeld. cbn.
    destruct (decide (id = id')) as [->|]; [|rewrite lookup_insert_ne by done; by exists c].
    rewrite lookup_insert_eq. eexists. split; [done|]. by simplify_eq.
  - unfold ReleaseIdempotency. destruct (idempotency s !! id') as [c'|] eqn:E; [|done].
    destruct (bool_decide _ && _) eqn:Hb; [|done]. destruct Hh as (c & Hc & Ht & Hl & He).
    apply andb_true_iff in Hb as [Hb%bool_decide_eq_true _]. exists c. cbn.
    rewrite lookup_delete_ne; [done|]. intros ->. rewrite E in Hc. simplify_eq.
  - unfold claimHeld. by rewrite E.
Qed.

Lemma rivals_held token t id s s' :
  rtc (rival_step token t) s s' -> claimHeld token t id s -> claimHeld token t id s'.
Proof. induction 1; eauto using rival_held. Qed.

Lemma granted_held now s req :
  grants (ClaimIdempotency now s req).2 = true ->
  idempotency (ClaimIdempotency now s req).1 !! cr_ExecutionID req
  = Some (mkClaim (cr_Fingerprint req) (cr_Token req) false (Add now (cr_Lease req))
            (if 0 <? cr_TTL req then Add now (cr_TTL req) else zeroTime)).
Proof.
  unfold ClaimIdempotency.
  assert (Hput : forall s0, idempotency (putIdempotencyClaimLocked s0 req now) !! cr_ExecutionID req
    = Some (mkClaim (cr_Fingerprint req) (cr_Token req) false (Add now (cr_Lease req))
              (if 0 <? cr_TTL req then Add now (cr_TTL req) else zeroTime)))
    by (intros s0; apply lookup_insert_eq).
  destruct (idempotency s !! cr_ExecutionID req) as [c|]; [destruct (claimExpired now c)|];
    cbn [fst snd]; destruct (isSome _); try done; try (intros _; apply Hput).
  - by case_decide; rewrite ?orb_true_r.
  - case_decide; [done|]. rewrite orb_false_r. destruct (cl_confirmed c); [done|].
    destruct (Before now (cl_leaseUntil c)); [done|]. intros _. apply Hput.
Qed.

(** A key creates its execution once.  When a request is granted a key
    (accepted, or taken over from a dead request), then until its lease or the
    claim's lifetime runs out no other request is granted the key, whatever
    rivals claim, confirm or release meanwhile; and as soon as the execution
    exists, no request is ever granted the key, at any time and in any store. *)
Theorem keyed_submission_once now s req t s2 now' req' :
  grants (ClaimIdempotency now s req).2 = true ->
  t <= Add now (cr_Lease req) -> (0 < cr_TTL req -> t <= Add now (cr_TTL req)) ->
  rtc (rival_step (cr_Token req) t) (ClaimIdempotency now s req).1 s2 ->
  cr_ExecutionID req' = cr_ExecutionID req ->
  (now' < t -> grants (ClaimIdempotency now' s2 req').2 = false) /\
  (is_Some (executions s2 !! cr_ExecutionID req) ->
   forall later, grants (ClaimIdempotency later s2 req').2 = false).
Proof.
  intros Hg Hl Ht Hsteps Hid. split.
  - intros Hn. assert (Hh : claimHeld (cr_Token req) t (cr_ExecutionID req) s2).
    { apply (rivals_held _ _ _ _ _ Hsteps). apply granted_held in Hg. eexists. split; [exact Hg|].
      cbn. split_and!; [done|done|]. destruct (Z.ltb_spec 0 (cr_TTL req)); [right; auto|by left]. }
    by apply (held_claim now' t (cr_Token req) (cr_ExecutionID req) s2 req').
  - intros [e He] later. unfold ClaimIdempotency. rewrite Hid.
    destruct (idempotency s2 !! cr_ExecutionID req) as [c|]; [destruct (claimExpired later c)|];
      cbn; rewrite He; cbn; try done.
    case_decide; [done|]. by rewrite orb_true_r.
Qed.

Definition demoClaim : IdempotencyClaimRequest := mkClaimRequest "e1" "fp" 1000 50 "tok1".
Definition rivalClaim : IdempotencyClaimRequest := mkClaimRequest "e1" "fp" 1000 50 "tok2".

Lemma keyed_submission_once_witness :
  grants (ClaimIdempotency 140 (ClaimIdempotency 120 (ClaimIdempotency 100 (newMemoryState false)
    demoClaim).1 rivalClaim).1 rivalClaim).2 = false.
Proof.
  refine (proj1 (keyed_submission_once 100 (newMemoryState false) demoClaim 150 _ 140 rivalClaim
    _ _ _ _ _) _); try (by vm_compute).
Defined.
