(* ===== verification/Seeding.v ===== *)
(** * Seeded executions

    Executions that do not start at the roots of their graph:
    [src/backend/providers/local/execution_seed.go] creates one around units
    that are already resolved (a rerun), and
    [src/backend/providers/local/entry_admission.go] creates one from the result
    of an entry unit a trigger ran, once per admission key.

    As for the submissions of [Executions], the definitions model the locked
    bodies; what follows the durable insert is [releaseInitialMirrorHold]. *)

From S2P Require Import Prelude Keys Types Graph Units State Slots Executions Outbox Lease Commit Groups.

(** ** Reruns *)

Record SeedUnit : Type := mkSeedUnit {
  su_UnitIdx : Z;
  su_NodeName : string;
  su_NodeIdx : Z;
  su_Status : NodeStatus;
  su_Port : string;
  su_Output : Data;
  su_PrivateOutput : bool;
  su_Downstream : list DownstreamArrival
}.

Record SeedExecutionRequest : Type := mkSeedRequest {
  sq_Execution : option ExecutionSnapshot;
  sq_Units : list SeedUnit;
  sq_Entries : list OutboxEntry;
  sq_Admission : option ConcurrencyAdmission
}.

Record SeedExecutionResponse : Type := mkSeedResponse {
  sp_Queued : bool;
  sp_QueuePosition : Z;
  sp_Skipped : list SkippedUnit
}.

Inductive SeedError : Type :=
| SeedNoSnapshot
| SeedUnitUnresolved (name : string)
| SeedRefused (err : AdmissionError).

Abbreviation seedScheduledMarker := "seed".

Definition seedable (st : NodeStatus) : bool :=
  match st with NodeStatusSuccess | NodeStatusSkipped => true | _ => false end.

(** The optional slot decision; no policy is "start running". *)
Definition admitSeed (sha256hex : string -> string) (now : Time) (s : memoryState) (id : string)
    (admission : option ConcurrencyAdmission) : memoryState * (AdmissionError + bool) :=
  match admission with
  | None => (s, inr false)
  | Some a => chargeOrParkLocked sha256hex now s id a
  end.

(** One resolved unit: its terminal record, its output and its marker. *)
Definition recordSeedUnit (id : string) (s : memoryState) (unit : SeedUnit) : memoryState :=
  let key := memoryNodeKey id (su_NodeName unit) in
  let '(s, privateOutput) := preserveOutputPrivacyLocked s key (su_PrivateOutput unit) in
  let node := zeroNodeSnapshot <| ns_ExecutionID := id |> <| ns_Name := su_NodeName unit |>
    <| ns_NodeIdx := su_NodeIdx unit |> <| ns_UnitIdx := su_UnitIdx unit |>
    <| ns_Status := su_Status unit |> <| ns_Port := su_Port unit |>
    <| ns_PrivateOutput := privateOutput |> in
  let node := if negb privateOutput then node <| ns_Output := cloneData (su_Output unit) |>
              else node in
  s <| nodes ::= <[key := node]> |> <| outputs ::= <[key := cloneData (su_Output unit)]> |>
    <| scheduled ::= <[memoryCounterKey id (su_UnitIdx unit) := seedScheduledMarker]> |>.

(** The arrivals of one resolved unit; the skips are collected. *)
Definition seedArrivals (now : Time) (id : string) (acc : memoryState * list SkippedUnit)
    (unit : SeedUnit) : memoryState * list SkippedUnit :=
  let '(s, skipped) := acc in
  let '(s, (_, more)) := applyGroupDownstreamLocked now s id (su_Downstream unit) in
  (s, skipped ++ more).

Definition acyclicGraph (g : option Graph) : bool :=
  match g with Some g => negb (g_allowCycles g) | None => false end.

(** An execution with nothing left to run completes at once. *)
Definition completeSeed (now : Time) (s : memoryState) (id : string) (g : option Graph)
    : memoryState :=
  if acyclicGraph g then
    match executions s !! id with
    | Some entry =>
        if counter (remaining s) id <=? 0 then
          let st := if 0 <? counter (failed s) id
                    then ExecutionStatusFailed else ExecutionStatusSuccess in
          finishExecutionLocked now s id entry st ""
        else s
    | None => s
    end
  else s.

(** The ready work waits while the durable insert is in flight. *)
Definition holdWhilePending (s : memoryState) (id : string) : memoryState :=
  if decide (id ∈ mirrorCreatePending s) then
    match executions s !! id with
    | Some entry => if IsTerminalExecutionStatus (status entry) then s else holdOutboxLocked s id
    | None => s
    end
  else s.

(** Everything a seed writes once the execution exists: the resolved units,
    their arrivals, the intents, and whether the seed already completes it. *)
Definition placeSeed (now : Time) (s : memoryState) (e : ExecutionSnapshot)
    (req : SeedExecutionRequest) : memoryState * SeedExecutionResponse :=
  let id := ex_ID e in
  let s := foldl (recordSeedUnit id) s (sq_Units req) in
  let s := if acyclicGraph (ex_Graph e)
           then s <| remaining ::= fun m =>
                  <[id := counter m id - Z.of_nat (length (sq_Units req))]> m |>
           else s in
  let '(s, skipped) := foldl (seedArrivals now id) (s, []) (sq_Units req) in
  let s := writeInitialIntentsLocked now s id (sq_Entries req) zeroTime in
  let s := completeSeed now s id (ex_Graph e) in
  let position :=
    match executions s !! id with
    | Some entry => if decide (status entry = ExecutionStatusQueued)
                    then queuePositionLocked s id else 0
    | None => 0
    end in
  let s := if 0 <? position then holdOutboxLocked s id else s in
  (holdWhilePending s id, mkSeedResponse (0 <? position) position skipped).

Definition seedExecution (sha256hex : string -> string) (hint : bool) (now : Time)
    (s : memoryState) (req : SeedExecutionRequest)
    : memoryState * (SeedError + SeedExecutionResponse) :=
  match sq_Execution req with
  | None => (s, inl SeedNoSnapshot)
  | Some e =>
      match find (fun u => negb (seedable (su_Status u))) (sq_Units req) with
      | Some u => (s, inl (SeedUnitUnresolved (su_NodeName u)))
      | None =>
          let id := ex_ID e in
          match admitSeed sha256hex now s id (sq_Admission req) with
          | (s, inl err) => (s, inl (SeedRefused err))
          | (s, inr pending) =>
              let admitted := e <| ex_Status := if pending : bool then ExecutionStatusQueued
                                                else ExecutionStatusRunning |> in
              let s := noteMirrorModeLocked hint s admitted in
              let s := (markMirrorCreatePendingLocked s id).1 in
              let s := createExecutionLocked now s admitted in
              let '(s, resp) := placeSeed now s e req in (s, inr resp)
          end
      end
  end.

(** ** Entry admissions *)

Inductive AdmissionState : Type :=
| AdmissionStateAccepted
| AdmissionStateConflict
| AdmissionStateOverLimit
| AdmissionStateQueueFull.

#[export] Instance AdmissionState_eq_dec : EqDecision AdmissionState.
Proof. solve_decision. Defined.

(** The fields of the request the store reads; the generation and the replica
    are fenced before, the trace and the runtime are projected after. *)
Record SeedExecutionFromEntryRequest : Type := mkEntryRequest {
  er_AdmissionKey : string;
  er_Namespace : string;
  er_WorkflowID : string;
  er_WorkflowVersion : string;
  er_DefinitionHash : string;
  er_EntryUnitIdx : Z;
  er_Graph : option Graph;
  er_Outcome : GroupOutcome;
  er_Exits : list GroupExitResult;
  er_Error : string;
  er_ResultHash : string;
  er_Downstream : list DownstreamArrival;
  er_Params : Data
}.

Record SeedExecutionFromEntryResponse : Type := mkEntryResponse {
  ep_State : AdmissionState;
  ep_ExecutionID : string;
  ep_Duplicate : bool;
  ep_Queued : bool;
  ep_QueuePosition : Z;
  ep_Skipped : list SkippedUnit
}.

(** The first 16 bytes of the digest are 32 hexadecimal characters. *)
Definition DeterministicExecutionID (sha256hex : string -> string) (key : string) : string :=
  "exec-tg-" +:+ String.substring 0 32 (sha256hex key).

Definition SeedAdmissionRefusal (err : AdmissionError) : SeedExecutionFromEntryResponse :=
  match err with
  | ErrConcurrencyLimit => mkEntryResponse AdmissionStateOverLimit "" false false 0 []
  | ErrConcurrencyQueueFull => mkEntryResponse AdmissionStateQueueFull "" false false 0 []
  end.

(** The skip of one root unit that was not selected.  The unit tables are in
    range in a compiled graph. *)
Definition rootSkip (id : string) (g : Graph) (selectedUnit : Z) (unitIdx : nat) : option Task :=
  um ← g_units g !! unitIdx;
  if bool_decide (Z.of_nat unitIdx = selectedUnit) ||
     negb (default 0 (g_unitInDegree g !! unitIdx) =? 0) ||
     bool_decide (um_Kind um <> UnitNode) then None
  else
    nodeIdx ← um_NodeIdx um;
    meta ← g_nodes g !! nodeIdx;
    Some (zeroTask <| t_ExecutionID := id |> <| t_NodeName := nm_Name meta |>
            <| t_NodeIdx := Z.of_nat nodeIdx |> <| t_UnitIdx := Z.of_nat unitIdx |>
            <| t_Type := TaskTypeNodeSkip |>).

Definition UnselectedRootSkips (id : string) (g : option Graph) (selectedUnit : Z) : list Task :=
  match g with
  | None => []
  | Some g => if g_allowCycles g then []
              else omap (rootSkip id g selectedUnit) (seq 0 (UnitCount g))
  end.

(** Resolving one unselected root, unless it is decided already. *)
Definition resolveRoot (now : Time) (id : string) (s : memoryState) (skip : Task) : memoryState :=
  let counterKey := memoryCounterKey id (t_UnitIdx skip) in
  if decide (marker (scheduled s) counterKey <> "") then s
  else (putOutboxLocked now (s <| scheduled ::= <[counterKey := "skip"]> |>) id
          (skipOutboxID id (t_NodeName skip) 0) skip zeroTime).1.

(** The snapshot an admission creates. *)
Definition entrySnapshot (now : Time) (ctxNamespace id : string)
    (req : SeedExecutionFromEntryRequest) (pending : bool) : ExecutionSnapshot :=
  let registrationNamespace :=
    if decide (er_Namespace req = "") then ctxNamespace else er_Namespace req in
  let snap := zeroExecutionSnapshot <| ex_ID := id |> <| ex_Graph := er_Graph req |>
    <| ex_Status := if pending then ExecutionStatusQueued else ExecutionStatusRunning |>
    <| ex_Params := er_Params req |> <| ex_WorkflowID := er_WorkflowID req |>
    <| ex_WorkflowVersion := er_WorkflowVersion req |>
    <| ex_DefinitionHash := er_DefinitionHash req |>
    <| ex_Namespace := registrationNamespace |> <| ex_CreatedAt := now |> in
  match er_Graph req with
  | Some g => if 0 <? g_timeout g then snap <| ex_Deadline := Add now (g_timeout g) |> else snap
  | None => snap
  end.

(** Counting the entry unit, which may already finish the execution. *)
Definition entryCount (now : Time) (s : memoryState) (id : string)
    (req : SeedExecutionFromEntryRequest) : memoryState :=
  if acyclicGraph (er_Graph req) then
    let isFailed := bool_decide (er_Outcome req = GroupOutcomeFailed) in
    let s := s <| remaining ::= fun m => <[id := counter m id - 1]> m |> in
    let s := if isFailed then s <| failed ::= fun m => <[id := counter m id + 1]> m |> else s in
    let fatal := isFailed && negb (nonEmpty (er_Downstream req)) in
    if fatal || (counter (remaining s) id =? 0) then
      let st := if fatal || (0 <? counter (failed s) id)
                then ExecutionStatusFailed else ExecutionStatusSuccess in
      match executions s !! id with
      | Some entry => finishExecutionLocked now s id entry st
                        (TerminalExecutionError st (er_Error req) "")
      | None => s
      end
    else s
  else s.

(** The entry unit's effects: done, its outputs, its count, its arrivals, and
    the roots it did not select. *)
Definition entryEffects (now : Time) (s : memoryState) (id : string)
    (req : SeedExecutionFromEntryRequest) : memoryState * list SkippedUnit :=
  let unit := zeroGroupUnit <| gu_status := groupUnitDone |>
                <| gu_committedToken := "seed-triggered" |> in
  let s := s <| groupUnits ::= <[groupKey id (er_EntryUnitIdx req) := unit]> |> in
  let s := foldl (storeExit id) s (er_Exits req) in
  let s := entryCount now s id req in
  let '(s, skipped) :=
    if bool_decide (er_Outcome req = GroupOutcomeSuccess) || nonEmpty (er_Downstream req) then
      let '(s, (_, skipped)) := applyGroupDownstreamLocked now s id (er_Downstream req) in
      (s, skipped)
    else (s, []) in
  let live := match executions s !! id with
              | Some entry => negb (IsTerminalExecutionStatus (status entry))
              | None => false
              end in
  (if live then foldl (resolveRoot now id) s
                  (UnselectedRootSkips id (er_Graph req) (er_EntryUnitIdx req))
   else s, skipped).

Definition seedExecutionFromEntryLocked (sha256hex : string -> string) (hint : bool)
    (ctxNamespace : string) (now : Time) (s : memoryState) (req : SeedExecutionFromEntryRequest)
    (admission : option ConcurrencyAdmission)
    : memoryState * SeedExecutionFromEntryResponse * bool :=
  let id := DeterministicExecutionID sha256hex (er_AdmissionKey req) in
  match admissions s !! er_AdmissionKey req with
  | Some existing =>
      let position := queuePositionLocked s (ae_executionID existing) in
      let same := bool_decide (ae_resultHash existing = er_ResultHash req) in
      (s, mkEntryResponse (if same then AdmissionStateAccepted else AdmissionStateConflict)
            (ae_executionID existing) same (0 <? position) position [], false)
  | None =>
      match admitSeed sha256hex now s id admission with
      | (s, inl err) => (s, SeedAdmissionRefusal err, false)
      | (s, inr pending) =>
          let snap := entrySnapshot now ctxNamespace id req pending in
          let s := noteMirrorModeLocked hint s snap in
          let s := (markMirrorCreatePendingLocked s id).1 in
          let s := createExecutionLocked now s snap in
          let '(s, skipped) := entryEffects now s id req in
          let position := queuePositionLocked s id in
          let s := if 0 <? position then holdOutboxLocked s id else s in
          let s := holdWhilePending s id in
          let s := s <| admissions ::=
                     <[er_AdmissionKey req := mkAdmissionEntry id (er_ResultHash req)]> |> in
          (s, mkEntryResponse AdmissionStateAccepted id false (0 <? position) position skipped,
           true)
      end
  end.

#[global] Arguments seedArrivals : simpl never.
#[global] Arguments recordSeedUnit : simpl never.
#[global] Arguments completeSeed : simpl never.
#[global] Arguments holdWhilePending : simpl never.

(** ** Holding what was written, or writing it held

    A submission stamps its intents before it writes them, a seed writes them as
    a running execution would and parks them afterwards. *)

Lemma hold_nothing s id : outbox s !! id = None -> holdOutboxLocked s id = s.
Proof.
  intros H. apply memoryState_ext; try done. simpl. apply map_eq. intros i.
  destruct (decide (i = id)) as [->|]; [|by rewrite lookup_alter_ne].
  by rewrite lookup_alter_eq, H.
Qed.

Lemma outboxOf_hold s id :
  outboxOf (holdOutboxLocked s id) id
  = (fun e => if negb (IsZero (oe_AvailableAt (ob_entry e))) then e
              else setAvailable queuedOutboxHold e) <$> outboxOf s id.
Proof.
  unfold outboxOf. simpl. rewrite lookup_alter_eq.
  destruct (outbox s !! id); simpl; [done|by rewrite fmap_empty].
Qed.

Lemma hold_put now s id o :
  oe_AvailableAt o = zeroTime ->
  holdOutboxLocked (putOutboxEntryLocked now s id o).1 id
  = (putOutboxEntryLocked now (holdOutboxLocked s id) id
       (o <| oe_AvailableAt := queuedOutboxHold |>)).1.
Proof.
  intros Ho. unfold putOutboxEntryLocked. cbn [oe_ID upd]. case_decide; [done|].
  rewrite outboxOf_hold, lookup_fmap. destruct (outboxOf s id !! oe_ID o) as [x|] eqn:E; [done|].
  cbn [fmap option_fmap option_map fst]. apply memoryState_ext; try done. simpl.
  apply map_eq. intros i. destruct (decide (i = id)) as [->|].
  - rewrite lookup_alter_eq, !lookup_insert_eq. simpl. f_equal.
    destruct (IsZero (oe_CreatedAt o)); rewrite fmap_insert; simpl; by rewrite Ho.
  - rewrite lookup_alter_ne, !lookup_insert_ne, lookup_alter_ne by done. done.
Qed.

Lemma hold_writeInitialIntents now s id entries :
  Forall (fun o => oe_AvailableAt o = zeroTime) entries ->
  holdOutboxLocked (writeInitialIntentsLocked now s id entries zeroTime) id
  = writeInitialIntentsLocked now (holdOutboxLocked s id) id entries queuedOutboxHold.
Proof.
  unfold writeInitialIntentsLocked. intros H. revert s.
  induction H as [|o entries Ho _ IH]; intros s; [done|]. simpl. rewrite IH. f_equal.
  unfold writeInitialIntent. change (negb (IsZero zeroTime)) with false.
  change (negb (IsZero queuedOutboxHold)) with true. cbv iota.
  rewrite hold_put by done. by destruct (decide (t_Type (oe_Task o) = TaskTypeNodeSkip)).
Qed.

Lemma hold_again s id : holdOutboxLocked (holdOutboxLocked s id) id = holdOutboxLocked s id.
Proof.
  apply memoryState_ext; try done. simpl. apply map_eq. intros i.
  destruct (decide (i = id)) as [->|]; [|by rewrite !lookup_alter_ne].
  rewrite !lookup_alter_eq. destruct (outbox s !! id) as [m|]; [|done]. simpl. f_equal.
  rewrite <- map_fmap_compose. apply map_fmap_ext. intros k e _. simpl.
  destruct (IsZero (oe_AvailableAt (ob_entry e))) eqn:Ez; simpl; [done|by rewrite Ez].
Qed.

(** A fresh seed has everything left to run. *)
Lemma created_remaining now s e g :
  ex_Graph e = Some g -> g_allowCycles g = false ->
  remaining (createExecutionLocked now s e) !! ex_ID e = Some (Z.of_nat (UnitCount g)).
Proof.
  intros Hg Hc. unfold createExecutionLocked. rewrite Hg, Hc. simpl. by rewrite lookup_insert_eq.
Qed.

Lemma completeSeed_open now s id g :
  (acyclicGraph g = true -> 0 < counter (remaining s) id) -> completeSeed now s id g = s.
Proof.
  intros H. unfold completeSeed. destruct (acyclicGraph g); [|done]. specialize (H eq_refl).
  destruct (executions s !! id); [|done]. by rewrite (proj2 (Z.leb_gt _ _)).
Qed.

Lemma write_position now s id entries t id' :
  queuePositionLocked (writeInitialIntentsLocked now s id entries t) id' = queuePositionLocked s id'.
Proof. by destruct (writeInitialIntents_shape now id entries t s) as (sch & ob & -> & _). Qed.

(** The holds at the end of a seed that has just been created. *)
Lemma seed_holds now s id entries entry (pending hold : bool) :
  let w := writeInitialIntentsLocked now s id entries zeroTime in
  outbox s !! id = None -> Forall (fun o => oe_AvailableAt o = zeroTime) entries ->
  executions s !! id = Some entry ->
  status entry = (if pending then ExecutionStatusQueued else ExecutionStatusRunning) ->
  (id ∈ mirrorCreatePending s <-> hold = true) ->
  (pending = true -> 0 < queuePositionLocked s id) ->
  let position := match executions w !! id with
                  | Some entry => if decide (status entry = ExecutionStatusQueued)
                                  then queuePositionLocked w id else 0
                  | None => 0
                  end in
  holdWhilePending (if 0 <? position then holdOutboxLocked w id else w) id
    = writeInitialIntentsLocked now s id entries
        (if pending || hold then queuedOutboxHold else zeroTime) /\
  position = if pending then queuePositionLocked w id else 0.
Proof.
  intros w Hob Hen He Hst Hp Hpos. destruct (writeInitialIntents_shape now id entries zeroTime s)
    as (sch & ob & E & _). fold w in E.
  assert (E1 : executions w = executions s) by (by rewrite E).
  assert (E2 : queuePositionLocked w id = queuePositionLocked s id) by apply write_position.
  assert (E3 : mirrorCreatePending w = mirrorCreatePending s) by (by rewrite E).
  rewrite E1, He, Hst.
  assert (Eh : holdOutboxLocked w id = writeInitialIntentsLocked now s id entries queuedOutboxHold).
  { unfold w. by rewrite hold_writeInitialIntents, hold_nothing. }
  assert (Ew : holdWhilePending (holdOutboxLocked w id) id = holdOutboxLocked w id).
  { unfold holdWhilePending. case_decide; [|done]. repeat case_match; auto using hold_again. }
  destruct pending; simpl.
  - specialize (Hpos eq_refl). rewrite E2, (proj2 (Z.ltb_lt 0 _)) by done. by rewrite Ew.
  - split; [|done]. unfold holdWhilePending. rewrite E3.
    destruct hold; [rewrite decide_True by tauto|by rewrite decide_False by naive_solver].
    by rewrite E1, He, Hst.
Qed.

(** Whoever was parked has a place in the line. *)
Lemma linePosition_last id line i : 0 <= i -> 0 < linePosition id (line ++ [id]) i.
Proof.
  revert i. induction line as [|q line IH]; intros i Hi; simpl.
  - rewrite decide_True by done. lia.
  - case_decide; [lia|]. apply IH. lia.
Qed.

Lemma parked_position sha now s id a s' :
  slots_wf s -> chargeOrParkLocked sha now s id a = (s', inr true) ->
  0 < queuePositionLocked s' id.
Proof.
  intros Hwf. unfold chargeOrParkLocked, parkOrChargeLocked.
  set (k := ConcurrencyKey _ _ _). pose proof (slotFor_key s k Hwf) as Hk.
  destruct (decide (ca_Mode a = ConcurrencyModeQueue)); [|by case_match].
  destruct (bool_decide _); [done|]. destruct (bool_decide _); [done|]. intros [= <-].
  unfold queuePositionLocked. simpl. rewrite lookup_insert_eq. simpl.
  unfold slotForLocked at 1. simpl. rewrite lookup_insert_eq. simpl. by apply linePosition_last.
Qed.

Lemma chargeOrPark_quiet sha now s id a :
  let s' := (chargeOrParkLocked sha now s id a).1 in
  outbox s' = outbox s /\ mirrorCreatePending s' = mirrorCreatePending s.
Proof.
  unfold chargeOrParkLocked, parkOrChargeLocked. cbn zeta. by repeat case_match.
Qed.

(** What a create has set up by the time the intents are written. *)
Lemma create_setup hint now s e s2 hold :
  markMirrorCreatePendingLocked (noteMirrorModeLocked hint s e) (ex_ID e) = (s2, hold) ->
  ex_ID e ∉ mirrorCreatePending s ->
  let s3 := createExecutionLocked now s2 e in
  executions s3 !! ex_ID e = Some (createdEntry now e) /\ outbox s3 = outbox s /\
  (ex_ID e ∈ mirrorCreatePending s3 <-> hold = true) /\
  queuePositionLocked s3 (ex_ID e) = queuePositionLocked s (ex_ID e).
Proof.
  intros E Hp. destruct (noteMirror_shape hint s e) as (ms & E1 & _). rewrite E1 in E.
  assert (Hs2 : exists p, s2 = s <| mirrorSkip := ms |> <| mirrorCreatePending := p |> /\
                          (ex_ID e ∈ p <-> hold = true)).
  { unfold markMirrorCreatePendingLocked in E. destruct (_ || _); simplify_eq/=.
    - exists (mirrorCreatePending s). split; [by destruct s|]. by split.
    - eexists. split; [done|]. split; [done|]. set_solver. }
  destruct Hs2 as (p & -> & Hh). destruct (create_shape now
    (s <| mirrorSkip := ms |> <| mirrorCreatePending := p |>) e) as (ind & rem & fl & E3 & _).
  intros s3. unfold s3. rewrite E3. simpl. split_and!; [by rewrite lookup_insert_eq|done|done|done].
Qed.

Lemma insert_same_counter (m : gmap string Z) id c :
  m !! id = Some c -> <[id := counter m id - Z.of_nat 0]> m = m.
Proof. intros H. unfold counter. rewrite H. simpl. rewrite Z.sub_0_r. by apply insert_id. Qed.

(** Without units, a seed writes its intents and completes nothing. *)
Lemma placeSeed_empty now s e x entries y :
  (forall g, ex_Graph e = Some g -> g_allowCycles g = false ->
     exists c, remaining s !! ex_ID e = Some c /\ 0 < c) ->
  placeSeed now s e (mkSeedRequest x [] entries y)
  = let s := writeInitialIntentsLocked now s (ex_ID e) entries zeroTime in
    let position :=
      match executions s !! ex_ID e with
      | Some entry => if decide (status entry = ExecutionStatusQueued)
                      then queuePositionLocked s (ex_ID e) else 0
      | None => 0
      end in
    (holdWhilePending (if 0 <? position then holdOutboxLocked s (ex_ID e) else s) (ex_ID e),
     mkSeedResponse (0 <? position) position []).
Proof.
  intros Hr.
  assert (Hrem : acyclicGraph (ex_Graph e) = true ->
    exists c, remaining s !! ex_ID e = Some c /\ 0 < c).
  { destruct (ex_Graph e) as [g|]; [|done]. intros Hac%negb_true_iff. by eapply Hr. }
  unfold placeSeed. cbn [sq_Units sq_Entries foldl length].
  assert (forall x, x = s <| remaining ::= fun m => <[ex_ID e := counter m (ex_ID e) - Z.of_nat 0]> m |>
            -> (if acyclicGraph (ex_Graph e) then x else s) = s) as Hs.
  { intros x0 ->. destruct (acyclicGraph (ex_Graph e)); [|done]. destruct (Hrem eq_refl) as (c & Hc & _).
    apply memoryState_ext; try done. simpl. by eapply insert_same_counter. }
  rewrite (Hs _ eq_refl). cbn [foldl]. rewrite completeSeed_open; [done|].
  intros Hac. destruct (Hrem Hac) as (c & Hc & Hlt).
  destruct (writeInitialIntents_shape now (ex_ID e) entries zeroTime s) as (sch & ob & -> & _).
  change (0 < counter (remaining s) (ex_ID e)). unfold counter. by rewrite Hc.
Qed.

(** A seed is a submission plus a recorded prefix.  Seeding a fresh execution
    with no resolved units, under a workflow's policy, leaves the same store and
    gives the same answer as submitting it under that policy: the same slot or
    place in line, the same counters, the same intents held for the same reasons. *)
Theorem seed_without_prefix_is_submission sha hint now s e entries a :
  slots_wf s -> unused s (ex_ID e) ->
  Forall (fun o => oe_AvailableAt o = zeroTime) entries ->
  (forall g, ex_Graph e = Some g -> (0 < UnitCount g)%nat) ->
  let sub := CreateExecutionWithConcurrency sha hint now s e entries a in
  seedExecution sha hint now s (mkSeedRequest (Some e) [] entries (Some a))
  = (sub.1, match sub.2 with
            | inl err => inl (SeedRefused err)
            | inr (r, _) => inr (mkSeedResponse (car_Queued r) (car_QueuePosition r) [])
            end).
Proof.
  intros Hwf Hun Hen Hg. unfold seedExecution, CreateExecutionWithConcurrency, admitSeed.
  cbn [sq_Execution sq_Units sq_Entries sq_Admission find foldl length].
  pose proof (fun s' => parked_position sha now s (ex_ID e) a s' Hwf) as Hpos.
  pose proof (chargeOrPark_quiet sha now s (ex_ID e) a) as (Eo & Ep).
  destruct (chargeOrParkLocked sha now s (ex_ID e) a) as [s1 [err|pending]]; [done|].
  cbn [fst] in *. set (adm := e <| ex_Status := _ |>). cbn zeta. fold adm.
  change (ex_ID e) with (ex_ID adm) in *.
  destruct (markMirrorCreatePendingLocked (noteMirrorModeLocked hint s1 adm) (ex_ID adm))
    as [s2 hold] eqn:E2.
  destruct (create_setup hint now s1 adm s2 hold E2) as (He & Ho & Hh & Hq);
    [rewrite Ep; apply Hun|]. cbn [fst].
  set (s3 := createExecutionLocked now s2 adm) in *.
  rewrite placeSeed_empty.
  2:{ intros g Eg Hac. eexists. split; [exact (created_remaining now s2 adm g Eg Hac)|].
      specialize (Hg g Eg). lia. }
  cbn zeta. change (ex_ID e) with (ex_ID adm).
  destruct (seed_holds now s3 (ex_ID adm) entries (createdEntry now adm) pending hold)
    as [E1 E4]; try done.
  - rewrite Ho, Eo. apply Hun.
  - by rewrite created_status.
  - intros ->. rewrite Hq. by apply Hpos.
  - cbn zeta in E1, E4. rewrite E1, E4. f_equal. destruct pending; [|done].
    cbn [orb car_Queued car_QueuePosition]. rewrite !write_position, Hq. specialize (Hpos s1 eq_refl).
    by rewrite (proj2 (Z.ltb_lt _ _) Hpos).
Qed.

(** [exampleGraph] compiled, submitted under a limit of two. *)
Definition demoCompiled : Graph :=
  match buildUnits exampleGraph with Ok g => g | _ => exampleGraph end.
Definition demoSeeded : ExecutionSnapshot := demoExecution <| ex_Graph := Some demoCompiled |>.

Lemma seed_without_prefix_is_submission_witness :
  let sub := CreateExecutionWithConcurrency (fun p => p) false 5 (newMemoryState true) demoSeeded
               [demoEntry] demoAdmission in
  seedExecution (fun p => p) false 5 (newMemoryState true)
    (mkSeedRequest (Some demoSeeded) [] [demoEntry] (Some demoAdmission))
  = (sub.1, match sub.2 with
            | inl err => inl (SeedRefused err)
            | inr (r, _) => inr (mkSeedResponse (car_Queued r) (car_QueuePosition r) [])
            end).
Proof.
  apply seed_without_prefix_is_submission.
  - apply slots_wf_new.
  - apply unused_new.
  - constructor; [reflexivity|constructor].
  - intros g Hg. assert (g = demoCompiled) as -> by (unfold demoSeeded in Hg; cbn in Hg; congruence).
    apply (bool_decide_unpack _). by vm_compute.
Defined.
