(* ===== verification/Arrivals.v ===== *)
(** * From a finished node to the arrivals of its successors

    The planning half of scheduling in [src/engine]: [downstreamArrivals] and the
    skip branch of [handleSystemTask] ([atomic.go]), [downstreamUnitArrivals]
    ([group_exec.go]), [execTaskTypeForNode] ([subworkflow.go]) and
    [privateOutputForTask] ([output_policy.go]).  The theorems join it to the
    unit layer of [Units] and to the counters of [Commit]. *)

From S2P Require Import Prelude Keys Types Graph Units State Slots Executions Outbox Lease Commit Groups.

(** ** Planning *)

Abbreviation SubWorkflowNodeType := "xflow.subworkflow".

Definition execTaskTypeForNode (meta : NodeMeta) : TaskType :=
  if decide (nm_Type meta = SubWorkflowNodeType) then TaskTypeSubWorkflow else TaskTypeNodeExec.

Definition NodeOutEdges (g : Graph) (i : nat) : res (list Edge) := idx (g_outEdges g) i.
Definition NodeAt (g : Graph) (i : nat) : res NodeMeta := idx (g_nodes g) i.

(** The unit of a node; a supply node has none, which callers index with and
    panic on. *)
Definition unitOf (g : Graph) (i : nat) : res nat :=
  o ← idx (g_nodeUnit g) i; match o with Some u => Ok u | None => Panic end.

Definition newArrival (g : Graph) (dst : nat) : res DownstreamArrival :=
  meta ← NodeAt g dst;
  dstUnit ← unitOf g dst;
  kind ← UnitKindAt g dstUnit;
  Ok (mkArrival (nm_Name meta) (Z.of_nat dst) (Z.of_nat dstUnit) 0 0 (nm_MergeMode meta)
        (if decide (kind = UnitGroup) then TaskTypeGroupExec else execTaskTypeForNode meta)).

(** One edge of the source, counted at its destination. *)
Definition countEdge (g : Graph) (activePort : string) (m : gmap nat DownstreamArrival) (e : Edge)
    : res (gmap nat DownstreamArrival) :=
  a ← match m !! e_DstIdx e with Some a => Ok a | None => newArrival g (e_DstIdx e) end;
  let a := a <| da_ArrivalCount ::= Z.succ |> in
  let a := if decide (e_SrcPort e = activePort) then a <| da_ActiveCount ::= Z.succ |> else a in
  Ok (<[e_DstIdx e := a]> m).

(** The map is emptied in the order of the destination indexes. *)
Definition inIndexOrder (m : gmap nat DownstreamArrival) : list DownstreamArrival :=
  omap (fun i => m !! i) (merge_sort le (elements (dom m))).

Definition downstreamArrivals (g : Graph) (sourceIdx : Z) (activePort : string)
    : res (list DownstreamArrival) :=
  if (sourceIdx <? 0) || (Z.of_nat (NodeCount g) <=? sourceIdx) then Ok []
  else
    es ← NodeOutEdges g (Z.to_nat sourceIdx);
    m ← foldM (countEdge g activePort) es ∅;
    Ok (inIndexOrder m).

(** ** Group exits *)

Definition NodeIndex (g : Graph) (name : string) : option nat :=
  fst <$> list_find (fun n => nm_Name n = name) (g_nodes g).

(** The exits that fired, by member and port. *)
Definition firedExit (g : Graph) (exits : list (string * string)) (src : BoundaryEndpoint) : bool :=
  existsb (fun ex => bool_decide (NodeIndex g ex.1 = be_NodeIdx src /\ ex.2 = be_Port src)) exits.

(** Both accessors panic on a unit of the other kind. *)
Definition UnitNodeIndex (g : Graph) (unitIdx : nat) : res nat :=
  um ← idx (g_units g) unitIdx;
  match um_Kind um, um_NodeIdx um with
  | UnitNode, Some i => Ok i
  | _, _ => Panic
  end.

Definition GroupMetaAt (g : Graph) (unitIdx : nat) : res GroupMeta :=
  um ← idx (g_units g) unitIdx;
  match um_Kind um, um_GroupIdx um with
  | UnitGroup, Some gi => idx (g_groups g) gi
  | _, _ => Panic
  end.

Definition newUnitArrival (g : Graph) (dstUnit : nat) : res DownstreamArrival :=
  target ← UnitNodeIndex g dstUnit;
  meta ← NodeAt g target;
  kind ← UnitKindAt g dstUnit;
  dest ← match kind with
         | UnitGroup => gm ← GroupMetaAt g dstUnit;
                        Ok (TaskTypeGroupExec, gm_EntryIdx gm, gm_Name gm)
         | UnitNode => Ok (execTaskTypeForNode meta, target, nm_Name meta)
         end;
  let '(execType, target, name) := dest in
  mode ← UnitMergeMode g dstUnit;
  Ok (mkArrival name (Z.of_nat target) (Z.of_nat dstUnit) 0 0 mode execType).

Definition countUnitEdge (g : Graph) (exits : list (string * string)) (routeToErrorOutput : bool)
    (m : gmap nat DownstreamArrival) (ue : UnitEdge) : res (gmap nat DownstreamArrival) :=
  a ← match m !! ue_DstUnit ue with Some a => Ok a | None => newUnitArrival g (ue_DstUnit ue) end;
  let a := a <| da_ArrivalCount ::= Z.succ |> in
  let active := if ue_ErrorEdge ue then routeToErrorOutput else firedExit g exits (ue_Src ue) in
  let a := if active : bool then a <| da_ActiveCount ::= Z.succ |> else a in
  Ok (<[ue_DstUnit ue := a]> m).

(** The arrivals by destination unit; Go emits them in map order. *)
Definition downstreamUnitArrivals (g : Graph) (srcUnit : nat) (exits : list (string * string))
    (routeToErrorOutput : bool) : res (gmap nat DownstreamArrival) :=
  es ← idx (g_unitOutEdges g) srcUnit;
  foldM (countUnitEdge g exits routeToErrorOutput) es ∅.

(** ** Skipping *)

Definition privateOutputForTask (g : Graph) (task : Task) : bool :=
  if (t_NodeIdx task <? 0) || (Z.of_nat (NodeCount g) <=? t_NodeIdx task) then true
  else match g_nodes g !! Z.to_nat (t_NodeIdx task) with
       | Some meta => if decide (nm_Name meta <> t_NodeName task) then true
                      else nm_PrivateOutput meta
       | None => true
       end.

(** The system commit of a skipped node, for a store that folds arrivals. *)
Definition skipRequest (task : Task) (privateOutput : bool) (arrivals : list DownstreamArrival)
    : CommitNodeRequest :=
  zeroCommitNodeRequest <| req_ExecutionID := t_ExecutionID task |>
    <| req_NodeName := t_NodeName task |> <| req_NodeIdx := t_NodeIdx task |>
    <| req_UnitIdx := t_UnitIdx task |> <| req_ActivationID := t_ActivationID task |>
    <| req_AutoDepth := t_AutoDepth task |> <| req_Status := NodeStatusSkipped |>
    <| req_PrivateOutput := privateOutput |> <| req_System := true |>
    <| req_Arrivals := arrivals |>.

Definition handleSkip (now : Time) (s : memoryState) (g : Graph) (task : Task)
    : res (memoryState * (CommitRequestError + CommitNodeResult)) :=
  if (t_NodeIdx task <? 0) || (Z.of_nat (NodeCount g) <=? t_NodeIdx task)
  then Err "skip node index is out of range"
  else if (t_UnitIdx task <? 0) || (Z.of_nat (UnitCount g) <=? t_UnitIdx task)
  then Err "skip node unit index is out of range"
  else
    arrivals ← downstreamArrivals g (t_NodeIdx task) "";
    Ok (CommitNode now s (skipRequest task (privateOutputForTask g task) arrivals)).

#[global] Arguments countEdge : simpl never.
#[global] Arguments countUnitEdge : simpl never.
#[global] Arguments newArrival : simpl never.
#[global] Arguments newUnitArrival : simpl never.

(** ** What the arrivals of a node are *)

(** The edges into a destination, and the active ones. *)
Definition edgesTo (dst : nat) (es : list Edge) : list Edge := filter (fun e => e_DstIdx e = dst) es.
Definition activeTo (dst : nat) (port : string) (es : list Edge) : list Edge :=
  filter (fun e => e_SrcPort e = port) (edgesTo dst es).

(** What the map holds after the edges [es]. *)
Definition counted (g : Graph) (port : string) (es : list Edge) (m : gmap nat DownstreamArrival)
    : Prop :=
  forall dst,
    match m !! dst with
    | None => edgesTo dst es = []
    | Some a =>
        edgesTo dst es <> [] /\
        exists a0, newArrival g dst = Ok a0 /\
          a = a0 <| da_ArrivalCount := Z.of_nat (length (edgesTo dst es)) |>
                 <| da_ActiveCount := Z.of_nat (length (activeTo dst port es)) |>
    end.

Lemma edgesTo_snoc dst es e :
  edgesTo dst (es ++ [e]) = if decide (e_DstIdx e = dst) then edgesTo dst es ++ [e] else edgesTo dst es.
Proof.
  unfold edgesTo. rewrite filter_app, filter_cons, filter_nil.
  by case_decide; rewrite ?app_nil_r.
Qed.

Lemma activeTo_snoc dst port es e :
  activeTo dst port (es ++ [e])
  = if decide (e_DstIdx e = dst /\ e_SrcPort e = port) then activeTo dst port es ++ [e]
    else activeTo dst port es.
Proof.
  unfold activeTo. rewrite edgesTo_snoc. destruct (decide (e_DstIdx e = dst)) as [E|E].
  - rewrite filter_app, filter_cons, filter_nil.
    destruct (decide (e_SrcPort e = port)); [by rewrite decide_True|].
    by rewrite decide_False, app_nil_r by tauto.
  - by rewrite decide_False by tauto.
Qed.

Lemma newArrival_zero g dst a :
  newArrival g dst = Ok a -> da_ArrivalCount a = 0 /\ da_ActiveCount a = 0.
Proof.
  unfold newArrival. intros (meta & _ & H)%res_bind_Ok. apply res_bind_Ok in H as (u & _ & H).
  apply res_bind_Ok in H as (k & _ & [= <-]). done.
Qed.

Lemma countEdge_counted g port es m e m' :
  counted g port es m -> countEdge g port m e = Ok m' -> counted g port (es ++ [e]) m'.
Proof.
  intros Hm H. unfold countEdge in H. apply res_bind_Ok in H as (a & Ha & [= <-]).
  intros dst. rewrite edgesTo_snoc, activeTo_snoc.
  destruct (decide (e_DstIdx e = dst)) as [<-|Hne].
  2: { rewrite lookup_insert_ne by done. rewrite decide_False by tauto. apply Hm. }
  rewrite lookup_insert_eq. split; [by destruct (edgesTo _ _)|].
  specialize (Hm (e_DstIdx e)). destruct (m !! e_DstIdx e) as [a1|].
  - injection Ha as <-. destruct Hm as (_ & a0 & H0 & ->). exists a0. split; [done|].
    rewrite length_app. destruct (decide (e_SrcPort e = port)).
    + rewrite decide_True by done. rewrite length_app. unfold upd. cbn. f_equal; lia.
    + rewrite decide_False by tauto. unfold upd. cbn. f_equal; lia.
  - exists a. split; [done|]. destruct (newArrival_zero g _ a Ha) as [Z1 Z2].
    assert (Hact : activeTo (e_DstIdx e) port es = []) by (unfold activeTo; by rewrite Hm).
    rewrite Hm, Hact. destruct (decide (e_SrcPort e = port)).
    + rewrite decide_True by done. unfold upd. cbn. by rewrite Z1, Z2.
    + rewrite decide_False by tauto. unfold upd. cbn. by rewrite Z1, Z2.
Qed.

Lemma foldM_countEdge g port es1 es m m' :
  counted g port es1 m -> foldM (countEdge g port) es m = Ok m' -> counted g port (es1 ++ es) m'.
Proof.
  revert es1 m. induction es as [|e es IH]; intros es1 m Hm; simpl.
  { intros [= <-]. by rewrite app_nil_r. }
  intros (m1 & H1 & H2)%res_bind_Ok. rewrite cons_middle, app_assoc. eapply IH; [|exact H2].
  by eapply countEdge_counted.
Qed.

(** ** Graphs without groups *)

(** A compiled acyclic graph whose units are single nodes. *)
Record nodeUnits (g : Graph) : Prop := {
  nu_partition : unit_partition g;
  nu_edges : unit_edges_ok g;
  nu_groups : g_groups g = [];
  nu_length : length (g_outEdges g) = NodeCount g;
  nu_indexed : forall i es e, g_outEdges g !! i = Some es -> e ∈ es -> e_SrcIdx e = i;
  nu_ends : forall e, e ∈ concat (g_outEdges g) ->
    has_unit g (e_SrcIdx e) /\ has_unit g (e_DstIdx e);
  nu_no_loop : forall e, e ∈ concat (g_outEdges g) -> e_SrcIdx e <> e_DstIdx e
}.

(** Finishing the nodes one after the other, each with the port it took (the
    empty one when it was skipped), and counting the arrivals of its successors. *)
Definition finishNode (now : Time) (id : string) (act depth : Z) (g : Graph) (s : memoryState)
    (run : nat * string) : res memoryState :=
  arrivals ← downstreamArrivals g (Z.of_nat run.1) run.2;
  Ok (applyArrivalsLocked now s id act depth arrivals).1.

Definition finishNodes (now : Time) (id : string) (act depth : Z) (g : Graph)
    (runs : list (nat * string)) (s : memoryState) : res memoryState :=
  foldM (finishNode now id act depth g) runs s.

(** The inbound edges of a node whose source took their port. *)
Definition outEdgesOf (g : Graph) (i : nat) : list Edge := default [] (g_outEdges g !! i).
Definition activeInto (g : Graph) (runs : list (nat * string)) (j : nat) : nat :=
  sum_list (map (fun run => length (activeTo j run.2 (outEdgesOf g run.1))) runs).

Section simple.
Context (g : Graph) (Hg : nodeUnits g).

Lemma unit_is_node v um : g_units g !! v = Some um -> um_Kind um = UnitNode.
Proof.
  intros Hv. destruct (um_Kind um) eqn:E; [done|].
  destruct (up_group g (nu_partition g Hg) v um Hv E) as (gi & gm & _ & Hgm & _).
  by rewrite (nu_groups g Hg) in Hgm.
Qed.

Lemma unit_inj i j v :
  g_nodeUnit g !! i = Some (Some v) -> g_nodeUnit g !! j = Some (Some v) -> i = j.
Proof.
  intros Hi Hj. pose proof (nu_partition g Hg) as Hp.
  destruct (lookup_lt_is_Some_2 (g_units g) v (up_range g Hp _ _ Hi)) as [um Hum].
  pose proof (unit_is_node v um Hum) as Hk.
  pose proof (up_single g Hp _ _ _ Hi Hum Hk). pose proof (up_single g Hp _ _ _ Hj Hum Hk). congruence.
Qed.

Lemma newArrival_simple i v :
  g_nodeUnit g !! i = Some (Some v) ->
  exists nd, g_nodes g !! i = Some nd /\
    newArrival g i = Ok (mkArrival (nm_Name nd) (Z.of_nat i) (Z.of_nat v) 0 0 (nm_MergeMode nd)
                           (execTaskTypeForNode nd)).
Proof.
  intros Hi. pose proof (nu_partition g Hg) as Hp.
  destruct (proj2 (up_sched g Hp i) (ex_intro _ v Hi)) as (nd & Hnd & _).
  destruct (lookup_lt_is_Some_2 (g_units g) v (up_range g Hp _ _ Hi)) as [um Hum].
  exists nd. split; [done|]. unfold newArrival, NodeAt, unitOf, UnitKindAt.
  rewrite (proj2 (idx_Ok _ _ _) Hnd), (proj2 (idx_Ok _ _ _) Hi). cbn.
  rewrite (proj2 (idx_Ok _ _ _) Hum). cbn. by rewrite (unit_is_node v um Hum).
Qed.

Lemma countEdges_total port es m :
  (forall e, e ∈ es -> has_unit g (e_DstIdx e)) ->
  exists m', foldM (countEdge g port) es m = Ok m'.
Proof.
  revert m. induction es as [|e es IH]; intros m He; simpl; [by eexists|].
  destruct (He e) as [v Hv]; [by left|].
  destruct (newArrival_simple _ _ Hv) as (nd & _ & Hnew).
  assert (exists m1, countEdge g port m e = Ok m1) as [m1 ->].
  { unfold countEdge. destruct (m !! e_DstIdx e); [by eexists|]. rewrite Hnew. by eexists. }
  cbn. apply IH. intros e' He'. apply He. by right.
Qed.

Lemma outEdgesOf_ends i e : e ∈ outEdgesOf g i -> e ∈ concat (g_outEdges g).
Proof.
  unfold outEdgesOf. destruct (g_outEdges g !! i) as [es|] eqn:E; [|by intros ?%elem_of_nil].
  intros He. apply list_elem_of_In, in_concat. exists es.
  split; apply list_elem_of_In; [|done]. by eapply list_elem_of_lookup_2.
Qed.

Lemma downstream_simple i port :
  (i < NodeCount g)%nat ->
  exists m, downstreamArrivals g (Z.of_nat i) port = Ok (inIndexOrder m) /\
    counted g port (outEdgesOf g i) m.
Proof.
  intros Hi. destruct (lookup_lt_is_Some_2 (g_outEdges g) i) as [es Hes];
    [by rewrite (nu_length g Hg)|].
  assert (Ho : outEdgesOf g i = es) by (unfold outEdgesOf; by rewrite Hes).
  destruct (countEdges_total port es ∅) as [m Hm].
  { intros e He. apply (nu_ends g Hg). apply (outEdgesOf_ends i). by rewrite Ho. }
  exists m. rewrite Ho. split.
  - unfold downstreamArrivals, NodeOutEdges. rewrite Nat2Z.id.
    destruct (Z.ltb_spec (Z.of_nat i) 0); [lia|].
    destruct (Z.leb_spec (Z.of_nat (NodeCount g)) (Z.of_nat i)); [lia|]. cbn [orb].
    rewrite (proj2 (idx_Ok _ _ _) Hes). cbn [mbind res_bind]. by rewrite Hm.
  - apply (foldM_countEdge g port [] es ∅ m); [|done]. intros dst. by rewrite lookup_empty.
Qed.

(** The arrival of one destination among those of a finished node. *)
Lemma filter_one (m : gmap nat DownstreamArrival) (P : DownstreamArrival -> Prop)
    `{!forall a, Decision (P a)} j l :
  (forall i a, m !! i = Some a -> P a <-> i = j) -> NoDup l ->
  filter P (omap (fun i => m !! i) l)
  = if decide (j ∈ l) then match m !! j with Some a => [a] | None => [] end else [].
Proof.
  intros HP. induction 1 as [|i l Hi _ IH]; [done|]. cbn.
  destruct (decide (i = j)) as [->|Hne].
  - rewrite (decide_True (P := j ∈ j :: l)) by (by left). rewrite decide_False in IH by done.
    destruct (m !! j) as [a|] eqn:E; [|done].
    rewrite filter_cons_True by (by apply (HP j)). by rewrite IH.
  - assert (E : filter P (match m !! i with Some y => y :: omap (fun i => m !! i) l
        | None => omap (fun i => m !! i) l end) = filter P (omap (fun i => m !! i) l)).
    { destruct (m !! i) as [a|] eqn:E; [|done].
      rewrite filter_cons_False; [done|]. by rewrite (HP i). }
    rewrite E, IH. destruct (decide (j ∈ l)).
    + by rewrite decide_True by (by right).
    + rewrite decide_False; [done|]. rewrite elem_of_cons. intros [?|?]; congruence.
Qed.

Lemma filter_inIndexOrder (m : gmap nat DownstreamArrival) (P : DownstreamArrival -> Prop)
    `{!forall a, Decision (P a)} j :
  (forall i a, m !! i = Some a -> P a <-> i = j) ->
  filter P (inIndexOrder m) = match m !! j with Some a => [a] | None => [] end.
Proof.
  intros HP. unfold inIndexOrder. rewrite (filter_one m P j).
  - case_decide as Hj; [done|]. destruct (m !! j) as [a|] eqn:E; [|done]. exfalso. apply Hj.
    rewrite merge_sort_Permutation. apply elem_of_elements, elem_of_dom. by eexists.
  - done.
  - rewrite merge_sort_Permutation. apply NoDup_elements.
Qed.

(** The arrivals of node [i] at the unit of node [j]. *)
Lemma downstream_at i port m j v nd :
  g_nodeUnit g !! j = Some (Some v) -> g_nodes g !! j = Some nd ->
  counted g port (outEdgesOf g i) m ->
  let mine := filter (fun a => da_UnitIdx a = Z.of_nat v) (inIndexOrder m) in
  Forall (okArrival (nm_MergeMode nd)) mine /\
  arrived mine = Z.of_nat (length (edgesTo j (outEdgesOf g i))) /\
  activeArrived mine = Z.of_nat (length (activeTo j port (outEdgesOf g i))).
Proof.
  intros Hj Hnd Hm mine. unfold mine. rewrite (filter_inIndexOrder m _ j).
  - specialize (Hm j). destruct (m !! j) as [a|].
    + destruct Hm as (Hne & a0 & H0 & ->).
      destruct (newArrival_simple j v Hj) as (nd' & Hnd' & Hn). rewrite Hn in H0.
      injection H0 as <-. unfold arrived, activeArrived, okArrival. simplify_eq.
      destruct (edgesTo j (outEdgesOf g i)); [done|]. cbn. split_and!; [|lia..].
      apply Forall_singleton. cbn. split_and!; [lia..|done].
    + assert (activeTo j port (outEdgesOf g i) = []) as -> by (unfold activeTo; by rewrite Hm).
      by rewrite Hm.
  - intros i' a Ha. specialize (Hm i'). rewrite Ha in Hm. destruct Hm as (Hne & a0 & H0 & ->).
    assert (has_unit g i') as [v' Hv'].
    { destruct (edgesTo i' (outEdgesOf g i)) as [|e es] eqn:E; [done|].
      assert (He : e ∈ edgesTo i' (outEdgesOf g i)) by (rewrite E; by left).
      apply list_elem_of_filter in He as [<- He]. apply outEdgesOf_ends in He.
      by apply (nu_ends g Hg). }
    destruct (newArrival_simple i' v' Hv') as (nd' & _ & Hn). rewrite Hn in H0.
    injection H0 as <-. cbn. split.
    + intros E. apply Nat2Z.inj in E as ->. by eapply unit_inj.
    + intros ->. congruence.
Qed.

Lemma finishNodes_tally now id act depth runs s :
  Forall (fun run => (run.1 < NodeCount g)%nat) runs ->
  exists s', finishNodes now id act depth g runs s = Ok s' /\
    forall j v nd, g_nodeUnit g !! j = Some (Some v) -> g_nodes g !! j = Some nd ->
      exists l, Forall (okArrival (nm_MergeMode nd)) l /\
        arrived l = Z.of_nat (sum_list (map (fun run =>
          length (edgesTo j (outEdgesOf g run.1))) runs)) /\
        activeArrived l = Z.of_nat (activeInto g runs j) /\
        tallyAt s' id (Z.of_nat v) = foldl tallyStep (tallyAt s id (Z.of_nat v)) l.
Proof.
  unfold activeInto. revert s. induction runs as [|[i port] runs IH]; intros s Hr.
  { exists s. split; [done|]. intros j v nd _ _. by exists []. }
  apply Forall_cons in Hr as [Hi Hr]. cbn [fst] in Hi.
  destruct (downstream_simple i port Hi) as (m & Hd & Hm).
  assert (Hs : finishNode now id act depth g s (i, port)
    = Ok (applyArrivalsLocked now s id act depth (inIndexOrder m)).1).
  { unfold finishNode. cbn [fst snd]. by rewrite Hd. }
  destruct (IH (applyArrivalsLocked now s id act depth (inIndexOrder m)).1 Hr) as (s' & Hs' & Ht).
  exists s'. split; [unfold finishNodes; cbn [foldM]; by rewrite Hs|].
  intros j v nd Hj Hnd. destruct (Ht j v nd Hj Hnd) as (l & Hok & Ha & Hb & Hl).
  destruct (downstream_at i port m j v nd Hj Hnd Hm) as (Hok1 & Ha1 & Hb1).
  eexists (_ ++ l). rewrite Hl, applyArrivals_tally, <- foldl_app. split_and!;
    [by apply Forall_app|rewrite arrived_app, Ha, Ha1; cbn; lia
    |rewrite activeArrived_app, Hb, Hb1; cbn; lia|done].
Qed.
End simple.

(** ** Every inbound edge is counted once *)

Lemma sum_over_nodes {A} (f : list A -> nat) (ls : list (list A)) idxs :
  idxs ≡ₚ seq 0 (length ls) -> f [] = 0%nat -> (forall a b, f (a ++ b) = f a + f b)%nat ->
  sum_list (map (fun i => f (default [] (ls !! i))) idxs) = f (concat ls).
Proof.
  intros Hp H0 Happ. transitivity (sum_list (map f ls)).
  - rewrite Hp. f_equal. rewrite <- (list_as_seq (fun i => f (default [] (ls !! i))) (length ls) (map f ls));
      [done|by rewrite length_map|].
    intros i Hi. rewrite list_lookup_fmap.
    destruct (lookup_lt_is_Some_2 ls i Hi) as [l Hl]. by rewrite Hl.
  - clear Hp. induction ls as [|l ls IH]; cbn; [done|]. by rewrite Happ, IH.
Qed.

(** A node graph as the compiler accepts it, without groups. *)
Record plainGraph (g : Graph) : Prop := {
  pg_wf : wf_nodes g;
  pg_groups : g_groups g = [];
  pg_length : length (g_outEdges g) = NodeCount g;
  pg_indexed : forall i es e, g_outEdges g !! i = Some es -> e ∈ es -> e_SrcIdx e = i;
  pg_no_loop : forall e, e ∈ concat (g_outEdges g) -> e_SrcIdx e <> e_DstIdx e
}.

Lemma plain_nodeUnits g0 g : plainGraph g0 -> buildUnits g0 = Ok g ->
  nodeUnits g /\ g_nodes g = g_nodes g0 /\ g_outEdges g = g_outEdges g0.
Proof.
  intros [H1 H2 H3 H4 H5] E. destruct (buildUnits_spec g0 H1)
    as (g' & Hn & Ho & Hp & Hok & Hc & Hgr & Hcase).
  assert (g' = g) as -> by (destruct Hcase as [[_ ?]|(_ & _ & ?)]; congruence).
  split; [|done]. split; try done; rewrite ?Ho; unfold NodeCount; rewrite ?Hn; try done.
  - rewrite H2 in Hgr. by destruct (g_groups g).
  - intros e He. destruct (wf_edges g0 H1 e He) as [Hs Hd]. unfold has_unit, schedulable in *.
    rewrite <- Hn in Hs, Hd. by split; apply (up_sched g Hp).
Qed.

Lemma node_in_degree g j v d :
  nodeUnits g -> g_nodeUnit g !! j = Some (Some v) -> g_unitInDegree g !! v = Some d ->
  d = Z.of_nat (length (edgesTo j (concat (g_outEdges g)))).
Proof.
  intros Hg Hj Hd. destruct (uo_degree _ (nu_edges g Hg)) as [_ Hdeg]. rewrite (Hdeg _ _ Hd).
  f_equal. unfold unitEdges. rewrite (nu_groups g Hg). cbn. rewrite app_nil_r.
  rewrite filter_crossEdge by apply (nu_ends g Hg). unfold edgesTo.
  f_equal. apply filter_ext_in. intros e He. split.
  - intros [E _]. by eapply unit_inj.
  - intros <-. split; [done|]. intros E. by apply (nu_no_loop g Hg e He), (unit_inj g Hg _ _ v).
Qed.

(** ** Main results *)

(** C10. No unit is left waiting.  In a compiled graph without groups, let every
    node finish once, in any order, each with any port (the empty one when it
    was skipped).  Then planning never fails, and every unit with inbound edges
    has received exactly all of them and has been decided: it is marked to
    execute if some finished source took the port of an edge into it, and to be
    skipped otherwise, whatever its merge mode. *)
Theorem every_unit_decided g0 g runs now id act depth s :
  plainGraph g0 -> buildUnits g0 = Ok g -> runs.*1 ≡ₚ seq 0 (NodeCount g) ->
  exists s', finishNodes now id act depth g runs s = Ok s' /\
    forall j v d, g_nodeUnit g !! j = Some (Some v) -> g_unitInDegree g !! v = Some d -> 0 < d ->
      tallyAt s id (Z.of_nat v) = mkTally d 0 "" ->
      let active := Z.of_nat (activeInto g runs j) in
      tallyAt s' id (Z.of_nat v) = mkTally 0 active (if 0 <? active then "execute" else "skip").
Proof.
  intros Hg0 Hb Hp. destruct (plain_nodeUnits g0 g Hg0 Hb) as (Hg & _ & _).
  assert (Hr : Forall (fun run => (run.1 < NodeCount g)%nat) runs).
  { apply Forall_forall. intros run Hin. assert (Hi : run.1 ∈ runs.*1) by (by apply list_elem_of_fmap_2).
    rewrite Hp in Hi. apply elem_of_seq in Hi. lia. }
  destruct (finishNodes_tally g Hg now id act depth runs s Hr) as (s' & Hs' & Ht).
  exists s'. split; [done|]. intros j v d Hj Hd Hpos H0 active.
  destruct (proj2 (up_sched g (nu_partition g Hg) j) (ex_intro _ v Hj)) as (nd & Hnd & _).
  destruct (Ht j v nd Hj Hnd) as (l & Hok & Ha & Hact & ->).
  pose proof (node_in_degree g j v d Hg Hj Hd) as Hdeg.
  assert (Hsum : arrived l = d).
  { rewrite Ha, Hdeg. f_equal. rewrite <- (sum_over_nodes (fun es => length (edgesTo j es))
      (g_outEdges g) runs.*1); [by rewrite map_map| |done|].
    - by rewrite (nu_length g Hg).
    - intros a b. unfold edgesTo. by rewrite filter_app, length_app. }
  rewrite H0, (fanIn_correct (nm_MergeMode nd)).
  - rewrite Hsum, Hact, Z.sub_diag. f_equal. unfold fanIn. fold active. rewrite Z.leb_refl.
    by destruct (0 <? active), (bool_decide _).
  - done.
  - intros ->. unfold arrived in Hsum. cbn in Hsum. lia.
  - lia.
Qed.

(** A diamond: [start] forks to [a] and [b], which meet in [end]. *)
Definition mainEdge (src dst : nat) : Edge := mkEdge src dst "main" "main".

Definition demoDiamond : Graph :=
  mkGraph "diamond"
    [exampleNode "start" "action" None; exampleNode "a" "action" None;
     exampleNode "b" "action" None; exampleNode "end" "action" None]
    [[mainEdge 0 1; mainEdge 0 2]; [mainEdge 1 3]; [mainEdge 2 3]; []]
    [[]; [mainEdge 0 1]; [mainEdge 0 2]; [mainEdge 1 3; mainEdge 2 3]]
    [0; 1; 1; 2] false None 0 0 false [] [] [] [] [] [] "".

Lemma demoDiamond_plain : plainGraph demoDiamond.
Proof.
  split; [split|done|done|..].
  - intros e He. revert e He. apply Forall_forall. by apply (bool_decide_unpack _).
  - intros i nd gi Hi Hgi. by destruct i as [|[|[|[|i]]]]; simplify_eq/=.
  - done.
  - done.
  - intros i es e Hi He. destruct i as [|[|[|[|i]]]]; simplify_eq/=;
      rewrite ?elem_of_cons, ?elem_of_nil in He; naive_solver.
  - intros e He. revert e He. apply Forall_forall. by apply (bool_decide_unpack _).
Qed.

Lemma every_unit_decided_witness :
  exists g s', buildUnits demoDiamond = Ok g /\
    finishNodes 5 "e1" 0 0 g [(0, "main"); (2, ""); (1, "main"); (3, "main")]%nat
      (newMemoryState false <| inDegrees := {["e1/1" := 1; "e1/2" := 1; "e1/3" := 2]} |>) = Ok s' /\
    ta_mark (tallyAt s' "e1" 3) = "execute".
Proof.
  destruct (buildUnits demoDiamond) as [g| | |] eqn:E; try (vm_compute in E; done).
  set (s := newMemoryState false <| inDegrees := {["e1/1" := 1; "e1/2" := 1; "e1/3" := 2]} |>).
  destruct (every_unit_decided demoDiamond g [(0, "main"); (2, ""); (1, "main"); (3, "main")]%nat
    5 "e1" 0 0 s demoDiamond_plain E) as (s' & Hs & H).
  { vm_compute in E. injection E as <-. cbn. apply Permutation_skip, Permutation_swap. }
  exists g, s'. split; [done|]. split; [done|].
  vm_compute in E. injection E as <-. change 3 with (Z.of_nat 3).
  rewrite (H 3%nat 3%nat 2); try done; by vm_compute.
Defined.

(** ** Groups as successors *)

Lemma countUnitEdge_group g exits r m ue um :
  g_units g !! ue_DstUnit ue = Some um -> um_Kind um = UnitGroup -> m !! ue_DstUnit ue = None ->
  countUnitEdge g exits r m ue = Panic.
Proof.
  intros Hu Hk Hm. unfold countUnitEdge, newUnitArrival, UnitNodeIndex. rewrite Hm.
  rewrite (proj2 (idx_Ok _ _ _) Hu). cbn. by rewrite Hk.
Qed.

Lemma countUnitEdge_safe g exits r m ue :
  (exists m', countUnitEdge g exits r m ue = Ok m' /\
     forall k, k <> ue_DstUnit ue -> m' !! k = m !! k) \/
  countUnitEdge g exits r m ue = Panic.
Proof.
  unfold countUnitEdge.
  assert (Hn : (exists a, newUnitArrival g (ue_DstUnit ue) = Ok a) \/
    newUnitArrival g (ue_DstUnit ue) = Panic).
  { unfold newUnitArrival, UnitNodeIndex, NodeAt, UnitKindAt, GroupMetaAt, UnitMergeMode, idx.
    repeat (case_match; simplify_eq/=); eauto. }
  destruct (m !! ue_DstUnit ue) as [a|]; [|destruct Hn as [[a ->]| ->]]; cbn; [left|left|by right];
    eexists; (split; [done|]); intros k Hk; by rewrite lookup_insert_ne.
Qed.

(** C40. A group cannot hand over to a group.  Planning the commit of a group looks
    the destination up as a node before it asks whether it is a group, and that
    lookup panics: whatever exits fired, the commit of a group with another
    group among its successors never produces its arrivals. *)
Theorem group_to_group_panics g u es ue um exits routeToErrorOutput :
  g_unitOutEdges g !! u = Some es -> ue ∈ es ->
  g_units g !! ue_DstUnit ue = Some um -> um_Kind um = UnitGroup ->
  downstreamUnitArrivals g u exits routeToErrorOutput = Panic.
Proof.
  intros Hes Hin Hu Hk. unfold downstreamUnitArrivals. rewrite (proj2 (idx_Ok _ _ _) Hes). cbn.
  assert (Hm : (∅ : gmap nat DownstreamArrival) !! ue_DstUnit ue = None) by apply lookup_empty.
  revert Hm. generalize (∅ : gmap nat DownstreamArrival) as m. clear Hes.
  induction es as [|e es IH]; [by apply elem_of_nil in Hin|]. intros m Hm. cbn.
  apply elem_of_cons in Hin as [<-|Hin]; [by erewrite countUnitEdge_group|].
  destruct (countUnitEdge_safe g exits routeToErrorOutput m e) as [(m' & E & Hk')|E]; rewrite E;
    [|done]. cbn.
  destruct (decide (ue_DstUnit ue = ue_DstUnit e)) as [Ee|Hne]; [|apply IH; [done|by rewrite Hk']].
  rewrite (countUnitEdge_group g exits routeToErrorOutput m e um) in E; [done| |done|];
    by rewrite <- Ee.
Qed.

(** Two groups in a row. *)
Definition demoTwoGroups : Graph :=
  mkGraph "two groups" [exampleNode "a" "action" (Some 0%nat); exampleNode "b" "action" (Some 1%nat)]
    [[mainEdge 0 1]; []] [[]; [mainEdge 0 1]] [0; 1] false None 0 0 false
    [mkGroupMeta "g1" [0%nat] 0 0 false [] [] "" [] 0 "durable";
     mkGroupMeta "g2" [1%nat] 1 0 false [] [] "" [] 0 "durable"]
    [] [] [] [] [] "".

Lemma group_to_group_panics_witness :
  exists g, buildUnits demoTwoGroups = Ok g /\
    downstreamUnitArrivals g 0 [("a", "main")] false = Panic.
Proof.
  destruct (buildUnits demoTwoGroups) as [g| | |] eqn:E; try (vm_compute in E; done).
  exists g. split; [done|].
  vm_compute in E. injection E as <-.
  eapply group_to_group_panics; [reflexivity|by left|reflexivity|reflexivity].
Defined.

(** ** Skipped groups *)

Lemma put_tally now s id o id' u :
  tallyAt (putOutboxEntryLocked now s id o).1 id' u = tallyAt s id' u.
Proof. by destruct (putOutbox_only now s id o) as (ob & ->). Qed.

Lemma putOptional_tally now s id oid t id' u :
  tallyAt (putOptional now s id oid t).1 id' u = tallyAt s id' u.
Proof.
  apply (putOptional_rel (same (fun s => tallyAt s id' u)) now). intros s0 id0 o. apply put_tally.
Qed.

Lemma finish_tally now s id e st msg id' u :
  tallyAt (finishExecutionLocked now s id e st msg) id' u = tallyAt s id' u.
Proof.
  destruct (finish_shape now s id e st msg)
    as (s1 & dl & (ex & ob & ws & sh & q & ->) & ->). done.
Qed.

Lemma commitWrite_tally now s req current id u :
  tallyAt (commitWriteNode now s req current) id u = tallyAt s id u.
Proof.
  unfold commitWriteNode, preserveOutputPrivacyLocked. cbn zeta.
  by repeat (case_match; simplify_eq/=).
Qed.

Lemma commitCount_tally now s req e id u :
  tallyAt (commitCount now s req e).1 id u = tallyAt s id u.
Proof.
  unfold commitCount. destruct (req_AllowCycles req); [done|]. cbn zeta.
  set (s1 := if decide (req_Status req = NodeStatusFailed) then (_ : memoryState) else _).
  assert (H1 : tallyAt s1 id u = tallyAt s id u) by (unfold s1; by case_decide).
  destruct (_ || _); [|exact H1]. cbn [fst]. by rewrite finish_tally.
Qed.

(** An acyclic commit moves the counters of a unit by its own arrivals, if at
    all. *)
Lemma commit_tally now s req u :
  req_AllowCycles req = false ->
  let id := req_ExecutionID req in
  let s' := (commitNodeLocked now s req).1 in
  tallyAt s' id u = tallyAt s id u \/
  tallyAt s' id u
  = foldl tallyStep (tallyAt s id u) (filter (fun a => da_UnitIdx a = u) (req_Arrivals req)).
Proof.
  intros Hac id s'. unfold s'.
  destruct (decide (res_Outcome (commitNodeLocked now s req).2 = CommitOutcomeAccepted))
    as [Ha|Ha]; [|left; by rewrite commit_refused_same].
  apply commit_accepted_inv in Ha as (e & _ & _ & _ & _ & ->). cbn zeta. fold id.
  match goal with |- context [commitCount now ?w req e] =>
    pose proof (commitCount_tally now w req e id u) as Hc end.
  rewrite commitWrite_tally in Hc. destruct (commitCount now _ req e) as [s2 final].
  cbn [fst] in Hc. rewrite <- Hc. unfold commitSchedule. cbn zeta. fold id. rewrite Hac. cbn [negb andb].
  match goal with |- context [putOptional now s2 id ?o ?t] =>
    pose proof (putOptional_tally now s2 id o t id u) as H1;
    destruct (putOptional now s2 id o t) as [s3 ids1] end.
  match goal with |- context [putOptional now s3 id ?o ?t] =>
    pose proof (putOptional_tally now s3 id o t id u) as H2;
    destruct (putOptional now s3 id o t) as [s4 ids2] end.
  cbn [fst] in *. rewrite <- H1, <- H2. destruct (_ && _); [|by left]. right.
  pose proof (applyArrivals_tally now s4 id (req_ActivationID req) (req_AutoDepth req)
    (req_Arrivals req) u) as H3.
  by destruct (applyArrivalsLocked now s4 _ _ _ _) as [s5 [ids3 sk]].
Qed.

(** Where the arrivals of a node go. *)
Lemma downstream_units g i port l a :
  downstreamArrivals g i port = Ok l -> a ∈ l ->
  exists e u, e ∈ outEdgesOf g (Z.to_nat i) /\ g_nodeUnit g !! e_DstIdx e = Some (Some u) /\
    da_UnitIdx a = Z.of_nat u.
Proof.
  unfold downstreamArrivals. destruct (_ || _); [intros [= <-] ?%elem_of_nil; done|].
  intros (es & Hes & H)%res_bind_Ok. apply idx_Ok in Hes.
  apply res_bind_Ok in H as (m & Hm & [= <-]). intros Hin.
  apply (foldM_countEdge g port []) in Hm; [|intros dst; by rewrite lookup_empty].
  unfold inIndexOrder in Hin. apply list_elem_of_omap in Hin as (dst & _ & Hd).
  specialize (Hm dst). rewrite Hd in Hm. destruct Hm as (Hne & a0 & H0 & ->).
  destruct (edgesTo dst es) as [|e es'] eqn:E; [done|].
  assert (He : e ∈ edgesTo dst es) by (rewrite E; by left).
  apply list_elem_of_filter in He as [<- He].
  unfold newArrival in H0. apply res_bind_Ok in H0 as (meta & _ & H0).
  apply res_bind_Ok in H0 as (u & Hu & H0). apply res_bind_Ok in H0 as (k & _ & [= <-]).
  unfold unitOf in Hu. apply res_bind_Ok in Hu as ([u'|] & Hu & [= ->]). apply idx_Ok in Hu.
  exists e, u. unfold outEdgesOf. by rewrite Hes.
Qed.


(** The group of [exampleGraph], decided "skip", over a running execution. *)
Definition demoSkipTask : Task :=
  zeroTask <| t_ExecutionID := "e1" |> <| t_NodeName := "a" |> <| t_NodeIdx := 1 |>
    <| t_UnitIdx := 2 |> <| t_Type := TaskTypeNodeSkip |>.
Definition demoSkipped : memoryState :=
  demoCreated <| remaining := {["e1" := 3]} |> <| inDegrees := {["e1/1" := 2; "e1/2" := 0]} |>
    <| scheduled := {["e1/2" := "skip"]} |>.

