(* ===== verification/Verdict.v ===== *)
(** * What a task result becomes

    The engine's side of a commit ([engine/commit.go], [engine/atomic_commit.go],
    [engine/errorpolicy.go], [engine/scheduler.go]): retry or settle a failure,
    apply the node's error policy, build the fenced request, hand it to the
    store and report the outcome.  The engine runs over the in-memory store,
    which folds arrivals and merge cancellations into the commit. *)

From S2P Require Import Prelude Keys Types Retry Graph Units MergeCancel State Executions Outbox Lease Commit Signals Arrivals.

(** ** Results and errors *)

Record BusinessError : Type := mkBusinessError {
  be_Message : string;
  be_StatusCode : Z;
  be_NodeName : string
}.

Record ClassifiedError : Type := mkClassifiedError {
  ce_Code : string;
  ce_Permanent : bool;
  ce_Details : Data
}.

(** A Go [error] as the engine inspects it: its text, whether the chain carries
    [ErrPermanent], and the [ClassifiedError] in the chain. *)
Record GoError : Type := mkGoError {
  ge_Message : string;
  ge_Permanent : bool;
  ge_Classified : option ClassifiedError
}.

Record Output : Type := mkOutput {
  o_Data : Data;
  o_Error : option BusinessError;
  o_Port : string;
  o_State : Data;
  o_Resuspend : bool
}.

Record NodeResult : Type := mkNodeResult {
  nr_Output : option Output;
  nr_Suspend : option SuspendSpec;
  nr_Error : option GoError
}.

Definition IsPermanent (e : GoError) : bool :=
  ge_Permanent e || match ge_Classified e with Some c => ce_Permanent c | None => false end.

Abbreviation NodeTimeoutErrorCode := "node.timeout".

Definition isNodeTimeoutError (e : option GoError) : bool :=
  match e with
  | Some e => match ge_Classified e with
              | Some c => bool_decide (ce_Code c = NodeTimeoutErrorCode)
              | None => false
              end
  | None => false
  end.

(** ** Error policies *)

Record OnErrorOutcome : Type := mkOnErrorOutcome {
  oo_Output : Data;
  oo_RoutePort : string;
  oo_NodeStatus : NodeStatus;
  oo_ExecFatal : bool;
  oo_ErrorMessage : string
}.

Definition copyOutputData (output : option Output) : gmap string any :=
  match output with Some o => default ∅ (o_Data o) | None => ∅ end.

Definition buildErrData (msg : string) (bizErr : option BusinessError) : any :=
  AObj ([("message", AStr msg)] ++
    match bizErr with
    | Some b =>
        (if be_StatusCode b =? 0 then [] else [("status_code", ANum (be_StatusCode b))]) ++
        (if decide (be_NodeName b = "") then [] else [("node", AStr (be_NodeName b))])
    | None => []
    end).

Definition ApplyOnError (strategy : string) (sysErr : option GoError)
    (bizErr : option BusinessError) (output : option Output) : OnErrorOutcome :=
  let errMsg := match sysErr, bizErr with
                | Some e, _ => ge_Message e
                | None, Some b => be_Message b
                | None, None => ""
                end in
  if decide (strategy = "error_output") then
    mkOnErrorOutcome (Some (<["error" := buildErrData errMsg bizErr]> (copyOutputData output)))
      "error" NodeStatusSuccess false errMsg
  else if decide (strategy = "main_output") then
    mkOnErrorOutcome (Some (<["error" := buildErrData errMsg None]> (copyOutputData output)))
      "main" NodeStatusSuccess false errMsg
  else if decide (strategy = "continue") then
    mkOnErrorOutcome (Some (copyOutputData output)) "main" NodeStatusContinued false errMsg
  else mkOnErrorOutcome None "" NodeStatusFailed true errMsg.

(** A result that routes itself to the error port asks for a retry. *)
Definition outputPortRetryError (output : option Output) : option GoError :=
  match output with
  | None => None
  | Some o =>
      if decide (o_Port o <> "error") then None
      else
        match o_Error o with
        | Some _ => None
        | None =>
            let msg := match o_Data o with
                       | Some m => match m !! "error" with
                                   | Some (AStr msg) => if decide (msg = "") then None else Some msg
                                   | _ => None
                                   end
                       | None => None
                       end in
            Some (mkGoError (default "node returned error port" msg) false None)
        end
  end.

(** ** Error details *)

Abbreviation maxErrorDetailKeys := 16%nat.
Abbreviation maxErrorDetailKeyBytes := 64%nat.
Abbreviation maxErrorDetailValueSize := 512%nat.

(** Scalars survive, strings are cut, anything structured is dropped. *)
Definition boundedDetail (v : any) : option any :=
  match v with
  | AStr s => Some (AStr (String.substring 0 maxErrorDetailValueSize s))
  | ANil | ABool _ | ANum _ => Some v
  | AArr _ | AObj _ => None
  end.

Definition boundedErrorDetails (details : Data) : Data :=
  match details with
  | None => None
  | Some m =>
      let keys := filter (fun k => k <> "" /\ (String.length k <= maxErrorDetailKeyBytes)%nat)
                    (map_to_list m).*1 in
      let keys := take maxErrorDetailKeys (sortSlice String.ltb keys) in
      let out : gmap string any :=
        list_to_map (omap (fun k => v ← m !! k; v ← boundedDetail v; Some (k, v)) keys) in
      if decide (out = ∅) then None else Some out
  end.

(** The details [buildEffectiveClassification] attaches to the commit. *)
Definition effectiveDetails (systemErr : option GoError) (businessErr : option BusinessError)
    (errorPort : bool) : Data :=
  if errorPort then None
  else match businessErr, systemErr with
       | Some _, _ | None, None => None
       | None, Some e => match ge_Classified e with
                         | Some c => boundedErrorDetails (ce_Details c)
                         | None => None
                         end
       end.

(** ** Retries *)

Definition retryFor (meta : NodeMeta) : option RetrySettings :=
  if IsEnabled (nm_Retry meta) then nm_Retry meta else None.

Definition subWorkflowGeneration (generation : Z) : Z :=
  if generation <=? 0 then 1 else generation.

(** The task a retry delivers. *)
Definition retryTask (task : Task) : Task :=
  let sub := bool_decide (t_Type task = TaskTypeSubWorkflow) in
  zeroTask <| t_ExecutionID := t_ExecutionID task |> <| t_NodeName := t_NodeName task |>
    <| t_NodeIdx := t_NodeIdx task |> <| t_UnitIdx := t_UnitIdx task |>
    <| t_Type := if sub then TaskTypeSubWorkflow else TaskTypeNodeExec |>
    <| t_ActivationID := t_ActivationID task |> <| t_AutoDepth := t_AutoDepth task |>
    <| t_Generation := if sub then subWorkflowGeneration (t_Generation task) + 1 else 0 |>.

(** ** Requests *)

(** A task of the engine's own for the node of [task]. *)
Definition systemTask (task : Task) (type : TaskType) : Task :=
  zeroTask <| t_ExecutionID := t_ExecutionID task |> <| t_NodeName := t_NodeName task |>
    <| t_NodeIdx := t_NodeIdx task |> <| t_UnitIdx := t_UnitIdx task |> <| t_Type := type |>
    <| t_ActivationID := t_ActivationID task |>.

(** The fenced identity every worker commit carries. *)
Definition leaseRequest (lease : TaskLease) : CommitNodeRequest :=
  let task := tl_Task lease in
  zeroCommitNodeRequest <| req_ExecutionID := t_ExecutionID task |>
    <| req_NodeName := t_NodeName task |> <| req_NodeIdx := t_NodeIdx task |>
    <| req_UnitIdx := t_UnitIdx task |> <| req_ActivationID := t_ActivationID task |>
    <| req_AutoDepth := t_AutoDepth task |> <| req_LeaseID := tl_LeaseID lease |>
    <| req_LeaseToken := tl_LeaseToken lease |> <| req_Attempt := tl_Attempt lease |>
    <| req_StoreOutput := true |>.

(** ** A node's private state *)

Abbreviation NodeStateKey := "$state".

Definition withNodeState (data state : Data) : Data :=
  match state with
  | None => data
  | Some m => Some (<[NodeStateKey := AObj (map_to_list m)]> (default ∅ data))
  end.

(** The private state and the public remainder of a stored output. *)
Definition splitNodeState (raw : Data) : Data * Data :=
  match raw with
  | None => (None, None)
  | Some m =>
      (match m !! NodeStateKey with Some (AObj inner) => Some (list_to_map inner) | _ => None end,
       Some (delete NodeStateKey m))
  end.

Definition StripNodeState (m : Data) : Data := delete NodeStateKey <$> m.

(** ** Cyclic planning *)

Record cyclicPlan : Type := mkCyclicPlan {
  cp_entries : list OutboxEntry;
  cp_complete : bool;
  cp_finalStatus : ExecutionStatus;
  cp_finalError : string
}.

Definition planComplete (st : ExecutionStatus) (err : string) : cyclicPlan :=
  mkCyclicPlan [] true st err.

(** The entries gathered so far, or the plan that ends the loop. *)
Definition planEdge (g : Graph) (task : Task) (activePort : string) (acc : list OutboxEntry)
    (edge : Edge) : res (cyclicPlan + list OutboxEntry) :=
  if decide (e_SrcPort edge <> activePort) then Ok (inr acc)
  else if g_maxAutoDepth g <? t_AutoDepth task + 1
  then Ok (inl (planComplete ExecutionStatusFailed "max auto execution depth exceeded"))
  else
    dstMeta ← NodeAt g (e_DstIdx edge);
    let id := cyclicOutboxID (t_ExecutionID task) (nm_Name dstMeta) (t_ActivationID task + 1) in
    if decide (id ∈ map oe_ID acc) then Ok (inr acc)
    else Ok (inr (acc ++ [newOutboxEntry id
      (zeroTask <| t_ExecutionID := t_ExecutionID task |> <| t_NodeName := nm_Name dstMeta |>
         <| t_NodeIdx := Z.of_nat (e_DstIdx edge) |> <| t_Type := execTaskTypeForNode dstMeta |>
         <| t_AutoDepth := t_AutoDepth task + 1 |> <| t_ActivationID := t_ActivationID task + 1 |>)
      zeroTime])).

Fixpoint planEdges (g : Graph) (task : Task) (activePort : string) (acc : list OutboxEntry)
    (es : list Edge) : res cyclicPlan :=
  match es with
  | [] => Ok (match acc with
              | [] => planComplete ExecutionStatusSuccess ""
              | _ => mkCyclicPlan acc false ExecutionStatusNone ""
              end)
  | e :: es =>
      r ← planEdge g task activePort acc e;
      match r with
      | inl plan => Ok plan
      | inr acc => planEdges g task activePort acc es
      end
  end.

Definition planCyclicDownstream (g : Graph) (task : Task) (activePort : string) : res cyclicPlan :=
  if t_NodeIdx task <? 0 then Panic
  else
    outEdges ← NodeOutEdges g (Z.to_nat (t_NodeIdx task));
    planEdges g task activePort [] outEdges.

(** ** Answers *)

Inductive CommitError : Type :=
| ErrInvalidLeaseToken
| ErrRejected (err : CommitRequestError)
| ErrUnexpectedOutcome
| ErrAcyclicExpansion
| ErrResuspendPayload
| ErrElsewhere (msg : string)
| ErrGroupLeaseNotSupported.

Abbreviation Answer := (CommitOutcome * option CommitError)%type.

Definition staleAnswer : Answer := (CommitOutcomeStaleToken, Some ErrInvalidLeaseToken).

Definition finishAtomicCommit (result : CommitRequestError + CommitNodeResult) : Answer :=
  match result with
  | inl err => (CommitOutcomeTransientError, Some (ErrRejected err))
  | inr r =>
      match res_Outcome r with
      | CommitOutcomeAccepted | CommitOutcomeDuplicateTerminal
      | CommitOutcomeExecutionInactive => (res_Outcome r, None)
      | CommitOutcomeStaleToken => staleAnswer
      | CommitOutcomeTransientError => (CommitOutcomeTransientError, Some ErrUnexpectedOutcome)
      end
  end.

(** The engine's graph cache holds what the store holds. *)
Definition executionActive (s : memoryState) (id : string) : bool :=
  match GetExecutionStatus s id with
  | Some st => negb (IsTerminalExecutionStatus st)
  | None => false
  end.

Definition loadActiveGraph (s : memoryState) (id : string) : option Graph :=
  g ← LoadGraph s id; if executionActive s id then Some g else None.

(** The three steps in which the acyclic and the legacy path differ. *)
Record taskResultCommitStrategy : Type := mkStrategy {
  commitError : memoryState -> TaskLease -> NodeMeta -> bool -> option GoError -> option Output ->
    option BusinessError -> res (memoryState * Answer);
  commitExpand : memoryState -> TaskLease -> Graph -> Data -> res (memoryState * Answer);
  commitSuccess : memoryState -> TaskLease -> bool -> NodeStatus -> Data -> string -> string ->
    bool -> res (memoryState * Answer)
}.

Section verdict.
Set Default Proof Using "Type".
(** What the commit protocol takes from elsewhere: the instant; the delay where
    Go leaves a conversion from floating point to the platform; the scan of
    node parameters for [$nodes] references; the end of an execution by its own
    deadline, which may take a node timeout over (judged by the lease, if any); the fan-out of a loop or split
    node; the input a node is entered with ([None] for an inactive execution); and
    whether the deployment refuses to suspend, with its message. *)
Context (now : Time) (platformDelay : Z -> RetrySettings -> string -> string -> Duration)
  (hasExternalNodesReference : Graph -> nat -> nat -> bool)
  (expireIfLeaseTimeoutReached : memoryState -> Graph -> string -> option TaskLease ->
     memoryState * bool)
  (expandLoopSplit : memoryState -> TaskLease -> Graph -> Data -> res (memoryState * option string))
  (buildInput : memoryState -> Task -> Graph -> string + option Data)
  (suspendDisabled : option string).

(** ** Retrying *)

(** [false]: the lease is no longer the current one. *)
Definition scheduleRetry (s : memoryState) (task : Task) (attempt : Z) (settings : RetrySettings)
    (token : string) : memoryState * bool :=
  let id := t_ExecutionID task in
  let delay := default (platformDelay attempt settings id (t_NodeName task))
                 (retryBackoff attempt (Some settings) id (t_NodeName task)) in
  ResetNodeForRetryWithOutbox now s id (t_NodeName task) token
    (newOutboxEntry (retryOutboxID id (t_NodeName task) (t_ActivationID task) attempt)
       (retryTask task) (Add now delay)).

Inductive RetryAnswer : Type := NotRetried | Retried | RetryFenced.

Definition tryRetryWithAttempt (s : memoryState) (task : Task) (meta : NodeMeta)
    (cause : option GoError) (attempt : Z) (token : string) : memoryState * RetryAnswer :=
  match cause, retryFor meta with
  | Some e, Some settings =>
      if IsPermanent e || (rs_MaxAttempts settings <=? attempt) then (s, NotRetried)
      else
        let '(s, scheduled) := scheduleRetry s task attempt settings token in
        (s, if scheduled : bool then Retried else RetryFenced)
  | _, _ => (s, NotRetried)
  end.

(** ** Reclaiming transient outputs *)

(** The source of every edge into the node, when it is one node of a group. *)
Definition onlyGroupSource (g : Graph) (es : list Edge) : option nat :=
  match es with
  | [] => None
  | e :: _ =>
      let inGroup i := match g_nodeUnit g !! i with
                       | Some (Some u) => bool_decide (um_Kind <$> g_units g !! u = Some UnitGroup)
                       | _ => false
                       end in
      if forallb (fun e' => inGroup (e_SrcIdx e') && bool_decide (e_SrcIdx e' = e_SrcIdx e)) es
      then Some (e_SrcIdx e) else None
  end.

Definition transientOutputReclaimsForCommit (g : Graph) (nodeIdx : Z) : list string :=
  let i := Z.to_nat nodeIdx in
  if negb (g_transient g) || g_allowCycles g || (nodeIdx <? 0) ||
     (Z.of_nat (NodeCount g) <=? nodeIdx) then []
  else
    match g_nodeUnit g !! i with
    | Some (Some u) =>
        if decide (um_Kind <$> g_units g !! u = Some UnitNode) then
          match onlyGroupSource g (default [] (g_inEdges g !! i)) with
          | Some src =>
              match g_outEdges g !! src, g_nodes g !! src with
              | Some [e], Some meta =>
                  if hasExternalNodesReference g src i then []
                  else if decide (e_DstIdx e = i) then [nm_Name meta] else []
              | _, _ => []
              end
          | None => []
          end
        else []
    | _ => []
    end.

(** ** The acyclic commit *)

Definition acyclicRequest (g : Graph) (lease : TaskLease) (privateOutput : bool) (st : NodeStatus)
    (output : Data) (port errMsg : string) (fatal : bool) (details : Data)
    (normalHandlerSuccess : bool) : res CommitNodeRequest :=
  let task := tl_Task lease in
  let foldArrivals := negb fatal && negb (g_allowCycles g) in
  arrivals ← (if foldArrivals then downstreamArrivals g (t_NodeIdx task) port else Ok []);
  let advanceTask :=
    if negb fatal && negb foldArrivals
    then Some (systemTask task TaskTypeNodeAdvance <| t_AutoDepth := t_AutoDepth task |>
                 <| t_Port := Some port |>)
    else None in
  let reclaimOutputNames :=
    if normalHandlerSuccess && bool_decide (st = NodeStatusSuccess)
    then transientOutputReclaimsForCommit g (t_NodeIdx task) else [] in
  let req := leaseRequest lease <| req_Status := st |> <| req_Output := output |>
    <| req_ReclaimOutputNames := reclaimOutputNames |> <| req_PrivateOutput := privateOutput |>
    <| req_Port := port |> <| req_Error := errMsg |> <| req_ErrorDetails := details |>
    <| req_Fatal := fatal |> <| req_AdvanceTask := advanceTask |> <| req_Arrivals := arrivals |> in
  Ok (if bool_decide (st = NodeStatusSuccess) && negb fatal &&
         MergeCancelsOthers g (t_NodeIdx task) && foldArrivals
      then req <| req_MergeCancel := Some (systemTask task TaskTypeMergeCancel) |> else req).

Definition commitAcyclicNodeWithReclaimEligibility (s : memoryState) (lease : TaskLease) (g : Graph)
    (privateOutput : bool) (st : NodeStatus) (output : Data) (port errMsg : string) (fatal : bool)
    (details : Data) (normalHandlerSuccess : bool) : res (memoryState * Answer) :=
  req ← acyclicRequest g lease privateOutput st output port errMsg fatal details
          normalHandlerSuccess;
  let '(s, result) := CommitNode now s req in
  Ok (s, finishAtomicCommit result).

Definition commitAcyclicNode (s : memoryState) (lease : TaskLease) (g : Graph)
    (privateOutput : bool) (st : NodeStatus) (output : Data) (port errMsg : string) (fatal : bool)
    : res (memoryState * Answer) :=
  commitAcyclicNodeWithReclaimEligibility s lease g privateOutput st output port errMsg fatal None true.

(** Failing the execution outright, whatever the node's policy. *)
Definition failureRequest (lease : TaskLease) (privateOutput : bool) (msg : string)
    : CommitNodeRequest :=
  leaseRequest lease <| req_Status := NodeStatusFailed |> <| req_PrivateOutput := privateOutput |>
    <| req_Error := msg |> <| req_Fatal := true |>.

Definition commitAcyclicFailure (s : memoryState) (lease : TaskLease) (privateOutput : bool)
    (msg : string) : memoryState * Answer :=
  let '(s, result) := CommitNode now s (failureRequest lease privateOutput msg) in
  (s, finishAtomicCommit result).

(** ** The legacy commit *)

Definition cyclicRequest (lease : TaskLease) (privateOutput : bool) (st : NodeStatus) (output : Data)
    (port errMsg : string) (details : Data) (plan : cyclicPlan) : CommitNodeRequest :=
  leaseRequest lease <| req_Status := st |> <| req_Output := output |>
    <| req_PrivateOutput := privateOutput |> <| req_Port := port |> <| req_Error := errMsg |>
    <| req_ErrorDetails := details |> <| req_AllowCycles := true |>
    <| req_CyclicOutbox := cp_entries plan |> <| req_CyclicComplete := cp_complete plan |>
    <| req_CyclicFinalStatus := cp_finalStatus plan |>
    <| req_CyclicFinalError := cp_finalError plan |>.

Definition commitLegacyNodeWithClassification (s : memoryState) (lease : TaskLease)
    (st : NodeStatus) (output : Data) (port errMsg : string) (fatal : bool) (details : Data)
    : res (memoryState * Answer) :=
  let task := tl_Task lease in
  match loadActiveGraph s (t_ExecutionID task) with
  | None => Ok (s, (CommitOutcomeExecutionInactive, None))
  | Some g =>
      let privateOutput := privateOutputForTask g task in
      if negb (g_allowCycles g) then
        commitAcyclicNodeWithReclaimEligibility s lease g privateOutput st output port errMsg fatal
          details false
      else
        plan ← (if fatal then Ok (planComplete ExecutionStatusFailed errMsg)
                else planCyclicDownstream g task port);
        let '(s, result) :=
          CommitLeasedNode now s (cyclicRequest lease privateOutput st output port errMsg details plan) in
        Ok (s, finishAtomicCommit result)
  end.

(** ** The verdict on a failure *)

Definition commitNodeErrorOutcome (s : memoryState) (lease : TaskLease) (meta : NodeMeta)
    (privateOutput : bool) (systemErr : option GoError) (output : option Output)
    (businessErr : option BusinessError)
    (commit : memoryState -> TaskLease -> bool -> NodeStatus -> Data -> string -> string -> bool ->
       Data -> res (memoryState * Answer)) : res (memoryState * Answer) :=
  match tryRetryWithAttempt s (tl_Task lease) meta systemErr (tl_Attempt lease)
          (tl_LeaseToken lease) with
  | (s, RetryFenced) => Ok (s, (CommitOutcomeTransientError, Some ErrInvalidLeaseToken))
  | (s, Retried) => Ok (s, (CommitOutcomeAccepted, None))
  | (s, NotRetried) =>
      let outcome := ApplyOnError (nm_OnError meta) systemErr businessErr output in
      let errorPort := bool_decide (oo_RoutePort outcome = "error") && negb (isSome businessErr) in
      commit s lease privateOutput (oo_NodeStatus outcome) (oo_Output outcome)
        (oo_RoutePort outcome) (oo_ErrorMessage outcome) (oo_ExecFatal outcome)
        (effectiveDetails systemErr businessErr errorPort)
  end.

Definition commitAcyclicNodeError (g : Graph) (s : memoryState) (lease : TaskLease)
    (meta : NodeMeta) (privateOutput : bool) (systemErr : option GoError) (output : option Output)
    (businessErr : option BusinessError) : res (memoryState * Answer) :=
  commitNodeErrorOutcome s lease meta privateOutput systemErr output businessErr
    (fun s lease privateOutput st output port errMsg fatal details =>
       commitAcyclicNodeWithReclaimEligibility s lease g privateOutput st output port errMsg fatal
         details false).

Definition commitLegacyNodeError (s : memoryState) (lease : TaskLease) (meta : NodeMeta)
    (privateOutput : bool) (systemErr : option GoError) (output : option Output)
    (businessErr : option BusinessError) : res (memoryState * Answer) :=
  commitNodeErrorOutcome s lease meta privateOutput systemErr output businessErr
    (fun s lease _ => commitLegacyNodeWithClassification s lease).

(** ** The verdict on a result *)

Definition commitTaskResultWithStrategy (s : memoryState) (lease : TaskLease) (g : Graph)
    (result : NodeResult) (strategy : taskResultCommitStrategy) : res (memoryState * Answer) :=
  let task := tl_Task lease in
  meta ← (if t_NodeIdx task <? 0 then Panic else NodeAt g (Z.to_nat (t_NodeIdx task)));
  let privateOutput := privateOutputForTask g task in
  let businessErr := nr_Output result ≫= o_Error in
  if isSome (nr_Error result) || isSome businessErr then
    let '(s, handled) :=
      if isNodeTimeoutError (nr_Error result) && (0 <? g_timeout g)
      then expireIfLeaseTimeoutReached s g (t_ExecutionID task) (Some lease) else (s, false) in
    if handled : bool then Ok (s, (CommitOutcomeExecutionInactive, None))
    else commitError strategy s lease meta privateOutput (nr_Error result) (nr_Output result)
           businessErr
  else
    match outputPortRetryError (nr_Output result) with
    | Some retryErr =>
        match tryRetryWithAttempt s task meta (Some retryErr) (tl_Attempt lease)
                (tl_LeaseToken lease) with
        | (s, RetryFenced) => Ok (s, (CommitOutcomeTransientError, Some ErrInvalidLeaseToken))
        | (s, Retried) => Ok (s, (CommitOutcomeAccepted, None))
        | (s, NotRetried) =>
            commitError strategy s lease meta privateOutput (Some retryErr) (nr_Output result) None
        end
    | None =>
        let data := match nr_Output result with
                    | Some o => withNodeState (Some (default ∅ (o_Data o))) (o_State o)
                    | None => Some ∅
                    end in
        if nm_HasBody meta then commitExpand strategy s lease g data
        else
          let port := match nr_Output result with
                      | Some o => if decide (o_Port o = "") then "main" else o_Port o
                      | None => "main"
                      end in
          commitSuccess strategy s lease privateOutput NodeStatusSuccess data port "" false
    end.

Definition commitAcyclicTaskResult (s : memoryState) (lease : TaskLease) (g : Graph)
    (result : NodeResult) : res (memoryState * Answer) :=
  commitTaskResultWithStrategy s lease g result
    (mkStrategy (commitAcyclicNodeError g)
       (fun s _ _ _ => Ok (s, (CommitOutcomeTransientError, Some ErrAcyclicExpansion)))
       (fun s lease => commitAcyclicNode s lease g)).

(** Claim the lease, leave a node that is already terminal alone, fan out. *)
Definition expandLegacyTaskResult (s : memoryState) (lease : TaskLease) (g : Graph) (data : Data)
    : res (memoryState * Answer) :=
  match ClaimTaskLease s lease with
  | (s, Some node, true) =>
      if IsTerminalNodeStatus (ns_Status node) then Ok (s, (CommitOutcomeDuplicateTerminal, None))
      else
        r ← expandLoopSplit s lease g data;
        let '(s, err) := r in
        Ok (s, match err with
               | Some err => (CommitOutcomeTransientError, Some (ErrElsewhere err))
               | None => (CommitOutcomeAccepted, None)
               end)
  | (s, _, _) => Ok (s, staleAnswer)
  end.

Definition commitLegacyTaskResult (s : memoryState) (lease : TaskLease) (g : Graph)
    (result : NodeResult) : res (memoryState * Answer) :=
  commitTaskResultWithStrategy s lease g result
    (mkStrategy commitLegacyNodeError expandLegacyTaskResult
       (fun s lease _ st output port errMsg fatal =>
          commitLegacyNodeWithClassification s lease st output port errMsg fatal None)).

(** ** Suspensions *)

(** The stored output, whether it is stored, and the signal it answers. *)
Definition suspendedOutput (s : memoryState) (lease : TaskLease) (leaseInput : option Data)
    (g : Graph) (result : NodeResult) (spec : SuspendSpec) : Answer + Data * bool * string :=
  let strip (input : Data) : Data :=
    (fun m => foldl (fun m key => delete key m) m (sp_StripFromOutput spec)) <$> input in
  let first :=
    match leaseInput with
    | Some input => inr (strip input, true, "")
    | None =>
        match buildInput s (tl_Task lease) g with
        | inl err => inl (CommitOutcomeTransientError, Some (ErrElsewhere err))
        | inr None => inl (CommitOutcomeExecutionInactive, None)
        | inr (Some input) => inr (strip input, true, "")
        end
    end in
  match nr_Output result with
  | Some o =>
      if o_Resuspend o then
        match t_Payload (tl_Task lease) with
        | None => inl (CommitOutcomeTransientError, Some ErrResuspendPayload)
        | Some payload =>
            inr (withNodeState (o_Data o) (o_State o), isSome (o_Data o) || isSome (o_State o),
                 pl_Name payload)
        end
      else first
  | None => first
  end.

Definition commitSuspendedTaskResult (s : memoryState) (lease : TaskLease)
    (leaseInput : option Data) (g : Graph) (result : NodeResult) (spec : SuspendSpec)
    : memoryState * Answer :=
  match ClaimTaskLease s lease with
  | (s, Some node, true) =>
      if IsTerminalNodeStatus (ns_Status node) then (s, (CommitOutcomeDuplicateTerminal, None))
      else
        match suspendedOutput s lease leaseInput g result spec with
        | inl answer => (s, answer)
        | inr (output, storeOutput, oldSignalName) =>
            let '(s, committed) :=
              SuspendTaskLeaseWithOutbox now s lease output storeOutput
                (privateOutputForTask g (tl_Task lease)) spec oldSignalName in
            (s, if committed : bool then (CommitOutcomeAccepted, None) else staleAnswer)
        end
  | (s, _, _) => (s, staleAnswer)
  end.

(** ** The entry points *)

(** The methods that answer with an error only. *)
Definition errorOf (a : Answer) : option CommitError :=
  match a.2 with
  | Some err => Some err
  | None => if decide (a.1 = CommitOutcomeStaleToken) then Some ErrInvalidLeaseToken else None
  end.

Definition CommitTaskFailure (s : memoryState) (lease : TaskLease) (msg : string)
    : res (memoryState * option CommitError) :=
  let task := tl_Task lease in
  match loadActiveGraph s (t_ExecutionID task) with
  | None => Ok (s, None)
  | Some g =>
      if negb (g_allowCycles g) then
        let '(s, a) := commitAcyclicFailure s lease (privateOutputForTask g task) msg in
        Ok (s, errorOf a)
      else
        r ← commitLegacyNodeWithClassification s lease NodeStatusFailed None "" msg true None;
        Ok (r.1, errorOf r.2)
  end.

Definition taskResultExpands (g : Graph) (lease : TaskLease) (result : NodeResult) : bool :=
  match nr_Error result, nr_Output result with
  | None, Some o =>
      negb (isSome (o_Error o)) && negb (isSome (outputPortRetryError (Some o))) &&
      negb (t_NodeIdx (tl_Task lease) <? 0) &&
      match g_nodes g !! Z.to_nat (t_NodeIdx (tl_Task lease)) with
      | Some meta => nm_HasBody meta
      | None => false
      end
  | _, _ => false
  end.

(** [None] is the empty outcome of a report that was never classified. *)
Definition CommitTaskResultWithOutcome (s : memoryState) (lease : TaskLease)
    (leaseInput : option Data) (result : NodeResult)
    : res (memoryState * (option CommitOutcome * option CommitError)) :=
  let task := tl_Task lease in
  let answer (r : memoryState * Answer) := (r.1, (Some r.2.1, r.2.2)) in
  if decide (t_Type task = TaskTypeGroupExec) then Ok (s, (None, Some ErrGroupLeaseNotSupported))
  else
    match LoadGraph s (t_ExecutionID task) with
    | None => Ok (answer (s, (CommitOutcomeExecutionInactive, None)))
    | Some g =>
        let fencedByCommitNode :=
          negb (g_allowCycles g) && negb (isSome (nr_Suspend result)) &&
          negb (taskResultExpands g lease result) in
        if negb fencedByCommitNode && negb (executionActive s (t_ExecutionID task))
        then Ok (answer (s, (CommitOutcomeExecutionInactive, None)))
        else
          match nr_Suspend result, suspendDisabled with
          | Some _, Some msg =>
              r ← CommitTaskFailure s lease msg;
              Ok (answer (r.1, match r.2 with
                               | Some err => (CommitOutcomeTransientError, Some err)
                               | None => (CommitOutcomeAccepted, None)
                               end))
          | Some spec, None =>
              Ok (answer (commitSuspendedTaskResult s lease leaseInput g result spec))
          | None, _ =>
              r ← (if fencedByCommitNode then commitAcyclicTaskResult s lease g result
                   else commitLegacyTaskResult s lease g result);
              Ok (answer r)
          end
    end.

(** A node timeout noticed by the server; the cause is permanent. *)
Definition nodeTimeoutError : GoError :=
  mkGoError "node.timeout: node execution exceeded its deadline" false
    (Some (mkClassifiedError NodeTimeoutErrorCode true None)).

Definition CommitTaskTimeout (s : memoryState) (lease : TaskLease) (cause : option GoError)
    : res (memoryState * option CommitError) :=
  let task := tl_Task lease in
  let cause := default nodeTimeoutError cause in
  if decide (t_Type task = TaskTypeGroupExec) then Ok (s, Some ErrGroupLeaseNotSupported)
  else
    match loadActiveGraph s (t_ExecutionID task) with
    | None => Ok (s, None)
    | Some g =>
        let '(s, handled) :=
          if 0 <? g_timeout g then expireIfLeaseTimeoutReached s g (t_ExecutionID task) None
          else (s, false) in
        if handled : bool then Ok (s, None)
        else if g_allowCycles g then CommitTaskFailure s lease (ge_Message cause)
        else
          meta ← (if t_NodeIdx task <? 0 then Panic else NodeAt g (Z.to_nat (t_NodeIdx task)));
          r ← commitAcyclicNodeError g s lease meta (privateOutputForTask g task) (Some cause) None None;
          Ok (r.1, errorOf r.2)
    end.

(** ** Requests are never refused *)

(** An error of the store's request check. *)
Definition rejected (a : Answer) : Prop := exists err, a.2 = Some (ErrRejected err).

Lemma finish_rejected now' s req :
  rejected (finishAtomicCommit (CommitNode now' s req).2) -> Validate req <> None.
Proof.
  unfold CommitNode. intros [err H] E. rewrite E in H.
  destruct (commitNodeLocked now' s req) as [s' r]. cbn in H. by destruct (res_Outcome r).
Qed.

Lemma acyclic_request_valid g lease p st out port msg fatal details normal req :
  acyclicRequest g lease p st out port msg fatal details normal = Ok req ->
  (fatal = true -> normal = false) -> Validate req = None.
Proof.
  unfold acyclicRequest. intros E Hf. cbn zeta in E.
  set (names := if normal && _ then _ else _) in E.
  assert (Hn : nonEmpty names = true -> st = NodeStatusSuccess /\ normal = true).
  { unfold names. destruct normal; [|done]. case_bool_decide; [done|by intros]. }
  clearbody names. apply res_bind_Ok in E as (arrivals & Ea & E). injection E as <-.
  destruct fatal; cbn [negb andb] in *; simplify_eq.
  - rewrite andb_false_r. cbn. destruct (nonEmpty names); [|done].
    destruct Hn as [_ Hn]; [done|]. by rewrite Hf in Hn.
  - destruct (g_allowCycles g) eqn:Hc; cbn [negb andb] in *; simplify_eq.
    + rewrite !andb_false_r. unfold Validate, notPlainSuccess. cbn.
      destruct (nonEmpty names); [|done]. destruct Hn as [-> _]; done.
    + unfold Validate, notPlainSuccess. case_bool_decide; cbn; [subst|].
      * destruct (MergeCancelsOthers _ _); cbn; by destruct (nonEmpty arrivals), (nonEmpty names).
      * destruct (nonEmpty names); [by destruct Hn|]. by destruct (nonEmpty arrivals).
Qed.

Lemma failure_request_valid lease p msg : Validate (failureRequest lease p msg) = None.
Proof. done. Qed.

Lemma cyclic_request_valid lease p st out port msg details plan :
  Validate (cyclicRequest lease p st out port msg details plan) = None.
Proof. done. Qed.

(** What the engine's commits answer. *)
Definition admitted (r : res (memoryState * Answer)) : Prop :=
  forall s a, r = Ok (s, a) -> ~ rejected a.

Lemma commit_admitted s req :
  Validate req = None ->
  admitted (let '(s, result) := CommitNode now s req in Ok (s, finishAtomicCommit result)).
Proof.
  intros Hv s' a E Hr. pose proof (finish_rejected now s req) as H.
  destruct (CommitNode now s req) as [s1 r]. simplify_eq. by apply H.
Qed.

Lemma acyclic_node_admitted s lease g p st out port msg fatal details normal :
  (fatal = true -> normal = false) ->
  admitted (commitAcyclicNodeWithReclaimEligibility s lease g p st out port msg fatal details normal).
Proof.
  intros Hf s' a E. apply res_bind_Ok in E as (req & Er & E).
  by eapply commit_admitted, E; eapply acyclic_request_valid.
Qed.

Lemma cyclic_node_admitted s lease p st out port msg details plan :
  admitted (let '(s, result) :=
    CommitLeasedNode now s (cyclicRequest lease p st out port msg details plan) in
    Ok (s, finishAtomicCommit result)).
Proof. apply commit_admitted. apply cyclic_request_valid. Qed.

Lemma legacy_node_admitted s lease st out port msg fatal details :
  admitted (commitLegacyNodeWithClassification s lease st out port msg fatal details).
Proof.
  intros s' a E. unfold commitLegacyNodeWithClassification in E.
  destruct (loadActiveGraph s _) as [g|]; [|injection E as <- <-; by intros [err ?]].
  cbn zeta in E. destruct (negb (g_allowCycles g)).
  - refine (acyclic_node_admitted _ _ _ _ _ _ _ _ _ _ _ _ _ _ E). done.
  - apply res_bind_Ok in E as (plan & _ & E). by apply cyclic_node_admitted in E.
Qed.

Lemma error_outcome_admitted s lease meta p sysErr out bizErr commit :
  (forall s lease p st out port msg fatal details,
     admitted (commit s lease p st out port msg fatal details)) ->
  admitted (commitNodeErrorOutcome s lease meta p sysErr out bizErr commit).
Proof.
  intros Hc s' a. unfold commitNodeErrorOutcome.
  destruct (tryRetryWithAttempt _ _ _ _ _ _) as [s1 []]; [apply Hc|..];
    by intros [= <- <-] [err ?].
Qed.

(** The three steps of a strategy keep within the store's request check. *)
Definition admittedStrategy (st : taskResultCommitStrategy) : Prop :=
  (forall s lease meta p e o b, admitted (commitError st s lease meta p e o b)) /\
  (forall s lease g data, admitted (commitExpand st s lease g data)) /\
  (forall s lease p data port, admitted (commitSuccess st s lease p NodeStatusSuccess data port "" false)).

Lemma strategy_admitted s lease g result st :
  admittedStrategy st -> admitted (commitTaskResultWithStrategy s lease g result st).
Proof.
  intros (He & Hx & Hs) s' a E. apply res_bind_Ok in E as (meta & _ & E). cbn zeta in E.
  destruct (_ || _).
  - destruct (isNodeTimeoutError _ && _); [|by eapply He].
    destruct (expireIfLeaseTimeoutReached _ _ _ _) as [s1 []]; [|by eapply He].
    injection E as <- <-. by intros [err ?].
  - destruct (outputPortRetryError _) as [e|].
    + destruct (tryRetryWithAttempt _ _ _ _ _ _) as [s1 []]; [by eapply He|..];
        injection E as <- <-; by intros [err ?].
    + destruct (nm_HasBody meta); [by eapply Hx|by eapply Hs].
Qed.

Lemma acyclic_result_admitted s lease g result :
  admitted (commitAcyclicTaskResult s lease g result).
Proof.
  apply strategy_admitted. split_and!; cbn [commitError commitExpand commitSuccess].
  - intros. apply error_outcome_admitted. intros. by apply acyclic_node_admitted.
  - intros s0 l0 g0 d0 s1 a E. injection E as <- <-. by intros [err ?].
  - intros. by apply acyclic_node_admitted.
Qed.

Lemma expand_admitted s lease g data : admitted (expandLegacyTaskResult s lease g data).
Proof.
  unfold expandLegacyTaskResult. intros s' a.
  destruct (ClaimTaskLease s lease) as [[s1 [node|]] []];
    try (intros [= <- <-]; by intros [err ?]).
  destruct (IsTerminalNodeStatus _); [intros [= <- <-]; by intros [err ?]|].
  intros E. apply res_bind_Ok in E as ([s2 o] & _ & E). injection E as <- <-.
  by destruct o; intros [err ?].
Qed.

Lemma legacy_result_admitted s lease g result :
  admitted (commitLegacyTaskResult s lease g result).
Proof.
  apply strategy_admitted. split_and!; cbn [commitError commitExpand commitSuccess].
  - intros. apply error_outcome_admitted. intros. apply legacy_node_admitted.
  - intros. apply expand_admitted.
  - intros. apply legacy_node_admitted.
Qed.

Lemma suspended_admitted s lease input g result spec :
  ~ rejected (commitSuspendedTaskResult s lease input g result spec).2.
Proof.
  unfold commitSuspendedTaskResult. intros [err H].
  destruct (ClaimTaskLease s lease) as [[s1 [node|]] []]; try done.
  destruct (IsTerminalNodeStatus _); [done|]. unfold suspendedOutput in H.
  repeat (case_match; simplify_eq/=; try done).
Qed.

Lemma errorOf_rejected a err : errorOf a = Some (ErrRejected err) -> rejected a.
Proof.
  destruct a as [o [e|]]; unfold errorOf; cbn; [intros [= ->]; by eexists|by case_decide].
Qed.

Lemma failure_admitted s lease msg s' err :
  CommitTaskFailure s lease msg <> Ok (s', Some (ErrRejected err)).
Proof.
  unfold CommitTaskFailure. destruct (loadActiveGraph s _) as [g|]; [|done].
  cbn zeta. destruct (negb (g_allowCycles g)).
  - unfold commitAcyclicFailure. pose proof (finish_rejected now s
      (failureRequest lease (privateOutputForTask g (tl_Task lease)) msg)) as H.
    destruct (CommitNode now s _) as [s1 r]. intros [= <- E]. apply errorOf_rejected in E.
    by apply H.
  - intros E. apply res_bind_Ok in E as ([s1 a] & E & [= <- Ha]).
    by apply legacy_node_admitted in E; apply errorOf_rejected in Ha.
Qed.

(** The engine never builds a commit the store refuses to look at: whatever
    the result, the lease, the graph and the state of the store, reporting a task
    result is not answered with one of the store's request errors (arrivals or
    reclaims on a fatal commit, a merge cancellation beside an advance, a fatal
    flag or arrivals on a cyclic commit, and the others). *)
Theorem engine_requests_admitted s lease input result s' outcome err :
  CommitTaskResultWithOutcome s lease input result <> Ok (s', (outcome, Some (ErrRejected err))).
Proof.
  unfold CommitTaskResultWithOutcome. case_decide; [done|].
  destruct (LoadGraph s _) as [g|]; [|done]. cbn zeta. destruct (_ && _); [done|].
  destruct (nr_Suspend result) as [spec|].
  - destruct suspendDisabled as [msg|].
    + intros E. apply res_bind_Ok in E as ([s1 o] & E & [= <- _ Ho]).
      destruct o as [e|]; [|done]. injection Ho as ->. by apply failure_admitted in E.
    + intros [= _ _ E]. eapply suspended_admitted. by exists err.
  - intros E. apply res_bind_Ok in E as ([s1 a] & E & [= <- _ Ha]).
    destruct (_ && _ && _); [apply acyclic_result_admitted in E|apply legacy_result_admitted in E];
      by apply E; exists err.
Qed.

(** ** Retries keep within their budget *)

(** The failure asks for another attempt. *)
Definition wantsRetry (meta : NodeMeta) (cause : option GoError) (attempt : Z) : bool :=
  match cause, retryFor meta with
  | Some e, Some settings => negb (IsPermanent e) && (attempt <? rs_MaxAttempts settings)
  | _, _ => false
  end.

Lemma not_retried s task meta cause attempt token :
  wantsRetry meta cause attempt = false ->
  tryRetryWithAttempt s task meta cause attempt token = (s, NotRetried).
Proof.
  unfold wantsRetry, tryRetryWithAttempt. destruct cause as [e|]; [|done].
  destruct (retryFor meta) as [settings|]; [|done].
  rewrite andb_false_iff, negb_false_iff, Z.ltb_ge. intros [->|H]; [done|].
  rewrite (proj2 (Z.leb_le _ _)) by done. by rewrite orb_true_r.
Qed.

Lemma reset_iff s id name token :
  (resetNodeForRetryLocked s id name (Some token)).2 = true <->
  token <> "" /\ exists n, nodes s !! memoryNodeKey id name = Some n /\
    leasedStatus (ns_Status n) = true /\ ns_LeaseToken n = token.
Proof.
  clear. unfold resetNodeForRetryLocked.
  destruct (nodes s !! memoryNodeKey id name) as [n|]; [|naive_solver].
  destruct (leasedStatus (ns_Status n)) eqn:El; cbn; [|naive_solver].
  case_bool_decide as Hb; cbn; [naive_solver|].
  split; [|done]. intros _. split; [tauto|]. exists n. split_and!; try done.
  destruct (decide (ns_LeaseToken n = token)); tauto.
Qed.

Lemma storeNode_shape s key n :
  exists po ns p, storeNode s key n = s <| privateOutputs := po |> <| nodes := ns |> /\
    ns !! key = Some (withPrivacy p n).
Proof.
  unfold storeNode, preserveOutputPrivacyLocked. cbn zeta. repeat case_match; simplify_eq;
    (eexists (privateOutputs _), _, _; split; [reflexivity|apply lookup_insert_eq]).
Qed.

(** The store after a retry was scheduled. *)
Definition retryScheduled (s : memoryState) (task : Task) (attempt delay : Z) (s' : memoryState)
    : Prop :=
  let id := t_ExecutionID task in
  let oid := retryOutboxID id (t_NodeName task) (t_ActivationID task) attempt in
  (exists n, nodes s' !! memoryNodeKey id (t_NodeName task) = Some n /\
     ns_Status n = NodeStatusPending /\ ns_LeaseToken n = "") /\
  (exists st, outboxOf s' id !! oid = Some st /\
     (outboxOf s id !! oid = None ->
      oe_Task (ob_entry st) = cloneTask (retryTask task) /\
      oe_AvailableAt (ob_entry st) = Add now delay)) /\
  executions s' = executions s /\ remaining s' = remaining s /\ failed s' = failed s.

Lemma schedule_retry_iff s task attempt settings token :
  let '(s', ok) := scheduleRetry s task attempt settings token in
  (ok = true <-> token <> "" /\
   exists n, nodes s !! memoryNodeKey (t_ExecutionID task) (t_NodeName task) = Some n /\
     leasedStatus (ns_Status n) = true /\ ns_LeaseToken n = token) /\ (ok = false -> s' = s).
Proof.
  pose proof (reset_iff s (t_ExecutionID task) (t_NodeName task) token) as H.
  unfold scheduleRetry, ResetNodeForRetryWithOutbox.
  destruct (reset_cases s (t_ExecutionID task) (t_NodeName task) token)
    as [E|(n & _ & _ & _ & _ & E)]; rewrite E in H |- *; by split.
Qed.

Lemma schedule_retry_effect s task attempt settings token delay :
  retryBackoff attempt (Some settings) (t_ExecutionID task) (t_NodeName task) = Some delay ->
  let '(s', ok) := scheduleRetry s task attempt settings token in
  ok = true -> retryScheduled s task attempt delay s'.
Proof.
  intros Hd. unfold scheduleRetry, ResetNodeForRetryWithOutbox, retryScheduled. rewrite Hd.
  destruct (reset_cases s (t_ExecutionID task) (t_NodeName task) token)
    as [->|(n & Hn & _ & _ & _ & ->)]; [done|]. cbn [negb]. intros _.
  destruct (storeNode_shape s (memoryNodeKey (t_ExecutionID task) (t_NodeName task))
    (clearLease (n <| ns_Status := NodeStatusPending |>))) as (po & ns & p & -> & Hw).
  set (w := _ <| nodes := ns |>). set (id := t_ExecutionID task) in *.
  unfold putOutboxLocked, putOutboxEntryLocked. cbn [oe_ID newOutboxEntry].
  rewrite decide_False by done. change (outboxOf w id) with (outboxOf s id).
  assert (Hn' : exists n, nodes w !! memoryNodeKey id (t_NodeName task) = Some n /\
    ns_Status n = NodeStatusPending /\ ns_LeaseToken n = "").
  { eexists. split; [exact Hw|]. by destruct p. }
  destruct (outboxOf s id !! _) as [st|] eqn:Eo; cbn [fst].
  - split_and!; try done. by exists st.
  - split_and!; try done. eexists. split.
    + unfold outboxOf. cbn. rewrite lookup_insert_eq. cbn. apply lookup_insert_eq.
    + by split.
Qed.

(** C23. The retry verdict.  A failed attempt is run again exactly when the node
    enables retries, the failure is not permanent, the attempt is below the
    node's maximum, and the reporting lease is still the node's current one; a
    failure outside the budget is left to the error policy with the store as it
    was, and a failure inside it whose lease was superseded changes nothing.  A
    scheduled retry leaves the node pending without a lease, keeps one delivery
    intent for the next attempt, due after the backoff delay, and touches neither
    the execution nor its completion counters. *)
Theorem retry_verdict s task meta cause attempt token s' answer :
  tryRetryWithAttempt s task meta cause attempt token = (s', answer) ->
  (answer = Retried <->
   wantsRetry meta cause attempt = true /\ token <> "" /\
   exists n, nodes s !! memoryNodeKey (t_ExecutionID task) (t_NodeName task) = Some n /\
     leasedStatus (ns_Status n) = true /\ ns_LeaseToken n = token) /\
  (answer = NotRetried <-> wantsRetry meta cause attempt = false) /\
  (answer <> Retried -> s' = s) /\
  (answer = Retried -> forall r delay, nm_Retry meta = Some r ->
     retryBackoff attempt (Some r) (t_ExecutionID task) (t_NodeName task) = Some delay ->
     retryScheduled s task attempt delay s').
Proof.
  intros E. destruct (wantsRetry meta cause attempt) eqn:Hw.
  - unfold wantsRetry in Hw. unfold tryRetryWithAttempt in E.
    destruct cause as [e|]; [|done]. destruct (retryFor meta) as [settings|] eqn:Er; [|done].
    apply andb_true_iff in Hw as [Hp%negb_true_iff Ha%Z.ltb_lt].
    rewrite Hp, (proj2 (Z.leb_gt _ _) Ha) in E. cbn [orb] in E.
    assert (Hs : nm_Retry meta = Some settings).
    { unfold retryFor in Er. by destruct (IsEnabled _). }
    pose proof (schedule_retry_effect s task attempt settings token) as He.
    pose proof (schedule_retry_iff s task attempt settings token) as Hi.
    destruct (scheduleRetry s task attempt settings token) as [s1 ok]. injection E as <- <-.
    destruct Hi as [Hi Hf].
    split_and!.
    + rewrite <- Hi. destruct ok; [done|]. by split; [|intros [_ ?]].
    + by destruct ok.
    + destruct ok; [done|]. intros _. by apply Hf.
    + destruct ok; [|done]. intros _ r delay E Hd. simplify_eq. by apply He.
  - rewrite (not_retried s task meta cause attempt token Hw) in E. injection E as <- <-.
    split_and!; try done. split; [done|]. by intros [? _].
Qed.

(** ** The two commit paths agree *)

(** A result that is an error, carries one, or routes itself to the error port. *)
Definition failing (result : NodeResult) : bool :=
  isSome (nr_Error result) || isSome (nr_Output result ≫= o_Error) ||
  isSome (outputPortRetryError (nr_Output result)).

Lemma legacy_node_acyclic s lease g st out port msg fatal details :
  loadActiveGraph s (t_ExecutionID (tl_Task lease)) = Some g -> g_allowCycles g = false ->
  commitLegacyNodeWithClassification s lease st out port msg fatal details
  = commitAcyclicNodeWithReclaimEligibility s lease g (privateOutputForTask g (tl_Task lease))
      st out port msg fatal details false.
Proof. intros Hg Hc. unfold commitLegacyNodeWithClassification. by rewrite Hg, Hc. Qed.

Lemma try_retry_not s task meta cause attempt token s' :
  tryRetryWithAttempt s task meta cause attempt token = (s', NotRetried) -> s' = s.
Proof.
  unfold tryRetryWithAttempt. repeat case_match; intros; by simplify_eq.
Qed.

Lemma legacy_error_acyclic s lease g meta sysErr out bizErr :
  loadActiveGraph s (t_ExecutionID (tl_Task lease)) = Some g -> g_allowCycles g = false ->
  commitLegacyNodeError s lease meta (privateOutputForTask g (tl_Task lease)) sysErr out bizErr
  = commitAcyclicNodeError g s lease meta (privateOutputForTask g (tl_Task lease)) sysErr out bizErr.
Proof.
  intros Hg Hc. unfold commitLegacyNodeError, commitAcyclicNodeError, commitNodeErrorOutcome.
  destruct (tryRetryWithAttempt _ _ _ _ _ _) as [s1 []] eqn:E; try done.
  apply try_retry_not in E as ->. by apply legacy_node_acyclic.
Qed.

(** A graph that keeps its outputs has none to reclaim. *)
Lemma reclaims_none g i : g_transient g = false -> transientOutputReclaimsForCommit g i = [].
Proof. unfold transientOutputReclaimsForCommit. by intros ->. Qed.

Lemma success_reclaim_free s lease g p st out port msg fatal :
  g_transient g = false ->
  commitAcyclicNode s lease g p st out port msg fatal
  = commitAcyclicNodeWithReclaimEligibility s lease g p st out port msg fatal None false.
Proof.
  intros Ht. unfold commitAcyclicNode, commitAcyclicNodeWithReclaimEligibility, acyclicRequest.
  rewrite (reclaims_none g _ Ht). cbn [andb]. by destruct (bool_decide _).
Qed.

(** C25. The two commit paths converge.  On an acyclic graph, a failing result
    reported through the legacy path is retried, routed or made fatal exactly as
    through the atomic one: same answer, same store.  A success that does not
    expand converges too when the graph is not transient; on a transient graph
    only the atomic path may release the consumed output. *)
Theorem commit_paths_converge s lease g meta result :
  (forall s g id l s', expireIfLeaseTimeoutReached s g id l = (s', false) -> s' = s) ->
  loadActiveGraph s (t_ExecutionID (tl_Task lease)) = Some g -> g_allowCycles g = false ->
  g_nodes g !! Z.to_nat (t_NodeIdx (tl_Task lease)) = Some meta ->
  failing result || negb (nm_HasBody meta) && negb (g_transient g) = true ->
  commitLegacyTaskResult s lease g result = commitAcyclicTaskResult s lease g result.
Proof.
  intros Hx Hg Hc Hm Hf. unfold commitLegacyTaskResult, commitAcyclicTaskResult.
  unfold commitTaskResultWithStrategy. destruct (_ <? 0); [done|].
  unfold NodeAt, idx. rewrite Hm. cbn [mbind res_bind]. cbn zeta.
  cbn [commitError commitExpand commitSuccess]. unfold failing in Hf.
  destruct (isSome (nr_Error result) || isSome (nr_Output result ≫= o_Error)).
  - destruct (isNodeTimeoutError _ && _); [|by apply legacy_error_acyclic].
    destruct (expireIfLeaseTimeoutReached _ _ _ _) as [s1 []] eqn:E; [done|].
    apply Hx in E as ->. by apply legacy_error_acyclic.
  - destruct (outputPortRetryError _) as [e|].
    + destruct (tryRetryWithAttempt _ _ _ _ _ _) as [s1 []] eqn:E; try done.
      apply try_retry_not in E as ->. by apply legacy_error_acyclic.
    + cbn in Hf. apply andb_true_iff in Hf as [->%negb_true_iff Ht%negb_true_iff].
      rewrite success_reclaim_free by done. by apply legacy_node_acyclic.
Qed.

(** ** Error policies *)

(** The holder of the node's current lease, in a live execution. *)
Definition holdsLease (s : memoryState) (lease : TaskLease) : Prop :=
  let task := tl_Task lease in
  exists e n, executions s !! t_ExecutionID task = Some e /\ ended e = false /\
    nodes s !! memoryNodeKey (t_ExecutionID task) (t_NodeName task) = Some n /\
    leasedStatus (ns_Status n) = true /\ ns_LeaseID n = tl_LeaseID lease /\
    ns_LeaseToken n = tl_LeaseToken lease /\ ns_Attempt n = tl_Attempt lease /\
    ns_ActivationID n = t_ActivationID task.

(** Where a handled failure goes, and what becomes of the node; [None] stops
    the execution. *)
Definition policyRoute (strategy : string) : option (string * NodeStatus) :=
  if decide (strategy = "error_output") then Some ("error", NodeStatusSuccess)
  else if decide (strategy = "main_output") then Some ("main", NodeStatusSuccess)
  else if decide (strategy = "continue") then Some ("main", NodeStatusContinued)
  else None.

Lemma holder_accepted s lease req :
  holdsLease s lease -> req_System req = false ->
  req_ExecutionID req = t_ExecutionID (tl_Task lease) ->
  req_NodeName req = t_NodeName (tl_Task lease) -> req_LeaseID req = tl_LeaseID lease ->
  req_LeaseToken req = tl_LeaseToken lease -> req_Attempt req = tl_Attempt lease ->
  req_ActivationID req = t_ActivationID (tl_Task lease) ->
  res_Outcome (commitNodeLocked now s req).2 = CommitOutcomeAccepted.
Proof.
  intros (e & n & He & Hd & Hn & Hl & E1 & E2 & E3 & E4) Hs R1 R2 R3 R4 R5 R6.
  eapply commit_accepts; rewrite ?R1, ?R2; eauto using leased_not_terminal.
  rewrite worker_admits, R3, R4, R5, R6, Hl, E1, E2, E3, E4 by done.
  by rewrite !bool_decide_eq_true_2, !Z.eqb_refl.
Qed.

Lemma acyclic_commit_total s lease g p st out port msg fatal details normal :
  fatal = true \/ (exists l, downstreamArrivals g (t_NodeIdx (tl_Task lease)) port = Ok l) ->
  exists r, commitAcyclicNodeWithReclaimEligibility s lease g p st out port msg fatal details normal
            = Ok r.
Proof.
  intros H. unfold commitAcyclicNodeWithReclaimEligibility, acyclicRequest.
  assert (exists l, (if negb fatal && negb (g_allowCycles g)
    then downstreamArrivals g (t_NodeIdx (tl_Task lease)) port else Ok []) = Ok l) as [l ->].
  { destruct (negb fatal && negb (g_allowCycles g)) eqn:Eb; [|by eexists].
    destruct H as [->|H]; [done|exact H]. }
  cbn [mbind res_bind]. cbn zeta. destruct (CommitNode now s _). by eexists.
Qed.

Lemma acyclic_request_fields g lease p st out port msg fatal details normal req :
  acyclicRequest g lease p st out port msg fatal details normal = Ok req ->
  (req_ExecutionID req = t_ExecutionID (tl_Task lease) /\
   req_NodeName req = t_NodeName (tl_Task lease) /\ req_LeaseID req = tl_LeaseID lease /\
   req_LeaseToken req = tl_LeaseToken lease /\ req_Attempt req = tl_Attempt lease /\
   req_ActivationID req = t_ActivationID (tl_Task lease)) /\
  req_System req = false /\ req_AllowCycles req = false /\ req_Status req = st /\
  req_Port req = port /\ req_Error req = msg /\ req_Fatal req = fatal.
Proof.
  intros E. apply res_bind_Ok in E as (arrivals & _ & E). cbn zeta in E. injection E as <-.
  by destruct (_ && _ && _ && _).
Qed.

Lemma committed_texts now' req current p :
  let n := committedNode now' req current p in ns_Port n = req_Port req /\ ns_Error n = req_Error req.
Proof.
  unfold committedNode. destruct p, current, (req_System req), (IsTerminalNodeStatus _);
    simpl; by repeat case_match.
Qed.

(** A commit of the holder, without cycles. *)
Lemma holder_commits s lease g p st out port msg fatal details normal s' a :
  life_inv s -> holdsLease s lease -> (fatal = true -> normal = false) ->
  commitAcyclicNodeWithReclaimEligibility s lease g p st out port msg fatal details normal
  = Ok (s', a) ->
  let id := t_ExecutionID (tl_Task lease) in
  let bad := counter (failed s) id + (if decide (st = NodeStatusFailed) then 1 else 0) in
  a = (CommitOutcomeAccepted, None) /\
  (exists n, nodes s' !! memoryNodeKey id (t_NodeName (tl_Task lease)) = Some n /\
     ns_Status n = st /\ ns_Port n = port /\ ns_Error n = msg) /\
  counter (failed s') id = bad /\
  if fatal || (counter (remaining s) id - 1 =? 0)
  then exists e, executions s' !! id = Some e /\ closed e = true /\
         status e = if fatal || (0 <? bad) then ExecutionStatusFailed else ExecutionStatusSuccess
  else executions s' !! id = executions s !! id.
Proof.
  intros Hlife Hl Hf E. apply res_bind_Ok in E as (req & Er & E).
  pose proof (acyclic_request_valid _ _ _ _ _ _ _ _ _ _ _ Er Hf) as Hv.
  apply acyclic_request_fields in Er
    as ((R1 & R2 & R3 & R4 & R5 & R6) & Hsys & Hac & Rst & Rport & Rmsg & Rf).
  pose proof (holder_accepted s lease req Hl Hsys R1 R2 R3 R4 R5 R6) as Ho.
  pose proof (commit_counts now s req Hlife Hac Hv Ho) as (_ & Hbad & Hd & Hx).
  pose proof (commit_accepted_nodes now s req
    (memoryNodeKey (req_ExecutionID req) (req_NodeName req)) Ho) as Hn.
  rewrite decide_True in Hn by done. unfold CommitNode in E. rewrite Hv in E.
  destruct (commitNodeLocked now s req) as [s1 r]. cbn [fst snd] in *. injection E as <- <-.
  rewrite R1, R2, Rst, Rf in *. cbn zeta. split; [by unfold finishAtomicCommit; rewrite Ho|].
  split; [|split; [done|]].
  - eexists. split; [exact Hn|]. rewrite <- Rst, <- Rport, <- Rmsg.
    split; [apply committed_fields|apply committed_texts].
  - rewrite Hd in Hx. destruct (fatal || _); [|done].
    destruct Hx as (_ & _ & e & ? & ? & ?). by exists e.
Qed.

Lemma on_error_route strategy sysErr bizErr out :
  let o := ApplyOnError strategy sysErr bizErr out in
  match policyRoute strategy with
  | Some (port, st) => oo_RoutePort o = port /\ oo_NodeStatus o = st /\ oo_ExecFatal o = false /\
                       st <> NodeStatusFailed
  | None => oo_NodeStatus o = NodeStatusFailed /\ oo_ExecFatal o = true
  end.
Proof. unfold ApplyOnError, policyRoute. by repeat case_decide. Qed.

(** C24. The error policies.  For the holder of the current lease of a node in an
    acyclic execution, a failure that is not retried is accepted, and the node's
    policy decides: [error_output] and [main_output] record a success on the error
    or the main port, [continue] records a continued node on the main port, and
    the execution goes on as after any other unit, without counting a failure; any
    other policy fails the node and, in the same step, the execution.  Every
    policy keeps the failure's message on the node. *)
Theorem on_error_contract s lease g meta sysErr bizErr out p :
  life_inv s -> holdsLease s lease -> wantsRetry meta sysErr (tl_Attempt lease) = false ->
  (forall port st, policyRoute (nm_OnError meta) = Some (port, st) ->
     exists l, downstreamArrivals g (t_NodeIdx (tl_Task lease)) port = Ok l) ->
  let id := t_ExecutionID (tl_Task lease) in
  exists s' n, commitAcyclicNodeError g s lease meta p sysErr out bizErr
    = Ok (s', (CommitOutcomeAccepted, None)) /\
    nodes s' !! memoryNodeKey id (t_NodeName (tl_Task lease)) = Some n /\
    ns_Error n = oo_ErrorMessage (ApplyOnError (nm_OnError meta) sysErr bizErr out) /\
    match policyRoute (nm_OnError meta) with
    | Some (port, st) =>
        ns_Status n = st /\ ns_Port n = port /\ counter (failed s') id = counter (failed s) id /\
        (counter (remaining s) id <> 1 -> executions s' !! id = executions s !! id)
    | None =>
        ns_Status n = NodeStatusFailed /\
        exists e, executions s' !! id = Some e /\ status e = ExecutionStatusFailed /\ closed e = true
    end.
Proof.
  intros Hlife Hl Hw Hdown id. unfold commitAcyclicNodeError, commitNodeErrorOutcome.
  rewrite not_retried by done. cbn zeta.
  pose proof (on_error_route (nm_OnError meta) sysErr bizErr out) as Ho.
  set (o := ApplyOnError _ _ _ _) in *. clearbody o. cbn zeta in Ho.
  match goal with |- context [commitAcyclicNodeWithReclaimEligibility ?a1 ?a2 ?a3 ?a4 ?a5 ?a6 ?a7
    ?a8 ?a9 ?a10 ?a11] =>
    destruct (acyclic_commit_total a1 a2 a3 a4 a5 a6 a7 a8 a9 a10 a11) as ([s' a] & E) end.
  { destruct (policyRoute _) as [[port st]|]; [right|left; apply Ho].
    destruct Ho as (-> & _). by eapply Hdown. }
  rewrite E. apply holder_commits in E as (-> & (n & Hn & Hs & Hp & He) & Hb & Hx); [|done..].
  exists s', n. split; [done|]. split; [exact Hn|]. split; [done|]. fold id in Hb, Hx.
  destruct (policyRoute _) as [[port st]|].
  - destruct Ho as (E1 & E2 & E3 & E4). rewrite E2, E3, decide_False in * by congruence.
    split_and!; [congruence..|lia|]. intros Hr. by rewrite (proj2 (Z.eqb_neq _ _)) in Hx by lia.
  - destruct Ho as (E1 & E2). rewrite E2 in Hx. destruct Hx as (e & ? & ? & ?).
    split; [congruence|]. by exists e.
Qed.

(** ** Cycles *)

(** The intents a cyclic node leaves for its successors. *)
Definition cyclicEntry (g : Graph) (task : Task) (o : OutboxEntry) : Prop :=
  exists name, oe_ID o = cyclicOutboxID (t_ExecutionID task) name (t_ActivationID task + 1) /\
    t_NodeName (oe_Task o) = name /\ t_ActivationID (oe_Task o) = t_ActivationID task + 1 /\
    t_AutoDepth (oe_Task o) = t_AutoDepth task + 1 /\ t_AutoDepth (oe_Task o) <= g_maxAutoDepth g.

Lemma planEdges_spec g task port acc es plan :
  planEdges g task port acc es = Ok plan ->
  Forall (cyclicEntry g task) acc -> NoDup (map oe_ID acc) ->
  if cp_complete plan then cp_entries plan = [] /\ IsTerminalExecutionStatus (cp_finalStatus plan) = true
  else cp_entries plan <> [] /\ NoDup (map oe_ID (cp_entries plan)) /\
       Forall (cyclicEntry g task) (cp_entries plan).
Proof.
  clear. revert acc. induction es as [|e es IH]; intros acc E Hf Hn.
  - cbn in E. injection E as <-. by destruct acc.
  - cbn [planEdges] in E. apply res_bind_Ok in E as (r & Er & E). unfold planEdge in Er.
    case_decide; [simplify_eq; by eapply IH|].
    destruct (_ <? _) eqn:Hd; [by simplify_eq|]. apply Z.ltb_ge in Hd.
    apply res_bind_Ok in Er as (meta & Em & Er). cbn zeta in Er.
    case_decide as Hin; simplify_eq; [by eapply IH|]. eapply IH; [exact E|..].
    + apply Forall_app. split; [done|]. apply Forall_singleton. by eexists.
    + rewrite map_app. apply NoDup_app. split_and!; [done| |apply NoDup_singleton].
      cbn. set_solver.
Qed.

(** Intents are only ever added. *)
Definition outbox_grows (s s' : memoryState) : Prop :=
  forall id eid e, outboxOf s id !! eid = Some e -> outboxOf s' id !! eid = Some e.

#[local] Instance outbox_grows_preorder : PreOrder outbox_grows.
Proof. split; [by intros s id eid e|]. intros s1 s2 s3 H1 H2 id eid e H. by apply H2, H1. Qed.

Lemma putCyclic_present now' id acc l o :
  o ∈ l -> oe_ID o <> "" -> is_Some (outboxOf (foldl (putCyclic now' id) acc l).1 id !! oe_ID o).
Proof.
  clear. intros Hin Hne. revert acc. induction l as [|o' l IH]; [set_solver|]. intros [s ids].
  apply elem_of_cons in Hin as [<-|Hin]; [|by apply IH]. cbn [foldl].
  destruct (put_entry_present now' s id o Hne) as [e He].
  exists e. apply (putCyclic_rel outbox_grows now'); [intros ? ? ? ? ? ?; apply put_keeps|].
  unfold putCyclic. by destruct (putOutboxEntryLocked now' s id o).
Qed.

(** The scheduling of a cyclic commit: its intents, or the end. *)
Lemma commitSchedule_cyclic s req entry :
  req_AllowCycles req = true -> req_Fatal req = false -> req_AdvanceTask req = None ->
  req_MergeCancel req = None ->
  let id := req_ExecutionID req in
  let s' := (commitSchedule now s req entry None).1 in
  if nonEmpty (req_CyclicOutbox req)
  then executions s' = executions s /\
       (forall o, o ∈ req_CyclicOutbox req -> oe_ID o <> "" -> is_Some (outboxOf s' id !! oe_ID o))
  else req_CyclicComplete req = true ->
       s' = finishExecutionLocked now s id entry (req_CyclicFinalStatus req)
              (TerminalExecutionError (req_CyclicFinalStatus req) (req_Error req)
                 (req_CyclicFinalError req)).
Proof.
  intros Hc Hf Ha Hm id s'. subst s'. unfold commitSchedule. rewrite Hc, Hf, Ha, Hm. cbn zeta.
  cbn [isSome negb andb].
  assert (Hcan : (if negb (isCanceling s (req_ExecutionID req)) then @None Task else None) = None)
    by by destruct (isCanceling _ _).
  rewrite Hcan. cbn [putOptional]. fold id. destruct (nonEmpty (req_CyclicOutbox req)).
  - match goal with |- context [foldl (putCyclic now id) ?acc ?l] =>
      pose proof (putCyclic_present now id acc l) as Hp;
      pose proof (putCyclic_rel count_frame now (put_count_frame now) id acc l) as Hk;
      destruct (foldl (putCyclic now id) acc l) as [s1 ids] end.
    split; [apply Hk|exact Hp].
  - by intros ->.
Qed.

Lemma cyclic_commit_cases s lease p st out port msg details plan :
  let id := t_ExecutionID (tl_Task lease) in
  let req := cyclicRequest lease p st out port msg details plan in
  let s' := (commitNodeLocked now s req).1 in
  res_Outcome (commitNodeLocked now s req).2 = CommitOutcomeAccepted ->
  if nonEmpty (cp_entries plan)
  then executions s' = executions s /\
       (forall o, o ∈ cp_entries plan -> oe_ID o <> "" -> is_Some (outboxOf s' id !! oe_ID o))
  else cp_complete plan = true -> IsTerminalExecutionStatus (cp_finalStatus plan) = true ->
       exists e, executions s' !! id = Some e /\ ended e = true /\ closed e = true.
Proof.
  intros id req s' Ho. subst s'. apply commit_accepted_inv in Ho as (e & He & Hd & _ & _ & ->).
  cbn zeta. set (w := commitWriteNode now s req _).
  assert (Hw : life_frame s w) by apply commitWrite_frame.
  change (commitCount now w req e) with (w, @None ExecutionStatus). cbv iota.
  pose proof (commitSchedule_cyclic w req e eq_refl eq_refl eq_refl eq_refl) as H.
  change (req_CyclicOutbox req) with (cp_entries plan) in H. cbn zeta in H.
  destruct (nonEmpty (cp_entries plan)).
  - destruct H as [-> H]. split; [apply (frame_executions _ _ Hw)|exact H].
  - intros Hp Ht. rewrite (H Hp).
    destruct (finish_row now w id e (cp_finalStatus plan) (TerminalExecutionError
      (cp_finalStatus plan) msg (cp_finalError plan))) as (e' & E' & Hs & Hcl);
      [by rewrite (frame_executions _ _ Hw)|done..|].
    exists e'. unfold ended. by rewrite Hs.
Qed.

Lemma leased_commit s req :
  Validate req = None ->
  CommitLeasedNode now s req
  = ((commitNodeLocked now s req).1, inr (commitNodeLocked now s req).2).
Proof.
  intros Hv. unfold CommitLeasedNode, CommitNode. rewrite Hv. by destruct (commitNodeLocked _ _ _).
Qed.

Lemma plan_cases g task port fatal msg plan :
  (if fatal : bool then Ok (planComplete ExecutionStatusFailed msg)
   else planCyclicDownstream g task port) = Ok plan ->
  if cp_complete plan
  then cp_entries plan = [] /\ IsTerminalExecutionStatus (cp_finalStatus plan) = true
  else fatal = false /\ exists o l, cp_entries plan = o :: l /\ cyclicEntry g task o.
Proof.
  intros E. destruct fatal; [by simplify_eq|]. unfold planCyclicDownstream in E.
  destruct (_ <? 0); [done|]. apply res_bind_Ok in E as (es & _ & E).
  apply planEdges_spec in E; [|done|by constructor]. destruct (cp_complete plan); [done|].
  destruct E as (Hne & _ & Hf). destruct (cp_entries plan) as [|o l]; [done|].
  split; [done|]. exists o, l. by apply Forall_cons in Hf as [? _].
Qed.

(** The node exists, and its edges lead to nodes, as compilation ensures. *)
Definition outEdgesValid (g : Graph) (nodeIdx : Z) : Prop :=
  0 <= nodeIdx /\ exists es, g_outEdges g !! Z.to_nat nodeIdx = Some es /\
    Forall (fun e => is_Some (g_nodes g !! e_DstIdx e)) es.

Lemma planEdges_total g task port acc es :
  Forall (fun e => is_Some (g_nodes g !! e_DstIdx e)) es ->
  exists plan, planEdges g task port acc es = Ok plan.
Proof.
  revert acc. induction es as [|e es IH]; intros acc H; [by eexists|].
  apply Forall_cons in H as [[meta Hm] H]. cbn [planEdges]. unfold planEdge.
  case_decide; [by apply IH|]. destruct (_ <? _); [by eexists|].
  unfold NodeAt, idx. rewrite Hm. cbn [mbind res_bind]. cbn zeta. case_decide; by apply IH.
Qed.

Lemma plan_total g task port fatal msg :
  outEdgesValid g (t_NodeIdx task) ->
  exists plan, (if fatal : bool then Ok (planComplete ExecutionStatusFailed msg)
                else planCyclicDownstream g task port) = Ok plan.
Proof.
  intros (H0 & es & He & H). destruct fatal; [by eexists|]. unfold planCyclicDownstream.
  rewrite (proj2 (Z.ltb_ge _ _)) by done. unfold NodeOutEdges, idx. rewrite He.
  by apply planEdges_total.
Qed.

End verdict.

(** ** A node's private state stays private *)

(** Private state makes the round trip and is not seen on the way.  What a node
    stores with its output comes back to its own resumption unchanged, beside the
    public data, and every other reader is shown the public data only. *)
Theorem node_state_roundtrip data state :
  splitNodeState (withNodeState data (Some state))
  = (Some state, Some (delete NodeStateKey (default ∅ data))) /\
  StripNodeState (withNodeState data (Some state)) = Some (delete NodeStateKey (default ∅ data)) /\
  StripNodeState (withNodeState data None) = delete NodeStateKey <$> data.
Proof.
  unfold withNodeState, splitNodeState, StripNodeState. cbn.
  rewrite lookup_insert_eq, delete_insert_eq, list_to_map_to_list. by split_and!.
Qed.

(** ** Examples *)

(** A node that calls itself, at most five times in a row, and retries. *)
Definition demoNode : NodeMeta :=
  mkNodeMeta "a" "xflow.noop" "action" "continue" "" [] 0 None false None false false None
    (Some demoRetry).
Definition demoLoop (cycles : bool) : Graph :=
  mkGraph "loop" [demoNode] [if cycles then [mainEdge 0 0] else []] [[]] [0] cycles None 5 0 false
    [] [] [] [] [] [] "".
Definition demoRunning (cycles : bool) : memoryState :=
  (acquireTaskLeaseLocked
     (CreateExecutionWithOutbox false 1 (newMemoryState false)
        (demoExecution <| ex_Graph := Some (demoLoop cycles) |>) [demoEntry]).1 demoLease).1.1.
Definition demoHeld : TaskLease := mkTaskLease "l1" "tok" 1 (oe_Task demoEntry) 20 1000.
Definition demoFailure (permanent : bool) : GoError := mkGoError "boom" permanent None.

Lemma demo_holds cycles : holdsLease (demoRunning cycles) demoHeld.
Proof. destruct cycles; eexists _, _; by vm_compute. Qed.

Lemma retry_verdict_witness :
  (tryRetryWithAttempt 30 (fun _ _ _ _ => 0) (demoRunning false) (tl_Task demoHeld) demoNode
     (Some (demoFailure false)) 1 "tok").2 = Retried.
Proof.
  set (r := tryRetryWithAttempt _ _ _ _ _ _ _ _).
  apply (retry_verdict 30 (fun _ _ _ _ => 0) (demoRunning false) (tl_Task demoHeld) demoNode
     (Some (demoFailure false)) 1 "tok" r.1 r.2); [apply surjective_pairing|].
  destruct (demo_holds false) as (e & n & _ & _ & Hn & Hl & _ & Ht & _).
  split; [done|]. split; [done|]. by exists n.
Defined.

Lemma commit_paths_converge_witness :
  commitLegacyTaskResult 30 (fun _ _ _ _ => 0) (fun _ _ _ => false) (fun s _ _ _ => (s, false))
    (fun s _ _ _ => Ok (s, None)) (demoRunning false) demoHeld (demoLoop false)
    (mkNodeResult None None (Some (demoFailure true)))
  = commitAcyclicTaskResult 30 (fun _ _ _ _ => 0) (fun _ _ _ => false) (fun s _ _ _ => (s, false))
      (demoRunning false) demoHeld (demoLoop false) (mkNodeResult None None (Some (demoFailure true))).
Proof.
  apply (commit_paths_converge _ _ _ _ _ _ _ _ demoNode); [intros s0 g0 id l s1 E; by injection E|done..].
Defined.

Lemma demo_running_inv : life_inv (demoRunning false).
Proof.
  apply (life_inv_frame (CreateExecutionWithOutbox false 1 (newMemoryState false)
    (demoExecution <| ex_Graph := Some (demoLoop false) |>) [demoEntry]).1); [by vm_compute|].
  by apply create_outbox_life_inv; [apply life_inv_new|].
Qed.

Lemma on_error_contract_witness :
  exists s' n, commitAcyclicNodeError 30 (fun _ _ _ _ => 0) (fun _ _ _ => false) (demoLoop false)
      (demoRunning false) demoHeld demoNode false (Some (demoFailure true)) None None
    = Ok (s', (CommitOutcomeAccepted, None)) /\
    nodes s' !! "e1/a" = Some n /\ ns_Status n = NodeStatusContinued.
Proof.
  destruct (on_error_contract 30 (fun _ _ _ _ => 0) (fun _ _ _ => false) (demoRunning false)
    demoHeld (demoLoop false) demoNode (Some (demoFailure true)) None None false demo_running_inv
    (demo_holds false) eq_refl) as (s' & n & E & Hn & _ & Hs & _).
  - intros port st _. by eexists.
  - by exists s', n.
Defined.

