(* ===== verification/Delivery.v ===== *)
(** * Starting executions and consuming intents

    The engine between the store and the queue: the initial intents of a new
    execution ([engine/initial_outbox.go]), the tasks the engine consumes itself
    ([handleSystemTask] of [engine/atomic.go], [engine/disabled.go],
    [engine/pin_data.go], [engine/merge_cancel.go]) and the reclaim of expired
    leases ([engine/lease.go]).  The store folds arrivals and merge
    cancellations into commits, so the carriers for stores that do not are left
    out, like observers and logging. *)

From S2P Require Import Prelude Keys Types Graph Units MergeCancel State Executions Outbox Lease Commit Groups Signals Arrivals Verdict.

(** ** Initial intents *)

Definition rootTask (id : string) (g : Graph) (unitIdx : nat) : res Task :=
  let task name nodeIdx type :=
    zeroTask <| t_ExecutionID := id |> <| t_NodeName := name |>
      <| t_NodeIdx := Z.of_nat nodeIdx |> <| t_UnitIdx := Z.of_nat unitIdx |>
      <| t_Type := type |> in
  kind ← UnitKindAt g unitIdx;
  match kind with
  | UnitGroup =>
      gm ← GroupMetaAt g unitIdx;
      Ok (task (gm_Name gm) (gm_EntryIdx gm) TaskTypeGroupExec)
  | UnitNode =>
      nodeIdx ← UnitNodeIndex g unitIdx;
      node ← NodeAt g nodeIdx;
      Ok (task (nm_Name node) nodeIdx (execTaskTypeForNode node))
  end.

Definition startTask (id : string) (g : Graph) : res Task :=
  match g_startIdx g with
  | None => Panic
  | Some i =>
      start ← NodeAt g i;
      Ok (zeroTask <| t_ExecutionID := id |> <| t_NodeName := nm_Name start |>
            <| t_NodeIdx := Z.of_nat i |> <| t_Type := execTaskTypeForNode start |>
            <| t_ActivationID := 1 |>)
  end.

Definition submitInitialTasks (id : string) (g : Graph) : res (list Task) :=
  if g_allowCycles g then t ← startTask id g; Ok [t]
  else
    foldM (fun tasks unitIdx =>
             degree ← idx (g_unitInDegree g) unitIdx;
             if degree =? 0 then t ← rootTask id g unitIdx; Ok (tasks ++ [t]) else Ok tasks)
      (seq 0 (UnitCount g)) [].

Definition initialEntry (id : string) (t : Task) : OutboxEntry :=
  newOutboxEntry (initialOutboxID id (t_NodeName t) (t_ActivationID t)) t zeroTime.

(** The creation of an execution whose graph declares no concurrency limit. *)
Definition startExecution (hint : bool) (now : Time) (s : memoryState) (snap : ExecutionSnapshot)
    (tasks : list Task) : memoryState :=
  (CreateExecutionWithOutbox hint now s snap (map (initialEntry (ex_ID snap)) tasks)).1.

(** ** Answers of the handlers *)

Inductive SystemError : Type :=
| ErrExecutionInactive
| ErrTask (msg : string)
| ErrRequest (err : CommitRequestError).

(** Whether the engine owns the task, and the error if it could not process it. *)
Abbreviation SystemAnswer := (bool * option SystemError)%type.

Definition commitAnswer (r : memoryState * (CommitRequestError + CommitNodeResult))
    : memoryState * SystemAnswer :=
  match r.2 with
  | inl err => (r.1, (true, Some (ErrRequest err)))
  | inr _ => (r.1, (true, None))
  end.

(** ** Advance intents *)

Definition handleAdvanceTask (now : Time) (s : memoryState) (task : Task)
    : res (memoryState * SystemAnswer) :=
  let id := t_ExecutionID task in
  match loadActiveGraph s id with
  | None => Ok (s, (true, Some ErrExecutionInactive))
  | Some g =>
      let advance port :=
        arrivals ← downstreamArrivals g (t_NodeIdx task) port;
        Ok ((AdvanceNode now s (mkAdvanceNodeRequest id (t_NodeName task) (t_NodeIdx task)
               (t_ActivationID task) (t_AutoDepth task) arrivals)).1, (true, None)) in
      match t_Port task with
      | Some port => advance port
      | None =>
          match GetNode s id (t_NodeName task) with
          | None => Ok (s, (true, None))
          | Some node =>
              if negb (IsTerminalNodeStatus (ns_Status node)) then Ok (s, (true, None))
              else if negb (ns_ActivationID node =? t_ActivationID task) then Ok (s, (true, None))
              else advance (ns_Port node)
          end
      end
  end.

(** ** Skip intents *)

Definition handleSkipTask (now : Time) (s : memoryState) (task : Task)
    : res (memoryState * SystemAnswer) :=
  match loadActiveGraph s (t_ExecutionID task) with
  | None => Ok (s, (true, Some ErrExecutionInactive))
  | Some g =>
      match handleSkip now s g task with
      | Ok r => Ok (commitAnswer r)
      | Err msg => Ok (s, (true, Some (ErrTask msg)))
      | Panic => Panic
      | OutOfFuel => OutOfFuel
      end
  end.

(** ** Nodes the engine serves itself *)

Definition nodeInRange (g : Graph) (nodeIdx : Z) : bool :=
  negb (nodeIdx <? 0) && (nodeIdx <? Z.of_nat (NodeCount g)).

(** The unit of a task's node, when the task names the node and the node is a
    unit of its own in a live execution. *)
Definition servedUnit (s : memoryState) (g : Graph) (task : Task) (nd : NodeMeta)
    : res (option nat) :=
  if decide (nm_Name nd <> t_NodeName task) then Ok None
  else
    u ← idx (g_nodeUnit g) (Z.to_nat (t_NodeIdx task));
    match u with
    | None => Ok None
    | Some u =>
        kind ← UnitKindAt g u;
        Ok (match kind with
            | UnitNode => if isSome (loadActiveGraph s (t_ExecutionID task)) then Some u else None
            | UnitGroup => None
            end)
    end.

(** The commit of a node the engine serves, on the main port. *)
Definition servedRequest (g : Graph) (task : Task) (unitIdx : nat) (st : NodeStatus)
    (arrivals : list DownstreamArrival) : CommitNodeRequest :=
  zeroCommitNodeRequest <| req_ExecutionID := t_ExecutionID task |>
    <| req_NodeName := t_NodeName task |> <| req_NodeIdx := t_NodeIdx task |>
    <| req_UnitIdx := Z.of_nat unitIdx |> <| req_ActivationID := t_ActivationID task |>
    <| req_AutoDepth := t_AutoDepth task |> <| req_Status := st |>
    <| req_PrivateOutput := privateOutputForTask g task |> <| req_Port := "main" |>
    <| req_System := true |> <| req_Arrivals := arrivals |>.

Definition HasDisabledNodes (g : Graph) : bool := existsb nm_Disabled (g_nodes g).

(** A disabled node is committed as skipped. *)
Definition handleDisabledNode (now : Time) (s : memoryState) (task : Task)
    : res (memoryState * SystemAnswer) :=
  let pass := Ok (s, (false, None)) in
  match LoadGraph s (t_ExecutionID task) with
  | None => pass
  | Some g =>
      if negb (HasDisabledNodes g) || g_allowCycles g || negb (nodeInRange g (t_NodeIdx task))
      then pass
      else
        nd ← NodeAt g (Z.to_nat (t_NodeIdx task));
        if negb (nm_Disabled nd) then pass
        else
          u ← servedUnit s g task nd;
          match u with
          | None => pass
          | Some u =>
              arrivals ← downstreamArrivals g (t_NodeIdx task) "main";
              Ok (commitAnswer (CommitNode now s
                (servedRequest g task u NodeStatusSkipped arrivals)))
          end
  end.

Abbreviation PinDataModeTestOnly := "test_only".
Abbreviation PinDataModeAlways := "always".

Definition pinAppliesTo (s : memoryState) (g : Graph) (id : string) : bool :=
  if decide (g_pinDataMode g = PinDataModeAlways) then true
  else if decide (g_pinDataMode g = PinDataModeTestOnly) then
    match GetExecution s id with Some snap => ex_TestRun snap | None => false end
  else false.

(** A pinned node is committed with its mock output. *)
Definition handlePinnedNode (now : Time) (s : memoryState) (task : Task)
    : res (memoryState * SystemAnswer) :=
  let pass := Ok (s, (false, None)) in
  match LoadGraph s (t_ExecutionID task) with
  | None => pass
  | Some g =>
      if decide (g_pinDataMode g = "") then pass
      else if g_allowCycles g || negb (nodeInRange g (t_NodeIdx task)) then pass
      else
        nd ← NodeAt g (Z.to_nat (t_NodeIdx task));
        if negb (isSome (nm_PinOutput nd)) then pass
        else
          u ← servedUnit s g task nd;
          match u with
          | None => pass
          | Some u =>
              if negb (pinAppliesTo s g (t_ExecutionID task)) then pass
              else
                arrivals ← downstreamArrivals g (t_NodeIdx task) "main";
                Ok (commitAnswer (CommitNode now s
                  (servedRequest g task u NodeStatusPinned arrivals
                     <| req_Output := nm_PinOutput nd |> <| req_StoreOutput := true |>)))
          end
  end.

(** ** Merge cancellation *)

Definition activationForCancelCommit (node : option NodeSnapshot) (mergeActivation : Z) : Z :=
  match node with
  | Some n => if 0 <? ns_ActivationID n then ns_ActivationID n else mergeActivation
  | None => mergeActivation
  end.

Abbreviation mergeCancelReasonPrefix := "canceled by merge ".

Definition cancelRequest (task : Task) (nodeIdx unitIdx : nat) (name : string) (activationID : Z)
    (mergeName : string) (arrivals : list DownstreamArrival) : CommitNodeRequest :=
  zeroCommitNodeRequest <| req_ExecutionID := t_ExecutionID task |> <| req_NodeName := name |>
    <| req_NodeIdx := Z.of_nat nodeIdx |> <| req_UnitIdx := Z.of_nat unitIdx |>
    <| req_ActivationID := activationID |> <| req_Status := NodeStatusCanceled |>
    <| req_System := true |> <| req_Error := mergeCancelReasonPrefix +:+ mergeName |>
    <| req_Arrivals := arrivals |>.

(** One node of the closure; the answer is whether it is left as residue. *)
Definition cancelClosureNode (now : Time) (s : memoryState) (task : Task) (g : Graph)
    (nodeIdx : nat) (mergeName : string) : res (memoryState * (SystemError + bool)) :=
  meta ← NodeAt g nodeIdx;
  u ← unitOf g nodeIdx;
  kind ← UnitKindAt g u;
  let node := GetNode s (t_ExecutionID task) (nm_Name meta) in
  match kind, ns_Status <$> node with
  | UnitGroup, _ => Ok (s, inr true)
  | UnitNode, Some NodeStatusWaiting => Ok (s, inr true)
  | UnitNode, st =>
      if match st with Some st => IsTerminalNodeStatus st | None => false end
      then Ok (s, inr false)
      else
        arrivals ← downstreamArrivals g (Z.of_nat nodeIdx) "";
        let '(s, r) := CommitNode now s (cancelRequest task nodeIdx u (nm_Name meta)
                         (activationForCancelCommit node (t_ActivationID task)) mergeName
                         arrivals) in
        Ok (s, match r with inl err => inl (ErrRequest err) | inr _ => inr false end)
  end.

Fixpoint cancelClosureNodes (now : Time) (s : memoryState) (task : Task) (g : Graph)
    (closure : list nat) (mergeName : string) : res (memoryState * SystemAnswer) :=
  match closure with
  | [] => Ok (s, (true, None))
  | nodeIdx :: closure =>
      r ← cancelClosureNode now s task g nodeIdx mergeName;
      match r.2 with
      | inl err => Ok (r.1, (true, Some err))
      | inr _ => cancelClosureNodes now r.1 task g closure mergeName
      end
  end.

Definition handleMergeCancelTask (now : Time) (s : memoryState) (task : Task)
    : res (memoryState * SystemAnswer) :=
  match loadActiveGraph s (t_ExecutionID task) with
  | None => Ok (s, (true, Some ErrExecutionInactive))
  | Some g =>
      if negb (nodeInRange g (t_NodeIdx task))
      then Ok (s, (true, Some (ErrTask "merge-cancel node index is out of range")))
      else
        merge ← NodeAt g (Z.to_nat (t_NodeIdx task));
        closure ← CancelClosure g (t_NodeIdx task);
        cancelClosureNodes now s task g closure (nm_Name merge)
  end.

(** ** Reclaiming leases *)

Definition reclaimTask (lease : ExpiredLease) : Task :=
  zeroTask <| t_ExecutionID := xl_ExecutionID lease |> <| t_NodeName := xl_NodeName lease |>
    <| t_NodeIdx := xl_NodeIdx lease |> <| t_UnitIdx := xl_UnitIdx lease |>
    <| t_Type := xl_TaskType lease |> <| t_Payload := xl_Payload lease |>
    <| t_Generation := xl_Generation lease |> <| t_ActivationID := xl_ActivationID lease |>
    <| t_AutoDepth := xl_AutoDepth lease |>.

Definition reclaimGroupLease (now : Time) (s : memoryState) (lease : ExpiredLease)
    : memoryState * bool :=
  let id := xl_ExecutionID lease in
  match RevokeGroupLeaseWithOutbox now s id (xl_UnitIdx lease) (xl_LeaseToken lease)
          (newOutboxEntry (requeueGroupOutboxID id (xl_UnitIdx lease) (xl_LeaseID lease))
             (reclaimTask lease) zeroTime) with
  | (s, inl _) => (s, false)
  | (s, inr revoked) => (s, revoked)
  end.

Definition ReclaimLease (now : Time) (s : memoryState) (lease : ExpiredLease)
    : memoryState * bool :=
  if decide (xl_LeaseToken lease = "") then (s, false)
  else if decide (xl_TaskType lease = TaskTypeGroupExec) then reclaimGroupLease now s lease
  else
    let id := xl_ExecutionID lease in
    RevokeLeaseWithOutbox now s id (xl_NodeName lease) (xl_LeaseToken lease)
      (newOutboxEntry (requeueOutboxID id (xl_NodeName lease) (xl_ActivationID lease)
                         (xl_LeaseID lease)) (reclaimTask lease) zeroTime).
