(* ===== verification/Progress.v ===== *)
(** * One execution, step by step

    The moves of the engine over the store and its queue for one execution of a
    compiled graph without groups: delivering an intent to the queue or consuming
    it ([engine/atomic.go], handlers of [Delivery]), serving disabled and pinned
    nodes, leasing, renewing and reclaiming tasks ([Lease], [ReclaimLease]) and
    reporting results, failures and timeouts ([Verdict]).  A delivery may stop
    before its acknowledgement, a report may come from any lease, and tasks may be
    delivered twice.  The invariant [live] says that every counter is what the
    unfinished nodes make it and that a decided unit is finished or under way; the
    steps keep it until the execution is [over].  Moves of other executions are
    not steps of this machine. *)

From S2P Require Import Prelude Keys Types Retry Graph Units State Slots Executions Outbox Lease Commit Arrivals Verdict Delivery.

(** ** Who owns an intent *)

(** The ids of the intents that run or skip a node. *)
Inductive owns (id : string) (key name : string) : Prop :=
| owns_initial : key = initialOutboxID id name 0 -> owns id key name
| owns_execute : key = executeOutboxID id name 0 -> owns id key name
| owns_skip : key = skipOutboxID id name 0 -> owns id key name
| owns_retry attempt : key = retryOutboxID id name 0 attempt -> owns id key name
| owns_requeue leaseID :
    slash_free leaseID -> key = requeueOutboxID id name 0 leaseID -> owns id key name.

Lemma name_tail_inj n1 n2 z1 z2 a b :
  slash_free a -> slash_free b ->
  n1 +:+ "/" +:+ itoa z1 +:+ "/" +:+ a = n2 +:+ "/" +:+ itoa z2 +:+ "/" +:+ b -> n1 = n2.
Proof.
  intros Ha Hb E.
  assert (R : forall n z t, n +:+ "/" +:+ itoa z +:+ "/" +:+ t = (n +:+ "/" +:+ itoa z) +:+ "/" +:+ t)
    by (intros; by rewrite <- !string_app_assoc).
  rewrite !R in E. apply join_last_inj in E as [E _]; [|done..].
  by apply join_last_inj in E as [E _].
Qed.

Lemma owns_inj id key n1 n2 : owns id key n1 -> owns id key n2 -> n1 = n2.
Proof.
  intros H1 H2. destruct H1 as [E1|E1|E1|a1 E1|l1 F1 E1], H2 as [E2|E2|E2|a2 E2|l2 F2 E2];
    rewrite E1 in E2; try done; apply string_app_inj_l in E2; apply string_app_inj_l in E2;
    apply (string_app_inj_l "/") in E2.
  all: try (by apply join_last_inj in E2 as [E2 _]).
  all: by apply name_tail_inj in E2.
Qed.

Lemma owns_nonempty id key name : owns id key name -> key <> "".
Proof. by destruct 1; subst. Qed.

Lemma mergeCancel_unowned id name0 act name : ~ owns id (mergeCancelOutboxID id name0 act) name.
Proof. by destruct 1. Qed.

(** ** Delivery *)

(** The instants a delivered task carries. *)
Definition stampTask (entry : OutboxEntry) : Task :=
  let task := oe_Task entry in
  let task :=
    if IsZero (t_DeliverableAt task) then
      if negb (IsZero (oe_AvailableAt entry)) then task <| t_DeliverableAt := oe_AvailableAt entry |>
      else if negb (IsZero (oe_CreatedAt entry)) then task <| t_DeliverableAt := oe_CreatedAt entry |>
      else task
    else task in
  if IsZero (t_IntentCreatedAt task) && negb (IsZero (oe_CreatedAt entry))
  then task <| t_IntentCreatedAt := oe_CreatedAt entry |> else task.

(** The end of a delivery; a crash before it leaves the intent for the next. *)
Definition settle (ack : bool) (s : memoryState) (id key : string) : memoryState :=
  if ack then AckOutbox s id key else s.

(** ** The machine *)

Section machine.
Context (g : Graph) (id : string).

(** Node [j], its unit and its declaration. *)
Definition unitNode (j v : nat) (nd : NodeMeta) : Prop :=
  g_nodeUnit g !! j = Some (Some v) /\ g_nodes g !! j = Some nd.

(** A task of the execution that names one node throughout. *)
Definition taskOK (t : Task) : Prop :=
  exists j v nd, unitNode j v nd /\ t_ExecutionID t = id /\ t_NodeName t = nm_Name nd /\
    t_NodeIdx t = Z.of_nat j /\ t_UnitIdx t = Z.of_nat v /\ t_ActivationID t = 0.

(** The tasks that run or skip their node. *)
Definition runs (t : Task) : bool :=
  match t_Type t with
  | TaskTypeNodeExec | TaskTypeSubWorkflow | TaskTypeNodeSkip => true
  | _ => false
  end.

(** The tasks a flush consumes in place. *)
Definition inlineTask (t : Task) : bool :=
  match t_Type t with
  | TaskTypeNodeAdvance | TaskTypeNodeSkip | TaskTypeMergeCancel => true
  | _ => false
  end.

Definition nodeIs (s : memoryState) (name : string) (P : NodeStatus -> bool) : bool :=
  match nodes s !! memoryNodeKey id name with Some n => P (ns_Status n) | None => false end.
Definition finished (s : memoryState) (name : string) : bool := nodeIs s name isTerminalNode.
Definition leased (s : memoryState) (name : string) : bool := nodeIs s name leasedStatus.

(** An intent waits for its delivery, or among the dead letters for an operator. *)
Definition deadOf (s : memoryState) : gmap string memoryOutboxEntry :=
  default ∅ (deadOutbox s !! id).
Definition intentAt (s : memoryState) (key : string) (st : memoryOutboxEntry) : Prop :=
  outboxOf s id !! key = Some st \/ deadOf s !! key = Some st.

(** Something is under way for the node: an intent that runs or skips it, a
    queued task, or a lease. *)
Definition underWay (s : memoryState) (queue : list Task) (name : string) : Prop :=
  (exists key st, intentAt s key st /\ runs (oe_Task (ob_entry st)) = true /\
     t_NodeName (oe_Task (ob_entry st)) = name) \/
  (exists t, t ∈ queue /\ t_NodeName t = name) \/ leased s name = true.

(** A task that runs a node of the graph, and a lease issued for one. *)
Definition execOK (t : Task) : Prop :=
  taskOK t /\ runs t = true /\ t_Type t <> TaskTypeNodeSkip.
Definition leaseOK (lease : TaskLease) : Prop :=
  execOK (tl_Task lease) /\ slash_free (tl_LeaseID lease).

(** ** Steps *)

Section steps.
Context (platformDelay : Z -> RetrySettings -> string -> string -> Duration)
  (hasExternalNodesReference : Graph -> nat -> nat -> bool)
  (expireIfLeaseTimeoutReached : memoryState -> Graph -> string -> option TaskLease ->
     memoryState * bool)
  (expandLoopSplit : memoryState -> TaskLease -> Graph -> Data ->
     res (memoryState * option string))
  (buildInput : memoryState -> Task -> Graph -> string + option Data)
  (suspendDisabled : option string).

(** One move of the engine for the execution, from a store and a queue. *)
Inductive step : memoryState * list Task -> memoryState * list Task -> Prop :=
| st_deliver s queue key st ack :
    outboxOf s id !! key = Some st -> inlineTask (oe_Task (ob_entry st)) = false ->
    step (s, queue) (settle ack s id key, stampTask (ob_entry st) :: queue)
| st_drop s queue key : loadActiveGraph s id = None -> step (s, queue) (AckOutbox s id key, queue)
| st_skip s queue key st ack now s1 :
    outboxOf s id !! key = Some st -> t_Type (oe_Task (ob_entry st)) = TaskTypeNodeSkip ->
    t_ExecutionID (oe_Task (ob_entry st)) = id ->
    handleSkipTask now s (oe_Task (ob_entry st)) = Ok (s1, (true, None)) ->
    step (s, queue) (settle ack s1 id key, queue)
| st_cancel s queue key st ack now s1 a :
    outboxOf s id !! key = Some st -> t_Type (oe_Task (ob_entry st)) = TaskTypeMergeCancel ->
    t_ExecutionID (oe_Task (ob_entry st)) = id ->
    handleMergeCancelTask now s (oe_Task (ob_entry st)) = Ok (s1, a) ->
    (ack = true -> a = (true, None)) ->
    step (s, queue) (settle ack s1 id key, queue)
| st_disabled s before task after now s1 :
    t_ExecutionID task = id ->
    handleDisabledNode now s task = Ok (s1, (true, None)) ->
    step (s, before ++ task :: after) (s1, before ++ after)
| st_pinned s before task after now s1 :
    t_ExecutionID task = id ->
    handlePinnedNode now s task = Ok (s1, (true, None)) ->
    step (s, before ++ task :: after) (s1, before ++ after)
| st_lease s before lease after :
    t_ExecutionID (tl_Task lease) = id -> slash_free (tl_LeaseID lease) ->
    step (s, before ++ tl_Task lease :: after)
      ((AcquireTaskLeaseChecked s lease false).1, before ++ after)
| st_renew s queue now name token deadline :
    step (s, queue) ((RenewTaskLease now s id name token deadline).1, queue)
| st_report s queue now lease input result s' a :
    leaseOK lease -> nr_Suspend result = None ->
    CommitTaskResultWithOutcome now platformDelay hasExternalNodesReference
      expireIfLeaseTimeoutReached expandLoopSplit buildInput suspendDisabled
      s lease input result = Ok (s', a) ->
    step (s, queue) (s', queue)
| st_timeout s queue now lease cause s' a :
    leaseOK lease ->
    CommitTaskTimeout now platformDelay hasExternalNodesReference expireIfLeaseTimeoutReached
      s lease cause = Ok (s', a) ->
    step (s, queue) (s', queue)
| st_fail s queue now lease msg s' a :
    leaseOK lease ->
    CommitTaskFailure now hasExternalNodesReference s lease msg = Ok (s', a) ->
    step (s, queue) (s', queue)
| st_reclaim s queue now before lease :
    lease ∈ ListExpiredLeases s before -> xl_ExecutionID lease = id ->
    xl_TaskType lease <> TaskTypeGroupExec ->
    step (s, queue) ((ReclaimLease now s lease).1, queue)
| st_claim s queue now limit : step (s, queue) ((LeaseOutbox s id now limit).1, queue)
| st_extend s queue now entries : step (s, queue) ((RenewOutbox s id entries now).1, queue)
| st_release s queue entry : step (s, queue) (ReleaseOutbox s id entry, queue)
| st_undelivered s queue entry limit :
    step (s, queue) ((RecordOutboxFailure s id entry limit).1, queue)
| st_replay s queue now req :
    rq_ExecutionID req = id -> step (s, queue) ((ReplayDeadLetter now s req).1, queue).
End steps.

(** ** The invariant *)

Definition finishedAt (s : memoryState) (j : nat) : bool :=
  match g_nodes g !! j with Some nd => finished s (nm_Name nd) | None => false end.

Definition inbound (j : nat) : list Edge := edgesTo j (concat (g_outEdges g)).

(** The inbound edges whose source is still to finish, and the nodes to finish. *)
Definition openInto (s : memoryState) (j : nat) : list Edge :=
  filter (fun e => finishedAt s (e_SrcIdx e) = false) (inbound j).
Definition openNodes (s : memoryState) : list nat :=
  filter (fun j => from_option isSome false (g_nodeUnit g !! j) = true /\ finishedAt s j = false)
    (seq 0 (NodeCount g)).

Definition markOf (s : memoryState) (v : Z) : string := ta_mark (tallyAt s id v).

(** The unit of a task was decided to execute, or starts the graph. *)
Definition planned (s : memoryState) (t : Task) : Prop :=
  markOf s (t_UnitIdx t) = "execute" \/
  markOf s (t_UnitIdx t) = "" /\ inbound (Z.to_nat (t_NodeIdx t)) = [].

(** The task the record of a leased node stands for. *)
Definition recordTask (n : NodeSnapshot) : Task :=
  zeroTask <| t_ExecutionID := ns_ExecutionID n |> <| t_NodeName := ns_Name n |>
    <| t_NodeIdx := ns_NodeIdx n |> <| t_UnitIdx := ns_UnitIdx n |>
    <| t_Type := ns_LeaseTaskType n |> <| t_ActivationID := ns_ActivationID n |>.

(** An intent for a node of the graph, under the id of that node. *)
Definition intentOK (s : memoryState) (key : string) (t : Task) : Prop :=
  taskOK t /\
  (runs t = true -> t_Type t <> TaskTypeNodeSkip -> planned s t) /\
  (if runs t then owns id key (t_NodeName t) else t_Type t = TaskTypeMergeCancel) /\
  forall name, owns id key name -> t_NodeName t = name /\ runs t = true.

(** A record that is not suspended, of the first activation; a leased one stands
    for a task that runs the node. *)
Definition recordOK (s : memoryState) (n : NodeSnapshot) : Prop :=
  ns_ActivationID n = 0 /\
  (ns_Status n = NodeStatusPending \/ leasedStatus (ns_Status n) = true \/
   isTerminalNode (ns_Status n) = true) /\
  (leasedStatus (ns_Status n) = true ->
   execOK (recordTask n) /\ planned s (recordTask n) /\ slash_free (ns_LeaseID n)).

(** The records of the execution are kept under their own names. *)
Definition keyed (m : gmap string NodeSnapshot) : Prop :=
  forall k n, m !! k = Some n -> ns_ExecutionID n = id -> k = memoryNodeKey id (ns_Name n).

(** A live execution: every unit's counter is the number of its open inbound
    edges; a unit without any is decided; a decided or root unit is finished or
    under way; the completion counter is the number of nodes to finish. *)
Record live (s : memoryState) (queue : list Task) : Prop := {
  lv_life : life_inv s;
  lv_row : exists e, executions s !! id = Some e /\ ended e = false /\
             status e <> ExecutionStatusCanceling /\ ex_Graph (snap e) = Some g;
  lv_kept : id ∉ rolledBack s;
  lv_in : forall j v nd, unitNode j v nd ->
    ta_in (tallyAt s id (Z.of_nat v)) = Z.of_nat (length (openInto s j));
  lv_decided : forall j v nd, unitNode j v nd -> inbound j <> [] -> openInto s j = [] ->
    markOf s (Z.of_nat v) <> "";
  lv_flight : forall j v nd, unitNode j v nd -> inbound j = [] \/ markOf s (Z.of_nat v) <> "" ->
    finished s (nm_Name nd) = true \/ underWay s queue (nm_Name nd);
  lv_left : counter (remaining s) id = Z.of_nat (length (openNodes s)) /\ openNodes s <> [];
  lv_outbox : forall key st, intentAt s key st -> intentOK s key (oe_Task (ob_entry st));
  lv_queue : forall t, t ∈ queue -> execOK t /\ planned s t;
  lv_records : forall name n, nodes s !! memoryNodeKey id name = Some n ->
    ns_Name n = name /\ ns_ExecutionID n = id /\ recordOK s n;
  lv_keyed : keyed (nodes s)
}.

(** Every intent of the execution is about the execution. *)
Definition ownIntents (s : memoryState) : Prop :=
  forall key st, intentAt s key st -> t_ExecutionID (oe_Task (ob_entry st)) = id.

(** The execution has ended; with success only if every node has finished. *)
Definition over (s : memoryState) : Prop :=
  exists e, executions s !! id = Some e /\ ended e = true /\ ex_Graph (snap e) = Some g /\
    (status e = ExecutionStatusSuccess -> openNodes s = []) /\ ownIntents s.
End machine.

(** ** Intents of arrivals *)

Lemma tallyStep_mark t a : ta_mark t <> "" -> ta_mark (tallyStep t a) = ta_mark t.
Proof. intros H. unfold tallyStep. destruct (_ <=? 0); [done|]. cbn. by rewrite decide_True. Qed.

Lemma tally_mark t l : ta_mark t <> "" -> ta_mark (foldl tallyStep t l) = ta_mark t.
Proof.
  revert t. induction l as [|a l IH]; intros t H; [done|]. cbn.
  rewrite IH; by rewrite tallyStep_mark.
Qed.

Lemma put_lookup now s id o key st :
  outboxOf (putOutboxEntryLocked now s id o).1 id !! key = Some st ->
  outboxOf s id !! key = Some st \/ key = oe_ID o /\ oe_Task (ob_entry st) = oe_Task o.
Proof.
  unfold putOutboxEntryLocked. case_decide; [by left|].
  destruct (outboxOf s id !! oe_ID o); [by left|]. cbn zeta. unfold outboxOf. cbn.
  rewrite lookup_insert_eq. cbn.
  assert (E : oe_ID (if IsZero (oe_CreatedAt o) then o <| oe_CreatedAt := now |> else o) = oe_ID o)
    by (by destruct (IsZero _)).
  destruct (decide (key = oe_ID o)) as [->|Hne].
  - rewrite E, lookup_insert_eq. intros [= <-]. right. split; [done|]. cbn. by destruct (IsZero _).
  - rewrite E, lookup_insert_ne by done. by left.
Qed.

(** The task an arrival's decision delivers. *)
Definition arrivalTask (id : string) (act depth : Z) (a : DownstreamArrival) (schedule : string)
    : Task :=
  zeroTask <| t_ExecutionID := id |> <| t_NodeName := da_NodeName a |>
    <| t_NodeIdx := da_NodeIdx a |> <| t_UnitIdx := da_UnitIdx a |>
    <| t_Type := if bool_decide (schedule = "skip") then TaskTypeNodeSkip else da_ExecTaskType a |>
    <| t_ActivationID := act |> <| t_AutoDepth := depth |>.

Lemma applyArrival_put now id act depth s r a :
  let s' := (applyArrival now id act depth (s, r) a).1 in
  outbox s' = outbox s \/
  exists s1 schedule, outbox s1 = outbox s /\ (schedule = "execute" \/ schedule = "skip") /\
    ta_mark (tallyAt s' id (da_UnitIdx a)) = schedule /\
    outbox s' = outbox (putOutboxEntryLocked now s1 id (newOutboxEntry
      (scheduleOutboxID id (da_NodeName a) act schedule)
      (arrivalTask id act depth a schedule) zeroTime)).1.
Proof.
  cbn zeta. destruct r as [ids sk]. unfold applyArrival. destruct (_ <=? 0); [by left|]. cbn zeta.
  set (s2 := if 0 <? da_ActiveCount a then _ else _).
  assert (E2 : outbox s2 = outbox s) by (unfold s2; by destruct (0 <? _)). clearbody s2.
  destruct (decide (marker _ _ <> "")); [by left|].
  set (d := decideSchedule _ _ _ _).
  assert (Hd : d = "" \/ d = "execute" \/ d = "skip").
  { unfold d, decideSchedule. destruct (_ && _ && _); [by right; left|].
    destruct (_ <=? 0); [|by left]. right. destruct (0 <? _); auto. }
  clearbody d. destruct (decide (d = "")); [by left|]. right.
  set (s3 := s2 <| scheduled ::= _ |>).
  assert (E3 : ta_mark (tallyAt s3 id (da_UnitIdx a)) = d).
  { unfold s3, tallyAt, marker. cbn. by rewrite lookup_insert_eq. }
  exists s3, d. unfold putOutboxLocked, scheduleOutboxID, arrivalTask.
  rewrite (bool_decide_decide (d = "skip")). destruct (decide (d = "skip"));
    (match goal with |- context [putOutboxEntryLocked ?n ?s ?i ?o] =>
       pose proof (put_tally n s i o id (da_UnitIdx a)) as Ht;
       destruct (putOutboxEntryLocked n s i o) as [s4 []] end);
    cbn [fst] in Ht |- *; (split_and!; [exact E2|by destruct Hd as [|]|cbn [negb fst]; by rewrite Ht|done]).
Qed.

Lemma applyArrivals_new now s id act depth l key st :
  let s' := (applyArrivalsLocked now s id act depth l).1 in
  outboxOf s' id !! key = Some st ->
  outboxOf s id !! key = Some st \/
  exists a schedule, a ∈ l /\ (schedule = "execute" \/ schedule = "skip") /\
    ta_mark (tallyAt s' id (da_UnitIdx a)) = schedule /\
    key = scheduleOutboxID id (da_NodeName a) act schedule /\
    oe_Task (ob_entry st) = arrivalTask id act depth a schedule.
Proof.
  cbn zeta. unfold applyArrivalsLocked.
  generalize (([] : list string), ([] : list SkippedUnit)) as r.
  revert s. induction l as [|a l IH]; intros s r; [by left|]. cbn [foldl].
  pose proof (applyArrival_put now id act depth s r a) as Hp. cbn zeta in Hp.
  destruct (applyArrival now id act depth (s, r) a) as [s1 r1]. cbn [fst] in Hp.
  intros [H|(a' & sch & Hin & H)]%IH; [|right; exists a', sch; split; [by right|done]].
  destruct Hp as [Hp|(s2 & sch & E2 & Hs & Hm & Hp)]; unfold outboxOf in H |- *; rewrite Hp in H;
    [by left|]. fold (outboxOf (putOutboxEntryLocked now s2 id (newOutboxEntry
      (scheduleOutboxID id (da_NodeName a) act sch) (arrivalTask id act depth a sch) zeroTime)).1 id) in H.
  apply put_lookup in H as [H|[Hk Ht]].
  - left. unfold outboxOf in H. by rewrite E2 in H.
  - right. exists a, sch. split; [by left|]. split_and!; try done.
    rewrite fold_arrivals_tally, tally_mark; [done|]. rewrite Hm. by destruct Hs as [->| ->].
Qed.

Lemma applyArrival_grows now id act depth s r a :
  outbox_grows s (applyArrival now id act depth (s, r) a).1.
Proof.
  intros id' eid e He. destruct (Z.le_gt_cases (da_ArrivalCount a) 0) as [Hz|Hc].
  { by rewrite applyArrival_none. }
  destruct (applyArrival_put now id act depth s r a) as [E|(s1 & sch & E1 & _ & _ & E)];
    unfold outboxOf in *; rewrite E; [done|].
  apply put_keeps. unfold outboxOf. by rewrite E1.
Qed.

#[export] Instance outbox_grows_order : PreOrder outbox_grows.
Proof. split; [by intros s id eid e|]. intros s1 s2 s3 H1 H2 id eid e H. by apply H2, H1. Qed.

Lemma fold_arrivals_grows now id act depth s r l :
  outbox_grows s (foldl (applyArrival now id act depth) (s, r) l).1.
Proof.
  revert s r. induction l as [|a l IH]; intros s r; [reflexivity|]. cbn [foldl].
  etrans; [apply (applyArrival_grows now id act depth s r a)|].
  destruct (applyArrival now id act depth (s, r) a) as [s1 r1]. apply IH.
Qed.

(** ** Counting arrivals *)

Lemma tally_in mode t l :
  Forall (okArrival mode) l -> ta_in (foldl tallyStep t l) = ta_in t - arrived l.
Proof.
  revert t. induction l as [|a l IH]; intros t H; [cbn; lia|].
  apply Forall_cons in H as [(Ha & _) H]. cbn. rewrite IH by done.
  unfold tallyStep. destruct (Z.leb_spec (da_ArrivalCount a) 0); [lia|]. cbn. unfold arrived. lia.
Qed.

(** A unit whose last edge has arrived is decided. *)
Lemma tally_decided mode t l :
  Forall (okArrival mode) l -> l <> [] -> ta_in (foldl tallyStep t l) <= 0 ->
  ta_mark (foldl tallyStep t l) <> "".
Proof.
  intros Hl Hne. destruct l as [|a l _] using rev_ind; [done|]. rewrite foldl_app. cbn [foldl].
  apply Forall_app in Hl as [_ Hl]. apply Forall_singleton in Hl as (Ha & _).
  set (t' := foldl tallyStep t l). unfold tallyStep.
  destruct (Z.leb_spec (da_ArrivalCount a) 0); [lia|]. cbn. intros Hin.
  case_decide; [done|]. unfold decideSchedule. destruct (_ && _ && _); [done|].
  rewrite (proj2 (Z.leb_le _ _)) by lia. by destruct (0 <? _).
Qed.

Lemma applyArrivals_marked now s id act depth l u :
  ta_mark (tallyAt s id u) = "" ->
  let s' := (applyArrivalsLocked now s id act depth l).1 in
  ta_mark (tallyAt s' id u) <> "" ->
  exists a, a ∈ l /\ da_UnitIdx a = u /\
    is_Some (outboxOf s' id !! scheduleOutboxID id (da_NodeName a) act (ta_mark (tallyAt s' id u))).
Proof.
  unfold applyArrivalsLocked. generalize (([] : list string), ([] : list SkippedUnit)) as r.
  revert s. induction l as [|a l IH]; intros s r Hm; [done|]. cbn [foldl].
  pose proof (applyArrival_tally now id act depth s r a u) as Ht.
  pose proof (applyArrival_shape now id act depth s r a) as Hs. cbn zeta in Hs.
  destruct (applyArrival now id act depth (s, r) a) as [s1 r1] eqn:E1. cbn [fst] in Ht, Hs.
  destruct (decide (ta_mark (tallyAt s1 id u) = "")) as [Hm1|Hm1].
  - intros H. destruct (IH s1 r1 Hm1 H) as (a' & Ha & Hr). exists a'. split; [by right|done].
  - intros _. destruct (decide (da_UnitIdx a = u)) as [Hu|Hu]; [|by rewrite Ht, Hm in Hm1].
    exists a. split; [by left|]. split; [done|]. subst u.
    assert (Hc : 0 < da_ArrivalCount a).
    { destruct (Z.lt_ge_cases 0 (da_ArrivalCount a)); [done|]. exfalso. apply Hm1. rewrite Ht.
      unfold tallyStep. by rewrite (proj2 (Z.leb_le _ _)) by done. }
    destruct (Hs Hc) as (ob & Es1 & _ & _ & Hp).
    assert (Hend : ta_mark (tallyAt (foldl (applyArrival now id act depth) (s1, r1) l).1 id
      (da_UnitIdx a)) = ta_mark (tallyAt s1 id (da_UnitIdx a))).
    { rewrite (fold_arrivals_tally now id act depth s1 r1 l). by apply tally_mark. }
    rewrite Hend, Ht. rewrite Ht in Hm1. destruct (Hp Hm Hm1) as [st Hst]. exists st.
    apply (fold_arrivals_grows now id act depth s1 r1 l). by rewrite Es1.
Qed.

(** ** What an accepted commit that leaves the execution open does *)

(** The parts of the store the schedule is made of. *)
Definition sameWork (s s' : memoryState) : Prop :=
  (outbox s' = outbox s /\ deadOutbox s' = deadOutbox s /\ rolledBack s' = rolledBack s /\
   executions s' = executions s) /\
  inDegrees s' = inDegrees s /\ activeIns s' = activeIns s /\ scheduled s' = scheduled s.

#[export] Instance sameWork_order : PreOrder sameWork.
Proof.
  split; [done|]. intros s1 s2 s3 ((E1 & E2 & E3 & E0) & E4 & E5 & E6) ((F1 & F2 & F3 & F0) & F4 & F5 & F6).
  unfold sameWork. by rewrite F1, F2, F3, F0, F4, F5, F6.
Qed.

Lemma commitWrite_work now s req current : sameWork s (commitWriteNode now s req current).
Proof.
  unfold commitWriteNode, preserveOutputPrivacyLocked. cbn zeta.
  by repeat (case_match; simplify_eq/=).
Qed.

Lemma commitCount_work now s req entry :
  req_AllowCycles req = false -> (commitCount now s req entry).2 = None ->
  sameWork s (commitCount now s req entry).1 /\ req_Fatal req = false.
Proof.
  intros Hac. unfold commitCount. rewrite Hac. cbn zeta.
  set (s1 := if decide (req_Status req = NodeStatusFailed) then (_ : memoryState) else _).
  assert (H : sameWork s s1) by (unfold s1; by case_decide).
  by destruct (req_Fatal req), (_ =? 0).
Qed.

Lemma commit_open_shape now s req :
  res_Outcome (commitNodeLocked now s req).2 = CommitOutcomeAccepted ->
  req_AllowCycles req = false -> req_AdvanceTask req = None ->
  res_ExecutionDone (commitNodeLocked now s req).2 = false ->
  isCanceling s (req_ExecutionID req) = false ->
  let id := req_ExecutionID req in
  exists sc, sameWork s sc /\
    (commitNodeLocked now s req).1
    = (applyArrivalsLocked now
         (putOptional now sc id (mergeCancelOutboxID id (req_NodeName req) (req_ActivationID req))
            (req_MergeCancel req)).1
         id (req_ActivationID req) (req_AutoDepth req) (req_Arrivals req)).1.
Proof.
  intros Ho Hac Had Hdone Hcan id. apply commit_accepted_inv in Ho as (e & He & Hd & _ & _ & Ec).
  rewrite Ec in Hdone |- *. clear Ec. cbn zeta in Hdone |- *. fold id in Hdone |- *.
  set (w := commitWriteNode now s req _) in *.
  assert (Hw : sameWork s w) by apply commitWrite_work.
  pose proof (commitCount_work now w req e Hac) as Hcw.
  destruct (commitCount now w req e) as [sc [st|]]; cbn [fst snd] in Hcw.
  { by rewrite commitSchedule_final in Hdone. }
  destruct (Hcw eq_refl) as [Hsc Hf]. assert (H : sameWork s sc) by (by etrans).
  exists sc. split; [exact H|]. apply commitSchedule_arrivals; try done.
  unfold isCanceling in *. destruct H as ((_ & _ & _ & ->) & _). exact Hcan.
Qed.

(** ** Counting edges and nodes *)

Lemma filter_concat_src (ls : list (list Edge)) off i :
  (forall k es e, ls !! k = Some es -> e ∈ es -> e_SrcIdx e = off + k)%nat ->
  filter (fun e => e_SrcIdx e = i) (concat ls)
  = if decide (off <= i)%nat then default [] (ls !! (i - off)%nat) else [].
Proof.
  revert off. induction ls as [|es ls IH]; intros off H; [by case_decide|]. cbn [concat].
  assert (Hes : forall e, e ∈ es -> e_SrcIdx e = off) by (intros e He; rewrite (H 0%nat es e); lia || done).
  rewrite filter_app, (IH (S off)).
  2: { intros k es' e Hk He. rewrite (H (S k) es' e Hk He). lia. }
  destruct (decide (i = off)) as [->|Hne].
  - rewrite decide_False, app_nil_r, decide_True, Nat.sub_diag by lia. cbn.
    by apply filter_all.
  - assert (filter (fun e => e_SrcIdx e = i) es = []) as ->.
    { apply filter_none. intros e He. rewrite (Hes e He). lia. }
    cbn [app]. destruct (decide (off <= i)%nat).
    + rewrite decide_True by lia. by replace (i - off)%nat with (S (i - S off)) by lia.
    + by rewrite decide_False by lia.
Qed.

(** ** A commit keeps the graphs *)

Definition graph_kept (s s' : memoryState) : Prop := forall x, LoadGraph s' x = LoadGraph s x.

#[export] Instance graph_kept_order : PreOrder graph_kept.
Proof. split; [by intros s x|]. intros s1 s2 s3 H1 H2 x. by rewrite H2, H1. Qed.

Lemma finish_graph now s id e st msg :
  executions s !! id = Some e -> graph_kept s (finishExecutionLocked now s id e st msg).
Proof.
  intros He x. unfold finishExecutionLocked. destruct (IsTerminalExecutionStatus _); [done|].
  match goal with |- context [<[id := ?e']> ] => set (e1 := e') end.
  assert (H1 : ex_Graph (snap e1) = ex_Graph (snap e)) by (unfold e1; by case_decide).
  clearbody e1. unfold LoadGraph, markClosed. cbn. rewrite lookup_alter.
  match goal with |- context [releaseWorkflowSlotLocked now ?s1 id] =>
    assert (Hr : executions (releaseWorkflowSlotLocked now s1 id) !! x ≫= (fun e => ex_Graph (snap e))
            = executions s !! x ≫= (fun e => ex_Graph (snap e)));
    [assert (Hs1 : executions s1 !! x ≫= (fun e => ex_Graph (snap e))
            = executions s !! x ≫= (fun e => ex_Graph (snap e)))|] end.
  - rewrite (frame_executions _ _ (withdraw_frame _ _ _)). cbn.
    destruct (decide (x = id)) as [->|]; [by rewrite lookup_insert_eq, He|by rewrite lookup_insert_ne].
  - match goal with |- context [releaseWorkflowSlotLocked now ?s1 id] =>
      destruct (release_started now s1 id x) as [->|(e2 & He2 & _ & ->)] end; [done|].
    rewrite He2 in Hs1. exact Hs1.
  - rewrite <- Hr. case_decide as E; [|done]. rewrite ?E.
    match goal with |- (_ <$> ?m) ≫= _ = _ => by destruct m end.
Qed.

Lemma commit_graph now s req : graph_kept s (commitNodeLocked now s req).1.
Proof.
  apply (commit_rel graph_kept); [|intros; by apply finish_graph].
  intros s1 s2 [E _] x. unfold LoadGraph. by rewrite E.
Qed.

(** ** Intents of an execution that finishes *)

(** Every intent carries a task that was there before. *)
Definition tasksFrom (s s' : memoryState) : Prop :=
  deadOutbox s' = deadOutbox s /\
  forall x key st', outboxOf s' x !! key = Some st' ->
    exists st, outboxOf s x !! key = Some st /\ oe_Task (ob_entry st') = oe_Task (ob_entry st).

#[export] Instance tasksFrom_order : PreOrder tasksFrom.
Proof.
  split; [by split; eauto|]. intros s1 s2 s3 [D1 H1] [D2 H2]. split; [congruence|].
  intros x key st (st2 & Hk & E2)%H2. apply H1 in Hk as (st1 & Hk & E1). exists st1. split; [done|congruence].
Qed.

Lemma same_tasks s s' : outbox s' = outbox s -> deadOutbox s' = deadOutbox s -> tasksFrom s s'.
Proof. intros E1 E2. split; [done|]. unfold outboxOf. rewrite E1. eauto. Qed.

Lemma alter_tasks s id (f : memoryOutboxEntry -> memoryOutboxEntry) :
  (forall e, oe_Task (ob_entry (f e)) = oe_Task (ob_entry e)) ->
  tasksFrom s (s <| outbox ::= alter (fmap f) id |>).
Proof.
  intros Hf. split; [done|]. intros x key st. unfold outboxOf. cbn.
  destruct (decide (x = id)) as [->|Hne]; [|rewrite lookup_alter_ne by done; eauto].
  rewrite lookup_alter_eq. destruct (outbox s !! id) as [m|]; cbn; [|done].
  rewrite lookup_fmap. destruct (m !! key) as [e|]; [|done]. intros [= <-]. by exists e.
Qed.

Lemma promoteLoop_tasks fuel now s slot : tasksFrom s (promoteLoop fuel now s slot).1.
Proof.
  revert s slot. induction fuel as [|fuel IH]; intros s slot; [done|]. cbn. unfold promoteOne.
  destruct (ws_queued slot) as [|id line]; [done|]. case_bool_decide; [|done].
  etrans; [|apply IH]. unfold completePromotionLocked, unpark. cbn zeta.
  match goal with |- context [if decide (id ∈ mirrorCreatePending ?s2) then _ else _] =>
    set (s1 := s2); assert (H1 : tasksFrom s s1) end.
  { unfold s1. repeat case_match; by apply same_tasks. }
  clearbody s1. etrans; [|case_decide; [reflexivity|apply alter_tasks]].
  - exact H1.
  - intros e. by destruct (isHeld e).
Qed.

Lemma release_tasks now s id : tasksFrom s (releaseWorkflowSlotLocked now s id).
Proof.
  assert (Hset : forall s1 slot, tasksFrom s s1 -> tasksFrom s (Slots.settle now s1 slot)).
  { intros s1 slot H. etrans; [exact H|]. unfold Slots.settle, promoteLocked.
    pose proof (promoteLoop_tasks (length (ws_queued slot)) now s1 slot) as Hp.
    destruct (promoteLoop _ now s1 slot) as [s2 sl]. by case_bool_decide. }
  unfold releaseWorkflowSlotLocked. destruct (slotHolders s !! id); [apply Hset; by apply same_tasks|].
  destruct (queued s !! id); [|done]. apply Hset. unfold dropHeldOutboxLocked, outboxOf.
  case_decide; (split; [done|]); intros x key st; unfold outboxOf; cbn.
  - destruct (decide (x = id)) as [->|Hne]; [by rewrite lookup_delete_eq|rewrite lookup_delete_ne by done; eauto].
  - destruct (decide (x = id)) as [->|Hne]; [|rewrite lookup_insert_ne by done; eauto].
    rewrite lookup_insert_eq. cbn. intros [Hk _]%map_lookup_filter_Some. eauto.
Qed.

Lemma finish_tasks now s id e st msg : tasksFrom s (finishExecutionLocked now s id e st msg).
Proof.
  unfold finishExecutionLocked. destruct (IsTerminalExecutionStatus _); [done|]. cbn zeta.
  match goal with |- context [releaseWorkflowSlotLocked now ?s1 id] =>
    assert (H1 : tasksFrom s s1); [|destruct (release_tasks now s1 id) as [D R]] end.
  { unfold withdrawDeadlineLocked. repeat case_match; by apply same_tasks. }
  etrans; [exact H1|]. split; [exact D|exact R].
Qed.

Lemma count_tasks now s req e :
  req_AllowCycles req = false -> tasksFrom s (commitCount now s req e).1.
Proof.
  intros Hac. unfold commitCount. rewrite Hac. cbn zeta.
  match goal with |- context [if decide (req_Status req = NodeStatusFailed) then ?a else ?b] =>
    set (s1 := if decide (req_Status req = NodeStatusFailed) then a else b);
    assert (H1 : tasksFrom s s1) by (unfold s1; case_decide; by apply same_tasks) end.
  clearbody s1. destruct (req_Fatal req || _); [|exact H1]. etrans; [exact H1|apply finish_tasks].
Qed.

(** ** Storing one record *)

Definition recorded (s s' : memoryState) (key : string) (n : NodeSnapshot) : Prop :=
  nodes s' = <[key := n]> (nodes s) /\ sameWork s s' /\ life_frame s s' /\
  remaining s' = remaining s.

Lemma preserve_recorded s key req n :
  let '(s1, _) := preserveOutputPrivacyLocked s key req in
  recorded s (s1 <| nodes ::= <[key := n]> |>) key n.
Proof.
  unfold preserveOutputPrivacyLocked, recorded. repeat case_match; simplify_eq/=; try done.
  by rewrite insert_insert_eq.
Qed.

Lemma storeNode_recorded s key n :
  exists p, recorded s (storeNode s key n) key (withPrivacy p n).
Proof.
  unfold storeNode.
  pose proof (fun p => preserve_recorded s key (ns_PrivateOutput n) (withPrivacy p n)) as H.
  destruct (preserveOutputPrivacyLocked s key (ns_PrivateOutput n)) as [s1 p]. exists p. apply H.
Qed.

(** ** Moving intents about *)

(** The same intents, by key and task, in the outbox or among the dead letters. *)
Record touched (id : string) (s s' : memoryState) : Prop := {
  tc_life : life_frame s s';
  tc_nodes : nodes s' = nodes s;
  tc_kept : rolledBack s' = rolledBack s;
  tc_counts : inDegrees s' = inDegrees s /\ activeIns s' = activeIns s /\
    scheduled s' = scheduled s /\ remaining s' = remaining s;
  tc_old : forall key st, intentAt id s key st -> exists st', intentAt id s' key st';
  tc_new : forall key st', intentAt id s' key st' ->
    exists st, intentAt id s key st /\ oe_Task (ob_entry st') = oe_Task (ob_entry st)
}.

#[export] Instance touched_order id : PreOrder (touched id).
Proof.
  split; [split; [done..|eauto|eauto]|].
  intros s1 s2 s3 [A1 A2 A3 (A4 & A5 & A6 & A7) A8 A9] [B1 B2 B3 (B4 & B5 & B6 & B7) B8 B9].
  split; [by etrans|congruence|congruence|split_and!; congruence| |].
  - intros key st H. destruct (A8 key st H) as [st1 H1]. by eapply B8.
  - intros key st H. destruct (B9 key st H) as (st1 & H1 & E1). destruct (A9 key st1 H1) as (st2 & H2 & E2).
    exists st2. split; [done|congruence].
Qed.

Lemma set_touched id s key e0 e :
  outboxOf s id !! key = Some e0 -> oe_Task (ob_entry e) = oe_Task (ob_entry e0) ->
  touched id s (setOutbox s id key e).
Proof.
  intros H0 Ht.
  assert (Ho : forall k, outboxOf (setOutbox s id key e) id !! k
    = if decide (k = key) then Some e else outboxOf s id !! k).
  { intros k. rewrite (lookup_setOutbox s id key e0 e id k H0). repeat case_decide; tauto. }
  split; try done; unfold intentAt; intros k st; rewrite Ho.
  - case_decide as Hk; [|intros H; by exists st]. intros _. exists e. by left.
  - case_decide as Hk; [subst|intros H; by exists st].
    intros [[= <-]|H]; [exists e0; by split; [left|]|by exists st; split; [right|]].
Qed.

Lemma claim_touched id s now limit : touched id s (LeaseOutbox s id now limit).1.
Proof.
  unfold LeaseOutbox. generalize (readyOutboxIDsLocked s id now limit). intros ids. revert s.
  induction ids as [|key ids IH]; intros s; [done|]. cbn.
  destruct (outboxOf s id !! key) as [e|] eqn:He; [|apply IH]. cbn zeta.
  match goal with |- context [leaseAll now ?s1 id ids] => specialize (IH s1);
    destruct (leaseAll now s1 id ids) as [s2 out]; cbn [fst] in *; etrans; [|exact IH] end.
  by eapply set_touched.
Qed.

Lemma extend_touched id s now entries : touched id s (RenewOutbox s id entries now).1.
Proof.
  unfold RenewOutbox. generalize (@nil OutboxEntry). revert s.
  induction entries as [|o entries IH]; intros s out; [done|]. cbn [foldl].
  destruct (renewOne now id (s, out) o) as [s1 out1] eqn:E. etrans; [|apply IH].
  unfold renewOne in E.
  destruct (outboxOf s id !! oe_ID o) as [e|] eqn:He; [|by simplify_eq].
  destruct (negb (After _ _)); [by simplify_eq|]. destruct (negb _); [by simplify_eq|].
  simplify_eq. by eapply set_touched.
Qed.

Lemma release_touched id s entry : touched id s (ReleaseOutbox s id entry).
Proof.
  unfold ReleaseOutbox. destruct (outboxOf s id !! oe_ID entry) eqn:He; [|done]. by eapply set_touched.
Qed.

Lemma undelivered_touched id s entry limit : touched id s (RecordOutboxFailure s id entry limit).1.
Proof.
  unfold RecordOutboxFailure. destruct (outboxOf s id !! oe_ID entry) as [st|] eqn:He; [|done]. cbn zeta.
  destruct (_ <=? _); [|by eapply set_touched]. cbn [fst]. set (st1 := st <| ob_entry ::= _ |>).
  assert (Hst : oe_Task (ob_entry st1) = oe_Task (ob_entry st)) by done. clearbody st1.
  split; try done; unfold intentAt, outboxOf, deadOf; cbn; intros k st';
    rewrite lookup_deleteEntry, lookup_insert_eq; cbn.
  - intros H. destruct (decide (k = oe_ID entry)) as [->|Hne].
    + eexists. right. by rewrite lookup_insert_eq.
    + exists st'. rewrite decide_False by naive_solver. by rewrite lookup_insert_ne.
  - destruct (decide (k = oe_ID entry)) as [->|Hne].
    + rewrite decide_True by done. rewrite lookup_insert_eq. intros [H|[= <-]]; [done|].
      exists st. by split; [left|].
    + rewrite decide_False by naive_solver. rewrite lookup_insert_ne by done. intros H. by exists st'.
Qed.

Lemma replay_touched now s req :
  touched (rq_ExecutionID req) s (ReplayDeadLetter now s req).1.
Proof.
  unfold ReplayDeadLetter. set (id := rq_ExecutionID req). case_decide as Hne0; [done|]. cbn zeta.
  destruct (priorReceipt s req); [done|].
  destruct (default ∅ (deadOutbox s !! id) !! rq_EntryID req) as [st|] eqn:He; [|done].
  destruct (replayGuard s id _); [by split; eauto|]. cbn [fst writeReplayReceiptLocked].
  set (st1 := st <| ob_entry ::= _ |> <| ob_leasedUntil := _ |> <| ob_deadMeta := _ |>).
  assert (Hst : oe_Task (ob_entry st1) = oe_Task (ob_entry st)) by done. clearbody st1.
  split; try done; unfold intentAt, outboxOf, deadOf; cbn; intros k st';
    rewrite lookup_deleteEntry, lookup_insert_eq; cbn.
  - intros H. destruct (decide (k = rq_EntryID req)) as [->|Hne].
    + exists st1. left. by rewrite lookup_insert_eq.
    + exists st'. rewrite decide_False by naive_solver. by rewrite lookup_insert_ne.
  - destruct (decide (k = rq_EntryID req)) as [->|Hne].
    + rewrite decide_True by done. rewrite lookup_insert_eq. intros [[= <-]|H]; [|done].
      exists st. by split; [right|].
    + rewrite decide_False by naive_solver. rewrite lookup_insert_ne by done. intros H. by exists st'.
Qed.

Section preserve.
Context (g : Graph) (id : string) (Hg : nodeUnits g) (Hnames : NoDup (map nm_Name (g_nodes g))).
Context (Hac : g_allowCycles g = false) (Htimeout : g_timeout g <= 0)
  (Hbody : forall nd, nd ∈ g_nodes g -> nm_HasBody nd = false).
Set Default Proof Using "Type*".

Notation unitNode := (unitNode g).
Notation finished := (finished id).
Notation finishedAt := (finishedAt g id).
Notation openInto := (openInto g id).
Notation openNodes := (openNodes g id).
Notation underWay := (underWay id).
Notation taskOK := (taskOK g id).
Notation live := (live g id).

Lemma name_inj i j nd nd' :
  g_nodes g !! i = Some nd -> g_nodes g !! j = Some nd' -> nm_Name nd = nm_Name nd' -> i = j.
Proof.
  intros Hi Hj E. apply (NoDup_lookup _ _ _ (nm_Name nd) Hnames).
  - rewrite list_lookup_fmap. by rewrite Hi.
  - rewrite list_lookup_fmap, Hj. cbn. by rewrite E.
Qed.

(** The store after one node's record was written. *)
Definition wrote (s s' : memoryState) (name : string) (n : NodeSnapshot) : Prop :=
  forall k, nodes s' !! k = if decide (k = memoryNodeKey id name) then Some n else nodes s !! k.

Lemma wrote_nodeIs s s' name n name0 P :
  wrote s s' name n ->
  nodeIs id s' name0 P = if decide (name0 = name) then P (ns_Status n) else nodeIs id s name0 P.
Proof.
  intros H. unfold nodeIs. rewrite H. destruct (decide (name0 = name)) as [->|Hne].
  - by rewrite decide_True.
  - rewrite decide_False; [done|]. by intros ?%memoryNodeKey_name_inj.
Qed.

Lemma wrote_keyed s s' name n :
  wrote s s' name n -> keyed id (nodes s) -> ns_Name n = name -> keyed id (nodes s').
Proof.
  intros Hw Hk Hn k n0. rewrite Hw. case_decide as E; [|apply Hk].
  intros [= <-] _. by rewrite Hn.
Qed.

(** One more node has finished. *)
Section finish.
Context (s s' : memoryState) (i v : nat) (nd : NodeMeta) (Hi : unitNode i v nd).
Context (Hopen : finished s (nm_Name nd) = false).
Context (Hdone : forall name,
  finished s' name = if decide (name = nm_Name nd) then true else finished s name).

Lemma finishedAt_step j :
  finishedAt s' j = if decide (j = i) then true else finishedAt s j.
Proof.
  unfold Progress.finishedAt. destruct Hi as [_ Hn]. destruct (decide (j = i)) as [->|Hne].
  - rewrite Hn, Hdone. by rewrite decide_True.
  - destruct (g_nodes g !! j) as [nd'|] eqn:Ej; [|done]. rewrite Hdone, decide_False; [done|].
    intros E. by apply Hne, (name_inj j i nd' nd).
Qed.

Lemma finishedAt_open : finishedAt s i = false.
Proof. unfold Progress.finishedAt. destruct Hi as [_ ->]. exact Hopen. Qed.

Lemma edges_from j :
  filter (fun e => e_SrcIdx e = i) (inbound g j) = edgesTo j (outEdgesOf g i).
Proof.
  unfold inbound, edgesTo. rewrite list_filter_filter.
  transitivity (filter (fun e => e_DstIdx e = j) (filter (fun e => e_SrcIdx e = i) (concat (g_outEdges g)))).
  - rewrite list_filter_filter. apply filter_ext_in. intros e _. tauto.
  - rewrite (filter_concat_src _ 0); [|by apply (nu_indexed g Hg)].
    rewrite decide_True by lia. by rewrite Nat.sub_0_r.
Qed.

Lemma openInto_step j :
  length (openInto s j) = (length (openInto s' j) + length (edgesTo j (outEdgesOf g i)))%nat.
Proof.
  rewrite <- edges_from. unfold Progress.openInto. apply length_filter_split.
  - intros e _. rewrite finishedAt_step. destruct (decide (e_SrcIdx e = i)) as [->|Hne]; [|tauto].
    rewrite finishedAt_open. tauto.
  - intros e E1 E2. rewrite finishedAt_step, decide_True in E1; done.
Qed.

Lemma openNodes_step : length (openNodes s) = S (length (openNodes s')).
Proof.
  unfold Progress.openNodes. apply (length_filter_drop _ _ _ i); [apply NoDup_seq|..].
  - destruct Hi as [_ Hn]. apply lookup_lt_Some in Hn. apply elem_of_seq. unfold NodeCount. lia.
  - destruct Hi as [-> _]. split; [done|apply finishedAt_open].
  - intros [_ E]. rewrite finishedAt_step, decide_True in E; done.
  - intros j _ Hj. by rewrite finishedAt_step, decide_False.
Qed.
End finish.

(** ** The arrivals of a node of the graph *)

Lemma arrivals_node i port l a :
  (i < NodeCount g)%nat -> downstreamArrivals g (Z.of_nat i) port = Ok l -> a ∈ l ->
  exists j v nd, unitNode j v nd /\ da_NodeName a = nm_Name nd /\ da_NodeIdx a = Z.of_nat j /\
    da_UnitIdx a = Z.of_nat v /\ da_ExecTaskType a = execTaskTypeForNode nd /\
    inbound g j <> [].
Proof.
  intros Hi Hl Ha. destruct (downstream_simple g Hg i port Hi) as (m & Hm & Hc).
  rewrite Hl in Hm. injection Hm as ->. unfold inIndexOrder in Ha.
  apply list_elem_of_omap in Ha as (j & _ & Hj). pose proof (Hc j) as Hcj. rewrite Hj in Hcj.
  destruct Hcj as (Hne & a0 & Hnew & ->).
  assert (exists e, e ∈ edgesTo j (outEdgesOf g i)) as (e & He).
  { destruct (edgesTo j (outEdgesOf g i)) as [|e es]; [done|]. exists e. by left. }
  apply list_elem_of_filter in He as [Hd He]. pose proof (outEdgesOf_ends g i e He) as Hin.
  destruct (nu_ends g Hg e Hin) as [_ [v Hv]]. rewrite Hd in Hv.
  destruct (newArrival_simple g Hg j v Hv) as (nd & Hnd & Hn). rewrite Hn in Hnew.
  injection Hnew as <-. exists j, v, nd. split_and!; try done.
  intros E. assert (H : e ∈ inbound g j) by (by apply list_elem_of_filter). rewrite E in H.
  by apply elem_of_nil in H.
Qed.

Lemma arrivals_count i port l j v nd :
  (i < NodeCount g)%nat -> downstreamArrivals g (Z.of_nat i) port = Ok l -> unitNode j v nd ->
  let mine := filter (fun a => da_UnitIdx a = Z.of_nat v) l in
  Forall (okArrival (nm_MergeMode nd)) mine /\
  arrived mine = Z.of_nat (length (edgesTo j (outEdgesOf g i))).
Proof.
  intros Hi Hl [Hj Hnd] mine. destruct (downstream_simple g Hg i port Hi) as (m & Hm & Hc).
  rewrite Hl in Hm. injection Hm as ->.
  by destruct (downstream_at g Hg i port m j v nd Hj Hnd Hc) as (H1 & H2 & _).
Qed.

(** ** Commits *)

(** A commit of one node of the graph, by whoever. *)
Record commits (req : CommitNodeRequest) (i v : nat) (nd : NodeMeta) : Prop := {
  cm_node : unitNode i v nd;
  cm_id : req_ExecutionID req = id;
  cm_name : req_NodeName req = nm_Name nd;
  cm_activation : req_ActivationID req = 0;
  cm_acyclic : req_AllowCycles req = false;
  cm_cyclic : req_CyclicComplete req = false;
  cm_advance : req_AdvanceTask req = None;
  cm_terminal : isTerminalNode (req_Status req) = true;
  cm_arrivals : req_Fatal req = true \/
    exists port, downstreamArrivals g (Z.of_nat i) port = Ok (req_Arrivals req);
  cm_merge : forall t, req_MergeCancel req = Some t -> taskOK t /\ t_Type t = TaskTypeMergeCancel
}.

(** What a commit that leaves the execution open does. *)
Record advanced (s s' : memoryState) (i : nat) (nd : NodeMeta) (l : list DownstreamArrival)
    (n : NodeSnapshot) : Prop := {
  ad_wrote : wrote s s' (nm_Name nd) n;
  ad_open : finished s (nm_Name nd) = false;
  ad_record : isTerminalNode (ns_Status n) = true /\ ns_ActivationID n = 0 /\
    ns_Name n = nm_Name nd /\ ns_ExecutionID n = id;
  ad_row : executions s' !! id = executions s !! id /\ rolledBack s' = rolledBack s;
  ad_tally : forall u, tallyAt s' id u
    = foldl tallyStep (tallyAt s id u) (filter (fun a => da_UnitIdx a = u) l);
  ad_dead : deadOutbox s' = deadOutbox s;
  ad_grows : forall key st, outboxOf s id !! key = Some st -> outboxOf s' id !! key = Some st;
  ad_new : forall key st, outboxOf s' id !! key = Some st ->
    outboxOf s id !! key = Some st \/
    (exists t, taskOK t /\ t_Type t = TaskTypeMergeCancel /\ oe_Task (ob_entry st) = t /\
       key = mergeCancelOutboxID id (nm_Name nd) 0) \/
    (exists a schedule depth, a ∈ l /\ (schedule = "execute" \/ schedule = "skip") /\
       markOf id s' (da_UnitIdx a) = schedule /\
       key = scheduleOutboxID id (da_NodeName a) 0 schedule /\
       oe_Task (ob_entry st) = arrivalTask id 0 depth a schedule);
  ad_marked : forall u, markOf id s u = "" -> markOf id s' u <> "" ->
    exists a, a ∈ l /\ da_UnitIdx a = u /\
      is_Some (outboxOf s' id !! scheduleOutboxID id (da_NodeName a) 0 (markOf id s' u));
  ad_left : counter (remaining s') id = counter (remaining s) id - 1 /\
    counter (remaining s') id <> 0
}.

Lemma putOptional_new now s oid t key st :
  outboxOf (putOptional now s id oid t).1 id !! key = Some st ->
  outboxOf s id !! key = Some st \/ key = oid /\ t = Some (oe_Task (ob_entry st)).
Proof.
  destruct t as [t|]; [|by left]. unfold putOptional, putOutboxLocked.
  pose proof (put_lookup now s id (newOutboxEntry oid t zeroTime) key st) as H.
  destruct (putOutboxEntryLocked now s id _) as [s1 w]. cbn [fst] in *.
  intros [H1|[H1 H2]]%H; [by left|]. right. split; [done|]. by rewrite H2.
Qed.

Lemma putOptional_grows now s oid t : outbox_grows s (putOptional now s id oid t).1.
Proof.
  intros id' key st Hk. destruct t as [t|]; [|done]. unfold putOptional, putOutboxLocked.
  pose proof (put_keeps now s id (newOutboxEntry oid t zeroTime) id' key st Hk) as H.
  by destruct (putOutboxEntryLocked now s id _).
Qed.

Lemma sameWork_tally s sc u : sameWork s sc -> tallyAt sc id u = tallyAt s id u.
Proof. intros (_ & E1 & E2 & E3). unfold tallyAt. by rewrite E1, E2, E3. Qed.

(** An accepted commit finishes one open node. *)
Lemma accepted_step now s req i v nd :
  commits req i v nd -> res_Outcome (commitNodeLocked now s req).2 = CommitOutcomeAccepted ->
  length (openNodes s) = S (length (openNodes (commitNodeLocked now s req).1)).
Proof.
  intros C Ho. set (s' := (commitNodeLocked now s req).1).
  pose proof (fun k => commit_accepted_nodes now s req k Ho) as Hn. cbn zeta in Hn. fold s' in Hn.
  rewrite (cm_id _ _ _ _ C), (cm_name _ _ _ _ C) in Hn. set (n := committedNode now req _ _) in Hn.
  apply commit_accepted_inv in Ho as (e0 & _ & _ & Hnt & _).
  rewrite (cm_id _ _ _ _ C), (cm_name _ _ _ _ C) in Hnt.
  assert (Hterm : isTerminalNode (ns_Status n) = true).
  { pose proof (cm_terminal _ _ _ _ C). unfold n, committedNode. by repeat case_match. }
  apply (openNodes_step s s' i v nd (cm_node _ _ _ _ C)).
  - unfold Progress.finished, nodeIs. destruct (nodes s !! _) as [n0|]; [|done]. by apply Hnt.
  - intros name. unfold Progress.finished at 1. rewrite (wrote_nodeIs s s' (nm_Name nd) n); [|done].
    by rewrite Hterm.
Qed.

(** The commit of the last open node leaves none. *)
Lemma last_commit now s queue req i v nd :
  live s queue -> commits req i v nd ->
  res_Outcome (commitNodeLocked now s req).2 = CommitOutcomeAccepted ->
  counter (remaining s) id - 1 = 0 -> openNodes (commitNodeLocked now s req).1 = [].
Proof.
  intros L C Ho Hleft. pose proof (accepted_step now s req i v nd C Ho) as Hstep.
  destruct (lv_left _ _ _ _ L) as [Hc _].
  destruct (openNodes (commitNodeLocked now s req).1) as [|x l]; [done|]. cbn in Hstep. lia.
Qed.

Lemma live_intents s queue : live s queue -> ownIntents id s.
Proof.
  intros L key st Hk. destruct (lv_outbox _ _ _ _ L key st Hk) as ((j & v & nd & _ & H & _) & _). done.
Qed.

Lemma tasks_intents s s' : tasksFrom s s' -> ownIntents id s -> ownIntents id s'.
Proof.
  intros [D T] H key st [Hk|Hk].
  - apply T in Hk as (st0 & Hk & ->). apply (H key). by left.
  - apply (H key). right. unfold deadOf in *. by rewrite D in Hk.
Qed.

(** A commit that finishes the execution writes no intent. *)
Lemma done_intents now s queue req i v nd :
  live s queue -> commits req i v nd -> Validate req = None ->
  res_Outcome (commitNodeLocked now s req).2 = CommitOutcomeAccepted ->
  res_ExecutionDone (commitNodeLocked now s req).2 = true ->
  ownIntents id (commitNodeLocked now s req).1.
Proof.
  intros L C Hv Ho. apply commit_accepted_inv in Ho as (e & _ & _ & _ & _ & Ec). rewrite Ec. clear Ec.
  cbn zeta. set (w := commitWriteNode now s req _).
  assert (Hw : tasksFrom s w) by (apply same_tasks; apply commitWrite_work).
  pose proof (count_tasks now w req e (cm_acyclic _ _ _ _ C)) as Hc.
  pose proof (live_intents s queue L) as Hi. apply (tasks_intents s w Hw) in Hi.
  apply (tasks_intents w _ Hc) in Hi. clear Hw Hc.
  destruct (commitCount now w req e) as [sc [st|]]; cbn [fst] in *.
  - by rewrite commitSchedule_final by apply C.
  - intros Hd. by rewrite (proj2 (commitSchedule_open now sc req e Hv (cm_acyclic _ _ _ _ C))) in Hd.
Qed.

Lemma commit_advanced now s queue req i v nd :
  live s queue -> commits req i v nd -> Validate req = None ->
  res_Outcome (commitNodeLocked now s req).2 = CommitOutcomeAccepted ->
  over g id (commitNodeLocked now s req).1 \/
  req_Fatal req = false /\
  exists n, advanced s (commitNodeLocked now s req).1 i nd (req_Arrivals req) n.
Proof.
  intros L C Hv Ho. destruct (lv_row _ _ _ _ L) as (e & He & Hopen & Hcan & Hge).
  pose proof (commit_counts now s req (lv_life _ _ _ _ L) (cm_acyclic _ _ _ _ C) Hv Ho) as Hcnt.
  cbn zeta in Hcnt. destruct Hcnt as (Hrem & _ & Hdone & Hrow).
  destruct (res_ExecutionDone (commitNodeLocked now s req).2) eqn:Ed.
  { left. destruct Hrow as (_ & _ & e' & He' & Hst & _). rewrite (cm_id _ _ _ _ C) in He'.
    exists e'. split; [done|]. split; [unfold ended; rewrite Hst; by case_match|]. split.
    - pose proof (commit_graph now s req id) as Hgr. unfold LoadGraph in Hgr.
      rewrite He', He in Hgr. cbn in Hgr. by rewrite Hgr.
    - split; [|by eapply done_intents].
      rewrite Hst. destruct (req_Fatal req); [done|]. intros _. eapply last_commit; [done..|].
      symmetry in Hdone. apply Z.eqb_eq in Hdone. by rewrite (cm_id _ _ _ _ C) in Hdone. }
  right. symmetry in Hdone. apply orb_false_iff in Hdone as [Hf Hleft]. split; [done|].
  assert (Hnc : isCanceling s (req_ExecutionID req) = false).
  { unfold isCanceling. rewrite (cm_id _ _ _ _ C), He. by apply bool_decide_eq_false. }
  destruct (commit_open_shape now s req Ho (cm_acyclic _ _ _ _ C) (cm_advance _ _ _ _ C) Ed Hnc)
    as (sc & Hsc & Es'). cbn zeta in Es'.
  rewrite (cm_id _ _ _ _ C), (cm_name _ _ _ _ C), (cm_activation _ _ _ _ C) in Es'.
  pose proof (commit_accepted_nodes now s req) as Hn. cbn zeta in Hn.
  rewrite (cm_id _ _ _ _ C), (cm_name _ _ _ _ C) in Hn.
  apply commit_accepted_inv in Ho as Hinv. destruct Hinv as (e0 & _ & _ & Hnt & _).
  rewrite (cm_id _ _ _ _ C), (cm_name _ _ _ _ C) in Hnt.
  rewrite (cm_id _ _ _ _ C) in Hrem, Hrow, Hleft.
  set (n := committedNode now req _ _) in Hn. exists n.
  set (s1 := (putOptional now sc id _ _).1) in Es'.
  assert (E1 : forall u, tallyAt s1 id u = tallyAt s id u).
  { intros u. unfold s1. rewrite putOptional_tally. by apply sameWork_tally. }
  split.
  - intros k. by apply Hn.
  - unfold Progress.finished, nodeIs. destruct (nodes s !! _) as [n0|]; [|done]. by apply Hnt.
  - pose proof (cm_terminal _ _ _ _ C) as H1. pose proof (cm_activation _ _ _ _ C) as H2.
    pose proof (cm_name _ _ _ _ C) as H3. pose proof (cm_id _ _ _ _ C) as H4.
    unfold n, committedNode. repeat case_match; by split_and!.
  - split; [done|]. rewrite Es'. etrans; [|apply Hsc].
    etrans; [by apply (applyArrivals_rel (same rolledBack))|]. unfold s1.
    apply (putOptional_rel (same rolledBack) now). intros s0 id0 o.
    exact (proj2 (put_nodes now s0 id0 o)).
  - intros u. rewrite Es', applyArrivals_tally. by rewrite E1.
  - rewrite Es'. etrans; [|apply Hsc].
    etrans; [by apply (applyArrivals_rel (same deadOutbox))|]. unfold s1.
    apply (putOptional_rel (same deadOutbox) now). intros s0 id0 o.
    destruct (putOutbox_only now s0 id0 o) as (ob & Eo). by rewrite Eo.
  - intros key st Hk. rewrite Es'. apply fold_arrivals_grows, putOptional_grows.
    destruct Hsc as ((Eo & _) & _). unfold outboxOf. by rewrite Eo.
  - intros key st Hk. rewrite Es' in Hk. apply applyArrivals_new in Hk as [Hk|(a & sch & Ha & Hs & Hm & H)].
    + apply putOptional_new in Hk as [Hk|[-> Ht]].
      * left. destruct Hsc as ((Eo & _) & _). unfold outboxOf in Hk |- *. by rewrite Eo in Hk.
      * right; left. destruct (cm_merge _ _ _ _ C _ Ht) as [H1 H2]. by eexists.
    + right; right. exists a, sch, (req_AutoDepth req). unfold markOf. rewrite Es'. by destruct H.
  - intros u Hu Hu'. unfold markOf in *. rewrite Es' in Hu' |- *. rewrite <- E1 in Hu.
    by apply applyArrivals_marked.
  - rewrite Hrem. split; [done|]. apply Z.eqb_neq in Hleft. done.
Qed.

Lemma owns_schedule name sch : owns id (scheduleOutboxID id name 0 sch) name.
Proof. unfold scheduleOutboxID. case_decide; [by apply owns_skip|by apply owns_execute]. Qed.

Lemma exec_runs t nd : t_Type t = execTaskTypeForNode nd -> runs t = true /\ t_Type t <> TaskTypeNodeSkip.
Proof. unfold runs, execTaskTypeForNode. intros ->. by case_decide. Qed.

Lemma ad_finished s s' i nd l n : advanced s s' i nd l n -> finished s' (nm_Name nd) = true.
Proof.
  intros A. unfold Progress.finished. rewrite (wrote_nodeIs _ _ _ _ _ _ (ad_wrote _ _ _ _ _ _ A)).
  rewrite decide_True by done. apply A.
Qed.

(** ** After a commit the execution is still live *)

Section advance.
Context (s s' : memoryState) (queue : list Task) (i v : nat) (nd : NodeMeta) (port : string)
  (l : list DownstreamArrival) (n : NodeSnapshot).
Context (L : live s queue) (A : advanced s s' i nd l n) (Hi : unitNode i v nd)
  (Hl : downstreamArrivals g (Z.of_nat i) port = Ok l).

Lemma ad_range : (i < NodeCount g)%nat.
Proof. destruct Hi as [_ Hn]. by apply lookup_lt_Some in Hn. Qed.

Lemma ad_done name :
  finished s' name = if decide (name = nm_Name nd) then true else finished s name.
Proof.
  unfold Progress.finished. rewrite (wrote_nodeIs _ _ _ _ _ _ (ad_wrote _ _ _ _ _ _ A)).
  case_decide; [|done]. apply A.
Qed.

Lemma ad_mark u : markOf id s u <> "" -> markOf id s' u = markOf id s u.
Proof. intros H. unfold markOf. rewrite (ad_tally _ _ _ _ _ _ A). by apply tally_mark. Qed.

Lemma ad_root j w nd' : unitNode j w nd' -> inbound g j = [] ->
  markOf id s' (Z.of_nat w) = markOf id s (Z.of_nat w).
Proof.
  intros [Hj _] Hin. unfold markOf. rewrite (ad_tally _ _ _ _ _ _ A).
  rewrite filter_none; [done|]. intros a Ha Hu.
  destruct (arrivals_node i port l a ad_range Hl Ha) as (j' & w' & nd1 & [Hj' _] & _ & _ & Hw & _ & Hne).
  rewrite Hw in Hu. apply Nat2Z.inj in Hu as ->.
  by rewrite (unit_inj g Hg j' j w Hj' Hj) in Hne.
Qed.

Lemma ad_planned t : taskOK t -> planned g id s t -> planned g id s' t.
Proof.
  intros (j & w & nd' & Hj & _ & _ & Hjt & Hw & _) [H|[H1 H2]].
  - left. rewrite ad_mark; [done|]. by rewrite H.
  - right. split; [|done]. rewrite Hw in H1 |- *. rewrite Hjt, Nat2Z.id in H2.
    by rewrite (ad_root j w nd').
Qed.

Lemma ad_intents key st : intentAt id s key st -> intentAt id s' key st.
Proof.
  unfold intentAt, deadOf. rewrite (ad_dead _ _ _ _ _ _ A).
  intros [H|H]; [left; by apply (ad_grows _ _ _ _ _ _ A)|by right].
Qed.

Lemma ad_underWay name :
  underWay s queue name -> finished s' name = true \/ underWay s' queue name.
Proof.
  intros [(key & st & Hk & H)|[H|H]].
  - right. left. exists key, st. split; [by apply ad_intents|done].
  - right. right. by left.
  - destruct (decide (name = nm_Name nd)) as [->|Hne].
    + left. rewrite ad_done. by rewrite decide_True.
    + right. right. right. unfold leased in *.
      rewrite (wrote_nodeIs _ _ _ _ _ _ (ad_wrote _ _ _ _ _ _ A)). by rewrite decide_False.
Qed.

Lemma ad_in j w nd' : unitNode j w nd' ->
  ta_in (tallyAt s' id (Z.of_nat w)) = Z.of_nat (length (openInto s' j)).
Proof.
  intros Hj. destruct (arrivals_count i port l j w nd' ad_range Hl Hj) as [Hok Hc].
  rewrite (ad_tally _ _ _ _ _ _ A), (tally_in _ _ _ Hok), Hc.
  rewrite (lv_in _ _ _ _ L j w nd' Hj).
  pose proof (openInto_step s s' i v nd Hi (ad_open _ _ _ _ _ _ A) ad_done j). lia.
Qed.

Lemma ad_decided j w nd' : unitNode j w nd' -> inbound g j <> [] -> openInto s' j = [] ->
  markOf id s' (Z.of_nat w) <> "".
Proof.
  intros Hj Hin Ho. destruct (openInto s j) as [|e es] eqn:Es.
  - pose proof (lv_decided _ _ _ _ L j w nd' Hj Hin Es) as Hm. by rewrite ad_mark.
  - destruct (arrivals_count i port l j w nd' ad_range Hl Hj) as [Hok Hc]. unfold markOf.
    pose proof (ad_in j w nd' Hj) as Hz. rewrite Ho in Hz.
    rewrite (ad_tally _ _ _ _ _ _ A) in Hz |- *. eapply tally_decided; [exact Hok| |by rewrite Hz].
    intros E. rewrite E in Hc. cbn in Hc.
    pose proof (openInto_step s s' i v nd Hi (ad_open _ _ _ _ _ _ A) ad_done j) as Hs.
    rewrite Es, Ho in Hs. cbn in Hs. lia.
Qed.

Lemma ad_arrival_intent a sch depth :
  a ∈ l -> (sch = "execute" \/ sch = "skip") -> markOf id s' (da_UnitIdx a) = sch ->
  intentOK g id s' (scheduleOutboxID id (da_NodeName a) 0 sch) (arrivalTask id 0 depth a sch).
Proof.
  intros Ha Hs Hm.
  destruct (arrivals_node i port l a ad_range Hl Ha) as (j & w & nd' & Hj & Hn & Hji & Hw & Ht & _).
  assert (Hr : runs (arrivalTask id 0 depth a sch) = true).
  { unfold arrivalTask, runs. cbn. rewrite Ht. unfold execTaskTypeForNode.
    case_bool_decide; [done|]. by case_decide. }
  split_and!.
  - exists j, w, nd'. by split_and!.
  - intros _ Hty. left. cbn. rewrite Hm. destruct Hs as [->| ->]; [done|]. by cbn in Hty.
  - rewrite Hr. cbn. apply owns_schedule.
  - intros name Ho. split; [|done]. by apply (owns_inj _ _ _ _ (owns_schedule _ _) Ho).
Qed.

Lemma ad_intent key st :
  intentAt id s' key st -> intentOK g id s' key (oe_Task (ob_entry st)).
Proof.
  assert (Hold : intentAt id s key st -> intentOK g id s' key (oe_Task (ob_entry st))).
  { intros Hk. destruct (lv_outbox _ _ _ _ L key st Hk) as (H1 & H2 & H3). split_and!; [done| |apply H3..].
    intros Hr Ht. apply ad_planned; auto. }
  intros [Hk|Hk].
  - apply (ad_new _ _ _ _ _ _ A) in Hk
      as [Hk|[(t & Ht & Hty & -> & ->)|(a & sch & depth & Ha & Hs & Hm & -> & ->)]].
    + apply Hold. by left.
    + split_and!; [done| | |]; unfold runs; rewrite ?Hty; try done.
      by intros name Ho%mergeCancel_unowned.
    + by apply ad_arrival_intent.
  - apply Hold. right. unfold deadOf in Hk |- *. by rewrite (ad_dead _ _ _ _ _ _ A) in Hk.
Qed.

Lemma ad_flight j w nd' : unitNode j w nd' ->
  inbound g j = [] \/ markOf id s' (Z.of_nat w) <> "" ->
  finished s' (nm_Name nd') = true \/ underWay s' queue (nm_Name nd').
Proof.
  intros Hj Hm. destruct (decide (inbound g j = [] \/ markOf id s (Z.of_nat w) <> "")) as [Hold|Hnew].
  - destruct (lv_flight _ _ _ _ L j w nd' Hj Hold) as [H|H]; [|by apply ad_underWay].
    left. rewrite ad_done. by case_decide.
  - destruct (decide (markOf id s (Z.of_nat w) = "")) as [H0|H0]; [|tauto].
    destruct Hm as [Hm|Hm]; [tauto|].
    destruct (ad_marked _ _ _ _ _ _ A _ H0 Hm) as (a & Ha & Hu & [st Hst]).
    destruct (arrivals_node i port l a ad_range Hl Ha) as (j' & w' & nd1 & [Hj' Hnd1] & Hn & _ & Hw & _).
    rewrite Hw in Hu. apply Nat2Z.inj in Hu as ->. destruct Hj as [Hj Hnd'].
    rewrite (unit_inj g Hg j' j w Hj' Hj), Hnd' in Hnd1. injection Hnd1 as <-.
    right. left. eexists _, st. split; [left; exact Hst|]. rewrite Hn in Hst.
    destruct (ad_intent _ st (or_introl Hst)) as (_ & _ & _ & Ho).
    split; by apply (Ho (nm_Name nd')), owns_schedule.
Qed.

Lemma advanced_live : life_inv s' -> live s' queue.
Proof.
  intros Hlife. split.
  - done.
  - destruct (ad_row _ _ _ _ _ _ A) as [-> _]. apply L.
  - destruct (ad_row _ _ _ _ _ _ A) as [_ ->]. apply L.
  - apply ad_in.
  - apply ad_decided.
  - apply ad_flight.
  - destruct (ad_left _ _ _ _ _ _ A) as [E Hne]. destruct (lv_left _ _ _ _ L) as [E0 _].
    pose proof (openNodes_step s s' i v nd Hi (ad_open _ _ _ _ _ _ A) ad_done) as Hs.
    split; [lia|]. intros E1. rewrite E1 in Hs. cbn in Hs. lia.
  - apply ad_intent.
  - intros t Ht. destruct (lv_queue _ _ _ _ L t Ht) as [H1 H2]. split; [done|].
    apply ad_planned; [apply H1|done].
  - intros name n0 Hn. rewrite (ad_wrote _ _ _ _ _ _ A) in Hn. case_decide as Hk.
    + injection Hn as <-. apply memoryNodeKey_name_inj in Hk as ->.
      destruct (ad_record _ _ _ _ _ _ A) as (Ht & Ha & Hnm & Hid).
      split_and!; [done|done|]. split_and!; [done|by right; right|].
      intros Hls. exfalso. by destruct (ns_Status n).
    + destruct (lv_records _ _ _ _ L name n0 Hn) as (H1 & H2 & H3 & H4 & H5).
      split_and!; [done|done|]. split_and!; [done|done|]. intros Hls.
      destruct (H5 Hls) as (H6 & H7 & H8). split_and!; [apply H6..| |done].
      apply ad_planned; [apply H6|done].
  - eapply wrote_keyed; [apply A|apply L|apply A].
Qed.
End advance.

(** The intents of the execution are kept. *)
Definition intentsKept (s s' : memoryState) : Prop :=
  forall key st, outboxOf s id !! key = Some st -> outboxOf s' id !! key = Some st.

Lemma commit_live now s queue req i v nd :
  live s queue -> commits req i v nd ->
  let s' := (CommitNode now s req).1 in
  over g id s' \/
  live s' queue /\ intentsKept s s' /\ (s' = s \/ finished s' (nm_Name nd) = true).
Proof.
  intros L C. cbn zeta. unfold CommitNode. destruct (Validate req) eqn:Hv.
  { right. split_and!; [done|by intros ??|by left]. }
  destruct (decide (res_Outcome (commitNodeLocked now s req).2 = CommitOutcomeAccepted)) as [Ho|Ho].
  - destruct (commit_advanced now s queue req i v nd L C Hv Ho) as [H|(Hf & n & A)];
      destruct (commitNodeLocked now s req) as [s' r] eqn:Es; cbn [fst] in *; [by left|right].
    destruct (cm_arrivals _ _ _ _ C) as [H|[port Hp]]; [congruence|].
    split_and!; [|exact (ad_grows _ _ _ _ _ _ A)|right; by eapply ad_finished].
    eapply advanced_live; [exact L|exact A|exact (cm_node _ _ _ _ C)|exact Hp|].
    replace s' with (commitNodeLocked now s req).1 by (by rewrite Es).
    apply commit_life_inv; [|apply L]. by rewrite (cm_cyclic _ _ _ _ C).
  - apply commit_refused_same in Ho. destruct (commitNodeLocked now s req). cbn [fst] in *.
    subst. right. split_and!; [done|by intros ??|by left].
Qed.

(** A node that is skipped, disabled or pinned is finished by its commit, or in
    the hands of a runner. *)
Lemma served_live now s queue req i v nd :
  live s queue -> commits req i v nd -> Validate req = None -> req_System req = true ->
  req_Status req = NodeStatusSkipped \/
    req_Status req = NodeStatusPinned /\ markOf id s (req_UnitIdx req) <> "skip" ->
  let s' := (CommitNode now s req).1 in
  over g id s' \/
  live s' queue /\ intentsKept s s' /\
  (finished s' (nm_Name nd) = true \/ leased id s' (nm_Name nd) = true).
Proof.
  intros L C Hv Hsys Hst. cbn zeta.
  destruct (commit_live now s queue req i v nd L C) as [H|(HL & Hk & Hor)]; [by left|right].
  split_and!; [done|done|]. destruct Hor as [E|H]; [|by left]. rewrite E. clear HL Hk.
  destruct (lv_row _ _ _ _ L) as (e & He & Hend & _). unfold ended in Hend.
  unfold CommitNode in E. rewrite Hv in E.
  destruct (decide (res_Outcome (commitNodeLocked now s req).2 = CommitOutcomeAccepted)) as [Ho|Ho].
  { pose proof (commit_advanced now s queue req i v nd L C Hv Ho) as Hadv.
    destruct (commitNodeLocked now s req) as [s' r]. cbn [fst] in *. subst s'.
    destruct Hadv as [(e' & He' & Hend' & _)|(_ & n & A)].
    - unfold ended in Hend'. congruence.
    - left. by eapply ad_finished. }
  clear E. unfold commitNodeLocked in Ho.
  rewrite (cm_id _ _ _ _ C), (cm_name _ _ _ _ C), He, Hend in Ho. cbn zeta in Ho.
  unfold Progress.finished, leased, nodeIs.
  assert (Hadm : commitAdmits s req (nodes s !! memoryNodeKey id (nm_Name nd))
    = match nodes s !! memoryNodeKey id (nm_Name nd) with
      | Some n => bool_decide (ns_Status n = NodeStatusPending) | None => true end).
  { unfold commitAdmits. rewrite Hsys, (cm_id _ _ _ _ C).
    fold (markOf id s (req_UnitIdx req)). unfold markOf in Hst. cbn in Hst.
    destruct Hst as [->|[-> Hm]]; cbn; [done|]. by rewrite (bool_decide_eq_false_2 (marker _ _ = "skip")). }
  rewrite Hadm in Ho. destruct (nodes s !! memoryNodeKey id (nm_Name nd)) as [n|] eqn:En.
  - destruct (lv_records _ _ _ _ L _ n En) as (_ & _ & _ & [Hp|[Hls|Ht]] & _); [|by right|by left].
    exfalso. apply Ho. rewrite Hp. cbn.
    destruct (commitCount _ _ _ _) as [s1 fin]. apply commitSchedule_applied.
  - exfalso. apply Ho. cbn. destruct (commitCount _ _ _ _) as [s1 fin]. apply commitSchedule_applied.
Qed.

(** ** Moves that finish no node *)

(** The parts of the store that count nodes and edges. *)
Definition sameCounts (s s' : memoryState) : Prop :=
  executions s' !! id = executions s !! id /\ rolledBack s' = rolledBack s /\
  (forall u, tallyAt s' id u = tallyAt s id u) /\
  counter (remaining s') id = counter (remaining s) id.

Lemma live_move s s' queue queue' :
  live s queue -> life_inv s' -> sameCounts s s' ->
  (forall name, finished s' name = finished s name) ->
  (forall name n, nodes s' !! memoryNodeKey id name = Some n ->
     ns_Name n = name /\ ns_ExecutionID n = id /\ recordOK g id s n) ->
  keyed id (nodes s') ->
  (forall key st, intentAt id s' key st -> intentOK g id s key (oe_Task (ob_entry st))) ->
  (forall t, t ∈ queue' -> execOK g id t /\ planned g id s t) ->
  (forall name, underWay s queue name -> finished s name = true \/ underWay s' queue' name) ->
  live s' queue'.
Proof.
  intros L Hlife (Hrow & Hrb & Ht & Hrem) Hfin Hrec Hkey Hint Hq Huw.
  assert (Hm : forall u, markOf id s' u = markOf id s u) by (intros u; unfold markOf; by rewrite Ht).
  assert (Hp : forall t, planned g id s t -> planned g id s' t).
  { intros t. unfold planned. by rewrite !Hm. }
  assert (Hat : forall j, finishedAt s' j = finishedAt s j).
  { intros j. unfold Progress.finishedAt. destruct (g_nodes g !! j); [apply Hfin|done]. }
  assert (Hoi : forall j, openInto s' j = openInto s j).
  { intros j. unfold Progress.openInto. apply filter_ext_in. intros e _. by rewrite Hat. }
  assert (Hon : openNodes s' = openNodes s).
  { unfold Progress.openNodes. apply filter_ext_in. intros j _. by rewrite Hat. }
  split.
  - done.
  - rewrite Hrow. apply L.
  - rewrite Hrb. apply L.
  - intros j v nd Hj. rewrite Ht, Hoi. by eapply lv_in.
  - intros j v nd Hj. rewrite Hoi, Hm. by eapply lv_decided.
  - intros j v nd Hj. rewrite Hm, Hfin. intros H.
    destruct (lv_flight _ _ _ _ L j v nd Hj H) as [|H1]; [by left|by apply Huw].
  - rewrite Hrem, Hon. apply L.
  - intros key st Hk. destruct (Hint key st Hk) as (H1 & H2 & H3). split_and!; try apply H3; auto.
  - intros t Hin. destruct (Hq t Hin). auto.
  - intros name n Hn. destruct (Hrec name n Hn) as (H1 & H2 & H3 & H4 & H5). split_and!; [done|done|].
    split_and!; [done|done|]. intros Hls. destruct (H5 Hls) as (H6 & H7 & H8). auto.
  - done.
Qed.

(** A node that needs no intent: it is finished, leased or queued. *)
Definition covered (s : memoryState) (queue : list Task) (name : string) : Prop :=
  finished s name = true \/ leased id s name = true \/ exists t, t ∈ queue /\ t_NodeName t = name.

Lemma ack_live s queue key st :
  live s queue -> outboxOf s id !! key = Some st ->
  (runs (oe_Task (ob_entry st)) = true -> covered s queue (t_NodeName (oe_Task (ob_entry st)))) ->
  live (AckOutbox s id key) queue.
Proof.
  intros L Hk Hc.
  assert (Ho : forall key', outboxOf (AckOutbox s id key) id !! key'
    = if decide (key' = key) then None else outboxOf s id !! key').
  { intros key'. unfold outboxOf, AckOutbox. cbn. rewrite lookup_deleteEntry.
    destruct (decide (key' = key)) as [->|Hne]; [by rewrite decide_True|].
    rewrite decide_False by naive_solver. done. }
  apply (live_move s _ queue queue L); try done.
  - eapply life_inv_frame; [|apply L]. done.
  - apply L.
  - apply L.
  - intros key' st' [H|H]; [|by eapply lv_outbox, or_intror].
    rewrite Ho in H. case_decide; [done|]. by eapply lv_outbox, or_introl.
  - apply L.
  - intros name [(key' & st' & Hk' & Hr & Hn)|[H|H]].
    + destruct Hk' as [Hk'|Hk']; [|right; left; exists key', st'; split; [by right|done]].
      destruct (decide (key' = key)) as [->|Hne].
      * rewrite Hk in Hk'. injection Hk' as <-. rewrite Hn in Hc.
        destruct (Hc Hr) as [H|[H|H]]; [by left|by right; right; right|by right; right; left].
      * right. left. exists key', st'. split; [left; by rewrite Ho, decide_False|done].
    + right. right. by left.
    + right. right. by right.
Qed.

Lemma settle_live ack s queue key st :
  live s queue -> outboxOf s id !! key = Some st ->
  (runs (oe_Task (ob_entry st)) = true -> covered s queue (t_NodeName (oe_Task (ob_entry st)))) ->
  live (settle ack s id key) queue.
Proof. destruct ack; [apply ack_live|done]. Qed.

(** Intents may be moved about. *)
Lemma touch_live s s' queue : live s queue -> touched id s s' -> live s' queue.
Proof.
  intros L [T1 T2 T3 (T4 & T5 & T6 & T7) T8 T9].
  assert (Hint : forall key st', intentAt id s' key st' -> intentOK g id s key (oe_Task (ob_entry st'))).
  { intros key st' H. destruct (T9 key st' H) as (st & Hk & ->). by eapply lv_outbox. }
  apply (live_move s s' queue queue L); try done.
  - eapply life_inv_frame; [exact T1|apply L].
  - split_and!; [by rewrite (proj1 T1)|done| |by rewrite T7].
    intros u. unfold tallyAt. by rewrite T4, T5, T6.
  - intros name. unfold Progress.finished, nodeIs. by rewrite T2.
  - rewrite T2. apply L.
  - rewrite T2. apply L.
  - apply L.
  - intros name [(key & st & Hk & Hr & Hn)|[H|H]]; right; [left|by right; left|].
    + destruct (lv_outbox _ _ _ _ L key st Hk) as (_ & _ & Ho & _). rewrite Hr, Hn in Ho.
      destruct (T8 key st Hk) as [st' Hk']. exists key, st'. split; [done|].
      destruct (Hint key st' Hk') as (_ & _ & _ & H). destruct (H name Ho). done.
    + right. right. unfold leased, nodeIs in *. by rewrite T2.
Qed.

(** A task may be added to the queue, and one whose node is covered dropped. *)
Lemma enqueue_live s queue t :
  live s queue -> execOK g id t -> planned g id s t -> live s (t :: queue).
Proof.
  intros L Ht Hp. apply (live_move s s queue); try done; try apply L.
  - intros t' [->|H]%elem_of_cons; [done|]. by apply (lv_queue _ _ _ _ L).
  - intros name [H|[(t' & H & Hn)|H]]; right; [by left| |by right; right].
    right. left. exists t'. split; [by right|done].
Qed.

Lemma drop_live s before t after :
  live s (before ++ t :: after) ->
  finished s (t_NodeName t) = true \/ leased id s (t_NodeName t) = true ->
  live s (before ++ after).
Proof.
  intros L Hc. apply (live_move s s (before ++ t :: after)); try done; try apply L.
  - intros t' H. apply (lv_queue _ _ _ _ L). set_solver.
  - intros name [H|[(t' & H & Hn)|H]]; [by right; left| |by right; right; right].
    assert (t' = t \/ t' ∈ before ++ after) as [->|Hin] by set_solver.
    + rewrite Hn in Hc. destruct Hc; [by left|by right; right; right].
    + right. right. left. by exists t'.
Qed.

(** ** Moves that change the record of one unfinished node *)

Lemma record_live s s' queue name n' :
  live s queue -> life_inv s' -> sameCounts s s' -> wrote s s' name n' ->
  finished s name = false -> isTerminalNode (ns_Status n') = false ->
  ns_Name n' = name -> ns_ExecutionID n' = id -> recordOK g id s n' ->
  (forall key st, intentAt id s key st -> intentAt id s' key st) ->
  (forall key st, intentAt id s' key st -> intentOK g id s key (oe_Task (ob_entry st))) ->
  (leased id s name = true -> underWay s' queue name) ->
  live s' queue.
Proof.
  intros L Hlife Hc Hw Hf Ht Hn Hid Hr Hgrow Hint Hls.
  apply (live_move s s' queue queue L Hlife Hc).
  - intros name0. unfold Progress.finished in *. rewrite (wrote_nodeIs _ _ _ _ _ _ Hw).
    case_decide; [subst; congruence|done].
  - intros name0 n0 H. rewrite Hw in H. case_decide as Hk; [|by apply (lv_records _ _ _ _ L)].
    apply memoryNodeKey_name_inj in Hk as ->. by injection H as <-.
  - eapply wrote_keyed; [done|apply L|done].
  - done.
  - apply L.
  - intros name0 [(key & st & Hk & H)|[H|H]]; right.
    + left. exists key, st. by split; [apply Hgrow|].
    + right. by left.
    + destruct (decide (name0 = name)) as [->|Hne]; [by apply Hls|].
      right. right. unfold leased in *. rewrite (wrote_nodeIs _ _ _ _ _ _ Hw).
      by rewrite decide_False.
Qed.

Lemma nodes_insert_wrote s m name n :
  nodes m = <[memoryNodeKey id name := n]> (nodes s) -> wrote s m name n.
Proof.
  intros E k. rewrite E. destruct (decide (k = memoryNodeKey id name)) as [->|Hne].
  - by rewrite lookup_insert_eq.
  - by rewrite lookup_insert_ne.
Qed.


Lemma sameWork_intents s s' key st : sameWork s s' -> intentAt id s' key st <-> intentAt id s key st.
Proof. intros ((E1 & E2 & _) & _). unfold intentAt, outboxOf, deadOf. by rewrite E1, E2. Qed.

Lemma recorded_counts s s' key n : recorded s s' key n -> sameCounts s s'.
Proof.
  intros (_ & Hw & _ & Hr). split_and!; [|apply Hw| |by rewrite Hr].
  - destruct Hw as ((_ & _ & _ & ->) & _). done.
  - intros u. by apply sameWork_tally.
Qed.

(** The record of a node stays in the hands of a runner. *)
Lemma held_live s s' queue name n' :
  live s queue -> recorded s s' (memoryNodeKey id name) n' ->
  finished s name = false -> ns_Name n' = name -> ns_ExecutionID n' = id -> recordOK g id s n' ->
  leasedStatus (ns_Status n') = true ->
  live s' queue /\ leased id s' name = true.
Proof.
  intros L R Hf Hn Hid Hr Hls. pose proof R as (En & Hw & Hlf & Hrem).
  pose proof (nodes_insert_wrote s s' name n' En) as Hwr.
  assert (Hl : leased id s' name = true).
  { unfold leased. rewrite (wrote_nodeIs _ _ _ _ _ _ Hwr). by rewrite decide_True. }
  split; [|done]. pose proof (fun key st => sameWork_intents s s' key st Hw) as Ho.
  eapply (record_live s s' queue name n' L); try done.
  - eapply life_inv_frame; [exact Hlf|apply L].
  - by eapply recorded_counts.
  - by destruct (ns_Status n').
  - intros key st. by rewrite Ho.
  - intros key st. rewrite Ho. apply L.
  - intros _. right. by right.
Qed.

(** The record of a node is put back and the node delivered again. *)
Lemma requeue_live now s s1 queue name n' eid t at' :
  live s queue -> recorded s s1 (memoryNodeKey id name) n' ->
  finished s name = false -> ns_Name n' = name -> ns_ExecutionID n' = id ->
  ns_ActivationID n' = 0 -> ns_Status n' = NodeStatusPending ->
  execOK g id t -> planned g id s t -> t_NodeName t = name -> owns id eid name ->
  live (putOutboxLocked now s1 id eid t at').1 queue.
Proof.
  intros L R Hf Hn Hid Hact Hst Ht Hp Hnt Hown. set (s' := (putOutboxLocked now s1 id eid t at').1).
  pose proof R as (En & Hw & Hlf & Hrem).
  destruct (putOutbox_only now s1 id (newOutboxEntry eid t at')) as (ob & Es). change (s' = s1 <| outbox := ob |>) in Es.
  assert (Hwr : wrote s s' name n') by (apply nodes_insert_wrote; rewrite <- En; by rewrite Es).
  assert (Hdead : deadOf id s' = deadOf id s1) by (by rewrite Es).
  assert (Hgrow : forall key st, intentAt id s key st -> intentAt id s' key st).
  { intros key st Hk. apply (sameWork_intents s s1 key st Hw) in Hk as [Hk|Hk]; [left; by apply put_keeps|].
    right. by rewrite Hdead. }
  assert (Hint : forall key st, intentAt id s' key st -> intentOK g id s key (oe_Task (ob_entry st))).
  { intros key st Hk. assert (Hs1 : intentAt id s1 key st \/ key = eid /\ oe_Task (ob_entry st) = t).
    { destruct Hk as [Hk|Hk]; [apply put_lookup in Hk as [Hk|Hk]; [by left; left|by right]|].
      left. right. by rewrite <- Hdead. }
    destruct Hs1 as [Hk1|[-> ->]]; [by apply L, (sameWork_intents s s1 key st Hw)|].
    split_and!; [apply Ht|done|by rewrite (proj1 (proj2 Ht)), Hnt|]. intros name0 Ho. split; [|apply Ht].
    rewrite Hnt. by eapply owns_inj. }
  eapply (record_live s s' queue name n' L); try done.
  - eapply life_inv_frame; [|apply L]. etrans; [exact Hlf|]. by rewrite Es.
  - pose proof (recorded_counts _ _ _ _ R) as (H1 & H2 & H3 & H4). rewrite Es. split_and!; [done..| |done].
    intros u. rewrite <- H3. done.
  - by rewrite Hst.
  - split_and!; [done|by left|by rewrite Hst].
  - intros _. left. destruct (put_present now s1 id eid t at') as [st Hk]; [by eapply owns_nonempty|].
    fold s' in Hk. exists eid, st. split; [by left|].
    destruct (Hint eid st (or_introl Hk)) as (_ & _ & _ & Ho). by destruct (Ho name Hown).
Qed.

Lemma lease_live s lease before after :
  live s (before ++ tl_Task lease :: after) -> slash_free (tl_LeaseID lease) ->
  live (AcquireTaskLeaseChecked s lease false).1 (before ++ after).
Proof.
  intros L Hsl. set (t := tl_Task lease) in *.
  destruct (lv_queue _ _ _ _ L t) as [Ht Hp]; [set_solver|].
  pose proof Ht as [(j & v & nd & Hj & Hid & Hnm & Hji & Hvi & Hact) Hrun].
  destruct (lv_row _ _ _ _ L) as (e & He & Hend & _). unfold ended in Hend.
  unfold AcquireTaskLeaseChecked. fold t. rewrite Hid, He, Hend. cbn zeta. cbn [andb negb].
  destruct (match nodes s !! memoryNodeKey id (t_NodeName t) with
            | Some n => isTerminalNode (ns_Status n) | None => false end) eqn:Hterm.
  { apply (drop_live s before t after L). left. exact Hterm. }
  unfold acquireTaskLeaseLocked. fold t. rewrite Hid. cbn zeta.
  rewrite decide_False by apply (lv_kept _ _ _ _ L).
  destruct (match nodes s !! memoryNodeKey id (t_NodeName t) with
            | Some n => acquireRefused n lease | None => false end) eqn:Href.
  { apply (drop_live s before t after L). right. unfold leased, nodeIs.
    destruct (nodes s !! memoryNodeKey id (t_NodeName t)) as [n|] eqn:En; [|done].
    destruct (lv_records _ _ _ _ L _ n En) as (_ & _ & _ & [Hpend|[Hl|Htm]] & _); [|done|congruence].
    unfold acquireRefused in Href. fold t in Href. by rewrite Hact, Hpend in Href. }
  pose proof (fun n => preserve_recorded s (memoryNodeKey id (t_NodeName t)) false n) as HR.
  destruct (preserveOutputPrivacyLocked s _ false) as [s1 p]. cbn [fst].
  set (n' := leasedNode _ lease p).
  assert (Hn' : ns_Name n' = t_NodeName t /\ ns_ExecutionID n' = id /\
    ns_Status n' = NodeStatusRunning /\ ns_ActivationID n' = 0 /\ ns_LeaseID n' = tl_LeaseID lease /\
    ns_NodeIdx n' = t_NodeIdx t /\ ns_UnitIdx n' = t_UnitIdx t /\ ns_LeaseTaskType n' = t_Type t).
  { unfold n', leasedNode. by case_match; split_and!. }
  destruct Hn' as (E1 & E2 & E3 & E4 & E5 & E6 & E7 & E8).
  apply (held_live s _ _ (t_NodeName t) n' L) in HR as HL; try done; [| |by rewrite E3].
  - destruct HL as [HL Hl]. apply (drop_live _ before t after HL). by right.
  - split_and!; [done|right; left; by rewrite E3|]. intros _. rewrite E5. split; [split_and!|split; [|done]].
    + exists j, v, nd. unfold recordTask. cbn. by rewrite E1, E2, E4, E6, E7.
    + unfold runs, recordTask. cbn. rewrite E8. apply Hrun.
    + unfold recordTask. cbn. rewrite E8. apply Hrun.
    + unfold planned, recordTask. cbn. by rewrite E6, E7.
Qed.

Lemma renew_live now s queue name token deadline :
  live s queue -> live (RenewTaskLease now s id name token deadline).1 queue.
Proof.
  intros L. destruct (renew_cases now s id name token deadline) as [E|(n & at0 & Hn & _ & _ & Hst & _ & E)];
    rewrite E; [done|]. cbn [fst].
  destruct (lv_records _ _ _ _ L name n Hn) as (H1 & H2 & H3 & H4 & H5).
  eapply (held_live s _ queue name (n <| ns_LeaseIssuedAt := at0 |>
    <| ns_LeaseTTL := Z.max 0 (Sub deadline at0) |>) L); cycle 1.
  - unfold Progress.finished, nodeIs. rewrite Hn. by destruct Hst as [->| ->].
  - exact H1.
  - exact H2.
  - split_and!; [done|done|]. exact H5.
  - cbn. by destruct Hst as [->| ->].
  - split_and!; done.
Qed.

(** A task for the node of a leased record is planned as the record is. *)
Lemma planned_record s queue t n :
  live s queue -> taskOK t -> nodes s !! memoryNodeKey id (t_NodeName t) = Some n ->
  leasedStatus (ns_Status n) = true -> planned g id s t.
Proof.
  intros L (j & v & nd & [Hv Hj] & _ & Hnm & Hji & Hvi & _) Hn Hls.
  destruct (lv_records _ _ _ _ L _ n Hn) as (H1 & _ & _ & _ & H5).
  destruct (H5 Hls) as (((j' & v' & nd' & [Hv' Hj'] & _ & Hnm' & Hji' & Hvi' & _) & _) & Hp & _).
  cbn in *. assert (j' = j) as -> by (apply (name_inj j' j nd' nd); congruence).
  rewrite Hv in Hv'. injection Hv' as <-. unfold planned in *. cbn in Hp. congruence.
Qed.

Lemma leased_unfinished s name n :
  nodes s !! memoryNodeKey id name = Some n -> leasedStatus (ns_Status n) = true ->
  finished s name = false.
Proof. intros Hn Hls. unfold Progress.finished, nodeIs. rewrite Hn. by destruct (ns_Status n). Qed.

(** Putting a leased node back with an intent of its own. *)
Lemma putback_live now s queue name n t eid at' :
  live s queue -> nodes s !! memoryNodeKey id name = Some n ->
  leasedStatus (ns_Status n) = true -> execOK g id t -> t_NodeName t = name -> owns id eid name ->
  live (putOutboxLocked now (storeNode s (memoryNodeKey id name)
          (clearLease (n <| ns_Status := NodeStatusPending |>))) id eid t at').1 queue.
Proof.
  intros L Hn Hls Ht Hnm Ho. destruct (lv_records _ _ _ _ L _ n Hn) as (H1 & H2 & H3 & _).
  destruct (storeNode_recorded s (memoryNodeKey id name)
              (clearLease (n <| ns_Status := NodeStatusPending |>))) as (p & R).
  eapply requeue_live; [exact L|exact R|by eapply leased_unfinished|..];
    try (by destruct p); try done.
  eapply planned_record; [done|apply Ht|by rewrite Hnm|done].
Qed.

Lemma retryTask_ok task : execOK g id task -> execOK g id (retryTask task).
Proof.
  intros [(j & v & nd & Hj & Hid & Hnm & Hji & Hvi & Hact) _].
  split; [by exists j, v, nd|]. unfold runs, retryTask. cbn. by case_bool_decide.
Qed.

Lemma reset_live now s queue name token eid t at' :
  live s queue -> execOK g id t -> t_NodeName t = name -> owns id eid name ->
  live (ResetNodeForRetryWithOutbox now s id name token (newOutboxEntry eid t at')).1 queue.
Proof.
  intros L Ht Hnm Ho. unfold ResetNodeForRetryWithOutbox.
  destruct (reset_cases s id name token) as [E|(n & Hn & Hls & _ & _ & E)]; rewrite E; [done|].
  by apply putback_live.
Qed.

Lemma retry_live now platformDelay s queue task attempt settings token :
  live s queue -> execOK g id task ->
  live (scheduleRetry now platformDelay s task attempt settings token).1 queue.
Proof.
  intros L Ht. pose proof Ht as [(j & v & nd & _ & Hid & _ & _ & _ & Hact) _].
  unfold scheduleRetry. cbn zeta. rewrite Hid, Hact.
  apply reset_live; [done|by apply retryTask_ok|done|by eapply owns_retry].
Qed.

Lemma revoke_live now s queue name token eid t at' :
  live s queue -> execOK g id t -> t_NodeName t = name -> owns id eid name ->
  live (RevokeLeaseWithOutbox now s id name token (newOutboxEntry eid t at')).1 queue.
Proof.
  intros L Ht Hnm Ho. unfold RevokeLeaseWithOutbox.
  destruct (revoke_cases s id name token) as [E|(n & Hn & Hls & _ & _ & E)]; rewrite E; [done|].
  by apply putback_live.
Qed.

Lemma expired_task s queue before lease :
  live s queue -> lease ∈ ListExpiredLeases s before -> xl_ExecutionID lease = id ->
  xl_TaskType lease <> TaskTypeGroupExec ->
  execOK g id (reclaimTask lease) /\ slash_free (xl_LeaseID lease) /\ xl_ActivationID lease = 0.
Proof.
  intros L Hin Hid Hty. apply elem_of_app in Hin as [Hin|Hin].
  - apply list_elem_of_omap in Hin as ([k n] & Hk & Hx). apply elem_of_map_to_list in Hk.
    cbn in Hx. unfold expiredNodeLease in Hx. destruct (leasedStatus (ns_Status n)) eqn:Hls; [|done].
    cbn in Hx. destruct (_ || _); [done|]. destruct (After _ _); [done|]. injection Hx as <-. cbn in *.
    rewrite (lv_keyed _ _ _ _ L k n Hk Hid) in Hk.
    destruct (lv_records _ _ _ _ L _ n Hk) as (_ & _ & Hact & _ & H5).
    by destruct (H5 Hls) as (Hex & _ & Hsl).
  - apply list_elem_of_omap in Hin as ([k gs] & _ & Hx). cbn in Hx. unfold expiredGroupLease in Hx.
    case_decide; [done|]. destruct (_ || _); [done|]. by injection Hx as <-.
Qed.

Lemma reclaim_live now s queue before lease :
  live s queue -> lease ∈ ListExpiredLeases s before -> xl_ExecutionID lease = id ->
  xl_TaskType lease <> TaskTypeGroupExec ->
  live (ReclaimLease now s lease).1 queue.
Proof.
  intros L Hin Hid Hty. destruct (expired_task s queue before lease L Hin Hid Hty) as (Ht & Hsl & Hact).
  unfold ReclaimLease. case_decide; [done|]. rewrite decide_False by done. cbn zeta.
  rewrite Hid, Hact. apply revoke_live; [done|done|done|by eapply owns_requeue].
Qed.

(** ** Deliveries *)

Lemma live_graph s queue : live s queue -> LoadGraph s id = Some g /\ loadActiveGraph s id = Some g.
Proof.
  intros L. destruct (lv_row _ _ _ _ L) as (e & He & Hend & _ & Hgr).
  assert (H : LoadGraph s id = Some g) by (unfold LoadGraph; by rewrite He).
  split; [done|]. unfold loadActiveGraph, executionActive, GetExecutionStatus. rewrite H. cbn.
  rewrite He. cbn. unfold ended in Hend. by rewrite Hend.
Qed.

Lemma stamp_same entry :
  t_ExecutionID (stampTask entry) = t_ExecutionID (oe_Task entry) /\
  t_NodeName (stampTask entry) = t_NodeName (oe_Task entry) /\
  t_NodeIdx (stampTask entry) = t_NodeIdx (oe_Task entry) /\
  t_UnitIdx (stampTask entry) = t_UnitIdx (oe_Task entry) /\
  t_ActivationID (stampTask entry) = t_ActivationID (oe_Task entry) /\
  t_Type (stampTask entry) = t_Type (oe_Task entry).
Proof. unfold stampTask. by repeat (case_match; cbn). Qed.

Lemma deliver_live s queue key st ack :
  live s queue -> outboxOf s id !! key = Some st -> runs (oe_Task (ob_entry st)) = true ->
  t_Type (oe_Task (ob_entry st)) <> TaskTypeNodeSkip ->
  live (settle ack s id key) (stampTask (ob_entry st) :: queue).
Proof.
  intros L Hk Hr Hty. destruct (lv_outbox _ _ _ _ L key st (or_introl Hk)) as ((j & v & nd & Ht) & Hp & _).
  destruct (stamp_same (ob_entry st)) as (E1 & E2 & E3 & E4 & E5 & E6).
  eapply settle_live; [|exact Hk|].
  - apply enqueue_live; [done| |].
    + split_and!; [|by unfold runs; rewrite E6|by rewrite E6].
      exists j, v, nd. by rewrite E1, E2, E3, E4, E5.
    + unfold planned. rewrite E3, E4. by apply Hp.
  - intros _. right. right. exists (stampTask (ob_entry st)). split; [by left|done].
Qed.

Lemma commitAnswer_ok now s req s1 :
  commitAnswer (CommitNode now s req) = (s1, (true, None)) ->
  Validate req = None /\ s1 = (CommitNode now s req).1.
Proof.
  unfold commitAnswer. intros H. split.
  - unfold CommitNode in H. by destruct (Validate req).
  - destruct (CommitNode now s req) as [s2 [err|r]]; cbn in *; [done|by injection H].
Qed.

Lemma over_rows s s' :
  executions s' = executions s -> (forall name, finished s' name = finished s name) ->
  (ownIntents id s -> ownIntents id s') -> over g id s -> over g id s'.
Proof.
  intros E F O. unfold over. rewrite E. replace (openNodes s') with (openNodes s); [naive_solver|].
  apply filter_ext_in. intros j _. unfold Progress.finishedAt.
  destruct (g_nodes g !! j); [by rewrite F|done].
Qed.

Lemma over_settle s ack key : over g id s -> over g id (settle ack s id key).
Proof.
  destruct ack; [|done]. apply over_rows; [done|done|]. intros H k st [Hk|Hk]; [|by apply (H k); right].
  unfold outboxOf, settle, AckOutbox in Hk. cbn in Hk. rewrite lookup_deleteEntry in Hk.
  case_decide; [done|]. apply (H k). by left.
Qed.

(** An intent that is not consumed in place runs its node. *)
Lemma live_kinds s queue key st :
  live s queue -> intentAt id s key st -> inlineTask (oe_Task (ob_entry st)) = false ->
  runs (oe_Task (ob_entry st)) = true /\ t_Type (oe_Task (ob_entry st)) <> TaskTypeNodeSkip.
Proof.
  intros L Hk Hi. destruct (lv_outbox _ _ _ _ L key st Hk) as (_ & _ & Ho & _).
  unfold inlineTask in Hi. destruct (runs (oe_Task (ob_entry st))); [|by rewrite Ho in Hi].
  split; [done|]. intros E. by rewrite E in Hi.
Qed.

(** The end of a delivery after the engine has consumed the task. *)
Lemma settled_live ack s s1 queue key st :
  outboxOf s id !! key = Some st ->
  over g id s1 \/ live s1 queue /\ intentsKept s s1 /\
    (runs (oe_Task (ob_entry st)) = true -> covered s1 queue (t_NodeName (oe_Task (ob_entry st)))) ->
  over g id (settle ack s1 id key) \/ live (settle ack s1 id key) queue.
Proof.
  intros Hk [H|(L & Hkept & Hc)]; [left; by apply over_settle|]. right.
  eapply settle_live; [done|by apply Hkept|done].
Qed.

Lemma skip_commits t j v nd p arrivals :
  unitNode j v nd -> t_ExecutionID t = id -> t_NodeName t = nm_Name nd ->
  t_NodeIdx t = Z.of_nat j -> t_ActivationID t = 0 ->
  downstreamArrivals g (t_NodeIdx t) "" = Ok arrivals ->
  commits (skipRequest t p arrivals) j v nd.
Proof.
  intros Hj H1 H2 H3 H4 H5. split; try done. right. exists "". by rewrite <- H3.
Qed.

Lemma skip_live now s queue key st ack s1 :
  live s queue -> outboxOf s id !! key = Some st ->
  t_Type (oe_Task (ob_entry st)) = TaskTypeNodeSkip ->
  handleSkipTask now s (oe_Task (ob_entry st)) = Ok (s1, (true, None)) ->
  over g id (settle ack s1 id key) \/ live (settle ack s1 id key) queue.
Proof.
  intros L Hk Hty Hh. eapply settled_live; [exact Hk|].
  destruct (lv_outbox _ _ _ _ L key st (or_introl Hk)) as ((j & v & nd & Hj & Hid & Hnm & Hji & Hvi & Hact) & _).
  set (t := oe_Task (ob_entry st)) in *. unfold handleSkipTask in Hh.
  rewrite Hid, (proj2 (live_graph _ _ L)) in Hh.
  unfold handleSkip in Hh. destruct (_ || _); [done|]. destruct (_ || _); [done|].
  destruct (downstreamArrivals g (t_NodeIdx t) "") as [arrivals| | |] eqn:Ha; try done.
  cbn in Hh. injection Hh as Hh. apply commitAnswer_ok in Hh as [Hv ->].
  destruct (served_live now s queue _ j v nd L
    (skip_commits t j v nd (privateOutputForTask g t) arrivals Hj Hid Hnm Hji Hact Ha) Hv eq_refl)
    as [H|(HL & HK & Hd)]; [by left|by left|right]. split_and!; [done|done|].
  intros _. rewrite Hnm. destruct Hd as [H|H]; [by left|by right; left].
Qed.

(** A commit of the engine for a task of the queue. *)
Record serves (req : CommitNodeRequest) (t : Task) (u : nat) (l : list DownstreamArrival) : Prop := {
  sv_id : req_ExecutionID req = t_ExecutionID t;
  sv_name : req_NodeName req = t_NodeName t;
  sv_unit : req_UnitIdx req = Z.of_nat u;
  sv_activation : req_ActivationID req = t_ActivationID t;
  sv_status : req_Status req = NodeStatusSkipped \/ req_Status req = NodeStatusPinned;
  sv_system : req_System req = true;
  sv_acyclic : req_AllowCycles req = false /\ req_CyclicComplete req = false;
  sv_intents : req_AdvanceTask req = None /\ req_MergeCancel req = None;
  sv_arrivals : req_Arrivals req = l
}.

Lemma served_queue now s before t after req u l :
  live s (before ++ t :: after) -> serves req t u l ->
  g_nodeUnit g !! Z.to_nat (t_NodeIdx t) = Some (Some u) ->
  downstreamArrivals g (t_NodeIdx t) "main" = Ok l -> Validate req = None ->
  let s1 := (CommitNode now s req).1 in
  over g id s1 \/ live s1 (before ++ after).
Proof.
  intros L S Hu Ha Hv s1. destruct (lv_queue _ _ _ _ L t) as [[Ht _] Hp]; [set_solver|].
  destruct Ht as (j & v & nd & Hj & Hid & Hnm & Hji & Hvi & Hact).
  assert (u = v) as ->.
  { destruct Hj as [Hj _]. rewrite Hji, Nat2Z.id, Hj in Hu. by injection Hu. }
  assert (C : commits req j v nd).
  { destruct S as [S1 S2 _ S4 S5 _ [S6 S7] [S8 S9] S10].
    split; [done|congruence..| |right; exists "main"; congruence|by rewrite S9].
    by destruct S5 as [-> | ->]. }
  destruct (served_live now s _ req j v nd L C Hv (sv_system _ _ _ _ S)) as [H|(HL & _ & Hd)];
    [|by left|right; eapply drop_live; [exact HL|by rewrite Hnm]].
  destruct (sv_status _ _ _ _ S) as [E|E]; [by left|]. right. split; [done|].
  rewrite (sv_unit _ _ _ _ S), <- Hvi. by destruct Hp as [-> |[-> _]].
Qed.

Lemma serves_disabled t u l : serves (servedRequest g t u NodeStatusSkipped l) t u l.
Proof. by split; try left. Qed.

Lemma serves_pinned t u l out :
  serves (servedRequest g t u NodeStatusPinned l <| req_Output := out |> <| req_StoreOutput := true |>)
    t u l.
Proof. by split; try right. Qed.

Lemma servedUnit_unit s t nd u :
  servedUnit s g t nd = Ok (Some u) -> g_nodeUnit g !! Z.to_nat (t_NodeIdx t) = Some (Some u).
Proof.
  unfold servedUnit. case_decide as Hne; [done|]. intros H.
  apply res_bind_Ok in H as ([u'|] & Hu & H); [|done]. apply idx_Ok in Hu. rewrite Hu.
  apply res_bind_Ok in H as (k & _ & H). injection H as H. repeat case_match; congruence.
Qed.

Lemma disabled_live now s before t after s1 :
  live s (before ++ t :: after) -> handleDisabledNode now s t = Ok (s1, (true, None)) ->
  over g id s1 \/ live s1 (before ++ after).
Proof.
  intros L Hh. destruct (lv_queue _ _ _ _ L t) as [[(j & v & nd & _ & Hid & _) _] _]; [set_solver|].
  unfold handleDisabledNode in Hh. rewrite Hid, (proj1 (live_graph _ _ L)) in Hh.
  destruct (_ || _ || _); [done|]. apply res_bind_Ok in Hh as (nd' & _ & Hh).
  destruct (negb _); [done|]. apply res_bind_Ok in Hh as ([u|] & Hu & Hh); [|done].
  apply servedUnit_unit in Hu. apply res_bind_Ok in Hh as (arrivals & Ha & Hh).
  injection Hh as Hh. apply commitAnswer_ok in Hh as [Hv ->].
  by apply (served_queue now s before t after _ u arrivals L (serves_disabled t u arrivals)).
Qed.

Lemma pinned_live now s before t after s1 :
  live s (before ++ t :: after) -> handlePinnedNode now s t = Ok (s1, (true, None)) ->
  over g id s1 \/ live s1 (before ++ after).
Proof.
  intros L Hh. destruct (lv_queue _ _ _ _ L t) as [[(j & v & nd & _ & Hid & _) _] _]; [set_solver|].
  unfold handlePinnedNode in Hh. rewrite Hid, (proj1 (live_graph _ _ L)) in Hh.
  case_decide; [done|]. destruct (_ || _); [done|]. apply res_bind_Ok in Hh as (nd' & _ & Hh).
  destruct (negb _); [done|]. apply res_bind_Ok in Hh as ([u|] & Hu & Hh); [|done].
  apply servedUnit_unit in Hu. destruct (negb _); [done|].
  apply res_bind_Ok in Hh as (arrivals & Ha & Hh).
  injection Hh as Hh. apply commitAnswer_ok in Hh as [Hv ->].
  by apply (served_queue now s before t after _ u arrivals L
              (serves_pinned t u arrivals (nm_PinOutput nd'))).
Qed.

(** An execution that has ended is left alone. *)
Lemma over_commit now s req :
  over g id s -> req_ExecutionID req = id -> (CommitNode now s req).1 = s.
Proof.
  intros (e & He & Hend & _) Hid. unfold CommitNode. destruct (Validate req); [done|].
  assert (H : (commitNodeLocked now s req).1 = s); [|by destruct (commitNodeLocked now s req)].
  apply commit_refused_same. intros Ho. apply commit_accepted_inv in Ho as (e' & He' & Hend' & _).
  rewrite Hid in He'. congruence.
Qed.

Lemma cancel_activation s queue name :
  live s queue -> activationForCancelCommit (GetNode s id name) 0 = 0.
Proof.
  intros L. unfold GetNode, publicNodeSnapshotLocked.
  destruct (nodes s !! memoryNodeKey id name) as [n|] eqn:Hn; [|done].
  destruct (lv_records _ _ _ _ L name n Hn) as (_ & _ & Hact & _).
  destruct (outputIsPrivateLocked _ _); cbn; by rewrite Hact.
Qed.

(** The execution has ended, or is live with the intents of [s0]. *)
Definition fine (s0 : memoryState) (queue : list Task) (s : memoryState) : Prop :=
  over g id s \/ live s queue /\ intentsKept s0 s.

Lemma fine_commit now s0 s queue req i v nd :
  fine s0 queue s -> commits req i v nd -> fine s0 queue (CommitNode now s req).1.
Proof.
  intros [Ho|[L Hk]] C.
  - left. rewrite over_commit; [done|done|apply C].
  - destruct (commit_live now s queue req i v nd L C) as [H|(H1 & H2 & _)]; [by left|right].
    split; [done|]. intros key st H. by apply H2, Hk.
Qed.

Lemma cancelNode_live now s0 s queue t i merge s1 r :
  fine s0 queue s -> t_ExecutionID t = id -> t_ActivationID t = 0 ->
  cancelClosureNode now s t g i merge = Ok (s1, r) -> fine s0 queue s1.
Proof.
  intros HL Hid Hact Hh. unfold cancelClosureNode in Hh. rewrite Hid, Hact in Hh.
  apply res_bind_Ok in Hh as (nd & Hnd & Hh). apply idx_Ok in Hnd.
  apply res_bind_Ok in Hh as (u & Hu & Hh). apply res_bind_Ok in Hh as (kind & _ & Hh).
  destruct kind; [|by injection Hh as <- _].
  assert (Hcommit : forall l,
    downstreamArrivals g (Z.of_nat i) "" = Ok l ->
    fine s0 queue (CommitNode now s (cancelRequest t i u (nm_Name nd)
      (activationForCancelCommit (GetNode s id (nm_Name nd)) 0) merge l)).1).
  { intros l Hl. destruct HL as [Ho|[L Hk]].
    { left. by rewrite over_commit. }
    unfold unitOf in Hu. apply res_bind_Ok in Hu as ([u'|] & Hu & [= ->]). apply idx_Ok in Hu.
    rewrite (cancel_activation s queue _ L).
    eapply (fine_commit now s0 s queue _ i u nd); [by right|]. split; try done. right. by exists "". }
  destruct (ns_Status <$> GetNode s id (nm_Name nd)) as [st|]; [destruct st|];
    try (by injection Hh as <- _);
    cbn in Hh; apply res_bind_Ok in Hh as (l & Hl & Hh); pose proof (Hcommit l Hl) as H;
    destruct (CommitNode now s _) as [s2 r2]; by injection Hh as <- _.
Qed.

Lemma cancelNodes_live now s0 s queue t closure merge s1 a :
  fine s0 queue s -> t_ExecutionID t = id -> t_ActivationID t = 0 ->
  cancelClosureNodes now s t g closure merge = Ok (s1, a) -> fine s0 queue s1.
Proof.
  revert s. induction closure as [|i closure IH]; intros s HL Hid Hact; cbn; [by intros [= <- _]|].
  intros Hh. apply res_bind_Ok in Hh as ([s2 r] & Hn & Hh). cbn [fst snd] in Hh.
  pose proof (cancelNode_live now s0 s queue t i merge s2 r HL Hid Hact Hn) as H2.
  destruct r as [err|b]; [by injection Hh as <- _|by apply (IH s2)].
Qed.

Lemma cancel_live now s queue key st ack s1 a :
  live s queue -> outboxOf s id !! key = Some st ->
  t_Type (oe_Task (ob_entry st)) = TaskTypeMergeCancel ->
  handleMergeCancelTask now s (oe_Task (ob_entry st)) = Ok (s1, a) ->
  over g id (settle ack s1 id key) \/ live (settle ack s1 id key) queue.
Proof.
  intros L Hk Hty Hh. eapply settled_live; [exact Hk|].
  destruct (lv_outbox _ _ _ _ L key st (or_introl Hk)) as ((j & v & nd & Hj & Hid & Hnm & Hji & Hvi & Hact) & _).
  unfold handleMergeCancelTask in Hh. rewrite Hid, (proj2 (live_graph _ _ L)) in Hh.
  assert (HL : fine s queue s) by (right; split; [done|by intros ??]).
  assert (H1 : fine s queue s1).
  { destruct (negb _); [by injection Hh as <- _|]. apply res_bind_Ok in Hh as (m & _ & Hh).
    apply res_bind_Ok in Hh as (closure & _ & Hh). by eapply cancelNodes_live. }
  destruct H1 as [H|[H1 H2]]; [by left|right].
  split; [done|]. split; [done|]. unfold runs. by rewrite Hty.
Qed.

(** ** Reports *)

(** The record of a node in the hands of a runner is rewritten. *)
Lemma over_record s s' name n n' :
  nodes s !! memoryNodeKey id name = Some n -> leasedStatus (ns_Status n) = true ->
  nodes s' = <[memoryNodeKey id name := n']> (nodes s) -> isTerminalNode (ns_Status n') = false ->
  executions s' = executions s -> (ownIntents id s -> ownIntents id s') -> over g id s -> over g id s'.
Proof.
  intros Hn Hl En Ht Ee Oi. apply over_rows; [done| |done]. intros name0. unfold Progress.finished at 1.
  rewrite (wrote_nodeIs s s' name n'); [|by apply nodes_insert_wrote]. case_decide as E; [|done].
  subst. unfold Progress.finished, nodeIs. rewrite Hn, Ht. by destruct (ns_Status n).
Qed.

Lemma over_recorded now s s1 name n n1 o :
  nodes s !! memoryNodeKey id name = Some n -> leasedStatus (ns_Status n) = true ->
  recorded s s1 (memoryNodeKey id name) n1 -> isTerminalNode (ns_Status n1) = false ->
  t_ExecutionID (oe_Task o) = id ->
  over g id s -> over g id (putOutboxEntryLocked now s1 id o).1.
Proof.
  intros Hn Hl (En & Hw & [Ee _] & _) Ht Ho.
  assert (Hi : ownIntents id s -> ownIntents id (putOutboxEntryLocked now s1 id o).1).
  { intros H key st [Hk|Hk].
    - apply put_lookup in Hk as [Hk|[_ ->]]; [|done].
      apply (H key). apply (sameWork_intents s s1 key st Hw). by left.
    - apply (H key). apply (sameWork_intents s s1 key st Hw). right. revert Hk.
      destruct (putOutbox_only now s1 id o) as (ob & Eo). by rewrite Eo. }
  revert Hi. destruct (putOutbox_only now s1 id o) as (ob & ->). intros Hi.
  by eapply (over_record s _ name n).
Qed.

Lemma over_putback now s name n eid t at' :
  nodes s !! memoryNodeKey id name = Some n -> leasedStatus (ns_Status n) = true ->
  t_ExecutionID t = id -> over g id s ->
  over g id (putOutboxLocked now (storeNode s (memoryNodeKey id name)
    (clearLease (n <| ns_Status := NodeStatusPending |>))) id eid t at').1.
Proof.
  intros Hn Hl Ht Ho.
  destruct (storeNode_recorded s (memoryNodeKey id name)
    (clearLease (n <| ns_Status := NodeStatusPending |>))) as (p & R).
  eapply over_recorded; [exact Hn|exact Hl|exact R|by destruct p|exact Ht|exact Ho].
Qed.

Lemma over_reset now s name token eid t at' :
  t_ExecutionID t = id -> over g id s ->
  over g id (ResetNodeForRetryWithOutbox now s id name token (newOutboxEntry eid t at')).1.
Proof.
  intros Ht Ho. unfold ResetNodeForRetryWithOutbox.
  destruct (reset_cases s id name token) as [E|(n & Hn & Hl & _ & _ & E)]; rewrite E; [done|].
  by apply over_putback.
Qed.

Lemma over_revoke now s name token eid t at' :
  t_ExecutionID t = id -> over g id s -> over g id (RevokeLeaseWithOutbox now s id name token (newOutboxEntry eid t at')).1.
Proof.
  intros Ht Ho. unfold RevokeLeaseWithOutbox.
  destruct (revoke_cases s id name token) as [E|(n & Hn & Hl & _ & _ & E)]; rewrite E; [done|].
  by apply over_putback.
Qed.

Section report.
Context (now : Time) (platformDelay : Z -> RetrySettings -> string -> string -> Duration)
  (hasExternalNodesReference : Graph -> nat -> nat -> bool)
  (expireIfLeaseTimeoutReached : memoryState -> Graph -> string -> option TaskLease ->
     memoryState * bool)
  (expandLoopSplit : memoryState -> TaskLease -> Graph -> Data ->
     res (memoryState * option string))
  (buildInput : memoryState -> Task -> Graph -> string + option Data)
  (suspendDisabled : option string).
Context (lease : TaskLease) (queue : list Task) (Hlease : leaseOK g id lease).

Notation good s := (over g id s \/ live s queue).

Lemma lease_id : t_ExecutionID (tl_Task lease) = id.
Proof. destruct Hlease as [[(j & v & nd & _ & Hid & _) _] _]. done. Qed.

Lemma good_commit s req i v nd :
  good s -> commits req i v nd -> good (CommitNode now s req).1.
Proof.
  intros HL C. destruct (fine_commit now s s queue req i v nd) as [H|[H _]]; auto.
  destruct HL; [by left|right]. split; [done|by intros ??].
Qed.

Lemma good_retry s meta cause :
  good s -> good (tryRetryWithAttempt now platformDelay s (tl_Task lease) meta cause
                    (tl_Attempt lease) (tl_LeaseToken lease)).1.
Proof.
  intros HL. unfold tryRetryWithAttempt. destruct cause as [e|]; [|done].
  destruct (retryFor meta) as [settings|]; [|done]. destruct (_ || _); [done|].
  assert (H : good (scheduleRetry now platformDelay s (tl_Task lease) (tl_Attempt lease) settings
                      (tl_LeaseToken lease)).1).
  { destruct HL as [Ho|L]; [left|right; apply retry_live; [done|apply Hlease]].
    unfold scheduleRetry. cbn zeta. rewrite lease_id. apply over_reset; [|done].
    exact lease_id. }
  by destruct (scheduleRetry _ _ _ _ _ _ _).
Qed.

Lemma mergeTask_ok : taskOK (systemTask (tl_Task lease) TaskTypeMergeCancel).
Proof.
  destruct Hlease as [[(j & v & nd & Hj & Hid & Hnm & Hji & Hvi & Hact) _] _].
  by exists j, v, nd.
Qed.

Lemma acyclic_commits p st out port msg fatal details normal req :
  acyclicRequest hasExternalNodesReference g lease p st out port msg fatal details normal = Ok req ->
  isTerminalNode st = true -> exists i v nd, commits req i v nd.
Proof.
  intros E Hst. destruct Hlease as [[(j & v & nd & Hj & Hid & Hnm & Hji & Hvi & Hact) _] _].
  exists j, v, nd. unfold acyclicRequest in E. rewrite Hac, Hji in E. cbn zeta in E.
  apply res_bind_Ok in E as (l & Ea & E). injection E as <-.
  assert (Harr : fatal = true \/ exists q, downstreamArrivals g (Z.of_nat j) q = Ok l).
  { destruct fatal; [by left|right; by exists port]. }
  clear Ea.
  destruct fatal;
    match goal with |- commits (if ?b then _ else _) _ _ _ => destruct b end; split; try done;
    intros t [= <-]; (split; [apply mergeTask_ok|done]).
Qed.

Lemma good_acyclic s p st out port msg fatal details normal s1 a :
  good s -> isTerminalNode st = true ->
  commitAcyclicNodeWithReclaimEligibility now hasExternalNodesReference s lease g p st out port msg
    fatal details normal = Ok (s1, a) -> good s1.
Proof.
  intros HL Hst E. unfold commitAcyclicNodeWithReclaimEligibility in E.
  apply res_bind_Ok in E as (req & Er & E).
  destruct (acyclic_commits _ _ _ _ _ _ _ _ _ Er Hst) as (i & v & nd & C).
  pose proof (good_commit s req i v nd HL C) as H.
  destruct (CommitNode now s req) as [s2 r]. by injection E as <- _.
Qed.

Lemma good_failure s p msg :
  good s -> good (commitAcyclicFailure now s lease p msg).1.
Proof.
  intros HL. destruct Hlease as [[(j & v & nd & Hj & Hid & Hnm & Hji & Hvi & Hact) _] _].
  assert (C : commits (failureRequest lease p msg) j v nd).
  { split; try done. by left. }
  unfold commitAcyclicFailure. pose proof (good_commit s _ _ _ _ HL C) as H.
  by destruct (CommitNode now s _).
Qed.

Lemma onError_terminal policy systemErr businessErr output :
  isTerminalNode (oo_NodeStatus (ApplyOnError policy systemErr businessErr output)) = true.
Proof. unfold ApplyOnError. by repeat case_match. Qed.

Lemma good_error s meta p systemErr output businessErr s1 a :
  good s ->
  commitAcyclicNodeError now platformDelay hasExternalNodesReference g s lease meta p systemErr
    output businessErr = Ok (s1, a) -> good s1.
Proof.
  intros HL E. unfold commitAcyclicNodeError, commitNodeErrorOutcome in E.
  pose proof (good_retry s meta systemErr HL) as H.
  destruct (tryRetryWithAttempt _ _ _ _ _ _ _ _) as [s2 []]; cbn [fst] in H;
    [|by injection E as <- _|by injection E as <- _].
  eapply good_acyclic; [exact H|apply onError_terminal|exact E].
Qed.


Lemma lease_body meta :
  NodeAt g (Z.to_nat (t_NodeIdx (tl_Task lease))) = Ok meta -> nm_HasBody meta = false.
Proof. intros H. apply idx_Ok, list_elem_of_lookup_2 in H. by apply Hbody. Qed.

Lemma good_result s result s1 a :
  good s ->
  commitAcyclicTaskResult now platformDelay hasExternalNodesReference expireIfLeaseTimeoutReached
    s lease g result = Ok (s1, a) -> good s1.
Proof.
  intros HL E. unfold commitAcyclicTaskResult, commitTaskResultWithStrategy in E.
  cbn [commitError commitExpand commitSuccess] in E. destruct (t_NodeIdx _ <? 0); [done|].
  apply res_bind_Ok in E as (meta & Hm & E). rewrite (lease_body meta Hm) in E.
  rewrite (proj2 (Z.ltb_ge 0 (g_timeout g)) Htimeout), andb_false_r in E.
  destruct (isSome (nr_Error result) || _); [by eapply good_error|].
  destruct (outputPortRetryError _) as [err|].
  - pose proof (good_retry s meta (Some err) HL) as H.
    destruct (tryRetryWithAttempt _ _ _ _ _ _ _ _) as [s2 []]; cbn [fst] in H;
      [by eapply good_error|by injection E as <- _|by injection E as <- _].
  - unfold commitAcyclicNode in E. by eapply good_acyclic; [exact HL| |exact E].
Qed.

Lemma lease_kind : t_Type (tl_Task lease) <> TaskTypeGroupExec.
Proof. destruct Hlease as [[_ [Hr _]] _]. intros E. unfold runs in Hr. by rewrite E in Hr. Qed.

Lemma good_graph s : good s -> LoadGraph s id = Some g.
Proof.
  intros [(e & He & _ & Hgr & _)|L]; [|apply (live_graph _ _ L)].
  unfold LoadGraph. by rewrite He.
Qed.

Lemma good_report s input result s1 a :
  good s -> nr_Suspend result = None ->
  CommitTaskResultWithOutcome now platformDelay hasExternalNodesReference
    expireIfLeaseTimeoutReached expandLoopSplit buildInput suspendDisabled
    s lease input result = Ok (s1, a) -> good s1.
Proof.
  intros HL Hs E. unfold CommitTaskResultWithOutcome in E.
  rewrite decide_False, lease_id, (good_graph s HL), Hs, Hac in E by apply lease_kind.
  assert (Hx : taskResultExpands g lease result = false).
  { unfold taskResultExpands. destruct (nr_Error result); [done|]. destruct (nr_Output result); [|done].
    destruct (g_nodes g !! _) as [meta|] eqn:Hm; [|by rewrite andb_false_r].
    rewrite (Hbody meta), andb_false_r; [done|]. by eapply list_elem_of_lookup_2. }
  rewrite Hx in E. cbn [isSome negb andb] in E.
  apply res_bind_Ok in E as ([s2 r] & Er & E). injection E as <- _. by eapply good_result.
Qed.

(** An ended execution has no graph to act on. *)
Lemma good_active s : good s -> loadActiveGraph s id = None \/ loadActiveGraph s id = Some g.
Proof.
  intros HL. unfold loadActiveGraph. rewrite (good_graph s HL).
  destruct (executionActive s id); [by right|by left].
Qed.

Lemma good_fail s msg s1 a :
  good s -> CommitTaskFailure now hasExternalNodesReference s lease msg = Ok (s1, a) -> good s1.
Proof.
  intros HL E. unfold CommitTaskFailure in E. rewrite lease_id in E.
  destruct (good_active s HL) as [Ea|Ea]; rewrite Ea in E; [by injection E as <- _|].
  pose proof (good_failure s (privateOutputForTask g (tl_Task lease)) msg HL) as H.
  destruct (commitAcyclicFailure _ _ _ _ _) as [s2 r].
  rewrite Hac in E. by injection E as <- _.
Qed.

Lemma good_timeout s cause s1 a :
  good s ->
  CommitTaskTimeout now platformDelay hasExternalNodesReference expireIfLeaseTimeoutReached
    s lease cause = Ok (s1, a) -> good s1.
Proof.
  intros HL E. unfold CommitTaskTimeout in E.
  rewrite decide_False, lease_id in E by apply lease_kind.
  destruct (good_active s HL) as [Ea|Ea]; rewrite Ea in E; [by injection E as <- _|].
  rewrite (proj2 (Z.ltb_ge 0 (g_timeout g)) Htimeout), Hac in E. cbn zeta in E.
  destruct (t_NodeIdx _ <? 0); [done|]. apply res_bind_Ok in E as (meta & _ & E).
  apply res_bind_Ok in E as ([s2 r] & Er & E). injection E as <- _. by eapply good_error.
Qed.

End report.

(** ** Every step *)

Lemma over_inactive s : over g id s -> loadActiveGraph s id = None.
Proof.
  intros (e & He & Hend & _). unfold loadActiveGraph, executionActive, GetExecutionStatus, LoadGraph.
  rewrite He. cbn. destruct (ex_Graph _); [|done]. cbn. unfold ended in Hend. by rewrite Hend.
Qed.

Lemma over_touched s s' : over g id s -> touched id s s' -> over g id s'.
Proof.
  intros Ho T. eapply over_rows; [apply (tc_life _ _ _ T)| | |exact Ho].
  - intros name. unfold Progress.finished, nodeIs. by rewrite (tc_nodes _ _ _ T).
  - intros H key st (st0 & Hk & ->)%(tc_new _ _ _ T). by apply (H key).
Qed.

Lemma good_touched s s' queue :
  over g id s \/ live s queue -> touched id s s' -> over g id s' \/ live s' queue.
Proof. intros [Ho|L] T; [left; by eapply over_touched|right; by eapply touch_live]. Qed.

Lemma over_served s t nd u :
  over g id s -> t_ExecutionID t = id -> servedUnit s g t nd <> Ok (Some u).
Proof.
  intros Ho Hid E. unfold servedUnit in E. rewrite Hid, (over_inactive s Ho) in E.
  case_decide; [done|]. apply res_bind_Ok in E as ([v|] & _ & E); [|done].
  by apply res_bind_Ok in E as ([] & _ & E).
Qed.

Lemma over_disabled now s t s1 :
  over g id s -> t_ExecutionID t = id -> handleDisabledNode now s t <> Ok (s1, (true, None)).
Proof.
  intros Ho Hid E. unfold handleDisabledNode in E. rewrite Hid in E.
  pose proof Ho as (e & He & _ & Hgr & _). unfold LoadGraph in E. rewrite He in E. cbn in E.
  rewrite Hgr in E.
  destruct (_ || _ || _); [done|]. apply res_bind_Ok in E as (nd & _ & E).
  destruct (negb _); [done|]. apply res_bind_Ok in E as ([u|] & Hu & E); [|done].
  by eapply over_served.
Qed.

Lemma over_pinned now s t s1 :
  over g id s -> t_ExecutionID t = id -> handlePinnedNode now s t <> Ok (s1, (true, None)).
Proof.
  intros Ho Hid E. unfold handlePinnedNode in E. rewrite Hid in E.
  pose proof Ho as (e & He & _ & Hgr & _). unfold LoadGraph in E. rewrite He in E. cbn in E.
  rewrite Hgr in E. case_decide; [done|].
  destruct (_ || _); [done|]. apply res_bind_Ok in E as (nd & _ & E).
  destruct (negb _); [done|]. apply res_bind_Ok in E as ([u|] & Hu & E); [|done].
  by eapply over_served.
Qed.

Section every.
Context (platformDelay : Z -> RetrySettings -> string -> string -> Duration)
  (hasExternalNodesReference : Graph -> nat -> nat -> bool)
  (expireIfLeaseTimeoutReached : memoryState -> Graph -> string -> option TaskLease ->
     memoryState * bool)
  (expandLoopSplit : memoryState -> TaskLease -> Graph -> Data ->
     res (memoryState * option string))
  (buildInput : memoryState -> Task -> Graph -> string + option Data)
  (suspendDisabled : option string).

Lemma step_good p p' :
  step g id platformDelay hasExternalNodesReference expireIfLeaseTimeoutReached expandLoopSplit
    buildInput suspendDisabled p p' ->
  over g id p.1 \/ live p.1 p.2 -> over g id p'.1 \/ live p'.1 p'.2.
Proof.
  intros Hs HL.
  destruct Hs as [s queue key st ack Hk Hin|s queue key Hn|s queue key st ack now s1 Hk Hty Hid Hh
    |s queue key st ack now s1 a Hk Hty Hid Hh Hack|s before task after now s1 Hid Hh
    |s before task after now s1 Hid Hh|s before lease after Hid Hsl|s queue now name token deadline
    |s queue now lease input result s' a Hl Hs Hc|s queue now lease cause s' a Hl Hc
    |s queue now lease msg s' a Hl Hc|s queue now before lease Hin Hid Hty|s queue now limit
    |s queue now entries|s queue entry|s queue entry limit|s queue now req Hid]; cbn [fst snd] in *.
  - destruct HL as [Ho|L]; [left; by apply over_settle|right].
    destruct (live_kinds s queue key st L (or_introl Hk) Hin). by apply deliver_live.
  - destruct HL as [Ho|L]; [left; by apply (over_settle s true)|].
    by rewrite (proj2 (live_graph s queue L)) in Hn.
  - destruct HL as [Ho|L]; [|by eapply skip_live].
    unfold handleSkipTask in Hh. by rewrite Hid, (over_inactive s Ho) in Hh.
  - destruct HL as [Ho|L]; [left|by eapply cancel_live].
    unfold handleMergeCancelTask in Hh. rewrite Hid, (over_inactive s Ho) in Hh.
    injection Hh as <- _. by apply over_settle.
  - destruct HL as [Ho|L]; [|by eapply disabled_live]. by destruct (over_disabled _ _ _ _ Ho Hid Hh).
  - destruct HL as [Ho|L]; [|by eapply pinned_live]. by destruct (over_pinned _ _ _ _ Ho Hid Hh).
  - destruct HL as [Ho|L]; [left|right; by apply lease_live].
    pose proof Ho as (e & He & Hend & _). unfold AcquireTaskLeaseChecked. rewrite Hid, He.
    unfold ended in Hend. by rewrite Hend.
  - destruct HL as [Ho|L]; [left|right; by apply renew_live].
    destruct (renew_cases now s id name token deadline) as [E|(n & at0 & Hn & _ & _ & Hst & _ & E)];
      rewrite E; [done|].
    eapply (over_record s _ name n); [done|by destruct Hst as [->| ->]|done| |done|done|done].
    by destruct Hst as [H|H]; cbn; rewrite H.
  - by eapply good_report.
  - by eapply good_timeout.
  - by eapply good_fail.
  - destruct HL as [Ho|L]; [left|right; by eapply reclaim_live].
    unfold ReclaimLease. case_decide; [done|]. rewrite decide_False by done. cbn zeta.
    rewrite Hid. by apply over_revoke.
  - eapply good_touched; [done|apply claim_touched].
  - eapply good_touched; [done|apply extend_touched].
  - eapply good_touched; [done|apply release_touched].
  - eapply good_touched; [done|apply undelivered_touched].
  - eapply good_touched; [done|]. rewrite <- Hid. apply replay_touched.
Qed.
End every.
End preserve.
