(* ===== verification/System.v ===== *)
(** * The store as a whole

    One step relation over every state-changing operation of the in-memory
    store, whichever component it belongs to, and what holds along its runs: the
    lifecycle invariant, and four things no interleaving of operations undoes
    (an ended execution, a decided unit, a written intent, an admission). *)

From S2P Require Import Prelude Keys Types Graph Units State Slots Executions Outbox Lease Commit Groups Signals Records Seeding.

(** ** What evolves monotonically *)

(** Ended, rolled back, or never created. *)
Definition settled (s : memoryState) (id : string) : Prop :=
  forall e, executions s !! id = Some e -> ended e = true.

(** [Q]: the executions that are neither created nor rolled back meanwhile;
    [K]: the intents that are not acknowledged meanwhile. *)
Record evolves (Q : string -> Prop) (K : string -> string -> Prop) (s s' : memoryState) : Prop := {
  ev_final : forall id, Q id -> settled s id -> executions s' !! id = executions s !! id;
  ev_intents : forall id eid, Q id -> K id eid -> kept s id eid -> kept s' id eid \/ settled s' id;
  ev_marks : forall id u, Q id -> slash_free id ->
    marker (scheduled s) (memoryCounterKey id u) <> "" ->
    marker (scheduled s') (memoryCounterKey id u) = marker (scheduled s) (memoryCounterKey id u);
  ev_admissions : forall k a, Q (ae_executionID a) -> admissions s !! k = Some a ->
    admissions s' !! k = Some a
}.

Lemma settled_same s s' id : executions s' !! id = executions s !! id -> settled s id -> settled s' id.
Proof. unfold settled. by intros ->. Qed.

#[export] Instance evolves_preorder Q K : PreOrder (evolves Q K).
Proof.
  split; [by split; auto|]. intros s1 s2 s3 H1 H2. split.
  - intros id Hq Hs. rewrite (ev_final _ _ _ _ H2), (ev_final _ _ _ _ H1); auto.
    eapply settled_same; [|exact Hs]. by apply (ev_final _ _ _ _ H1).
  - intros id eid Hq Hk H. destruct (ev_intents _ _ _ _ H1 id eid Hq Hk H) as [H'|H'].
    + by apply (ev_intents _ _ _ _ H2).
    + right. eapply settled_same; [|exact H']. by apply (ev_final _ _ _ _ H2).
  - intros id u Hq Hf Hm. pose proof (ev_marks _ _ _ _ H1 id u Hq Hf Hm) as E.
    rewrite (ev_marks _ _ _ _ H2 id u Hq Hf); [done|]. by rewrite E.
  - intros k a Hq Ha. by apply (ev_admissions _ _ _ _ H2), (ev_admissions _ _ _ _ H1).
Qed.

Lemma evolves_mono (Q Q' : string -> Prop) (K K' : string -> string -> Prop) s s' :
  (forall id, Q' id -> Q id) -> (forall id eid, K' id eid -> K id eid) ->
  evolves Q K s s' -> evolves Q' K' s s'.
Proof. intros HQ HK [H1 H2 H3 H4]. split; eauto. Qed.

(** Operations that leave executions, slots, intents, markers and admissions
    alone. *)
Record quiet (s s' : memoryState) : Prop := {
  qt_life : life_frame s s';
  qt_outbox : outbox s' = outbox s;
  qt_dead : deadOutbox s' = deadOutbox s;
  qt_marks : scheduled s' = scheduled s;
  qt_admissions : admissions s' = admissions s
}.

#[export] Instance quiet_preorder : PreOrder quiet.
Proof.
  split; [done|]. intros s1 s2 s3 [A1 B1 C1 D1 E1] [A2 B2 C2 D2 E2].
  split; [by etrans|congruence..].
Qed.

Lemma kept_same s s' id eid :
  outbox s' = outbox s -> deadOutbox s' = deadOutbox s -> kept s id eid -> kept s' id eid.
Proof. unfold kept, outboxOf. by intros -> ->. Qed.

Lemma quiet_evolves Q K s s' : quiet s s' -> evolves Q K s s'.
Proof.
  intros [[E _] Eo Ed Em Ea]. split.
  - by rewrite E.
  - intros id eid _ _ H. left. by eapply kept_same.
  - by rewrite Em.
  - by rewrite Ea.
Qed.

(** Outbox operations. *)
Lemma outbox_evolves Q (K : string -> string -> Prop) s o s' :
  outbox_step s o s' -> (forall id eid, K id eid -> o <> Some (id, eid)) ->
  executions s' = executions s -> scheduled s' = scheduled s -> admissions s' = admissions s ->
  evolves Q K s s'.
Proof.
  intros Hs Ho E Em Ea. split.
  - by rewrite E.
  - intros id eid _ Hk H. left. eapply outbox_step_kept; eauto.
  - by rewrite Em.
  - by rewrite Ea.
Qed.

Lemma put_evolves Q K now s id o : evolves Q K s (putOutboxEntryLocked now s id o).1.
Proof.
  destruct (putOutbox_only now s id o) as (ob & E).
  eapply outbox_evolves; [apply os_put|done|by rewrite E..].
Qed.

(** ** Leaving a slot *)

Lemma outboxOf_other s s' id : outbox s' !! id = outbox s !! id -> outboxOf s' id = outboxOf s id.
Proof. unfold outboxOf. by intros ->. Qed.

Lemma unpark_keys s id x eid :
  is_Some (outboxOf s x !! eid) -> is_Some (outboxOf (unpark s id) x !! eid).
Proof.
  intros H. destruct (decide (x = id)) as [->|Hne].
  - unfold outboxOf, unpark in *. simpl. rewrite lookup_alter_eq.
    destruct (outbox s !! id) as [m|]; [|done]. simpl in *. rewrite lookup_fmap. by apply fmap_is_Some.
  - rewrite (outboxOf_other s); [done|]. simpl. by rewrite lookup_alter_ne.
Qed.

Lemma completePromotion_keys now s id x eid :
  is_Some (outboxOf s x !! eid) -> is_Some (outboxOf (completePromotionLocked now s id) x !! eid).
Proof.
  intros H. unfold completePromotionLocked. cbn zeta.
  destruct (executions s !! id); repeat case_decide; try done; by apply (unpark_keys _ id x eid).
Qed.

Lemma promoteLoop_keys fuel now s slot x eid :
  is_Some (outboxOf s x !! eid) -> is_Some (outboxOf (promoteLoop fuel now s slot).1 x !! eid).
Proof.
  revert s slot. induction fuel as [|fuel IH]; intros s slot H; [done|]. simpl. unfold promoteOne.
  destruct (ws_queued slot) as [|id line]; [done|]. case_bool_decide; [|done].
  apply IH. by apply completePromotion_keys.
Qed.

(** Nobody else loses an intent when an execution leaves its slot or line. *)
Lemma release_keys now s id x eid :
  x <> id -> is_Some (outboxOf s x !! eid) ->
  is_Some (outboxOf (releaseWorkflowSlotLocked now s id) x !! eid).
Proof.
  intros Hne H.
  assert (Hset : forall s1 slot, outboxOf s1 x = outboxOf s x ->
    is_Some (outboxOf (settle now s1 slot) x !! eid)).
  { intros s1 slot E. unfold settle, promoteLocked. rewrite <- E in H.
    pose proof (promoteLoop_keys (length (ws_queued slot)) now s1 slot x eid H) as Hp.
    destruct (promoteLoop _ now s1 slot) as [s2 sl]. by case_bool_decide. }
  unfold releaseWorkflowSlotLocked. destruct (slotHolders s !! id); [by apply Hset|].
  destruct (queued s !! id); [|done]. apply Hset. unfold dropHeldOutboxLocked.
  case_decide; apply outboxOf_other; simpl;
    [by rewrite lookup_delete_ne|by rewrite lookup_insert_ne].
Qed.

(** ** Ends and status changes *)

(** A live execution may be rewritten. *)
Lemma rewrite_evolves Q K s s' id e0 e1 :
  executions s !! id = Some e0 -> ended e0 = false ->
  executions s' = <[id := e1]> (executions s) -> outbox s' = outbox s ->
  deadOutbox s' = deadOutbox s -> scheduled s' = scheduled s -> admissions s' = admissions s ->
  evolves Q K s s'.
Proof.
  intros H0 Hd E Eo Ed Em Ea. split.
  - intros x _ Hs. rewrite E, lookup_insert_ne; [done|]. intros <-.
    specialize (Hs e0 H0). congruence.
  - intros x eid _ _ H. left. by eapply kept_same.
  - by rewrite Em.
  - by rewrite Ea.
Qed.

(** The end of a terminal transition. *)
Lemma end_evolves Q K now s s1 id e0 e1 :
  executions s !! id = Some e0 -> ended e0 = false -> ended e1 = true ->
  executions s1 = <[id := e1]> (executions s) -> outbox s1 = outbox s ->
  deadOutbox s1 = deadOutbox s -> scheduled s1 = scheduled s -> admissions s1 = admissions s ->
  evolves Q K s (markClosed (releaseWorkflowSlotLocked now s1 id) id).
Proof.
  intros H0 Hd H1 E Eo Ed Em Ea.
  pose proof (fun x => release_started now s1 id x) as Hst.
  pose proof (fun x eid => release_keys now s1 id x eid) as Hkey.
  destruct (release_effect now s1 id) as (ex & ob & ws & sh & q & Er).
  set (s2 := releaseWorkflowSlotLocked now s1 id) in *. split.
  - intros x _ Hs. assert (x <> id) by (intros <-; specialize (Hs e0 H0); congruence).
    simpl. rewrite lookup_alter_ne by done.
    assert (Ex : executions s1 !! x = executions s !! x) by (by rewrite E, lookup_insert_ne).
    rewrite <- Ex. destruct (Hst x) as [? |(e & He & Hq & _)]; [done|].
    specialize (Hs e). rewrite <- Ex in Hs. unfold ended in Hs. rewrite Hq in Hs. by specialize (Hs He).
  - intros x eid _ _ H. destruct (decide (x = id)) as [->|Hne].
    + right. intros e. simpl. rewrite lookup_alter_eq.
      destruct (Hst id) as [-> |(e' & He & Hq & _)]; rewrite E, lookup_insert_eq in *; simpl;
        [by intros [= <-]|]. simplify_eq. unfold ended in H1. by rewrite Hq in H1.
    + left. destruct H as [H|H]; [left|right].
      * apply Hkey; [done|]. by rewrite (outboxOf_other s) by (by rewrite Eo).
      * simpl. rewrite Er. simpl. by rewrite Ed.
  - intros x u _ _ _. simpl. rewrite Er. simpl. by rewrite Em.
  - intros k a _. simpl. rewrite Er. simpl. by rewrite Ea.
Qed.

Lemma withdraw_quiet s id st : quiet s (withdrawDeadlineLocked s id st).
Proof. unfold withdrawDeadlineLocked. by case_decide. Qed.

Lemma finish_evolves Q K now s id e st msg :
  executions s !! id = Some e -> IsTerminalExecutionStatus st = true ->
  evolves Q K s (finishExecutionLocked now s id e st msg).
Proof.
  intros He Ht. unfold finishExecutionLocked. fold (ended e).
  destruct (ended e) eqn:Hd; [reflexivity|].
  set (e1 := if decide (st = _ /\ _) then _ else _).
  assert (H1 : ended e1 = true) by (unfold e1; by case_decide).
  destruct (withdraw_quiet (s <| executions ::= <[id := e1]> |>) id st) as [[E _] Eo Ed Em Ea].
  by eapply end_evolves.
Qed.

Lemma update_evolves Q K now s id st msg :
  evolves Q K s (updateExecutionStatusLocked now s id st msg).1.
Proof.
  unfold updateExecutionStatusLocked. destruct (executions s !! id) as [e|] eqn:He; [|reflexivity].
  fold (ended e). destruct (ended e) eqn:Hd; [reflexivity|]. case_decide; [reflexivity|].
  set (s0 := if decide (st = _ /\ _) then _ else s).
  assert (H0 : quiet s s0) by (unfold s0; by case_decide).
  etrans; [apply quiet_evolves, H0|]. destruct H0 as [[E0 _] _ _ _ _]. rewrite <- E0 in He.
  set (e1 := if decide (msg <> _) then _ else _). cbn zeta.
  destruct (IsTerminalExecutionStatus st) eqn:Ht; cbn [fst]; [|by eapply rewrite_evolves].
  assert (H1 : ended e1 = true) by (unfold e1; by case_decide).
  destruct (withdraw_quiet (s0 <| executions ::= <[id := e1]> |> <| cancelingSince ::= delete id |>)
    id st) as [[E _] Eo Ed Em Ea].
  by eapply end_evolves.
Qed.

Lemma pause_evolves Q K now s id : evolves Q K s (PauseExecution now s id).1.
Proof.
  unfold PauseExecution. destruct (executions s !! id) as [e|] eqn:He; [|reflexivity].
  destruct (status e) eqn:Hs; try reflexivity.
  eapply rewrite_evolves; [done| |done..]. unfold ended. by rewrite Hs.
Qed.

Lemma resume_evolves Q K now s id : evolves Q K s (ResumeExecution now s id).1.
Proof.
  unfold ResumeExecution. destruct (executions s !! id) as [e|] eqn:He; [|reflexivity].
  case_decide as Hs; [reflexivity|].
  eapply rewrite_evolves; [done| |done..]. unfold ended. by rewrite Hs.
Qed.

Lemma expireAll_evolves Q K now s ids projected :
  evolves Q K s (expireAll now s ids projected).1.
Proof.
  revert s projected. induction ids as [|id ids IH]; intros s projected; [reflexivity|]. simpl.
  pose proof (update_evolves Q K now s id ExecutionStatusTimeout ConcurrencyQueueTimeoutError).
  destruct (updateExecutionStatusLocked _ _ _ _ _) as [s' ok]. etrans; [done|apply IH].
Qed.

Lemma expire_evolves Q K now s limit line : evolves Q K s (ExpireQueuedExecutions now s limit line).1.
Proof.
  unfold ExpireQueuedExecutions. case_decide; [reflexivity|].
  pose proof (expireAll_evolves Q K now s (expiredQueued now s limit line []) []).
  by destruct (expireAll _ _ _ _).
Qed.

(** The row landed: what was held is released, or dropped with its execution. *)
Lemma releaseHold_evolves Q K s id : evolves Q K s (releaseInitialMirrorHold s id).
Proof.
  assert (Hdrop : forall s1, outbox s1 = outbox s -> deadOutbox s1 = deadOutbox s ->
    scheduled s1 = scheduled s -> admissions s1 = admissions s -> executions s1 = executions s ->
    settled s id -> evolves Q K s (dropHeldOutboxLocked s1 id)).
  { intros s1 Eo Ed Em Ea E Hs.
    assert (Er : exists m, dropHeldOutboxLocked s1 id = s1 <| outbox := m |> /\
                           forall x, x <> id -> m !! x = outbox s1 !! x).
    { unfold dropHeldOutboxLocked. case_decide; (eexists; split; [reflexivity|]); intros x Hx;
        [by rewrite lookup_delete_ne|by rewrite lookup_insert_ne]. }
    destruct Er as (m & -> & Hm). split; simpl.
    - by rewrite E.
    - intros x eid _ _ H. destruct (decide (x = id)) as [->|Hne].
      + right. eapply settled_same; [|exact Hs]. simpl. by rewrite E.
      + left. destruct H as [H|H]; [left|right; simpl; by rewrite Ed].
        rewrite (outboxOf_other s); [done|]. simpl. by rewrite Hm, Eo.
    - by rewrite Em.
    - by rewrite Ea. }
  unfold releaseInitialMirrorHold. cbn zeta. set (s1 := s <| mirrorCreatePending ::= _ |>).
  change (executions s1) with (executions s).
  destruct (executions s !! id) as [e|] eqn:He; [|apply Hdrop; try done; intros e; by rewrite He].
  destruct (IsTerminalExecutionStatus (status e)) eqn:Ht.
  { apply Hdrop; try done. intros e' He'. by simplify_eq. }
  case_decide; [by apply quiet_evolves|]. split; try done.
  intros x eid _ _ [Hk|Hk]; [|by left; right]. left; left. by apply (unpark_keys s1 id x eid).
Qed.

(** ** Creation and rollback *)

Lemma writeInitialIntent_evolves (Q : string -> Prop) K now id t s o :
  ~ Q id -> evolves Q K s (writeInitialIntent now id t s o).
Proof.
  intros Hq. unfold writeInitialIntent. etrans; [|apply put_evolves].
  case_decide; [|reflexivity]. split; try done.
  - intros x eid _ _ Hk. by left.
  - intros x u Hx _ _. simpl. rewrite marker_insert, decide_False; [done|].
    intros [-> _]%memoryCounterKey_inj. done.
Qed.

Lemma writeInitialIntents_evolves (Q : string -> Prop) K now s id entries t :
  ~ Q id -> evolves Q K s (writeInitialIntentsLocked now s id entries t).
Proof.
  intros Hq. unfold writeInitialIntentsLocked. revert s.
  induction entries as [|o entries IH]; intros s; [reflexivity|]. simpl.
  etrans; [by apply writeInitialIntent_evolves|apply IH].
Qed.

Lemma create_evolves (Q : string -> Prop) K now s e :
  ~ Q (ex_ID e) -> evolves Q K s (createExecutionLocked now s e).
Proof.
  intros Hq. destruct (create_shape now s e) as (ind & rem & fl & -> & _). split; simpl.
  - intros x Hx _. rewrite lookup_insert_ne; [done|]. by intros <-.
  - intros x eid _ _ H. by left.
  - done.
  - done.
Qed.

Lemma noteMirror_quiet hint s e : quiet s (noteMirrorModeLocked hint s e).
Proof. by destruct (noteMirror_shape hint s e) as (m & -> & _). Qed.

Lemma markPending_quiet s id : quiet s (markMirrorCreatePendingLocked s id).1.
Proof. by destruct (markPending_shape s id) as (m & -> & _). Qed.

(** The common part of every way to create an execution. *)
Lemma begin_create_evolves (Q : string -> Prop) K hint now s e :
  ~ Q (ex_ID e) ->
  evolves Q K s (createExecutionLocked now
    (markMirrorCreatePendingLocked (noteMirrorModeLocked hint s e) (ex_ID e)).1 e).
Proof.
  intros Hq. etrans; [apply quiet_evolves, noteMirror_quiet|].
  etrans; [apply quiet_evolves, markPending_quiet|]. by apply create_evolves.
Qed.

Lemma charge_evolves Q K sha now s id a : evolves Q K s (chargeOrParkLocked sha now s id a).1.
Proof.
  unfold chargeOrParkLocked, parkOrChargeLocked. cbn zeta.
  repeat case_match; split; try done; intros ??? _ ?; by left.
Qed.

(** Only keys of the rolled back execution are removed. *)
Lemma prefix_split p s : String.prefix p s = true -> exists t, s = p +:+ t.
Proof.
  revert s. induction p as [|a p IH]; intros s; [by exists s|].
  destruct s as [|b s]; [done|]. simpl. destruct (ascii_dec a b) as [->|]; [|done].
  intros (t & ->)%IH. by exists t.
Qed.

Lemma counterKey_other id id' u :
  slash_free id -> id <> id' -> String.prefix (id' +:+ "/") (memoryCounterKey id u) = false.
Proof.
  intros Hf Hne. apply not_true_iff_false. intros (t & E)%prefix_split.
  unfold memoryCounterKey in E. apply (f_equal chars) in E.
  rewrite <- !string_app_assoc, !chars_app in E.
  pose proof (slash_free_itoa u) as Hu. unfold slash_free in *. apply Hne, chars_inj.
  apply app_eq_inv in E as [(k & E1 & E2)|(k & E1 & E2)]; destruct k as [|c k];
    rewrite ?app_nil_r in E1; try done; simpl in E2; simplify_eq.
  - rewrite E1 in Hf. set_solver.
  - rewrite H0 in Hu. set_solver.
Qed.

Lemma deletePrefix_keep {V} p k (m : gmap string V) :
  String.prefix p k = false -> deleteKeysWithPrefix p m !! k = m !! k.
Proof.
  intros Hp. unfold deleteKeysWithPrefix. apply option_eq. intros v.
  rewrite map_lookup_filter_Some. simpl. tauto.
Qed.

Lemma rollback_evolves (Q : string -> Prop) K now s id :
  ~ Q id -> evolves Q K s (rollbackCreatedExecution now s id).
Proof.
  intros Hq.
  pose proof (fun x => release_started now s id x) as Hst.
  pose proof (fun x eid => release_keys now s id x eid) as Hkey.
  destruct (release_effect now s id) as (ex & ob & ws & sh & q & Er).
  unfold rollbackCreatedExecution. set (s2 := releaseWorkflowSlotLocked now s id) in *.
  assert (Hx : forall x, Q x -> x <> id) by (intros x Hx ->; done). split; simpl.
  - intros x Hqx Hs. rewrite lookup_delete_ne by (symmetry; auto).
    destruct (Hst x) as [? |(e & He & Hqd & _)]; [done|].
    specialize (Hs e He). unfold ended in Hs. by rewrite Hqd in Hs.
  - intros x eid Hqx _ [H|H]; left; [left|right].
    + unfold outboxOf. simpl. rewrite lookup_delete_ne by (symmetry; auto).
      apply Hkey; auto.
    + simpl. rewrite lookup_delete_ne by (symmetry; auto). by rewrite Er.
  - intros x u Hqx Hf _. unfold marker. rewrite deletePrefix_keep by (apply counterKey_other; auto).
    by rewrite Er.
  - intros k a Hqa Ha. rewrite map_lookup_filter_Some. rewrite Er. simpl. split; [done|]. auto.
Qed.

(** ** Commits *)

(** Steps that keep the executions and the slots as they are. *)
Definition steady (Q : string -> Prop) (K : string -> string -> Prop) (s s' : memoryState) : Prop :=
  evolves Q K s s' /\ life_frame s s'.

#[export] Instance steady_preorder Q K : PreOrder (steady Q K).
Proof. split; [done|]. intros s1 s2 s3 [A1 B1] [A2 B2]. split; by etrans. Qed.

Lemma quiet_steady Q K s s' : quiet s s' -> steady Q K s s'.
Proof. intros H. split; [by apply quiet_evolves|apply H]. Qed.

Lemma put_steady Q K now s id o : steady Q K s (putOutboxEntryLocked now s id o).1.
Proof. split; [apply put_evolves|apply putOutboxEntry_frame]. Qed.

Lemma applyArrival_evolves Q K now id act depth s r a :
  evolves Q K s (applyArrival now id act depth (s, r) a).1.
Proof.
  destruct (Z.le_gt_cases (da_ArrivalCount a) 0); [by rewrite applyArrival_none|].
  destruct (applyArrival_shape now id act depth s r a) as (ob & -> & Ho & Hk & _); [lia|].
  set (t := tallyAt s id (da_UnitIdx a)) in *. split; simpl.
  - done.
  - intros x eid _ _ [Hx|Hx]; left; [left|by right].
    destruct (decide (x = id)) as [->|Hne].
    + destruct Hx as [e He]. exists e. by apply Hk.
    + rewrite (outboxOf_other s); [done|]. simpl.
      rewrite <- (lookup_delete_ne ob id x), Ho, lookup_delete_ne; auto.
  - intros x u _ _ Hm. case_decide as Ed; [|done]. rewrite marker_insert.
    case_decide as Ek; [|done]. apply memoryCounterKey_inj in Ek as [-> ->]. by destruct Ed.
  - done.
Qed.

Lemma arrivals_steady Q K now s id act depth l :
  steady Q K s (applyArrivalsLocked now s id act depth l).1.
Proof.
  split; [|apply applyArrivals_frame]. unfold applyArrivalsLocked.
  generalize (([] : list string), ([] : list SkippedUnit)) as r.
  revert s. induction l as [|a l IH]; intros s r; [reflexivity|]. cbn [foldl].
  pose proof (applyArrival_evolves Q K now id act depth s r a) as Ha.
  destruct (applyArrival now id act depth (s, r) a) as [s1 r1]. etrans; [exact Ha|apply IH].
Qed.

Lemma preserve_quiet s key b : quiet s (preserveOutputPrivacyLocked s key b).1.
Proof. unfold preserveOutputPrivacyLocked. cbn zeta. by repeat case_match. Qed.

Lemma commitWrite_quiet now s req current : quiet s (commitWriteNode now s req current).
Proof.
  unfold commitWriteNode. set (key := memoryNodeKey _ _).
  pose proof (preserve_quiet s key (req_PrivateOutput req)) as H.
  destruct (preserveOutputPrivacyLocked s key _) as [s1 p]. cbn [fst] in H. etrans; [exact H|].
  by destruct (req_System req && _), (req_StoreOutput req).
Qed.

Lemma advance_steady Q K now s req : steady Q K s (AdvanceNode now s req).1.
Proof.
  unfold AdvanceNode. cbn zeta. destruct (executions s !! _) as [e|]; [|reflexivity].
  destruct (IsTerminalExecutionStatus _); [reflexivity|].
  destruct (nodes s !! _) as [n|]; [|reflexivity]. destruct (_ || _); [reflexivity|].
  case_decide; [reflexivity|].
  match goal with |- context [applyArrivalsLocked now ?x ?i ?a ?d ?l] =>
    pose proof (arrivals_steady Q K now x i a d l) as H1;
    destruct (applyArrivalsLocked now x i a d l) as [s1 [ids sk]] end.
  etrans; [|exact H1]. by apply quiet_steady.
Qed.

Lemma storeExits_quiet id s l : quiet s (foldl (storeExit id) s l).
Proof.
  revert s. induction l as [|ex l IH]; intros s; [reflexivity|]. cbn [foldl]. etrans; [|apply IH].
  unfold storeExit. pose proof (preserve_quiet s (memoryNodeKey id (ge_NodeName ex))
    (ge_PrivateOutput ex)) as H. etrans; [exact H|]. done.
Qed.

(** A group commit, like a node commit, is a sequence of quiet steps with at most
    one end of its execution. *)
Lemma commitGroup_rel (F R : memoryState -> memoryState -> Prop) `{!PreOrder F, !PreOrder R}
    now s req :
  (forall s1 s2, F s1 s2 -> R s1 s2) -> (forall s1 s2, F s1 s2 -> executions s2 = executions s1) ->
  (forall s1 s2, quiet s1 s2 -> nodes s2 = nodes s1 -> F s1 s2) ->
  (forall s1 id l, F s1 (foldl (storeExit id) s1 l)) ->
  (forall s1 id act depth l, F s1 (applyArrivalsLocked now s1 id act depth l).1) ->
  (forall s1 id e st msg, executions s1 !! id = Some e -> IsTerminalExecutionStatus st = true ->
     R s1 (finishExecutionLocked now s1 id e st msg)) ->
  R s (commitGroupLocked now s req).1.
Proof.
  intros HF HE Hq Hx Ha Hfin. unfold commitGroupLocked. cbn zeta. set (id := gc_ExecutionID req).
  destruct (groupUnits s !! groupKey id (gc_GroupUnitIdx req)) as [st|]; [|reflexivity].
  destruct (_ || _ || _); [reflexivity|]. destruct (executions s !! id) as [e|] eqn:He; [|reflexivity].
  destruct (IsTerminalExecutionStatus (status e)); [reflexivity|].
  pose proof (Hx s id (gc_Exits req)) as H1.
  set (s1 := foldl (storeExit id) s (gc_Exits req)) in *.
  set (s2 := if decide (gc_Outcome req = GroupOutcomeFailed) then (_ : memoryState) else _).
  assert (H2 : F s s2).
  { etrans; [exact H1|]. unfold s2. case_decide; by apply Hq. }
  clearbody s2. etrans; [apply HF, H2|]. destruct (gc_Fatal req || _).
  - match goal with |- context [finishExecutionLocked now s2 id e ?st ?msg] =>
      assert (H3 : R s2 (finishExecutionLocked now s2 id e st msg));
      [apply Hfin; [by rewrite (HE _ _ H2)|by destruct (_ || _)]|];
      generalize dependent (finishExecutionLocked now s2 id e st msg) end.
    intros s3 H3. rewrite applyGroupDownstream_eq.
    pose proof (Ha s3 id 0 0 (gc_Downstream req)) as H4.
    destruct (applyArrivalsLocked now s3 id 0 0 _) as [s4 [ids sk]]. etrans; [exact H3|by apply HF].
  - rewrite applyGroupDownstream_eq. pose proof (Ha s2 id 0 0 (gc_Downstream req)) as H4.
    destruct (applyArrivalsLocked now s2 id 0 0 _) as [s4 [ids sk]]. by apply HF.
Qed.

(** ** Leases, signals and records *)

Lemma storeNode_quiet s key n : quiet s (storeNode s key n).
Proof.
  unfold storeNode. pose proof (preserve_quiet s key (ns_PrivateOutput n)) as H.
  destruct (preserveOutputPrivacyLocked s key _) as [s1 p]. etrans; [exact H|done].
Qed.

Lemma upsert_quiet now s n : quiet s (upsertNodeLocked now s n).1.
Proof.
  unfold upsertNodeLocked. cbn zeta. set (key := memoryNodeKey _ _).
  pose proof (preserve_quiet s key (ns_PrivateOutput n)) as H.
  destruct (preserveOutputPrivacyLocked s key _) as [s1 p]. etrans; [exact H|].
  by repeat case_match.
Qed.

(** The branches of an operation, each of which stores a node, or nothing of
    interest. *)
Ltac quiet_branches :=
  repeat case_match; simplify_eq/=; try done; (etrans; [apply storeNode_quiet|done]).

Lemma cancelSuspended_quiet now s id name : quiet s (CancelSuspendedNode now s id name).1.
Proof. unfold CancelSuspendedNode. cbn zeta. quiet_branches. Qed.

Lemma acquire_quiet s lease : quiet s (acquireTaskLeaseLocked s lease).1.1.
Proof.
  unfold acquireTaskLeaseLocked. cbn zeta. case_decide; [done|]. set (key := memoryNodeKey _ _).
  destruct (match nodes s !! key with Some n => acquireRefused n lease | None => false end); [done|].
  pose proof (preserve_quiet s key false) as Hq.
  destruct (preserveOutputPrivacyLocked s key false) as [s1 p]. etrans; [exact Hq|done].
Qed.

Lemma acquireChecked_quiet s lease b : quiet s (AcquireTaskLeaseChecked s lease b).1.
Proof.
  unfold AcquireTaskLeaseChecked. cbn zeta. pose proof (acquire_quiet s lease) as H.
  destruct (executions s !! _); [|done]. repeat (case_match; [done|]).
  by destruct (acquireTaskLeaseLocked s lease) as [[s1 prev] ok].
Qed.

Lemma reset_quiet s id name token : quiet s (resetNodeForRetryLocked s id name token).1.
Proof. unfold resetNodeForRetryLocked. cbn zeta. quiet_branches. Qed.

Lemma revoke_quiet s id name token : quiet s (revokeLeaseLocked s id name token).1.
Proof. unfold revokeLeaseLocked. cbn zeta. quiet_branches. Qed.

Lemma claim_quiet s lease : quiet s (ClaimTaskLease s lease).1.1.
Proof. unfold ClaimTaskLease. cbn zeta. quiet_branches. Qed.

Lemma renew_quiet now s id name token deadline :
  quiet s (RenewTaskLease now s id name token deadline).1.
Proof. unfold RenewTaskLease. cbn zeta. by repeat case_match. Qed.

Lemma decrement_quiet s id u b : quiet s (DecrementInDegree s id u b).1.
Proof. unfold DecrementInDegree. by destruct b. Qed.

Lemma resetWithOutbox_steady Q K now s id name token o :
  steady Q K s (ResetNodeForRetryWithOutbox now s id name token o).1.
Proof.
  unfold ResetNodeForRetryWithOutbox. pose proof (reset_quiet s id name (Some token)) as H.
  destruct (resetNodeForRetryLocked s id name _) as [s1 ok]. apply (quiet_steady Q K) in H.
  destruct ok; [|done]. etrans; [exact H|apply put_steady].
Qed.

Lemma revokeWithOutbox_steady Q K now s id name token o :
  steady Q K s (RevokeLeaseWithOutbox now s id name token o).1.
Proof.
  unfold RevokeLeaseWithOutbox. pose proof (revoke_quiet s id name token) as H.
  destruct (revokeLeaseLocked s id name token) as [s1 ok]. apply (quiet_steady Q K) in H.
  destruct ok; [|done]. etrans; [exact H|apply put_steady].
Qed.

Lemma groupAcquire_quiet s lease : quiet s (AcquireGroupLease s lease).1.
Proof. unfold AcquireGroupLease. cbn zeta. by case_match. Qed.

Lemma groupRenew_quiet s id u token deadline : quiet s (RenewGroupLease s id u token deadline).1.
Proof. unfold RenewGroupLease. by case_match. Qed.

Lemma groupExpire_quiet s id u token : quiet s (expireGroupLeaseLocked s id u token).1.
Proof. unfold expireGroupLeaseLocked. by case_match. Qed.

Lemma groupRevoke_steady Q K now s id u token o :
  steady Q K s (RevokeGroupLeaseWithOutbox now s id u token o).1.
Proof.
  unfold RevokeGroupLeaseWithOutbox. case_decide; [reflexivity|]. case_decide; [reflexivity|].
  pose proof (groupExpire_quiet s id u token) as Hq.
  destruct (expireGroupLeaseLocked s id u token) as [s1 ok]. apply (quiet_steady Q K) in Hq.
  destruct ok; [|done]. etrans; [exact Hq|apply put_steady].
Qed.

Lemma suspendOrConsume_quiet s id name spec : quiet s (SuspendOrConsume s id name spec).1.
Proof.
  unfold SuspendOrConsume, suspendOrConsumeMultiLocked. cbn zeta.
  destruct (consumeMulti_shape s id name spec (sp_Signals spec)) as (m & x & E1).
  destruct (consumeFirst_shape s id (sp_Signals spec)) as (m' & E2).
  case_decide.
  - destruct (consumeMulti s id name spec _) as [s1 [p|]]; simpl in *; by rewrite E1.
  - destruct (consumeFirst s id _) as [s1 [p|]]; simpl in *; by rewrite E2.
Qed.

Lemma putEntries_steady Q K now id s l : steady Q K s (foldl (putEntry now id) s l).
Proof.
  revert s. induction l as [|o l IH]; intros s; [reflexivity|]. cbn [foldl].
  etrans; [apply put_steady|apply IH].
Qed.

Lemma suspend_steady Q K now s lease output so po spec old :
  steady Q K s (SuspendTaskLease now s lease output so po spec old).1.
Proof.
  unfold SuspendTaskLease. cbn zeta. set (id := t_ExecutionID _). set (name := t_NodeName _).
  set (key := id +:+ _). destruct (nodes s !! key) as [node|]; [|reflexivity].
  destruct (negb _); [reflexivity|]. pose proof (preserve_quiet s key po) as H.
  destruct (preserveOutputPrivacyLocked s key po) as [s1 p]. cbn [fst] in H.
  set (s2 := if decide (old <> "") then _ else _).
  assert (H2 : quiet s1 s2) by (unfold s2; destruct so; by case_decide). clearbody s2.
  destruct (consume_frame s2 id name spec) as (m & x & E).
  destruct (if decide (sp_Mode spec = _) then _ else _) as [s3 payload]. cbn [fst] in *.
  etrans; [|apply putEntries_steady]. apply quiet_steady.
  etrans; [exact H|]. etrans; [exact H2|]. rewrite E. by destruct payload.
Qed.

Lemma resuspend_quiet s id name sig spec : quiet s (ResuspendAtomic s id name sig spec).1.
Proof. unfold ResuspendAtomic. cbn zeta. by case_match. Qed.

Lemma deliver_quiet w s id sig data : quiet s (DeliverSignal w s id sig data).1.
Proof.
  unfold DeliverSignal, addMultiSignalLocked. cbn zeta.
  destruct (findWaiter id sig w) as [[name spec]|]; [|done]. case_decide; [|done]. by case_match.
Qed.

Lemma deliverWithOutbox_steady Q K now w s id sig data intent :
  steady Q K s (DeliverSignalWithOutbox now w s id sig data intent).1.
Proof.
  unfold DeliverSignalWithOutbox, addMultiSignalLocked, scheduleResumeOutbox, putOutboxLocked. cbn zeta.
  case_decide; [by apply quiet_steady|].
  destruct (findWaiter id sig w) as [[name spec]|]; [|by apply quiet_steady].
  case_decide; [destruct (_ <? _); [by apply quiet_steady|]|]; cbn [fst];
    (etrans; [|apply put_steady]); by apply quiet_steady.
Qed.

Lemma resumeLock_quiet s id name : quiet s (AcquireResumeLock s id name).1.
Proof. unfold AcquireResumeLock. by case_decide. Qed.

Lemma revokeSignal_quiet s id sig : quiet s (RevokeSignal s id sig).1.
Proof. unfold RevokeSignal. by repeat case_match. Qed.

Lemma startChildren_steady Q K now id key s l : steady Q K s (foldl (startChild now id key) s l).
Proof.
  revert s. induction l as [|ce l IH]; intros s; [reflexivity|]. cbn [foldl].
  etrans; [|apply IH]. unfold startChild. etrans; [|apply put_steady]. by apply quiet_steady.
Qed.

Lemma beginExpansionWithOutbox_steady Q K now s lease children entries :
  steady Q K s (BeginTaskExpansionWithOutbox now s lease children entries).1.
Proof.
  unfold BeginTaskExpansionWithOutbox. cbn zeta. repeat (case_match; [reflexivity|]).
  etrans; [|apply startChildren_steady]. by apply quiet_steady.
Qed.

Lemma beginExpansion_quiet s lease : quiet s (BeginTaskExpansion s lease).1.
Proof. unfold BeginTaskExpansion. by case_match. Qed.

Lemma createExpanded_quiet s lease sub : quiet s (CreateExpandedSubExecution s lease sub).1.
Proof. unfold CreateExpandedSubExecution. cbn zeta. by repeat case_match. Qed.

Lemma completeExpanded_quiet s lease child st result :
  quiet s (CompleteExpandedSubExecution s lease child st result).1.
Proof. unfold CompleteExpandedSubExecution. cbn zeta. by repeat case_match. Qed.

Lemma completeSub_quiet s p n c st result : quiet s (CompleteSubExecution s p n c st result).1.
Proof. unfold CompleteSubExecution. cbn [fst]. by case_match. Qed.

Lemma beginSubWorkflow_steady Q K now s lease link entries :
  steady Q K s (BeginSubWorkflowWait now s lease link entries).1.
Proof.
  unfold BeginSubWorkflowWait. cbn zeta. repeat (case_match; [reflexivity|]).
  etrans; [|apply putEntries_steady]. by apply quiet_steady.
Qed.

Lemma recordConclusion_quiet s p n c : quiet s (RecordSubWorkflowConclusion s p n c).1.
Proof. unfold RecordSubWorkflowConclusion. by case_match. Qed.

Lemma claimIdempotency_quiet now s req : quiet s (ClaimIdempotency now s req).1.
Proof.
  unfold ClaimIdempotency, putIdempotencyClaimLocked. cbn zeta.
  by repeat (case_match; simplify_eq/=).
Qed.

Lemma confirmIdempotency_quiet s id token : quiet s (ConfirmIdempotency s id token).
Proof. unfold ConfirmIdempotency. by repeat case_match. Qed.

Lemma releaseIdempotency_quiet s id token : quiet s (ReleaseIdempotency s id token).
Proof. unfold ReleaseIdempotency. by repeat case_match. Qed.

Lemma listCanceling_quiet s t limit : quiet s (ListCancelingExecutions s t limit).1.
Proof. unfold ListCancelingExecutions. by case_match. Qed.

Lemma listDeadline_quiet s t limit : quiet s (ListDeadlineExceededExecutions s t limit).1.
Proof. unfold ListDeadlineExceededExecutions. by case_match. Qed.

Lemma prune_quiet s id : quiet s (pruneTransientSkipAfterTerminal s id).
Proof. unfold pruneTransientSkipAfterTerminal, pruneMirrorStateLocked. by repeat case_match. Qed.

(** ** Outbox operations *)

(** Everything but the outbox stays. *)
Record aside (s s' : memoryState) : Prop := {
  as_life : life_frame s s';
  as_marks : scheduled s' = scheduled s;
  as_admissions : admissions s' = admissions s
}.

#[export] Instance aside_preorder : PreOrder aside.
Proof.
  split; [done|]. intros s1 s2 s3 [A1 B1 C1] [A2 B2 C2]. split; [by etrans|congruence..].
Qed.

Lemma aside_steady Q (K : string -> string -> Prop) s o s' :
  outbox_step s o s' -> (forall id eid, K id eid -> o <> Some (id, eid)) -> aside s s' ->
  steady Q K s s'.
Proof.
  intros Hs Ho [Hl Hm Ha]. split; [|done]. eapply outbox_evolves; eauto. apply Hl.
Qed.

Lemma leaseAll_aside now s id ids : aside s (leaseAll now s id ids).1.
Proof.
  revert s. induction ids as [|x ids IH]; intros s; [reflexivity|]. simpl.
  destruct (outboxOf s id !! x) as [held|]; [|apply IH].
  match goal with |- context [leaseAll now ?s1 id ids] => pose proof (IH s1) as H;
    destruct (leaseAll now s1 id ids) as [s2 out] end.
  etrans; [|exact H]. done.
Qed.

Lemma renew_aside s id renew now : aside s (RenewOutbox s id renew now).1.
Proof.
  unfold RenewOutbox. assert (H : forall acc, aside acc.1 (foldl (renewOne now id) acc renew).1).
  { induction renew as [|r renew IH]; intros acc; [reflexivity|]. cbn [foldl].
    etrans; [|apply IH]. destruct acc as [s1 out]. unfold renewOne. by repeat case_match. }
  apply (H (s, [])).
Qed.

Lemma ack_aside s id eid : aside s (AckOutbox s id eid).
Proof. done. Qed.

Lemma releaseOutbox_aside s id o : aside s (ReleaseOutbox s id o).
Proof. unfold ReleaseOutbox. by case_match. Qed.

Lemma fail_aside s id o maxA : aside s (RecordOutboxFailure s id o maxA).1.
Proof. unfold RecordOutboxFailure. cbn zeta. by repeat case_match. Qed.

Lemma replay_aside now s req : aside s (ReplayDeadLetter now s req).1.
Proof.
  destruct (ReplayDeadLetter_shape now s req) as [|r|stored meta oc aid s' r _ _ _ _ _ E|
    stored meta aid s1 s' r _ _ _ _ _ -> E]; try done; unfold writeReplayReceiptLocked in E; by simplify_eq.
Qed.

Lemma lease_aside s id now limit : aside s (LeaseOutbox s id now limit).1.
Proof. apply leaseAll_aside. Qed.

Lemma ackDeadline_quiet s id : quiet s (AckDeadlineExpired s id).
Proof. done. Qed.

Lemma putOutput_quiet s id name data : quiet s (PutOutput s id name data).
Proof. unfold PutOutput. cbn zeta. etrans; [apply preserve_quiet|done]. Qed.

Lemma createSub_quiet s sub : quiet s (CreateSubExecution s sub).
Proof. done. Qed.

#[export] Hint Resolve withdraw_quiet noteMirror_quiet markPending_quiet preserve_quiet
  commitWrite_quiet storeExits_quiet storeNode_quiet upsert_quiet cancelSuspended_quiet
  acquire_quiet acquireChecked_quiet reset_quiet revoke_quiet claim_quiet renew_quiet
  decrement_quiet groupAcquire_quiet groupRenew_quiet groupExpire_quiet suspendOrConsume_quiet
  resuspend_quiet deliver_quiet resumeLock_quiet revokeSignal_quiet beginExpansion_quiet
  createExpanded_quiet completeExpanded_quiet completeSub_quiet recordConclusion_quiet
  claimIdempotency_quiet confirmIdempotency_quiet releaseIdempotency_quiet listCanceling_quiet
  listDeadline_quiet prune_quiet ackDeadline_quiet putOutput_quiet createSub_quiet : store.
#[export] Hint Resolve put_steady arrivals_steady advance_steady resetWithOutbox_steady
  revokeWithOutbox_steady groupRevoke_steady putEntries_steady suspend_steady
  deliverWithOutbox_steady startChildren_steady beginExpansionWithOutbox_steady
  beginSubWorkflow_steady : store.
#[export] Hint Resolve lease_aside renew_aside ack_aside releaseOutbox_aside fail_aside
  replay_aside : store.

(** ** Executions do not vanish *)

Definition present (Q : string -> Prop) (s s' : memoryState) : Prop :=
  forall id, Q id -> is_Some (executions s !! id) -> is_Some (executions s' !! id).

#[export] Instance present_preorder Q : PreOrder (present Q).
Proof. split; [by intros s id|]. intros s1 s2 s3 H1 H2 id Hq H. by apply H2, H1. Qed.

Lemma present_same Q s s' : executions s' = executions s -> present Q s s'.
Proof. intros E id _. by rewrite E. Qed.

Lemma present_insert Q s s' id e : executions s' = <[id := e]> (executions s) -> present Q s s'.
Proof.
  intros E x _ H. rewrite E. destruct (decide (x = id)) as [->|Hne].
  - by rewrite lookup_insert_eq.
  - by rewrite lookup_insert_ne.
Qed.

Lemma release_present Q now s id : present Q s (releaseWorkflowSlotLocked now s id).
Proof.
  intros x _ H. destruct (release_started now s id x) as [->|(e & _ & _ & ->)]; [done|by eexists].
Qed.

(** Recording an outcome and leaving the slot. *)
Lemma end_present Q now s s1 id e :
  executions s1 = <[id := e]> (executions s) ->
  present Q s (markClosed (releaseWorkflowSlotLocked now s1 id) id).
Proof.
  intros E. etrans; [by eapply present_insert|]. etrans; [apply release_present|].
  intros x _ [y Hy]. simpl. destruct (decide (x = id)) as [->|Hne].
  - rewrite lookup_alter_eq, Hy. by eexists.
  - by rewrite lookup_alter_ne, Hy.
Qed.

Lemma finish_present Q now s id e st msg : present Q s (finishExecutionLocked now s id e st msg).
Proof.
  unfold finishExecutionLocked. destruct (IsTerminalExecutionStatus _); [reflexivity|]. cbn zeta.
  eapply end_present. by rewrite (frame_executions _ _ (withdraw_frame _ _ _)).
Qed.

Lemma update_present Q now s id st msg :
  present Q s (updateExecutionStatusLocked now s id st msg).1.
Proof.
  unfold updateExecutionStatusLocked. destruct (executions s !! id) as [e|]; [|reflexivity].
  destruct (IsTerminalExecutionStatus _); [reflexivity|]. case_decide; [reflexivity|]. cbn zeta.
  set (s1 := if decide _ then _ else s).
  assert (Hs1 : executions s1 = executions s) by (subst s1; by case_decide).
  destruct (IsTerminalExecutionStatus st).
  - eapply end_present. rewrite (frame_executions _ _ (withdraw_frame _ _ _)). simpl. by rewrite Hs1.
  - eapply present_insert. simpl. by rewrite Hs1.
Qed.

Lemma expire_present Q now s limit line :
  present Q s (ExpireQueuedExecutions now s limit line).1.
Proof.
  assert (HA : forall ids s1 projected, present Q s1 (expireAll now s1 ids projected).1).
  { induction ids as [|id ids IH]; intros s1 projected; [reflexivity|]. simpl.
    pose proof (update_present Q now s1 id ExecutionStatusTimeout ConcurrencyQueueTimeoutError) as Hu.
    destruct (updateExecutionStatusLocked _ _ _ _ _) as [s2 ok]. etrans; [exact Hu|apply IH]. }
  unfold ExpireQueuedExecutions. case_decide; [reflexivity|].
  specialize (HA (expiredQueued now s limit line []) s []). cbn zeta. by destruct (expireAll _ _ _ _).
Qed.

Lemma rollback_present (Q : string -> Prop) now s id :
  ~ Q id -> present Q s (rollbackCreatedExecution now s id).
Proof.
  intros Hq x Hx H. unfold rollbackCreatedExecution. simpl.
  rewrite lookup_delete_ne; [by apply (release_present Q)|]. by intros ->.
Qed.

Lemma create_present Q now s e : present Q s (createExecutionLocked now s e).
Proof.
  destruct (create_shape now s e) as (ind & rem & fl & -> & _). by eapply present_insert.
Qed.

Lemma begin_create_present Q hint now s e :
  present Q s (createExecutionLocked now
    (markMirrorCreatePendingLocked (noteMirrorModeLocked hint s e) (ex_ID e)).1 e).
Proof.
  etrans; [apply present_same, (noteMirror_quiet hint s e)|].
  etrans; [apply present_same, (markPending_quiet _ (ex_ID e))|apply create_present].
Qed.

Lemma pause_present Q now s id : present Q s (PauseExecution now s id).1.
Proof.
  unfold PauseExecution. destruct (executions s !! id) as [e|]; [|reflexivity].
  destruct (status e); try reflexivity. by eapply present_insert.
Qed.

Lemma resume_present Q now s id : present Q s (ResumeExecution now s id).1.
Proof.
  unfold ResumeExecution. destruct (executions s !! id) as [e|]; [|reflexivity].
  case_decide; [reflexivity|]. by eapply present_insert.
Qed.

(** ** The store refines the slot machine

    Whatever an operation does, what happens to the slots is a sequence of
    transitions of the slot machine of [Slots]: admissions and releases, and
    nothing else. *)

Section refinement.
Context (sha : string -> string) (lim : string -> Z) (D : Prop).

Definition slot_path : memoryState -> memoryState -> Prop := rtc (slot_step sha lim).

#[local] Instance slot_path_preorder : PreOrder slot_path.
Proof. unfold slot_path. apply _. Qed.

Lemma path_other s s' : same_slots s s' -> slot_path s s'.
Proof. intros H. by apply rtc_once, step_other. Qed.

Lemma path_release now s s1 s2 s' id :
  same_slots s s1 -> releaseWorkflowSlotLocked now s1 id = s2 -> same_slots s2 s' -> slot_path s s'.
Proof.
  intros H1 <- H2. etrans; [by apply path_other|]. etrans; [|by apply path_other].
  apply rtc_once, step_release.
Qed.

Lemma finish_path now s id e st msg : slot_path s (finishExecutionLocked now s id e st msg).
Proof.
  unfold finishExecutionLocked. destruct (IsTerminalExecutionStatus _); [reflexivity|]. cbn zeta.
  eapply path_release; [|reflexivity|done]. etrans; [|apply withdraw_frame]. done.
Qed.

Lemma update_path now s id st msg : slot_path s (updateExecutionStatusLocked now s id st msg).1.
Proof.
  unfold updateExecutionStatusLocked. destruct (executions s !! id) as [e|]; [|reflexivity].
  destruct (IsTerminalExecutionStatus _); [reflexivity|]. case_decide; [reflexivity|]. cbn zeta.
  set (s1 := if decide _ then _ else s).
  assert (Hs1 : same_slots s s1) by (subst s1; by case_decide).
  destruct (IsTerminalExecutionStatus st).
  - eapply path_release; [|reflexivity|done]. etrans; [exact Hs1|]. etrans; [|apply withdraw_frame]. done.
  - apply path_other. by etrans; [exact Hs1|].
Qed.

Lemma expireAll_path now s ids projected : slot_path s (expireAll now s ids projected).1.
Proof.
  revert s projected. induction ids as [|id ids IH]; intros s projected; [reflexivity|]. simpl.
  pose proof (update_path now s id ExecutionStatusTimeout ConcurrencyQueueTimeoutError) as H.
  destruct (updateExecutionStatusLocked _ _ _ _ _) as [s1 ok]. etrans; [exact H|apply IH].
Qed.

Lemma expire_path now s limit line : slot_path s (ExpireQueuedExecutions now s limit line).1.
Proof.
  unfold ExpireQueuedExecutions. case_decide; [reflexivity|].
  pose proof (expireAll_path now s (expiredQueued now s limit line []) []) as Hp. cbn zeta.
  by destruct (expireAll _ _ _ _).
Qed.

Lemma rollback_path now s id : slot_path s (rollbackCreatedExecution now s id).
Proof. unfold rollbackCreatedExecution. cbn zeta. by eapply path_release. Qed.

Lemma create_same_slots now s e : same_slots s (createExecutionLocked now s e).
Proof. unfold createExecutionLocked. cbn zeta. by repeat case_match. Qed.

Lemma begin_create_path hint now s e :
  slot_path s (createExecutionLocked now
    (markMirrorCreatePendingLocked (noteMirrorModeLocked hint s e) (ex_ID e)).1 e).
Proof.
  apply path_other. etrans; [apply (noteMirror_quiet hint s e)|].
  etrans; [apply (markPending_quiet _ (ex_ID e))|apply create_same_slots].
Qed.

Lemma pause_path now s id : slot_path s (PauseExecution now s id).1.
Proof. apply path_other. unfold PauseExecution. by repeat case_match. Qed.

Lemma resume_path now s id : slot_path s (ResumeExecution now s id).1.
Proof. apply path_other. unfold ResumeExecution. by repeat case_match. Qed.

(** ** Sound operations

    Monotone, keeping the lifecycle invariant and, where the admissions declare
    the limits of [lim] (that is [D]), within the slot machine. *)
Record sound (Q : string -> Prop) (K : string -> string -> Prop) (s s' : memoryState) : Prop := {
  so_evolves : evolves Q K s s';
  so_path : D -> slot_path s s';
  so_present : present Q s s';
  so_life : life_inv s -> life_inv s'
}.

#[export] Instance sound_preorder Q K : PreOrder (sound Q K).
Proof.
  split; [by intros s; split|]. intros s1 s2 s3 [A1 B1 C1 D1] [A2 B2 C2 D2].
  split; [by etrans|intros d; etrans; auto|by etrans|auto].
Qed.

Lemma steady_sound Q K s s' : steady Q K s s' -> sound Q K s s'.
Proof. intros [H1 H2]. split; [done|intros _; apply path_other, H2|apply present_same, H2|by apply life_inv_frame]. Qed.

Lemma quiet_sound Q K s s' : quiet s s' -> sound Q K s s'.
Proof. intros H. by apply steady_sound, quiet_steady. Qed.

Lemma finish_sound Q K now s id e st msg :
  executions s !! id = Some e -> IsTerminalExecutionStatus st = true ->
  sound Q K s (finishExecutionLocked now s id e st msg).
Proof.
  intros He Ht. split; [by apply finish_evolves|intros _; apply finish_path|apply finish_present|].
  intros H. by apply finish_life_inv.
Qed.

Lemma update_sound Q K now s id st msg :
  sound Q K s (updateExecutionStatusLocked now s id st msg).1.
Proof.
  split; [apply update_evolves|intros _; apply update_path|apply update_present|apply update_life_inv].
Qed.

Lemma commit_sound Q K now s req :
  (req_CyclicComplete req = true -> IsTerminalExecutionStatus (req_CyclicFinalStatus req) = true) ->
  sound Q K s (commitNodeLocked now s req).1.
Proof.
  intros Hc. apply (commit_rel_steps (steady Q K) (sound Q K)).
  - apply steady_sound.
  - intros s1 s2 [_ H]. by apply frame_executions.
  - intros s1 c. apply quiet_steady, commitWrite_quiet.
  - intros s1 f. by apply quiet_steady.
  - intros s1 f. by apply quiet_steady.
  - intros s1 id o. apply put_steady.
  - intros s1 id act depth l. apply arrivals_steady.
  - intros s1 e st msg He Hst. apply finish_sound; [done|]. destruct Hst as [?|[? ->]]; auto.
Qed.

Lemma commitGroup_sound Q K now s req : sound Q K s (commitGroupLocked now s req).1.
Proof.
  apply (commitGroup_rel (steady Q K) (sound Q K)).
  - apply steady_sound.
  - intros s1 s2 [_ H]. by apply frame_executions.
  - intros s1 s2 H _. by apply quiet_steady.
  - intros s1 id l. apply quiet_steady, storeExits_quiet.
  - intros s1 id act depth l. apply arrivals_steady.
  - intros s1 id e st msg He Ht. by apply finish_sound.
Qed.

Lemma hold_steady Q K s id : steady Q K s (holdOutboxLocked s id).
Proof.
  split; [|done]. split; try done. intros x eid _ _ [H|H]; [|by left; right]. left; left.
  destruct (decide (x = id)) as [->|Hne].
  - rewrite outboxOf_hold, lookup_fmap. by apply fmap_is_Some.
  - rewrite (outboxOf_other s); [done|]. simpl. by rewrite lookup_alter_ne.
Qed.

Lemma holdWhilePending_steady Q K s id : steady Q K s (holdWhilePending s id).
Proof.
  unfold holdWhilePending. case_decide; [|reflexivity]. repeat case_match; try reflexivity.
  apply hold_steady.
Qed.

(** A unit of the created execution is marked. *)
Lemma mark_steady (Q : string -> Prop) K s id u v :
  ~ Q id -> steady Q K s (s <| scheduled ::= <[memoryCounterKey id u := v]> |>).
Proof.
  intros Hq. split; [|done]. split; try done.
  - intros x eid _ _ Hk. by left.
  - intros x u' Hx _ _. simpl. rewrite marker_insert, decide_False; [done|].
    by intros [-> _]%memoryCounterKey_inj.
Qed.

Lemma recordSeedUnits_steady (Q : string -> Prop) K id s units :
  ~ Q id -> steady Q K s (foldl (recordSeedUnit id) s units).
Proof.
  intros Hq. revert s. induction units as [|u units IH]; intros s; [reflexivity|]. cbn [foldl].
  etrans; [|apply IH]. unfold recordSeedUnit. set (key := memoryNodeKey _ _).
  pose proof (preserve_quiet s key (su_PrivateOutput u)) as H.
  destruct (preserveOutputPrivacyLocked s key _) as [s1 p]. cbn [fst] in H.
  etrans; [apply quiet_steady, H|]. cbn zeta. etrans; [|by apply mark_steady]. by apply quiet_steady.
Qed.

Lemma seedArrivals_steady Q K now id acc units :
  steady Q K acc.1 (foldl (seedArrivals now id) acc units).1.
Proof.
  revert acc. induction units as [|u units IH]; intros [s sk]; [reflexivity|]. cbn [foldl].
  etrans; [|apply IH]. unfold seedArrivals. rewrite applyGroupDownstream_eq.
  pose proof (arrivals_steady Q K now s id 0 0 (su_Downstream u)) as H.
  by destruct (applyArrivalsLocked now s id 0 0 _) as [s1 [ids more]].
Qed.

Lemma writeInitialIntents_steady (Q : string -> Prop) K now s id entries t :
  ~ Q id -> steady Q K s (writeInitialIntentsLocked now s id entries t).
Proof. intros Hq. split; [by apply writeInitialIntents_evolves|apply writeInitialIntents_frame]. Qed.

(** The slot decision and the create, in one critical section. *)
Definition declared (a : ConcurrencyAdmission) : Prop :=
  ca_Limit a = lim (ConcurrencyKey sha (ca_Namespace a) (ca_Workflow a)).

Lemma admit_path now s id a :
  ~ in_slots s id -> (forall x, a = Some x -> declared x) -> slot_path s (admitSeed sha now s id a).1.
Proof.
  intros Hni Hd. destruct a as [a|]; [|reflexivity].
  apply rtc_once, step_admit; [..|by apply Hd]; apply eq_None_not_Some; intros Hs; apply Hni;
    [by left|by right].
Qed.

Lemma admit_refused_life_inv now s id a s1 err :
  life_inv s -> ~ in_slots s id -> admitSeed sha now s id a = (s1, inl err) -> life_inv s1.
Proof.
  intros [H1 H2 H3] Hni E. destruct a as [a|]; [|done]. simpl in E.
  pose proof (chargeOrPark_effect sha now s id a) as [Ee _].
  pose proof (chargeOrPark_refused sha now s id a err) as Href.
  pose proof (chargeOrPark_wf sha now s id a H1) as Hwf. rewrite E in *. cbn [fst snd] in *.
  split; [|rewrite Ee; intros x Hx; apply H2; auto|by rewrite Ee].
  apply Hwf; apply eq_None_not_Some; intros Hs; apply Hni; [by left|by right].
Qed.

Lemma admit_create_life_inv hint now s a s1 pending e :
  life_inv s -> ~ in_slots s (ex_ID e) -> admitSeed sha now s (ex_ID e) a = (s1, inr pending) ->
  IsTerminalExecutionStatus (ex_Status e) = false ->
  life_inv (createExecutionLocked now
    (markMirrorCreatePendingLocked (noteMirrorModeLocked hint s1 e) (ex_ID e)).1 e).
Proof.
  intros [H1 H2 H3] Hni E Ht.
  assert (Hs1 : slots_wf s1 /\ executions s1 = executions s /\
                forall x, in_slots s1 x -> in_slots s x \/ x = ex_ID e).
  { destruct a as [a|]; simpl in E; [|simplify_eq; auto].
    pose proof (chargeOrPark_effect sha now s (ex_ID e) a) as [Ee Hin].
    pose proof (chargeOrPark_wf sha now s (ex_ID e) a H1) as Hwf. rewrite E in *. cbn [fst] in *.
    split_and!; auto. apply Hwf; apply eq_None_not_Some; intros Hs; apply Hni; [by left|by right]. }
  destruct Hs1 as (Hwf & Ee & Hin).
  pose proof (noteMirror_quiet hint s1 e) as [[F1 G1] _ _ _ _].
  pose proof (markPending_quiet (noteMirrorModeLocked hint s1 e) (ex_ID e)) as [[F2 G2] _ _ _ _].
  set (s2 := (markMirrorCreatePendingLocked _ _).1) in *.
  assert (G : same_slots s1 s2) by (by etrans). apply create_life_inv; [|..|done].
  - by apply (slots_wf_same s1).
  - intros x. unfold in_slots. destruct G as (_ & -> & ->). intros Hx. rewrite F2, F1, Ee.
    destruct (Hin x Hx) as [Hx'|]; [|by left]. right. by apply H2.
  - rewrite F2, F1, Ee. done.
Qed.

Lemma admit_refused_sound Q K now s id a s1 err :
  ~ in_slots s id -> (forall x, a = Some x -> D -> declared x) ->
  admitSeed sha now s id a = (s1, inl err) -> sound Q K s s1.
Proof.
  intros Hni Hd E. split.
  - destruct a as [a|]; [|done]. pose proof (charge_evolves Q K sha now s id a) as H.
    simpl in E. by rewrite E in H.
  - intros d. pose proof (admit_path now s id a Hni (fun x Hx => Hd x Hx d)) as H.
    by rewrite E in H.
  - apply present_same. destruct a as [a|]; [|done]. simpl in E.
    pose proof (chargeOrPark_effect sha now s id a) as [Ee _]. by rewrite E in Ee.
  - intros HI. by eapply admit_refused_life_inv.
Qed.

Lemma admit_create_sound (Q : string -> Prop) K hint now s a s1 pending e :
  ~ Q (ex_ID e) -> ~ in_slots s (ex_ID e) -> (forall x, a = Some x -> D -> declared x) ->
  admitSeed sha now s (ex_ID e) a = (s1, inr pending) ->
  IsTerminalExecutionStatus (ex_Status e) = false ->
  sound Q K s (createExecutionLocked now
    (markMirrorCreatePendingLocked (noteMirrorModeLocked hint s1 e) (ex_ID e)).1 e).
Proof.
  intros Hq Hni Hd E Ht. split.
  - etrans; [|by apply begin_create_evolves]. destruct a as [a|]; simpl in E; [|by simplify_eq].
    pose proof (charge_evolves Q K sha now s (ex_ID e) a) as H. by rewrite E in H.
  - intros d. etrans; [|apply begin_create_path].
    pose proof (admit_path now s (ex_ID e) a Hni (fun x Hx => Hd x Hx d)) as H.
    by rewrite E in H.
  - etrans; [|apply begin_create_present]. apply present_same.
    destruct a as [a|]; simpl in E; [|by simplify_eq].
    pose proof (chargeOrPark_effect sha now s (ex_ID e) a) as [Ee _]. by rewrite E in Ee.
  - intros HI. by eapply admit_create_life_inv.
Qed.

Lemma create_concurrency_sound (Q : string -> Prop) K hint now s e entries a :
  ~ Q (ex_ID e) -> ~ in_slots s (ex_ID e) -> (D -> declared a) ->
  sound Q K s (CreateExecutionWithConcurrency sha hint now s e entries a).1.
Proof.
  intros Hq Hni Hd. unfold CreateExecutionWithConcurrency.
  assert (Hd' : forall x, Some a = Some x -> D -> declared x) by (by intros x [= <-]).
  destruct (chargeOrParkLocked sha now s (ex_ID e) a) as [s1 [err|pending]] eqn:E.
  { by apply (admit_refused_sound Q K now s (ex_ID e) (Some a) s1 err). }
  set (e' := e <| ex_Status := _ |>).
  pose proof (admit_create_sound Q K hint now s (Some a) s1 pending e' Hq Hni Hd' E
                ltac:(by destruct pending)) as H.
  change (ex_ID e') with (ex_ID e) in H. cbn zeta.
  destruct (markMirrorCreatePendingLocked _ _) as [s2 hold]. cbn [fst] in *.
  etrans; [exact H|]. by apply steady_sound, writeInitialIntents_steady.
Qed.

Lemma completeSeed_sound Q K now s id g : sound Q K s (completeSeed now s id g).
Proof.
  unfold completeSeed. destruct (acyclicGraph g); [|reflexivity].
  destruct (executions s !! id) eqn:He; [|reflexivity]. destruct (_ <=? 0); [|reflexivity].
  apply finish_sound; [done|by case_match].
Qed.

(** What follows the create of a seed. *)
Lemma hold_if_steady Q K (b : bool) s id :
  steady Q K s (holdWhilePending (if b then holdOutboxLocked s id else s) id).
Proof. etrans; [|apply holdWhilePending_steady]. destruct b; [apply hold_steady|reflexivity]. Qed.

Lemma placeSeed_sound (Q : string -> Prop) K now s e req :
  ~ Q (ex_ID e) -> sound Q K s (placeSeed now s e req).1.
Proof.
  intros Hq. unfold placeSeed. cbn zeta.
  etrans; [apply steady_sound, (recordSeedUnits_steady Q K (ex_ID e) s (sq_Units req)); done|].
  set (s1 := foldl _ s _).
  set (s2 := if acyclicGraph _ then _ else s1).
  etrans; [apply (quiet_sound Q K s1 s2); subst s2; by case_match|].
  pose proof (seedArrivals_steady Q K now (ex_ID e) (s2, []) (sq_Units req)) as H.
  destruct (foldl _ (s2, []) _) as [s3 skipped]. cbn [fst] in H.
  etrans; [apply steady_sound, H|].
  etrans; [apply steady_sound, writeInitialIntents_steady; exact Hq|].
  etrans; [apply completeSeed_sound|]. apply steady_sound, hold_if_steady.
Qed.

Lemma seed_sound (Q : string -> Prop) K hint now s req :
  (forall e, sq_Execution req = Some e -> ~ Q (ex_ID e) /\ ~ in_slots s (ex_ID e)) ->
  (forall a, sq_Admission req = Some a -> D -> declared a) ->
  sound Q K s (seedExecution sha hint now s req).1.
Proof.
  intros He Hd. unfold seedExecution. destruct (sq_Execution req) as [e|]; [|reflexivity].
  destruct (find _ _); [reflexivity|]. destruct (He e eq_refl) as [Hq Hni].
  destruct (admitSeed _ _ _ _ _) as [s1 [err|pending]] eqn:E; [by eapply admit_refused_sound|].
  set (e' := e <| ex_Status := _ |>).
  pose proof (admit_create_sound Q K hint now s _ s1 pending e' Hq Hni Hd E
                ltac:(by destruct pending)) as HC.
  etrans; [exact HC|]. cbn zeta. change (ex_ID e') with (ex_ID e) in *.
  set (s2 := createExecutionLocked _ _ _).
  pose proof (placeSeed_sound Q K now s2 e req Hq) as HP. by destruct (placeSeed _ _ _ _).
Qed.

(** ** Entry admissions *)

Lemma resolveRoots_steady (Q : string -> Prop) K now id s l :
  ~ Q id -> steady Q K s (foldl (resolveRoot now id) s l).
Proof.
  intros Hq. revert s. induction l as [|t l IH]; intros s; [reflexivity|]. cbn [foldl].
  etrans; [|apply IH]. unfold resolveRoot. case_decide; [reflexivity|].
  etrans; [by apply mark_steady|apply put_steady].
Qed.

Lemma entryCount_sound Q K now s id req : sound Q K s (entryCount now s id req).
Proof.
  unfold entryCount. destruct (acyclicGraph _); [|reflexivity]. cbn zeta.
  set (s1 := if bool_decide _ then _ else _).
  assert (H1 : quiet s s1) by (subst s1; by case_bool_decide).
  etrans; [apply quiet_sound, H1|]. destruct (_ || _); [|reflexivity].
  destruct (executions s1 !! id) eqn:E; [|reflexivity]. apply finish_sound; [done|by case_match].
Qed.

Lemma entryEffects_sound (Q : string -> Prop) K now s id req :
  ~ Q id -> sound Q K s (entryEffects now s id req).1.
Proof.
  intros Hq. unfold entryEffects. cbn zeta. set (s1 := s <| groupUnits ::= _ |>).
  etrans; [apply (quiet_sound Q K s s1); done|]. etrans; [apply quiet_sound, (storeExits_quiet id s1 (er_Exits req))|].
  etrans; [apply (entryCount_sound Q K now _ id req)|]. set (s2 := entryCount _ _ _ _).
  match goal with |- context [if ?c then ?x else (s2, [])] => set (r := if c then x else (s2, [])) end.
  assert (Hr : steady Q K s2 r.1).
  { subst r. destruct (_ || _); [|reflexivity]. rewrite applyGroupDownstream_eq.
    pose proof (arrivals_steady Q K now s2 id 0 0 (er_Downstream req)) as H.
    by destruct (applyArrivalsLocked now s2 id 0 0 _) as [s3 [ids more]]. }
  destruct r as [s3 skipped]. etrans; [apply steady_sound, Hr|]. cbn [fst].
  destruct (match executions s3 !! id with Some _ => _ | None => _ end); [|reflexivity].
  by apply steady_sound, resolveRoots_steady.
Qed.

Lemma newAdmission_evolves Q K s s1 k a :
  evolves Q K s s1 -> admissions s !! k = None ->
  evolves Q K s (s1 <| admissions ::= <[k := a]> |>).
Proof.
  intros [H1 H2 H3 H4] Hk. split; try done. intros k' a' Hq Ha. simpl.
  rewrite lookup_insert_ne; [by apply H4|]. intros ->. congruence.
Qed.

Lemma newAdmission_sound Q K s s1 k a :
  sound Q K s s1 -> admissions s !! k = None -> sound Q K s (s1 <| admissions ::= <[k := a]> |>).
Proof.
  intros [H1 H2 HP H3] Hk. split; [by apply newAdmission_evolves| |by apply HP|].
  { intros d. by etrans; [apply H2|apply path_other]. }
  intros HI. by apply (life_inv_frame s1), H3.
Qed.

Lemma entry_sound (Q : string -> Prop) K hint ns now s req a :
  let id := DeterministicExecutionID sha (er_AdmissionKey req) in
  (admissions s !! er_AdmissionKey req = None -> ~ Q id /\ ~ in_slots s id) ->
  (forall x, a = Some x -> D -> declared x) ->
  sound Q K s (seedExecutionFromEntryLocked sha hint ns now s req a).1.1.
Proof.
  intros id Hn Hd. unfold seedExecutionFromEntryLocked. cbn zeta. fold id.
  destruct (admissions s !! er_AdmissionKey req) eqn:Hadm; [reflexivity|].
  destruct (Hn eq_refl) as [Hq Hni].
  destruct (admitSeed _ _ _ _ _) as [s1 [err|pending]] eqn:E; [by eapply admit_refused_sound|].
  set (e := entrySnapshot _ _ _ _ _). assert (Hid : ex_ID e = id).
  { unfold e, entrySnapshot. repeat case_match; done. }
  assert (Hst : IsTerminalExecutionStatus (ex_Status e) = false).
  { unfold e, entrySnapshot. destruct pending; repeat case_match; done. }
  pose proof (admit_create_sound Q K hint now s a s1 pending e) as HC. rewrite Hid in HC.
  specialize (HC Hq Hni Hd E Hst). set (s2 := createExecutionLocked _ _ _) in *.
  pose proof (entryEffects_sound Q K now s2 id req Hq) as HE.
  destruct (entryEffects now s2 id req) as [s3 skipped]. cbn [fst] in *.
  apply newAdmission_sound; [|done]. etrans; [exact HC|]. etrans; [exact HE|].
  apply steady_sound, hold_if_steady.
Qed.

End refinement.
