(* ===== verification/Typed.v ===== *)
(** * Every record under its own name

    The well-formedness of the store's maps: an execution row, a node record, an
    intent and a dead letter is filed under the key its own fields spell, intents
    have non-empty ids, and no empty outbox is kept for an execution without
    intents.  Every operation of the store keeps it. *)

From S2P Require Import Prelude Keys Types Graph Units State Slots Executions Outbox Lease Commit Groups Signals Records Seeding System.

(** ** The invariant *)

Definition namedRow (id : string) (e : execEntry) : Prop := ex_ID (snap e) = id.
Definition namedNode (key : string) (n : NodeSnapshot) : Prop :=
  key = memoryNodeKey (ns_ExecutionID n) (ns_Name n).
Definition namedIntent (key : string) (e : memoryOutboxEntry) : Prop :=
  key <> "" /\ oe_ID (ob_entry e) = key.

Definition filed (m : gmap string (gmap string memoryOutboxEntry)) : Prop :=
  map_Forall (fun _ es => es <> ∅ /\ map_Forall namedIntent es) m.

Record typed (s : memoryState) : Prop := {
  ty_rows : map_Forall namedRow (executions s);
  ty_nodes : map_Forall namedNode (nodes s);
  ty_outbox : filed (outbox s);
  ty_dead : filed (deadOutbox s)
}.

(** What keeps the invariant. *)
Definition keepsTyped (s s' : memoryState) : Prop := typed s -> typed s'.

#[export] Instance keepsTyped_order : PreOrder keepsTyped.
Proof. split; [by intros s|]. intros s1 s2 s3 H1 H2 H. by apply H2, H1. Qed.

(** ** Writing the maps *)

Lemma typed_same s s' :
  executions s' = executions s -> nodes s' = nodes s -> outbox s' = outbox s ->
  deadOutbox s' = deadOutbox s -> keepsTyped s s'.
Proof. intros E1 E2 E3 E4 [H1 H2 H3 H4]. split; by rewrite ?E1, ?E2, ?E3, ?E4. Qed.

Lemma typed_row s id e :
  ex_ID (snap e) = id -> keepsTyped s (s <| executions ::= <[id := e]> |>).
Proof. intros He [H1 H2 H3 H4]. split; try done. by apply map_Forall_insert_2. Qed.

Lemma typed_node s n key :
  namedNode key n -> keepsTyped s (s <| nodes ::= <[key := n]> |>).
Proof. intros Hn [H1 H2 H3 H4]. split; try done. by apply map_Forall_insert_2. Qed.

Lemma filed_insert m id es :
  filed m -> es <> ∅ -> map_Forall namedIntent es -> filed (<[id := es]> m).
Proof. intros. by apply map_Forall_insert_2. Qed.

Lemma filed_lookup m id : filed m -> map_Forall namedIntent (default ∅ (m !! id)).
Proof. intros H. destruct (m !! id) eqn:E; cbn; [by eapply H|apply map_Forall_empty]. Qed.

Lemma filed_put m id key e :
  filed m -> namedIntent key e -> filed (<[id := <[key := e]> (default ∅ (m !! id))]> m).
Proof.
  intros H He. apply filed_insert; [done|apply insert_non_empty|].
  apply map_Forall_insert_2; [done|by apply filed_lookup].
Qed.

Lemma filed_alter m id (f : memoryOutboxEntry -> memoryOutboxEntry) :
  (forall e, oe_ID (ob_entry (f e)) = oe_ID (ob_entry e)) -> filed m -> filed (alter (fmap f) id m).
Proof.
  intros Hf H x es Hx. destruct (decide (x = id)) as [->|Hne];
    [|rewrite lookup_alter_ne in Hx by done; by apply (H x)].
  rewrite lookup_alter_eq in Hx. apply fmap_Some in Hx as (es0 & E & ->).
  destruct (H _ _ E) as [Hne Hn]. split; [by rewrite fmap_empty_iff|].
  intros key e He. rewrite lookup_fmap in He. apply fmap_Some in He as (e0 & E0 & ->).
  unfold namedIntent. rewrite Hf. by apply Hn.
Qed.

Lemma filed_delete m id key : filed m -> filed (deleteEntry id key m).
Proof.
  intros H. unfold deleteEntry. destruct (m !! id) as [es|] eqn:E; [|done]. destruct (H _ _ E) as [_ Hn].
  case_decide; [by apply map_Forall_delete|]. apply filed_insert; [done|done|].
  by apply map_Forall_delete.
Qed.

Lemma filed_set m id key e :
  filed m -> is_Some (default ∅ (m !! id) !! key) -> oe_ID (ob_entry e) = key ->
  filed (alter <[key := e]> id m).
Proof.
  intros H [e0 H0] He. destruct (m !! id) as [es|] eqn:E; cbn in H0; [|by rewrite lookup_empty in H0].
  replace (alter <[key := e]> id m) with (<[id := <[key := e]> (default ∅ (m !! id))]> m).
  - apply filed_put; [done|]. split; [|done]. by apply (proj2 (H _ _ E) key e0).
  - apply map_eq. intros x. destruct (decide (x = id)) as [->|Hne].
    + by rewrite lookup_insert_eq, lookup_alter_eq, E.
    + by rewrite lookup_insert_ne, lookup_alter_ne.
Qed.

(** ** Node records *)

Lemma named_as key n n' :
  ns_ExecutionID n' = ns_ExecutionID n -> ns_Name n' = ns_Name n -> namedNode key n ->
  namedNode key n'.
Proof. unfold namedNode. by intros -> ->. Qed.

Lemma named_private p key n : namedNode key n -> namedNode key (withPrivacy p n).
Proof. apply named_as; by destruct p. Qed.

Lemma preserve_typed s key b : keepsTyped s (preserveOutputPrivacyLocked s key b).1.
Proof.
  intros HT. unfold preserveOutputPrivacyLocked. destruct (b || _); [|done]. cbn zeta.
  destruct (nodes _ !! key) as [n|] eqn:E; [destruct (_ || _)|];
    try (by eapply typed_same; [..|exact HT]).
  eapply (typed_node (s <| privateOutputs ::= fun m => {[key]} ∪ m |>));
    [|by eapply typed_same; [..|exact HT]].
  eapply named_as; [..|exact (ty_nodes _ HT key n E)]; done.
Qed.

Lemma storeNode_typed s key n : namedNode key n -> keepsTyped s (storeNode s key n).
Proof.
  intros Hn. unfold storeNode. pose proof (preserve_typed s key (ns_PrivateOutput n)) as H.
  destruct (preserveOutputPrivacyLocked s key _) as [s1 p]. etrans; [exact H|].
  by apply typed_node, named_private.
Qed.

(** Rewriting a node in place. *)
Lemma typed_alter s key f :
  (forall n, ns_ExecutionID (f n) = ns_ExecutionID n) -> (forall n, ns_Name (f n) = ns_Name n) ->
  keepsTyped s (s <| nodes ::= alter f key |>).
Proof.
  intros H1 H2 [T1 T2 T3 T4]. split; try done. intros k n. simpl. intros Hk.
  destruct (decide (k = key)) as [->|Hne]; [|rewrite lookup_alter_ne in Hk by done; by apply T2].
  rewrite lookup_alter_eq in Hk. apply fmap_Some in Hk as (n0 & E & ->).
  eapply named_as; [by rewrite H1|by rewrite H2|]. by apply T2.
Qed.

Lemma upsert_typed now s n : keepsTyped s (upsertNodeLocked now s n).1.
Proof.
  unfold upsertNodeLocked. cbn zeta. set (key := memoryNodeKey _ _).
  pose proof (preserve_typed s key (ns_PrivateOutput n)) as H.
  destruct (preserveOutputPrivacyLocked s key _) as [s1 p]. etrans; [exact H|].
  destruct (match nodes s1 !! key with Some _ => _ | None => _ end); [reflexivity|].
  apply typed_node, named_private. unfold key, namedNode.
  destruct (nodes s1 !! _); repeat case_match; reflexivity.
Qed.

Lemma acquire_typed s lease : keepsTyped s (acquireTaskLeaseLocked s lease).1.1.
Proof.
  unfold acquireTaskLeaseLocked. cbn zeta. case_decide; [reflexivity|]. set (key := memoryNodeKey _ _).
  destruct (match nodes s !! key with Some n => acquireRefused n lease | None => false end);
    [reflexivity|]. pose proof (preserve_typed s key false) as Hq.
  destruct (preserveOutputPrivacyLocked s key false) as [s1 p]. etrans; [exact Hq|].
  apply typed_node. by destruct (nodes s !! key).
Qed.

Lemma acquireChecked_typed s lease b : keepsTyped s (AcquireTaskLeaseChecked s lease b).1.
Proof.
  unfold AcquireTaskLeaseChecked. cbn zeta. pose proof (acquire_typed s lease) as H.
  destruct (executions s !! _); [|done]. repeat (case_match; [done|]).
  by destruct (acquireTaskLeaseLocked s lease) as [[s1 prev] ok].
Qed.

(** The branches of an operation, each of which writes a node it found, or
    nothing. *)
Ltac node_branches HT :=
  repeat case_match; simplify_eq/=; try done;
  repeat match goal with
  | E : nodes ?s !! ?key = Some ?n |- _ => pose proof (ty_nodes s HT key n E); clear E
  end;
  first [ eapply storeNode_typed | eapply typed_node ];
  try (eapply named_as; [..|eassumption]; by repeat case_match);
  try (eapply typed_same; [..|exact HT]; done).

Lemma cancelSuspended_typed now s id name : keepsTyped s (CancelSuspendedNode now s id name).1.
Proof.
  intros HT. unfold CancelSuspendedNode. cbn zeta. destruct (nodes s !! _) as [n|] eqn:E; [|done].
  case_decide; [done|]. cbn [fst]. set (cp := if IsZero _ then _ else _).
  apply (typed_same (storeNode s (memoryNodeKey id name) cp)); [done..|].
  apply storeNode_typed; [|exact HT]. eapply named_as; [..|exact (ty_nodes s HT _ n E)];
    unfold cp; by case_match.
Qed.

Lemma reset_typed s id name token : keepsTyped s (resetNodeForRetryLocked s id name token).1.
Proof. intros HT. unfold resetNodeForRetryLocked. cbn zeta. node_branches HT. Qed.

Lemma revoke_typed s id name token : keepsTyped s (revokeLeaseLocked s id name token).1.
Proof. intros HT. unfold revokeLeaseLocked. cbn zeta. node_branches HT. Qed.

Lemma claim_typed s lease : keepsTyped s (ClaimTaskLease s lease).1.1.
Proof. intros HT. unfold ClaimTaskLease. cbn zeta. node_branches HT. Qed.

Lemma renew_typed now s id name token deadline :
  keepsTyped s (RenewTaskLease now s id name token deadline).1.
Proof. intros HT. unfold RenewTaskLease. cbn zeta. node_branches HT. Qed.

Lemma commitWrite_typed now s req current : keepsTyped s (commitWriteNode now s req current).
Proof.
  unfold commitWriteNode. cbn zeta. set (key := memoryNodeKey _ _).
  pose proof (preserve_typed s key (req_PrivateOutput req)) as H.
  destruct (preserveOutputPrivacyLocked s key _) as [s1 p]. cbn [fst] in H.
  set (s2 := s1 <| nodes ::= _ |>). assert (H2 : keepsTyped s s2).
  { etrans; [exact H|]. apply typed_node. unfold namedNode, key, committedNode. cbn zeta.
    repeat case_match; reflexivity. }
  clearbody s2. etrans; [exact H2|]. apply typed_same; by repeat case_match.
Qed.

(** ** Intents *)

Lemma put_typed now s id o : keepsTyped s (putOutboxEntryLocked now s id o).1.
Proof.
  unfold putOutboxEntryLocked. case_decide as Hid; [done|]. cbn zeta.
  destruct (outboxOf s id !! oe_ID o); [done|]. intros [T1 T2 T3 T4]. cbn [fst]. split; try done.
  cbn. apply (filed_put (outbox s)); [done|]. split; cbn; by destruct (IsZero _).
Qed.

Lemma putEntries_typed now id s l : keepsTyped s (foldl (putEntry now id) s l).
Proof.
  revert s. induction l as [|o l IH]; intros s; [done|]. cbn [foldl].
  etrans; [apply put_typed|apply IH].
Qed.

(** Rewriting an intent in place. *)
Lemma set_typed s id key e e' :
  outboxOf s id !! key = Some e -> oe_ID (ob_entry e') = oe_ID (ob_entry e) ->
  keepsTyped s (setOutbox s id key e').
Proof.
  intros He Hid [T1 T2 T3 T4]. split; try done. apply filed_set; [done|by exists e|].
  rewrite Hid. by apply (filed_lookup _ id T3 key e).
Qed.

Lemma alterOutbox_typed s id (f : memoryOutboxEntry -> memoryOutboxEntry) :
  (forall e, oe_ID (ob_entry (f e)) = oe_ID (ob_entry e)) ->
  keepsTyped s (s <| outbox ::= alter (fmap f) id |>).
Proof. intros Hf [T1 T2 T3 T4]. split; try done. by apply filed_alter. Qed.

Lemma leaseAll_typed now s id ids : keepsTyped s (leaseAll now s id ids).1.
Proof.
  revert s. induction ids as [|x ids IH]; intros s; [done|]. cbn [leaseAll].
  destruct (outboxOf s id !! x) as [held|] eqn:E; [|apply IH]. cbn zeta.
  match goal with |- context [leaseAll now ?s1 id ids] => pose proof (IH s1) as H;
    destruct (leaseAll now s1 id ids) as [s2 out] end.
  etrans; [|exact H]. by eapply set_typed.
Qed.

Lemma renewOutbox_typed s id renew now : keepsTyped s (RenewOutbox s id renew now).1.
Proof.
  unfold RenewOutbox. assert (H : forall acc, keepsTyped acc.1 (foldl (renewOne now id) acc renew).1).
  { induction renew as [|r renew IH]; intros acc; [done|]. cbn [foldl].
    etrans; [|apply IH]. destruct acc as [s1 out]. unfold renewOne. cbn zeta.
    destruct (outboxOf s1 id !! oe_ID r) eqn:E; [|done]. repeat (case_match; [done|]).
    by eapply set_typed. }
  apply (H (s, [])).
Qed.

Lemma ack_typed s id eid : keepsTyped s (AckOutbox s id eid).
Proof. intros [T1 T2 T3 T4]. split; try done. by apply filed_delete. Qed.

Lemma releaseOutbox_typed s id o : keepsTyped s (ReleaseOutbox s id o).
Proof.
  unfold ReleaseOutbox. destruct (outboxOf s id !! oe_ID o) eqn:E; [|done]. by eapply set_typed.
Qed.

Lemma fail_typed s id o maxA : keepsTyped s (RecordOutboxFailure s id o maxA).1.
Proof.
  unfold RecordOutboxFailure. cbn zeta. destruct (outboxOf s id !! oe_ID o) as [e|] eqn:E; [|done].
  destruct (_ <=? _); [|by eapply set_typed]. intros [T1 T2 T3 T4].
  split; try done; cbn; [by apply filed_delete|]. apply filed_put; [done|].
  by apply (filed_lookup _ id T3 (oe_ID o) e).
Qed.

Lemma receipt_typed now s req requestID auditID meta oc :
  keepsTyped s (writeReplayReceiptLocked now s req requestID auditID meta oc).1.
Proof. by apply typed_same. Qed.

Lemma replay_typed now s req : keepsTyped s (ReplayDeadLetter now s req).1.
Proof.
  unfold ReplayDeadLetter. cbn zeta. case_decide as Hid; [done|].
  destruct (priorReceipt s req); [done|].
  destruct (default ∅ (deadOutbox s !! rq_ExecutionID req) !! rq_EntryID req) as [e|] eqn:E; [|done].
  destruct (replayGuard _ _ _); [by apply typed_same|]. intros [T1 T2 T3 T4].
  split; try done; cbn; [|by apply filed_delete]. apply (filed_put (outbox s)); [done|].
  by apply (filed_lookup _ (rq_ExecutionID req) T4 (rq_EntryID req) e).
Qed.

(** ** Slots and ends *)

Lemma completePromotion_typed now s id : keepsTyped s (completePromotionLocked now s id).
Proof.
  intros HT. unfold completePromotionLocked, unpark. cbn zeta.
  match goal with |- context [if decide (id ∈ mirrorCreatePending ?s2) then _ else _] =>
    set (s1 := s2); assert (H1 : typed s1) end.
  { unfold s1. destruct (executions s !! id) as [e|] eqn:E; [|done]. case_decide; [|done].
    apply typed_row; [|done]. exact (ty_rows s HT id e E). }
  clearbody s1. case_decide; [done|]. apply alterOutbox_typed; [|done].
  intros e. by destruct (isHeld e).
Qed.

Lemma promoteLoop_typed fuel now s slot : keepsTyped s (promoteLoop fuel now s slot).1.
Proof.
  revert s slot. induction fuel as [|fuel IH]; intros s slot; [done|]. cbn. unfold promoteOne.
  destruct (ws_queued slot) as [|id line]; [done|]. case_bool_decide; [|done].
  etrans; [|apply IH]. etrans; [|apply completePromotion_typed]. by apply typed_same.
Qed.

Lemma dropHeld_typed s id : keepsTyped s (dropHeldOutboxLocked s id).
Proof.
  intros [T1 T2 T3 T4]. unfold dropHeldOutboxLocked. cbn zeta.
  case_decide; split; try done; cbn; [by apply map_Forall_delete|].
  apply filed_insert; [done..|]. intros key e [He _]%map_lookup_filter_Some.
  by apply (filed_lookup _ id T3 key e).
Qed.

Lemma release_typed now s id : keepsTyped s (releaseWorkflowSlotLocked now s id).
Proof.
  assert (Hset : forall s1 slot, keepsTyped s s1 -> keepsTyped s (Slots.settle now s1 slot)).
  { intros s1 slot H. etrans; [exact H|]. unfold Slots.settle, promoteLocked.
    pose proof (promoteLoop_typed (length (ws_queued slot)) now s1 slot) as Hp.
    destruct (promoteLoop _ now s1 slot) as [s2 sl]. case_bool_decide; [|exact Hp].
    etrans; [exact Hp|]. by apply typed_same. }
  unfold releaseWorkflowSlotLocked. destruct (slotHolders s !! id); [apply Hset; by apply typed_same|].
  destruct (queued s !! id); [|done]. apply Hset. etrans; [|apply dropHeld_typed]. by apply typed_same.
Qed.

Lemma markClosed_typed s id : keepsTyped s (markClosed s id).
Proof.
  intros [T1 T2 T3 T4]. split; try done. intros x e. cbn. intros Hx.
  destruct (decide (x = id)) as [->|Hne]; [|rewrite lookup_alter_ne in Hx by done; by apply T1].
  rewrite lookup_alter_eq in Hx. apply fmap_Some in Hx as (e0 & E & ->). by apply (T1 id e0).
Qed.

Lemma withdraw_typed s id st : keepsTyped s (withdrawDeadlineLocked s id st).
Proof. unfold withdrawDeadlineLocked. case_decide; by apply typed_same. Qed.

Lemma finish_typed now s id e st msg :
  ex_ID (snap e) = id -> keepsTyped s (finishExecutionLocked now s id e st msg).
Proof.
  intros He. unfold finishExecutionLocked. destruct (IsTerminalExecutionStatus _); [done|]. cbn zeta.
  etrans; [|apply markClosed_typed]. etrans; [|apply release_typed]. etrans; [|apply withdraw_typed].
  apply typed_row. by case_decide.
Qed.

Lemma update_typed now s id st msg : keepsTyped s (updateExecutionStatusLocked now s id st msg).1.
Proof.
  intros HT. unfold updateExecutionStatusLocked. destruct (executions s !! id) as [e|] eqn:E; [|done].
  pose proof (ty_rows s HT id e E) as He. destruct (IsTerminalExecutionStatus _); [done|].
  case_decide; [done|]. cbn zeta. set (s0 := if decide _ then _ else s).
  assert (H0 : typed s0) by (unfold s0; case_decide; [by eapply typed_same; [..|exact HT]|done]).
  clearbody s0. set (e1 := if decide (msg <> "") then _ else _).
  assert (H1 : typed (s0 <| executions ::= <[id := e1]> |>))
    by (apply typed_row; [unfold e1; by case_decide|done]).
  set (s1 := s0 <| executions ::= _ |>) in *. clearbody s1.
  destruct (IsTerminalExecutionStatus st); [|done]. cbn [fst].
  apply markClosed_typed, release_typed, withdraw_typed. by eapply typed_same; [..|exact H1].
Qed.

Lemma pause_typed now s id : keepsTyped s (PauseExecution now s id).1.
Proof.
  intros HT. unfold PauseExecution. destruct (executions s !! id) as [e|] eqn:E; [|done].
  repeat case_match; try done. apply typed_row; [|done]. by apply (ty_rows s HT id e).
Qed.

Lemma resume_typed now s id : keepsTyped s (ResumeExecution now s id).1.
Proof.
  intros HT. unfold ResumeExecution. destruct (executions s !! id) as [e|] eqn:E; [|done].
  repeat case_match; try done. apply typed_row; [|done]. by apply (ty_rows s HT id e).
Qed.

Lemma expireAll_typed now s ids projected : keepsTyped s (expireAll now s ids projected).1.
Proof.
  revert s projected. induction ids as [|id ids IH]; intros s projected; [done|]. cbn [expireAll].
  pose proof (update_typed now s id ExecutionStatusTimeout ConcurrencyQueueTimeoutError) as H.
  destruct (updateExecutionStatusLocked _ _ _ _ _) as [s1 ok]. etrans; [exact H|apply IH].
Qed.

Lemma releaseHold_typed s id : keepsTyped s (releaseInitialMirrorHold s id).
Proof.
  unfold releaseInitialMirrorHold. cbn zeta. set (s1 := s <| mirrorCreatePending ::= _ |>).
  assert (H1 : keepsTyped s s1) by (by apply typed_same).
  etrans; [exact H1|]. clearbody s1. destruct (executions s1 !! id); [|apply dropHeld_typed].
  destruct (IsTerminalExecutionStatus _); [apply dropHeld_typed|]. case_decide; [done|].
  apply alterOutbox_typed. intros e0. by destruct (isHeld e0).
Qed.

Lemma rollback_typed now s id : keepsTyped s (rollbackCreatedExecution now s id).
Proof.
  etrans; [apply (release_typed now s id)|]. unfold rollbackCreatedExecution. cbn zeta.
  generalize (releaseWorkflowSlotLocked now s id) as s1. intros s1 [T1 T2 T3 T4].
  split; cbn; try by apply map_Forall_delete.
  intros key n [Hk _]%map_lookup_filter_Some. by apply T2.
Qed.

(** ** Creating *)

Lemma create_typed now s e : keepsTyped s (createExecutionLocked now s e).
Proof.
  unfold createExecutionLocked. cbn zeta. set (cp := if IsZero (ex_UpdatedAt _) then _ else _).
  set (s1 := s <| rolledBack ::= _ |> <| mirrorConflict ::= _ |>).
  etrans; [apply (typed_same s s1); done|]. clearbody s1.
  etrans; [apply (typed_row s1 (ex_ID e) (mkExecEntry cp false)); unfold cp; by repeat case_match|].
  apply typed_same; by repeat case_match.
Qed.

Lemma writeInitialIntents_typed now s id entries t :
  keepsTyped s (writeInitialIntentsLocked now s id entries t).
Proof.
  unfold writeInitialIntentsLocked. revert s. induction entries as [|o l IH]; intros s; [done|].
  cbn [foldl]. etrans; [|apply IH]. unfold writeInitialIntent. cbn zeta.
  etrans; [|apply put_typed]. apply typed_same; by case_decide.
Qed.

Lemma begin_create_typed hint now s e :
  keepsTyped s (createExecutionLocked now
    (markMirrorCreatePendingLocked (noteMirrorModeLocked hint s e) (ex_ID e)).1 e).
Proof.
  etrans; [|apply create_typed].
  assert (E : forall x, nodes (markMirrorCreatePendingLocked x (ex_ID e)).1 = nodes x)
    by (intros x; unfold markMirrorCreatePendingLocked; by repeat case_match).
  assert (E' : nodes (noteMirrorModeLocked hint s e) = nodes s)
    by (unfold noteMirrorModeLocked; by repeat case_match).
  pose proof (noteMirror_quiet hint s e) as [[F1 _] F2 F3 _ _].
  pose proof (markPending_quiet (noteMirrorModeLocked hint s e) (ex_ID e)) as [[G1 _] G2 G3 _ _].
  apply typed_same; congruence.
Qed.

Lemma charge_typed sha now s id a : keepsTyped s (chargeOrParkLocked sha now s id a).1.
Proof.
  unfold chargeOrParkLocked, parkOrChargeLocked. cbn zeta. apply typed_same; by repeat case_match.
Qed.

Lemma admit_typed sha now s id a : keepsTyped s (admitSeed sha now s id a).1.
Proof. destruct a as [a|]; [apply charge_typed|done]. Qed.

Lemma hold_typed s id : keepsTyped s (holdOutboxLocked s id).
Proof. apply alterOutbox_typed. intros e. by destruct (negb _). Qed.

Lemma holdWhilePending_typed s id : keepsTyped s (holdWhilePending s id).
Proof. unfold holdWhilePending. repeat case_match; try done. apply hold_typed. Qed.

(** ** Arrivals and commits *)

Lemma applyArrival_typed now id act depth s r a :
  keepsTyped s (applyArrival now id act depth (s, r) a).1.
Proof.
  destruct r as [ids sk]. unfold applyArrival. destruct (_ <=? 0); [done|]. cbn zeta.
  set (s1 := if 0 <? da_ActiveCount a then _ else _).
  assert (H1 : keepsTyped s s1) by (apply typed_same; unfold s1; by destruct (0 <? _)).
  clearbody s1. case_decide; [exact H1|]. case_decide; [exact H1|].
  match goal with |- context [putOutboxLocked now ?x id ?eid ?t zeroTime] =>
    pose proof (put_typed now x id (newOutboxEntry eid t zeroTime)) as Hp; fold (putOutboxLocked now x id eid t zeroTime) in Hp;
    destruct (putOutboxLocked now x id eid t zeroTime) as [s2 w] end.
  assert (H2 : keepsTyped s s2) by (etrans; [exact H1|]; etrans; [|exact Hp]; by apply typed_same).
  by destruct w.
Qed.

Lemma arrivals_typed now s id act depth l : keepsTyped s (applyArrivalsLocked now s id act depth l).1.
Proof.
  unfold applyArrivalsLocked. generalize (([] : list string), ([] : list SkippedUnit)) as r.
  revert s. induction l as [|a l IH]; intros s r; [done|]. cbn [foldl].
  pose proof (applyArrival_typed now id act depth s r a) as Ha.
  destruct (applyArrival now id act depth (s, r) a) as [s1 r1]. etrans; [exact Ha|apply IH].
Qed.

Lemma advance_typed now s req : keepsTyped s (AdvanceNode now s req).1.
Proof.
  unfold AdvanceNode. cbn zeta. destruct (executions s !! _) as [e|]; [|done].
  destruct (IsTerminalExecutionStatus _); [done|].
  destruct (nodes s !! _) as [n|]; [|done]. destruct (_ || _); [done|]. case_decide; [done|].
  match goal with |- context [applyArrivalsLocked now ?x ?i ?a ?d ?l] =>
    pose proof (arrivals_typed now x i a d l) as H1;
    destruct (applyArrivalsLocked now x i a d l) as [s1 [ids sk]] end.
  etrans; [|exact H1]. by apply typed_same.
Qed.

Lemma storeExits_typed id s l : keepsTyped s (foldl (storeExit id) s l).
Proof.
  revert s. induction l as [|ex l IH]; intros s; [done|]. cbn [foldl]. etrans; [|apply IH].
  unfold storeExit. etrans; [apply preserve_typed|]. by apply typed_same.
Qed.

(** Steps that leave the execution rows alone. *)
Definition withRows (R : memoryState -> memoryState -> Prop) (s s' : memoryState) : Prop :=
  executions s' = executions s /\ R s s'.

#[export] Instance withRows_order R : PreOrder R -> PreOrder (withRows R).
Proof.
  intros HR. split; [by intros s|]. intros s1 s2 s3 [E1 H1] [E2 H2]. split; [congruence|by etrans].
Qed.

Lemma steady_rows (R : memoryState -> memoryState -> Prop) s s' :
  steady (fun _ => True) (fun _ _ => True) s s' -> R s s' -> withRows R s s'.
Proof. intros [_ H] HR. split; [by apply frame_executions|done]. Qed.

Lemma commit_typed now s req : keepsTyped s (commitNodeLocked now s req).1.
Proof.
  apply (commit_rel_steps (withRows keepsTyped) keepsTyped).
  - by intros s1 s2 [_ H].
  - by intros s1 s2 [E _].
  - intros s1 c. apply steady_rows; [apply quiet_steady, commitWrite_quiet|apply commitWrite_typed].
  - intros s1 f. split; [done|by apply typed_same].
  - intros s1 f. split; [done|by apply typed_same].
  - intros s1 id o. apply steady_rows; [apply put_steady|apply put_typed].
  - intros s1 id act depth l. apply steady_rows; [apply arrivals_steady|apply arrivals_typed].
  - intros s1 e st msg He _ H1. apply finish_typed; [|done]. by apply (ty_rows s1 H1).
Qed.

Lemma commitGroup_typed now s req : keepsTyped s (commitGroupLocked now s req).1.
Proof.
  apply (commitGroup_rel (withRows keepsTyped) keepsTyped).
  - by intros s1 s2 [_ H].
  - by intros s1 s2 [E _].
  - intros s1 s2 [[E _] Eo Ed _ _] En. split; [done|by apply typed_same].
  - intros s1 id l. apply steady_rows; [apply quiet_steady, storeExits_quiet|apply storeExits_typed].
  - intros s1 id act depth l. apply steady_rows; [apply arrivals_steady|apply arrivals_typed].
  - intros s1 id e st msg He _ H1. apply finish_typed; [|done]. by apply (ty_rows s1 H1).
Qed.

(** ** Redelivery, signals and children *)

Lemma resetWithOutbox_typed now s id name token o :
  keepsTyped s (ResetNodeForRetryWithOutbox now s id name token o).1.
Proof.
  unfold ResetNodeForRetryWithOutbox. pose proof (reset_typed s id name (Some token)) as H.
  destruct (resetNodeForRetryLocked s id name _) as [s1 ok].
  destruct ok; [|done]. etrans; [exact H|apply put_typed].
Qed.

Lemma revokeWithOutbox_typed now s id name token o :
  keepsTyped s (RevokeLeaseWithOutbox now s id name token o).1.
Proof.
  unfold RevokeLeaseWithOutbox. pose proof (revoke_typed s id name token) as H.
  destruct (revokeLeaseLocked s id name token) as [s1 ok].
  destruct ok; [|done]. etrans; [exact H|apply put_typed].
Qed.

Lemma groupRevoke_typed now s id u token o :
  keepsTyped s (RevokeGroupLeaseWithOutbox now s id u token o).1.
Proof.
  unfold RevokeGroupLeaseWithOutbox. case_decide; [done|]. case_decide; [done|].
  assert (HT : keepsTyped s (expireGroupLeaseLocked s id u token).1)
    by (unfold expireGroupLeaseLocked; apply typed_same; by case_match).
  destruct (expireGroupLeaseLocked s id u token) as [s1 ok].
  destruct ok; [|done]. etrans; [exact HT|apply put_typed].
Qed.

Lemma suspend_typed now s lease output so po spec old :
  keepsTyped s (SuspendTaskLease now s lease output so po spec old).1.
Proof.
  intros HT. unfold SuspendTaskLease. cbn zeta. set (id := t_ExecutionID _). set (name := t_NodeName _).
  set (key := id +:+ _). destruct (nodes s !! key) as [node|] eqn:E; [|done].
  pose proof (ty_nodes s HT key node E) as Hn.
  destruct (negb _); [done|]. pose proof (preserve_typed s key po HT) as H1.
  destruct (preserveOutputPrivacyLocked s key po) as [s1 p]. cbn [fst] in H1.
  set (s2 := if decide (old <> "") then _ else _).
  assert (H2 : typed s2) by (eapply typed_same; [..|exact H1]; unfold s2; by repeat case_match).
  clearbody s2. destruct (consume_frame s2 id name spec) as (m & x & E2).
  destruct (if decide (sp_Mode spec = _) then _ else _) as [s3 payload]. cbn [fst] in *.
  apply putEntries_typed, typed_node.
  - eapply named_as; [..|exact Hn]; unfold parkedNode; by repeat case_match.
  - eapply typed_same; [..|exact H2]; rewrite E2; by destruct payload.
Qed.

Lemma deliverWithOutbox_typed now w s id sig data intent :
  keepsTyped s (DeliverSignalWithOutbox now w s id sig data intent).1.
Proof.
  unfold DeliverSignalWithOutbox, addMultiSignalLocked, scheduleResumeOutbox, putOutboxLocked. cbn zeta.
  case_decide; [by apply typed_same|].
  destruct (findWaiter id sig w) as [[name spec]|]; [|by apply typed_same].
  case_decide; [destruct (_ <? _); [by apply typed_same|]|]; cbn [fst];
    (etrans; [|apply put_typed]); by apply typed_same.
Qed.

Lemma setWaiting_typed s key : keepsTyped s (setWaiting s key).
Proof. by apply typed_alter. Qed.

Lemma startChildren_typed now id key s l : keepsTyped s (foldl (startChild now id key) s l).
Proof.
  revert s. induction l as [|ce l IH]; intros s; [done|]. cbn [foldl]. etrans; [|apply IH].
  unfold startChild. cbn zeta. etrans; [|apply put_typed]. by apply typed_same.
Qed.

Lemma beginExpansionWithOutbox_typed now s lease children entries :
  keepsTyped s (BeginTaskExpansionWithOutbox now s lease children entries).1.
Proof.
  unfold BeginTaskExpansionWithOutbox. cbn zeta. repeat (case_match; [done|]).
  etrans; [|apply startChildren_typed]. apply setWaiting_typed.
Qed.

Lemma beginExpansion_typed s lease : keepsTyped s (BeginTaskExpansion s lease).1.
Proof. unfold BeginTaskExpansion. cbn zeta. case_match; [done|]. apply setWaiting_typed. Qed.

Lemma beginSubWorkflow_typed now s lease link entries :
  keepsTyped s (BeginSubWorkflowWait now s lease link entries).1.
Proof.
  unfold BeginSubWorkflowWait. cbn zeta. repeat (case_match; [done|]).
  etrans; [|apply putEntries_typed].
  etrans; [apply (typed_alter s (leaseNodeKey lease) (fun n => n <| ns_Status := NodeStatusWaiting |>
    <| ns_ChildExecutionID := lk_ChildExecutionID link |>)); done|]. by apply typed_same.
Qed.

Lemma putOutput_typed s id name data : keepsTyped s (PutOutput s id name data).
Proof. unfold PutOutput. cbn zeta. etrans; [apply preserve_typed|by apply typed_same]. Qed.

(** ** Seeds and entry admissions *)

Lemma recordSeedUnits_typed id s units : keepsTyped s (foldl (recordSeedUnit id) s units).
Proof.
  revert s. induction units as [|u units IH]; intros s; [done|]. cbn [foldl].
  etrans; [|apply IH]. unfold recordSeedUnit. set (key := memoryNodeKey _ _).
  pose proof (preserve_typed s key (su_PrivateOutput u)) as H.
  destruct (preserveOutputPrivacyLocked s key _) as [s1 p]. cbn [fst] in H. cbn zeta.
  etrans; [exact H|]. set (n := if negb p then _ else _).
  etrans; [apply (typed_node s1 n key); by destruct p|]. by apply typed_same.
Qed.

Lemma seedArrivals_typed now id acc units :
  keepsTyped acc.1 (foldl (seedArrivals now id) acc units).1.
Proof.
  revert acc. induction units as [|u units IH]; intros [s sk]; [done|]. cbn [foldl].
  etrans; [|apply IH]. unfold seedArrivals. rewrite applyGroupDownstream_eq.
  pose proof (arrivals_typed now s id 0 0 (su_Downstream u)) as H.
  by destruct (applyArrivalsLocked now s id 0 0 _) as [s1 [ids more]].
Qed.

Lemma completeSeed_typed now s id g : keepsTyped s (completeSeed now s id g).
Proof.
  intros HT. unfold completeSeed. destruct (acyclicGraph g); [|done].
  destruct (executions s !! id) eqn:He; [|done]. destruct (_ <=? 0); [|done].
  apply finish_typed; [|done]. by apply (ty_rows s HT).
Qed.

Lemma placeSeed_typed now s e req : keepsTyped s (placeSeed now s e req).1.
Proof.
  unfold placeSeed. cbn zeta. etrans; [apply (recordSeedUnits_typed (ex_ID e) s (sq_Units req))|].
  set (s1 := foldl _ s _). set (s2 := if acyclicGraph _ then _ else s1).
  etrans; [apply (typed_same s1 s2); subst s2; by case_match|].
  pose proof (seedArrivals_typed now (ex_ID e) (s2, []) (sq_Units req)) as H.
  destruct (foldl _ (s2, []) _) as [s3 skipped]. cbn [fst] in *. etrans; [exact H|].
  etrans; [apply writeInitialIntents_typed|]. etrans; [apply completeSeed_typed|].
  etrans; [|apply holdWhilePending_typed]. case_match; [apply hold_typed|done].
Qed.

Lemma seed_typed sha hint now s req : keepsTyped s (seedExecution sha hint now s req).1.
Proof.
  unfold seedExecution. destruct (sq_Execution req) as [e|]; [|done]. destruct (find _ _); [done|].
  pose proof (admit_typed sha now s (ex_ID e) (sq_Admission req)) as HA.
  destruct (admitSeed _ _ _ _ _) as [s1 [err|pending]]; [exact HA|]. etrans; [exact HA|].
  set (e' := e <| ex_Status := _ |>). pose proof (begin_create_typed hint now s1 e') as HC.
  etrans; [exact HC|]. cbn zeta. change (ex_ID e') with (ex_ID e) in *.
  set (s2 := createExecutionLocked _ _ _). pose proof (placeSeed_typed now s2 e req) as HP.
  by destruct (placeSeed _ _ _ _).
Qed.

Lemma resolveRoots_typed now id s l : keepsTyped s (foldl (resolveRoot now id) s l).
Proof.
  revert s. induction l as [|t l IH]; intros s; [done|]. cbn [foldl].
  etrans; [|apply IH]. unfold resolveRoot. cbn zeta. case_decide; [done|].
  etrans; [|apply put_typed]. by apply typed_same.
Qed.

Lemma entryCount_typed now s id req : keepsTyped s (entryCount now s id req).
Proof.
  intros HT. unfold entryCount. destruct (acyclicGraph _); [|done]. cbn zeta.
  set (s1 := if bool_decide _ then _ else _).
  assert (H1 : typed s1) by (eapply typed_same; [..|exact HT]; subst s1; by case_bool_decide).
  destruct (_ || _); [|done]. destruct (executions s1 !! id) eqn:E; [|done].
  apply finish_typed; [|done]. by apply (ty_rows s1 H1).
Qed.

Lemma entryEffects_typed now s id req : keepsTyped s (entryEffects now s id req).1.
Proof.
  unfold entryEffects. cbn zeta. set (s1 := s <| groupUnits ::= _ |>).
  etrans; [apply (typed_same s s1); done|].
  etrans; [apply (storeExits_typed id s1 (er_Exits req))|].
  etrans; [apply (entryCount_typed now _ id req)|]. set (s2 := entryCount _ _ _ _).
  match goal with |- context [if ?c then ?x else (s2, [])] => set (r := if c then x else (s2, [])) end.
  assert (Hr : keepsTyped s2 r.1).
  { subst r. destruct (_ || _); [|done]. rewrite applyGroupDownstream_eq.
    pose proof (arrivals_typed now s2 id 0 0 (er_Downstream req)) as H.
    by destruct (applyArrivalsLocked now s2 id 0 0 _) as [s3 [ids more]]. }
  destruct r as [s3 skipped]. etrans; [exact Hr|]. cbn [fst].
  destruct (match executions s3 !! id with Some _ => _ | None => _ end); [|done].
  apply resolveRoots_typed.
Qed.

Lemma entry_typed sha hint ns now s req a :
  keepsTyped s (seedExecutionFromEntryLocked sha hint ns now s req a).1.1.
Proof.
  unfold seedExecutionFromEntryLocked. cbn zeta. set (id := DeterministicExecutionID _ _).
  destruct (admissions s !! er_AdmissionKey req); [done|].
  pose proof (admit_typed sha now s id a) as HA.
  destruct (admitSeed _ _ _ _ _) as [s1 [err|pending]]; [exact HA|]. etrans; [exact HA|].
  set (e := entrySnapshot _ _ _ _ _). assert (Hid : ex_ID e = id).
  { unfold e, entrySnapshot. repeat case_match; done. }
  pose proof (begin_create_typed hint now s1 e) as HC. rewrite Hid in HC. etrans; [exact HC|].
  set (s2 := createExecutionLocked _ _ _) in *. pose proof (entryEffects_typed now s2 id req) as HE.
  destruct (entryEffects now s2 id req) as [s3 skipped]. cbn [fst] in *. etrans; [exact HE|].
  set (s4 := if 0 <? queuePositionLocked s3 id then holdOutboxLocked s3 id else s3).
  etrans; [|apply (typed_same (holdWhilePending s4 id)); done].
  etrans; [|apply holdWhilePending_typed]. unfold s4. case_match; [apply hold_typed|done].
Qed.

Lemma createWithOutbox_typed hint now s e entries :
  keepsTyped s (CreateExecutionWithOutbox hint now s e entries).1.
Proof.
  unfold CreateExecutionWithOutbox. pose proof (begin_create_typed hint now s e) as H. cbn zeta.
  destruct (markMirrorCreatePendingLocked _ _) as [s1 hold]. cbn [fst] in *.
  etrans; [exact H|apply writeInitialIntents_typed].
Qed.

Lemma createWithConcurrency_typed sha hint now s e entries a :
  keepsTyped s (CreateExecutionWithConcurrency sha hint now s e entries a).1.
Proof.
  unfold CreateExecutionWithConcurrency. pose proof (charge_typed sha now s (ex_ID e) a) as HA.
  destruct (chargeOrParkLocked sha now s (ex_ID e) a) as [s1 [err|pending]]; [exact HA|].
  etrans; [exact HA|]. set (e' := e <| ex_Status := _ |>).
  pose proof (begin_create_typed hint now s1 e') as H. change (ex_ID e') with (ex_ID e) in H. cbn zeta.
  destruct (markMirrorCreatePendingLocked _ _) as [s2 hold]. cbn [fst] in *.
  etrans; [exact H|apply writeInitialIntents_typed].
Qed.

Lemma expire_typed now s limit line : keepsTyped s (ExpireQueuedExecutions now s limit line).1.
Proof.
  unfold ExpireQueuedExecutions. case_decide; [done|]. cbn zeta.
  pose proof (expireAll_typed now s (expiredQueued now s limit line []) []) as HT.
  by destruct (expireAll _ _ _ _).
Qed.

Lemma commitNode_typed now s req : keepsTyped s (CommitNode now s req).1.
Proof. destruct (CommitNode_state now s req) as [->| ->]; [done|apply commit_typed]. Qed.

(** ** The operations that write none of the maps *)

Lemma quiet_typed s s' : quiet s s' -> nodes s' = nodes s -> keepsTyped s s'.
Proof. intros [[E _] Eo Ed _ _] En. by apply typed_same. Qed.

Lemma suspendOrConsume_typed s id name spec : keepsTyped s (SuspendOrConsume s id name spec).1.
Proof.
  apply quiet_typed; [apply suspendOrConsume_quiet|].
  unfold SuspendOrConsume, suspendOrConsumeMultiLocked. cbn zeta.
  destruct (consumeMulti_shape s id name spec (sp_Signals spec)) as (m & x & E1).
  destruct (consumeFirst_shape s id (sp_Signals spec)) as (m' & E2).
  case_decide.
  - destruct (consumeMulti s id name spec _) as [s1 [p|]]; simpl in *; by rewrite E1.
  - destruct (consumeFirst s id _) as [s1 [p|]]; simpl in *; by rewrite E2.
Qed.

Lemma prune_typed s id : keepsTyped s (pruneTransientSkipAfterTerminal s id).
Proof.
  apply quiet_typed; [apply prune_quiet|].
  unfold pruneTransientSkipAfterTerminal, pruneMirrorStateLocked. by repeat case_match.
Qed.

Lemma claimIdempotency_typed now s req : keepsTyped s (ClaimIdempotency now s req).1.
Proof.
  apply quiet_typed; [apply claimIdempotency_quiet|]. unfold ClaimIdempotency, putIdempotencyClaimLocked.
  cbn zeta. by repeat (case_match; simplify_eq/=).
Qed.

#[export] Hint Resolve upsert_typed cancelSuspended_typed acquire_typed acquireChecked_typed reset_typed
  revoke_typed claim_typed renew_typed renewOutbox_typed ack_typed releaseOutbox_typed
  fail_typed replay_typed update_typed pause_typed resume_typed expire_typed releaseHold_typed
  rollback_typed begin_create_typed createWithOutbox_typed
  createWithConcurrency_typed commitNode_typed commitGroup_typed advance_typed
  resetWithOutbox_typed revokeWithOutbox_typed groupRevoke_typed suspend_typed
  deliverWithOutbox_typed beginExpansionWithOutbox_typed beginExpansion_typed
  beginSubWorkflow_typed putOutput_typed seed_typed entry_typed suspendOrConsume_typed
  prune_typed claimIdempotency_typed : store.

Lemma typed_new db : typed (newMemoryState db).
Proof. split; apply map_Forall_empty. Qed.
