(* ===== verification/Completion.v ===== *)
(** * No execution is left behind

    From the start of an execution ([startExecution] with the root intents of
    [submitInitialTasks]) through every interleaving of the engine's steps
    ([Progress.step]): the start establishes the invariant of [Progress], and in
    a compiled graph the invariant always leaves work to do, because an
    unfinished unit all of whose sources have finished is decided and its work is
    under way, and following unfinished sources cannot go on for ever. *)

From S2P Require Import Prelude Keys Types Retry Graph Units State Slots Executions Outbox Lease Commit Arrivals Verdict Delivery Progress.

(** A store that knows nothing about the execution. *)
Record fresh (s : memoryState) (id : string) : Prop := {
  fr_life : life_inv s;
  fr_marks : forall u, marker (scheduled s) (memoryCounterKey id u) = "";
  fr_outbox : outboxOf s id = ∅ /\ deadOf id s = ∅;
  fr_nodes : forall name, nodes s !! memoryNodeKey id name = None;
  fr_keyed : keyed id (nodes s)
}.

Section complete.
Context (g : Graph) (id : string) (Hg : nodeUnits g).

(** ** Work under way *)

Lemma open_source s j e :
  e ∈ openInto g id s j ->
  exists i v nd, e_SrcIdx e = i /\ e_DstIdx e = j /\ e ∈ concat (g_outEdges g) /\ unitNode g i v nd /\
    finished id s (nm_Name nd) = false.
Proof.
  intros He. apply list_elem_of_filter in He as [Hf He]. unfold inbound, edgesTo in He.
  apply list_elem_of_filter in He as [Hd He]. destruct (nu_ends g Hg e He) as [[v Hv] _].
  destruct (proj2 (up_sched g (nu_partition g Hg) (e_SrcIdx e)) (ex_intro _ v Hv)) as (nd & Hnd & _).
  exists (e_SrcIdx e), v, nd. unfold finishedAt in Hf. rewrite Hnd in Hf. done.
Qed.

Lemma edge_units e u v :
  e ∈ concat (g_outEdges g) -> g_nodeUnit g !! e_SrcIdx e = Some (Some u) ->
  g_nodeUnit g !! e_DstIdx e = Some (Some v) -> unitEdge g u v.
Proof.
  intros He Hu Hv. assert (u <> v).
  { intros ->. by apply (nu_no_loop g Hg e He), (unit_inj g Hg _ _ v). }
  eexists. split; [unfold unitEdges; apply elem_of_app; left|].
  - apply list_elem_of_omap. exists e. split; [done|]. unfold crossEdge.
    by rewrite Hu, Hv, decide_False.
  - done.
Qed.

Context (Hacyclic : forall u, ~ tc (unitEdge g) u u).

Lemma units_sn v : sn (flip (unitEdge g)) v.
Proof.
  apply tc_finite_sn.
  - intros u Hu. apply (Hacyclic u). revert Hu. generalize u at 1 4. intros w Hw.
    induction Hw as [x y H|x y z H _ IH]; [by apply tc_once|].
    eapply tc_r; [exact IH|exact H].
  - exists (seq 0 (UnitCount g)). intros u Hu. apply elem_of_seq.
    assert (H : exists w, unitEdge g u w) by (induction Hu as [x y H|x y z _ _ IH]; [by exists x|done]).
    destruct H as (w & ue & Hue & <- & _).
    pose proof (uo_range g (nu_edges g Hg) ue Hue). lia.
Qed.

(** A live execution has work under way for an unfinished node. *)
Lemma work_left s queue j v nd :
  live g id s queue -> unitNode g j v nd -> finished id s (nm_Name nd) = false ->
  exists nd', nd' ∈ g_nodes g /\ finished id s (nm_Name nd') = false /\
    underWay id s queue (nm_Name nd').
Proof.
  intros L. revert j nd. induction (units_sn v) as [v _ IH]. intros j nd Hj Hf.
  destruct (openInto g id s j) as [|e l] eqn:Ho.
  - exists nd. split; [by eapply list_elem_of_lookup_2, Hj|]. split; [done|].
    destruct (lv_flight _ _ _ _ L j v nd Hj) as [H|H]; [|congruence|done].
    destruct (inbound g j) eqn:Hi; [by left|right].
    eapply lv_decided; [done|done|by rewrite Hi|done].
  - destruct (open_source s j e) as (i & u & nd' & Hs & Hd & He & Hi & Hf'); [rewrite Ho; by left|].
    eapply (IH u); [|exact Hi|exact Hf']. unfold flip. eapply edge_units; [exact He|..].
    + rewrite Hs. apply Hi.
    + rewrite Hd. apply Hj.
Qed.

Lemma live_work s queue :
  live g id s queue ->
  counter (remaining s) id = Z.of_nat (length (openNodes g id s)) /\
  exists nd, nd ∈ g_nodes g /\ finished id s (nm_Name nd) = false /\
    underWay id s queue (nm_Name nd).
Proof.
  intros L. destruct (lv_left _ _ _ _ L) as [Hc Hne]. split; [done|].
  destruct (openNodes g id s) as [|j l] eqn:Ho; [done|].
  assert (Hj : j ∈ openNodes g id s) by (rewrite Ho; by left).
  apply list_elem_of_filter in Hj as [[Hu Hf] _].
  destruct (g_nodeUnit g !! j) as [[v|]|] eqn:Hv; [|done|done].
  destruct (proj2 (up_sched g (nu_partition g Hg) j) (ex_intro _ v Hv)) as (nd & Hnd & _).
  unfold finishedAt in Hf. rewrite Hnd in Hf. by eapply (work_left s queue j v nd).
Qed.

(** ** The initial tasks *)

Definition initialTask (j v : nat) (nd : NodeMeta) : Task :=
  zeroTask <| t_ExecutionID := id |> <| t_NodeName := nm_Name nd |>
    <| t_NodeIdx := Z.of_nat j |> <| t_UnitIdx := Z.of_nat v |>
    <| t_Type := execTaskTypeForNode nd |>.

Lemma unit_root u :
  (u < UnitCount g)%nat ->
  exists j nd, unitNode g j u nd /\ rootTask id g u = Ok (initialTask j u nd) /\
    idx (g_unitInDegree g) u = Ok (Z.of_nat (length (inbound g j))).
Proof.
  intros Hu. destruct (lookup_lt_is_Some_2 (g_units g) u Hu) as [um Hum].
  pose proof (unit_is_node g Hg u um Hum) as Hk. pose proof (nu_partition g Hg) as Hp.
  destruct (up_kind g Hp u um Hum Hk) as [j Hj]. destruct (up_node g Hp u um j Hum Hj) as [_ Hun].
  destruct (proj2 (up_sched g Hp j) (ex_intro _ u Hun)) as (nd & Hnd & _).
  exists j, nd. split_and!; [done| |].
  - unfold rootTask, UnitKindAt, UnitNodeIndex, NodeAt, idx. rewrite Hum. cbn. rewrite Hk, Hj. cbn.
    by rewrite Hnd.
  - destruct (uo_degree g (nu_edges g Hg)) as [Hl _].
    destruct (lookup_lt_is_Some_2 (g_unitInDegree g) u) as [d Hd]; [by rewrite Hl|].
    apply idx_Ok. rewrite Hd. f_equal. by eapply node_in_degree.
Qed.

Context (Hac : g_allowCycles g = false).

Lemma submit_fold us acc :
  Forall (fun u => (u < UnitCount g)%nat) us ->
  exists tasks,
    foldM (fun tasks unitIdx =>
             degree ← idx (g_unitInDegree g) unitIdx;
             if degree =? 0 then t ← rootTask id g unitIdx; Ok (tasks ++ [t]) else Ok tasks)
      us acc = Ok (acc ++ tasks) /\
    forall t, t ∈ tasks <-> exists j u nd, u ∈ us /\ unitNode g j u nd /\ inbound g j = [] /\
      t = initialTask j u nd.
Proof.
  revert acc. induction us as [|u us IH]; intros acc Hus.
  { exists []. cbn. rewrite app_nil_r. split; [done|]. intros t. set_solver. }
  apply Forall_cons in Hus as [Hu Hus].
  destruct (unit_root u Hu) as (j & nd & Hj & Hr & Hd). cbn [foldM]. rewrite Hd, Hr. cbn [mbind res_bind].
  assert (Hone : forall j' nd', unitNode g j' u nd' -> j' = j /\ nd' = nd).
  { intros j' nd' [Hu' Hn']. assert (j' = j) as -> by (eapply unit_inj; [done|exact Hu'|apply Hj]).
    destruct Hj as [_ Hn]. split; congruence. }
  destruct (inbound g j) as [|e l] eqn:Hi; cbn [length].
  - destruct (IH (acc ++ [initialTask j u nd]) Hus) as (tasks & E & Ht).
    exists (initialTask j u nd :: tasks). 
    split; [etrans; [exact E|by rewrite <- app_assoc]|].
    intros t. rewrite elem_of_cons, Ht. split.
    + intros [->|(j' & u' & nd' & H1 & H2)]; [|naive_solver set_solver].
      exists j, u, nd. split_and!; [by left|apply Hj..|done|done].
    + intros (j' & u' & nd' & H1 & H2 & H3 & ->). apply elem_of_cons in H1 as [->|H1].
      * left. by destruct (Hone j' nd' H2) as [-> ->].
      * right. by exists j', u', nd'.
  - destruct (IH acc Hus) as (tasks & E & Ht). exists tasks. split; [exact E|].
    intros t. rewrite Ht. split.
    + intros (j' & u' & nd' & H1 & H2). exists j', u', nd'. split; [by right|done].
    + intros (j' & u' & nd' & H1 & H2 & H3 & ->). apply elem_of_cons in H1 as [->|H1].
      * destruct (Hone j' nd' H2) as [-> ->]. congruence.
      * by exists j', u', nd'.
Qed.

Lemma submit_tasks :
  exists tasks, submitInitialTasks id g = Ok tasks /\
    forall t, t ∈ tasks <-> exists j u nd, unitNode g j u nd /\ inbound g j = [] /\
      t = initialTask j u nd.
Proof.
  unfold submitInitialTasks. rewrite Hac.
  destruct (submit_fold (seq 0 (UnitCount g)) []) as (tasks & E & Ht).
  { apply Forall_forall. intros u Hu. apply elem_of_seq in Hu. lia. }
  exists tasks. split; [exact E|]. intros t. rewrite Ht. split.
  - intros (j & u & nd & _ & H). by exists j, u, nd.
  - intros (j & u & nd & H). exists j, u, nd. split; [|done]. apply elem_of_seq.
    pose proof (up_range g (nu_partition g Hg) j u (proj1 (proj1 H))). lia.
Qed.

(** ** The start *)

Lemma seed_lookup i ds m u :
  counter (seedInDegrees id i ds m) (memoryCounterKey id u) =
  if decide (i <= u < i + Z.of_nat (length ds)) then default 0 (ds !! Z.to_nat (u - i))
  else counter m (memoryCounterKey id u).
Proof.
  revert i m. induction ds as [|d ds IH]; intros i m; cbn [seedInDegrees length].
  { by rewrite decide_False by lia. }
  rewrite IH. destruct (decide (u = i)) as [->|Hne].
  - rewrite decide_False, decide_True by lia. replace (i - i) with 0 by lia.
    unfold counter. by rewrite lookup_insert_eq.
  - assert (E : counter (<[memoryCounterKey id i := d]> m) (memoryCounterKey id u)
                = counter m (memoryCounterKey id u)).
    { unfold counter. rewrite lookup_insert_ne; [done|]. intros [_ E]%memoryCounterKey_inj. lia. }
    rewrite E. destruct (decide (i + 1 <= u < _)) as [H|H];
      [rewrite decide_True by lia|by rewrite decide_False by lia].
    replace (Z.to_nat (u - i)) with (S (Z.to_nat (u - (i + 1)))) by lia. done.
Qed.

Context (snap0 : ExecutionSnapshot) (Hid : ex_ID snap0 = id) (Hgr : ex_Graph snap0 = Some g).

(** What a create leaves for the execution. *)
Record created (s s1 : memoryState) : Prop := {
  cr_nodes : nodes s1 = nodes s;
  cr_marks : scheduled s1 = scheduled s;
  cr_outbox : outbox s1 = outbox s /\ deadOutbox s1 = deadOutbox s;
  cr_row : exists e, executions s1 !! id = Some e /\ status e = ex_Status snap0 /\
    ex_Graph (snap e) = Some g;
  cr_in : inDegrees s1 = seedInDegrees id 0 (unitDegrees g) (inDegrees s);
  cr_left : counter (remaining s1) id = Z.of_nat (UnitCount g);
  cr_kept : id ∉ rolledBack s1
}.

Lemma create_created now s s1 :
  createExecutionLocked now s snap0 = s1 -> created s s1.
Proof.
  intros <-. destruct (create_frame now s snap0) as [He _].
  assert (Hrow : exists e, executions (createExecutionLocked now s snap0) !! id = Some e /\
    status e = ex_Status snap0 /\ ex_Graph (snap e) = Some g).
  { exists (createdEntry now snap0). rewrite He. cbn. rewrite Hid, lookup_insert_eq.
    split_and!; [done|apply created_status|]. unfold createdEntry. by repeat case_match. }
  split; [..|exact Hrow| | |]; unfold createExecutionLocked; rewrite Hid, Hgr, Hac;
    destruct (negb (IsZero _)); cbn; try done; try set_solver.
  all: unfold counter; by rewrite lookup_insert_eq.
Qed.

(** What writing the initial intents adds. *)
Lemma write_intents now at' tasks s :
  Forall (fun t => t_Type t <> TaskTypeNodeSkip) tasks ->
  let s' := writeInitialIntentsLocked now s id (map (initialEntry id) tasks) at' in
  (exists ob, s' = s <| outbox := ob |>) /\
  (forall key st, outboxOf s' id !! key = Some st -> outboxOf s id !! key = Some st \/
     exists t, t ∈ tasks /\ key = initialOutboxID id (t_NodeName t) (t_ActivationID t) /\
       oe_Task (ob_entry st) = t) /\
  (forall key st, outboxOf s id !! key = Some st -> outboxOf s' id !! key = Some st) /\
  (forall t, t ∈ tasks ->
     is_Some (outboxOf s' id !! initialOutboxID id (t_NodeName t) (t_ActivationID t))).
Proof.
  unfold writeInitialIntentsLocked. revert s. induction tasks as [|t tasks IH]; intros s Hty.
  { cbn. split_and!; [by exists (outbox s); destruct s|by left|done|]. intros t Ht. set_solver. }
  apply Forall_cons in Hty as [Ht Hty]. cbn [map foldl].
  set (s1 := writeInitialIntent now id at' s (initialEntry id t)).
  assert (H1 : exists o, oe_ID o = initialOutboxID id (t_NodeName t) (t_ActivationID t) /\
    oe_Task o = t /\ s1 = (putOutboxEntryLocked now s id o).1).
  { unfold s1, writeInitialIntent. rewrite decide_False by done. eexists. split; [|split; [|reflexivity]];
      by destruct (negb _). }
  destruct H1 as (o & Ho & Hot & E1). clearbody s1.
  destruct (IH s1 Hty) as ((ob & Es) & Hin & Hkeep & Hput). cbn zeta in *.
  set (s' := foldl _ s1 _) in *. destruct (putOutbox_only now s id o) as (ob1 & E2).
  split_and!.
  - exists ob. by rewrite Es, E1, E2.
  - intros key st [Hk|(t' & Ht' & Hk)]%Hin; [|right; exists t'; split; [by right|done]].
    rewrite E1 in Hk. apply put_lookup in Hk as [Hk|[-> Hk]]; [by left|right].
    exists t. split; [by left|]. by rewrite Ho, Hk.
  - intros key st Hk. apply Hkeep. rewrite E1. by apply put_keeps.
  - intros t' [->|Ht']%elem_of_cons; [|by apply Hput].
    destruct (put_entry_present now s id o) as [st Hst]; [by rewrite Ho|].
    exists st. apply Hkeep. by rewrite E1, <- Ho.
Qed.

Lemma none_finished s name :
  (forall n, nodes s !! memoryNodeKey id n = None) -> finished id s name = false.
Proof. intros H. unfold finished, nodeIs. by rewrite H. Qed.

Lemma none_finishedAt s j :
  (forall n, nodes s !! memoryNodeKey id n = None) -> finishedAt g id s j = false.
Proof. intros H. unfold finishedAt. destruct (g_nodes g !! j); [by apply none_finished|done]. Qed.

Lemma open_all s :
  (forall n, nodes s !! memoryNodeKey id n = None) -> length (openNodes g id s) = UnitCount g.
Proof.
  intros Hn. set (f := fun j => match g_nodeUnit g !! j with Some (Some v) => v | _ => 0%nat end).
  rewrite <- (length_map f), <- (length_seq (UnitCount g) 0). apply Permutation_length.
  pose proof (nu_partition g Hg) as Hp.
  assert (Hin : forall j, j ∈ openNodes g id s -> exists v, g_nodeUnit g !! j = Some (Some v)).
  { intros j Hj. apply list_elem_of_filter in Hj as [[Hj _] _].
    destruct (g_nodeUnit g !! j) as [[v|]|]; [by exists v|done..]. }
  apply NoDup_Permutation; [|apply NoDup_seq|].
  - apply NoDup_fmap_2_strong; [|apply NoDup_filter, NoDup_seq].
    intros i j (u & Hi)%Hin (v & Hj)%Hin. unfold f. rewrite Hi, Hj. intros ->. by eapply unit_inj.
  - intros u. rewrite list_elem_of_fmap, elem_of_seq. split.
    + intros (j & -> & (v & Hj)%Hin). unfold f. rewrite Hj. pose proof (up_range g Hp j v Hj). lia.
    + intros Hu. destruct (unit_root u) as (j & nd & [Hj Hnd] & _); [lia|]. exists j.
      unfold f. rewrite Hj. split; [done|]. apply list_elem_of_filter. rewrite Hj.
      split; [split; [done|by apply none_finishedAt]|]. apply elem_of_seq.
      apply lookup_lt_Some in Hnd. unfold NodeCount. lia.
Qed.

Lemma into_all s j :
  (forall n, nodes s !! memoryNodeKey id n = None) -> openInto g id s j = inbound g j.
Proof.
  intros Hn. apply filter_all. intros e _. by apply none_finishedAt.
Qed.

Context (Hstatus : ex_Status snap0 = ExecutionStatusRunning) (Hunits : (0 < UnitCount g)%nat).

Lemma start_shape hint now s tasks :
  exists s0 s1 at',
    nodes s0 = nodes s /\ scheduled s0 = scheduled s /\
    (outbox s0 = outbox s /\ deadOutbox s0 = deadOutbox s) /\ created s0 s1 /\
    startExecution hint now s snap0 tasks
    = writeInitialIntentsLocked now s1 id (map (initialEntry id) tasks) at'.
Proof.
  unfold startExecution, CreateExecutionWithOutbox. rewrite Hid.
  set (s0 := (markMirrorCreatePendingLocked (noteMirrorModeLocked hint s snap0) id).1).
  assert (H : nodes s0 = nodes s /\ scheduled s0 = scheduled s /\
    outbox s0 = outbox s /\ deadOutbox s0 = deadOutbox s).
  { unfold s0, markMirrorCreatePendingLocked, noteMirrorModeLocked.
    destruct (negb (dbAttached s)); [|destruct (if hint then _ else _)];
      match goal with |- context [if ?b then _ else _] => destruct b end; done. }
  destruct (markMirrorCreatePendingLocked _ _) as [s2 hold]. cbn [fst snd] in *. subst s0.
  exists s2, (createExecutionLocked now s2 snap0), (if hold then queuedOutboxHold else zeroTime).
  destruct H as (H1 & H2 & H3 & H4). split_and!; try done. by eapply create_created.
Qed.

Lemma initialTask_ok j v nd :
  unitNode g j v nd -> execOK g id (initialTask j v nd).
Proof.
  intros Hj. split; [by exists j, v, nd|]. by apply (exec_runs (initialTask j v nd) nd).
Qed.

(** The facts of a started execution. *)
Record started (s : memoryState) : Prop := {
  sd_life : life_inv s;
  sd_row : exists e, executions s !! id = Some e /\ status e = ExecutionStatusRunning /\
    ex_Graph (snap e) = Some g;
  sd_kept : id ∉ rolledBack s;
  sd_nodes : forall n, nodes s !! memoryNodeKey id n = None;
  sd_keyed : keyed id (nodes s);
  sd_in : forall u, 0 <= u < Z.of_nat (UnitCount g) ->
    ta_in (tallyAt s id u) = default 0 (g_unitInDegree g !! Z.to_nat u);
  sd_marks : forall u, markOf id s u = "";
  sd_left : counter (remaining s) id = Z.of_nat (UnitCount g);
  sd_outbox : forall key st, intentAt id s key st ->
    exists j v nd, unitNode g j v nd /\ inbound g j = [] /\ key = initialOutboxID id (nm_Name nd) 0 /\
      oe_Task (ob_entry st) = initialTask j v nd;
  sd_roots : forall j v nd, unitNode g j v nd -> inbound g j = [] ->
    is_Some (outboxOf s id !! initialOutboxID id (nm_Name nd) 0)
}.

Lemma start_started hint now s :
  fresh s id ->
  exists tasks, submitInitialTasks id g = Ok tasks /\
    started (startExecution hint now s snap0 tasks).
Proof.
  intros [Fl Fm [Fo Fd] Fn Fk]. destruct submit_tasks as (tasks & Et & Ht). exists tasks. split; [done|].
  assert (Hlife : life_inv (startExecution hint now s snap0 tasks)).
  { apply create_outbox_life_inv; [done|by rewrite Hstatus]. }
  destruct (start_shape hint now s tasks) as (s0 & s1 & at' & E1 & E2 & [E3 E4] & C & E).
  destruct (write_intents now at' tasks s1) as ((ob & Es) & Hin & _ & Hput).
  { apply Forall_forall. intros t (j & v & nd & Hj & _ & ->)%Ht. by apply initialTask_ok. }
  rewrite <- E in Es, Hin, Hput. set (s' := startExecution _ _ _ _ _) in *. destruct C.
  split; [done|..]; try (rewrite Es; cbn).
  - by rewrite <- Hstatus.
  - done.
  - intros n. by rewrite cr_nodes0, E1.
  - by rewrite cr_nodes0, E1.
  - intros u Hu. unfold tallyAt. cbn. rewrite cr_in0, seed_lookup. unfold unitDegrees.
    rewrite length_map, length_seq, decide_True by lia.
    rewrite list_lookup_fmap, lookup_seq_lt by lia. cbn. by rewrite Z.sub_0_r.
  - intros u. unfold markOf, tallyAt. cbn. by rewrite cr_marks0, E2.
  - done.
  - rewrite <- Es. destruct cr_outbox0 as [C1 C2]. intros key st [Hk|Hk]; cycle 1.
    { unfold deadOf in Hk, Fd. rewrite Es in Hk. cbn in Hk. by rewrite C2, E4, Fd, lookup_empty in Hk. }
    apply Hin in Hk as [Hk|(t & Hk & -> & Hst)].
    { unfold outboxOf in Hk, Fo. by rewrite C1, E3, Fo, lookup_empty in Hk. }
    apply Ht in Hk as (j & v & nd & Hj & Hi & ->). by exists j, v, nd.
  - rewrite <- Es. intros j v nd Hj Hi. apply (Hput (initialTask j v nd)), Ht. by exists j, v, nd.
Qed.

Lemma started_live s : started s -> live g id s [].
Proof.
  intros []. assert (Hopen := fun name => none_finished s name sd_nodes0).
  split; try done.
  - destruct sd_row0 as (e & He & Hs & Hge). exists e. unfold ended. by rewrite Hs.
  - intros j v nd Hj. destruct (unit_root v) as (j' & nd' & Hj' & _ & Hd).
    { by apply (up_range g (nu_partition g Hg) j v), Hj. }
    assert (j' = j) as -> by (eapply unit_inj; [done|apply Hj'|apply Hj]).
    rewrite into_all, sd_in0 by (done || pose proof (up_range g (nu_partition g Hg) j v (proj1 Hj)); lia).
    rewrite Nat2Z.id. apply idx_Ok in Hd. by rewrite Hd.
  - intros j v nd Hj Hin. by rewrite into_all.
  - intros j v nd Hj [Hi|Hm]; [right; left|by destruct Hm].
    destruct (sd_roots0 j v nd Hj Hi) as [st Hst]. eexists _, st. split; [left; exact Hst|].
    destruct (sd_outbox0 _ st (or_introl Hst)) as (j' & v' & nd' & Hj' & _ & Hk & ->).
    split; [by apply initialTask_ok|]. cbn.
    eapply owns_inj; [by apply owns_initial|by apply owns_initial].
  - rewrite sd_left0, open_all by done. split; [done|]. intros E.
    pose proof (open_all s sd_nodes0) as H. rewrite E in H. cbn in H. lia.
  - intros key st (j & v & nd & Hj & Hi & -> & ->)%sd_outbox0. split_and!.
    + by apply initialTask_ok.
    + intros _ _. right. split; [apply sd_marks0|]. cbn. by rewrite Nat2Z.id.
    + rewrite (proj1 (proj2 (initialTask_ok j v nd Hj))). by apply owns_initial.
    + intros name Ho. split; [|by apply initialTask_ok]. cbn.
      eapply owns_inj; [by apply owns_initial|done].
  - intros t Ht. by apply elem_of_nil in Ht.
  - intros name n Hn. by rewrite sd_nodes0 in Hn.
Qed.
End complete.

Lemma buildUnits_settings g0 g :
  buildUnits g0 = Ok g -> g_allowCycles g = g_allowCycles g0 /\ g_timeout g = g_timeout g0.
Proof.
  unfold buildUnits. destruct (foldl unitOfNode _ _) as [nu us]. intros E.
  apply res_bind_Ok in E as ([[nu1 us1] gs] & _ & E). apply res_bind_Ok in E as (g1 & Eb & E).
  assert (g1 = g) as -> by (destruct (g_allowCycles g1); [|apply res_bind_Ok in E as (? & _ & E)];
    by injection E).
  unfold buildUnitEdges in Eb. apply res_bind_Ok in Eb as (st1 & _ & Eb).
  apply res_bind_Ok in Eb as (st2 & _ & Eb). by injection Eb as <-.
Qed.

(** ** Every state a started execution reaches *)

(** What a run starts from: a compiled graph without groups, cycles and loop
    bodies, with different names, and an execution of it without a deadline that
    the store does not know. *)
Record startable (g0 g : Graph) (snap0 : ExecutionSnapshot) (s : memoryState) : Prop := {
  sb_plain : plainGraph g0;
  sb_built : buildUnits g0 = Ok g;
  sb_acyclic : g_allowCycles g0 = false;
  sb_timeout : g_timeout g0 <= 0;
  sb_names : NoDup (map nm_Name (g_nodes g0));
  sb_bodies : forall nd, nd ∈ g_nodes g0 -> nm_HasBody nd = false;
  sb_units : (0 < UnitCount g)%nat;
  sb_graph : ex_Graph snap0 = Some g;
  sb_status : ex_Status snap0 = ExecutionStatusRunning;
  sb_fresh : fresh s (ex_ID snap0)
}.

Lemma startable_graph g0 g snap0 s : startable g0 g snap0 s ->
  nodeUnits g /\ NoDup (map nm_Name (g_nodes g)) /\ g_allowCycles g = false /\ g_timeout g <= 0 /\
  (forall nd, nd ∈ g_nodes g -> nm_HasBody nd = false) /\ (forall u, ~ tc (unitEdge g) u u).
Proof.
  intros [Hp Hb Hc Ht Hn Hbody _ _ _ _]. destruct (plain_nodeUnits g0 g Hp Hb) as (Hg & En & _).
  destruct (buildUnits_settings g0 g Hb) as [-> ->]. rewrite En. split_and!; try done.
  destruct (buildUnits_spec g0 (pg_wf g0 Hp)) as (g' & _ & _ & _ & _ & _ & _ & [[[H|H] E]|(_ & _ & E)]);
    rewrite Hb in E; simplify_eq; [congruence|done].
Qed.

Section runs.
Context (platformDelay : Z -> RetrySettings -> string -> string -> Duration)
  (hasExternalNodesReference : Graph -> nat -> nat -> bool)
  (expireIfLeaseTimeoutReached : memoryState -> Graph -> string -> option TaskLease ->
     memoryState * bool)
  (expandLoopSplit : memoryState -> TaskLease -> Graph -> Data ->
     res (memoryState * option string))
  (buildInput : memoryState -> Task -> Graph -> string + option Data)
  (suspendDisabled : option string).
Notation step g id := (step g id platformDelay hasExternalNodesReference expireIfLeaseTimeoutReached
                         expandLoopSplit buildInput suspendDisabled).

Lemma start_good g0 g snap0 hint now s : startable g0 g snap0 s ->
  exists tasks, submitInitialTasks (ex_ID snap0) g = Ok tasks /\
    forall s' queue,
      rtc (step g (ex_ID snap0)) (startExecution hint now s snap0 tasks, []) (s', queue) ->
      over g (ex_ID snap0) s' \/ live g (ex_ID snap0) s' queue.
Proof.
  intros HS. destruct (startable_graph g0 g snap0 s HS) as (Hg & Hnames & Hc & Ht & Hbody & Hacyclic).
  destruct HS as [_ _ _ _ _ _ Hu Hgr Hst Hfresh].
  destruct (start_started g (ex_ID snap0) Hg Hacyclic Hc snap0 eq_refl Hgr Hst Hu hint now s Hfresh)
    as (tasks & Etasks & Hs).
  exists tasks. split; [done|]. intros s' queue Hsteps.
  apply (rtc_ind_r (fun p => over g (ex_ID snap0) p.1 \/ live g (ex_ID snap0) p.1 p.2)) in Hsteps;
    [done| |].
  - right. by apply started_live.
  - intros p q _ Hstep HL. by eapply step_good.
Qed.

(** ** Main result *)

(** C3. No execution is left behind.  Take a compiled graph without groups and
    without cycles, whose nodes have different names and no loop bodies, and an
    execution of it started in a store that does not know it, with no deadline of
    its own.  The initial tasks can be planned, and after any number of steps of
    the engine, in any order (intents claimed, delivered, delivered again or left
    behind a crash, dead-lettered and replayed, tasks leased, renewed, reclaimed,
    retried, reported with success or failure, timed out, skipped, disabled,
    pinned, canceled by a merge), either the execution has ended, with success
    only if every node has finished, or its completion counter is the number of
    unfinished nodes and for one of them an intent, a dead letter, a queued task
    or a lease is under way. *)
Theorem no_execution_stuck g0 g snap0 hint now s :
  startable g0 g snap0 s ->
  let id := ex_ID snap0 in
  exists tasks, submitInitialTasks id g = Ok tasks /\
    forall s' queue,
      rtc (step g id) (startExecution hint now s snap0 tasks, []) (s', queue) ->
      over g id s' \/
      counter (remaining s') id = Z.of_nat (length (openNodes g id s')) /\
      exists nd, nd ∈ g_nodes g /\ finished id s' (nm_Name nd) = false /\
        underWay id s' queue (nm_Name nd).
Proof.
  intros HS id. destruct (start_good g0 g snap0 hint now s HS) as (tasks & Et & HG).
  exists tasks. split; [done|]. intros s' queue Hsteps.
  destruct (HG s' queue Hsteps) as [Ho|L]; [by left|right].
  destruct (startable_graph g0 g snap0 s HS) as (Hg & _ & Hc & _ & _ & Hacyclic). by apply live_work.
Qed.
End runs.

Definition demoStart (g : Graph) : ExecutionSnapshot :=
  demoExecution <| ex_Graph := Some g |> <| ex_Status := ExecutionStatusRunning |>.

Lemma demoDiamond_startable g :
  buildUnits demoDiamond = Ok g -> startable demoDiamond g (demoStart g) (newMemoryState false).
Proof.
  intros E. split.
  - exact demoDiamond_plain.
  - exact E.
  - reflexivity.
  - cbn. lia.
  - by apply (bool_decide_unpack _).
  - intros nd Hnd. revert nd Hnd. apply Forall_forall. by apply (bool_decide_unpack _).
  - vm_compute in E. injection E as <-. cbn. lia.
  - reflexivity.
  - reflexivity.
  - split; [apply life_inv_new|done|by split|done|done].
Qed.

Lemma no_execution_stuck_witness :
  exists g tasks,
    buildUnits demoDiamond = Ok g /\ submitInitialTasks (ex_ID (demoStart g)) g = Ok tasks /\
    let s := startExecution false 5 (newMemoryState false) (demoStart g) tasks in
    exists nd, nd ∈ g_nodes g /\ underWay (ex_ID (demoStart g)) s [] (nm_Name nd).
Proof.
  destruct (buildUnits demoDiamond) as [g| | |] eqn:E; try (vm_compute in E; done).
  destruct (no_execution_stuck (fun _ _ _ _ => 0) (fun _ _ _ => false) (fun s _ _ _ => (s, false))
    (fun s _ _ _ => Ok (s, None)) (fun _ _ _ => inr None) None demoDiamond g (demoStart g) false 5
    (newMemoryState false)) as (tasks & Et & H).
  - exact (demoDiamond_startable g E).
  - exists g, tasks. split; [done|]. split; [exact Et|].
    set (s := startExecution _ _ _ _ _) in *.
    destruct (H s [] (rtc_refl _ _)) as [(e & He & Hend & _)|(_ & nd & Hnd & _ & Hw)]; cycle 1.
    { exists nd. split; [exact Hnd|exact Hw]. }
    exfalso. unfold s in He. revert He Hend. vm_compute in E. injection E as <-. vm_compute in Et. injection Et as <-.
    vm_compute. by intros [= <-].
Defined.
