(* ===== verification/Flush.v ===== *)
(** * The flush

    [FlushOutbox] of [engine/atomic.go] with [claimOutbox] of
    [engine/outbox_lease.go] and the failure bookkeeping of [engine/observers.go]:
    claim a batch of ready intents, consume the engine's own tasks in place, hand
    the others to the queue, acknowledge, and poll again while the batch may have
    more behind it.  The queue is any [TaskQueue]; the clock is the list of the
    instants at which the loop polls, which also bounds the loop; what a batch
    does, it does at the instant of its poll.  The lease keeper that runs beside
    the loop is in [Keeper]; spans and notifications are left out. *)

From S2P Require Import Prelude Keys Types Retry Queue Graph Units MergeCancel State Slots Executions Outbox Lease Commit System Typed Arrivals Verdict Delivery Progress Completion.

Section flush.
Context {Q : Type} `{!TaskQueue Q}.
Context (maxAttempts : Z).

Definition batchSize : Z := 256.

(** The branches of [handleSystemTask] a flush reaches. *)
Definition handleInline (now : Time) (s : memoryState) (task : Task)
    : res (memoryState * SystemAnswer) :=
  match t_Type task with
  | TaskTypeNodeAdvance => handleAdvanceTask now s task
  | TaskTypeNodeSkip => handleSkipTask now s task
  | TaskTypeMergeCancel => handleMergeCancelTask now s task
  | _ => Ok (s, (false, None))
  end.

Definition claimOutbox (s : memoryState) (id : string) (now : Time) (limit : Z)
    : memoryState * list OutboxEntry :=
  LeaseOutbox s id now limit.

Definition recordOutboxDeliveryFailure (s : memoryState) (id : string) (entry : OutboxEntry)
    : memoryState :=
  (RecordOutboxFailure (ReleaseOutbox s id entry) id entry maxAttempts).1.

Definition handOver (now : Time) (q : Q) (entry : OutboxEntry) : Q * option EnqueueError :=
  if After (oe_AvailableAt entry) now
  then enqueueDelayed q (stampTask entry) (Sub (oe_AvailableAt entry) now)
  else tryEnqueue q (stampTask entry).

(** What became of one entry: acknowledged (and whether its handling may have
    appended intents), failed, or held back by a full queue. *)
Inductive delivery : Type := Acked (appended : bool) | NotDelivered | QueueFull.

Definition deliverEntry (now : Time) (id : string) (s : memoryState) (q : Q) (entry : OutboxEntry)
    : res (memoryState * Q * delivery) :=
  let ack s := AckOutbox s id (oe_ID entry) in
  if inlineTask (oe_Task entry) then
    r ← handleInline now s (oe_Task entry);
    Ok (match r with
        | (s, (_, Some ErrExecutionInactive)) => (ack s, q, Acked false)
        | (s, (_, Some _)) | (s, (false, None)) =>
            (recordOutboxDeliveryFailure s id entry, q, NotDelivered)
        | (s, (true, None)) => (ack s, q, Acked true)
        end)
  else
    Ok (match handOver now q entry with
        | (q, None) => (ack s, q, Acked false)
        | (q, Some ErrQueueFull) => (s, q, QueueFull)
        | (q, Some _) => (recordOutboxDeliveryFailure s id entry, q, NotDelivered)
        end).

Definition releaseAll (id : string) (s : memoryState) (entries : list OutboxEntry) : memoryState :=
  foldl (fun s entry => ReleaseOutbox s id entry) s entries.

Inductive batchEnd : Type := BatchFull | BatchDone (appended failed : bool).

Fixpoint deliverBatch (now : Time) (id : string) (entries : list OutboxEntry) (s : memoryState)
    (q : Q) (appended failed : bool) : res (memoryState * Q * batchEnd) :=
  match entries with
  | [] => Ok (s, q, BatchDone appended failed)
  | entry :: rest =>
      r ← deliverEntry now id s q entry;
      match r with
      | (s, q, Acked more) => deliverBatch now id rest s q (appended || more) failed
      | (s, q, NotDelivered) => deliverBatch now id rest s q appended true
      | (s, q, QueueFull) => Ok (releaseAll id s entries, q, BatchFull)
      end
  end.

(** How a flush ends: nothing ready, stopped by a full queue, or an error. *)
Inductive flushEnd : Type := Drained | Backpressure | FlushError.

Fixpoint FlushOutbox (clock : list Time) (id : string) (s : memoryState) (q : Q)
    : res (memoryState * Q * flushEnd) :=
  match clock with
  | [] => OutOfFuel
  | now :: clock =>
      let '(s, entries) := claimOutbox s id now batchSize in
      match entries with
      | [] => Ok (s, q, Drained)
      | _ =>
          r ← deliverBatch now id entries s q false false;
          match r with
          | (s, q, BatchFull) => Ok (s, q, Backpressure)
          | (s, q, BatchDone appended failed) =>
              if failed : bool then Ok (s, q, FlushError)
              else if negb appended && (Z.of_nat (length entries) <? batchSize)
              then Ok (s, q, Drained)
              else FlushOutbox clock id s q
          end
      end
  end.
End flush.

(** ** What handling an intent does to the others *)

(** Intents that are not on hold stay as they are. *)
Definition keepsDue (id : string) (s s' : memoryState) : Prop :=
  forall key st, outboxOf s id !! key = Some st -> isHeld st = false ->
  outboxOf s' id !! key = Some st.

#[export] Instance keepsDue_order id : PreOrder (keepsDue id).
Proof. split; [by intros s key st|]. intros s1 s2 s3 H1 H2 key st Hk Hh. auto. Qed.

Lemma due_same id s s' : outbox s' = outbox s -> keepsDue id s s'.
Proof. intros E key st. unfold outboxOf. by rewrite E. Qed.

Lemma due_unpark id x s : keepsDue id s (unpark s x).
Proof.
  intros key st Hk Hh. unfold unpark, outboxOf in *. cbn.
  destruct (decide (x = id)) as [->|Hne]; [|by rewrite lookup_alter_ne].
  rewrite lookup_alter_eq. destruct (outbox s !! id) as [m|]; [|done]. cbn in *.
  rewrite lookup_fmap, Hk. cbn. by rewrite Hh.
Qed.

Lemma due_promote id fuel now s slot : keepsDue id s (promoteLoop fuel now s slot).1.
Proof.
  revert s slot. induction fuel as [|fuel IH]; intros s slot; [done|]. cbn. unfold promoteOne.
  destruct (ws_queued slot) as [|x line]; [done|]. case_bool_decide; [|done].
  etrans; [|apply IH]. unfold completePromotionLocked. cbn zeta.
  match goal with |- context [if decide (x ∈ mirrorCreatePending ?s2) then _ else _] =>
    set (s1 := s2); assert (H1 : keepsDue id s s1) end.
  { unfold s1. repeat case_match; by apply due_same. }
  clearbody s1. case_decide; [done|]. etrans; [exact H1|apply due_unpark].
Qed.

Lemma due_dropHeld id x s : keepsDue id s (dropHeldOutboxLocked s x).
Proof.
  intros key st Hk Hh. assert (Hr : x = id ->
    filter (fun kv : string * memoryOutboxEntry => isHeld kv.2 = false) (outboxOf s x) !! key = Some st).
  { intros ->. apply map_lookup_filter_Some. done. }
  unfold dropHeldOutboxLocked. cbn zeta. destruct (decide (x = id)) as [->|Hne].
  - specialize (Hr eq_refl). case_decide as E; [by rewrite E in Hr|].
    unfold outboxOf. cbn. by rewrite lookup_insert_eq.
  - case_decide; unfold outboxOf in *; cbn; by rewrite ?lookup_delete_ne, ?lookup_insert_ne.
Qed.

Lemma due_release id now s x : keepsDue id s (releaseWorkflowSlotLocked now s x).
Proof.
  assert (Hset : forall s1 slot, keepsDue id s s1 -> keepsDue id s (Slots.settle now s1 slot)).
  { intros s1 slot H. etrans; [exact H|]. unfold Slots.settle, promoteLocked.
    pose proof (due_promote id (length (ws_queued slot)) now s1 slot) as Hp.
    destruct (promoteLoop _ now s1 slot) as [s2 sl]. by case_bool_decide. }
  unfold releaseWorkflowSlotLocked. destruct (slotHolders s !! x); [apply Hset; by apply due_same|].
  destruct (State.queued s !! x); [|done]. apply Hset. etrans; [|apply due_dropHeld]. by apply due_same.
Qed.

Lemma due_finish id now s x e st msg : keepsDue id s (finishExecutionLocked now s x e st msg).
Proof.
  unfold finishExecutionLocked. destruct (IsTerminalExecutionStatus _); [done|]. cbn zeta.
  match goal with |- context [releaseWorkflowSlotLocked now ?s1 x] =>
    assert (H1 : keepsDue id s s1); [|etrans; [exact H1|apply (due_release id now s1 x)]] end.
  unfold withdrawDeadlineLocked. repeat case_match; by apply due_same.
Qed.

Lemma due_commit id now s req : keepsDue id s (commitNodeLocked now s req).1.
Proof.
  apply (commit_rel_steps (withRows (keepsDue id)) (keepsDue id)).
  - by intros s1 s2 [_ H].
  - by intros s1 s2 [E _].
  - intros s1 c. destruct (commitWrite_quiet now s1 req c) as [[E _] Eo _ _ _].
    split; [done|by apply due_same].
  - intros s1 f. split; [done|by apply due_same].
  - intros s1 f. split; [done|by apply due_same].
  - intros s1 x o. split; [apply putOutboxEntry_frame|]. intros key st Hk _. by apply put_keeps.
  - intros s1 x act depth l. split; [apply applyArrivals_frame|]. intros key st Hk _.
    by apply (fold_arrivals_grows now x act depth s1 ([], []) l).
  - intros s1 e st msg _ _. apply due_finish.
Qed.

(** ** How many intents a commit writes *)

Lemma length_omap_le {A B} (f : A -> option B) l : (length (omap f l) <= length l)%nat.
Proof. induction l as [|x l IH]; cbn; [lia|]. destruct (f x); cbn; lia. Qed.

Lemma size_list_to_set_le (l : list nat) : (size (list_to_set l : gset nat) <= length l)%nat.
Proof.
  induction l as [|x l IH]; cbn; [by rewrite size_empty|].
  pose proof (size_union_alt ({[x]} : gset nat) (list_to_set l)) as E.
  pose proof (subseteq_size (list_to_set l ∖ {[x]} : gset nat) (list_to_set l)) as H.
  rewrite size_singleton in E. specialize (H ltac:(set_solver)). lia.
Qed.

Definition intents (id : string) (s : memoryState) : nat := size (outboxOf s id).

Lemma tasks_fewer id s s' : tasksFrom s s' -> (intents id s' <= intents id s)%nat.
Proof.
  intros [_ T]. unfold intents. rewrite <- !(size_dom (D := gset string)). apply subseteq_size.
  intros key [st Hk]%elem_of_dom. apply elem_of_dom. apply T in Hk as (st0 & Hk & _). by exists st0.
Qed.

Lemma put_intents now s id o : (intents id (putOutboxEntryLocked now s id o).1 <= S (intents id s))%nat.
Proof.
  unfold putOutboxEntryLocked. case_decide; [cbn; lia|]. destruct (outboxOf s id !! oe_ID o); [cbn; lia|].
  cbn zeta. cbn [fst]. unfold intents, outboxOf. cbn. rewrite lookup_insert_eq. cbn.
  rewrite map_size_insert. case_match; cbn; lia.
Qed.

Lemma arrival_intents now id act depth s r a :
  (intents id (applyArrival now id act depth (s, r) a).1 <= S (intents id s))%nat.
Proof.
  destruct (Z.le_gt_cases (da_ArrivalCount a) 0) as [Hz|Hc].
  { rewrite applyArrival_none by done. cbn. lia. }
  unfold intents. destruct (applyArrival_put now id act depth s r a) as [E|(s1 & sch & E1 & _ & _ & E)];
    unfold outboxOf in *; rewrite E; [lia|]. etrans; [apply (put_intents now s1 id)|].
  unfold intents, outboxOf. by rewrite E1.
Qed.

Lemma arrivals_intents now id act depth s r l :
  (intents id (foldl (applyArrival now id act depth) (s, r) l).1 <= intents id s + length l)%nat.
Proof.
  revert s r. induction l as [|a l IH]; intros s r; [cbn; lia|]. cbn [foldl length].
  pose proof (arrival_intents now id act depth s r a) as H.
  destruct (applyArrival now id act depth (s, r) a) as [s1 r1]. cbn [fst] in H.
  etrans; [apply IH|]. lia.
Qed.

(** A commit that carries arrivals and nothing else. *)
Lemma commit_intents now s req :
  req_AllowCycles req = false -> req_AdvanceTask req = None -> req_MergeCancel req = None ->
  (intents (req_ExecutionID req) (commitNodeLocked now s req).1
     <= intents (req_ExecutionID req) s + length (req_Arrivals req))%nat.
Proof.
  intros Hac Ha Hm. set (id := req_ExecutionID req).
  destruct (decide (res_Outcome (commitNodeLocked now s req).2 = CommitOutcomeAccepted)) as [Ho|Ho];
    [|rewrite commit_refused_same by done; lia].
  apply commit_accepted_inv in Ho as (e & _ & _ & _ & _ & ->). cbn zeta.
  set (w := commitWriteNode now s req _).
  assert (Hw : (intents id w <= intents id s)%nat).
  { apply tasks_fewer, same_tasks; apply commitWrite_quiet. }
  assert (Hc : (intents id (commitCount now w req e).1 <= intents id w)%nat).
  { apply tasks_fewer. by apply count_tasks. }
  destruct (commitCount now w req e) as [sc final]. cbn [fst] in *.
  unfold commitSchedule. rewrite Hac, Ha, Hm. cbn [negb andb].
  assert (En : forall b : bool, (if b then None else None) = @None Task) by (by intros []).
  rewrite !En. cbn [putOptional]. destruct (_ && _); cbn [fst]; [|lia].
  pose proof (arrivals_intents now id (req_ActivationID req) (req_AutoDepth req) sc ([], []) (req_Arrivals req)) as H.
  unfold applyArrivalsLocked. destruct (foldl _ _ _) as [s3 [ids sk]]. cbn [fst] in *. lia.
Qed.

(** ** The claimed batch *)

(** An entry a flush holds is in the outbox under its id, and is not on hold. *)
Definition claimed (id : string) (s : memoryState) (e : OutboxEntry) : Prop :=
  exists st, outboxOf s id !! oe_ID e = Some st /\ isHeld st = false /\
    oe_Task e = oe_Task (ob_entry st) /\ stampTask e = stampTask (ob_entry st).

Lemma claimed_due id s s' e : keepsDue id s s' -> claimed id s e -> claimed id s' e.
Proof. intros H (st & Hk & Hh & Ht). exists st. split; [by apply H|done]. Qed.

Definition leasedEntry (now : Time) (st : memoryOutboxEntry) : OutboxEntry :=
  ob_entry st <| oe_LeaseDeadlineMs := UnixMilli (Add now OutboxDeliveryLeaseTTL) |>.

Lemma leaseAll_out now s id ids :
  NoDup ids ->
  (leaseAll now s id ids).2 = omap (fun key => leasedEntry now <$> outboxOf s id !! key) ids.
Proof.
  revert s. induction ids as [|x ids IH]; intros s Hd; [done|]. apply NoDup_cons in Hd as [Hx Hd].
  cbn. destruct (outboxOf s id !! x) as [held|] eqn:E; cbn; [|by apply IH].
  match goal with |- context [leaseAll now ?s1 id ids] => pose proof (IH s1 Hd) as H;
    assert (Hs : forall key, key ∈ ids -> outboxOf s1 id !! key = outboxOf s id !! key) end.
  { intros key Hk. rewrite (lookup_setOutbox s id x held) by done. case_decide as Ek; [|done].
    by destruct Ek as [_ ->]. }
  destruct (leaseAll _ _ _ ids) as [s2 out]. cbn in *. rewrite H. f_equal.
  clear -Hs. induction ids as [|k ids IH]; [done|]. cbn. rewrite Hs by (by left).
  rewrite IH; [done|]. intros key Hk. apply Hs. by right.
Qed.

Lemma ready_nodup s id now limit : NoDup (readyOutboxIDsLocked s id now limit).
Proof.
  unfold readyOutboxIDsLocked. cbn zeta. destruct (_ || _ || _); [constructor|].
  assert (H : NoDup (sortSlice String.ltb (map fst (filter (fun kv => dueAt now kv.2 = true)
    (map_to_list (outboxOf s id)))))).
  { rewrite sortSlice_Permutation. apply (sublist_NoDup _ (map fst (map_to_list (outboxOf s id)))).
    - apply NoDup_fst_map_to_list.
    - apply fmap_sublist, sublist_filter. }
  unfold bounded. case_match; [|done]. eapply sublist_NoDup; [done|apply sublist_take].
Qed.

Lemma due_free now st : now < queuedOutboxHold -> dueAt now st = true -> isHeld st = false.
Proof.
  unfold dueAt, isHeld, Equal, After, IsZero. intros Hn [_ H]%andb_true_iff.
  apply Z.eqb_neq. intros E. rewrite E in H. apply orb_true_iff in H as [H|H].
  - apply Z.eqb_eq in H. by unfold queuedOutboxHold, zeroTime in H.
  - apply negb_true_iff in H. apply Z.ltb_ge in H. lia.
Qed.

Lemma claim_claimed s id now limit s1 entries :
  typed s -> now < queuedOutboxHold -> claimOutbox s id now limit = (s1, entries) ->
  Forall (claimed id s1) entries /\ NoDup (map oe_ID entries).
Proof.
  intros HT Hn E. unfold claimOutbox, LeaseOutbox in E.
  pose proof (ready_nodup s id now limit) as Hd.
  pose proof (leaseAll_out now s id _ Hd) as Ho.
  pose proof (fun eid => leaseAll_lookup now s id (readyOutboxIDsLocked s id now limit) id eid) as Hl.
  rewrite E in Ho, Hl. cbn [fst snd] in *. subst entries.
  assert (Hid : forall key st, outboxOf s id !! key = Some st -> oe_ID (ob_entry st) = key).
  { intros key st Hk. apply (filed_lookup _ id (ty_outbox s HT) key st Hk). }
  split.
  - apply Forall_forall. intros e (key & Hk & He)%list_elem_of_omap.
    apply fmap_Some in He as (st & Hst & ->). exists (leaseUntil (Add now OutboxDeliveryLeaseTTL) st).
    cbn. rewrite (Hid key st Hst), Hl, decide_True, Hst by done. split_and!; try done.
    apply (due_free now st); [done|]. apply elem_of_ready in Hk as (st' & Hst' & Hdue & _). congruence.
  - revert Hd. generalize (readyOutboxIDsLocked s id now limit) as ids. clear -Hid.
    induction ids as [|x ids IH]; intros Hd; [constructor|]. apply NoDup_cons in Hd as [Hx Hd]. cbn.
    destruct (outboxOf s id !! x) as [st|] eqn:E; cbn; [|by apply IH]. rewrite (Hid x st E).
    constructor; [|by apply IH]. intros Hin. apply Hx.
    apply list_elem_of_fmap in Hin as (e & -> & He). apply list_elem_of_omap in He as (key & Hk & He).
    apply fmap_Some in He as (st' & Hst & ->). cbn. by rewrite (Hid key st' Hst).
Qed.

(** ** Handling an intent of a live execution *)

Section handling.
Context (g : Graph) (id : string) (Hg : nodeUnits g) (Hnames : NoDup (map nm_Name (g_nodes g))).
Context (Hac : g_allowCycles g = false) (Htimeout : g_timeout g <= 0)
  (Hbody : forall nd, nd ∈ g_nodes g -> nm_HasBody nd = false).
Context (Hin : inEdgesOK g) (Hfed : forall u v, feeds (g_inEdges g) u v -> has_unit g u).
Set Default Proof Using "Type*".

Notation live := (live g id).
Notation over := (over g id).

(** What is left to deliver: the intents there are, and for every open node as
    many as it may still write. *)
Definition potential (s : memoryState) : nat :=
  intents id s + length (concat (g_outEdges g)) * length (openNodes g id s).

Record handled (s s' : memoryState) : Prop := {
  hd_due : keepsDue id s s';
  hd_typed : keepsTyped s s';
  hd_potential : (potential s' <= potential s)%nat
}.

#[export] Instance handled_order : PreOrder handled.
Proof using Type.
  split; [by split|]. intros s1 s2 s3 [A1 B1 C1] [A2 B2 C2]. split; [by etrans|by etrans|lia].
Qed.

Lemma arrivals_bound i port l :
  downstreamArrivals g (Z.of_nat i) port = Ok l -> (i < NodeCount g)%nat ->
  (length l <= length (concat (g_outEdges g)))%nat.
Proof.
  intros Hl Hi. destruct (downstream_simple g Hg i port Hi) as (m & Hm & Hc).
  rewrite Hl in Hm. injection Hm as ->.
  assert (H1 : (length (inIndexOrder m) <= size (dom m))%nat).
  { unfold inIndexOrder. etrans; [apply length_omap_le|]. by rewrite merge_sort_Permutation. }
  assert (H2 : dom m ⊆ (list_to_set (map e_DstIdx (outEdgesOf g i)) : gset nat)).
  { intros j [a Ha]%elem_of_dom. specialize (Hc j). rewrite Ha in Hc. destruct Hc as [Hne _].
    apply elem_of_list_to_set, list_elem_of_fmap.
    destruct (edgesTo j (outEdgesOf g i)) as [|e es] eqn:E; [done|]. exists e.
    assert (He : e ∈ edgesTo j (outEdgesOf g i)) by (rewrite E; by left).
    by apply list_elem_of_filter in He as [<- He]. }
  apply subseteq_size in H2. pose proof (size_list_to_set_le (map e_DstIdx (outEdgesOf g i))) as H3.
  rewrite length_fmap in H3. assert (H4 : (length (outEdgesOf g i) <= length (concat (g_outEdges g)))%nat).
  { unfold outEdgesOf. destruct (g_outEdges g !! i) as [es|] eqn:E; cbn; [|lia].
    apply list_elem_of_lookup_2 in E. apply list_elem_of_split in E as (a & b & ->).
    rewrite concat_app, !length_app. cbn. rewrite length_app. lia. }
  lia.
Qed.

Lemma commit_handled now s req i v nd :
  commits g id req i v nd -> req_MergeCancel req = None ->
  (exists port, downstreamArrivals g (Z.of_nat i) port = Ok (req_Arrivals req)) ->
  handled s (CommitNode now s req).1.
Proof.
  intros C Hm (port & Hl). split; [|apply commitNode_typed|].
  - destruct (CommitNode_state now s req) as [->| ->]; [done|apply due_commit].
  - destruct (CommitNode_state now s req) as [->| ->]; [done|].
    destruct (decide (res_Outcome (commitNodeLocked now s req).2 = CommitOutcomeAccepted)) as [Ho|Ho];
      [|by rewrite commit_refused_same].
    pose proof (commit_intents now s req (cm_acyclic _ _ _ _ _ _ C) (cm_advance _ _ _ _ _ _ C) Hm) as Hi.
    rewrite (cm_id _ _ _ _ _ _ C) in Hi.
    pose proof (arrivals_bound i port _ Hl) as Hb. specialize (Hb ltac:(by apply (lookup_lt_Some _ _ nd), C)).
    pose proof (accepted_step g id Hg Hnames Hac Htimeout Hbody now s req i v nd C Ho) as Hs.
    unfold potential. rewrite Hs. lia.
Qed.

(** The answer of a handler that found the execution live. *)
Definition answered (a : SystemAnswer) : Prop :=
  a = (true, None) \/ exists err, a = (true, Some err) /\ err <> ErrExecutionInactive.

Lemma commit_answered r : answered (commitAnswer r).2.
Proof. unfold commitAnswer. destruct r.2; [right|by left]. by eexists. Qed.

Lemma commit_unserved now s req : (commitAnswer (CommitNode now s req)).2 = (true, None) \/
  (CommitNode now s req).1 = s.
Proof. unfold commitAnswer, CommitNode. destruct (Validate req); [by right|left]. by destruct (commitNodeLocked now s req). Qed.

Lemma skip_handled now s queue key st :
  live s queue -> intentAt id s key st -> t_Type (oe_Task (ob_entry st)) = TaskTypeNodeSkip ->
  exists s1 a, handleSkipTask now s (oe_Task (ob_entry st)) = Ok (s1, a) /\ handled s s1 /\
    answered a /\ (a = (true, None) \/ s1 = s).
Proof.
  intros L Hk Hty.
  destruct (lv_outbox _ _ _ _ L key st Hk) as ((j & v & nd & Hj & Hid & Hnm & Hji & Hvi & Hact) & _).
  set (t := oe_Task (ob_entry st)) in *. unfold handleSkipTask.
  rewrite Hid, (proj2 (live_graph g id Hg Hnames Hac Htimeout Hbody _ _ L)).
  assert (Hn : (j < NodeCount g)%nat) by (by apply (lookup_lt_Some _ _ nd), Hj).
  assert (Hv : (v < UnitCount g)%nat) by (by apply (up_range g (nu_partition g Hg) j), Hj).
  unfold handleSkip. rewrite Hji, Hvi.
  replace ((_ <? 0) || _) with false by (symmetry; apply orb_false_iff; lia).
  replace ((_ <? 0) || _) with false by (symmetry; apply orb_false_iff; lia).
  destruct (downstream_simple g Hg j "" Hn) as (m & Hm & _). rewrite Hm. cbn.
  set (req := skipRequest t _ (inIndexOrder m)).
  assert (C : commits g id req j v nd).
  { apply skip_commits; try done. by rewrite Hji. }
  destruct (commitAnswer (CommitNode now s req)) as [s1 a] eqn:E. exists s1, a.
  pose proof (commit_answered (CommitNode now s req)) as Ha.
  pose proof (commit_unserved now s req) as Hu.
  assert (E1 : (commitAnswer (CommitNode now s req)).1 = (CommitNode now s req).1)
    by (unfold commitAnswer; by case_match).
  rewrite E in Ha, Hu, E1. cbn [fst snd] in *. subst s1.
  split_and!; [done| |done|by destruct Hu; [left|right]].
  eapply commit_handled; [exact C|done|by exists ""].
Qed.

Lemma cancelNode_handled now s0 s queue t i merge :
  fine g id s0 queue s -> t_ExecutionID t = id -> t_ActivationID t = 0 -> has_unit g i ->
  exists s1 r, cancelClosureNode now s t g i merge = Ok (s1, r) /\ handled s s1 /\
    r <> inl ErrExecutionInactive.
Proof.
  intros HL Hid Hact (u & Hu). unfold cancelClosureNode. rewrite Hid, Hact.
  assert (Hi : (i < NodeCount g)%nat).
  { apply lookup_lt_Some in Hu. by rewrite (up_length g (nu_partition g Hg)) in Hu. }
  destruct (lookup_lt_is_Some_2 _ _ Hi) as [nd Hnd].
  destruct (lookup_lt_is_Some_2 _ _ (up_range g (nu_partition g Hg) i u Hu)) as [um Hum].
  unfold NodeAt, unitOf, UnitKindAt. rewrite (proj2 (idx_Ok _ _ _) Hnd), (proj2 (idx_Ok _ _ _) Hu). cbn.
  rewrite (proj2 (idx_Ok _ _ _) Hum). cbn.
  destruct (um_Kind um); [|by exists s, (inr true); split_and!].
  destruct (downstream_simple g Hg i "" Hi) as (m & Hm & _).
  set (req := cancelRequest t i u (nm_Name nd) (activationForCancelCommit (GetNode s id (nm_Name nd)) 0)
                merge (inIndexOrder m)).
  assert (Hcommit : handled s (CommitNode now s req).1).
  { destruct HL as [Ho|[L _]].
    - by rewrite (over_commit g id Hg Hnames Hac Htimeout Hbody now s req Ho).
    - eapply (commit_handled now s req i u nd); [|done|by exists ""].
      split; try done; [|right; by exists ""]. unfold req. cbn.
      by apply (cancel_activation g id Hg Hnames Hac Htimeout Hbody s queue). }
  assert (Hend : exists s1 r, (arrivals ← downstreamArrivals g (Z.of_nat i) "";
      let '(s, r) := CommitNode now s (cancelRequest t i u (nm_Name nd)
        (activationForCancelCommit (GetNode s id (nm_Name nd)) 0) merge arrivals) in
      Ok (s, match r with inl err => inl (ErrRequest err) | inr _ => inr false end)) = Ok (s1, r) /\
    handled s s1 /\ r <> inl ErrExecutionInactive).
  { rewrite Hm. cbn. fold req. destruct (CommitNode now s req) as [s1 [err|r]]; by eexists _, _. }
  destruct (ns_Status <$> GetNode s id (nm_Name nd)) as [st|]; [destruct st|]; try exact Hend;
    by exists s; eexists; split_and!.
Qed.

Lemma cancelNodes_handled now s0 s queue t closure merge :
  fine g id s0 queue s -> t_ExecutionID t = id -> t_ActivationID t = 0 -> Forall (has_unit g) closure ->
  exists s1 a, cancelClosureNodes now s t g closure merge = Ok (s1, a) /\ handled s s1 /\ answered a.
Proof.
  revert s. induction closure as [|i closure IH]; intros s HL Hid Hact Hu; cbn.
  { exists s, (true, None). split_and!; [done..|by left]. }
  inversion_clear Hu as [|? ? Hi Hc].
  destruct (cancelNode_handled now s0 s queue t i merge HL Hid Hact Hi) as (s1 & r & E & H1 & Hr).
  pose proof (cancelNode_live g id Hg Hnames Hac Htimeout Hbody now s0 s queue t i merge s1 r HL Hid Hact E)
    as HL1.
  rewrite E. cbn. destruct r as [err|b].
  - exists s1, (true, Some err). split_and!; [done..|]. right. exists err. split; [done|congruence].
  - destruct (IH s1 HL1 Hid Hact Hc) as (s2 & a & E2 & H2 & Ha). exists s2, a.
    split_and!; [done|by etrans|done].
Qed.

Lemma closure_units root closure :
  (root < NodeCount g)%nat -> CancelClosure g (Z.of_nat root) = Ok closure -> Forall (has_unit g) closure.
Proof.
  intros Hr E. destruct (closure_walk g root Hin Hac Hr) as (seen & out & E' & W).
  rewrite E in E'. injection E' as <-. apply Forall_forall. intros u Hu.
  pose proof (wk_above _ _ _ _ _ W u Hu) as Ht. by destruct Ht as [u v Hf|u w v Hf _]; eapply Hfed.
Qed.

Lemma cancel_handled now s queue key st :
  live s queue -> intentAt id s key st -> t_Type (oe_Task (ob_entry st)) = TaskTypeMergeCancel ->
  exists s1 a, handleMergeCancelTask now s (oe_Task (ob_entry st)) = Ok (s1, a) /\ handled s s1 /\
    answered a.
Proof.
  intros L Hk Hty.
  destruct (lv_outbox _ _ _ _ L key st Hk) as ((j & v & nd & Hj & Hid & Hnm & Hji & Hvi & Hact) & _).
  set (t := oe_Task (ob_entry st)) in *. unfold handleMergeCancelTask.
  rewrite Hid, (proj2 (live_graph g id Hg Hnames Hac Htimeout Hbody _ _ L)).
  assert (Hn : (j < NodeCount g)%nat) by (by apply (lookup_lt_Some _ _ nd), Hj).
  rewrite Hji. replace (nodeInRange g (Z.of_nat j)) with true
    by (symmetry; unfold nodeInRange; apply andb_true_iff; rewrite negb_true_iff; lia).
  cbn [negb]. unfold NodeAt. rewrite Nat2Z.id, (proj2 (idx_Ok _ _ _) (proj2 Hj)). cbn.
  destruct (closure_walk g j Hin Hac Hn) as (seen & out & E & _). rewrite E. cbn.
  apply (cancelNodes_handled now s s queue); try done; [|by eapply closure_units].
  right. split; [done|by intros ??].
Qed.
End handling.

(** ** Bookkeeping of one entry *)

(** Only the intent under [key] may change or go, and only the outbox does. *)
Record settles (id key : string) (s s' : memoryState) : Prop := {
  se_others : forall k st, k <> key -> outboxOf s id !! k = Some st -> outboxOf s' id !! k = Some st;
  se_typed : keepsTyped s s';
  se_nodes : nodes s' = nodes s;
  se_fewer : forall k, is_Some (outboxOf s' id !! k) -> is_Some (outboxOf s id !! k)
}.

#[export] Instance settles_order id key : PreOrder (settles id key).
Proof.
  split; [by split|]. intros s1 s2 s3 [A1 B1 C1 D1] [A2 B2 C2 D2].
  split; [auto|by etrans|congruence|auto].
Qed.

Lemma settles_intents id key s s' : settles id key s s' -> (intents id s' <= intents id s)%nat.
Proof.
  intros [_ _ _ D]. unfold intents. rewrite <- !(size_dom (D := gset string)). apply subseteq_size.
  intros k Hk%elem_of_dom. by apply elem_of_dom, D.
Qed.

Lemma settles_claimed id key s s' e :
  settles id key s s' -> oe_ID e <> key -> claimed id s e -> claimed id s' e.
Proof. intros H Hne (st & Hk & Hr). exists st. split; [|done]. by apply (se_others _ _ _ _ H). Qed.

Lemma outbox_acked s id key : outboxOf (AckOutbox s id key) id = delete key (outboxOf s id).
Proof.
  apply map_eq. intros k. unfold outboxOf, AckOutbox. cbn. rewrite lookup_deleteEntry, lookup_delete.
  case_decide as E; [destruct E as [_ ->]|]; case_decide; naive_solver.
Qed.

Lemma ack_settles id key s : settles id key s (AckOutbox s id key).
Proof.
  split; [|apply ack_typed|done|]; intros k; rewrite outbox_acked.
  - intros st Hne Hk. by rewrite lookup_delete_ne.
  - rewrite lookup_delete_is_Some. tauto.
Qed.

Lemma set_settles id key s e e' :
  outboxOf s id !! key = Some e -> oe_ID (ob_entry e') = oe_ID (ob_entry e) ->
  settles id key s (setOutbox s id key e').
Proof.
  intros He Hid. split; [|by eapply set_typed|done|]; intros k; rewrite (lookup_setOutbox s id key e) by done.
  - intros st Hne Hk. by rewrite decide_False by naive_solver.
  - case_decide as E; [destruct E as [_ ->]; by rewrite He|done].
Qed.

Lemma release_settles id s e : settles id (oe_ID e) s (ReleaseOutbox s id e).
Proof.
  unfold ReleaseOutbox. destruct (outboxOf s id !! oe_ID e) eqn:E; [|done]. by eapply set_settles.
Qed.

Lemma failure_settles id s e limit : settles id (oe_ID e) s (RecordOutboxFailure s id e limit).1.
Proof.
  pose proof (fail_typed s id e limit) as HT. revert HT. unfold RecordOutboxFailure. cbn zeta.
  destruct (outboxOf s id !! oe_ID e) as [st0|] eqn:E; [|done].
  destruct (_ <=? _); cbn [fst]; [|intros _; by eapply set_settles].
  intros HT. destruct (ack_settles id (oe_ID e) s) as [A _ C D]. by split.
Qed.

(** ** The flush as steps *)

Section refinement.
Context {Q : Type} `{!TaskQueue Q}.
Context (g : Graph) (id : string) (Hg : nodeUnits g) (Hnames : NoDup (map nm_Name (g_nodes g))).
Context (Hac : g_allowCycles g = false) (Htimeout : g_timeout g <= 0)
  (Hbody : forall nd, nd ∈ g_nodes g -> nm_HasBody nd = false).
Context (Hin : inEdgesOK g) (Hfed : forall u v, feeds (g_inEdges g) u v -> has_unit g u).
Context (platformDelay : Z -> RetrySettings -> string -> string -> Duration)
  (hasExternalNodesReference : Graph -> nat -> nat -> bool)
  (expireIfLeaseTimeoutReached : memoryState -> Graph -> string -> option TaskLease ->
     memoryState * bool)
  (expandLoopSplit : memoryState -> TaskLease -> Graph -> Data ->
     res (memoryState * option string))
  (buildInput : memoryState -> Task -> Graph -> string + option Data)
  (suspendDisabled : option string).
Context (maxAttempts : Z).
Set Default Proof Using "Type*".

Notation step := (step g id platformDelay hasExternalNodesReference expireIfLeaseTimeoutReached
                    expandLoopSplit buildInput suspendDisabled).
Notation good s q := (over g id s \/ live g id s (Queue.queued q)).

(** Steps from one store and queue to another, up to the order of the queue. *)
Definition reaches (s : memoryState) (q : Q) (s' : memoryState) (q' : Q) : Prop :=
  exists l, rtc step (s, Queue.queued q) (s', l) /\ l ≡ₚ Queue.queued q'.

Lemma live_perm s l l' : l ≡ₚ l' -> live g id s l -> live g id s l'.
Proof.
  intros E [H1 H2 H3 H4 H5 H6 H7 H8 H9 H10 H11]. split; try done.
  - intros j v nd Hj Hm. destruct (H6 j v nd Hj Hm) as [H|[H|[(t & Ht & Hn)|H]]]; [by left|right..].
    + by left.
    + right; left. exists t. split; [by rewrite <- E|done].
    + by right; right.
  - intros t Ht. apply H9. by rewrite E.
Qed.

Lemma step_perm s l s' l' m :
  step (s, l) (s', l') -> l ≡ₚ m -> exists m', step (s, m) (s', m') /\ l' ≡ₚ m'.
Proof.
  intros Hs E.
  assert (Hdrop : forall before t after, l = before ++ t :: after -> l' = before ++ after ->
    exists b a, m = b ++ t :: a /\ l' ≡ₚ b ++ a).
  { intros before t after -> ->. destruct (list_elem_of_split m t) as (b & a & ->).
    { rewrite <- E. set_solver. }
    exists b, a. split; [done|]. rewrite <- !Permutation_middle in E. by apply (inj (cons t)) in E. }
  inversion Hs; subst; try (exists m; split; [by econstructor|done]).
  - eexists. split; [by eapply st_deliver|]. by constructor.
  - destruct (Hdrop before task after eq_refl eq_refl) as (b & a & -> & Ep). eexists.
    split; [by eapply st_disabled|done].
  - destruct (Hdrop before task after eq_refl eq_refl) as (b & a & -> & Ep). eexists.
    split; [by eapply st_pinned|done].
  - destruct (Hdrop before (tl_Task lease) after eq_refl eq_refl) as (b & a & -> & Ep). eexists.
    split; [by eapply st_lease|done].
Qed.

Lemma steps_perm s l s' l' m :
  rtc step (s, l) (s', l') -> l ≡ₚ m -> exists m', rtc step (s, m) (s', m') /\ l' ≡ₚ m'.
Proof.
  intros Hs. remember (s, l) as p eqn:Ep. remember (s', l') as p' eqn:Ep'. revert s l m Ep.
  induction Hs as [p|p [s1 l1] p' Hs _ IH]; intros s l m -> E.
  - injection Ep' as -> ->. by exists m.
  - destruct (step_perm s l s1 l1 m Hs E) as (m1 & Hs1 & E1).
    destruct (IH Ep' s1 l1 m1 eq_refl E1) as (m' & Hr & E'). exists m'. split; [by eapply rtc_l|done].
Qed.

Lemma reaches_refl s q : reaches s q s q.
Proof. by exists (Queue.queued q). Qed.

Lemma reaches_trans s1 q1 s2 q2 s3 q3 :
  reaches s1 q1 s2 q2 -> reaches s2 q2 s3 q3 -> reaches s1 q1 s3 q3.
Proof.
  intros (l2 & H2 & E2) (l3 & H3 & E3).
  destruct (steps_perm s2 (Queue.queued q2) s3 l3 l2 H3 (symmetry E2)) as (m & Hm & Em).
  exists m. split; [by etrans|]. by rewrite <- Em.
Qed.

Lemma reaches_step s q s' : step (s, Queue.queued q) (s', Queue.queued q) -> reaches s q s' q.
Proof. intros H. exists (Queue.queued q). split; [by apply rtc_once|done]. Qed.

Lemma reaches_good s q s' q' : reaches s q s' q' -> good s q -> good s' q'.
Proof.
  intros (l & Hs & E) HL. assert (H : over g id s' \/ live g id s' l).
  { apply (rtc_ind_r (fun p => over g id p.1 \/ live g id p.1 p.2)) in Hs; [done|done|].
    intros p p' _ Hstep Hp. by eapply step_good. }
  destruct H as [H|H]; [by left|right]. by eapply live_perm.
Qed.

Notation potential := (potential g id).

Lemma settles_potential key s s' : settles id key s s' -> (potential s' <= potential s)%nat.
Proof.
  intros H. pose proof (settles_intents id key s s' H) as Hi. unfold Flush.potential.
  assert (E : openNodes g id s' = openNodes g id s); [|rewrite E; lia].
  unfold openNodes, finishedAt, finished, nodeIs. by rewrite (se_nodes _ _ _ _ H).
Qed.

Lemma ack_potential s e :
  claimed id s e -> (potential (AckOutbox s id (oe_ID e)) < potential s)%nat.
Proof.
  intros (st & Hk & _). unfold Flush.potential, intents. rewrite outbox_acked.
  change (openNodes g id (AckOutbox s id (oe_ID e))) with (openNodes g id s).
  rewrite map_size_delete_Some by (by eexists).
  assert (size (outboxOf s id) <> 0%nat); [|lia].
  intros E%map_size_empty_inv. by rewrite E in Hk.
Qed.

(** What delivering one entry does, for itself and for the rest of the batch. *)
Record delivered (s : memoryState) (q : Q) (e : OutboxEntry) (s' : memoryState) (q' : Q)
    (d : delivery) : Prop := {
  dl_typed : typed s';
  dl_reaches : reaches s q s' q';
  dl_rest : forall e', oe_ID e' <> oe_ID e -> claimed id s e' -> claimed id s' e';
  dl_acked : forall more, d = Acked more -> (potential s' < potential s)%nat;
  dl_full : d = QueueFull -> s' = s /\ q' = q
}.

(** The two ends of a delivery. *)
Lemma delivered_ack s q e s1 s' q' more :
  typed s -> claimed id s e -> handled g id s s1 -> s' = AckOutbox s1 id (oe_ID e) ->
  reaches s q s' q' -> delivered s q e s' q' (Acked more).
Proof.
  intros HT Hc Hh -> Hr. pose proof (claimed_due id s s1 e (hd_due _ _ _ _ Hh) Hc) as Hc1.
  split; [by apply ack_typed, (hd_typed _ _ _ _ Hh)|done| | |done].
  - intros e' Hne Hc'. eapply settles_claimed; [apply ack_settles|done|].
    by eapply claimed_due; [apply Hh|].
  - intros _ _. pose proof (ack_potential s1 e Hc1). pose proof (hd_potential _ _ _ _ Hh). lia.
Qed.

Lemma delivered_failure s q e s1 :
  typed s -> handled g id s s1 -> reaches s q s1 q ->
  delivered s q e (recordOutboxDeliveryFailure maxAttempts s1 id e) q NotDelivered.
Proof.
  intros HT Hh Hr. unfold recordOutboxDeliveryFailure.
  assert (Hs : settles id (oe_ID e) s1
    (RecordOutboxFailure (ReleaseOutbox s1 id e) id e maxAttempts).1).
  { etrans; [apply release_settles|apply failure_settles]. }
  split; [by apply (se_typed _ _ _ _ Hs), (hd_typed _ _ _ _ Hh)| | |done|done].
  - eapply reaches_trans; [exact Hr|]. eapply reaches_trans; apply reaches_step; constructor.
  - intros e' Hne Hc. eapply settles_claimed; [exact Hs|done|]. by eapply claimed_due; [apply Hh|].
Qed.

Notation deliverEntry := (deliverEntry maxAttempts).

(** A task of the engine itself, in an execution that has ended and in a live one. *)
Lemma deliver_ended now s q e :
  typed s -> over g id s -> claimed id s e -> inlineTask (oe_Task e) = true ->
  exists s' q' d, deliverEntry now id s q e = Ok (s', q', d) /\ delivered s q e s' q' d.
Proof.
  intros HT Ho Hc Hi. pose proof Hc as (st & Hk & _ & Ht & _).
  assert (Hid : t_ExecutionID (oe_Task e) = id).
  { destruct Ho as (x & _ & _ & _ & _ & Hown). rewrite Ht. eapply Hown. by left. }
  pose proof (over_inactive g id Hg Hnames Hac Htimeout Hbody s Ho) as Hn.
  assert (Hh : handleInline now s (oe_Task e) = Ok (s, (true, Some ErrExecutionInactive))).
  { unfold handleInline, handleAdvanceTask, handleSkipTask, handleMergeCancelTask. rewrite Hid, Hn.
    unfold inlineTask in Hi. by destruct (t_Type (oe_Task e)). }
  unfold Flush.deliverEntry. rewrite Hi, Hh. cbn. eexists _, _, _. split; [done|].
  eapply delivered_ack; [done..|reflexivity|done|]. by apply reaches_step, st_drop.
Qed.

Lemma deliver_inline now s q e :
  typed s -> live g id s (Queue.queued q) -> claimed id s e -> inlineTask (oe_Task e) = true ->
  exists s' q' d, deliverEntry now id s q e = Ok (s', q', d) /\ delivered s q e s' q' d.
Proof.
  intros HT L Hc Hi. pose proof Hc as (st & Hk & _ & Ht & _).
  destruct (lv_outbox _ _ _ _ L (oe_ID e) st (or_introl Hk))
    as ((j & v & nd & _ & Hid & _) & _ & Hkind & _). rewrite <- Ht in Hid, Hkind.
  unfold Flush.deliverEntry. rewrite Hi. unfold handleInline.
  destruct (t_Type (oe_Task e)) eqn:Hty; try (by unfold inlineTask in Hi; rewrite Hty in Hi);
    try (by unfold runs in Hkind; rewrite Hty in Hkind).
  - rewrite Ht in Hty, Hid |- *.
    destruct (skip_handled g id Hg Hnames Hac Htimeout Hbody Hin Hfed now s (Queue.queued q) (oe_ID e) st L
      (or_introl Hk) Hty) as (s1 & a & E & Hh & [->|(err & -> & Hne)] & Hs); rewrite E; cbn.
    + eexists _, _, _. split; [done|]. eapply delivered_ack; [done..|].
      apply reaches_step. by apply (st_skip g id _ _ _ _ _ _ s (Queue.queued q) (oe_ID e) st true now s1).
    + destruct Hs as [?| ->]; [done|].
      exists (recordOutboxDeliveryFailure maxAttempts s id e), q, NotDelivered.
      split; [by destruct err|]. eapply delivered_failure; [done..|apply reaches_refl].
  - rewrite Ht in Hty, Hid |- *.
    destruct (cancel_handled g id Hg Hnames Hac Htimeout Hbody Hin Hfed now s (Queue.queued q) (oe_ID e) st L
      (or_introl Hk) Hty) as (s1 & a & E & Hh & [->|(err & -> & Hne)]); rewrite E; cbn.
    + eexists _, _, _. split; [done|]. eapply delivered_ack; [done..|].
      apply reaches_step. by apply (st_cancel g id _ _ _ _ _ _ s (Queue.queued q) (oe_ID e) st true now s1 (true, None)).
    + exists (recordOutboxDeliveryFailure maxAttempts s1 id e), q, NotDelivered.
      split; [by destruct err|]. eapply delivered_failure; [done..|].
      apply reaches_step. by apply (st_cancel g id _ _ _ _ _ _ s (Queue.queued q) (oe_ID e) st false now s1 (true, Some err)).
Qed.

(** A task for the queue. *)
Lemma handOver_cases now q e :
  match handOver now q e with
  | (q', None) => Queue.queued q' ≡ₚ stampTask e :: Queue.queued q
  | (q', Some _) => q' = q
  end.
Proof.
  unfold handOver. destruct (After _ _).
  - destruct (enqueueDelayed q _ _) as [q' [err|]] eqn:E; [by eapply enqueueDelayed_refused|].
    by eapply enqueueDelayed_accepted.
  - destruct (tryEnqueue q _) as [q' [err|]] eqn:E; [by eapply tryEnqueue_refused|].
    by eapply tryEnqueue_accepted.
Qed.

Lemma deliver_queued now s q e :
  typed s -> claimed id s e -> inlineTask (oe_Task e) = false ->
  exists s' q' d, deliverEntry now id s q e = Ok (s', q', d) /\ delivered s q e s' q' d.
Proof.
  intros HT Hc Hi. pose proof Hc as (st & Hk & _ & Ht & Hst). unfold Flush.deliverEntry. rewrite Hi.
  pose proof (handOver_cases now q e) as Hq.
  destruct (handOver now q e) as [q' [err|]]; [subst q'|].
  - destruct err; eexists _, _, _; (split; [done|]);
      try (eapply delivered_failure; [done|reflexivity|apply reaches_refl]).
    split; [done|apply reaches_refl|done|done|done].
  - eexists _, _, _. split; [done|]. eapply (delivered_ack s q e s); [done|done|reflexivity|done|].
    exists (stampTask (ob_entry st) :: Queue.queued q). split; [|by rewrite Hq, Hst].
    apply rtc_once, (st_deliver g id _ _ _ _ _ _ s (Queue.queued q) (oe_ID e) st true); [done|].
    by rewrite <- Ht.
Qed.

Lemma deliverEntry_ok now s q e :
  typed s -> good s q -> claimed id s e ->
  exists s' q' d, deliverEntry now id s q e = Ok (s', q', d) /\ delivered s q e s' q' d.
Proof.
  intros HT HL Hc. destruct (inlineTask (oe_Task e)) eqn:Hi; [|by apply deliver_queued].
  destruct HL as [Ho|L]; [by apply deliver_ended|by apply deliver_inline].
Qed.

Lemma releaseAll_ok s q entries :
  typed s -> typed (releaseAll id s entries) /\ reaches s q (releaseAll id s entries) q.
Proof.
  unfold releaseAll. revert s. induction entries as [|e entries IH]; intros s HT; cbn.
  { split; [done|apply reaches_refl]. }
  destruct (IH _ (releaseOutbox_typed s id e HT)) as [H1 H2]. split; [done|].
  eapply reaches_trans; [|exact H2]. apply reaches_step. constructor.
Qed.

(** A batch is delivered to its end, and every entry of a batch without failures
    uses up some of the potential. *)
Lemma deliverBatch_ok now entries s q appended failed :
  typed s -> good s q -> Forall (claimed id s) entries -> NoDup (map oe_ID entries) ->
  exists s' q' b, deliverBatch maxAttempts now id entries s q appended failed = Ok (s', q', b) /\
    typed s' /\ reaches s q s' q' /\
    forall more, b = BatchDone more false ->
      failed = false /\ (potential s' + length entries <= potential s)%nat.
Proof.
  revert s q appended failed. induction entries as [|e entries IH]; intros s q appended failed HT HL Hc Hd.
  { eexists _, _, _. split; [done|]. split; [done|]. split; [apply reaches_refl|]. cbn.
    intros more [= _ ->]. split; [done|lia]. }
  inversion_clear Hc as [|? ? He Hrest]. inversion_clear Hd as [|? ? Hn Hd'].
  destruct (deliverEntry_ok now s q e HT HL He) as (s1 & q1 & d & E & [D1 D2 D3 D4 D5]).
  assert (Hc1 : Forall (claimed id s1) entries).
  { apply Forall_forall. intros e' He'. apply D3; [|by eapply Forall_forall].
    intros Eid. apply Hn. rewrite <- Eid. by apply list_elem_of_fmap_2. }
  pose proof (reaches_good s q s1 q1 D2 HL) as HL1. cbn [Flush.deliverBatch]. rewrite E. cbn.
  destruct d as [more| |].
  - destruct (IH s1 q1 (appended || more) failed D1 HL1 Hc1 Hd') as (s2 & q2 & b & E2 & HT2 & HR2 & Hb).
    exists s2, q2, b. split_and!; [done|done|by eapply reaches_trans|].
    intros more' Eb. destruct (Hb more' Eb). specialize (D4 more eq_refl). split; [done|lia].
  - destruct (IH s1 q1 appended true D1 HL1 Hc1 Hd') as (s2 & q2 & b & E2 & HT2 & HR2 & Hb).
    exists s2, q2, b. split_and!; [done|done|by eapply reaches_trans|].
    intros more' Eb. by destruct (Hb more' Eb).
  - destruct (D5 eq_refl) as [-> ->]. destruct (releaseAll_ok s q (e :: entries) HT) as [HT2 HR2].
    by eexists _, _, _.
Qed.

Lemma claim_potential s now limit : potential (claimOutbox s id now limit).1 = potential s.
Proof.
  unfold Flush.potential, claimOutbox. pose proof (claim_touched id s now limit) as [_ En _ _ _ _].
  f_equal.
  - unfold intents. rewrite <- !(size_dom (D := gset string)). f_equal. apply set_eq. intros k.
    rewrite !elem_of_dom. unfold LeaseOutbox. rewrite leaseAll_lookup.
    case_decide; [by rewrite fmap_is_Some|done].
  - f_equal. unfold openNodes, finishedAt, finished, nodeIs. by rewrite En.
Qed.

Lemma flush_ok clock s q :
  typed s -> good s q -> Forall (fun now => now < queuedOutboxHold) clock ->
  (potential s < length clock)%nat ->
  exists s' q' fin, FlushOutbox maxAttempts clock id s q = Ok (s', q', fin) /\
    typed s' /\ reaches s q s' q'.
Proof.
  revert s q. induction clock as [|now clock IH]; intros s q HT HL Hclock Hp; [cbn in Hp; lia|].
  inversion_clear Hclock as [|? ? Hnow Hclock']. cbn [Flush.FlushOutbox].
  pose proof (claim_potential s now batchSize) as Hcp.
  pose proof (leaseAll_typed now s id (readyOutboxIDsLocked s id now batchSize) HT) as HT1.
  assert (HR1 : reaches s q (claimOutbox s id now batchSize).1 q) by (apply reaches_step; constructor).
  destruct (claimOutbox s id now batchSize) as [s1 entries] eqn:Ec.
  pose proof (claim_claimed s id now batchSize s1 entries HT Hnow Ec) as [Hc Hd].
  assert (HT1' : typed s1) by (unfold claimOutbox, LeaseOutbox in Ec; by rewrite Ec in HT1).
  cbn [fst] in *. destruct entries as [|e entries]; [by eexists _, _, _|].
  destruct (deliverBatch_ok now (e :: entries) s1 q false false HT1' (reaches_good _ _ _ _ HR1 HL) Hc Hd)
    as (s2 & q2 & b & E & HT2 & HR2 & Hb). rewrite E. cbn [mbind res_bind].
  assert (HR : reaches s q s2 q2) by (by eapply reaches_trans).
  destruct b as [|more failed]; [by eexists _, _, _|]. destruct failed; [by eexists _, _, _|].
  destruct (negb more && _); [by eexists _, _, _|].
  destruct (Hb more eq_refl) as [_ Hpot]. cbn in Hpot, Hp.
  destruct (IH s2 q2 HT2 (reaches_good _ _ _ _ HR HL) Hclock') as (s3 & q3 & fin & E3 & HT3 & HR3); [lia|].
  exists s3, q3, fin. split_and!; [done|done|by eapply reaches_trans].
Qed.
End refinement.

(** ** What is left when a flush stops *)

Section stops.
Context {Q : Type} `{!TaskQueue Q} (maxAttempts : Z) (id : string).

(** Nothing is written for an execution that is gone. *)
Lemma inactive_same now s t s1 b :
  handleInline now s t = Ok (s1, (b, Some ErrExecutionInactive)) -> s1 = s.
Proof.
  unfold handleInline. destruct (t_Type t); try done.
  - unfold handleAdvanceTask. destruct (loadActiveGraph s _); [|by intros [= -> _]].
    destruct (t_Port t); [|destruct (GetNode _ _ _); [|done]];
      [|destruct (negb (IsTerminalNodeStatus _)); [done|]; destruct (negb (_ =? _)); [done|]]; intros H; by apply res_bind_Ok in H as (? & _ & ?).
  - unfold handleSkipTask. destruct (loadActiveGraph s _); [|by intros [= -> _]].
    destruct (handleSkip _ _ _ _) as [r| | |]; try done. unfold commitAnswer. by case_match.
  - unfold handleMergeCancelTask. destruct (loadActiveGraph s _) as [g|]; [|by intros [= -> _]].
    destruct (negb _); [done|]. intros H. apply res_bind_Ok in H as (m & _ & H).
    apply res_bind_Ok in H as (closure & _ & H). exfalso. revert s H.
    induction closure as [|i closure IH]; intros s H; cbn in H; [done|].
    apply res_bind_Ok in H as ([s2 [err|b2]] & Hn & H); cbn [fst snd] in H; [|by apply (IH s2)].
    injection H as _ _ ->.
    unfold cancelClosureNode in Hn. apply res_bind_Ok in Hn as (nd & _ & Hn).
    apply res_bind_Ok in Hn as (u & _ & Hn). apply res_bind_Ok in Hn as (k & _ & Hn).
    repeat (case_match; try done); try (apply res_bind_Ok in Hn as (l & _ & Hn));
      repeat (case_match; try done).
Qed.

Lemma deliverEntry_quiet now s q e s' q' :
  deliverEntry maxAttempts now id s q e = Ok (s', q', Acked false) -> s' = AckOutbox s id (oe_ID e).
Proof.
  unfold deliverEntry. destruct (inlineTask _).
  - intros H. apply res_bind_Ok in H as ([s1 [b err]] & Hh & H).
    destruct err as [err|]; [|by destruct b].
    destruct b, err; try done; apply inactive_same in Hh as ->; by injection H as <- _.
  - destruct (handOver now q e) as [q1 [err|]]; [by destruct err|]. by intros [= <- _].
Qed.

Lemma deliverBatch_failed now entries s q appended s' q' more :
  deliverBatch maxAttempts now id entries s q appended true <> Ok (s', q', BatchDone more false).
Proof.
  revert s q appended. induction entries as [|e entries IH]; intros s q appended H; cbn in H; [done|].
  apply res_bind_Ok in H as ([[s1 q1] d] & _ & H). destruct d; [by eapply IH..|done].
Qed.

(** A batch that appended nothing and failed nowhere only acknowledges. *)
Lemma deliverBatch_quiet now entries s q appended failed s' q' :
  deliverBatch maxAttempts now id entries s q appended failed = Ok (s', q', BatchDone false false) ->
  appended = false /\ s' = foldl (fun s e => AckOutbox s id (oe_ID e)) s entries.
Proof.
  revert s q appended failed. induction entries as [|e entries IH]; intros s q appended failed H; cbn in H.
  { by injection H as <- _ -> _. }
  apply res_bind_Ok in H as ([[s1 q1] d] & He & H). destruct d as [more| |]; [| |done].
  - apply IH in H as [Ha ->]. apply orb_false_iff in Ha as [-> ->]. split; [done|]. cbn.
    by rewrite (deliverEntry_quiet _ _ _ _ _ _ He).
  - by apply deliverBatch_failed in H.
Qed.

Lemma ready_acks now entries s eid :
  ready (foldl (fun s e => AckOutbox s id (oe_ID e)) s entries) id now eid -> ready s id now eid.
Proof.
  revert s. induction entries as [|e entries IH]; intros s H; [done|]. cbn in H.
  apply IH in H as (st & Hk & Hd & Hh). exists st. split_and!; [|done|done].
  rewrite outbox_acked in Hk. by apply lookup_delete_Some in Hk as [_ Hk].
Qed.

Lemma bounded_short {A} limit (l : list A) :
  0 < limit -> Z.of_nat (length (bounded limit l)) < limit -> bounded limit l = l.
Proof.
  unfold bounded. intros H1 H2. destruct (_ && _) eqn:E; [|done].
  apply andb_true_iff in E as [_ E]. rewrite length_take in H2. lia.
Qed.

Lemma leaseAll_length now s ids :
  (forall key, key ∈ ids -> is_Some (outboxOf s id !! key)) -> NoDup ids ->
  length (leaseAll now s id ids).2 = length ids.
Proof.
  intros H Hd. rewrite leaseAll_out by done. clear Hd. induction ids as [|x ids IH]; [done|]. cbn.
  destruct (H x) as [st ->]; [by left|]. cbn. rewrite IH; [done|]. intros key Hk. apply H. by right.
Qed.

(** A batch that is not full takes everything that is ready. *)
Lemma claim_short now s limit s1 entries :
  0 < limit -> claimOutbox s id now limit = (s1, entries) -> Z.of_nat (length entries) < limit ->
  forall eid, ~ ready s1 id now eid.
Proof.
  intros Hl Ec Hlen eid (st & Hk & Hdue & Hh). unfold claimOutbox, LeaseOutbox in Ec.
  set (ids := readyOutboxIDsLocked s id now limit) in *.
  assert (Hids : forall key, key ∈ ids -> is_Some (outboxOf s id !! key)).
  { intros key (st0 & H0 & _)%elem_of_ready. by exists st0. }
  pose proof (leaseAll_length now s ids Hids (ready_nodup s id now limit)) as Hn.
  pose proof (leaseAll_aside now s id ids) as [[Ee _] _ _].
  pose proof (leaseAll_lookup now s id ids id eid) as Hlk. rewrite Ec in Hn, Ee, Hlk. cbn [fst snd] in *.
  rewrite Hlk in Hk. case_decide as Hin.
  - apply fmap_Some in Hk as (st0 & _ & ->). unfold dueAt, leaseUntil in Hdue. cbn in Hdue.
    apply andb_true_iff in Hdue as [Hd%negb_true_iff _].
    unfold After, Add in Hd. assert (0 < OutboxDeliveryLeaseTTL) by done. lia.
  - apply Hin. split; [done|]. revert Hn. unfold ids, readyOutboxIDsLocked. cbn zeta.
    assert (Hne : bool_decide (outboxOf s id = ∅) = false).
    { apply bool_decide_eq_false. intros E. by rewrite E in Hk. }
    assert (Hh' : dispatchHeldLocked s id = false).
    { unfold dispatchHeldLocked in *. by rewrite <- Ee. }
    rewrite Hne, Hh', (proj2 (Z.eqb_neq limit 0)) by lia. cbn [orb]. intros Hn.
    rewrite bounded_short by lia. apply elem_of_sortSlice, elem_of_due. eauto.
Qed.
End stops.

(** ** Main results *)

(** C4. A flush returns, and what it did is a run of the engine.  From any state a
    started execution reaches (see [startable]), whose store is well typed, and
    for any queue that keeps what it accepts, the flush ends after a bounded number
    of polls (the intents of the execution, plus the edges of the graph for every
    unfinished node, plus one): it neither panics nor loops, whatever the queue
    refuses and whatever its handlers commit, the store it leaves is well typed,
    and store and queue are reached by steps of the engine, so what holds in every
    reachable state holds after it. *)
Theorem flush_returns {Q} `{!TaskQueue Q} maxAttempts platformDelay hasExternalNodesReference
    expireIfLeaseTimeoutReached expandLoopSplit buildInput suspendDisabled g0 g snap0 hint now s0 :
  startable g0 g snap0 s0 -> inEdgesOK g -> (forall u v, feeds (g_inEdges g) u v -> has_unit g u) ->
  let id := ex_ID snap0 in
  let step := step g id platformDelay hasExternalNodesReference expireIfLeaseTimeoutReached
                expandLoopSplit buildInput suspendDisabled in
  exists tasks, submitInitialTasks id g = Ok tasks /\
    let start := (startExecution hint now s0 snap0 tasks, []) in
    forall s (q : Q) clock,
      rtc step start (s, Queue.queued q) -> typed s ->
      Forall (fun now => now < queuedOutboxHold) clock ->
      (size (outboxOf s id) + length (concat (g_outEdges g)) * length (openNodes g id s)
         < length clock)%nat ->
      exists s' q' fin l, FlushOutbox maxAttempts clock id s q = Ok (s', q', fin) /\ typed s' /\
        rtc step start (s', l) /\ l ≡ₚ Queue.queued q'.
Proof.
  intros HS Hin Hfed id st.
  destruct (startable_graph g0 g snap0 s0 HS) as (Hg & Hn & Hc & Ht & Hb & _).
  destruct (start_good platformDelay hasExternalNodesReference expireIfLeaseTimeoutReached
    expandLoopSplit buildInput suspendDisabled g0 g snap0 hint now s0 HS) as (tasks & Et & HG).
  exists tasks. split; [done|]. intros start s q clock Hr HT Hclock Hlen.
  destruct (flush_ok g id Hg Hn Hc Ht Hb Hin Hfed platformDelay hasExternalNodesReference
    expireIfLeaseTimeoutReached expandLoopSplit buildInput suspendDisabled maxAttempts clock s q HT
    (HG s _ Hr) Hclock Hlen) as (s' & q' & fin & E & HT' & l & Hl & El).
  exists s', q', fin, l. split_and!; [done|done|by etrans|done].
Qed.

Lemma demoDiamond_up u v : feeds (g_inEdges demoDiamond) u v -> (u < v /\ v < 4)%nat.
Proof.
  intros (es & e & Hv & He & <-). destruct v as [|[|[|[|v]]]]; cbn in Hv; simplify_eq;
    rewrite ?elem_of_cons, ?elem_of_nil in He; destruct_or?; simplify_eq; cbn; lia.
Qed.

Lemma demoDiamond_in g : g_inEdges g = g_inEdges demoDiamond -> NodeCount g = 4%nat -> inEdgesOK g.
Proof.
  intros E N. split; rewrite ?E, ?N; [done| |].
  - intros u v Hu%demoDiamond_up. lia.
  - assert (Hup : forall u v, tc (feeds (g_inEdges demoDiamond)) u v -> (u < v)%nat).
    { induction 1 as [u v Hu%demoDiamond_up|u w v Hu%demoDiamond_up]; lia. }
    intros v Hv%Hup. lia.
Qed.

Definition demoQueue : memoryQueue := newMemoryQueueWithCapacity 4.
#[local] Instance demoTaskQueue : TaskQueue memoryQueue := memoryQueue_TaskQueue (fun _ _ => true).

Lemma flush_returns_witness :
  exists g tasks, buildUnits demoDiamond = Ok g /\ submitInitialTasks (ex_ID (demoStart g)) g = Ok tasks /\
    exists s' q' fin, FlushOutbox 10 (map Z.of_nat (seq 10 18)) (ex_ID (demoStart g))
      (startExecution false 5 (newMemoryState false) (demoStart g) tasks) demoQueue
      = Ok (s', q', fin) /\ typed s'.
Proof.
  destruct (buildUnits demoDiamond) as [g| | |] eqn:E; try (vm_compute in E; done).
  destruct (flush_returns 10 (fun _ _ _ _ => 0) (fun _ _ _ => false) (fun s _ _ _ => (s, false))
    (fun s _ _ _ => Ok (s, None)) (fun _ _ _ => inr None) None demoDiamond g (demoStart g) false 5
    (newMemoryState false) (demoDiamond_startable g E)) as (tasks & Et & H).
  - apply demoDiamond_in; vm_compute in E; by injection E as <-.
  - intros u v Hf. assert (Hu : feeds (g_inEdges demoDiamond) u v)
      by (vm_compute in E; injection E as <-; exact Hf).
    apply demoDiamond_up in Hu. assert (u < 4)%nat by lia. clear Hf Hu.
    vm_compute in E. injection E as <-. destruct u as [|[|[|[|u]]]]; [by eexists..|lia].
  - exists g, tasks. split; [done|]. split; [exact Et|].
    destruct (H (startExecution false 5 (newMemoryState false) (demoStart g) tasks) demoQueue
      (map Z.of_nat (seq 10 18))) as (s' & q' & fin & l & Ef & HT & _).
    + apply rtc_refl.
    + apply createWithOutbox_typed, typed_new.
    + by apply (bool_decide_unpack _).
    + vm_compute in E. injection E as <-. vm_compute in Et. injection Et as <-. vm_compute. lia.
    + exists s', q', fin. split; [exact Ef|exact HT].
Defined.

(** C16. A flush that reports an empty outbox has emptied it: whatever the store
    and the queue, when it ends because nothing is left, then at the instant of
    its last poll no intent of the execution is due, unleased and free to be
    dispatched.  In particular the exit on a short batch that appended nothing
    does not miss an intent. *)
Theorem flush_drains {Q} `{!TaskQueue Q} maxAttempts clock id s (q : Q) s' q' :
  FlushOutbox maxAttempts clock id s q = Ok (s', q', Drained) ->
  exists now, now ∈ clock /\ forall eid, ~ ready s' id now eid.
Proof.
  revert s q. induction clock as [|now clock IH]; intros s q H; [done|]. cbn [FlushOutbox] in H.
  destruct (claimOutbox s id now batchSize) as [s1 entries] eqn:Ec.
  destruct entries as [|e entries].
  - injection H as <- <-. exists now. split; [by left|]. by eapply (claim_short id now s batchSize).
  - apply res_bind_Ok in H as ([[s2 q2] b] & Eb & H). destruct b as [|more failed]; [done|].
    destruct failed; [done|]. destruct (negb more && _) eqn:Ex.
    + injection H as <- <-. apply andb_true_iff in Ex as [Em%negb_true_iff El%Z.ltb_lt]. subst more.
      apply deliverBatch_quiet in Eb as [_ ->]. exists now. split; [by left|].
      intros eid Hr%ready_acks. by eapply (claim_short id now s batchSize).
    + apply IH in H as (now' & Hn & Hr). exists now'. split; [by right|done].
Qed.

Lemma flush_drains_witness :
  exists s' q', FlushOutbox 10 [10; 11] "e1" demoOutbox demoQueue = Ok (s', q', Drained) /\
    exists now, now ∈ [10; 11] /\ forall eid, ~ ready s' "e1" now eid.
Proof.
  destruct (FlushOutbox 10 [10; 11] "e1" demoOutbox demoQueue) as [[[s' q'] fin]| | |] eqn:E;
    try (vm_compute in E; done).
  assert (fin = Drained) as -> by (vm_compute in E; by injection E as _ _ <-).
  exists s', q'. split; [done|]. by apply (flush_drains 10 [10; 11] "e1" demoOutbox demoQueue s' q').
Defined.
