(* ===== verification/Keeper.v ===== *)
(** * The lease keeper

    [outboxLeaseKeeper] of [engine/outbox_lease.go]: while a flush delivers its
    batch, a ticker renews the leases of the entries it has not settled yet.  A
    tick reads the held entries, asks the store and records the answer as one
    step; a failed renewal call, which changes nothing, is left out. *)

From S2P Require Import Prelude Keys Types Retry Queue Graph Units MergeCancel State Slots Executions Outbox Lease Commit System Typed Arrivals Verdict Delivery Progress Completion Flush.

Abbreviation OutboxLeaseRenewInterval := (OutboxDeliveryLeaseTTL / 3).

(** The entries a keeper still holds. *)
Notation outboxLeaseKeeper := (gmap string OutboxEntry).

Definition startOutboxLeaseKeeper (entries : list OutboxEntry) : outboxLeaseKeeper :=
  foldl (fun held e => <[oe_ID e := e]> held) ∅ entries.

(** One tick: renew what is held, keep what was granted, and go on while something
    is left. *)
Definition renewOnce (now : Time) (id : string) (s : memoryState) (held : outboxLeaseKeeper)
    : memoryState * outboxLeaseKeeper * bool :=
  if decide (held = ∅) then (s, held, false)
  else
    let '(s, renewed) := RenewOutbox s id (map_to_list held).*2 now in
    let granted : gmap string Z :=
      list_to_map (map (fun e => (oe_ID e, oe_LeaseDeadlineMs e)) (reverse renewed)) in
    let held := merge (fun e d => match e, d with
                       | Some e, Some d => Some (e <| oe_LeaseDeadlineMs := d |>)
                       | _, _ => None
                       end) held granted in
    (s, held, bool_decide (held <> ∅)).

Definition forget (entryID : string) (held : outboxLeaseKeeper) : outboxLeaseKeeper :=
  delete entryID held.

(** The loop, from tick to tick, until nothing is held. *)
Fixpoint run (ticks : list Time) (id : string) (s : memoryState) (held : outboxLeaseKeeper)
    : memoryState * outboxLeaseKeeper :=
  match ticks with
  | [] => (s, held)
  | now :: ticks =>
      let '(s, held, more) := renewOnce now id s held in
      if more : bool then run ticks id s held else (s, held)
  end.

(** ** What a keeper holds *)

(** Every held entry is leased until [until], and the keeper can prove it. *)
Definition holds (id : string) (until : Time) (s : memoryState) (held : outboxLeaseKeeper) : Prop :=
  forall key e, held !! key = Some e ->
    oe_ID e = key /\ oe_LeaseDeadlineMs e = UnixMilli until /\
    exists st, outboxOf s id !! key = Some st /\ ob_leasedUntil st = until.

Section renewal.
Context (id : string) (now until : Time) (Hnow : now < until).

Notation deadline := (Add now OutboxDeliveryLeaseTTL).

Definition provable (s : memoryState) (e : OutboxEntry) : Prop :=
  oe_LeaseDeadlineMs e = UnixMilli until /\
  exists st, outboxOf s id !! oe_ID e = Some st /\ ob_leasedUntil st = until /\
    oe_ID (ob_entry st) = oe_ID e.

Lemma renewOne_granted s out e :
  provable s e ->
  exists st e', outboxOf s id !! oe_ID e = Some st /\
    renewOne now id (s, out) e = (setOutbox s id (oe_ID e) (leaseUntil deadline st), out ++ [e']) /\
    oe_ID e' = oe_ID e /\ oe_LeaseDeadlineMs e' = UnixMilli deadline.
Proof using Hnow.
  intros (Hms & st & Hk & Hu & Hid). eexists st, _. split; [done|]. unfold renewOne. rewrite Hk, Hu.
  unfold After. rewrite (proj2 (Z.ltb_lt _ _) Hnow), Hms, Z.eqb_refl. cbn [negb].
  split; [done|]. by cbn.
Qed.

Lemma renewAll_granted l s out :
  Forall (provable s) l -> NoDup (map oe_ID l) ->
  exists s' out', foldl (renewOne now id) (s, out) l = (s', out ++ out') /\
    map (fun e => (oe_ID e, oe_LeaseDeadlineMs e)) out' = map (fun e => (oe_ID e, UnixMilli deadline)) l /\
    forall key, outboxOf s' id !! key
      = if decide (key ∈ map oe_ID l) then leaseUntil deadline <$> outboxOf s id !! key
        else outboxOf s id !! key.
Proof using Hnow.
  revert s out. induction l as [|e l IH]; intros s out Hl Hd.
  { exists s, []. rewrite app_nil_r. split_and!; [done..|]. intros key.
    by rewrite decide_False by (apply not_elem_of_nil). }
  inversion_clear Hl as [|? ? He Hl']. inversion_clear Hd as [|? ? Hn Hd'].
  destruct (renewOne_granted s out e He) as (st & e' & Hk & E & E1 & E2). cbn [foldl]. rewrite E.
  set (s1 := setOutbox s id (oe_ID e) (leaseUntil deadline st)).
  assert (Hs1 : forall key, outboxOf s1 id !! key
    = if decide (key = oe_ID e) then Some (leaseUntil deadline st) else outboxOf s id !! key).
  { intros key. unfold s1. rewrite (lookup_setOutbox s id (oe_ID e) st) by done.
    apply decide_ext. naive_solver. }
  destruct (IH s1 (out ++ [e'])) as (s' & out' & Ef & Em & Hs'); [|done|].
  { apply Forall_forall. intros x Hx. rewrite Forall_forall in Hl'.
    destruct (Hl' x Hx) as (H1 & st' & H2 & H3). split; [done|]. exists st'. split; [|done].
    rewrite Hs1, decide_False; [done|]. intros Ex. apply Hn. rewrite <- Ex. by apply list_elem_of_fmap_2. }
  exists s', (e' :: out'). split_and!.
  - by rewrite Ef, <- (assoc_L (++)).
  - cbn. by rewrite Em, E1, E2.
  - intros key. rewrite Hs', Hs1. cbn. destruct (decide (key = oe_ID e)) as [->|Hne].
    + rewrite (decide_False (P := oe_ID e ∈ map oe_ID l)) by done.
      by rewrite decide_True, Hk by (by left).
    + apply decide_ext. rewrite elem_of_cons. tauto.
Qed.
End renewal.

Lemma start_lookup entries key e :
  startOutboxLeaseKeeper entries !! key = Some e -> e ∈ entries /\ oe_ID e = key.
Proof.
  unfold startOutboxLeaseKeeper.
  assert (H : forall held : outboxLeaseKeeper,
    foldl (fun held e => <[oe_ID e := e]> held) held entries !! key = Some e ->
    held !! key = Some e \/ e ∈ entries /\ oe_ID e = key).
  { induction entries as [|x l IH]; intros held; cbn; [by left|]. intros H.
    apply IH in H as [H|[H1 H2]]; [|right; split; [by right|done]].
    apply lookup_insert_Some in H as [[<- <-]|[_ H]]; [right; split; [by left|done]|by left]. }
  intros Hk. by apply H in Hk as [Hk|Hk].
Qed.

Lemma start_has entries e : e ∈ entries -> is_Some (startOutboxLeaseKeeper entries !! oe_ID e).
Proof.
  unfold startOutboxLeaseKeeper. intros He.
  assert (H : forall held : outboxLeaseKeeper, is_Some (held !! oe_ID e) \/ e ∈ entries ->
    is_Some (foldl (fun held e => <[oe_ID e := e]> held) held entries !! oe_ID e)).
  { clear He. induction entries as [|x l IH]; intros held; cbn; [by intros [?|?%elem_of_nil]|].
    intros [H|[->|H]%elem_of_cons]; apply IH; [left|left; by rewrite lookup_insert_eq|by right].
    rewrite lookup_insert_is_Some. by destruct (decide (oe_ID x = oe_ID e)); [left|right]. }
  apply H. by right.
Qed.

(** The entries a tick presents: one per intent, each with its proof. *)
Lemma held_entries id until s held :
  typed s -> holds id until s held ->
  let l := (map_to_list held).*2 in
  (forall e, e ∈ l <-> held !! oe_ID e = Some e) /\ Forall (provable id until s) l /\
  NoDup (map oe_ID l).
Proof.
  intros HT HH l. assert (Hl : forall e, e ∈ l <-> held !! oe_ID e = Some e).
  { intros e. unfold l. rewrite list_elem_of_fmap. split.
    - intros ([k x] & -> & Hk%elem_of_map_to_list). cbn. by rewrite (proj1 (HH k x Hk)).
    - intros Hk. exists (oe_ID e, e). split; [done|]. by apply elem_of_map_to_list. }
  split_and!; [done| |].
  - apply Forall_forall. intros e Hk%Hl. destruct (HH _ _ Hk) as (_ & Hms & st & Hst & Hu).
    split; [done|]. exists st. split_and!; [done..|].
    by apply (filed_lookup _ id (ty_outbox s HT) (oe_ID e) st).
  - replace (map oe_ID l) with ((map_to_list held).*1); [apply NoDup_fst_map_to_list|].
    unfold l. rewrite map_map. apply list_fmap_ext. intros i [k x] Hk. cbn. symmetry.
    apply list_elem_of_lookup_2, elem_of_map_to_list in Hk. apply (HH k x Hk).
Qed.

Lemma granted_lookup (l : list OutboxEntry) (D : Z) key :
  key ∈ map oe_ID l ->
  (list_to_map (reverse (map (fun e => (oe_ID e, D)) l)) : gmap string Z) !! key = Some D.
Proof.
  intros Hk. apply elem_of_list_to_map_1'.
  - intros y. rewrite elem_of_reverse. intros Hy. by apply list_elem_of_fmap in Hy as (x & [= _ ->] & _).
  - rewrite elem_of_reverse. apply list_elem_of_fmap in Hk as (e & -> & He).
    apply list_elem_of_fmap. by exists e.
Qed.

(** A tick in time renews everything, and the keeper can prove the new leases. *)
Lemma renewOnce_holds id now until s held :
  typed s -> holds id until s held -> now < until ->
  let '(s', held', more) := renewOnce now id s held in
  typed s' /\ holds id (Add now OutboxDeliveryLeaseTTL) s' held' /\ dom held' = dom held /\
  (held <> ∅ -> more = true).
Proof.
  intros HT HH Hnow. unfold renewOnce. case_decide as He.
  { split_and!; [done| |done|done]. subst held. intros key e Hk. by rewrite lookup_empty in Hk. }
  destruct (held_entries id until s held HT HH) as (Hl & Hprov & Hnd).
  set (l := (map_to_list held).*2) in *.
  pose proof (renewOutbox_typed s id l now HT) as HT'. unfold RenewOutbox in *.
  destruct (renewAll_granted id now until Hnow l s [] Hprov Hnd) as (s' & out & E & Em & Hs').
  rewrite E in *. cbn [fst app] in *. set (D := UnixMilli (Add now OutboxDeliveryLeaseTTL)) in *.
  replace (map _ (reverse out)) with (reverse (map (fun e => (oe_ID e, D)) l))
    by (rewrite <- Em; symmetry; apply fmap_reverse).
  set (held' := merge _ held _).
  assert (Hin : forall key e, held !! key = Some e -> key ∈ map oe_ID l).
  { intros key e Hk. destruct (HH key e Hk) as [<- _]. by apply list_elem_of_fmap_2, Hl. }
  assert (Hh' : forall key, held' !! key = (fun e => e <| oe_LeaseDeadlineMs := D |>) <$> held !! key).
  { intros key. unfold held'. rewrite lookup_merge. destruct (held !! key) as [e|] eqn:Hk; cbn.
    - by rewrite granted_lookup by (by eapply Hin).
    - by case_match. }
  split_and!; [done| | |].
  - intros key e'. rewrite Hh'. intros (e & Hk & ->)%fmap_Some. destruct (HH key e Hk) as (Hid & _ & st & Hst & _).
    split; [done|]. split; [done|]. exists (leaseUntil (Add now OutboxDeliveryLeaseTTL) st).
    split; [|done]. by rewrite Hs', decide_True, Hst by (by eapply Hin).
  - apply set_eq. intros key. rewrite !elem_of_dom, Hh'. by rewrite fmap_is_Some.
  - intros _. apply bool_decide_eq_true. intros E0. apply He. apply map_eq. intros key.
    specialize (Hh' key). rewrite E0, lookup_empty in Hh'. symmetry in Hh'. apply fmap_None in Hh'.
    by rewrite Hh', lookup_empty.
Qed.

(** ** A live deliverer keeps its batch *)

(** Ticks that come in time: each before the lease of the one before runs out. *)
Fixpoint paced (last : Time) (ticks : list Time) : Prop :=
  match ticks with
  | [] => True
  | now :: ticks => now < Add last OutboxDeliveryLeaseTTL /\ paced now ticks
  end.

Lemma claim_holds s id now limit s1 entries :
  typed s -> claimOutbox s id now limit = (s1, entries) ->
  typed s1 /\ holds id (Add now OutboxDeliveryLeaseTTL) s1 (startOutboxLeaseKeeper entries).
Proof.
  intros HT E. unfold claimOutbox, LeaseOutbox in E. set (ids := readyOutboxIDsLocked s id now limit) in *.
  pose proof (leaseAll_typed now s id ids HT) as HT1.
  pose proof (leaseAll_out now s id ids (ready_nodup s id now limit)) as Ho.
  pose proof (fun key => leaseAll_lookup now s id ids id key) as Hl. rewrite E in *. cbn [fst snd] in *.
  split; [done|]. intros key e [He Hk]%start_lookup. split; [done|]. subst entries key.
  apply list_elem_of_omap in He as (key & Hin & He). apply fmap_Some in He as (st & Hst & ->).
  split; [done|]. pose proof (filed_lookup _ id (ty_outbox s HT) key st Hst) as [_ Hid].
  exists (leaseUntil (Add now OutboxDeliveryLeaseTTL) st). split; [|done]. cbn. rewrite Hid.
  by rewrite Hl, decide_True, Hst.
Qed.

Lemma run_holds id ticks s held last :
  typed s -> holds id (Add last OutboxDeliveryLeaseTTL) s held -> paced last ticks ->
  let '(s', held') := run ticks id s held in
  dom held' = dom held /\
  holds id (Add (List.last ticks last) OutboxDeliveryLeaseTTL) s' held'.
Proof.
  revert s held last. induction ticks as [|now ticks IH]; intros s held last HT HH Hp; [done|].
  destruct Hp as [Hnow Hp]. cbn [run].
  pose proof (renewOnce_holds id now _ s held HT HH Hnow) as H.
  destruct (renewOnce now id s held) as [[s1 held1] more]. destruct H as (HT1 & HH1 & Hd & Hm).
  assert (El : List.last (now :: ticks) last = List.last ticks now).
  { clear. revert now. induction ticks as [|t ticks IH]; intros now; [done|]. cbn in *. by destruct ticks. }
  rewrite El. destruct more.
  - specialize (IH s1 held1 now HT1 HH1 Hp). destruct (run ticks id s1 held1) as [s2 held2].
    destruct IH as [IH1 IH2]. split; [by rewrite IH1|done].
  - split; [done|]. assert (held = ∅) as ->.
    { destruct (decide (held = ∅)) as [|Hne]; [done|]. by specialize (Hm Hne). }
    rewrite dom_empty_L in Hd. apply dom_empty_inv_L in Hd as ->.
    intros key e Hk. by rewrite lookup_empty in Hk.
Qed.


