(* ===== verification/Runs.v ===== *)
(** * Runs of the store

    Every public method of the in-memory store takes its mutex, so what callers
    see is some interleaving of critical sections. [op] lists them, [exec] runs
    one, [run] a sequence; the theorems say what no interleaving can undo. *)

From S2P Require Import Prelude Keys Types Graph Units State Slots Executions Outbox Lease Commit Groups Signals Records Seeding System Typed.

(** ** The critical sections *)

Inductive op : Type :=
| OpCreateExecution (hint : bool) (now : Time) (e : ExecutionSnapshot)
| OpCreateExecutionWithOutbox (hint : bool) (now : Time) (e : ExecutionSnapshot)
    (entries : list OutboxEntry)
| OpCreateExecutionWithConcurrency (hint : bool) (now : Time) (e : ExecutionSnapshot)
    (entries : list OutboxEntry) (admission : ConcurrencyAdmission)
| OpSeedExecution (hint : bool) (now : Time) (req : SeedExecutionRequest)
| OpSeedExecutionFromEntry (hint : bool) (ns : string) (now : Time)
    (req : SeedExecutionFromEntryRequest) (admission : option ConcurrencyAdmission)
| OpReleaseInitialMirrorHold (id : string)
| OpRollbackCreatedExecution (now : Time) (id : string)
| OpPruneTransientSkip (id : string)
| OpUpdateExecutionStatus (now : Time) (id : string) (st : ExecutionStatus) (errMsg : string)
| OpExpireQueuedExecutions (now : Time) (limit : Z) (line : list string)
| OpPauseExecution (now : Time) (id : string)
| OpResumeExecution (now : Time) (id : string)
| OpListCancelingExecutions (olderThan : Time) (limit : Z)
| OpListDeadlineExceededExecutions (before : Time) (limit : Z)
| OpAckDeadlineExpired (id : string)
| OpLeaseOutbox (id : string) (now : Time) (limit : Z)
| OpRenewOutbox (id : string) (renew : list OutboxEntry) (now : Time)
| OpAckOutbox (id entryID : string)
| OpReleaseOutbox (id : string) (entry : OutboxEntry)
| OpRecordOutboxFailure (id : string) (entry : OutboxEntry) (maxAttempts : Z)
| OpReplayDeadLetter (now : Time) (req : ReplayDeadLetterRequest)
| OpUpsertNode (now : Time) (n : NodeSnapshot)
| OpCancelSuspendedNode (now : Time) (id name : string)
| OpAcquireTaskLease (lease : TaskLease)
| OpAcquireTaskLeaseChecked (lease : TaskLease) (allowCycles : bool)
| OpResetNodeForRetryWithOutbox (now : Time) (id name token : string) (entry : OutboxEntry)
| OpRevokeLease (id name token : string)
| OpRevokeLeaseWithOutbox (now : Time) (id name token : string) (entry : OutboxEntry)
| OpClaimTaskLease (lease : TaskLease)
| OpRenewTaskLease (now : Time) (id name token : string) (deadline : Time)
| OpDecrementInDegree (id : string) (unitIdx : Z) (portActive : bool)
| OpCommitNode (now : Time) (req : CommitNodeRequest)
| OpAdvanceNode (now : Time) (req : AdvanceNodeRequest)
| OpAcquireGroupLease (lease : GroupLease)
| OpRenewGroupLease (id : string) (unitIdx : Z) (token : string) (deadline : Time)
| OpExpireGroupLease (id : string) (unitIdx : Z) (token : string)
| OpRevokeGroupLeaseWithOutbox (now : Time) (id : string) (unitIdx : Z) (token : string)
    (entry : OutboxEntry)
| OpCommitGroup (now : Time) (req : GroupCommitRequest)
| OpSuspendOrConsume (id name : string) (spec : SuspendSpec)
| OpSuspendTaskLease (now : Time) (lease : TaskLease) (output : Data)
    (storeOutput privateOutput : bool) (spec : SuspendSpec) (oldSignalName : string)
| OpResuspendAtomic (id nodeName newSignalName : string) (spec : SuspendSpec)
| OpDeliverSignal (waiters : list (string * SuspendSpec)) (id signalName : string) (data : Data)
| OpDeliverSignalWithOutbox (now : Time) (waiters : list (string * SuspendSpec))
    (id signalName : string) (data : Data) (intent : ResumeIntent)
| OpAcquireResumeLock (id name : string)
| OpRevokeSignal (id signalName : string)
| OpPutOutput (id name : string) (data : Data)
| OpCreateSubExecution (sub : SubExecution)
| OpCompleteSubExecution (parentExecID parentNode childExecID : string) (st : ExecutionStatus)
    (result : Data)
| OpBeginTaskExpansionWithOutbox (now : Time) (lease : TaskLease) (children : list SubExecution)
    (entries : list OutboxEntry)
| OpBeginTaskExpansion (lease : TaskLease)
| OpCreateExpandedSubExecution (lease : TaskLease) (sub : SubExecution)
| OpCompleteExpandedSubExecution (lease : TaskLease) (childExecID : string)
    (st : ExecutionStatus) (result : Data)
| OpBeginSubWorkflowWait (now : Time) (lease : TaskLease) (link : SubWorkflowLink)
    (entries : list OutboxEntry)
| OpRecordSubWorkflowConclusion (parentID nodeName : string) (c : SubWorkflowConclusion)
| OpClaimIdempotency (now : Time) (req : IdempotencyClaimRequest)
| OpConfirmIdempotency (id token : string)
| OpReleaseIdempotency (id token : string).

(** One critical section. *)
Definition exec (sha256hex : string -> string) (o : op) (s : memoryState) : memoryState :=
  match o with
  | OpCreateExecution hint now e => CreateExecution hint now s e
  | OpCreateExecutionWithOutbox hint now e entries =>
      (CreateExecutionWithOutbox hint now s e entries).1
  | OpCreateExecutionWithConcurrency hint now e entries a =>
      (CreateExecutionWithConcurrency sha256hex hint now s e entries a).1
  | OpSeedExecution hint now req => (seedExecution sha256hex hint now s req).1
  | OpSeedExecutionFromEntry hint ns now req a =>
      (seedExecutionFromEntryLocked sha256hex hint ns now s req a).1.1
  | OpReleaseInitialMirrorHold id => releaseInitialMirrorHold s id
  | OpRollbackCreatedExecution now id => rollbackCreatedExecution now s id
  | OpPruneTransientSkip id => pruneTransientSkipAfterTerminal s id
  | OpUpdateExecutionStatus now id st msg => (updateExecutionStatusLocked now s id st msg).1
  | OpExpireQueuedExecutions now limit line => (ExpireQueuedExecutions now s limit line).1
  | OpPauseExecution now id => (PauseExecution now s id).1
  | OpResumeExecution now id => (ResumeExecution now s id).1
  | OpListCancelingExecutions t limit => (ListCancelingExecutions s t limit).1
  | OpListDeadlineExceededExecutions t limit => (ListDeadlineExceededExecutions s t limit).1
  | OpAckDeadlineExpired id => AckDeadlineExpired s id
  | OpLeaseOutbox id now limit => (LeaseOutbox s id now limit).1
  | OpRenewOutbox id renew now => (RenewOutbox s id renew now).1
  | OpAckOutbox id eid => AckOutbox s id eid
  | OpReleaseOutbox id o => ReleaseOutbox s id o
  | OpRecordOutboxFailure id o maxAttempts => (RecordOutboxFailure s id o maxAttempts).1
  | OpReplayDeadLetter now req => (ReplayDeadLetter now s req).1
  | OpUpsertNode now n => (upsertNodeLocked now s n).1
  | OpCancelSuspendedNode now id name => (CancelSuspendedNode now s id name).1
  | OpAcquireTaskLease lease => (AcquireTaskLease s lease).1.1
  | OpAcquireTaskLeaseChecked lease cyc => (AcquireTaskLeaseChecked s lease cyc).1
  | OpResetNodeForRetryWithOutbox now id name token o =>
      (ResetNodeForRetryWithOutbox now s id name token o).1
  | OpRevokeLease id name token => (revokeLeaseLocked s id name token).1
  | OpRevokeLeaseWithOutbox now id name token o => (RevokeLeaseWithOutbox now s id name token o).1
  | OpClaimTaskLease lease => (ClaimTaskLease s lease).1.1
  | OpRenewTaskLease now id name token t => (RenewTaskLease now s id name token t).1
  | OpDecrementInDegree id u b => (DecrementInDegree s id u b).1
  | OpCommitNode now req => (CommitNode now s req).1
  | OpAdvanceNode now req => (AdvanceNode now s req).1
  | OpAcquireGroupLease lease => (AcquireGroupLease s lease).1
  | OpRenewGroupLease id u token t => (RenewGroupLease s id u token t).1
  | OpExpireGroupLease id u token => (ExpireGroupLease s id u token).1
  | OpRevokeGroupLeaseWithOutbox now id u token o =>
      (RevokeGroupLeaseWithOutbox now s id u token o).1
  | OpCommitGroup now req => (CommitGroup now s req).1
  | OpSuspendOrConsume id name spec => (SuspendOrConsume s id name spec).1
  | OpSuspendTaskLease now lease out so po spec old =>
      (SuspendTaskLease now s lease out so po spec old).1
  | OpResuspendAtomic id name sig spec => (ResuspendAtomic s id name sig spec).1
  | OpDeliverSignal w id sig data => (DeliverSignal w s id sig data).1
  | OpDeliverSignalWithOutbox now w id sig data intent =>
      (DeliverSignalWithOutbox now w s id sig data intent).1
  | OpAcquireResumeLock id name => (AcquireResumeLock s id name).1
  | OpRevokeSignal id sig => (RevokeSignal s id sig).1
  | OpPutOutput id name data => PutOutput s id name data
  | OpCreateSubExecution sub => CreateSubExecution s sub
  | OpCompleteSubExecution p n c st r => (CompleteSubExecution s p n c st r).1
  | OpBeginTaskExpansionWithOutbox now lease children entries =>
      (BeginTaskExpansionWithOutbox now s lease children entries).1
  | OpBeginTaskExpansion lease => (BeginTaskExpansion s lease).1
  | OpCreateExpandedSubExecution lease sub => (CreateExpandedSubExecution s lease sub).1
  | OpCompleteExpandedSubExecution lease c st r => (CompleteExpandedSubExecution s lease c st r).1
  | OpBeginSubWorkflowWait now lease link entries =>
      (BeginSubWorkflowWait now s lease link entries).1
  | OpRecordSubWorkflowConclusion p n c => (RecordSubWorkflowConclusion s p n c).1
  | OpClaimIdempotency now req => (ClaimIdempotency now s req).1
  | OpConfirmIdempotency id token => ConfirmIdempotency s id token
  | OpReleaseIdempotency id token => ReleaseIdempotency s id token
  end.

(** What callers guarantee: ids are fresh when a slot is decided, executions are
    created live, a cyclic commit that completes names a terminal status, and
    [line] and [waiters] are some order of the maps Go ranges over. *)
Definition admissible (sha256hex : string -> string) (o : op) (s : memoryState) : Prop :=
  match o with
  | OpCreateExecution _ _ e | OpCreateExecutionWithOutbox _ _ e _ =>
      IsTerminalExecutionStatus (ex_Status e) = false
  | OpCreateExecutionWithConcurrency _ _ e _ _ => ~ in_slots s (ex_ID e)
  | OpSeedExecution _ _ req => forall e, sq_Execution req = Some e -> ~ in_slots s (ex_ID e)
  | OpSeedExecutionFromEntry _ _ _ req _ =>
      admissions s !! er_AdmissionKey req = None ->
      ~ in_slots s (DeterministicExecutionID sha256hex (er_AdmissionKey req))
  | OpExpireQueuedExecutions _ _ line => line ≡ₚ (map_to_list (queued s)).*1
  | OpCommitNode _ req =>
      req_CyclicComplete req = true -> IsTerminalExecutionStatus (req_CyclicFinalStatus req) = true
  | OpDeliverSignal waiters _ _ _ | OpDeliverSignalWithOutbox _ waiters _ _ _ _ =>
      waiters ≡ₚ map_to_list (suspended s)
  | _ => True
  end.

(** The execution an operation brings to life or takes back; a duplicate entry
    admission does neither. *)
Definition replaces (sha256hex : string -> string) (o : op) (s : memoryState) : option string :=
  match o with
  | OpCreateExecution _ _ e | OpCreateExecutionWithOutbox _ _ e _
  | OpCreateExecutionWithConcurrency _ _ e _ _ => Some (ex_ID e)
  | OpSeedExecution _ _ req => ex_ID <$> sq_Execution req
  | OpSeedExecutionFromEntry _ _ _ req _ =>
      match admissions s !! er_AdmissionKey req with
      | Some _ => None
      | None => Some (DeterministicExecutionID sha256hex (er_AdmissionKey req))
      end
  | OpRollbackCreatedExecution _ id => Some id
  | _ => None
  end.

(** The admissions it makes are judged against the limits [lim]. *)
Definition declares (sha256hex : string -> string) (lim : string -> Z) (o : op) : Prop :=
  match o with
  | OpCreateExecutionWithConcurrency _ _ _ _ a => declared sha256hex lim a
  | OpSeedExecution _ _ req => forall a, sq_Admission req = Some a -> declared sha256hex lim a
  | OpSeedExecutionFromEntry _ _ _ _ admission =>
      forall a, admission = Some a -> declared sha256hex lim a
  | _ => True
  end.

(** The intent an operation reports delivered. *)
Definition acknowledges (o : op) : option (string * string) :=
  match o with OpAckOutbox id eid => Some (id, eid) | _ => None end.

(** A sequence of critical sections. *)
Inductive run (sha256hex : string -> string) : memoryState -> list op -> memoryState -> Prop :=
| run_nil s : run sha256hex s [] s
| run_cons s o ops s' :
    admissible sha256hex o s -> run sha256hex (exec sha256hex o s) ops s' ->
    run sha256hex s (o :: ops) s'.

(** ** One critical section *)

Lemma create_only_life_inv hint now s e :
  life_inv s -> IsTerminalExecutionStatus (ex_Status e) = false ->
  life_inv (CreateExecution hint now s e).
Proof.
  intros [H1 H2 H3] Ht. unfold CreateExecution. cbn zeta.
  pose proof (noteMirror_quiet hint s e) as [[F1 G1] _ _ _ _].
  pose proof (markPending_quiet (noteMirrorModeLocked hint s e) (ex_ID e)) as [[F2 G2] _ _ _ _].
  set (s2 := (markMirrorCreatePendingLocked _ _).1) in *.
  assert (G : same_slots s s2) by (by etrans). apply create_life_inv; [|..|done].
  - by apply (slots_wf_same s).
  - intros x. unfold in_slots. destruct G as (_ & -> & ->). intros Hx. right.
    rewrite F2, F1. by apply H2.
  - by rewrite F2, F1.
Qed.

(** An outbox operation, up to the intent it acknowledges. *)
Lemma outbox_op_sound sha lim D Q (K : string -> string -> Prop) s a s' :
  outbox_step s a s' -> aside s s' -> (forall id eid, a = Some (id, eid) -> ~ K id eid) ->
  sound sha lim D Q K s s'.
Proof. intros H Hs Ha. apply steady_sound. eapply aside_steady; [exact H| |done]. naive_solver. Qed.

Lemma begin_create_sound sha lim D (Q : string -> Prop) K hint now s e :
  ~ Q (ex_ID e) -> IsTerminalExecutionStatus (ex_Status e) = false ->
  sound sha lim D Q K s (CreateExecution hint now s e).
Proof.
  intros Hq Ht. split; [by apply begin_create_evolves|intros _; apply begin_create_path|
    apply begin_create_present|].
  intros HI. by apply create_only_life_inv.
Qed.

Lemma create_outbox_sound sha lim D (Q : string -> Prop) K hint now s e entries :
  ~ Q (ex_ID e) -> IsTerminalExecutionStatus (ex_Status e) = false ->
  sound sha lim D Q K s (CreateExecutionWithOutbox hint now s e entries).1.
Proof.
  intros Hq Ht. unfold CreateExecutionWithOutbox.
  pose proof (begin_create_sound sha lim D Q K hint now s e Hq Ht) as H. unfold CreateExecution in H.
  cbn zeta in *. destruct (markMirrorCreatePendingLocked _ _) as [s1 hold]. cbn [fst] in *.
  etrans; [exact H|]. by apply steady_sound, writeInitialIntents_steady.
Qed.

(** Every operation is sound, up to the execution it replaces and the intent it
    acknowledges. *)
Lemma exec_sound sha lim D (Q : string -> Prop) (K : string -> string -> Prop) o s :
  admissible sha o s -> (D -> declares sha lim o) ->
  (forall id, replaces sha o s = Some id -> ~ Q id) ->
  (forall id eid, acknowledges o = Some (id, eid) -> ~ K id eid) ->
  sound sha lim D Q K s (exec sha o s).
Proof.
  intros Ha HD HQ HK.
  destruct o; simpl in Ha, HD, HQ, HK; cbn [exec];
    try (apply quiet_sound; solve [auto with store]);
    try (apply steady_sound; solve [auto with store]);
    try (eapply outbox_op_sound; [constructor|solve [auto with store]|done]).
  - apply begin_create_sound; auto.
  - apply create_outbox_sound; auto.
  - apply create_concurrency_sound; auto.
  - apply seed_sound; [|auto]. intros e He. split; [|auto]. apply HQ. by rewrite He.
  - apply entry_sound; [|auto]. intros Hn. rewrite Hn in HQ. auto.
  - split; [apply releaseHold_evolves|intros _; apply path_other, releaseHold_frame|
      apply present_same, releaseHold_frame|].
    apply life_inv_frame, releaseHold_frame.
  - split; [apply rollback_evolves; auto|intros _; apply rollback_path|
      apply rollback_present; auto|apply rollback_life_inv].
  - apply update_sound.
  - split; [apply expire_evolves|intros _; apply expire_path|apply expire_present|
      apply expire_life_inv].
  - split; [apply pause_evolves|intros _; apply pause_path|apply pause_present|
      apply pause_life_inv].
  - split; [apply resume_evolves|intros _; apply resume_path|apply resume_present|
      apply resume_life_inv].
  - destruct (CommitNode_state now s req) as [->| ->]; [reflexivity|by apply commit_sound].
  - apply commitGroup_sound.
Qed.

(** Along a run: the executions no operation replaces and the intents no
    operation acknowledges. *)
Fixpoint untouched (sha256hex : string -> string) (s : memoryState) (ops : list op) (id : string)
    : Prop :=
  match ops with
  | [] => True
  | o :: ops => replaces sha256hex o s <> Some id /\
                untouched sha256hex (exec sha256hex o s) ops id
  end.
Definition unacknowledged (ops : list op) (id entryID : string) : Prop :=
  Forall (fun o => acknowledges o <> Some (id, entryID)) ops.

Lemma run_sound sha lim s ops s' :
  run sha s ops s' ->
  sound sha lim (Forall (declares sha lim) ops) (untouched sha s ops) (unacknowledged ops) s s'.
Proof.
  induction 1 as [s|s o ops s' Ha Hr IH]; [reflexivity|]. destruct IH as [IH1 IH2 IH3 IH4].
  etrans; [apply (exec_sound sha lim _ _ _ o s Ha)|split; [| | |exact IH4]].
  - by inversion 1.
  - intros id Hid [Hu _]. done.
  - intros id eid Hid Hu. by inversion Hu.
  - eapply evolves_mono; [| |exact IH1]; [by intros id [_ H]|intros *; by inversion 1].
  - intros Hd. apply IH2. by inversion Hd.
  - intros id [_ Hu]. by apply IH3.
Qed.

(** The store's maps keep every record under its own name. *)
Lemma exec_typed sha o s : keepsTyped s (exec sha o s).
Proof.
  destruct o; cbn [exec]; try solve [auto with store];
    try (apply quiet_typed; [solve [auto with store]|];
         unfold DecrementInDegree, AcquireGroupLease, RenewGroupLease, ExpireGroupLease,
           expireGroupLeaseLocked, ResuspendAtomic, DeliverSignal, addMultiSignalLocked,
           AcquireResumeLock, RevokeSignal, CompleteSubExecution, CreateExpandedSubExecution,
           CompleteExpandedSubExecution, RecordSubWorkflowConclusion, ConfirmIdempotency, ReleaseIdempotency, ListCancelingExecutions, ListDeadlineExceededExecutions; cbn zeta;
         by repeat case_match).
  - apply begin_create_typed.
  - apply leaseAll_typed.
Qed.

(** ** A run to evaluate

    Two executions of one workflow under a limit of one: the second waits until
    the first has succeeded. *)

Definition execAll (sha256hex : string -> string) (ops : list op) (s : memoryState) : memoryState :=
  foldl (fun s o => exec sha256hex o s) s ops.

Fixpoint admissibleAll (sha256hex : string -> string) (s : memoryState) (ops : list op) : Prop :=
  match ops with
  | [] => True
  | o :: ops => admissible sha256hex o s /\ admissibleAll sha256hex (exec sha256hex o s) ops
  end.

Lemma run_execAll sha s ops : admissibleAll sha s ops -> run sha s ops (execAll sha ops s).
Proof.
  revert s. induction ops as [|o ops IH]; intros s; [constructor|]. intros [Ha Hr].
  constructor; [done|by apply IH].
Qed.

Definition demoSecond : ExecutionSnapshot := demoExecution <| ex_ID := "e2" |>.
Definition demoSecondEntry : OutboxEntry := demoEntry <| oe_ID := "execute/e2/a/0" |>.
Definition demoSubmit : list op :=
  [OpCreateExecutionWithConcurrency false 1 demoExecution [demoEntry] demoAdmission;
   OpCreateExecutionWithConcurrency false 2 demoSecond [demoSecondEntry] demoAdmission].
Definition demoServe : list op :=
  [OpLeaseOutbox "e1" 3 10; OpAckOutbox "e1" "execute/e1/a/0";
   OpUpdateExecutionStatus 4 "e1" ExecutionStatusSuccess "";
   OpUpdateExecutionStatus 5 "e1" ExecutionStatusFailed "late";
   OpLeaseOutbox "e2" 6 10; OpPauseExecution 7 "e2"].
Definition demoSubmitted : memoryState := execAll (fun p => p) demoSubmit (newMemoryState false).
Definition demoServed : memoryState := execAll (fun p => p) demoServe demoSubmitted.

Lemma demo_submit : run (fun p => p) (newMemoryState false) demoSubmit demoSubmitted.
Proof.
  apply (run_execAll _ _ demoSubmit). split; [|split; [|exact I]]; simpl admissible;
    intros [[k H]|[w H]]; by vm_compute in H.
Qed.

Lemma demo_serve : run (fun p => p) demoSubmitted demoServe demoServed.
Proof. apply (run_execAll _ _ demoServe). repeat (split; [exact I|]). exact I. Qed.

(** The first has ended before the late failure report. *)
Definition demoEnded : memoryState := execAll (fun p => p) (take 3 demoServe) demoSubmitted.

Lemma demo_late : run (fun p => p) demoEnded (drop 3 demoServe) demoServed.
Proof.
  assert (demoServed = execAll (fun p => p) (drop 3 demoServe) demoEnded) as ->.
  { unfold demoServed, demoEnded, execAll. by rewrite <- foldl_app, take_drop. }
  apply run_execAll. repeat (split; [exact I|]). exact I.
Qed.

Lemma demo_lookup s id (P : execEntry -> Prop) `{!forall e, Decision (P e)} :
  (match executions s !! id with Some e => bool_decide (P e) | None => false end) = true ->
  exists e, executions s !! id = Some e /\ P e.
Proof. destruct (executions s !! id) as [e|]; [|done]. intros Hp%bool_decide_eq_true. eauto. Qed.

Lemma demo_ended : exists e, executions demoEnded !! "e1" = Some e /\ status e = ExecutionStatusSuccess.
Proof. apply (demo_lookup _ _ (fun e => status e = ExecutionStatusSuccess)). by vm_compute. Qed.

#[local] Instance kept_dec s id eid : Decision (kept s id eid).
Proof. unfold kept. apply _. Defined.

Lemma demo_waiting :
  exists e, executions demoSubmitted !! "e2" = Some e /\ kept demoSubmitted "e2" "execute/e2/a/0".
Proof.
  apply (demo_lookup _ _ (fun e => kept demoSubmitted "e2" "execute/e2/a/0")). by vm_compute.
Qed.

(** Nothing of a run replaces or acknowledges an execution it does not name. *)
Ltac demo_untouched := repeat (split; [by vm_compute|]); exact I.

(** A root skipped when the execution is created, and a later pause. *)
Definition demoSkipEntry : OutboxEntry :=
  newOutboxEntry "skip/e1/b/0"
    (zeroTask <| t_ExecutionID := "e1" |> <| t_NodeName := "b" |> <| t_UnitIdx := 1 |>
              <| t_Type := TaskTypeNodeSkip |>) zeroTime.
Definition demoRootSkipped : memoryState :=
  (CreateExecutionWithOutbox false 1 (newMemoryState false) demoExecution [demoSkipEntry]).1.
Definition demoPause : list op := [OpPauseExecution 2 "e1"; OpResumeExecution 3 "e1"].
Definition demoPaused : memoryState := execAll (fun p => p) demoPause demoRootSkipped.

Lemma demo_pause : run (fun p => p) demoRootSkipped demoPause demoPaused.
Proof. apply (run_execAll _ _ demoPause). repeat (split; [exact I|]). exact I. Qed.

(** An entry admission, and the same key submitted again with another result. *)
Definition demoEntryRequest (hash : string) : SeedExecutionFromEntryRequest :=
  mkEntryRequest "key" "ns" "wf" "1" "" 0 (Some demoCompiled) GroupOutcomeSuccess [] "" hash [] None.
Definition demoEntryState : memoryState :=
  (seedExecutionFromEntryLocked (fun p => p) false "" 5 (newMemoryState false)
     (demoEntryRequest "h1") None).1.1.
Definition demoEntryResponse : SeedExecutionFromEntryResponse :=
  (seedExecutionFromEntryLocked (fun p => p) false "" 5 (newMemoryState false)
     (demoEntryRequest "h1") None).1.2.
Definition demoEntryAgain : list op :=
  [OpSeedExecutionFromEntry false "" 6 (demoEntryRequest "h2") None;
   OpPauseExecution 7 "exec-tg-key"].
Definition demoEntryEnd : memoryState := execAll (fun p => p) demoEntryAgain demoEntryState.

Lemma demo_entry_created :
  seedExecutionFromEntryLocked (fun p => p) false "" 5 (newMemoryState false)
    (demoEntryRequest "h1") None
  = (demoEntryState, demoEntryResponse, true).
Proof.
  unfold demoEntryState, demoEntryResponse.
  assert (H : (seedExecutionFromEntryLocked (fun p => p) false "" 5 (newMemoryState false)
    (demoEntryRequest "h1") None).2 = true) by (by vm_compute).
  rewrite <- H. by destruct (seedExecutionFromEntryLocked _ _ _ _ _ _ _) as [[s r] c].
Qed.

Lemma demo_entry_again : run (fun p => p) demoEntryState demoEntryAgain demoEntryEnd.
Proof.
  apply (run_execAll _ _ demoEntryAgain). split; [|split; exact I].
  intros H. by vm_compute in H.
Qed.

(** ** Main results *)



(** C14. The store is well typed: in every state it reaches from the empty one,
    whatever operations callers interleave and whatever ids their requests carry,
    every execution row, node record, intent and dead letter is filed under the
    key its own fields spell, no intent has an empty id and no execution keeps an
    empty outbox. *)
Theorem reachable_typed sha db ops s : run sha (newMemoryState db) ops s -> typed s.
Proof.
  intros Hr. remember (newMemoryState db) as s0 eqn:E.
  assert (HT : typed s0) by (subst; apply typed_new). clear E.
  induction Hr as [s|s o ops s' _ _ IH]; [done|]. by apply IH, exec_typed.
Qed.

Lemma reachable_typed_witness :
  run (fun p => p) (newMemoryState false) demoSubmit demoSubmitted /\ typed demoSubmitted.
Proof.
  split; [exact demo_submit|]. apply (reachable_typed (fun p => p) false demoSubmit), demo_submit.
Defined.



(** C12. An execution that has ended stays exactly as it ended, under every
    interleaving of operations that neither create it again nor roll it back. *)
Theorem ended_execution_final sha s ops s' id e :
  run sha s ops s' -> untouched sha s ops id -> executions s !! id = Some e -> ended e = true ->
  executions s' !! id = Some e.
Proof.
  intros H%(run_sound sha (fun _ => 0)) Hu He Hd. rewrite <- He.
  apply (ev_final _ _ _ _ (so_evolves _ _ _ _ _ _ _ H)); [done|]. intros e' He'. by simplify_eq.
Qed.

Lemma ended_execution_final_witness :
  exists e, executions demoServed !! "e1" = Some e /\ status e = ExecutionStatusSuccess.
Proof.
  destruct demo_ended as (e & He & Hs). exists e. split; [|exact Hs].
  apply (ended_execution_final (fun p => p) demoEnded (drop 3 demoServe)).
  - exact demo_late.
  - demo_untouched.
  - exact He.
  - unfold ended. by rewrite Hs.
Defined.

(** C8. No interleaving loses work: an intent of a live execution that nobody
    acknowledges stays in the outbox or among the dead letters until its
    execution has ended. *)
Theorem unacknowledged_intent_kept sha s ops s' id entryID e :
  run sha s ops s' -> untouched sha s ops id -> unacknowledged ops id entryID ->
  executions s !! id = Some e -> kept s id entryID ->
  kept s' id entryID \/ exists e', executions s' !! id = Some e' /\ ended e' = true.
Proof.
  intros H%(run_sound sha (fun _ => 0)) Hu Ha He Hk.
  destruct (ev_intents _ _ _ _ (so_evolves _ _ _ _ _ _ _ H) id entryID Hu Ha Hk) as [|Hs]; [by left|].
  right. destruct (so_present _ _ _ _ _ _ _ H id Hu) as [e' He']; [by eexists|]. eauto.
Qed.

Lemma unacknowledged_intent_kept_witness :
  kept demoServed "e2" "execute/e2/a/0" \/
  exists e', executions demoServed !! "e2" = Some e' /\ ended e' = true.
Proof.
  destruct demo_waiting as (e & He & Hk).
  apply (unacknowledged_intent_kept (fun p => p) demoSubmitted demoServe demoServed _ _ e).
  - exact demo_serve.
  - demo_untouched.
  - repeat constructor; by vm_compute.
  - exact He.
  - exact Hk.
Defined.

(** C21. A scheduling decision is taken once: no interleaving changes the marker
    of a unit that has been scheduled or skipped. *)
Theorem decided_unit_final sha s ops s' id unitIdx :
  run sha s ops s' -> untouched sha s ops id -> slash_free id ->
  marker (scheduled s) (memoryCounterKey id unitIdx) <> "" ->
  marker (scheduled s') (memoryCounterKey id unitIdx)
  = marker (scheduled s) (memoryCounterKey id unitIdx).
Proof.
  intros H%(run_sound sha (fun _ => 0)) Hu Hf Hm.
  by apply (ev_marks _ _ _ _ (so_evolves _ _ _ _ _ _ _ H)).
Qed.

Lemma decided_unit_final_witness :
  marker (scheduled demoPaused) (memoryCounterKey "e1" 1) = "skip".
Proof.
  etrans; [apply (decided_unit_final (fun p => p) demoRootSkipped demoPause demoPaused)|by vm_compute].
  - exact demo_pause.
  - demo_untouched.
  - by apply (bool_decide_unpack _).
  - by vm_compute.
Defined.

(** C11. Entry admission is decided by the first writer.  Once a key has been
    admitted, every later submission under it is answered with that execution
    and writes nothing, whatever happened in between: as a duplicate when the
    result hash is the same, as a conflict otherwise. *)
Theorem entry_admission_first_wins sha hint ns now s req a s1 r ops s2 hint' ns' now' req' a' :
  let id := DeterministicExecutionID sha (er_AdmissionKey req) in
  let same := bool_decide (er_ResultHash req = er_ResultHash req') in
  let position := queuePositionLocked s2 id in
  seedExecutionFromEntryLocked sha hint ns now s req a = (s1, r, true) ->
  run sha s1 ops s2 -> untouched sha s1 ops id -> er_AdmissionKey req' = er_AdmissionKey req ->
  seedExecutionFromEntryLocked sha hint' ns' now' s2 req' a'
  = (s2, mkEntryResponse (if same then AdmissionStateAccepted else AdmissionStateConflict)
           id same (0 <? position) position [], false).
Proof.
  intros id same position E H%(run_sound sha (fun _ => 0)) Hu Hk.
  assert (H1 : admissions s1 !! er_AdmissionKey req
               = Some (mkAdmissionEntry id (er_ResultHash req))).
  { revert E. unfold seedExecutionFromEntryLocked. cbn zeta. fold id.
    destruct (admissions s !! _); [done|]. destruct (admitSeed _ _ _ _ _) as [s3 [err|pending]]; [done|].
    destruct (entryEffects _ _ _ _) as [s4 sk]. intros [= <- _]. simpl. by rewrite lookup_insert_eq. }
  pose proof (ev_admissions _ _ _ _ (so_evolves _ _ _ _ _ _ _ H)
    (er_AdmissionKey req) (mkAdmissionEntry id (er_ResultHash req)) Hu H1) as H2.
  unfold seedExecutionFromEntryLocked. by rewrite Hk, H2.
Qed.

Lemma entry_admission_first_wins_witness :
  let position := queuePositionLocked demoEntryEnd "exec-tg-key" in
  seedExecutionFromEntryLocked (fun p => p) false "" 8 demoEntryEnd (demoEntryRequest "h2") None
  = (demoEntryEnd, mkEntryResponse AdmissionStateConflict "exec-tg-key" false
       (0 <? position) position [], false).
Proof.
  apply (entry_admission_first_wins (fun p => p) false "" 5 (newMemoryState false)
    (demoEntryRequest "h1") None demoEntryState demoEntryResponse demoEntryAgain demoEntryEnd false "" 8 (demoEntryRequest "h2")).
  - exact demo_entry_created.
  - exact demo_entry_again.
  - demo_untouched.
  - reflexivity.
Defined.
