(* ===== verification/Offsets.v ===== *)
(** * Kafka offsets: which messages the queue may forget

    [backend/providers/distributed/internal/queue/kafka]: the tracker that turns
    finished messages into commit positions ([tracker.go]), the committer that
    sends them to the broker ([committer.go]), and the goroutines of one topic
    between them ([consumer.go]: the fetch loop, the workers, the verdict on one
    message).  A goroutine is a value that says where it stands and every move is
    a case of [step], so a run is any interleaving.  The broker, the kafka-go
    reader and the other members of the group are cases of [step] too, with what
    Kafka documents of them as their guards: a reader returns the records of a
    partition in order from its position, an assignment starts at the committed
    position, a failed commit may have been applied in part. *)

From S2P Require Import Prelude Types Retry.

(** ** The tracker *)

Record inflight : Type := mkInflight {
  m_offset : Z;
  m_done : bool
}.

#[export] Instance Eta_inflight : Eta inflight := fun r => mkInflight (m_offset r) (m_done r).
#[export] Instance inflight_inhabited : Inhabited inflight := populate (mkInflight 0 false).

(** The queue and the index share their messages: both hold positions in
    [pt_heap], where every message ever registered stays. *)
Record partitionTracker : Type := mkPartition {
  pt_epoch : Z;
  pt_highest : Z;
  pt_queue : list nat;
  pt_byOffset : gmap Z nat;
  pt_heap : list inflight
}.

#[export] Instance Eta_partitionTracker : Eta partitionTracker := fun r =>
  mkPartition (pt_epoch r) (pt_highest r) (pt_queue r) (pt_byOffset r) (pt_heap r).

(** [tr_changed] is the open channel, if a waiter made one; [tr_made] counts the
    channels made. *)
Record tracker : Type := mkTracker {
  tr_partitions : gmap Z partitionTracker;
  tr_pending : Z;
  tr_changed : option nat;
  tr_made : nat
}.

#[export] Instance Eta_tracker : Eta tracker := fun r =>
  mkTracker (tr_partitions r) (tr_pending r) (tr_changed r) (tr_made r).

Record token : Type := mkToken {
  tk_partition : Z;
  tk_offset : Z;
  tk_epoch : Z
}.

Definition newTracker : tracker := mkTracker ∅ 0 None 0.

Definition notifyLocked (t : tracker) : tracker := t <| tr_changed := None |>.

(** What a redelivery abandons. *)
Definition dropEpoch (t : tracker) (ps : partitionTracker) : tracker * partitionTracker :=
  (notifyLocked (t <| tr_pending ::= fun n => n - Z.of_nat (length (pt_queue ps)) |>),
   ps <| pt_epoch ::= fun e => (e + 1) mod 2 ^ 64 |> <| pt_queue := [] |> <| pt_byOffset := ∅ |>).

Definition Begin (t : tracker) (partition offset : Z) : tracker * token :=
  let '(t, ps) :=
    match tr_partitions t !! partition with
    | None => (t, mkPartition 0 0 [] ∅ [])
    | Some ps => if offset <=? pt_highest ps then dropEpoch t ps else (t, ps)
    end in
  let m := length (pt_heap ps) in
  let ps := ps <| pt_heap ::= fun h => h ++ [mkInflight offset false] |>
               <| pt_queue ::= fun q => q ++ [m] |>
               <| pt_byOffset ::= <[offset := m]> |>
               <| pt_highest := offset |> in
  (t <| tr_partitions ::= <[partition := ps]> |> <| tr_pending ::= Z.succ |>,
   mkToken partition offset (pt_epoch ps)).

(** The loop of [Done]: the completed run at the front of the queue. *)
Fixpoint popDone (heap : list inflight) (queue : list nat) (byOffset : gmap Z nat)
    (commitOffset n : Z) : list nat * gmap Z nat * Z * Z :=
  match queue with
  | m :: rest =>
      let m := heap !!! m in
      if m_done m then popDone heap rest (delete (m_offset m) byOffset) (m_offset m) (n + 1)
      else (queue, byOffset, commitOffset, n)
  | [] => ([], byOffset, commitOffset, n)
  end.

Definition Done (t : tracker) (tk : token) : tracker * option Z :=
  match tr_partitions t !! tk_partition tk with
  | None => (t, None)
  | Some ps =>
      if negb (pt_epoch ps =? tk_epoch tk) then (t, None)
      else
        match pt_byOffset ps !! tk_offset tk with
        | None => (t, None)
        | Some m =>
            if m_done (pt_heap ps !!! m) then (t, None)
            else
              let heap := alter (fun m => m <| m_done := true |>) m (pt_heap ps) in
              let '(queue, byOffset, commitOffset, n) :=
                popDone heap (pt_queue ps) (pt_byOffset ps) 0 0 in
              let ps := ps <| pt_heap := heap |> <| pt_queue := queue |>
                           <| pt_byOffset := byOffset |> in
              let t := t <| tr_partitions ::= <[tk_partition tk := ps]> |> in
              if n =? 0 then (t, None)
              else (notifyLocked (t <| tr_pending ::= fun p => p - n |>), Some commitOffset)
        end
  end.

(** The locked part of [WaitBelow]: pass, or the channel to wait for. *)
Definition WaitBelow (limit : Z) (t : tracker) : tracker * option nat :=
  if (limit <=? 0) || (tr_pending t <? limit) then (t, None)
  else
    match tr_changed t with
    | Some ch => (t, Some ch)
    | None => (t <| tr_changed := Some (tr_made t) |> <| tr_made ::= S |>, Some (tr_made t))
    end.

(** A channel is closed in the step that resets [tr_changed]. *)
Definition closed (t : tracker) (ch : nat) : bool := bool_decide (tr_changed t <> Some ch).

(** ** The committer *)

Record committer : Type := mkCommitter {
  cm_pending : gmap Z Z;
  cm_inflight : gmap Z Z;
  cm_committed : gmap Z Z;
  cm_wake : bool
}.

#[export] Instance Eta_committer : Eta committer := fun r =>
  mkCommitter (cm_pending r) (cm_inflight r) (cm_committed r) (cm_wake r).

Definition newCommitter : committer := mkCommitter ∅ ∅ ∅ false.

Definition below (offset : Z) (m : gmap Z Z) (partition : Z) : bool :=
  match m !! partition with Some cur => offset <=? cur | None => false end.

(** The locked part of [Advance], and whether it goes on to poke [wake]. *)
Definition Advance (c : committer) (partition offset : Z) : committer * bool :=
  if below offset (cm_committed c) partition || below offset (cm_inflight c) partition
     || below offset (cm_pending c) partition
  then (c, false)
  else (c <| cm_pending ::= <[partition := offset]> |>, true).

Definition takeBatch (c : committer) : committer * gmap Z Z :=
  (c <| cm_pending := ∅ |> <| cm_inflight := cm_pending c |>, cm_pending c).

(** Every offset of the batch that is above what the map has. *)
Definition raise (batch m : gmap Z Z) : gmap Z Z :=
  union_with (fun off cur => Some (Z.max off cur)) batch m.

Definition restore (c : committer) (batch : gmap Z Z) : committer :=
  c <| cm_inflight := ∅ |> <| cm_pending ::= raise batch |>.

Definition markCommitted (c : committer) (batch : gmap Z Z) : committer :=
  c <| cm_inflight := ∅ |> <| cm_committed ::= raise batch |>.

(** ** The verdict on one message *)

(** How a write to the broker ends.  A list of answers is what the writes of one
    call meet until the context ends. *)
Inductive PublishAnswer : Type := WriteOk | WriteTooLarge | WriteFailed.

#[export] Instance PublishAnswer_eq_dec : EqDecision PublishAnswer.
Proof. solve_decision. Defined.

Inductive publishResult : Type := publishWritten | publishCancelled | publishTooLarge.

Fixpoint publishRetrying (answers : list PublishAnswer) : publishResult * list PublishAnswer :=
  match answers with
  | [] => (publishCancelled, [])
  | WriteOk :: rest => (publishWritten, rest)
  | WriteTooLarge :: rest => (publishTooLarge, rest)
  | WriteFailed :: rest => publishRetrying rest
  end.

(** The copies of a message on other topics. *)
Inductive Copy : Type :=
| DelayCopy (attempt : Z) (due : Time)
| DeadLetterCopy
| ReducedCopy.

(** Finished or not, and the copies that were written. *)
Definition deadLetterMessage (answers : list PublishAnswer) : bool * list Copy :=
  match publishRetrying answers with
  | (publishWritten, _) => (true, [DeadLetterCopy])
  | (publishCancelled, _) => (false, [])
  | (publishTooLarge, rest) =>
      match publishRetrying rest with
      | (publishWritten, _) => (true, [ReducedCopy])
      | (publishCancelled, _) => (false, [])
      | (publishTooLarge, _) => (true, [])
      end
  end.

Definition publishCopy (out : Copy) (answers : list PublishAnswer) : bool * list Copy :=
  match publishRetrying answers with
  | (publishWritten, _) => (true, [out])
  | (publishTooLarge, rest) => deadLetterMessage rest
  | (publishCancelled, _) => (false, [])
  end.

(** [backoff]'s loop over [i]. *)
Fixpoint backoffLoop (i : nat) (d limit : Duration) : Duration :=
  match i with
  | O => Z.min d limit
  | S i => if limit / 2 <? d then limit else backoffLoop i (d * 2) limit
  end.

Definition backoff (attempt : Z) (limit : Duration) : Duration :=
  backoffLoop (Z.to_nat (attempt - 1)) Second limit.

Definition retry (MaxRetries : Z) (MaxRetryBackoff : Duration) (attempt : Z) (now : Time)
    (answers : list PublishAnswer) : bool * list Copy :=
  let attempt := attempt + 1 in
  if MaxRetries <? attempt then deadLetterMessage answers
  else publishCopy (DelayCopy attempt (now + backoff attempt MaxRetryBackoff)) answers.

(** What the handler returned, panics and timeouts being failures. *)
Inductive HandlerResult : Type := Succeeded | FailedPermanently | FailedOnce.

Definition process (MaxRetries : Z) (MaxRetryBackoff : Duration) (transient : bool)
    (decoded : bool) (handler : HandlerResult) (attempt : Z) (now : Time)
    (answers : list PublishAnswer) : bool * list Copy :=
  if negb decoded then deadLetterMessage answers
  else
    match handler with
    | Succeeded => (true, [])
    | FailedPermanently => if transient then (true, []) else deadLetterMessage answers
    | FailedOnce =>
        if transient then (true, [])
        else retry MaxRetries MaxRetryBackoff attempt now answers
    end.

(** ** The goroutines of one topic *)

(** The fetch loop: at [WaitBelow], blocked on its channel, in [FetchMessage],
    offering a message to the workers, or returned. *)
Inductive fetcher : Type :=
| Gate
| WaitingOn (ch : nat)
| Reading
| Offering (w : token)
| FetchReturned.

(** A worker: at the [work] channel, in [process], between [Done] and [Advance],
    or between the two parts of [Advance]. *)
Inductive topicWorker : Type :=
| Idle
| Processing (w : token)
| Advancing (partition offset : Z)
| Poking.

(** The committer: in [Run]'s select, at the top of [drain]'s loop, in a commit
    (the last one or not), in [sleep], or returned. *)
Inductive committing : Type :=
| Selecting
| Draining
| Committing (batch : gmap Z Z) (final : bool)
| Sleeping
| CommitReturned.

(** [l_position] is the reader's next offset and [l_broker] the group's committed
    position, per partition; [l_finished] has every message that some member has
    finished. *)
Record topicLoop : Type := mkLoop {
  l_tracker : tracker;
  l_committer : committer;
  l_fetcher : fetcher;
  l_workers : list topicWorker;
  l_run : committing;
  l_stopping : bool;
  l_position : gmap Z Z;
  l_broker : gmap Z Z;
  l_finished : gset (Z * Z)
}.

#[export] Instance Eta_topicLoop : Eta topicLoop := fun r =>
  mkLoop (l_tracker r) (l_committer r) (l_fetcher r) (l_workers r) (l_run r) (l_stopping r)
    (l_position r) (l_broker r) (l_finished r).

Definition startLoop (workers : nat) : topicLoop :=
  mkLoop newTracker newCommitter Gate (replicate workers Idle) Selecting false ∅ ∅ ∅.

(** [complete]: the worker goes on to [Advance] if the watermark moved. *)
Definition complete (t : tracker) (tk : token) : tracker * topicWorker :=
  match Done t tk with
  | (t, Some offset) => (t, Advancing (tk_partition tk) offset)
  | (t, None) => (t, Idle)
  end.

Inductive event : Type :=
| FetchGate
| FetchWoken
| FetchGot (partition offset : Z)
| FetchFailed
| FetchEnded
| Hand (i : nat)
| Processed (i : nat) (finished : bool)
| Advanced (i : nat)
| Poked (i : nat)
| CommitWoken
| CommitTake (final : bool)
| CommitOk
| CommitFailed (applied : list Z) (closedReader : bool)
| CommitRetry
| Stop
| Rebalanced (partition : Z)
| OtherFinished (partition offset : Z)
| OtherCommitted (partition position : Z).

Section topic.
(** [record p o]: partition [p] has a record at offset [o]; [start p]: where the
    group begins to read it. *)
Variables (limit : Z) (record : Z -> Z -> bool) (start : Z -> Z).

Definition positionOf (l : topicLoop) (p : Z) : Z := default (start p) (l_position l !! p).
Definition brokerOf (l : topicLoop) (p : Z) : Z := default (start p) (l_broker l !! p).

(** The broker stores the offset after the committed message. *)
Definition applyCommit (batch broker : gmap Z Z) : gmap Z Z := (Z.succ <$> batch) ∪ broker.

(** No record of the partition in a range fails the test. *)
Definition recordsIn (p from to : Z) (test : Z -> bool) : bool :=
  forallb (fun o => negb (record p o) || test o) (seqZ from (to - from)).

Definition step (e : event) (l : topicLoop) : option topicLoop :=
  match e with
  | FetchGate =>
      match l_fetcher l, WaitBelow limit (l_tracker l) with
      | Gate, (t, None) => Some (l <| l_tracker := t |> <| l_fetcher := Reading |>)
      | Gate, (t, Some ch) => Some (l <| l_tracker := t |> <| l_fetcher := WaitingOn ch |>)
      | _, _ => None
      end
  | FetchWoken =>
      match l_fetcher l with
      | WaitingOn ch =>
          if closed (l_tracker l) ch then Some (l <| l_fetcher := Gate |>) else None
      | _ => None
      end
  | FetchGot p o =>
      match l_fetcher l with
      | Reading =>
          if record p o && (positionOf l p <=? o) && recordsIn p (positionOf l p) o (fun _ => false)
          then
            let '(t, tk) := Begin (l_tracker l) p o in
            Some (l <| l_tracker := t |> <| l_fetcher := Offering tk |>
                    <| l_position ::= <[p := o + 1]> |>)
          else None
      | _ => None
      end
  | FetchFailed =>
      match l_fetcher l with Reading => Some (l <| l_fetcher := Gate |>) | _ => None end
  | FetchEnded =>
      if l_stopping l then Some (l <| l_fetcher := FetchReturned |>) else None
  | Hand i =>
      match l_fetcher l, l_workers l !! i with
      | Offering w, Some Idle =>
          Some (l <| l_fetcher := Gate |> <| l_workers ::= <[i := Processing w]> |>)
      | _, _ => None
      end
  | Processed i finished =>
      match l_workers l !! i with
      | Some (Processing w) =>
          if finished then
            let '(t, wk) := complete (l_tracker l) w in
            Some (l <| l_tracker := t |> <| l_workers ::= <[i := wk]> |>
                    <| l_finished ::= union {[(tk_partition w, tk_offset w)]} |>)
          else if l_stopping l then Some (l <| l_workers ::= <[i := Idle]> |>) else None
      | _ => None
      end
  | Advanced i =>
      match l_workers l !! i with
      | Some (Advancing p o) =>
          let '(c, poke) := Advance (l_committer l) p o in
          Some (l <| l_committer := c |>
                  <| l_workers ::= <[i := if poke then Poking else Idle]> |>)
      | _ => None
      end
  | Poked i =>
      match l_workers l !! i with
      | Some Poking =>
          Some (l <| l_committer ::= (fun c => c <| cm_wake := true |>) |>
                  <| l_workers ::= <[i := Idle]> |>)
      | _ => None
      end
  | CommitWoken =>
      match l_run l with
      | Selecting =>
          if cm_wake (l_committer l)
          then Some (l <| l_committer ::= (fun c => c <| cm_wake := false |>) |>
                       <| l_run := Draining |>)
          else None
      | _ => None
      end
  | CommitTake final =>
      if match l_run l with
         | Draining => negb final || l_stopping l
         | Selecting | Sleeping => final && l_stopping l
         | _ => false
         end
      then
        let '(c, batch) := takeBatch (l_committer l) in
        Some (l <| l_committer := c |>
                <| l_run := if decide (batch = ∅)
                            then if final then CommitReturned else Selecting
                            else Committing batch final |>)
      else None
  | CommitOk =>
      match l_run l with
      | Committing batch final =>
          Some (l <| l_committer ::= fun c => markCommitted c batch |>
                  <| l_broker ::= applyCommit batch |>
                  <| l_run := if final then CommitReturned else Selecting |>)
      | _ => None
      end
  | CommitFailed applied closedReader =>
      match l_run l with
      | Committing batch final =>
          if closedReader && negb (l_stopping l) then None
          else
            Some (l <| l_committer ::= fun c => restore c batch |>
                    <| l_broker ::= applyCommit (filter (fun '(p, _) => p ∈ applied) batch) |>
                    <| l_run := if final || closedReader then CommitReturned else Sleeping |>)
      | _ => None
      end
  | CommitRetry => match l_run l with Sleeping => Some (l <| l_run := Draining |>) | _ => None end
  | Stop => Some (l <| l_stopping := true |>)
  | Rebalanced p => Some (l <| l_position ::= <[p := brokerOf l p]> |>)
  | OtherFinished p o => Some (l <| l_finished ::= union {[(p, o)]} |>)
  | OtherCommitted p b =>
      if recordsIn p (start p) b (fun o => bool_decide ((p, o) ∈ l_finished l))
      then Some (l <| l_broker ::= <[p := b]> |>) else None
  end.

Fixpoint exec (es : list event) (l : topicLoop) : option topicLoop :=
  match es with [] => Some l | e :: es => l ← step e l; exec es l end.
End topic.

(** ** Reading the tracker *)

Definition entries (ps : partitionTracker) : list inflight :=
  (fun m => pt_heap ps !!! m) <$> pt_queue ps.

Definition offsets (ps : partitionTracker) : list Z := m_offset <$> entries ps.

Definition queued (t : tracker) : Z :=
  map_sum (fun ps => Z.of_nat (length (pt_queue ps))) (tr_partitions t).

(** What the loop of [Done] takes off: a completed run, as long as possible. *)
Lemma popDone_spec heap queue byOffset c n :
  exists j byOffset',
    let run := take j ((fun m => heap !!! m) <$> queue) in
    (j <= length queue)%nat /\
    popDone heap queue byOffset c n =
      (drop j queue, byOffset', default c (last (m_offset <$> run)), n + Z.of_nat j) /\
    (forall o, byOffset' !! o =
       if decide (o ∈ m_offset <$> run) then None else byOffset !! o) /\
    Forall (fun m => m_done m = true) run /\
    (forall m, head (drop j ((fun m => heap !!! m) <$> queue)) = Some m -> m_done m = false).
Proof.
  revert byOffset c n. induction queue as [|m queue IH]; intros byOffset c n; cbn.
  { exists 0%nat, byOffset. cbn. split_and!; [lia|by rewrite Z.add_0_r| |constructor|done].
    intros o. by rewrite decide_False by apply not_elem_of_nil. }
  destruct (m_done (heap !!! m)) eqn:Hm.
  - destruct (IH (delete (m_offset (heap !!! m)) byOffset) (m_offset (heap !!! m)) (n + 1))
      as (j & b & Hj & E & Hb & Hf & Hh). cbn in *.
    exists (S j), b. rewrite E. cbn. split_and!; [lia| |..|by constructor|done].
    + replace (n + 1 + Z.of_nat j) with (n + Z.of_nat (S j)) by lia.
      rewrite last_cons. by destruct (last _).
    + intros o. rewrite Hb. destruct (decide (o = m_offset (heap !!! m))) as [->|Ho].
      * rewrite lookup_delete_eq, (decide_True (P := _ ∈ _ :: _)) by (by left). by case_decide.
      * rewrite lookup_delete_ne by done. destruct (decide (o ∈ m_offset <$> take j _)) as [Hin|Hin];
          [by rewrite decide_True by (by right)|].
        rewrite decide_False; [done|]. by intros [?|?]%elem_of_cons.
  - exists 0%nat, byOffset. cbn. split_and!; [lia|by rewrite Z.add_0_r| |constructor|].
    + intros o. by rewrite decide_False by apply not_elem_of_nil.
    + by intros ? [= <-].
Qed.

(** ** What the tracker knows *)

Section tracking.
Context (record : Z -> Z -> bool) (start : Z -> Z).
Implicit Types (fin : gset (Z * Z)) (t : tracker) (ps : partitionTracker).

(** Every message of the partition before an offset is finished. *)
Definition covered fin (p x : Z) : Prop :=
  forall r, record p r = true -> start p <= r < x -> (p, r) ∈ fin.

(** Every message before an offset is finished or registered. *)
Definition seen fin (p : Z) ps (x : Z) : Prop :=
  forall r, record p r = true -> start p <= r < x -> (p, r) ∈ fin \/ r ∈ offsets ps.

(** The queue, the index and the messages they share agree. *)
Record queue_ok fin (p : Z) ps : Prop := {
  po_valid : Forall (fun m => (m < length (pt_heap ps))%nat) (pt_queue ps);
  po_sorted : StronglySorted Z.lt (offsets ps);
  po_top : Forall (fun o => o <= pt_highest ps) (offsets ps);
  po_done : Forall (fun m => m_done m = true -> (p, m_offset m) ∈ fin) (entries ps);
  po_index : forall o m, pt_byOffset ps !! o = Some m <->
               m ∈ pt_queue ps /\ m_offset (pt_heap ps !!! m) = o
}.

(** The front of the queue is still under way. *)
Definition head_open ps : Prop := forall m, head (entries ps) = Some m -> m_done m = false.

Record part_ok fin (p : Z) ps : Prop := {
  pk_queue : queue_ok fin p ps;
  pk_head : head_open ps;
  pk_seen : seen fin p ps (pt_highest ps + 1)
}.

Record tracker_ok fin t : Prop := {
  to_parts : map_Forall (part_ok fin) (tr_partitions t);
  to_pending : tr_pending t = queued t
}.

(** A position of the reader: nothing before it is lost, and it lies above the
    registered messages unless all before it are finished. *)
Definition position_ok fin t (p x : Z) : Prop :=
  covered fin p x \/
  exists ps, tr_partitions t !! p = Some ps /\ pt_highest ps < x /\ seen fin p ps x.

Lemma covered_mono fin fin' p x : fin ⊆ fin' -> covered fin p x -> covered fin' p x.
Proof. intros Hf H r Hr Hx. apply Hf. auto. Qed.

Lemma covered_below fin p x y : y <= x -> covered fin p x -> covered fin p y.
Proof. intros Hf H r Hr Hx. apply H; [done|lia]. Qed.

Lemma covered_gap fin p x y :
  covered fin p x -> (forall r, x <= r < y -> record p r = false) -> covered fin p y.
Proof.
  intros H Hg r Hr Hx. destruct (decide (r < x)); [apply H; [done|lia]|].
  rewrite Hg in Hr by lia. done.
Qed.

Lemma seen_gap fin p ps x y :
  seen fin p ps x -> (forall r, x <= r < y -> record p r = false) -> seen fin p ps y.
Proof.
  intros H Hg r Hr Hx. destruct (decide (r < x)); [apply H; [done|lia]|].
  rewrite Hg in Hr by lia. done.
Qed.

Lemma seen_mono fin fin' p ps x : fin ⊆ fin' -> seen fin p ps x -> seen fin' p ps x.
Proof. intros Hf H r Hr Hx. destruct (H r Hr Hx); auto. Qed.

Lemma part_ok_mono fin fin' p ps : fin ⊆ fin' -> part_ok fin p ps -> part_ok fin' p ps.
Proof.
  intros Hf [[] ? Hs]. split; [|done|by eapply seen_mono]. split; try done.
  eapply Forall_impl; [done|]. cbn. intros m Hm Hd. auto.
Qed.

Lemma tracker_ok_mono fin fin' t : fin ⊆ fin' -> tracker_ok fin t -> tracker_ok fin' t.
Proof.
  intros Hf []. split; [|done]. intros p ps Hp. eapply part_ok_mono; [done|]. by apply to_parts0.
Qed.

Lemma position_ok_mono fin fin' t p x : fin ⊆ fin' -> position_ok fin t p x -> position_ok fin' t p x.
Proof.
  intros Hf [H|(ps & Hp & Hx & H)]; [left; by eapply covered_mono|right].
  exists ps. split_and!; [done..|]. by eapply seen_mono.
Qed.

Lemma queue_offset ps m : m ∈ pt_queue ps -> m_offset (pt_heap ps !!! m) ∈ offsets ps.
Proof.
  intros Hm. unfold offsets, entries. rewrite <- list_fmap_compose.
  exact (list_elem_of_fmap_2 (m_offset ∘ (fun m => pt_heap ps !!! m)) _ _ Hm).
Qed.

(** ** Registering a message *)

Definition registered ps (o : Z) : partitionTracker :=
  ps <| pt_heap ::= fun h => h ++ [mkInflight o false] |>
     <| pt_queue ::= fun q => q ++ [length (pt_heap ps)] |>
     <| pt_byOffset ::= <[o := length (pt_heap ps)]> |>
     <| pt_highest := o |>.

Lemma registered_entries ps o :
  Forall (fun m => (m < length (pt_heap ps))%nat) (pt_queue ps) ->
  entries (registered ps o) = entries ps ++ [mkInflight o false].
Proof.
  intros Hv. unfold entries, registered. cbn. rewrite fmap_app. f_equal.
  - apply list_fmap_ext. intros i m Hm. rewrite Forall_lookup in Hv. apply Hv in Hm.
    by rewrite lookup_total_app_l.
  - cbn. by rewrite lookup_total_app_r, Nat.sub_diag by done.
Qed.

Lemma registered_ok fin p ps o :
  queue_ok fin p ps -> head_open ps -> seen fin p ps o -> Forall (fun x => x < o) (offsets ps) ->
  part_ok fin p (registered ps o).
Proof.
  intros [Hv Hs Ht Hd Hi] Hh Hseen Hlt.
  pose proof (registered_entries ps o Hv) as E.
  assert (Eo : offsets (registered ps o) = offsets ps ++ [o])
    by (unfold offsets; rewrite E, fmap_app; done).
  split; [split|unfold head_open|]; rewrite ?E, ?Eo; cbn.
  - apply Forall_app. rewrite length_app. cbn. split; [|constructor; [lia|done]].
    eapply Forall_impl; [done|]. cbn. lia.
  - apply StronglySorted_app_2; [|done|by repeat constructor].
    intros x y Hx ->%list_elem_of_singleton. rewrite Forall_forall in Hlt. by apply Hlt.
  - apply Forall_app. split; [|constructor; [lia|done]]. eapply Forall_impl; [done|]. cbn. lia.
  - apply Forall_app. split; [done|]. by repeat constructor.
  - intros o' m. rewrite Forall_forall in Hv. rewrite Forall_forall in Hlt. destruct (decide (o' = o)) as [->|Ho].
    + rewrite lookup_insert_eq. split.
      * intros [= <-]. rewrite elem_of_app, list_elem_of_singleton. split; [by right|].
        by rewrite lookup_total_app_r, Nat.sub_diag.
      * intros [[Hm| ->%list_elem_of_singleton]%elem_of_app Hmo]; [|done]. exfalso.
        rewrite lookup_total_app_l in Hmo by auto.
        pose proof (Hlt _ (queue_offset ps m Hm)). lia.
    + rewrite lookup_insert_ne, Hi by done. rewrite elem_of_app, list_elem_of_singleton. split.
      * intros [Hm <-]. split; [by left|]. by rewrite lookup_total_app_l by auto.
      * intros [[Hm| ->] Hmo]; [by rewrite lookup_total_app_l in Hmo by auto|].
        rewrite lookup_total_app_r, Nat.sub_diag in Hmo by done. by cbn in Hmo.
  - unfold head_open in Hh. intros m. destruct (entries ps) as [|x l]; cbn; [by intros [= <-]|apply Hh].
  - intros r Hrec Hb. rewrite Eo, elem_of_app, list_elem_of_singleton.
    destruct (decide (r = o)); [auto|]. destruct (Hseen r Hrec); [lia|auto..].
Qed.

Lemma empty_ok fin p ps : pt_queue ps = [] -> pt_byOffset ps = ∅ -> queue_ok fin p ps.
Proof.
  intros Hq Hb. split; unfold offsets, entries; rewrite ?Hq, ?Hb; cbn; try done; try constructor.
  - done.
  - by intros [?%elem_of_nil _].
Qed.

(** The partition a message is registered in. *)
Definition opened t (p o : Z) : tracker * partitionTracker :=
  match tr_partitions t !! p with
  | None => (t, mkPartition 0 0 [] ∅ [])
  | Some ps => if o <=? pt_highest ps then dropEpoch t ps else (t, ps)
  end.

Lemma Begin_opened t p o :
  Begin t p o =
    (let '(t', ps) := opened t p o in
     (t' <| tr_partitions ::= <[p := registered ps o]> |> <| tr_pending ::= Z.succ |>,
      mkToken p o (pt_epoch ps))).
Proof.
  unfold Begin, opened, registered. destruct (tr_partitions t !! p) as [ps|]; [|done].
  destruct (o <=? pt_highest ps); done.
Qed.

(** [opened] leaves every other partition alone and drops what it abandons from
    the count. *)
Lemma opened_frame t p o t' ps :
  opened t p o = (t', ps) ->
  tr_partitions t' = tr_partitions t /\
  tr_pending t' = tr_pending t + Z.of_nat (length (pt_queue ps)) -
    from_option (fun ps => Z.of_nat (length (pt_queue ps))) 0 (tr_partitions t !! p).
Proof.
  unfold opened. destruct (tr_partitions t !! p) as [ps0|] eqn:Hp.
  - destruct (o <=? pt_highest ps0); intros [= <- <-]; cbn; split; done || lia.
  - intros [= <- <-]. cbn. split; done || lia.
Qed.

Lemma opened_ok fin t p x o t' ps :
  opened t p o = (t', ps) -> tracker_ok fin t -> position_ok fin t p x -> x <= o ->
  (forall r, x <= r < o -> record p r = false) ->
  queue_ok fin p ps /\ head_open ps /\ seen fin p ps o /\ Forall (fun y => y < o) (offsets ps).
Proof.
  intros E [Hparts _] Hpos Hxo Hgap. unfold opened in E.
  assert (Hc : covered fin p x -> forall ps, seen fin p ps o).
  { intros Hc ? r Hr Hb. left. by apply (covered_gap fin p x o Hc Hgap). }
  destruct (tr_partitions t !! p) as [ps0|] eqn:Hp.
  - destruct (Z.leb_spec o (pt_highest ps0)) as [Hle|Hlt]; injection E as <- <-.
    + destruct Hpos as [Hx|(ps1 & E1 & Hh & _)]; [|simplify_eq; lia].
      split_and!; [by apply empty_ok|done|auto|constructor].
    + destruct (Hparts p ps0 Hp) as [Hok Hh0 _]. split_and!; [done|done| |].
      * destruct Hpos as [Hx|(ps1 & E1 & Hh & Hs)]; [auto|simplify_eq; by eapply seen_gap].
      * eapply Forall_impl; [apply Hok|]. cbn. lia.
  - injection E as <- <-. destruct Hpos as [Hx|(ps1 & E1 & _)]; [|congruence].
    split_and!; [by apply empty_ok|done|auto|constructor].
Qed.

Lemma Begin_ok fin t p x o t' tk :
  Begin t p o = (t', tk) -> tracker_ok fin t -> position_ok fin t p x -> x <= o ->
  (forall r, x <= r < o -> record p r = false) ->
  tracker_ok fin t' /\ position_ok fin t' p (o + 1) /\
  (forall q y, q <> p -> position_ok fin t q y -> position_ok fin t' q y).
Proof.
  intros E Hok Hpos Hxo Hgap. rewrite Begin_opened in E.
  destruct (opened t p o) as [t1 ps] eqn:Eo. simplify_eq.
  destruct (opened_ok _ _ _ _ _ _ _ Eo Hok Hpos Hxo Hgap) as (Hq & Hh & Hs & Hl).
  destruct (opened_frame _ _ _ _ _ Eo) as [Hparts Hpend].
  pose proof (registered_ok _ _ _ _ Hq Hh Hs Hl) as Hreg. cbn. split_and!.
  - split; cbn.
    + apply map_Forall_insert_2; [done|]. rewrite Hparts. apply Hok.
    + unfold queued. cbn. rewrite map_sum_insert, Hparts, Hpend. cbn.
      rewrite (to_pending _ _ Hok), length_app. unfold queued. cbn. lia.
  - right. exists (registered ps o). cbn. rewrite lookup_insert_eq. split_and!; [done|lia|apply Hreg].
  - intros q y Hne [Hc|(ps' & E' & Hy)]; [by left|right]. exists ps'. cbn.
    by rewrite lookup_insert_ne, Hparts.
Qed.

(** ** Finishing a message *)

Definition marked ps (m : nat) : partitionTracker :=
  ps <| pt_heap ::= alter (fun m => m <| m_done := true |>) m |>.

Lemma marked_at ps m x :
  (m < length (pt_heap ps))%nat ->
  pt_heap (marked ps m) !!! x =
    (if decide (x = m) then (pt_heap ps !!! m) <| m_done := true |> else pt_heap ps !!! x).
Proof.
  intros Hm. unfold marked. cbn. case_decide as E; [subst|].
  - by rewrite list_lookup_total_alter_eq.
  - by rewrite list_lookup_total_alter_ne.
Qed.

Lemma marked_offset ps m x :
  (m < length (pt_heap ps))%nat ->
  m_offset (pt_heap (marked ps m) !!! x) = m_offset (pt_heap ps !!! x).
Proof. intros Hm. rewrite marked_at by done. by case_decide; subst. Qed.

Lemma marked_offsets ps m : (m < length (pt_heap ps))%nat -> offsets (marked ps m) = offsets ps.
Proof.
  intros Hm. unfold offsets, entries. rewrite <- !list_fmap_compose. apply list_fmap_ext.
  intros i x _. by apply marked_offset.
Qed.

Lemma marked_ok fin p ps m o :
  queue_ok fin p ps -> pt_byOffset ps !! o = Some m -> (p, o) ∈ fin -> queue_ok fin p (marked ps m).
Proof.
  intros [Hv Hs Ht Hd Hi] Hm Hfin. apply Hi in Hm as [Hm Ho].
  assert (Hlt : (m < length (pt_heap ps))%nat) by (rewrite Forall_forall in Hv; auto).
  split; rewrite ?marked_offsets by done; [|done..| |].
  - unfold marked. cbn. by rewrite length_alter.
  - apply Forall_forall. intros x (y & -> & Hy)%list_elem_of_fmap. rewrite marked_at by done.
    case_decide as E; [subst; done|]. rewrite Forall_forall in Hd. apply Hd.
    exact (list_elem_of_fmap_2 (fun m => pt_heap ps !!! m) _ _ Hy).
  - intros o' x. rewrite marked_offset by done. apply Hi.
Qed.

(** The queue without its completed run. *)
Definition popped ps (j : nat) (byOffset : gmap Z nat) : partitionTracker :=
  ps <| pt_queue ::= drop j |> <| pt_byOffset := byOffset |>.

Lemma popped_offsets ps j b : offsets (popped ps j b) = drop j (offsets ps).
Proof. unfold offsets, entries, popped. cbn. by rewrite !fmap_drop. Qed.

Lemma popped_ok fin p ps j b :
  queue_ok fin p ps ->
  (forall o, b !! o = if decide (o ∈ take j (offsets ps)) then None else pt_byOffset ps !! o) ->
  queue_ok fin p (popped ps j b).
Proof.
  intros [Hv Hs Ht Hd Hi] Hb.
  split; rewrite ?popped_offsets; [by apply Forall_drop| |by apply Forall_drop| |].
  - rewrite <- (take_drop j (offsets ps)) in Hs. by apply StronglySorted_app_1_r in Hs.
  - unfold entries, popped. cbn. rewrite fmap_drop. by apply Forall_drop.
  - intros o m. cbn. rewrite Hb.
    assert (Hsplit : m ∈ pt_queue ps -> m_offset (pt_heap ps !!! m) = o ->
                     o ∉ take j (offsets ps) <-> m ∈ drop j (pt_queue ps)).
    { intros Hm Ho. rewrite <- (take_drop j (offsets ps)) in Hs. split.
      - intros Hn. rewrite <- (take_drop j (pt_queue ps)) in Hm.
        apply elem_of_app in Hm as [Hm|Hm]; [|done]. destruct Hn. subst o.
        unfold offsets, entries. rewrite <- list_fmap_compose, <- fmap_take.
        exact (list_elem_of_fmap_2 (m_offset ∘ (fun m => pt_heap ps !!! m)) _ _ Hm).
      - intros Hdr Hin. assert (o ∈ drop j (offsets ps)) as Hin2.
        { subst o. unfold offsets, entries. rewrite <- list_fmap_compose, <- fmap_drop.
          exact (list_elem_of_fmap_2 (m_offset ∘ (fun m => pt_heap ps !!! m)) _ _ Hdr). }
        pose proof (StronglySorted_app_1_elem_of _ _ _ _ _ Hs Hin Hin2). lia. }
    case_decide as Hin.
    + split; [done|]. intros [Hm Ho]. exfalso.
      assert (Hq : m ∈ pt_queue ps) by (rewrite <- (take_drop j (pt_queue ps)), elem_of_app; by right).
      by apply (Hsplit Hq Ho) in Hm.
    + rewrite Hi. split; intros [Hm Ho]; (split; [|done]); [by apply (Hsplit Hm Ho)|].
      rewrite <- (take_drop j (pt_queue ps)), elem_of_app. by right.
Qed.

(** What [Done] does to the partition of a message it accepts. *)
Record popping t tk t' (w : option Z) ps (m j : nat) (b : gmap Z nat) : Prop := {
  pg_part : tr_partitions t !! tk_partition tk = Some ps;
  pg_epoch : pt_epoch ps = tk_epoch tk;
  pg_index : pt_byOffset ps !! tk_offset tk = Some m;
  pg_len : (j <= length (pt_queue ps))%nat;
  pg_parts : tr_partitions t' = <[tk_partition tk := popped (marked ps m) j b]> (tr_partitions t);
  pg_pending : tr_pending t' = tr_pending t - Z.of_nat j;
  pg_changed : tr_changed t' = None \/ j = 0%nat /\ tr_changed t' = tr_changed t;
  pg_made : tr_made t' = tr_made t;
  pg_mark : w = last (take j (offsets (marked ps m)));
  pg_deleted : forall o, b !! o = if decide (o ∈ take j (offsets (marked ps m))) then None
                                  else pt_byOffset ps !! o;
  pg_run : Forall (fun m => m_done m = true) (take j (entries (marked ps m)));
  pg_head : head_open (popped (marked ps m) j b)
}.

Lemma Done_cases t tk t' w :
  Done t tk = (t', w) ->
  (t' = t /\ w = None /\
   forall ps m, tr_partitions t !! tk_partition tk = Some ps -> pt_epoch ps = tk_epoch tk ->
     pt_byOffset ps !! tk_offset tk = Some m -> m_done (pt_heap ps !!! m) = true) \/
  exists ps m j b, popping t tk t' w ps m j b.
Proof.
  unfold Done. destruct (tr_partitions t !! tk_partition tk) as [ps|] eqn:Hp;
    [|by intros [= <- <-]; left].
  destruct (Z.eqb_spec (pt_epoch ps) (tk_epoch tk)) as [He|]; cbn [negb];
    [|by intros [= <- <-]; left; split_and!; [..|by intros ? ? [= <-]]].
  destruct (pt_byOffset ps !! tk_offset tk) as [m|] eqn:Hm;
    [|by intros [= <- <-]; left; split_and!; [..|intros ? ? [= <-]; congruence]].
  destruct (m_done (pt_heap ps !!! m)) eqn:Hd;
    [by intros [= <- <-]; left; split_and!; [..|intros ? ? [= <-]; congruence]|].
  intros E. right.
  destruct (popDone_spec (pt_heap (marked ps m)) (pt_queue ps) (pt_byOffset ps) 0 0)
    as (j & b & Hj & Epop & Hb & Hrun & Hhead). exists ps, m, j, b.
  change (alter _ m (pt_heap ps)) with (pt_heap (marked ps m)) in E.
  change ((fun m0 => pt_heap (marked ps m) !!! m0) <$> pt_queue ps)
    with (entries (marked ps m)) in *.
  rewrite fmap_take in Epop, Hb. change (m_offset <$> entries (marked ps m))
    with (offsets (marked ps m)) in *.
  rewrite Epop, Z.add_0_l in E. cbv beta iota zeta in E.
  assert (Ho : head_open (popped (marked ps m) j b)).
  { intros x Hx. apply Hhead. rewrite <- Hx. unfold entries, popped. cbn. by rewrite fmap_drop. }
  destruct (Z.eqb_spec (Z.of_nat j) 0) as [Ej|Ej]; injection E as <- <-.
  - assert (j = 0%nat) as -> by lia. split; cbn -[marked]; auto; lia.
  - destruct j as [|j]; [done|]. split; cbn -[marked]; auto.
    destruct (last (take (S j) (offsets (marked ps m)))) eqn:El; [done|].
    apply last_None in El. apply (f_equal length) in El. rewrite length_take in El.
    unfold offsets, entries in El. rewrite !length_fmap in El.
    change (pt_queue (marked ps m)) with (pt_queue ps) in El. cbn [length] in El. lia.
Qed.

Lemma popping_ok fin t tk t' w ps m j b (p := tk_partition tk) :
  popping t tk t' w ps m j b -> tracker_ok fin t -> (p, tk_offset tk) ∈ fin ->
  (forall r, r ∈ offsets ps -> r ∈ offsets (popped (marked ps m) j b) \/ (p, r) ∈ fin) /\
  part_ok fin p (popped (marked ps m) j b) /\
  (forall x, w = Some x -> covered fin p (x + 1)).
Proof.
  intros [Hp _ Hm Hj _ _ _ _ -> Hb Hrun Hh] [Hparts _] Hfin.
  destruct (Hparts _ _ Hp) as [Hok Hh0 Hs]. subst p.
  assert (Hlt : (m < length (pt_heap ps))%nat).
  { apply (po_index _ _ _ Hok) in Hm as [Hm _]. pose proof (po_valid _ _ _ Hok) as Hv.
    rewrite Forall_forall in Hv. auto. }
  pose proof (marked_ok _ _ _ _ _ Hok Hm Hfin) as Hmk.
  pose proof (marked_offsets ps m Hlt) as Eo. rewrite Eo in *.
  assert (Htake : forall r, r ∈ take j (offsets ps) -> (tk_partition tk, r) ∈ fin).
  { intros r. rewrite <- Eo. unfold offsets. rewrite <- fmap_take.
    intros (x & -> & Hx)%list_elem_of_fmap. rewrite Forall_forall in Hrun. pose proof (po_done _ _ _ Hmk) as Hd.
    rewrite Forall_forall in Hd. apply Hd; [|by apply Hrun].
    rewrite <- (take_drop j (entries _)), elem_of_app. by left. }
  assert (Hkeep : forall r, r ∈ offsets ps -> r ∈ offsets (popped (marked ps m) j b) \/
                    (tk_partition tk, r) ∈ fin).
  { intros r. rewrite popped_offsets, Eo. rewrite <- (take_drop j (offsets ps)) at 1.
    rewrite elem_of_app. intros [?|?]; auto. }
  split_and!; [done| |].
  - split; [|done|].
    + apply popped_ok; [done|]. by rewrite Eo.
    + intros r Hr Hx. destruct (Hs r Hr Hx) as [|Hin]; [by left|]. destruct (Hkeep r Hin); auto.
  - intros x Hx r Hr Hrx. apply last_Some in Hx as [l Hl].
    assert (Hxin : x ∈ offsets ps).
    { rewrite <- (take_drop j (offsets ps)), Hl, !elem_of_app, list_elem_of_singleton. auto. }
    pose proof (po_top _ _ _ Hok) as Htop. rewrite Forall_forall in Htop. specialize (Htop x Hxin).
    destruct (Hs r Hr) as [|Hin]; [lia|done|].
    rewrite <- (take_drop j (offsets ps)) in Hin. apply elem_of_app in Hin as [Hin|Hin]; [auto|].
    pose proof (po_sorted _ _ _ Hok) as Hsort. rewrite <- (take_drop j (offsets ps)) in Hsort.
    pose proof (StronglySorted_app_1_elem_of _ _ _ x r Hsort) as Hxr.
    rewrite Hl, elem_of_app, list_elem_of_singleton in Hxr. specialize (Hxr (or_intror eq_refl) Hin). lia.
Qed.

Lemma Done_ok fin t tk t' w :
  Done t tk = (t', w) -> tracker_ok fin t -> (tk_partition tk, tk_offset tk) ∈ fin ->
  tracker_ok fin t' /\
  (forall x, w = Some x -> covered fin (tk_partition tk) (x + 1)) /\
  (forall q y, position_ok fin t q y -> position_ok fin t' q y).
Proof.
  intros E Hok Hfin. destruct (Done_cases _ _ _ _ E) as [(-> & -> & _)|(ps & m & j & b & Hpop)]; [done|].
  destruct (popping_ok _ _ _ _ _ _ _ _ _ Hpop Hok Hfin) as (Hkeep & Hpart & Hw).
  destruct Hpop as [Hp _ _ Hj Hparts Hpend _ _ _ _ _ _]. split_and!; [|done|].
  - split.
    + rewrite Hparts. apply map_Forall_insert_2; [done|apply Hok].
    + unfold queued. rewrite Hpend, Hparts, map_sum_insert, Hp, (to_pending _ _ Hok). unfold queued.
      cbn -[marked]. rewrite length_drop. cbn. lia.
  - intros q y [Hc|(ps' & E' & Hy & Hs)]; [by left|]. right. rewrite Hparts.
    destruct (decide (q = tk_partition tk)) as [->|Hq]; [|exists ps'; by rewrite lookup_insert_ne].
    rewrite lookup_insert_eq. eexists. split_and!; [done|by simplify_eq|]. simplify_eq.
    intros r Hr Hx. destruct (Hs r Hr Hx) as [|Hin]; [by left|]. destruct (Hkeep r Hin); auto.
Qed.
End tracking.

(** ** What the group may forget *)

Section safety.
Context (limit : Z) (record : Z -> Z -> bool) (start : Z -> Z).
Implicit Types (l : topicLoop).

Abbreviation covers l := (fun p o => covered record start (l_finished l) p (o + 1)).

Record safe l : Prop := {
  sf_tracker : tracker_ok record start (l_finished l) (l_tracker l);
  sf_position : forall p, position_ok record start (l_finished l) (l_tracker l) p (positionOf start l p);
  sf_broker : forall p, covered record start (l_finished l) p (brokerOf start l p);
  sf_workers : forall p o, Advancing p o ∈ l_workers l -> covers l p o;
  sf_pending : map_Forall (covers l) (cm_pending (l_committer l));
  sf_batch : forall batch final, l_run l = Committing batch final -> map_Forall (covers l) batch
}.

Lemma safe_finish l fin :
  l_finished l ⊆ fin -> safe l -> safe (l <| l_finished := fin |>).
Proof.
  intros Hf []. split; cbn; intros; try (by eapply covered_mono; eauto).
  - by eapply tracker_ok_mono.
  - eapply position_ok_mono; [done|]. apply sf_position0.
  - intros p o Hp. eapply covered_mono; [done|]. by apply sf_pending0.
  - intros p o Hp. eapply covered_mono; [done|]. by eapply sf_batch0.
Qed.

Lemma insert_elem {A} (x y : A) (i : nat) (k : list A) : x ∈ <[i := y]> k -> x = y \/ x ∈ k.
Proof.
  intros (j & Hj)%list_elem_of_lookup. apply list_lookup_insert_Some in Hj as [(_ & -> & _)|(_ & Hj)];
    [by left|right]. by eapply list_elem_of_lookup_2.
Qed.

(** Moving a worker to a place that owes nothing more keeps the invariant. *)
Lemma safe_worker l i wk :
  (forall p o, wk = Advancing p o -> covers l p o) -> safe l ->
  safe (l <| l_workers ::= <[i := wk]> |>).
Proof.
  intros Hwk []. split; cbn; try done.
  intros p o [<-|Hin]%insert_elem; eauto.
Qed.

Lemma raise_Forall (P : Z -> Z -> Prop) a b :
  map_Forall P a -> map_Forall P b -> map_Forall P (raise a b).
Proof.
  intros Ha Hb p o. unfold raise. rewrite lookup_union_with_Some. intros [[H _]|[[_ H]|(x & y & Hx & Hy & [= <-])]].
  - by apply Ha. - by apply Hb.
  - destruct (Z.max_spec x y) as [[_ ->]|[_ ->]]; [by apply Hb|by apply Ha].
Qed.

Lemma recordsIn_spec p from to test :
  recordsIn record p from to test = true <->
  forall r, from <= r < to -> record p r = true -> test r = true.
Proof.
  unfold recordsIn. rewrite forallb_forall. split; intros H r.
  - intros Hr Hrec. specialize (H r). rewrite <- list_elem_of_In, elem_of_seqZ in H.
    rewrite Hrec in H. apply H. lia.
  - rewrite <- list_elem_of_In, elem_of_seqZ. intros Hr. specialize (H r).
    destruct (record p r); [|done]. apply H; [lia|done].
Qed.

Lemma commit_covers l batch p :
  map_Forall (covers l) batch -> (forall p, covered record start (l_finished l) p (brokerOf start l p)) ->
  covered record start (l_finished l) p (default (start p) (applyCommit batch (l_broker l) !! p)).
Proof.
  intros Hb Hbr. unfold applyCommit. rewrite lookup_union, lookup_fmap.
  destruct (batch !! p) as [o|] eqn:Hp; cbn.
  - rewrite union_Some_l. apply (Hb p o Hp).
  - rewrite (left_id_L None (∪)). apply Hbr.
Qed.

Lemma WaitBelow_frame t t' w :
  WaitBelow limit t = (t', w) -> tr_partitions t' = tr_partitions t /\ tr_pending t' = tr_pending t.
Proof.
  unfold WaitBelow. destruct (_ || _); [by intros [= <- <-]|].
  destruct (tr_changed t); by intros [= <- <-].
Qed.

(** The invariant reads the tracker through its partitions and its count. *)
Lemma safe_gate l t' w f :
  WaitBelow limit (l_tracker l) = (t', w) -> safe l ->
  safe (l <| l_tracker := t' |> <| l_fetcher := f |>).
Proof.
  intros [Hp Hn]%WaitBelow_frame []. split; cbn; try done.
  - destruct sf_tracker0. split; unfold queued; by rewrite ?Hp, ?Hn.
  - intros p. specialize (sf_position0 p) as [Hc|H]; [by left|right]. by rewrite Hp.
Qed.

Lemma safe_fetch l p o t tk :
  Begin (l_tracker l) p o = (t, tk) -> positionOf start l p <= o ->
  recordsIn record p (positionOf start l p) o (fun _ => false) = true -> safe l ->
  safe (l <| l_tracker := t |> <| l_fetcher := Offering tk |> <| l_position ::= <[p := o + 1]> |>).
Proof.
  intros E Hle Hgap []. rewrite recordsIn_spec in Hgap.
  destruct (Begin_ok record start _ _ _ _ _ _ _ E sf_tracker0 (sf_position0 p) Hle) as (Hok & Hpos & Hother).
  { intros r Hr. destruct (record p r) eqn:Hrec; [|done]. discriminate (Hgap r Hr Hrec). }
  split; cbn; try done. intros q. unfold positionOf. cbn.
  destruct (decide (q = p)) as [->|Hq]; [by rewrite lookup_insert_eq|].
  rewrite lookup_insert_ne by done. apply Hother; [done|]. apply sf_position0.
Qed.

Lemma safe_processed l i w t wk :
  complete (l_tracker l) w = (t, wk) -> safe l ->
  safe (l <| l_tracker := t |> <| l_workers ::= <[i := wk]> |>
          <| l_finished ::= union {[(tk_partition w, tk_offset w)]} |>).
Proof.
  intros E Hs. apply (safe_finish l ({[(tk_partition w, tk_offset w)]} ∪ l_finished l)) in Hs;
    [|apply union_subseteq_r].
  unfold complete in E. destruct (Done (l_tracker l) w) as [t1 m] eqn:Ed.
  destruct (Done_ok record start _ _ _ _ _ Ed (sf_tracker _ Hs)) as (Hok & Hm & Hpos);
    [cbn; rewrite elem_of_union, elem_of_singleton; by left|].
  destruct Hs. cbn in *. destruct m as [x|]; injection E as <- <-; split; cbn; try done; auto;
    intros p o [E|Hin]%insert_elem; auto; [|done]. injection E as -> ->. auto.
Qed.

Lemma safe_advanced l i p o c poke :
  l_workers l !! i = Some (Advancing p o) -> Advance (l_committer l) p o = (c, poke) -> safe l ->
  safe (l <| l_committer := c |> <| l_workers ::= <[i := if poke then Poking else Idle]> |>).
Proof.
  intros Hi E Hs. assert (Hc : covers l p o)
    by (apply (sf_workers _ Hs); by eapply list_elem_of_lookup_2).
  apply (safe_worker (l <| l_committer := c |>)); [by destruct poke|].
  unfold Advance in E. destruct (_ || _); injection E as <- <-; destruct Hs; split; cbn; try done.
  by apply map_Forall_insert_2.
Qed.

Lemma safe_taken l final :
  safe l ->
  safe (l <| l_committer := (takeBatch (l_committer l)).1 |>
          <| l_run := Committing (cm_pending (l_committer l)) final |>).
Proof.
  intros []. split; cbn; try done. by intros batch f [= <- _].
Qed.

(** Whatever part of the batch the broker applies. *)
Lemma safe_settled l batch final sub c run :
  l_run l = Committing batch final -> sub ⊆ batch ->
  (forall b f, run <> Committing b f) -> map_Forall (covers l) (cm_pending c) -> safe l ->
  safe (l <| l_committer := c |> <| l_broker ::= applyCommit sub |> <| l_run := run |>).
Proof.
  intros Hrun Hsub Hr Hc []. split; cbn; try done; [|by intros b f ?%Hr].
  intros p. unfold brokerOf. cbn. apply commit_covers; [|done].
  intros q o Hq. eapply sf_batch0; [done|]. by eapply lookup_weaken.
Qed.

Lemma safe_rebalanced l p : safe l -> safe (l <| l_position ::= <[p := brokerOf start l p]> |>).
Proof.
  intros []. split; cbn; try done. intros q. unfold positionOf. cbn.
  destruct (decide (q = p)) as [->|Hq].
  - rewrite lookup_insert_eq. left. apply sf_broker0.
  - rewrite lookup_insert_ne by done. apply sf_position0.
Qed.

Lemma safe_other l p b :
  recordsIn record p (start p) b (fun o => bool_decide ((p, o) ∈ l_finished l)) = true ->
  safe l -> safe (l <| l_broker ::= <[p := b]> |>).
Proof.
  rewrite recordsIn_spec. intros Hb []. split; cbn; try done. intros q. unfold brokerOf. cbn.
  destruct (decide (q = p)) as [->|Hq].
  - rewrite lookup_insert_eq. intros r Hr Hx. by eapply bool_decide_eq_true, Hb.
  - rewrite lookup_insert_ne by done. apply sf_broker0.
Qed.

Lemma step_safe e l l' : step limit record start e l = Some l' -> safe l -> safe l'.
Proof.
  intros E Hs. destruct e; cbn in E; repeat case_match; simplify_eq;
    try (by eapply safe_gate); try (by apply safe_worker); try (by destruct Hs; split);
    try (by eapply safe_processed); try (by apply safe_rebalanced); try (by apply safe_other);
    try (by apply safe_taken); try (by apply safe_finish; [apply union_subseteq_r|]).
  - rewrite !andb_true_iff, Z.leb_le in *. destruct_and!. by eapply safe_fetch.
  - apply (safe_worker (l <| l_fetcher := Gate |>)); [done|]. by destruct Hs; split.
  - by eapply (safe_advanced l _ _ _ _ true).
  - by eapply (safe_advanced l _ _ _ _ false).
  - apply (safe_worker (l <| l_committer ::= fun c => c <| cm_wake := true |> |>)); [done|].
    by destruct Hs; split.
  - eapply (safe_settled l _ _ batch (markCommitted (l_committer l) batch)); try done; apply Hs.
  - eapply (safe_settled l _ _ batch (markCommitted (l_committer l) batch)); try done; apply Hs.
  - eapply (safe_settled l _ _ _ (restore (l_committer l) batch)); try done;
      [apply map_filter_subseteq|]. apply raise_Forall; [by eapply Hs|apply Hs].
  - eapply (safe_settled l _ _ _ (restore (l_committer l) batch)); try done;
      [apply map_filter_subseteq|]. apply raise_Forall; [by eapply Hs|apply Hs].
Qed.

Lemma exec_invariant (P : topicLoop -> Prop) es l l' :
  (forall e l l', step limit record start e l = Some l' -> P l -> P l') ->
  exec limit record start es l = Some l' -> P l -> P l'.
Proof.
  intros Hstep. revert l. induction es as [|e es IH]; intros l E HP; [by injection E as <-|].
  cbn in E. destruct (step limit record start e l) as [l1|] eqn:E1; [|done]. cbn in E. eauto.
Qed.

Lemma start_safe n : safe (startLoop n).
Proof.
  split; try done.
  - intros p. left. unfold positionOf. cbn. rewrite lookup_empty. intros r ? ?. cbn in *. lia.
  - intros p. unfold brokerOf. cbn. rewrite lookup_empty. intros r ? ?. cbn in *. lia.
  - intros p o Hin. cbn in Hin. by apply elem_of_replicate in Hin as [? _].
Qed.
End safety.

(** ** Nothing is left behind *)

Section drained.
Context (limit : Z) (record : Z -> Z -> bool) (start : Z -> Z).
Implicit Types (l : topicLoop).

(** A message somebody still works on. *)
Definition underway l (w : token) : Prop := l_fetcher l = Offering w \/ Processing w ∈ l_workers l.

(** A commit position some goroutine, map or batch still carries. *)
Definition accounted l (p h : Z) : Prop :=
  exists o, h <= o /\
    (Advancing p o ∈ l_workers l \/ cm_pending (l_committer l) !! p = Some o \/
     cm_inflight (l_committer l) !! p = Some o \/ cm_committed (l_committer l) !! p = Some o).

Definition waking (run : committing) : bool :=
  match run with Selecting | Committing _ false => true | _ => false end.

Record live l : Prop := {
  lv_work : forall p ps m, tr_partitions (l_tracker l) !! p = Some ps -> m ∈ pt_queue ps ->
    m_done (pt_heap ps !!! m) = false ->
    underway l (mkToken p (m_offset (pt_heap ps !!! m)) (pt_epoch ps));
  lv_last : forall p ps o, tr_partitions (l_tracker l) !! p = Some ps ->
    last (offsets ps) = Some o -> o = pt_highest ps;
  lv_top : forall p ps, tr_partitions (l_tracker l) !! p = Some ps -> pt_queue ps = [] ->
    accounted l p (pt_highest ps);
  lv_gate : forall ch, l_fetcher l = WaitingOn ch -> tr_changed (l_tracker l) = Some ch ->
    limit <= tr_pending (l_tracker l);
  lv_batch : cm_inflight (l_committer l) =
    match l_run l with Committing batch _ => batch | _ => ∅ end;
  lv_wake : waking (l_run l) = true -> cm_pending (l_committer l) <> ∅ ->
    cm_wake (l_committer l) = true \/ Poking ∈ l_workers l
}.

Lemma worker_kept {A} (x y z : A) (i : nat) (k : list A) : x ∈ k -> k !! i = Some y -> x <> y -> x ∈ <[i := z]> k.
Proof.
  intros (j & Hj)%list_elem_of_lookup Hi Hne. apply list_elem_of_lookup. exists j.
  rewrite list_lookup_insert_ne; [done|]. intros ->. congruence.
Qed.

Lemma worker_new {A} (y z : A) (i : nat) (k : list A) : k !! i = Some y -> z ∈ <[i := z]> k.
Proof. intros Hi. apply list_elem_of_insert. by eapply lookup_lt_Some. Qed.

Lemma raise_above a b p o :
  a !! p = Some o \/ b !! p = Some o -> exists o', raise a b !! p = Some o' /\ o <= o'.
Proof.
  unfold raise. rewrite lookup_union_with. destruct (a !! p) as [x|], (b !! p) as [y|]; cbn;
    intros [[= ->]|[= ->]]; eexists; (split; [done|lia]).
Qed.

(** Positions are accounted for as long as each carrier hands them on. *)
Lemma accounted_mono l l' p h :
  (forall o, Advancing p o ∈ l_workers l -> accounted l' p o) ->
  (forall o, cm_pending (l_committer l) !! p = Some o -> accounted l' p o) ->
  (forall o, cm_inflight (l_committer l) !! p = Some o -> accounted l' p o) ->
  (forall o, cm_committed (l_committer l) !! p = Some o -> accounted l' p o) ->
  accounted l p h -> accounted l' p h.
Proof.
  intros H1 H2 H3 H4 (o & Ho & Hc).
  assert (accounted l' p o) as (o' & Ho' & Hc') by (destruct Hc as [?|[?|[?|?]]]; auto).
  exists o'. split; [lia|done].
Qed.

Lemma live_gate l t' w :
  WaitBelow limit (l_tracker l) = (t', w) -> l_fetcher l = Gate -> live l ->
  live (l <| l_tracker := t' |>
          <| l_fetcher := match w with None => Reading | Some ch => WaitingOn ch end |>).
Proof.
  intros E Hg []. destruct (WaitBelow_frame limit _ _ _ E) as [Hp Hn].
  split; cbn; rewrite ?Hp, ?Hn; try done.
  - intros p ps m H1 H2 H3. destruct (lv_work0 p ps m H1 H2 H3) as [|]; [congruence|by right].
  - intros ch Hch _. destruct w; [|done]. unfold WaitBelow in E.
    destruct (Z.leb_spec limit 0); [done|]. destruct (Z.ltb_spec (tr_pending (l_tracker l)) limit); done.
Qed.

Lemma live_fetch l p o t tk (fin := l_finished l) :
  Begin (l_tracker l) p o = (t, tk) -> l_fetcher l = Reading ->
  tracker_ok record start fin (l_tracker l) -> live l ->
  live (l <| l_tracker := t |> <| l_fetcher := Offering tk |> <| l_position ::= <[p := o + 1]> |>).
Proof.
  intros E Hr Hok []. rewrite Begin_opened in E.
  destruct (opened (l_tracker l) p o) as [t1 ps] eqn:Eo. injection E as <- <-.
  destruct (opened_frame _ _ _ _ _ Eo) as [Hparts _].
  assert (Hv : Forall (fun m => (m < length (pt_heap ps))%nat) (pt_queue ps) /\
               (pt_queue ps = [] \/ tr_partitions (l_tracker l) !! p = Some ps)).
  { unfold opened in Eo. destruct (tr_partitions (l_tracker l) !! p) as [ps0|] eqn:Hp0;
      [destruct (o <=? pt_highest ps0)|]; injection Eo as <- <-;
      [split; [constructor|by left]| |split; [constructor|by left]].
    split; [|by right]. apply (po_valid _ _ _ (pk_queue _ _ _ _ _ (to_parts _ _ _ _ Hok p ps0 Hp0))). }
  destruct Hv as [Hv Hold].
  split; cbn; try done.
  - intros q ps' m. rewrite Hparts. destruct (decide (q = p)) as [->|Hq].
    + rewrite lookup_insert_eq. intros [= <-] Hm Hd. cbn in Hm, Hd |- *.
      rewrite elem_of_app, list_elem_of_singleton in Hm. destruct Hm as [Hm| ->].
      * rewrite Forall_forall in Hv. rewrite lookup_total_app_l in * by auto.
        destruct Hold as [Hnil|Hps]; [rewrite Hnil in Hm; by apply elem_of_nil in Hm|].
        destruct (lv_work0 p ps m Hps Hm Hd) as [|]; [congruence|by right].
      * left. by rewrite lookup_total_app_r, Nat.sub_diag.
    + rewrite lookup_insert_ne by done. intros H1 H2 H3.
      destruct (lv_work0 q ps' m H1 H2 H3) as [|]; [congruence|by right].
  - intros q ps' x. rewrite Hparts. destruct (decide (q = p)) as [->|Hq].
    + rewrite lookup_insert_eq. intros [= <-]. unfold offsets.
      rewrite registered_entries, fmap_app by done. change (m_offset <$> [mkInflight o false]) with [o].
      rewrite last_snoc. by intros [= <-].
    + rewrite lookup_insert_ne by done. apply lv_last0.
  - intros q ps'. rewrite Hparts. destruct (decide (q = p)) as [->|Hq].
    + rewrite lookup_insert_eq. intros [= <-]. cbn. by intros []%app_eq_nil.
    + rewrite lookup_insert_ne by done. apply lv_top0.
Qed.

Lemma live_hand l i w :
  l_fetcher l = Offering w -> l_workers l !! i = Some Idle -> live l ->
  live (l <| l_fetcher := Gate |> <| l_workers ::= <[i := Processing w]> |>).
Proof.
  intros Hf Hi []. split; cbn; try done.
  - intros p ps m H1 H2 H3. destruct (lv_work0 p ps m H1 H2 H3) as [E|Hin]; right; cbn.
    + rewrite Hf in E. injection E as ->. by eapply worker_new.
    + by eapply worker_kept.
  - intros p ps H1 H2. generalize (lv_top0 p ps H1 H2). apply accounted_mono; intros o Ho; exists o;
      (split; [lia|]); cbn; auto. left. by eapply worker_kept.
  - intros H1 H2. destruct (lv_wake0 H1 H2) as [|Hin]; [by left|right]. by eapply worker_kept.
Qed.

(** A worker that goes on from [process]: its message is done, and the watermark it
    carries accounts for a queue it emptied. *)
Lemma popping_live l tk t' w ps m j b p h :
  popping (l_tracker l) tk t' w ps m j b -> live l ->
  tracker_ok record start (l_finished l) (l_tracker l) ->
  pt_queue (popped (marked ps m) j b) = [] -> p = tk_partition tk -> h = pt_highest ps ->
  exists o, w = Some o /\ h <= o.
Proof.
  intros [Hp _ Hm Hj _ _ _ _ -> _ _ _] [] Hok Hnil -> ->.
  pose proof (pk_queue _ _ _ _ _ (to_parts _ _ _ _ Hok _ _ Hp)) as Hq.
  apply (po_index _ _ _ Hq) in Hm as [Hm _]. pose proof (po_valid _ _ _ Hq) as Hv.
  rewrite Forall_forall in Hv. rewrite marked_offsets by auto.
  change (drop j (pt_queue ps) = []) in Hnil. apply (f_equal length) in Hnil.
  rewrite length_drop in Hnil. cbn in Hnil.
  rewrite take_ge by (unfold offsets, entries; rewrite !length_fmap; lia).
  destruct (last (offsets ps)) as [o|] eqn:El.
  - exists o. split; [done|]. rewrite (lv_last0 _ _ _ Hp El). lia.
  - apply last_None in El. apply queue_offset in Hm. rewrite El in Hm. by apply elem_of_nil in Hm.
Qed.

Lemma underway_kept l l' i y wk w :
  underway l w -> l_workers l !! i = Some y -> Processing w <> y ->
  l_workers l' = <[i := wk]> (l_workers l) -> l_fetcher l' = l_fetcher l -> underway l' w.
Proof.
  intros [|Hin] Hi Hne Hw Hf; [left; congruence|right]. rewrite Hw. by eapply worker_kept.
Qed.

Lemma accounted_kept l l' i y wk p h :
  accounted l p h -> l_workers l !! i = Some y -> (forall o, Advancing p o <> y) ->
  l_workers l' = <[i := wk]> (l_workers l) -> l_committer l' = l_committer l -> accounted l' p h.
Proof.
  intros Ha Hi Hne Hw Hc. generalize Ha.
  apply accounted_mono; intros o Ho; exists o; (split; [lia|]); rewrite Hc; auto.
  left. rewrite Hw. by eapply worker_kept.
Qed.

Lemma wake_kept l i y wk :
  live l -> l_workers l !! i = Some y -> Poking <> y ->
  waking (l_run l) = true -> cm_pending (l_committer l) <> ∅ ->
  cm_wake (l_committer l) = true \/ Poking ∈ <[i := wk]> (l_workers l).
Proof.
  intros Hl Hi Hne H1 H2. destruct (lv_wake _ Hl H1 H2); [by left|right]. by eapply worker_kept.
Qed.

(** What stays in the queue was undone before, and belongs to another token. *)
Lemma popping_work fin t tk t' w ps m j b x :
  popping t tk t' w ps m j b -> queue_ok fin (tk_partition tk) ps ->
  x ∈ drop j (pt_queue ps) -> m_done (pt_heap (marked ps m) !!! x) = false ->
  x ∈ pt_queue ps /\ pt_heap (marked ps m) !!! x = pt_heap ps !!! x /\
  m_offset (pt_heap ps !!! x) <> tk_offset tk.
Proof.
  intros [_ _ Hm _ _ _ _ _ _ _ _ _] Hq Hx Hd.
  assert (Hin : x ∈ pt_queue ps) by (rewrite <- (take_drop j (pt_queue ps)), elem_of_app; by right).
  pose proof (proj1 (po_index _ _ _ Hq _ _) Hm) as [Hmq Hmo]. pose proof (po_valid _ _ _ Hq) as Hv.
  rewrite Forall_forall in Hv. rewrite marked_at in * by auto. case_decide as E; [done|].
  split_and!; [done..|]. intros Ho. destruct E.
  assert (Hx' : pt_byOffset ps !! tk_offset tk = Some x) by (by apply (po_index _ _ _ Hq)). congruence.
Qed.

Lemma live_popped l i tk t w ps m j b (wk := match w with Some o => Advancing (tk_partition tk) o
                                                  | None => Idle end) :
  popping (l_tracker l) tk t w ps m j b -> l_workers l !! i = Some (Processing tk) ->
  tracker_ok record start (l_finished l) (l_tracker l) -> live l ->
  live (l <| l_tracker := t |> <| l_workers ::= <[i := wk]> |>
          <| l_finished ::= union {[(tk_partition tk, tk_offset tk)]} |>).
Proof.
  intros Hpop Hi Hok Hl.
  pose proof (to_parts _ _ _ _ Hok _ _ (pg_part _ _ _ _ _ _ _ _ Hpop)) as [Hq _ _].
  pose proof (pg_part _ _ _ _ _ _ _ _ Hpop) as Hp. pose proof (pg_parts _ _ _ _ _ _ _ _ Hpop) as Hparts.
  split; cbn [l_tracker l_workers l_fetcher l_committer l_run l_finished upd]; rewrite ?Hparts.
  - intros p ps' x. destruct (decide (p = tk_partition tk)) as [->|Hne].
    + rewrite lookup_insert_eq. intros [= <-] Hx Hd.
      destruct (popping_work _ _ _ _ _ _ _ _ _ _ Hpop Hq Hx Hd) as (Hin & E & Hne).
      change (pt_heap (popped (marked ps m) j b)) with (pt_heap (marked ps m)) in *. rewrite E in *.
      eapply (underway_kept l); [exact (lv_work _ Hl _ ps x Hp Hin Hd)|done| |done..].
      intros [= Htk]. apply Hne. by rewrite <- Htk.
    + rewrite lookup_insert_ne by done. intros H1 H2 H3.
      eapply (underway_kept l); [by apply (lv_work _ Hl)|done| |done..].
      intros [= Htk]. apply Hne. by rewrite <- Htk.
  - intros p ps' o. destruct (decide (p = tk_partition tk)) as [->|Hne].
    + rewrite lookup_insert_eq. intros [= <-]. rewrite popped_offsets, marked_offsets.
      * intros Ho. apply (lv_last _ Hl _ _ o Hp).
        by rewrite <- (take_drop j (offsets ps)), last_app, Ho.
      * pose proof (po_valid _ _ _ Hq) as Hv. rewrite Forall_forall in Hv. apply Hv.
        by destruct (proj1 (po_index _ _ _ Hq _ _) (pg_index _ _ _ _ _ _ _ _ Hpop)).
    + rewrite lookup_insert_ne by done. apply (lv_last _ Hl).
  - intros p ps'. destruct (decide (p = tk_partition tk)) as [->|Hne].
    + rewrite lookup_insert_eq. intros [= <-] Hnil.
      destruct (popping_live _ _ _ _ _ _ _ _ _ _ Hpop Hl Hok Hnil eq_refl eq_refl) as (o & Hw & Ho).
      exists o. split; [done|left]. cbn. subst wk w. by eapply worker_new.
    + rewrite lookup_insert_ne by done. intros H1 H2.
      eapply (accounted_kept l); [by apply (lv_top _ Hl)|done..].
  - intros ch Hch Hc. destruct (pg_changed _ _ _ _ _ _ _ _ Hpop) as [E|[-> E]]; [congruence|].
    rewrite (pg_pending _ _ _ _ _ _ _ _ Hpop). cbn. rewrite Z.sub_0_r. rewrite E in Hc.
    by apply (lv_gate _ Hl ch).
  - apply Hl.
  - by eapply wake_kept.
Qed.

Lemma live_processed l i tk t wk :
  complete (l_tracker l) tk = (t, wk) -> l_workers l !! i = Some (Processing tk) ->
  tracker_ok record start (l_finished l) (l_tracker l) -> live l ->
  live (l <| l_tracker := t |> <| l_workers ::= <[i := wk]> |>
          <| l_finished ::= union {[(tk_partition tk, tk_offset tk)]} |>).
Proof.
  intros E Hi Hok Hl. unfold complete in E. destruct (Done (l_tracker l) tk) as [t1 w] eqn:Ed.
  assert (E1 : t = t1 /\ wk = match w with Some o => Advancing (tk_partition tk) o | None => Idle end)
    by (destruct w; by injection E as <- <-). clear E. destruct E1 as [-> ->].
  destruct (Done_cases _ _ _ _ Ed) as [(-> & -> & Hdone)|(ps & m & j & b & Hpop)];
    [|by eapply live_popped].
  split; cbn; try apply Hl; [| |by eapply wake_kept].
  - intros p ps m H1 H2 H3. eapply underway_kept; [by apply (lv_work _ Hl)|done| |done..].
    intros [= Heq]. subst tk. cbn in *. rewrite (Hdone ps m H1 eq_refl) in H3; [done|].
    by apply (po_index _ _ _ (pk_queue _ _ _ _ _ (to_parts _ _ _ _ Hok _ _ H1))).
  - intros p ps H1 H2. eapply accounted_kept; [by apply (lv_top _ Hl)|done..].
Qed.

Lemma below_true o m p : below o m p = true -> exists cur, m !! p = Some cur /\ o <= cur.
Proof.
  unfold below. destruct (m !! p) as [cur|]; [|done]. intros ?%Z.leb_le. eauto.
Qed.

(** An offset [Advance] drops lies below one that is carried already. *)
Lemma advance_accounts l l' p o c poke :
  Advance (l_committer l) p o = (c, poke) -> l_committer l' = c ->
  cm_inflight c = cm_inflight (l_committer l) /\ cm_committed c = cm_committed (l_committer l) /\
  accounted l' p o /\ (forall q x, cm_pending (l_committer l) !! q = Some x -> accounted l' q x).
Proof.
  unfold Advance, accounted. destruct (_ || _) eqn:Hb; intros [= <- <-] ->; split_and!; try done; cbn.
  - rewrite !orb_true_iff in Hb. destruct Hb as [[Hb|Hb]|Hb];
      apply below_true in Hb as (cur & Hcur & Hle); exists cur; auto.
  - intros q x Hx. exists x. auto with lia.
  - exists o. rewrite lookup_insert_eq. auto with lia.
  - rewrite !orb_false_iff in Hb. destruct Hb as [_ Hb]. unfold below in Hb.
    intros q x Hx. destruct (decide (q = p)) as [->|Hq].
    + exists o. rewrite Hx in Hb. rewrite lookup_insert_eq. split; [lia|auto].
    + exists x. rewrite lookup_insert_ne by done. auto with lia.
Qed.

Lemma live_advanced l i p o c poke :
  l_workers l !! i = Some (Advancing p o) -> Advance (l_committer l) p o = (c, poke) -> live l ->
  live (l <| l_committer := c |> <| l_workers ::= <[i := if poke then Poking else Idle]> |>).
Proof.
  intros Hi E Hl. set (l' := l <| l_committer := c |> <| l_workers ::= _ |>).
  destruct (advance_accounts l l' p o c poke E eq_refl) as (Hinf & Hcom & Hacc & Hpend).
  destruct Hl. split; cbn; try done.
  - intros q ps m H1 H2 H3. eapply (underway_kept l); [by apply lv_work0|done..].
  - intros q ps H1 H2. generalize (lv_top0 q ps H1 H2). apply accounted_mono; [|auto|..].
    + intros x Hx. destruct (decide ((q, x) = (p, o))) as [[= -> ->]|Hne]; [done|].
      exists x. split; [lia|left]. cbn. eapply worker_kept; [done..|congruence].
    + intros x Hx. exists x. split; [lia|]. cbn. rewrite Hinf. auto.
    + intros x Hx. exists x. split; [lia|]. cbn. rewrite Hcom. auto.
  - by rewrite Hinf.
  - intros H1 H2. unfold Advance in E. destruct (_ || _); injection E as <- <-.
    + destruct (lv_wake0 H1 H2); [by left|right]. by eapply worker_kept.
    + right. by eapply worker_new.
Qed.

(** The committer's moves: the workers and the tracker stay, the maps hand their
    positions on. *)
Lemma live_committer l c run :
  (forall p o, cm_pending (l_committer l) !! p = Some o \/ cm_inflight (l_committer l) !! p = Some o \/
     cm_committed (l_committer l) !! p = Some o ->
     exists o', o <= o' /\ (cm_pending c !! p = Some o' \/ cm_inflight c !! p = Some o' \/
       cm_committed c !! p = Some o')) ->
  cm_inflight c = match run with Committing batch _ => batch | _ => ∅ end ->
  (waking run = true -> cm_pending c <> ∅ -> cm_wake c = true \/ Poking ∈ l_workers l) ->
  live l -> live (l <| l_committer := c |> <| l_run := run |>).
Proof.
  intros Hc Hi Hw []. split; cbn; try done.
  intros p ps H1 H2. generalize (lv_top0 p ps H1 H2).
  assert (Hmap : forall o, cm_pending (l_committer l) !! p = Some o \/
            cm_inflight (l_committer l) !! p = Some o \/ cm_committed (l_committer l) !! p = Some o ->
            accounted (l <| l_committer := c |> <| l_run := run |>) p o).
  { intros o Ho. apply Hc in Ho as (o' & Hle & Ho'). exists o'. split; [done|]. cbn. tauto. }
  apply accounted_mono; auto. intros o Ho. exists o. split; [lia|by left].
Qed.

Lemma live_poked l i :
  l_workers l !! i = Some Poking -> live l ->
  live (l <| l_committer ::= (fun c => c <| cm_wake := true |>) |> <| l_workers ::= <[i := Idle]> |>).
Proof.
  intros Hi Hl. destruct Hl. split; cbn; try done; [| |by left].
  - intros p ps m H1 H2 H3. eapply (underway_kept l); [by apply lv_work0|done..].
  - intros p ps H1 H2. generalize (lv_top0 p ps H1 H2).
    apply accounted_mono; intros o Ho; exists o; (split; [lia|]); cbn; auto.
    left. by eapply worker_kept.
Qed.

Lemma live_taken l (final : bool) :
  (forall b f, l_run l <> Committing b f) -> live l ->
  live (l <| l_committer := (takeBatch (l_committer l)).1 |>
          <| l_run := if decide (cm_pending (l_committer l) = ∅)
                      then if final then CommitReturned else Selecting
                      else Committing (cm_pending (l_committer l)) final |>).
Proof.
  intros Hr Hl. apply live_committer; [| |by intros _ Hne; destruct Hne|done]; cbn.
  - assert (cm_inflight (l_committer l) = ∅) as ->
      by (rewrite (lv_batch _ Hl); destruct (l_run l); done || by destruct (Hr batch final0)).
    intros p o [Ho|[Ho|Ho]]; [| by rewrite lookup_empty in Ho|]; exists o; auto with lia.
  - case_decide as E; [rewrite E; by destruct final|done].
Qed.

Lemma live_settled l batch final ok run :
  l_run l = Committing batch final -> (forall b f, run <> Committing b f) ->
  (waking run = true -> ok = true /\ final = false) -> live l ->
  live (l <| l_committer := if ok : bool then markCommitted (l_committer l) batch
                            else restore (l_committer l) batch |>
          <| l_run := run |>).
Proof.
  intros Hrun Hr Hw Hl. pose proof (lv_batch _ Hl) as Hb. rewrite Hrun in Hb.
  apply live_committer; [| | |done].
  - rewrite Hb. intros p o Ho. destruct ok; cbn.
    + destruct Ho as [Ho|Ho]; [exists o; auto with lia|].
      destruct (raise_above batch (cm_committed (l_committer l)) p o Ho) as (o' & H1 & H2). eauto 6.
    + assert (Ho' : batch !! p = Some o \/ cm_pending (l_committer l) !! p = Some o \/
                    cm_committed (l_committer l) !! p = Some o) by tauto.
      destruct Ho' as [Ho'|[Ho'|Ho']]; [..|exists o; auto with lia];
        (destruct (raise_above batch (cm_pending (l_committer l)) p o) as (o' & H1 & H2); [auto|eauto]).
  - destruct ok, run; done || by destruct (Hr batch0 final0).
  - intros Hwk Hne. destruct (Hw Hwk) as [-> ->]. apply (lv_wake _ Hl); [by rewrite Hrun|done].
Qed.

(** The group's side moves none of the goroutines. *)
Lemma live_frame l l' :
  l_tracker l' = l_tracker l -> l_committer l' = l_committer l -> l_workers l' = l_workers l ->
  l_run l' = l_run l ->
  l_fetcher l' = l_fetcher l \/ l_fetcher l' = Gate /\ (forall w, l_fetcher l <> Offering w) ->
  live l -> live l'.
Proof.
  intros Ht Hc Hw Hr Hf [].
  split; unfold underway, accounted in *; rewrite ?Ht, ?Hc, ?Hw, ?Hr; try done.
  - intros p ps m H1 H2 H3. destruct (lv_work0 p ps m H1 H2 H3) as [H|H]; [|by right].
    destruct Hf as [->|[_ Hn]]; [by left|by destruct (Hn _ H)].
  - intros ch H1 H2. destruct Hf as [Hf|[Hf _]]; [|congruence]. apply (lv_gate0 ch); congruence.
Qed.

Lemma step_live_take final l l' :
  step limit record start (CommitTake final) l = Some l' -> live l -> live l'.
Proof.
  cbn. intros E Hl. destruct (match l_run l with Selecting => _ | _ => _ end) eqn:Hg; [|done].
  injection E as <-. apply live_taken; [|done]. intros b f Hr. by rewrite Hr in Hg.
Qed.

Lemma live_reply l batch final (ok : bool) broker run :
  l_run l = Committing batch final -> (forall b f, run <> Committing b f) ->
  (waking run = true -> ok = true /\ final = false) -> live l ->
  live (l <| l_committer := if ok then markCommitted (l_committer l) batch
                            else restore (l_committer l) batch |>
          <| l_broker := broker |> <| l_run := run |>).
Proof.
  intros Hr Hc Hw Hl. eapply live_frame; [..|eapply (live_settled l batch final ok run), Hl]; try done.
  by left.
Qed.

Lemma step_live e l l' :
  step limit record start e l = Some l' -> safe record start l ->
  (l_stopping l = false -> live l) -> l_stopping l' = false -> live l'.
Proof.
  intros E Hs Hl Hstop. assert (Hn : l_stopping l = false).
  { destruct e; cbn in E; repeat case_match; simplify_eq; cbn in Hstop; congruence. }
  specialize (Hl Hn). destruct e; [..|by eapply step_live_take| | | | | | |].
  all: cbn in E; repeat (case_match; try discriminate E); injection E as <-; try congruence;
    try (by eapply live_poked); try (by eapply live_hand);
    try (by eapply live_processed, Hl; try apply Hs);
    try (by eapply live_frame, Hl; try (right; split; [done|congruence]); auto).
  - by eapply (live_gate l _ (Some _)).
  - by eapply (live_gate l _ None).
  - by eapply live_fetch, Hl; try apply Hs.
  - by eapply (live_advanced l _ _ _ _ true).
  - by eapply (live_advanced l _ _ _ _ false).
  - apply (live_committer l); try done; cbn; [|rewrite (lv_batch _ Hl); by case_match].
    intros p o Ho. exists o. auto with lia.
  - by apply (live_reply l batch true true).
  - by apply (live_reply l batch false true).
  - by apply (live_reply l batch final false).
  - by apply (live_reply l batch final false).
  - apply (live_committer l (l_committer l) Draining); try done; [|rewrite (lv_batch _ Hl); by case_match].
    intros p o Ho. exists o. auto with lia.
Qed.

Lemma start_live n : live (startLoop n).
Proof. split; try done; intros p; cbn; by rewrite ?lookup_empty. Qed.

Lemma exec_live es n l :
  exec limit record start es (startLoop n) = Some l ->
  safe record start l /\ (l_stopping l = false -> live l).
Proof.
  intros E. eapply (exec_invariant limit record start
    (fun l => safe record start l /\ (l_stopping l = false -> live l))), conj; [|exact E|..].
  - intros e l1 l2 E1 [H1 H2]. split; [by eapply step_safe|by eapply step_live].
  - apply start_safe.
  - intros _. apply start_live.
Qed.
End drained.

(** ** The backoff *)

(** The loop doubles without passing the limit. *)
Lemma backoffLoop_spec i d limit :
  0 < d -> 0 <= limit -> backoffLoop i d limit = Z.min (d * 2 ^ Z.of_nat i) limit.
Proof.
  revert d. induction i as [|i IH]; intros d Hd Hl; cbn [backoffLoop].
  - f_equal. lia.
  - rewrite Nat2Z.inj_succ, Z.pow_succ_r by lia. pose proof (Z.pow_pos_nonneg 2 (Z.of_nat i)).
    destruct (Z.ltb_spec (limit / 2) d) as [H1|H1].
    + assert (limit < d * 2) by (pose proof (Z.div_mod limit 2); pose proof (Z.mod_pos_bound limit 2); lia).
      nia.
    + rewrite IH by lia. f_equal. lia.
Qed.

Lemma backoff_spec attempt limit :
  1 <= attempt -> 0 <= limit -> backoff attempt limit = Z.min (Second * 2 ^ (attempt - 1)) limit.
Proof.
  intros Ha Hl. unfold backoff. rewrite backoffLoop_spec by (done || unfold Second; lia).
  by rewrite Z2Nat.id by lia.
Qed.

(** Nobody takes a message: every write was refused for its size. *)
Definition refusals (answers : list PublishAnswer) : nat :=
  length (filter (fun a => a = WriteTooLarge) answers).

Lemma publishRetrying_refusals answers :
  match publishRetrying answers with
  | (publishTooLarge, rest) => refusals answers = S (refusals rest)
  | _ => True
  end.
Proof.
  induction answers as [|[] answers IH]; cbn; try done.
Qed.

Lemma deadLetterMessage_spec answers finished copies :
  deadLetterMessage answers = (finished, copies) ->
  (finished = false -> copies = []) /\
  (finished = true -> copies = [] -> (2 <= refusals answers)%nat) /\
  Forall (fun c => c = DeadLetterCopy \/ c = ReducedCopy) copies.
Proof.
  unfold deadLetterMessage. pose proof (publishRetrying_refusals answers) as H1.
  destruct (publishRetrying answers) as [[] rest];
    [intros [= <- <-]; by split_and!; [done..|repeat constructor; auto]..|].
  pose proof (publishRetrying_refusals rest) as H2.
  destruct (publishRetrying rest) as [[] rest']; intros [= <- <-];
    (split_and!; [done| |by repeat constructor; auto]); try done.
  intros _ _. rewrite H1, H2. lia.
Qed.

Lemma deadLetter_accounted (P : Z -> Time -> Prop) (Q : Prop) answers finished copies :
  deadLetterMessage answers = (finished, copies) ->
  (finished = false -> copies = []) /\
  (finished = true -> copies = [] -> Q \/ (2 <= refusals answers)%nat) /\
  (forall k due, DelayCopy k due ∈ copies -> P k due).
Proof.
  intros (H1 & H2 & H3)%deadLetterMessage_spec. split_and!; [done|by auto|].
  intros k due Hin. rewrite Forall_forall in H3. by destruct (H3 _ Hin).
Qed.

(** ** Properties *)

(** C6. Messages are handled at least once: whatever the interleaving of fetches,
    workers, retries, failed and partly applied commits, rebalances and the other
    members of the group, every record below the group's committed position (from
    the position the group started at) is one that some member has finished. *)
Theorem committed_messages_finished limit record start n es l p r :
  exec limit record start es (startLoop n) = Some l ->
  record p r = true -> start p <= r < brokerOf start l p -> (p, r) ∈ l_finished l.
Proof.
  intros E Hr Hb. destruct (exec_live limit record start es n l E) as [Hs _].
  by apply (sf_broker _ _ _ Hs p).
Qed.

(** Records 3, 5 and 9 of one partition; the second is finished first, and the
    first commit is applied by the broker but reported as failed. *)
Definition demoRecord (p o : Z) : bool := (p =? 0) && ((o =? 3) || (o =? 5) || (o =? 9)).

Definition demoEvents : list event :=
  [FetchGate; FetchGot 0 3; Hand 0; FetchGate; FetchGot 0 5; Hand 1; Processed 1 true;
   Processed 0 true; Advanced 0; Poked 0; CommitWoken; CommitTake false; CommitFailed [0] false;
   CommitRetry; CommitTake false; CommitOk].

Definition demoLoop : topicLoop :=
  default (startLoop 2) (exec 10 demoRecord (fun _ => 0) demoEvents (startLoop 2)).

Lemma committed_messages_finished_witness : (0, 3) ∈ l_finished demoLoop.
Proof.
  apply (committed_messages_finished 10 demoRecord (fun _ => 0) 2 demoEvents demoLoop 0 3);
    [vm_compute; reflexivity|reflexivity|vm_compute; split; [discriminate|reflexivity]].
Defined.

(** C17. Nothing fetched is forgotten: in every reachable state of a consumer that is
    not being stopped, once no message is offered or with a worker and the committer
    sleeps without a wake-up, the broker has acknowledged a commit at or above the
    highest offset fetched from every partition, the backlog counter is zero and a
    fetch loop that waits for room has been woken. *)
Theorem idle_consumer_drained limit record start n es l :
  0 < limit -> exec limit record start es (startLoop n) = Some l -> l_stopping l = false ->
  (forall wk, wk ∈ l_workers l -> wk = Idle) -> (forall w, l_fetcher l <> Offering w) ->
  l_run l = Selecting -> cm_wake (l_committer l) = false ->
  (forall p ps, tr_partitions (l_tracker l) !! p = Some ps ->
     exists c, cm_committed (l_committer l) !! p = Some c /\ pt_highest ps <= c) /\
  tr_pending (l_tracker l) = 0 /\
  (forall ch, l_fetcher l = WaitingOn ch -> closed (l_tracker l) ch = true).
Proof.
  intros Hlim E Hstop Hidle Hoff Hrun Hwake.
  destruct (exec_live limit record start es n l E) as [Hs Hl]. specialize (Hl Hstop).
  assert (Hnot : forall w, Processing w ∉ l_workers l) by (intros w Hw; by apply Hidle in Hw).
  assert (Hq : forall p ps, tr_partitions (l_tracker l) !! p = Some ps -> pt_queue ps = []).
  { intros p ps Hp. pose proof (to_parts _ _ _ _ (sf_tracker _ _ _ Hs) p ps Hp) as [_ Hh _].
    destruct (pt_queue ps) as [|m q] eqn:Eq; [done|]. exfalso.
    destruct (lv_work _ _ Hl p ps m Hp) as [Hw|Hw]; [rewrite Eq; by left| |by eapply Hoff|by eapply Hnot].
    apply Hh. unfold entries. by rewrite Eq. }
  assert (Hpend : cm_pending (l_committer l) = ∅).
  { destruct (decide (cm_pending (l_committer l) = ∅)) as [|Hne]; [done|]. exfalso.
    destruct (lv_wake _ _ Hl) as [Hw|Hw]; [by rewrite Hrun|done|congruence|by apply Hidle in Hw]. }
  assert (Hinf : cm_inflight (l_committer l) = ∅) by (by rewrite (lv_batch _ _ Hl), Hrun).
  assert (Hz : tr_pending (l_tracker l) = 0).
  { rewrite (to_pending _ _ _ _ (sf_tracker _ _ _ Hs)). apply map_sum_zero. intros p ps Hp.
    by rewrite (Hq p ps Hp). }
  split_and!; [|done|].
  - intros p ps Hp. destruct (lv_top _ _ Hl p ps Hp (Hq p ps Hp)) as (o & Ho & Hc).
    rewrite Hpend, Hinf, lookup_empty in Hc. destruct Hc as [Hc|[?|[?|Hc]]]; try done;
      [by apply Hidle in Hc|eauto].
  - intros ch Hch. apply bool_decide_eq_true. intros Hc. pose proof (lv_gate _ _ Hl ch Hch Hc). lia.
Qed.

Lemma idle_consumer_drained_witness :
  exists c, cm_committed (l_committer demoLoop) !! 0 = Some c /\ 5 <= c.
Proof.
  pose proof (idle_consumer_drained 10 demoRecord (fun _ => 0) 2 demoEvents demoLoop eq_refl) as H.
  destruct H as (H & _ & _); [vm_compute; reflexivity|reflexivity| | |reflexivity|reflexivity|].
  - change (l_workers demoLoop) with [Idle; Idle]. intros wk Hwk.
    by apply elem_of_cons in Hwk as [->|[->|[]%elem_of_nil]%elem_of_cons].
  - change (l_fetcher demoLoop) with Gate. discriminate.
  - destruct (tr_partitions (l_tracker demoLoop) !! 0) as [ps|] eqn:Hp; [|discriminate Hp].
    destruct (H 0 ps Hp) as (c & Hc & Hle). exists c. split; [exact Hc|].
    assert (E : pt_highest ps = 5) by (vm_compute in Hp; injection Hp as <-; reflexivity).
    rewrite <- E. exact Hle.
Defined.


