(* ===== verification/Blobs.v ===== *)
(** * Blobs: content-addressed payloads and their garbage collector

    [store/blob]: the lifecycle index ([index.go], [memoryindex.go]), the writer
    side of a stored payload ([objectbacked.go], [objectbacked_put.go],
    [policy.go]), and the collector ([collector.go]) with the loop that drives it
    ([backend/providers/distributed/blob_gc.go]).  The index's methods run under
    one mutex and are functions on its record; a writer is a value that says where
    it stands between its calls to the index and to the object store, and a run is
    any interleaving of writers, collectors and the clock.  Contexts are left out,
    the shape checks of refs and execution ids are arguments, and the object store
    is the map its interface describes. *)

From S2P Require Import Prelude Types Retry.

(** ** The index *)

Inductive ObjectState : Type := ObjectLive | ObjectDeleting.

#[export] Instance ObjectState_eq_dec : EqDecision ObjectState.
Proof. solve_decision. Defined.

Record Ref : Type := mkRef {
  r_Namespace : string;
  r_Digest : string;
  r_Size : Z;
  r_Stored : Z;
  r_Codec : string
}.

(** Namespace and digest. *)
Abbreviation memKey := (string * string)%type.

Definition keyOf (ref : Ref) : memKey := (r_Namespace ref, r_Digest ref).

Record memObject : Type := mkObject {
  mo_size : Z;
  mo_stored : Z;
  mo_codec : string;
  mo_generation : Z;
  mo_state : ObjectState;
  mo_lastRefAt : Time
}.

#[export] Instance Eta_memObject : Eta memObject := fun r =>
  mkObject (mo_size r) (mo_stored r) (mo_codec r) (mo_generation r) (mo_state r) (mo_lastRefAt r).

Definition refOf (key : memKey) (o : memObject) : Ref :=
  mkRef key.1 key.2 (mo_size o) (mo_stored o) (mo_codec o).

Definition touch (o : memObject) (now : Time) : memObject :=
  if mo_lastRefAt o <? now then o <| mo_lastRefAt := now |> else o.

Record MemoryIndex : Type := mkIndex {
  mi_objects : gmap memKey memObject;
  mi_links : gmap memKey (gmap string Time)
}.

#[export] Instance Eta_MemoryIndex : Eta MemoryIndex := fun r =>
  mkIndex (mi_objects r) (mi_links r).

Definition NewMemoryIndex : MemoryIndex := mkIndex ∅ ∅.

Definition IndexTime (t : Time) : Time := t / Millisecond * Millisecond.

Inductive BlobError : Type :=
| ErrInvalidRef
| ErrMetadataConflict
| ErrLinkExpiry
| ErrBlobNotFound
| ErrFenced
| ErrNotCandidate
| ErrGCArgs
| ErrDeleteFailed
| ErrDeleteUnsupported
| ErrCorrupt
| ErrObjectStore.

#[export] Instance BlobError_eq_dec : EqDecision BlobError.
Proof. solve_decision. Defined.

Record Registration : Type := mkRegistration {
  rg_Ref : Ref;
  rg_Revived : bool
}.

Record Fence : Type := mkFence {
  fe_Ref : Ref;
  fe_Generation : Z
}.

Definition linksOf (m : MemoryIndex) (key : memKey) : gmap string Time :=
  default ∅ (mi_links m !! key).

Definition ValidateGCArgs (grace : Duration) (limit : Z) : bool := (0 <? grace) && (0 <? limit).

(** [now] is the index's clock, truncated already. *)
Definition isCandidateLocked (m : MemoryIndex) (key : memKey) (now : Time) (grace : Duration) : bool :=
  match mi_objects m !! key with
  | None => false
  | Some o =>
      (mo_lastRefAt o <? IndexTime (now - grace)) &&
      forallb (fun '(_, expireAt) => expireAt <=? now) (map_to_list (linksOf m key))
  end.

Section index.
(** The shape checks: [Ref.Validate] and [ValidateExecID]. *)
Variables (validRef : Ref -> bool) (validExecID : string -> bool).

Definition Register (clock : Time) (m : MemoryIndex) (ref : Ref)
    : MemoryIndex * (BlobError + Registration) :=
  if negb (validRef ref) then (m, inl ErrInvalidRef)
  else
    let key := keyOf ref in
    let now := IndexTime clock in
    match mi_objects m !! key with
    | None =>
        let o := mkObject (r_Size ref) (r_Stored ref) (r_Codec ref) 1 ObjectLive now in
        (m <| mi_objects ::= <[key := o]> |>, inr (mkRegistration (refOf key o) false))
    | Some o =>
        if negb (mo_size o =? r_Size ref) then (m, inl ErrMetadataConflict)
        else
          let revived := bool_decide (mo_state o = ObjectDeleting) in
          let o := if revived
                   then o <| mo_state := ObjectLive |> <| mo_generation ::= Z.succ |>
                          <| mo_stored := r_Stored ref |> <| mo_codec := r_Codec ref |>
                   else o in
          let o := touch o now in
          (m <| mi_objects ::= <[key := o]> |>, inr (mkRegistration (refOf key o) revived))
    end.

Definition Link (clock : Time) (m : MemoryIndex) (execID : string) (ref : Ref) (expireAt : Time)
    : MemoryIndex * option BlobError :=
  if negb (validExecID execID) || negb (validRef ref) then (m, Some ErrInvalidRef)
  else
    let key := keyOf ref in
    let expireAt := IndexTime expireAt in
    let now := IndexTime clock in
    if expireAt <=? now then (m, Some ErrLinkExpiry)
    else
      match mi_objects m !! key with
      | None => (m, Some ErrBlobNotFound)
      | Some o =>
          if decide (mo_state o <> ObjectLive) then (m, Some ErrFenced)
          else
            let byExec := linksOf m key in
            let byExec :=
              match byExec !! execID with
              | Some cur => if cur <? expireAt then <[execID := expireAt]> byExec else byExec
              | None => <[execID := expireAt]> byExec
              end in
            (m <| mi_links ::= <[key := byExec]> |> <| mi_objects ::= <[key := touch o now]> |>, None)
      end.

(** The loop of [PruneLinks] over the links in the order the maps are ranged over. *)
Fixpoint pruneLoop (now limit removed : Z) (order : list (memKey * string)) (m : MemoryIndex)
    : MemoryIndex * Z :=
  match order with
  | [] => (m, removed)
  | (key, execID) :: rest =>
      if removed =? limit then (m, removed)
      else
        match linksOf m key !! execID with
        | Some expireAt =>
            if expireAt <=? now
            then
              let byExec := delete execID (linksOf m key) in
              let m := m <| mi_links ::= if decide (byExec = ∅) then delete key
                                         else <[key := byExec]> |> in
              pruneLoop now limit (removed + 1) rest m
            else pruneLoop now limit removed rest m
        | None => pruneLoop now limit removed rest m
        end
  end.

Definition PruneLinks (clock : Time) (order : list (memKey * string)) (m : MemoryIndex) (limit : Z)
    : MemoryIndex * (BlobError + Z) :=
  if limit <=? 0 then (m, inl ErrGCArgs)
  else let '(m, n) := pruneLoop (IndexTime clock) limit 0 order m in (m, inr n).

(** Oldest first, then by namespace and digest. *)
Definition olderThan (objects : gmap memKey memObject) : relation memKey := fun a b =>
  let at_ k := from_option mo_lastRefAt 0 (objects !! k) in
  at_ a < at_ b \/
  at_ a = at_ b /\ (String.ltb a.1 b.1 \/ a.1 = b.1 /\ String.leb a.2 b.2).

#[export] Instance olderThan_dec objects a b : Decision (olderThan objects a b).
Proof. unfold olderThan. apply _. Defined.

Definition candidateKeys (clock : Time) (m : MemoryIndex) (grace : Duration) : list memKey :=
  merge_sort (olderThan (mi_objects m))
    (filter (fun key => isCandidateLocked m key (IndexTime clock) grace = true)
       (map_to_list (mi_objects m)).*1).

Definition Candidates (clock : Time) (m : MemoryIndex) (grace : Duration) (limit : Z)
    : BlobError + list Ref :=
  if negb (ValidateGCArgs grace limit) then inl ErrGCArgs
  else
    let keys := take (Z.to_nat limit) (candidateKeys clock m grace) in
    inr (omap (fun key => refOf key <$> mi_objects m !! key) keys).

Definition MarkDeleting (clock : Time) (m : MemoryIndex) (ref : Ref) (grace : Duration)
    : MemoryIndex * (BlobError + Fence) :=
  if negb (validRef ref) then (m, inl ErrInvalidRef)
  else if negb (ValidateGCArgs grace 1) then (m, inl ErrGCArgs)
  else
    let key := keyOf ref in
    match mi_objects m !! key with
    | None => (m, inl ErrBlobNotFound)
    | Some o =>
        let fence := mkFence (refOf key o) (mo_generation o) in
        if decide (mo_state o = ObjectLive) then
          if isCandidateLocked m key (IndexTime clock) grace
          then (m <| mi_objects ::= <[key := o <| mo_state := ObjectDeleting |>]> |>, inr fence)
          else (m, inl ErrNotCandidate)
        else (m, inr fence)
    end.

(** How [Store.Delete] ends inside [Purge]; a failed delete may have removed the
    bytes. *)
Inductive DeleteAnswer : Type := Deleted | DeleteFailed (removed : bool) | DeleteUnsupported.

Definition Purge (m : MemoryIndex) (objects : gmap memKey Z) (fence : Fence) (answer : DeleteAnswer)
    : MemoryIndex * gmap memKey Z * option BlobError :=
  if negb (validRef (fe_Ref fence)) || (fe_Generation fence <? 1) then (m, objects, Some ErrInvalidRef)
  else
    let key := keyOf (fe_Ref fence) in
    match mi_objects m !! key with
    | None => (m, objects, Some ErrFenced)
    | Some o =>
        if decide (mo_state o <> ObjectDeleting \/ mo_generation o <> fe_Generation fence)
        then (m, objects, Some ErrFenced)
        else
          match answer with
          | Deleted =>
              (m <| mi_objects ::= delete key |> <| mi_links ::= delete key |>, delete key objects, None)
          | DeleteFailed removed =>
              (m, if removed then delete key objects else objects, Some ErrDeleteFailed)
          | DeleteUnsupported => (m, objects, Some ErrDeleteUnsupported)
          end
    end.
End index.

(** ** The collector *)

Record CollectResult : Type := mkCollect {
  cr_PrunedLinks : Z;
  cr_Candidates : Z;
  cr_Deleted : Z;
  cr_Fenced : Z;
  cr_Skipped : Z;
  cr_Failed : Z
}.

#[export] Instance Eta_CollectResult : Eta CollectResult := fun r =>
  mkCollect (cr_PrunedLinks r) (cr_Candidates r) (cr_Deleted r) (cr_Fenced r) (cr_Skipped r)
    (cr_Failed r).

(** The metadata and the bytes. *)
Abbreviation blobState := (MemoryIndex * gmap memKey Z)%type.

Section collector.
Variables (validRef : Ref -> bool) (grace : Duration) (batch : Z).

(** One pass reads the clock once per call of the index, and meets one answer per
    object it deletes. *)
Record passInput : Type := mkPass {
  pi_clock : nat -> Time;
  pi_order : list (memKey * string);
  pi_answer : memKey -> DeleteAnswer
}.

(** The loop of [Run] over the candidates; [inr] ends the pass early. *)
Fixpoint collectLoop (inp : passInput) (i : nat) (refs : list Ref) (st : blobState)
    (res : CollectResult) : blobState * CollectResult * option BlobError :=
  match refs with
  | [] => (st, res, if 0 <? cr_Failed res then Some ErrDeleteFailed else None)
  | ref :: rest =>
      let '(m, objects) := st in
      match MarkDeleting validRef (pi_clock inp i) m ref grace with
      | (m, inl e) =>
          if decide (e = ErrNotCandidate \/ e = ErrBlobNotFound)
          then collectLoop inp (S i) rest (m, objects) (res <| cr_Skipped ::= Z.succ |>)
          else ((m, objects), res, Some e)
      | (m, inr fence) =>
          let '(m, objects, err) :=
            Purge validRef m objects fence (pi_answer inp (keyOf (fe_Ref fence))) in
          match err with
          | None => collectLoop inp (S i) rest (m, objects) (res <| cr_Deleted ::= Z.succ |>)
          | Some ErrFenced => collectLoop inp (S i) rest (m, objects) (res <| cr_Fenced ::= Z.succ |>)
          | Some ErrDeleteFailed =>
              collectLoop inp (S i) rest (m, objects) (res <| cr_Failed ::= Z.succ |>)
          | Some e => ((m, objects), res, Some e)
          end
      end
  end.

Definition Run (inp : passInput) (st : blobState) : blobState * CollectResult * option BlobError :=
  let '(m, objects) := st in
  let res := mkCollect 0 0 0 0 0 0 in
  match PruneLinks (pi_clock inp 0) (pi_order inp) m batch with
  | (m, inl e) => ((m, objects), res, Some e)
  | (m, inr pruned) =>
      let res := res <| cr_PrunedLinks := pruned |> in
      match Candidates (pi_clock inp 1) m grace batch with
      | inl e => ((m, objects), res, Some e)
      | inr refs =>
          collectLoop inp 2 refs (m, objects) (res <| cr_Candidates := Z.of_nat (length refs) |>)
      end
  end.

(** [gcTick]: passes while the last one examined a full batch, and whether the loop
    goes on. *)
Fixpoint gcTick (runs : nat) (pass : nat -> passInput) (i : nat) (st : blobState) : blobState * bool :=
  match runs with
  | O => (st, true)
  | S runs =>
      let '(st, res, err) := Run (pass i) st in
      match err with
      | Some e => (st, negb (bool_decide (e = ErrDeleteUnsupported)))
      | None => if cr_Candidates res =? batch then gcTick runs pass (S i) st else (st, true)
      end
  end.
End collector.

(** ** Writers *)

(** [frameReadLimit] and the check of an object a duplicate write found. *)
Definition frameReadLimit (size : Z) : Z := 1 + size + Z.quot size 64 + 1024.

Definition implausible (length size : Z) : bool := (length =? 0) || (frameReadLimit size <? length).

(** A caller of [Externalize]: at the top of its loop, in [store] before the write
    (overwriting or not) or before the check, before [Link], or returned. *)
Inductive writer : Type :=
| ToPut (attempt : nat)
| Storing (attempt : nat) (since : Time) (ref : Ref) (overwrite : bool) (try : nat)
| Checking (attempt : nat) (since : Time) (ref : Ref) (try : nat)
| Linking (attempt : nat) (since : Time) (ref : Ref)
| Externalized (ref : Ref)
| KeptInline
| Refused (e : BlobError).

Definition maxLinkAttempts : nat := 3.

(** What a writer was called with: the execution, the ref [Put] builds for the
    payload, and the expiry of the link. *)
Record payload : Type := mkPayload {
  pl_execID : string;
  pl_ref : Ref;
  pl_expireAt : Time
}.

Record blobs : Type := mkBlobs {
  b_now : Time;
  b_index : MemoryIndex;
  b_objects : gmap memKey Z;
  b_writers : list writer;
  b_late : bool
}.

#[export] Instance Eta_blobs : Eta blobs := fun r =>
  mkBlobs (b_now r) (b_index r) (b_objects r) (b_writers r) (b_late r).

Definition startBlobs (now : Time) (writers : nat) : blobs :=
  mkBlobs now NewMemoryIndex ∅ (replicate writers (ToPut 0)) false.

Inductive blobEvent : Type :=
| Tick (d : Duration)
| Write (i : nat) (storeFails : bool)
| Claim (ref : Ref) (grace : Duration)
| Delete (fence : Fence) (answer : DeleteAnswer)
| Prune (order : list (memKey * string)) (limit : Z).

Section writers.
Variables (validRef : Ref -> bool) (validExecID : string -> bool) (payloads : list payload).

(** How long a writer may take from [Register] to [Link]; the collectors' grace must
    not be shorter ([CollectorOptions.Grace]).  [b_late] records a breach. *)
Variable (window : Duration).

(** The next call of a writer; [storeFails] is an error of the object store. *)
Definition writerStep (now : Time) (p : payload) (m : MemoryIndex) (objects : gmap memKey Z)
    (storeFails : bool) (w : writer) : option (MemoryIndex * gmap memKey Z * writer) :=
  match w with
  | ToPut attempt =>
      if negb (validExecID (pl_execID p)) then Some (m, objects, Refused ErrInvalidRef)
      else if decide (maxLinkAttempts <= attempt)%nat then Some (m, objects, KeptInline)
      else
        match Register validRef now m (pl_ref p) with
        | (m, inl e) => Some (m, objects, Refused e)
        | (m, inr reg) => Some (m, objects, Storing attempt now (rg_Ref reg) (rg_Revived reg) 0)
        end
  | Storing attempt since ref overwrite try =>
      let key := keyOf (pl_ref p) in
      if storeFails then Some (m, objects, Refused ErrObjectStore)
      else if overwrite || bool_decide (objects !! key = None)
      then Some (m, <[key := 1 + r_Stored (pl_ref p)]> objects, Linking attempt since ref)
      else Some (m, objects, Checking attempt since ref try)
  | Checking attempt since ref try =>
      let key := keyOf (pl_ref p) in
      if storeFails then Some (m, objects, Refused ErrObjectStore)
      else
        match objects !! key with
        | Some length =>
            if implausible length (r_Size (pl_ref p)) then Some (m, objects, Refused ErrCorrupt)
            else Some (m, objects, Linking attempt since ref)
        | None =>
            if decide (try = 0)%nat then Some (m, objects, Storing attempt since ref false 1)
            else Some (m, objects, Refused ErrObjectStore)
        end
  | Linking attempt since ref =>
      match Link validRef validExecID now m (pl_execID p) ref (pl_expireAt p) with
      | (m, None) => Some (m, objects, Externalized ref)
      | (m, Some e) =>
          if decide (e = ErrFenced \/ e = ErrBlobNotFound)
          then Some (m, objects, ToPut (S attempt))
          else Some (m, objects, Refused e)
      end
  | Externalized _ | KeptInline | Refused _ => None
  end.

Definition lateLink (now : Time) (w : writer) : bool :=
  match w with Linking _ since _ => since + window <? now | _ => false end.

Definition blobStep (e : blobEvent) (b : blobs) : option blobs :=
  match e with
  | Tick d => if 0 <=? d then Some (b <| b_now ::= Z.add d |>) else None
  | Write i storeFails =>
      match payloads !! i, b_writers b !! i with
      | Some p, Some w =>
          '(m, objects, w') ← writerStep (b_now b) p (b_index b) (b_objects b) storeFails w;
          Some (b <| b_index := m |> <| b_objects := objects |> <| b_writers ::= <[i := w']> |>
                  <| b_late ::= orb (lateLink (b_now b) w) |>)
      | _, _ => None
      end
  | Claim ref grace =>
      Some (b <| b_index := (MarkDeleting validRef (b_now b) (b_index b) ref grace).1 |>
              <| b_late ::= orb (grace <? window) |>)
  | Delete fence answer =>
      let '(m, objects, _) := Purge validRef (b_index b) (b_objects b) fence answer in
      Some (b <| b_index := m |> <| b_objects := objects |>)
  | Prune order limit =>
      Some (b <| b_index := (PruneLinks (b_now b) order (b_index b) limit).1 |>)
  end.

Fixpoint blobRun (es : list blobEvent) (b : blobs) : option blobs :=
  match es with [] => Some b | e :: es => b ← blobStep e b; blobRun es b end.
End writers.

(** ** The index, operation by operation *)

Lemma IndexTime_mono a b : a <= b -> IndexTime a <= IndexTime b.
Proof.
  intros H. unfold IndexTime. apply Z.mul_le_mono_nonneg_r; [by vm_compute|].
  apply Z.div_le_mono; [by vm_compute|done].
Qed.

Lemma IndexTime_le a : IndexTime a <= a.
Proof. unfold IndexTime. rewrite Z.mul_comm. apply Z.mul_div_le. by vm_compute. Qed.

Lemma touch_state o now : mo_state (touch o now) = mo_state o.
Proof. unfold touch. by destruct (_ <? _). Qed.

Lemma touch_ref key o now : refOf key (touch o now) = refOf key o.
Proof. unfold touch. by destruct (_ <? _). Qed.

Lemma touch_at o now : mo_lastRefAt o <= mo_lastRefAt (touch o now) /\ now <= mo_lastRefAt (touch o now).
Proof. unfold touch. destruct (Z.ltb_spec (mo_lastRefAt o) now); cbn; lia. Qed.

(** A live object, referenced at [at_] or later. *)
Definition liveAt (m : MemoryIndex) (key : memKey) (at_ : Time) : Prop :=
  exists o, mi_objects m !! key = Some o /\ mo_state o = ObjectLive /\ at_ <= mo_lastRefAt o.

(** No live object is lost or looks older. *)
Definition advances (m m' : MemoryIndex) : Prop := forall key at_, liveAt m key at_ -> liveAt m' key at_.

Lemma insert_advances m m' key o' :
  mi_objects m' = <[key := o']> (mi_objects m) ->
  (forall at_, liveAt m key at_ -> mo_state o' = ObjectLive /\ at_ <= mo_lastRefAt o') ->
  advances m m'.
Proof.
  intros Hm Ho k at_ Hl. destruct (decide (k = key)) as [->|Hk].
  - exists o'. rewrite Hm, lookup_insert_eq. split; [done|by apply Ho].
  - destruct Hl as (o & H1 & H2). exists o. by rewrite Hm, lookup_insert_ne.
Qed.

Lemma linksOf_insert m m' key l k :
  mi_links m' = <[key := l]> (mi_links m) -> linksOf m' k = if decide (k = key) then l else linksOf m k.
Proof.
  intros E. unfold linksOf. rewrite E. case_decide; [subst; by rewrite lookup_insert_eq|].
  by rewrite lookup_insert_ne.
Qed.

Section operations.
Context (validRef : Ref -> bool) (validExecID : string -> bool).
Implicit Types (m : MemoryIndex).

Lemma Register_ok clock m ref m' reg :
  Register validRef clock m ref = (m', inr reg) ->
  mi_links m' = mi_links m /\ advances m m' /\ liveAt m' (keyOf ref) (IndexTime clock) /\
  keyOf (rg_Ref reg) = keyOf ref.
Proof.
  unfold Register. destruct (negb (validRef ref)); [done|].
  destruct (mi_objects m !! keyOf ref) as [o|] eqn:Ho.
  - destruct (negb _); [done|]. intros [= <- <-].
    set (o1 := if bool_decide _ then _ else o).
    assert (Hlive : mo_state (touch o1 (IndexTime clock)) = ObjectLive).
    { rewrite touch_state. subst o1. case_bool_decide as E; [done|]. by destruct (mo_state o). }
    pose proof (touch_at o1 (IndexTime clock)) as [Ha Hb].
    split_and!; [done| | |done].
    + eapply insert_advances; [done|]. intros at_ (o2 & E2 & _ & Hat). rewrite Ho in E2.
      injection E2 as <-. split; [done|]. enough (mo_lastRefAt o1 = mo_lastRefAt o) by lia. subst o1. by destruct (bool_decide _).
    + eexists. cbn. rewrite lookup_insert_eq. eauto.
  - intros [= <- <-]. split_and!; [done| | |done].
    + eapply insert_advances; [done|]. intros at_ (o2 & E2 & _). congruence.
    + eexists. cbn. rewrite lookup_insert_eq. split_and!; [done..|]. cbn. lia.
Qed.

Lemma Register_error clock m ref m' e : Register validRef clock m ref = (m', inl e) -> m' = m.
Proof.
  unfold Register. destruct (negb (validRef ref)); [by intros [= <- _]|].
  destruct (mi_objects m !! keyOf ref); [|done]. destruct (negb _); [by intros [= <- _]|done].
Qed.

Lemma Link_error clock m execID ref expireAt m' e :
  Link validRef validExecID clock m execID ref expireAt = (m', Some e) -> m' = m.
Proof.
  unfold Link. destruct (_ || _); [by intros [= <- _]|]. destruct (_ <=? _); [by intros [= <- _]|].
  destruct (mi_objects m !! keyOf ref); [|by intros [= <- _]]. case_decide; [by intros [= <- _]|done].
Qed.

(** A link only moves later, and only the caller's moves. *)
Lemma Link_ok clock m execID ref expireAt m' (key := keyOf ref) (at_ := IndexTime expireAt) :
  Link validRef validExecID clock m execID ref expireAt = (m', None) ->
  advances m m' /\ (exists t, liveAt m key t) /\
  (exists cur, linksOf m' key !! execID = Some cur /\ at_ <= cur) /\
  (forall k e cur, linksOf m k !! e = Some cur -> exists cur', linksOf m' k !! e = Some cur' /\ cur <= cur') /\
  (forall k e cur, linksOf m' k !! e = Some cur -> linksOf m k !! e = Some cur \/ k = key).
Proof.
  unfold Link. destruct (_ || _); [done|]. destruct (_ <=? _); [done|].
  destruct (mi_objects m !! keyOf ref) as [o|] eqn:Ho; [|done].
  case_decide as Hl; [done|]. intros [= <-].
  set (byExec := match _ with Some cur => _ | None => _ end).
  assert (Hby : exists cur, byExec !! execID = Some cur /\ at_ <= cur /\
            forall e old, linksOf m key !! e = Some old -> exists cur', byExec !! e = Some cur' /\ old <= cur').
  { subst byExec key at_. destruct (linksOf m (keyOf ref) !! execID) as [cur|] eqn:Ec.
    - destruct (Z.ltb_spec cur (IndexTime expireAt)).
      + eexists. rewrite lookup_insert_eq. split_and!; [done|lia|]. intros e old He.
        destruct (decide (e = execID)) as [->|Hne];
          [rewrite lookup_insert_eq; eexists; split; [done|simplify_eq; lia]|].
        rewrite lookup_insert_ne by done. eauto with lia.
      + exists cur. split_and!; [done|lia|]. eauto with lia.
    - eexists. rewrite lookup_insert_eq. split_and!; [done|lia|]. intros e old He.
      rewrite lookup_insert_ne by congruence. eauto with lia. }
  destruct Hby as (cur & Hcur & Hat & Hold).
  set (m' := m <| mi_links ::= _ |> <| mi_objects ::= _ |>).
  assert (Hlinks : forall k, linksOf m' k = if decide (k = key) then byExec else linksOf m k)
    by (intros k; by apply linksOf_insert).
  split_and!.
  - eapply insert_advances; [done|]. intros t (o2 & E2 & E3 & Ht). rewrite Ho in E2. injection E2 as <-.
    rewrite touch_state. split; [done|]. pose proof (touch_at o (IndexTime clock)). lia.
  - exists (mo_lastRefAt o), o. split_and!; [done..|lia].
  - exists cur. by rewrite Hlinks, decide_True.
  - intros k e old Hk. rewrite Hlinks. case_decide; [subst; eauto|eauto with lia].
  - intros k e old. rewrite Hlinks. case_decide; auto.
Qed.

(** Only an object without an unexpired link, idle for longer than the grace, is
    claimed. *)
Lemma Mark_ok clock m ref grace m' (key := keyOf ref) :
  (MarkDeleting validRef clock m ref grace).1 = m' ->
  mi_links m' = mi_links m /\
  (m' = m \/
   (forall e expireAt, linksOf m key !! e = Some expireAt -> expireAt <= IndexTime clock) /\
   (forall t, liveAt m key t -> t < IndexTime (IndexTime clock - grace)) /\
   forall k t, k <> key -> liveAt m k t -> liveAt m' k t).
Proof.
  unfold MarkDeleting. destruct (negb (validRef ref)); [by intros <-; auto|].
  destruct (negb _); [by intros <-; auto|].
  destruct (mi_objects m !! keyOf ref) as [o|] eqn:Ho; [|by intros <-; auto].
  case_decide; [|by intros <-; auto].
  destruct (isCandidateLocked m (keyOf ref) (IndexTime clock) grace) eqn:Hc; [|by intros <-; auto].
  intros <-. cbn. split; [done|right]. unfold isCandidateLocked in Hc. rewrite Ho in Hc.
  rewrite andb_true_iff, Z.ltb_lt, forallb_forall in Hc. destruct Hc as [Hage Hlinks]. split_and!.
  - intros e t He. specialize (Hlinks (e, t)). rewrite <- list_elem_of_In, elem_of_map_to_list in Hlinks.
    by apply Z.leb_le, Hlinks.
  - intros t (o2 & E2 & _ & Ht). subst key. rewrite Ho in E2. injection E2 as <-. lia.
  - intros k t Hk (o2 & E2). exists o2. cbn. by rewrite lookup_insert_ne.
Qed.

(** Only a claimed object loses its bytes, its row or its links. *)
Lemma Purge_ok m objects fence answer m' objects' err (key := keyOf (fe_Ref fence)) :
  Purge validRef m objects fence answer = (m', objects', err) ->
  (m' = m /\ objects' = objects) \/
  (forall t, ~ liveAt m key t) /\
  (forall k, k <> key -> objects' !! k = objects !! k /\ linksOf m' k = linksOf m k /\
     mi_objects m' !! k = mi_objects m !! k) /\
  (linksOf m' key = linksOf m key \/ linksOf m' key = ∅).
Proof.
  unfold Purge. destruct (_ || _); [by intros [= <- <- _]; auto|].
  destruct (mi_objects m !! keyOf (fe_Ref fence)) as [o|] eqn:Ho; [|by intros [= <- <- _]; auto].
  case_decide as Hd; [by intros [= <- <- _]; auto|].
  assert (Hdead : forall t, ~ liveAt m key t).
  { intros t (o2 & E2 & E3 & _). subst key. rewrite Ho in E2. injection E2 as <-.
    apply Hd. left. by rewrite E3. }
  destruct answer as [|[]|]; intros [= <- <- _]; auto; right; (split_and!; [done| |]); cbn.
  - intros k Hk. unfold linksOf. cbn. by rewrite !lookup_delete_ne.
  - right. unfold linksOf. cbn. by rewrite lookup_delete_eq.
  - intros k Hk. by rewrite lookup_delete_ne.
  - by left.
Qed.

(** Pruning removes expired links only. *)
Lemma pruneLoop_ok now limit removed order m m' n :
  pruneLoop now limit removed order m = (m', n) ->
  mi_objects m' = mi_objects m /\
  (forall k e t, linksOf m' k !! e = Some t -> linksOf m k !! e = Some t) /\
  (forall k e t, linksOf m k !! e = Some t -> now < t -> linksOf m' k !! e = Some t).
Proof.
  revert removed m. induction order as [|[key execID] order IH]; intros removed m; cbn;
    [by intros [= <- <-]|].
  destruct (_ =? _); [by intros [= <- <-]|].
  destruct (linksOf m key !! execID) as [expireAt|] eqn:He; [|by apply IH].
  destruct (Z.leb_spec expireAt now); [|by apply IH].
  set (m1 := m <| mi_links ::= _ |>). intros (H1 & H2 & H3)%IH.
  assert (Hl : forall k, linksOf m1 k = if decide (k = key) then delete execID (linksOf m key) else linksOf m k).
  { intros k. subst m1. unfold linksOf at 1. cbn.
    destruct (decide (delete execID (linksOf m key) = ∅)) as [Hemp|Hemp];
      destruct (decide (k = key)) as [->|Hk].
    - by rewrite lookup_delete_eq, Hemp.
    - by rewrite lookup_delete_ne.
    - by rewrite lookup_insert_eq.
    - by rewrite lookup_insert_ne. }
  split_and!; [done| |].
  - intros k e t Hk%H2. rewrite Hl in Hk. case_decide; [subst|done]. by apply lookup_delete_Some in Hk as [_ Hk].
  - intros k e t Hk Ht. apply H3; [|done]. rewrite Hl. case_decide; [subst|done].
    rewrite lookup_delete_ne; [done|]. intros ->. simplify_eq. lia.
Qed.
End operations.

(** ** What is kept *)

Definition sinceOf (w : writer) : option Time :=
  match w with
  | Storing _ since _ _ _ | Checking _ since _ _ | Linking _ since _ => Some since
  | _ => None
  end.

Definition writerRef (w : writer) : option Ref :=
  match w with
  | Storing _ _ ref _ _ | Checking _ _ ref _ | Linking _ _ ref | Externalized ref => Some ref
  | _ => None
  end.

Section kept.
Context (validRef : Ref -> bool) (validExecID : string -> bool) (payloads : list payload)
  (window : Duration).
Implicit Types (b : blobs) (m : MemoryIndex) (w : writer) (p : payload).

(** A linked object is live and has its bytes. *)
Definition links_ok (now : Time) m (objects : gmap memKey Z) : Prop :=
  forall key e t, linksOf m key !! e = Some t -> IndexTime now < t ->
    (exists a, liveAt m key a) /\ is_Some (objects !! key).

(** What a writer in its window, or one that has returned a ref, relies on. *)
Record writer_ok (now : Time) m (objects : gmap memKey Z) p w : Prop := {
  wo_window : forall since, sinceOf w = Some since -> now <= since + window ->
    liveAt m (keyOf (pl_ref p)) (IndexTime since);
  wo_stored : forall attempt since ref, w = Linking attempt since ref -> now <= since + window ->
    is_Some (objects !! keyOf (pl_ref p));
  wo_ref : forall ref, writerRef w = Some ref -> keyOf ref = keyOf (pl_ref p);
  wo_linked : forall ref, w = Externalized ref -> IndexTime now < IndexTime (pl_expireAt p) ->
    exists t, linksOf m (keyOf (pl_ref p)) !! pl_execID p = Some t /\ IndexTime (pl_expireAt p) <= t
}.

Record kept b : Prop := {
  k_links : links_ok (b_now b) (b_index b) (b_objects b);
  k_writers : forall i p w, payloads !! i = Some p -> b_writers b !! i = Some w ->
    writer_ok (b_now b) (b_index b) (b_objects b) p w
}.

(** The changes a writer's call makes for everybody else. *)
Record grows m (objects : gmap memKey Z) m' (objects' : gmap memKey Z) : Prop := {
  gr_live : advances m m';
  gr_bytes : forall k, is_Some (objects !! k) -> is_Some (objects' !! k);
  gr_kept : forall k e t, linksOf m k !! e = Some t ->
    exists t', linksOf m' k !! e = Some t' /\ t <= t';
  gr_new : forall k e t, linksOf m' k !! e = Some t -> linksOf m k !! e = Some t \/
    (exists a, liveAt m' k a) /\ is_Some (objects' !! k)
}.

Lemma grows_links now m objects m' objects' :
  grows m objects m' objects' -> links_ok now m objects -> links_ok now m' objects'.
Proof.
  intros [Hl Hb _ Hn] H key e t Ht Hnow. destruct (Hn _ _ _ Ht) as [Hold|]; [|done].
  destruct (H _ _ _ Hold Hnow) as [[a Ha] Ho]. split; [exists a; by apply Hl|by apply Hb].
Qed.

Lemma grows_writer now m objects m' objects' p w :
  grows m objects m' objects' -> writer_ok now m objects p w -> writer_ok now m' objects' p w.
Proof.
  intros [Hl Hb Hk _] []. split; [..|done|].
  - intros since H1 H2. apply Hl. eauto.
  - intros a s r H1 H2. apply Hb. eauto.
  - intros ref H1 H2. destruct (wo_linked0 ref H1 H2) as (t & Ht & Hle).
    destruct (Hk _ _ _ Ht) as (t' & Ht' & Hle'). exists t'. split; [done|lia].
Qed.

Lemma grows_refl m objects objects' :
  (forall k, is_Some (objects !! k) -> is_Some (objects' !! k)) -> grows m objects m objects'.
Proof. intros Hb. split; [by intros k a|done|eauto with lia|auto]. Qed.

(** A stage that carries no promise. *)
Lemma writer_ok_idle now m objects p w :
  sinceOf w = None -> writerRef w = None -> writer_ok now m objects p w.
Proof. intros H1 H2. split; intros; subst; cbn in *; congruence. Qed.

(** One call of a writer that links within its window. *)
Lemma writerStep_ok now p m objects fails w m' objects' w' :
  writerStep validRef validExecID now p m objects fails w = Some (m', objects', w') ->
  lateLink window now w = false -> writer_ok now m objects p w ->
  grows m objects m' objects' /\ writer_ok now m' objects' p w'.
Proof.
  intros E Hlate Hok. destruct w as [a|a s r ow t|a s r t|a s r|r| |e]; cbn in E; try done.
  - destruct (negb _); [simplify_eq; split; [by apply grows_refl|by apply writer_ok_idle]|].
    case_decide; [simplify_eq; split; [by apply grows_refl|by apply writer_ok_idle]|].
    destruct (Register validRef now m (pl_ref p)) as [m1 [e|reg]] eqn:Er; simplify_eq.
    + rewrite (Register_error _ _ _ _ _ _ Er). split; [by apply grows_refl|by apply writer_ok_idle].
    + destruct (Register_ok _ _ _ _ _ _ Er) as (Hl & Ha & Hlive & Hkey).
      assert (Hlinks : forall k, linksOf m' k = linksOf m k) by (intros k; unfold linksOf; by rewrite Hl).
      split.
      * split; [done|done|intros k e t; rewrite Hlinks; eauto with lia|intros k e t; rewrite Hlinks; auto].
      * split; cbn; [|done| |done]; [by intros s [= <-]|by intros r [= <-]].
  - destruct fails; [simplify_eq; split; [by apply grows_refl|by apply writer_ok_idle]|].
    destruct (ow || _) eqn:Hput; simplify_eq.
    + assert (Hg : grows m' objects m' (<[keyOf (pl_ref p) := 1 + r_Stored (pl_ref p)]> objects)).
      { apply grows_refl. intros k Hk. destruct (decide (k = keyOf (pl_ref p))) as [->|Hne];
          [by rewrite lookup_insert_eq|by rewrite lookup_insert_ne]. }
      split; [done|]. destruct Hok. split; cbn; [done| |done|done].
      intros _ _ _ _ _. by rewrite lookup_insert_eq.
    + split; [by apply grows_refl|]. destruct Hok. by split.
  - destruct fails; [simplify_eq; split; [by apply grows_refl|by apply writer_ok_idle]|].
    destruct (objects !! keyOf (pl_ref p)) as [len|] eqn:Ho.
    + destruct (implausible _ _); simplify_eq; (split; [by apply grows_refl|]);
        [by apply writer_ok_idle|]. destruct Hok. split; [done| |done|done]. by intros _ _ _ _ _; eexists.
    + case_decide; simplify_eq; (split; [by apply grows_refl|]); [|by apply writer_ok_idle].
      destruct Hok. by split.
  - destruct (Link validRef validExecID now m (pl_execID p) r (pl_expireAt p)) as [m1 [e|]] eqn:El.
    + rewrite (Link_error _ _ _ _ _ _ _ _ _ El) in E. case_decide; simplify_eq;
        (split; [by apply grows_refl|by apply writer_ok_idle]).
    + simplify_eq. destruct (Link_ok _ _ _ _ _ _ _ _ El) as (Ha & _ & Hlink & Hkeep & Hnew).
      cbn in Hlate. rewrite Z.ltb_ge in Hlate. destruct Hok as [Hw Hs Hr _].
      rewrite (Hr r eq_refl) in *. split.
      * split; [done|done|done|]. intros k e t Hk. destruct (Hnew k e t Hk) as [|Hkey]; [by left|].
        right. rewrite Hkey. split; [eexists; by apply Ha, Hw|by eapply Hs].
      * split; cbn; [done|done|by intros ? [= <-]; apply Hr|by intros ? [= <-] _].
Qed.

Lemma kept_write b i p w m' objects' w' late :
  payloads !! i = Some p -> b_writers b !! i = Some w ->
  grows (b_index b) (b_objects b) m' objects' -> writer_ok (b_now b) m' objects' p w' -> kept b ->
  kept (b <| b_index := m' |> <| b_objects := objects' |> <| b_writers ::= <[i := w']> |>
          <| b_late := late |>).
Proof.
  intros Hp Hw Hg Hok [Hl Hws]. split; cbn; [by eapply grows_links|].
  intros j q v Hq Hv. apply list_lookup_insert_Some in Hv as [(-> & -> & _)|(_ & Hv)].
  - by simplify_eq.
  - eapply grows_writer; [done|]. eauto.
Qed.

Lemma kept_tick b d : 0 <= d -> kept b -> kept (b <| b_now ::= Z.add d |>).
Proof.
  intros Hd [Hl Hws]. pose proof (IndexTime_mono (b_now b) (d + b_now b)).
  split; cbn; [intros key e t Ht Hnow; eapply Hl; [done|lia]|].
  intros i p w Hp Hw. destruct (Hws i p w Hp Hw). split; [..|done|].
  - intros since H1 H2. apply wo_window0; [done|lia].
  - intros a s r H1 H2. eapply wo_stored0; [done|lia].
  - intros ref H1 H2. eapply wo_linked0; [done|lia].
Qed.

(** A claim meets no link and no writer in its window. *)
Lemma kept_claim b ref grace :
  window <= grace -> kept b ->
  kept (b <| b_index := (MarkDeleting validRef (b_now b) (b_index b) ref grace).1 |>).
Proof.
  intros Hg [Hl Hws]. destruct (Mark_ok validRef (b_now b) (b_index b) ref grace _ eq_refl) as [Hlk Hcase].
  set (m' := (MarkDeleting _ _ _ _ _).1) in *.
  assert (Hlinks : forall k, linksOf m' k = linksOf (b_index b) k)
    by (intros k; unfold linksOf; by rewrite Hlk).
  destruct Hcase as [->|(Hold & Hage & Hother)]; [by split|].
  split; cbn.
  - intros key e t. rewrite Hlinks. intros Ht Hnow. destruct (decide (key = keyOf ref)) as [->|Hne].
    { specialize (Hold _ _ Ht). lia. }
    destruct (Hl _ _ _ Ht Hnow) as [[a Ha] Ho]. split; [exists a; by apply Hother|done].
  - intros i p w Hp Hw. destruct (Hws i p w Hp Hw). split; [|done|done|by rewrite Hlinks].
    intros since H1 H2. specialize (wo_window0 since H1 H2).
    destruct (decide (keyOf (pl_ref p) = keyOf ref)) as [E|Hne]; [|by apply Hother].
    rewrite E in wo_window0. apply Hage in wo_window0.
    pose proof (IndexTime_le (b_now b)). pose proof (IndexTime_mono (IndexTime (b_now b) - grace) since). lia.
Qed.

Lemma kept_purge b fence answer m' objects' err :
  Purge validRef (b_index b) (b_objects b) fence answer = (m', objects', err) -> kept b ->
  kept (b <| b_index := m' |> <| b_objects := objects' |>).
Proof.
  intros E [Hl Hws]. destruct (Purge_ok _ _ _ _ _ _ _ _ E) as [[-> ->]|(Hdead & Hother & Hlk)]; [by split|].
  assert (Hnot : forall k a, liveAt (b_index b) k a -> k <> keyOf (fe_Ref fence)).
  { intros k a Ha ->. by destruct (Hdead a). }
  assert (Hlive : forall k a, liveAt (b_index b) k a -> liveAt m' k a).
  { intros k a Ha. destruct (Hother k (Hnot k a Ha)) as (_ & _ & Hm). destruct Ha as (o & Ho).
    exists o. by rewrite Hm. }
  split; cbn.
  - intros key e t Ht Hnow. destruct (decide (key = keyOf (fe_Ref fence))) as [->|Hne].
    { destruct Hlk as [Hlk|Hlk]; rewrite Hlk in Ht; [|by rewrite lookup_empty in Ht].
      destruct (Hl _ _ _ Ht Hnow) as [[a Ha] _]. by destruct (Hdead a). }
    destruct (Hother key Hne) as (Hob & Hlo & _). rewrite Hlo in Ht. rewrite Hob.
    destruct (Hl _ _ _ Ht Hnow) as [[a Ha] Ho]. split; [exists a; by apply Hlive|done].
  - intros i p w Hp Hw. destruct (Hws i p w Hp Hw). split; [by eauto| |done|].
    + intros a s r H1 H2. assert (Hne : keyOf (pl_ref p) <> keyOf (fe_Ref fence)).
      { eapply Hnot, wo_window0; [by rewrite H1|done]. }
      destruct (Hother _ Hne) as (-> & _ & _). eauto.
    + intros r H1 H2. destruct (wo_linked0 r H1 H2) as (t & Ht & Hle). exists t. split; [|done].
      destruct (Hl _ _ _ Ht) as [[a Ha] _]; [lia|]. destruct (Hother _ (Hnot _ _ Ha)) as (_ & -> & _). done.
Qed.

Lemma kept_prune b order limit :
  kept b -> kept (b <| b_index := (PruneLinks (b_now b) order (b_index b) limit).1 |>).
Proof.
  intros [Hl Hws]. unfold PruneLinks. destruct (limit <=? 0); [by split|].
  destruct (pruneLoop _ _ _ _ _) as [m' n] eqn:E. destruct (pruneLoop_ok _ _ _ _ _ _ _ E) as (Ho & H1 & H2).
  assert (Hlive : forall k a, liveAt (b_index b) k a -> liveAt m' k a).
  { intros k a (o & H). exists o. by rewrite Ho. }
  split; cbn.
  - intros key e t Ht Hnow. destruct (Hl _ _ _ (H1 _ _ _ Ht) Hnow) as [[a Ha] Hob].
    split; [exists a; by apply Hlive|done].
  - intros i p w Hp Hw. destruct (Hws i p w Hp Hw). split; [by eauto|done|done|].
    intros r E1 E2. destruct (wo_linked0 r E1 E2) as (t & Ht & Hle). exists t. split; [|done].
    apply H2; [done|lia].
Qed.

Lemma blobStep_kept e b b' :
  blobStep validRef validExecID payloads window e b = Some b' -> b_late b' = false ->
  b_late b = false /\ (kept b -> kept b').
Proof.
  intros E Hlate. destruct e; cbn in E.
  - destruct (Z.leb_spec 0 d); [|done]. injection E as <-. split; [done|]. by apply kept_tick.
  - destruct (payloads !! i) as [p|] eqn:Hp; [|done]. destruct (b_writers b !! i) as [w|] eqn:Hw; [|done].
    destruct (writerStep _ _ _ _ _ _ _ _) as [[[m' objects'] w']|] eqn:Ew; [|done].
    injection E as <-. cbn in Hlate. apply orb_false_iff in Hlate as [H1 H2]. split; [done|]. intros Hk.
    destruct (writerStep_ok _ _ _ _ _ _ _ _ _ Ew H1) as [Hg Hok]; [by apply (k_writers _ Hk i)|].
    by eapply kept_write.
  - injection E as <-. cbn in Hlate. apply orb_false_iff in Hlate as [H1%Z.ltb_ge H2]. split; [done|].
    intros Hk. destruct (kept_claim b ref grace H1 Hk). by split.
  - destruct (Purge _ _ _ _ _) as [[m' objects'] err] eqn:Ep. injection E as <-. split; [done|].
    by eapply kept_purge.
  - injection E as <-. split; [done|]. apply kept_prune.
Qed.

Lemma start_kept now n : kept (startBlobs now n).
Proof.
  split; cbn; [intros key e t; unfold linksOf; cbn; by rewrite !lookup_empty|].
  intros i p w _ [-> _]%lookup_replicate. by apply writer_ok_idle.
Qed.

Lemma run_kept es b b' :
  blobRun validRef validExecID payloads window es b = Some b' -> b_late b' = false -> kept b -> kept b'.
Proof.
  enough (forall b, blobRun validRef validExecID payloads window es b = Some b' -> b_late b' = false ->
            b_late b = false /\ (kept b -> kept b')) as H by (intros; by apply (H b)).
  clear b. induction es as [|e es IH]; intros b E Hl; [injection E as <-; auto|].
  cbn in E. destruct (blobStep _ _ _ _ e b) as [b1|] eqn:E1; [|done]. cbn in E.
  destruct (IH b1 E Hl) as [Hl1 H1]. destruct (blobStep_kept _ _ _ E1 Hl1). auto.
Qed.
End kept.

(** ** What is collected *)

Lemma candidate_spec m key now grace :
  isCandidateLocked m key now grace = true <->
  exists o, mi_objects m !! key = Some o /\ mo_lastRefAt o < IndexTime (now - grace) /\
    forall e t, linksOf m key !! e = Some t -> t <= now.
Proof.
  unfold isCandidateLocked. destruct (mi_objects m !! key) as [o|]; [|by split; [|intros (? & ? & _)]].
  rewrite andb_true_iff, Z.ltb_lt, forallb_forall. split.
  - intros [H1 H2]. exists o. split_and!; [done..|]. intros e t He. specialize (H2 (e, t)).
    rewrite <- list_elem_of_In, elem_of_map_to_list in H2. by apply Z.leb_le, H2.
  - intros (? & [= <-] & H1 & H2). split; [done|]. intros [e t]. rewrite <- list_elem_of_In, elem_of_map_to_list.
    intros He. by apply Z.leb_le, (H2 e).
Qed.

(** Time makes no candidate ineligible, and neither does the loss of links. *)
Lemma candidate_mono m m' key now now' grace :
  isCandidateLocked m key now grace = true -> now <= now' ->
  mi_objects m' !! key = mi_objects m !! key ->
  (forall e t, linksOf m' key !! e = Some t -> linksOf m key !! e = Some t \/ t <= now') ->
  isCandidateLocked m' key now' grace = true.
Proof.
  rewrite !candidate_spec. intros (o & Ho & Ha & Hl) Hle Hm Hk. exists o. rewrite Hm. split_and!; [done| |].
  - pose proof (IndexTime_mono (now - grace) (now' - grace)). lia.
  - intros e t Ht. destruct (Hk e t Ht) as [H%Hl|H]; lia.
Qed.

Section collecting.
Context (validRef : Ref -> bool) (grace : Duration) (batch : Z).
Context (Hgrace : 0 < grace) (Hbatch : 0 < batch).
Implicit Types (m : MemoryIndex) (ks : list memKey) (inp : passInput).

(** Every recorded ref has passed the shape check. *)
Definition index_ok m : Prop :=
  map_Forall (fun key o => validRef (refOf key o) = true /\ 1 <= mo_generation o) (mi_objects m).

(** Objects [ks] are gone, with their bytes; the others are as they were, except
    for links that had expired at [t]. *)
Record removed ks (t : Time) (st st' : blobState) : Prop := {
  rm_objects : forall k, mi_objects st'.1 !! k = if decide (k ∈ ks) then None else mi_objects st.1 !! k;
  rm_bytes : forall k, st'.2 !! k = if decide (k ∈ ks) then None else st.2 !! k;
  rm_links : forall k e x, linksOf st'.1 k !! e = Some x -> linksOf st.1 k !! e = Some x;
  rm_kept : forall k e x, k ∉ ks -> linksOf st.1 k !! e = Some x -> t < x -> linksOf st'.1 k !! e = Some x
}.

Lemma collect_one clock m objects key o :
  index_ok m -> mi_objects m !! key = Some o ->
  isCandidateLocked m key (IndexTime clock) grace = true ->
  exists m1 fence m2,
    MarkDeleting validRef clock m (refOf key o) grace = (m1, inr fence) /\
    keyOf (fe_Ref fence) = key /\
    Purge validRef m1 objects fence Deleted = (m2, delete key objects, None) /\
    mi_objects m2 = delete key (mi_objects m) /\ mi_links m2 = delete key (mi_links m).
Proof.
  intros Hok Ho Hc. destruct (Hok key o Ho) as [Hv Hg].
  assert (Hk : keyOf (refOf key o) = key) by (by destruct key).
  unfold MarkDeleting. rewrite Hv, Hk, Ho, Hc. cbn [negb].
  assert (Ha : ValidateGCArgs grace 1 = true) by (unfold ValidateGCArgs; apply andb_true_iff; lia).
  rewrite Ha. cbn [negb]. set (fence := mkFence (refOf key o) (mo_generation o)).
  assert (Hp : forall m1 o1, mi_objects m1 !! key = Some o1 -> mo_state o1 = ObjectDeleting ->
    mo_generation o1 = mo_generation o ->
    Purge validRef m1 objects fence Deleted =
      (m1 <| mi_objects ::= delete key |> <| mi_links ::= delete key |>, delete key objects, None)).
  { intros m1 o1 H1 H2 H3. unfold Purge. subst fence. cbn [fe_Ref fe_Generation]. rewrite Hv, Hk, H1. cbn [negb orb].
    destruct (Z.ltb_spec (mo_generation o) 1); [lia|]. rewrite decide_False; [done|].
    intros [?|?]; congruence. }
  case_decide as Hs.
  - eexists _, fence, _. split_and!; [done|done|eapply Hp; [apply lookup_insert_eq|done..]| |done].
    cbn. by rewrite delete_insert_eq.
  - eexists _, fence, _. split_and!; [done|done|eapply Hp; [done| |done]|done|done].
    by destruct (mo_state o).
Qed.

Lemma linksOf_delete m m' key k :
  mi_links m' = delete key (mi_links m) -> linksOf m' k = if decide (k = key) then ∅ else linksOf m k.
Proof.
  intros E. unfold linksOf. rewrite E. case_decide; [subst; by rewrite lookup_delete_eq|].
  by rewrite lookup_delete_ne.
Qed.

Lemma removed_first k ks t m objects m2 st' :
  mi_objects m2 = delete k (mi_objects m) -> mi_links m2 = delete k (mi_links m) ->
  removed ks t (m2, delete k objects) st' -> removed (k :: ks) t (m, objects) st'.
Proof.
  intros Eo El [H1 H2 H3 H4]. cbn in *.
  assert (Hd : forall A (x : gmap memKey A) q,
    (if decide (q ∈ ks) then None else delete k x !! q) = if decide (q ∈ k :: ks) then None else x !! q).
  { intros A x q. destruct (decide (q = k)) as [->|Hq].
    - rewrite lookup_delete_eq, (decide_True (P := k ∈ k :: ks)) by (by left). by case_decide.
    - rewrite lookup_delete_ne by done. destruct (decide (q ∈ ks)); [by rewrite decide_True by (by right)|].
      rewrite decide_False; [done|]. by intros [|]%elem_of_cons. }
  split; cbn.
  - intros q. by rewrite H1, Eo, Hd.
  - intros q. by rewrite H2, Hd.
  - intros q e x Hx%H3. rewrite (linksOf_delete _ _ _ _ El) in Hx. by case_decide.
  - intros q e x Hq Hx Ht. apply not_elem_of_cons in Hq as [Hq1 Hq2]. apply H4; [done| |done].
    by rewrite (linksOf_delete _ _ _ _ El), decide_False.
Qed.

Lemma collectLoop_exact inp ks i m objects res :
  NoDup ks -> index_ok m -> (forall k, pi_answer inp k = Deleted) ->
  (forall k, k ∈ ks -> forall j, (i <= j)%nat ->
     isCandidateLocked m k (IndexTime (pi_clock inp j)) grace = true) ->
  cr_Failed res = 0 ->
  exists st',
    collectLoop validRef grace inp i (omap (fun key => refOf key <$> mi_objects m !! key) ks) (m, objects) res =
      (st', res <| cr_Deleted ::= Z.add (Z.of_nat (length ks)) |>, None) /\
    forall t, removed ks t (m, objects) st'.
Proof.
  revert i m objects res. induction ks as [|k ks IH]; intros i m objects res Hn Hok Hans Hc Hf.
  { exists (m, objects). cbn. rewrite Hf. split; [by destruct res|]. split; try done; intros k;
      by rewrite decide_False by apply not_elem_of_nil. }
  apply NoDup_cons in Hn as [Hk Hn].
  pose proof (Hc k (list_elem_of_here _ _) i (le_n _)) as Hck.
  pose proof (proj1 (candidate_spec _ _ _ _) Hck) as (o & Ho & _).
  destruct (collect_one _ m objects k o Hok Ho Hck) as (m1 & fence & m2 & Em & Ek & Ep & Eo & El).
  assert (Erefs : omap (fun key => refOf key <$> mi_objects m !! key) ks =
                  omap (fun key => refOf key <$> mi_objects m2 !! key) ks).
  { apply list_omap_ext, Forall_Forall2_diag, Forall_forall. intros q Hq.
    rewrite Eo, lookup_delete_ne; [done|]. by intros ->. }
  destruct (IH (S i) m2 (delete k objects) (res <| cr_Deleted ::= Z.succ |>) Hn) as (st' & E' & Hrm); [..|done|].
  - intros q x. rewrite Eo. intros [_ Hx]%lookup_delete_Some. by apply Hok.
  - done.
  - intros q Hq j Hj. assert (Hne : q <> k) by (by intros ->).
    eapply (candidate_mono m); [apply (Hc q (list_elem_of_further _ _ _ Hq) j); lia|lia|..].
    + by rewrite Eo, lookup_delete_ne.
    + intros e t. rewrite (linksOf_delete _ _ _ _ El), decide_False by done. auto.
  - exists st'. cbn [omap list_omap]. rewrite Ho. cbn [fmap option_fmap option_map collectLoop].
    rewrite Em, Ek, Hans, Ep, Erefs, E'. split.
    { do 2 f_equal. refine (f_equal (fun n => res <| cr_Deleted := n |>)
        (x := Z.of_nat (length ks) + Z.succ (cr_Deleted res))
        (y := Z.of_nat (length (k :: ks)) + cr_Deleted res) _). cbn [length]. lia. }
    intros t. by eapply removed_first.
Qed.

(** Pruning at an earlier instant changes no candidate. *)
Lemma candidateKeys_pruned clock t limit order m m' n :
  pruneLoop (IndexTime t) limit 0 order m = (m', n) -> t <= clock ->
  candidateKeys clock m' grace = candidateKeys clock m grace.
Proof.
  intros (Ho & H1 & H2)%pruneLoop_ok Ht. pose proof (IndexTime_mono t clock Ht).
  unfold candidateKeys. rewrite Ho. f_equal. apply filter_ext_in. intros k _.
  split; intros Hc; (eapply candidate_mono; [exact Hc|lia|by rewrite Ho|]); intros e x Hx; [|by left; apply H1].
  destruct (decide (IndexTime t < x)); [left; by apply H2|right; lia].
Qed.

Lemma candidateKeys_spec clock m :
  NoDup (candidateKeys clock m grace) /\
  forall k, k ∈ candidateKeys clock m grace <-> isCandidateLocked m k (IndexTime clock) grace = true.
Proof.
  assert (Hp : candidateKeys clock m grace ≡ₚ
    filter (fun key => isCandidateLocked m key (IndexTime clock) grace = true) (map_to_list (mi_objects m)).*1)
    by apply merge_sort_Permutation.
  split; [rewrite Hp; by apply NoDup_filter, NoDup_fst_map_to_list|]. intros k.
  rewrite Hp, list_elem_of_filter. split; [by intros [? _]|]. intros Hc. split; [done|].
  apply candidate_spec in Hc as (o & Ho & _). apply list_elem_of_fmap. exists (k, o). split; [done|].
  by apply elem_of_map_to_list.
Qed.

(** The clock of a pass does not run backwards. *)
Definition monotone inp : Prop := forall i j, (i <= j)%nat -> pi_clock inp i <= pi_clock inp j.

Definition victims inp m : list memKey :=
  take (Z.to_nat batch) (candidateKeys (pi_clock inp 1) m grace).

Lemma victims_spec inp m :
  NoDup (victims inp m) /\
  (forall k, k ∈ victims inp m -> isCandidateLocked m k (IndexTime (pi_clock inp 1)) grace = true) /\
  (Z.of_nat (length (victims inp m)) <> batch ->
   forall k, isCandidateLocked m k (IndexTime (pi_clock inp 1)) grace = true -> k ∈ victims inp m).
Proof using Hbatch.
  unfold victims. destruct (candidateKeys_spec (pi_clock inp 1) m) as [Hn Hk]. split_and!.
  - by apply NoDup_take.
  - intros k Hin. apply Hk. rewrite <- (take_drop (Z.to_nat batch)), elem_of_app. by left.
  - rewrite length_take. intros Hl k Hc%Hk. rewrite take_ge; [done|]. lia.
Qed.

(** A pass removes its victims, and says so. *)
Lemma Run_exact inp m objects (vs := victims inp m) :
  index_ok m -> monotone inp -> (forall k, pi_answer inp k = Deleted) ->
  exists st' pruned,
    Run validRef grace batch inp (m, objects) =
      (st', mkCollect pruned (Z.of_nat (length vs)) (Z.of_nat (length vs)) 0 0 0, None) /\
    removed vs (IndexTime (pi_clock inp 0)) (m, objects) st'.
Proof.
  intros Hok Hmono Hans. unfold Run, PruneLinks. destruct (Z.leb_spec batch 0); [lia|].
  destruct (pruneLoop _ _ _ _ _) as [m1 pruned] eqn:Epr.
  destruct (pruneLoop_ok _ _ _ _ _ _ _ Epr) as (Ho & Hl1 & Hl2).
  unfold Candidates. assert (Ha : ValidateGCArgs grace batch = true)
    by (unfold ValidateGCArgs; apply andb_true_iff; lia). rewrite Ha. cbn [negb].
  rewrite (candidateKeys_pruned _ _ _ _ _ _ _ Epr) by (apply Hmono; lia). fold (victims inp m). fold vs.
  destruct (victims_spec inp m) as (Hn & Hv & _).
  destruct (collectLoop_exact inp vs 2 m1 objects (mkCollect pruned (Z.of_nat (length vs)) 0 0 0 0))
    as (st' & E & Hrm); [done|by unfold index_ok; rewrite Ho|done| |done|].
  - intros k Hk j Hj. eapply (candidate_mono m); [by apply Hv| |by rewrite Ho|].
    + apply IndexTime_mono, Hmono. lia.
    + intros e x Hx. left. by apply Hl1.
  - exists st', pruned. split.
    + assert (Hlen : length (omap (fun key => refOf key <$> mi_objects m1 !! key) vs) = length vs).
      { clear -Hv Ho. subst vs. induction (victims inp m) as [|k l IH]; [done|]. cbn [omap list_omap].
        destruct (proj1 (candidate_spec _ _ _ _) (Hv k (list_elem_of_here _ _))) as (o & Hk & _).
        rewrite Ho, Hk. cbn. f_equal. rewrite <- Ho. apply IH. intros q Hq. apply Hv. by right. }
      rewrite Hlen. cbv [upd]. cbn. rewrite E. cbv [upd]. cbn. by rewrite Z.add_0_r.
    + destruct (Hrm (IndexTime (pi_clock inp 0))) as [H1 H2 H3 H4]. cbn in *. rewrite Ho in H1.
      split; cbn; [done..| |]; [intros k e x Hx; by apply Hl1, H3|].
      intros k e x Hk Hx Ht. apply H4; [done|by apply Hl2|done].
Qed.

Lemma removed_size ks t st st' :
  NoDup ks -> (forall k, k ∈ ks -> is_Some (mi_objects st.1 !! k)) -> removed ks t st st' ->
  (size (mi_objects st'.1) + length ks = size (mi_objects st.1))%nat.
Proof.
  intros Hn Hin [Ho _ _ _]. revert Hn Hin Ho. generalize (mi_objects st.1) (mi_objects st'.1).
  induction ks as [|k ks IH]; intros a b Hn Hin Ho.
  - rewrite Nat.add_0_r. f_equal. apply map_eq. intros k. rewrite Ho. by rewrite decide_False by apply not_elem_of_nil.
  - apply NoDup_cons in Hn as [Hk Hn]. destruct (Hin k (list_elem_of_here _ _)) as [o Hok].
    rewrite <- (insert_delete_id a k o), map_size_insert_None by (done || apply lookup_delete_eq).
    rewrite <- (IH (delete k a) b Hn); [cbn; lia| |].
    + intros q Hq. rewrite lookup_delete_ne by (by intros ->). apply Hin. by right.
    + intros q. rewrite Ho. destruct (decide (q = k)) as [->|Hqk].
      * rewrite decide_True by (by left). by rewrite lookup_delete_eq, decide_False.
      * rewrite lookup_delete_ne by done. destruct (decide (q ∈ ks)); [by rewrite decide_True by (by right)|].
        rewrite decide_False; [done|]. by intros [|]%elem_of_cons.
Qed.

(** Neither does the clock run backwards from one pass to the next. *)
Definition paced (pass : nat -> passInput) : Prop :=
  forall i j a b, (i < j)%nat \/ i = j /\ (a <= b)%nat -> pi_clock (pass i) a <= pi_clock (pass j) b.

(** What the passes from [i] on do to the store. *)
Record collected (pass : nat -> passInput) (i : nat) (st st' : blobState) : Prop := {
  cl_gone : forall k, isCandidateLocked st.1 k (IndexTime (pi_clock (pass i) 1)) grace = true ->
    mi_objects st'.1 !! k = None /\ st'.2 !! k = None;
  cl_kept : forall k o, mi_objects st.1 !! k = Some o ->
    mi_objects st'.1 !! k = Some o /\ st'.2 !! k = st.2 !! k \/
    (mi_objects st'.1 !! k = None /\ st'.2 !! k = None /\
     exists j, (i <= j)%nat /\ isCandidateLocked st.1 k (IndexTime (pi_clock (pass j) 1)) grace = true);
  cl_other : forall k, mi_objects st.1 !! k = None ->
    mi_objects st'.1 !! k = None /\ st'.2 !! k = st.2 !! k
}.

(** A pass that examined less than a batch. *)
Lemma collected_last pass i m objects st' (vs := victims (pass i) m) :
  Z.of_nat (length vs) <> batch -> removed vs (IndexTime (pi_clock (pass i) 0)) (m, objects) st' ->
  collected pass i (m, objects) st'.
Proof.
  intros Hlen [H1 H2 _ _]. destruct (victims_spec (pass i) m) as (_ & Hv & Hall). cbn in *. split; cbn.
  - intros k Hk. by rewrite H1, H2, !decide_True by (by apply Hall).
  - intros k o Hk. rewrite H1, H2. case_decide as Hin; [right|by left]. split_and!; [done..|].
    exists i. split; [lia|by apply Hv].
  - intros k Hk. rewrite H1, H2. case_decide as Hin; [|done].
    apply Hv, candidate_spec in Hin as (o & Ho & _). congruence.
Qed.

(** A full one is followed by another. *)
Lemma collected_more pass i m objects st1 st' (vs := victims (pass i) m) :
  paced pass -> removed vs (IndexTime (pi_clock (pass i) 0)) (m, objects) st1 ->
  collected pass (S i) st1 st' -> collected pass i (m, objects) st'.
Proof.
  intros Hp [H1 H2 H3 H4] [C1 C2 C3]. destruct (victims_spec (pass i) m) as (_ & Hv & _). cbn in *.
  assert (Hvict : forall k, k ∈ vs -> mi_objects st'.1 !! k = None /\ st'.2 !! k = None).
  { intros k Hk. assert (E : mi_objects st1.1 !! k = None) by (by rewrite H1, decide_True).
    destruct (C3 k E) as [-> ->]. by rewrite H2, decide_True. }
  assert (Hnv : forall k, k ∉ vs -> mi_objects st1.1 !! k = mi_objects m !! k /\ st1.2 !! k = objects !! k).
  { intros k Hk. by rewrite H1, H2, !decide_False. }
  split; cbn.
  - intros k Hk. destruct (decide (k ∈ vs)) as [Hin|Hin]; [by apply Hvict|]. destruct (Hnv k Hin) as [Eo _].
    apply C1. eapply (candidate_mono m); [exact Hk| |done|intros e x Hx; left; by apply H3].
    apply IndexTime_mono, Hp. left. lia.
  - intros k o Hk. destruct (decide (k ∈ vs)) as [Hin|Hin].
    { right. destruct (Hvict k Hin) as [-> ->]. split_and!; [done..|]. exists i. split; [lia|]. by apply Hv. }
    destruct (Hnv k Hin) as [Eo Eb]. rewrite <- Eo in Hk. rewrite <- Eb.
    destruct (C2 k o Hk) as [?|(? & ? & j & Hj & Hc)]; [by left|right]. split_and!; [done..|]. exists j.
    split; [lia|]. eapply candidate_mono; [exact Hc|lia|by rewrite Eo|]. intros e x Hx.
    destruct (decide (IndexTime (pi_clock (pass i) 0) < x)); [left; by apply H4|right].
    pose proof (IndexTime_mono (pi_clock (pass i) 0) (pi_clock (pass j) 1)) as Hm.
    specialize (Hm ltac:(apply Hp; left; lia)). lia.
  - intros k Hk. destruct (decide (k ∈ vs)) as [Hin|Hin].
    { apply Hv, candidate_spec in Hin as (o & Ho & _). congruence. }
    destruct (Hnv k Hin) as [Eo Eb]. rewrite <- Eb. apply C3. congruence.
Qed.

Lemma gcTick_collects runs pass i m objects :
  index_ok m -> paced pass -> (forall j k, pi_answer (pass j) k = Deleted) ->
  Z.of_nat (size (mi_objects m)) < Z.of_nat runs * batch ->
  exists st', gcTick validRef grace batch runs pass i (m, objects) = (st', true) /\
    collected pass i (m, objects) st'.
Proof.
  revert i m objects. induction runs as [|runs IH]; intros i m objects Hok Hp Hans Hsize; [lia|].
  destruct (Run_exact (pass i) m objects Hok) as (st1 & pruned & E & Hrm);
    [intros a b Hab; apply Hp; by right|done|].
  cbn [gcTick]. rewrite E. cbn [cr_Candidates]. destruct (Z.eqb_spec (Z.of_nat (length (victims (pass i) m))) batch)
    as [Hlen|Hlen]; [|exists st1; split; [done|by eapply collected_last]].
  destruct (victims_spec (pass i) m) as (Hn & Hv & _).
  assert (Hsz := removed_size _ (IndexTime (pi_clock (pass i) 0)) (m, objects) st1 Hn).
  destruct st1 as [m1 objects1]. cbn in Hsz. destruct (IH (S i) m1 objects1) as (st' & E' & Hc); [|done|done| |].
  - intros k o Ho. pose proof (rm_objects _ _ _ _ Hrm k) as Hk. cbn in Hk. rewrite Hk in Ho.
    case_decide; [done|]. by apply Hok.
  - rewrite <- Hsz in Hsize; [lia| |done]. intros k (o & Ho & _)%Hv%candidate_spec. eauto.
  - exists st'. split; [done|]. by eapply collected_more.
Qed.
End collecting.

(** ** Recorded refs are well formed *)

Section recorded.
Context (validRef : Ref -> bool) (validExecID : string -> bool) (payloads : list payload)
  (window : Duration).
Implicit Types (m : MemoryIndex).

Lemma index_ok_insert m m' key o :
  mi_objects m' = <[key := o]> (mi_objects m) -> validRef (refOf key o) = true -> 1 <= mo_generation o ->
  index_ok validRef m -> index_ok validRef m'.
Proof. intros E Hv Hg Hok. unfold index_ok. rewrite E. by apply map_Forall_insert_2. Qed.

Lemma touch_generation o now : mo_generation (touch o now) = mo_generation o.
Proof. unfold touch. by destruct (_ <? _). Qed.

Lemma Register_index_ok clock m ref :
  index_ok validRef m -> index_ok validRef (Register validRef clock m ref).1.
Proof.
  intros Hok. unfold Register. destruct (validRef ref) eqn:Hv; [|done]. cbn [negb].
  assert (Href : forall o, mo_size o = r_Size ref -> mo_stored o = r_Stored ref -> mo_codec o = r_Codec ref ->
            refOf (keyOf ref) o = ref) by (intros o H1 H2 H3; destruct ref; unfold refOf; cbn in *; congruence).
  destruct (mi_objects m !! keyOf ref) as [o|] eqn:Ho.
  - destruct (Hok _ _ Ho) as [Hvo Hgo].
    destruct (Z.eqb_spec (mo_size o) (r_Size ref)) as [Hs|]; [|done]. cbn [negb].
    eapply index_ok_insert; [done|..|done].
    + rewrite touch_ref. case_bool_decide; [|done]. by rewrite Href.
    + rewrite touch_generation. case_bool_decide; cbn; lia.
  - eapply index_ok_insert; [done|by rewrite Href|done|done].
Qed.

Lemma Link_index_ok clock m execID ref expireAt :
  index_ok validRef m -> index_ok validRef (Link validRef validExecID clock m execID ref expireAt).1.
Proof.
  intros Hok. unfold Link. destruct (_ || _); [done|]. destruct (_ <=? _); [done|].
  destruct (mi_objects m !! keyOf ref) as [o|] eqn:Ho; [|done]. case_decide; [done|].
  destruct (Hok _ _ Ho). eapply index_ok_insert; [done|by rewrite touch_ref|by rewrite touch_generation|done].
Qed.

Lemma Mark_index_ok clock m ref grace :
  index_ok validRef m -> index_ok validRef (MarkDeleting validRef clock m ref grace).1.
Proof.
  intros Hok. unfold MarkDeleting. destruct (negb _); [done|]. destruct (negb _); [done|].
  destruct (mi_objects m !! keyOf ref) as [o|] eqn:Ho; [|done]. case_decide; [|done].
  destruct (isCandidateLocked _ _ _ _); [|done]. destruct (Hok _ _ Ho). by eapply index_ok_insert.
Qed.

Lemma Purge_index_ok m objects fence answer :
  index_ok validRef m -> index_ok validRef (Purge validRef m objects fence answer).1.1.
Proof.
  intros Hok. unfold Purge. destruct (_ || _); [done|].
  destruct (mi_objects m !! _); [|done]. case_decide; [done|]. destruct answer; [|done..].
  intros k o Hk. cbn in Hk. apply lookup_delete_Some in Hk as [_ Hk]. by apply Hok.
Qed.

Lemma writerStep_index_ok now p m objects fails w m' objects' w' :
  writerStep validRef validExecID now p m objects fails w = Some (m', objects', w') ->
  index_ok validRef m -> index_ok validRef m'.
Proof.
  intros E Hok. destruct w; cbn in E; try done.
  - destruct (negb _); [by simplify_eq|]. case_decide; [by simplify_eq|].
    pose proof (Register_index_ok now m (pl_ref p) Hok) as Hreg.
    destruct (Register _ _ _ _) as [m1 [e|reg]]; by simplify_eq.
  - repeat case_match; by simplify_eq.
  - repeat case_match; by simplify_eq.
  - pose proof (Link_index_ok now m (pl_execID p) ref (pl_expireAt p) Hok) as Hreg.
    destruct (Link _ _ _ _ _ _ _) as [m1 [e|]]; [case_decide|]; by simplify_eq.
Qed.

Lemma run_index_ok es b b' :
  blobRun validRef validExecID payloads window es b = Some b' -> index_ok validRef (b_index b) ->
  index_ok validRef (b_index b').
Proof.
  revert b. induction es as [|e es IH]; intros b E Hok; [by injection E as <-|].
  cbn in E. destruct (blobStep _ _ _ _ e b) as [b1|] eqn:E1; [|done]. cbn in E. apply (IH b1 E). clear E IH.
  destruct e; cbn in E1.
  - destruct (0 <=? d); by simplify_eq.
  - destruct (payloads !! i) as [p|]; [|done]. destruct (b_writers b !! i) as [w|]; [|done].
    destruct (writerStep _ _ _ _ _ _ _ _) as [[[m' objects'] w']|] eqn:Ew; [|done].
    injection E1 as <-. by eapply writerStep_index_ok.
  - injection E1 as <-. by apply Mark_index_ok.
  - pose proof (Purge_index_ok (b_index b) (b_objects b) fence answer Hok) as Hreg.
    destruct (Purge _ _ _ _ _) as [[m' objects'] err]. by injection E1 as <-.
  - injection E1 as <-. cbn. unfold PruneLinks. destruct (_ <=? _); [done|].
    destruct (pruneLoop _ _ _ _ _) as [m' n] eqn:Ep. destruct (pruneLoop_ok _ _ _ _ _ _ _ Ep) as [Ho _].
    cbn. unfold index_ok. by rewrite Ho.
Qed.
End recorded.

(** ** Properties *)

(** C7. A stored payload outlives its collectors: whatever writers, collectors, failed
    deletes, prunings and the clock do, as long as every writer links within the
    collectors' grace of its registration, an object whose ref was returned by
    [Externalize] is live in the index and has its bytes until the link expires. *)
Theorem externalized_blob_kept validRef validExecID payloads window es now n b i p ref :
  blobRun validRef validExecID payloads window es (startBlobs now n) = Some b -> b_late b = false ->
  payloads !! i = Some p -> b_writers b !! i = Some (Externalized ref) ->
  IndexTime (b_now b) < IndexTime (pl_expireAt p) ->
  keyOf ref = keyOf (pl_ref p) /\ is_Some (b_objects b !! keyOf ref) /\
  exists o, mi_objects (b_index b) !! keyOf ref = Some o /\ mo_state o = ObjectLive.
Proof.
  intros E Hlate Hp Hw Hnow. destruct (run_kept _ _ _ _ _ _ _ E Hlate (start_kept _ _ _ _)) as [Hl Hws].
  destruct (Hws i p _ Hp Hw) as [_ _ Hr Hlk]. destruct (Hlk ref eq_refl Hnow) as (t & Ht & Hle).
  destruct (Hl _ _ _ Ht) as [(a & o & Ho & Hs & _) Hb]; [lia|].
  rewrite (Hr ref eq_refl). split_and!; [done..|]. by exists o.
Qed.

(** Two executions of one namespace that store the same payload, and a collector. *)
Definition demoRef : Ref := mkRef "team" "d1" 100 100 "".

Definition demoPayloads : list payload :=
  [mkPayload "e1" demoRef (60 * Second); mkPayload "e2" demoRef (60 * Second)].

Definition demoBlobEvents : list blobEvent :=
  [Write 0 false; Write 1 false; Write 0 false; Write 1 false; Tick (3 * Second); Write 0 false;
   Write 1 false; Write 1 false; Claim demoRef (5 * Second); Tick (20 * Second);
   Claim demoRef (5 * Second); Delete (mkFence demoRef 1) Deleted].

Definition demoBlobs : blobs :=
  default (startBlobs 0 2)
    (blobRun (fun _ => true) (fun _ => true) demoPayloads (5 * Second) demoBlobEvents (startBlobs 0 2)).

Lemma externalized_blob_kept_witness : is_Some (b_objects demoBlobs !! ("team", "d1")).
Proof.
  refine (proj1 (proj2 (externalized_blob_kept (fun _ => true) (fun _ => true) demoPayloads (5 * Second)
    demoBlobEvents 0 2 demoBlobs 0 (mkPayload "e1" demoRef (60 * Second)) demoRef _ _ _ _ _)));
    vm_compute; reflexivity.
Defined.

(** The grace is needed: a writer that links after it can be handed a ref whose bytes
    are gone, when another writer has registered the object again but not written it. *)
Example late_writer_loses_bytes :
  exists b, blobRun (fun _ => true) (fun _ => true) demoPayloads (5 * Second)
              [Write 0 false; Write 0 false; Tick (20 * Second); Claim demoRef (5 * Second);
               Delete (mkFence demoRef 1) Deleted; Write 1 false; Write 0 false] (startBlobs 0 2) = Some b /\
    b_writers b !! 0%nat = Some (Externalized demoRef) /\ b_objects b = ∅ /\ b_late b = true.
Proof. eexists. split; [vm_compute; reflexivity|]. by vm_compute. Qed.


Definition demoPass (i : nat) : passInput :=
  mkPass (fun j => 100 * Second + Z.of_nat i * Second) [(("team", "d1"), "e1")] (fun _ => Deleted).

