(* ===== verification/Cron.v ===== *)
(** * The cron trigger: catch-up, cursor and firing

    [node/trigger/cron]: the plan an activation makes for the instants that passed
    unhosted ([catchup.go], [misfire.go]), the cursor that names the instant a
    callback runs for ([schedule.go]), the overlap policy ([overlap.go]) and the
    firing itself with its watermark ([cron.go], [watermark.go]), over the local
    provider's deduplicator ([backend/providers/local/trigger_runtime.go]).

    A [time.Time] carries a location, and the schedule is evaluated in the location
    of the time it is asked about, so instants are pairs here.  The schedule is a
    third-party value and stands as its [Next] function; [Schedule] says what the
    code relies on: [Next i] is the first instant after [i] that the schedule names
    in [i]'s location, or the zero time when there is none.  The offset of a location
    comes from the time-zone database and is an argument as well.  The runtime's
    other answers (failing stores, statuses, emission, the deduplicator's clock) are
    arguments of a firing; the control plane's admission path is not modelled. *)

From S2P Require Import Prelude Types Retry.

(** ** Instants, settings and plans *)

Record Instant : Type := mkInstant { at_ : Time; location : string }.

#[export] Instance Instant_eq_dec : EqDecision Instant.
Proof. solve_decision. Defined.

Abbreviation UTC := "UTC".

Definition zeroInstant : Instant := mkInstant zeroTime UTC.

Inductive misfirePolicy : Type := misfireSkip | misfireFireOnce | misfireFireAll.

#[export] Instance misfirePolicy_eq_dec : EqDecision misfirePolicy.
Proof. solve_decision. Defined.

Record catchupConfig : Type := mkCatchupConfig {
  cc_policy : misfirePolicy;
  cc_window : Duration;
  cc_max : Z
}.

Record catchupPlan : Type := mkPlan {
  cp_policy : misfirePolicy;
  cp_fires : list Instant;
  cp_missed : Z;
  cp_watermark : Instant;
  cp_truncated : bool
}.

Definition catchupWalkLimit : Z := 100000.

Definition nextAfter (next now : Instant) : bool :=
  IsZero (at_ next) || (at_ now <? at_ next).

Section schedule.
Variable (Next : Instant -> Instant).

(** The loop of [walkSchedule]; [budget] is the number of instants it may still
    examine, and [None] is the truncated walk. *)
Fixpoint walkLoop (budget : nat) (next now : Instant) (max : Z) (newest : list Instant) (examined : Z)
    : option (list Instant * Z) :=
  if nextAfter next now then Some (newest, examined)
  else
    match budget with
    | O => None
    | S budget =>
        let newest := newest ++ [next] in
        let newest := if max <? Z.of_nat (length newest) then drop 1 newest else newest in
        walkLoop budget (Next next) now max newest (examined + 1)
    end.

Definition walkSchedule (from now : Instant) (max : Z) : option (list Instant * Z) :=
  walkLoop (Z.to_nat catchupWalkLimit) (Next from) now max [] 0.

Definition missedFires (last : option Instant) (now : Instant) (cfg : catchupConfig) : catchupPlan :=
  let plan := mkPlan (cc_policy cfg) [] 0 zeroInstant false in
  match last with
  | None => plan
  | Some last =>
      if IsZero (at_ last) then plan
      else
        let from := mkInstant (at_ now - cc_window cfg) (location now) in
        let from := if at_ from <? at_ last then last else from in
        match walkSchedule from now (cc_max cfg) with
        | None => mkPlan (cc_policy cfg) [] 0 zeroInstant true
        | Some (candidates, examined) =>
            match list.last candidates with
            | None => plan
            | Some newest =>
                let fires := match cc_policy cfg with
                             | misfireSkip => []
                             | misfireFireOnce => [newest]
                             | misfireFireAll => candidates
                             end in
                mkPlan (cc_policy cfg) fires (examined - Z.of_nat (length fires)) newest false
            end
        end
  end.

(** [scheduleCursor.next]: the instant a callback observed at [observed] runs for,
    which becomes the cursor's [prev]. *)
Fixpoint cursorLoop (fuel : nat) (scheduled observed : Instant) : res Instant :=
  match fuel with
  | O => OutOfFuel
  | S fuel =>
      let after := Next scheduled in
      if at_ observed <? at_ after then Ok scheduled else cursorLoop fuel after observed
  end.

Definition cursorNext (fuel : nat) (prev observed : Instant) : res Instant :=
  cursorLoop fuel (Next prev) observed.

Definition firingWindow (scheduled : Instant) : Duration :=
  let d := at_ (Next scheduled) - at_ scheduled in
  if 0 <? d then d else 60 * Second.

Definition fireDedupTTL (scheduled : Instant) (cfg : catchupConfig) : Duration :=
  let ttl := 2 * firingWindow scheduled in
  if ttl <? cc_window cfg then cc_window cfg else ttl.
End schedule.

(** ** Firing *)

Inductive overlapPolicy : Type := overlapAllow | overlapSkip.

#[export] Instance overlapPolicy_eq_dec : EqDecision overlapPolicy.
Proof. solve_decision. Defined.

(** What identifies an event: the text of its instant, which names the instant and
    the offset it is written in. *)
Abbreviation eventID := (Time * Z)%type.

(** What the runtime keeps for one trigger: the watermark and the execution started
    last, the deduplicator's claims with their expiry, and the emissions, each with
    the time of its claim. *)
Record triggerState : Type := mkTrigger {
  ts_watermark : option Time;
  ts_lastExecution : option string;
  ts_dedup : gmap eventID Time;
  ts_emitted : list (eventID * Time)
}.

#[export] Instance Eta_triggerState : Eta triggerState := fun r =>
  mkTrigger (ts_watermark r) (ts_lastExecution r) (ts_dedup r) (ts_emitted r).

(** The runtime's answers to one firing: the deduplicator's clock and whether it
    could be asked, whether the trigger's state can be used, the status of an
    execution ([None] when it is unknown or cannot be read), and the execution the
    emission started ([None] when it was refused). *)
Record fireAnswers : Type := mkAnswers {
  fa_clock : Time;
  fa_dedupErr : bool;
  fa_stateErr : bool;
  fa_status : string -> option ExecutionStatus;
  fa_emit : option string
}.

(** [resolveOverlap]: a runtime that cannot read statuses runs as [allow]. *)
Definition resolveOverlap (policy : overlapPolicy) (capable : bool) : overlapPolicy :=
  if decide (policy <> overlapSkip) then policy
  else if negb capable then overlapAllow else overlapSkip.

Definition readLastExecution (ans : fireAnswers) (st : triggerState) : option string :=
  if fa_stateErr ans then None else ts_lastExecution st.

Definition recordLastExecution (ans : fireAnswers) (st : triggerState) (id : string) : triggerState :=
  if decide (id = "") then st
  else if fa_stateErr ans then st else st <| ts_lastExecution := Some id |>.

Definition admits (policy : overlapPolicy) (ans : fireAnswers) (st : triggerState) : bool :=
  if decide (policy <> overlapSkip) then true
  else
    match readLastExecution ans st with
    | None => true
    | Some last =>
        match fa_status ans last with
        | None => true
        | Some status => IsTerminalExecutionStatus status
        end
    end.

(** The watermark is stored in UTC. *)
Definition readWatermark (st : triggerState) : option Instant :=
  (fun t => mkInstant t UTC) <$> ts_watermark st.

Definition recordFiring (ans : fireAnswers) (st : triggerState) (scheduled : Instant) : triggerState :=
  if fa_stateErr ans then st else st <| ts_watermark := Some (at_ scheduled) |>.

(** [triggerPrimitives.Dedup]. *)
Definition Dedup (now : Time) (key : eventID) (ttl : Duration) (st : triggerState) : triggerState * bool :=
  let claim := (st <| ts_dedup ::= insert key (now + ttl) |>, true) in
  match ts_dedup st !! key with
  | Some expires => if now <? expires then (st, false) else claim
  | None => claim
  end.

Section firing.
Variables (Next : Instant -> Instant) (offset : string -> Time -> Z).
Variables (cfg : catchupConfig) (overlap : overlapPolicy).

(** The identity [newCronTriggerEvent] gives a firing. *)
Definition newCronTriggerEvent (scheduled : Instant) : eventID :=
  (at_ scheduled, offset (location scheduled) (at_ scheduled)).

Definition emitScheduledFire (st : triggerState) (fire : fireAnswers * Instant) : triggerState :=
  let '(ans, scheduled) := fire in
  let event := newCronTriggerEvent scheduled in
  if fa_dedupErr ans then st
  else
    let '(st, ok) := Dedup (fa_clock ans) event (fireDedupTTL Next scheduled cfg) st in
    let st :=
      if ok then
        if negb (admits overlap ans st) then st
        else
          match fa_emit ans with
          | None => st
          | Some id =>
              recordLastExecution ans (st <| ts_emitted ::= fun l => l ++ [(event, fa_clock ans)] |>) id
          end
      else st in
    recordFiring ans st scheduled.

(** [applyCatchup] with the embedded engine's firing; [answers] are the runtime's,
    one per firing, and [done] those of the final record. *)
Definition applyCatchup (plan : catchupPlan) (answers : list fireAnswers) (done : fireAnswers)
    (st : triggerState) : triggerState :=
  if cp_truncated plan then st
  else
    let st := foldl emitScheduledFire st (zip answers (cp_fires plan)) in
    if IsZero (at_ (cp_watermark plan)) then st else recordFiring done st (cp_watermark plan).

(** The catch-up of [Activate]: the plan from the record, and its run. *)
Definition activate (now : Instant) (answers : list fireAnswers) (done : fireAnswers)
    (st : triggerState) : triggerState :=
  applyCatchup (missedFires Next (readWatermark st) now cfg) answers done st.
End firing.

(** ** Schedules *)

(** What the code relies on of a schedule that names the given instants in a
    location: a five-field expression names some, and [Next] answers in the location
    it is asked in. *)
Class Schedule (Next : Instant -> Instant) (scheduled : string -> Time -> Prop) : Prop := {
  sched_positive : forall z s, scheduled z s -> 0 < s;
  sched_next : forall z t,
    Next (mkInstant t z) = zeroInstant /\ (forall s, scheduled z s -> s <= t) \/
    exists s, Next (mkInstant t z) = mkInstant s z /\ scheduled z s /\ t < s /\
      forall s', scheduled z s' -> t < s' -> s <= s'
}.

(** The instants due in a range, oldest first, and the newest of them. *)
Definition dueIn (scheduled : Time -> Prop) (from now : Time) (l : list Time) : Prop :=
  StronglySorted Z.lt l /\ forall s, s ∈ l <-> scheduled s /\ from < s <= now.

Definition newestOf {A} (n : Z) (l : list A) : list A := drop (length l - Z.to_nat n) l.

Definition firedUnder {A} (cfg : catchupConfig) (l : list A) : list A :=
  match cc_policy cfg with
  | misfireSkip => []
  | misfireFireOnce => newestOf 1 l
  | misfireFireAll => newestOf (cc_max cfg) l
  end.

Section plans.
Context {Next : Instant -> Instant} {scheduled : string -> Time -> Prop} `{!Schedule Next scheduled}.

Lemma nextAfter_true z from now :
  nextAfter (Next (mkInstant from z)) now = true ->
  forall s, scheduled z s -> ~ from < s <= at_ now.
Proof.
  unfold nextAfter, IsZero. rewrite orb_true_iff, Z.eqb_eq, Z.ltb_lt. intros H s Hs Hr.
  destruct (sched_next z from) as [[_ Hn]|(s' & E & Hs' & Ht & Hm)].
  - specialize (Hn s Hs). lia.
  - rewrite E in H. cbn in H. pose proof (sched_positive _ _ Hs'). specialize (Hm s Hs).
    unfold zeroTime in H. lia.
Qed.

Lemma nextAfter_false z from now :
  nextAfter (Next (mkInstant from z)) now = false ->
  exists s, Next (mkInstant from z) = mkInstant s z /\ scheduled z s /\ from < s <= at_ now /\
    forall s', scheduled z s' -> from < s' -> s <= s'.
Proof.
  unfold nextAfter, IsZero. rewrite orb_false_iff, Z.eqb_neq, Z.ltb_ge. intros [H1 H2].
  destruct (sched_next z from) as [[Hz _]|(s & E & Hs' & Ht & Hm)]; [by rewrite Hz in H1|].
  rewrite E in H2. exists s. split_and!; done || lia.
Qed.

Lemma dueIn_exists z from now : exists l, dueIn (scheduled z) from now l.
Proof.
  remember (Z.to_nat (now - from)) as n eqn:En. revert from En.
  induction n as [n IH] using lt_wf_ind. intros from En.
  destruct (nextAfter (Next (mkInstant from z)) (mkInstant now z)) eqn:Hn.
  - exists []. split; [constructor|]. intros s. pose proof (nextAfter_true _ _ _ Hn s) as Hno.
    split; [by intros ?%elem_of_nil|]. intros [Hs Hr]. by destruct (Hno Hs).
  - apply nextAfter_false in Hn as (s & E & Hs & Hr & Hm). cbn in Hr.
    destruct (IH (Z.to_nat (now - s)) ltac:(lia) s eq_refl) as (l & Hsort & Hl).
    exists (s :: l). split.
    + constructor; [done|]. apply Forall_forall. intros x [_ Hx]%Hl. lia.
    + intros x. rewrite elem_of_cons, Hl. split; [intros [->|[? ?]]; split; done || lia|].
      intros [Hx Hr2]. destruct (decide (x = s)); [by left|right]. split; [done|].
      specialize (Hm x Hx). lia.
Qed.

Lemma dueIn_nil z from now :
  dueIn (scheduled z) from (at_ now) [] -> nextAfter (Next (mkInstant from z)) now = true.
Proof.
  intros [_ Hl]. destruct (nextAfter _ now) eqn:Hn; [done|].
  apply nextAfter_false in Hn as (s & _ & Hs & Hr & _).
  by assert (s ∈ []) as ?%elem_of_nil by (by apply Hl).
Qed.

Lemma dueIn_cons z from now s l :
  dueIn (scheduled z) from (at_ now) (s :: l) ->
  Next (mkInstant from z) = mkInstant s z /\ nextAfter (mkInstant s z) now = false /\
  dueIn (scheduled z) s (at_ now) l.
Proof.
  intros [Hsort Hl]. inversion Hsort as [|? ? Hs Hf]; subst. rewrite Forall_forall in Hf.
  assert (Hin : scheduled z s /\ from < s <= at_ now) by (apply Hl; by left). destruct Hin as [Hss Hr].
  destruct (nextAfter (Next (mkInstant from z)) now) eqn:Hn;
    [by destruct (nextAfter_true _ _ _ Hn s Hss)|].
  pose proof (nextAfter_false _ _ _ Hn) as (s' & E & Hs' & Hr' & Hm).
  assert (s' = s) as ->.
  { specialize (Hm s Hss). assert (Hin : s' ∈ s :: l) by (apply Hl; split; [done|lia]).
    apply elem_of_cons in Hin as [|Hin]; [done|]. specialize (Hf _ Hin). lia. }
  rewrite E in Hn. split_and!; [done..|]. split; [done|]. intros x. split.
  - intros Hx. specialize (Hf x Hx).
    assert (Hin : scheduled z x /\ from < x <= at_ now) by (apply Hl; by right).
    split; [apply Hin|lia].
  - intros [Hx Hrx]. assert (Hin : x ∈ s :: l) by (apply Hl; split; [done|lia]).
    apply elem_of_cons in Hin as [->|]; [lia|done].
Qed.

Lemma newestOf_step {A} n (l : list A) x :
  0 < n ->
  newestOf n (l ++ [x]) =
    let k := newestOf n l ++ [x] in if n <? Z.of_nat (length k) then drop 1 k else k.
Proof.
  intros Hn. unfold newestOf. cbn zeta. rewrite !length_app, length_drop. cbn [length].
  rewrite <- (drop_app_le l [x]) by lia. rewrite drop_drop.
  destruct (Z.ltb_spec n (Z.of_nat (length l - (length l - Z.to_nat n) + 1))); f_equal; lia.
Qed.

Lemma newestOf_last {A} n (l : list A) : 0 < n -> list.last (newestOf n l) = list.last l.
Proof.
  intros Hn. destruct l as [|x l _] using rev_ind; [done|].
  rewrite newestOf_step by done. cbn zeta. rewrite last_snoc.
  destruct (Z.ltb_spec n (Z.of_nat (length (newestOf n l ++ [x])))) as [H|H]; [|apply last_snoc].
  destruct (newestOf n l) eqn:E; cbn [app drop]; [cbn in H; lia|apply last_snoc].
Qed.

Lemma walkLoop_spec z budget from now max seen newest examined l :
  dueIn (scheduled z) from (at_ now) l -> 0 < max -> newest = newestOf max seen ->
  walkLoop Next budget (Next (mkInstant from z)) now max newest examined =
    if decide (length l <= budget)%nat
    then Some (newestOf max (seen ++ ((fun s => mkInstant s z) <$> l)), examined + Z.of_nat (length l))
    else None.
Proof.
  revert from seen newest examined l. induction budget as [|budget IH];
    intros from seen newest examined [|s l] Hl Hmax ->.
  1, 3: apply dueIn_nil in Hl; cbn; by rewrite Hl, app_nil_r, Z.add_0_r.
  all: apply dueIn_cons in Hl as (E & Hn & Hl); rewrite E; cbn [walkLoop]; rewrite Hn.
  { by rewrite decide_False by (cbn; lia). }
  rewrite (IH s (seen ++ [mkInstant s z]) _ _ l Hl Hmax); [|by rewrite newestOf_step].
  cbn [length]. rewrite <- app_assoc. cbn [app fmap list_fmap].
  destruct (decide (length l <= budget)%nat); [rewrite decide_True by lia|by rewrite decide_False by lia].
  do 2 f_equal. lia.
Qed.

Lemma newestOf_fmap {A B} (f : A -> B) n l : newestOf n (f <$> l) = f <$> newestOf n l.
Proof. unfold newestOf. by rewrite fmap_drop, length_fmap. Qed.

Lemma newestOf_one {A} (l : list A) x : list.last l = Some x -> newestOf 1 l = [x].
Proof.
  destruct l as [|y l _] using rev_ind; [done|]. rewrite last_snoc. intros [= ->].
  unfold newestOf. rewrite length_app, drop_app_length' by (cbn; lia). done.
Qed.

Lemma walkSchedule_spec z from now max l :
  dueIn (scheduled z) from (at_ now) l -> 0 < max ->
  walkSchedule Next (mkInstant from z) now max =
    if Z.of_nat (length l) <=? catchupWalkLimit
    then Some ((fun s => mkInstant s z) <$> newestOf max l, Z.of_nat (length l)) else None.
Proof.
  intros Hl Hmax. unfold walkSchedule. rewrite (walkLoop_spec z _ _ _ _ [] [] _ l Hl Hmax eq_refl).
  cbn [app]. rewrite newestOf_fmap, Z.add_0_l. unfold catchupWalkLimit.
  destruct (Z.leb_spec (Z.of_nat (length l)) 100000); [rewrite decide_True by lia|rewrite decide_False by lia]; done.
Qed.

(** The plan over a walk that was not cut short. *)
Lemma plan_of_walk z cfg l plan :
  0 < cc_max cfg ->
  plan = match list.last ((fun s => mkInstant s z) <$> newestOf (cc_max cfg) l) with
         | None => mkPlan (cc_policy cfg) [] 0 zeroInstant false
         | Some newest =>
             let fires := match cc_policy cfg with
                          | misfireSkip => []
                          | misfireFireOnce => [newest]
                          | misfireFireAll => (fun s => mkInstant s z) <$> newestOf (cc_max cfg) l
                          end in
             mkPlan (cc_policy cfg) fires (Z.of_nat (length l) - Z.of_nat (length fires)) newest false
         end ->
  plan = mkPlan (cc_policy cfg) ((fun s => mkInstant s z) <$> firedUnder cfg l)
           (Z.of_nat (length l) - Z.of_nat (length (firedUnder cfg l)))
           (from_option (fun s => mkInstant s z) zeroInstant (list.last l)) false.
Proof.
  intros Hmax ->. rewrite fmap_last, newestOf_last by done. unfold firedUnder.
  destruct (list.last l) as [x|] eqn:Hx.
  - cbn. destruct (cc_policy cfg); [done| |by rewrite length_fmap].
    by rewrite (newestOf_one l x Hx).
  - apply last_None in Hx as ->. cbn. unfold newestOf. rewrite !drop_nil. by destruct (cc_policy cfg).
Qed.

(** C18. The catch-up plan is the documented one: of the instants the schedule names
    after the record and inside the window, up to now, it fires none, the newest or
    the newest [max] oldest first, counts the others as missed and moves the record
    to the newest; more than the walk limit of them give the empty truncated plan.
    The instants are those the schedule names in UTC when the record lies in the
    window, whatever location the trigger runs in, and in its own location otherwise. *)
Theorem catchup_plan_exact last now cfg :
  0 < last -> 0 < cc_max cfg ->
  let edge := at_ now - cc_window cfg in
  let z := if edge <? last then UTC else location now in
  exists l, dueIn (scheduled z) (Z.max edge last) (at_ now) l /\
    missedFires Next (Some (mkInstant last UTC)) now cfg =
      if Z.of_nat (length l) <=? catchupWalkLimit then
        mkPlan (cc_policy cfg) ((fun s => mkInstant s z) <$> firedUnder cfg l)
          (Z.of_nat (length l) - Z.of_nat (length (firedUnder cfg l)))
          (from_option (fun s => mkInstant s z) zeroInstant (list.last l)) false
      else mkPlan (cc_policy cfg) [] 0 zeroInstant true.
Proof.
  intros Hlast Hmax edge z. destruct (dueIn_exists z (Z.max edge last) (at_ now)) as [l Hl].
  exists l. split; [done|]. unfold missedFires. cbn [at_].
  assert (IsZero last = false) as -> by (unfold IsZero, zeroTime; lia).
  fold edge. assert (E : (if edge <? last then mkInstant last UTC else mkInstant edge (location now)) =
      mkInstant (Z.max edge last) z) by (subst z; destruct (Z.ltb_spec edge last); f_equal; lia).
  rewrite E, (walkSchedule_spec z _ _ _ l Hl Hmax). destruct (_ <=? _); [|done].
  by apply plan_of_walk.
Qed.

(** While an instant is still ahead, [Next] answers one. *)
Lemma next_before z t s :
  scheduled z s -> t < s ->
  exists s', Next (mkInstant t z) = mkInstant s' z /\ scheduled z s' /\ t < s' <= s.
Proof.
  intros Hs Ht. destruct (sched_next z t) as [[_ Hn]|(s' & E & Hs' & Ht' & Hm)].
  - specialize (Hn s Hs). lia.
  - exists s'. split_and!; [done..|by apply Hm].
Qed.

Lemma cursorLoop_names z fuel t observed s :
  (forall u, exists v, scheduled z v /\ u < v) ->
  scheduled z s -> t <= s <= at_ observed ->
  (forall s', scheduled z s' -> s' <= at_ observed -> s' <= s) ->
  (Z.to_nat (s - t) < fuel)%nat -> cursorLoop Next fuel (mkInstant t z) observed = Ok (mkInstant s z).
Proof.
  intros Hinf Hs Ht Hm. revert t Ht. induction fuel as [|fuel IH]; intros t Ht Hfuel; [lia|].
  cbn [cursorLoop]. destruct (decide (t = s)) as [->|Hne].
  - destruct (Hinf s) as (v & Hv & Hsv). destruct (next_before z s v Hv Hsv) as (s' & -> & Hs' & Hr).
    cbn. destruct (Z.ltb_spec (at_ observed) s'); [done|]. specialize (Hm s' Hs'). lia.
  - destruct (next_before z t s Hs ltac:(lia)) as (s' & -> & _ & Hr). cbn.
    destruct (Z.ltb_spec (at_ observed) s'); [lia|]. apply IH; lia.
Qed.


(** A schedule with no instant after the observation keeps the cursor walking: the
    zero time it answers is never after the observation. *)
Lemma cursor_exhausted fuel prev observed :
  0 <= at_ observed -> (forall z s, scheduled z s -> s <= at_ observed) ->
  cursorNext Next fuel prev observed = OutOfFuel.
Proof.
  intros Ho Hall. unfold cursorNext. generalize (Next prev) as i. induction fuel as [|fuel IH]; intros i; [done|].
  cbn [cursorLoop]. assert (H : at_ (Next i) <= at_ observed).
  { destruct i as [t z]. destruct (sched_next z t) as [[-> _]|(s & -> & Hs & _)]; [done|].
    by apply (Hall z). }
  destruct (Z.ltb_spec (at_ observed) (at_ (Next i))); [lia|]. apply IH.
Qed.
End plans.

(** ** Emissions *)

Section emissions.
Context (Next : Instant -> Instant) (offset : string -> Time -> Z).
Context (cfg : catchupConfig) (overlap : overlapPolicy).

(** Every emission's claim outlives the catch-up window. *)
Definition claims_ok (st : triggerState) : Prop :=
  forall id t, (id, t) ∈ ts_emitted st ->
    exists e, ts_dedup st !! id = Some e /\ t + cc_window cfg <= e.

Lemma ttl_window scheduled : 0 <= cc_window cfg -> cc_window cfg <= fireDedupTTL Next scheduled cfg.
Proof. intros H. unfold fireDedupTTL. destruct (Z.ltb_spec (2 * firingWindow Next scheduled) (cc_window cfg)); lia. Qed.

Lemma Dedup_claims now key ttl st st' ok :
  claims_ok st -> 0 <= cc_window cfg -> cc_window cfg <= ttl -> Dedup now key ttl st = (st', ok) ->
  ts_emitted st' = ts_emitted st /\ claims_ok st' /\
  (ok = true -> ts_dedup st' !! key = Some (now + ttl)).
Proof.
  intros Hc Hw Httl H. unfold Dedup in H.
  destruct (ts_dedup st !! key) as [e|] eqn:E; [destruct (Z.ltb_spec now e)|];
    injection H as <- <-; (split_and!; [done| |]); try done; try (intros _; apply lookup_insert_eq).
  all: intros id t Hin; destruct (Hc id t Hin) as (e' & E' & He'); cbn;
    destruct (decide (id = key)) as [->|Hne]; [|by exists e'; rewrite lookup_insert_ne].
  all: rewrite E in E'; simplify_eq. exists (now + ttl). rewrite lookup_insert_eq. split; [done|lia].
Qed.

Lemma emit_claims st fire :
  0 <= cc_window cfg -> claims_ok st -> claims_ok (emitScheduledFire Next offset cfg overlap st fire).
Proof.
  intros Hw Hc. destruct fire as [ans i]. unfold emitScheduledFire. destruct (fa_dedupErr ans); [done|].
  destruct (Dedup _ _ _ st) as [st1 ok] eqn:E.
  apply Dedup_claims in E as (Hem & Hc1 & Hk); [|done..|by apply ttl_window].
  assert (Hrec : forall st2, claims_ok st2 -> claims_ok (recordFiring ans st2 i))
    by (intros st2 H2; unfold recordFiring; by case_match).
  apply Hrec. destruct ok; [|done]. destruct (admits overlap ans st1); [|done]. cbn [negb].
  destruct (fa_emit ans) as [id|]; [|done].
  assert (H2 : claims_ok (st1 <| ts_emitted ::= fun l => l ++ [(newCronTriggerEvent offset i, fa_clock ans)] |>)).
  { intros id' t. cbn. rewrite elem_of_app, list_elem_of_singleton. intros [Hin|[= -> ->]].
    - by apply Hc1.
    - eexists. split; [by apply Hk|]. pose proof (ttl_window i Hw). lia. }
  unfold recordLastExecution. by repeat case_match.
Qed.

Lemma recordFiring_emitted ans st i : ts_emitted (recordFiring ans st i) = ts_emitted st.
Proof. unfold recordFiring. by case_match. Qed.

Lemma recordLastExecution_emitted ans st id : ts_emitted (recordLastExecution ans st id) = ts_emitted st.
Proof. unfold recordLastExecution. by repeat case_match. Qed.

(** A firing adds at most its own emission, and none while the claim of an earlier
    emission of the same identity stands. *)
Lemma emit_emitted st ans i :
  let id := newCronTriggerEvent offset i in
  let st' := emitScheduledFire Next offset cfg overlap st (ans, i) in
  ts_emitted st' = ts_emitted st \/
  ts_emitted st' = ts_emitted st ++ [(id, fa_clock ans)] /\
    forall e, ts_dedup st !! id = Some e -> e <= fa_clock ans.
Proof.
  cbn zeta. unfold emitScheduledFire. destruct (fa_dedupErr ans); [by left|].
  destruct (Dedup _ _ _ st) as [st1 ok] eqn:E. rewrite recordFiring_emitted.
  assert (Hem : ts_emitted st1 = ts_emitted st /\
      (ok = true -> forall e, ts_dedup st !! newCronTriggerEvent offset i = Some e -> e <= fa_clock ans)).
  { unfold Dedup in E. destruct (ts_dedup st !! _) as [e|]; [destruct (Z.ltb_spec (fa_clock ans) e)|];
      injection E as <- <-; (split; [done|]); intros ? ? ?; by simplify_eq. }
  destruct Hem as [Hem He]. rewrite <- Hem. destruct ok; [|by left].
  destruct (admits overlap ans st1); [|by left]. cbn [negb]. destruct (fa_emit ans) as [x|]; [|by left].
  right. rewrite recordLastExecution_emitted. by split; [|apply He].
Qed.

(** The new emissions of a run of firings, each offered before the window has passed
    its instant, are of identities not emitted before at or after their instant. *)
Lemma emits_fresh fires st :
  0 <= cc_window cfg -> claims_ok st ->
  Forall (fun f => fa_clock f.1 < at_ f.2 + cc_window cfg) fires ->
  exists l, ts_emitted (foldl (emitScheduledFire Next offset cfg overlap) st fires) = ts_emitted st ++ l /\
    forall id c t, (id, c) ∈ l -> id.1 <= t -> (id, t) ∉ ts_emitted st.
Proof.
  intros Hw. revert st. induction fires as [|[ans i] fires IH]; intros st Hc Hf.
  - exists []. rewrite app_nil_r. split; [done|]. by intros ? ? ? ?%elem_of_nil.
  - inversion_clear Hf as [|? ? Hclock Hf']. cbn [fst snd] in Hclock. cbn [foldl].
    destruct (IH _ (emit_claims st (ans, i) Hw Hc) Hf') as (l & El & Hl).
    destruct (emit_emitted st ans i) as [E|[E He]].
    + exists l. rewrite El, E. split; [done|]. intros id c t Hin Ht. rewrite <- E. by apply (Hl id c).
    + eexists (_ :: l). rewrite El, E, <- app_assoc. split; [done|]. intros id c t Hin Ht Hold.
      apply elem_of_cons in Hin as [[= -> ->]|Hin].
      * destruct (Hc _ _ Hold) as (e & Ee & Hte). specialize (He e Ee). cbn in Ht. lia.
      * apply (Hl id c t Hin Ht). rewrite E, elem_of_app. by left.
Qed.

(** What happens to a trigger: its own firings, and activations with their catch-up. *)
Inductive cronEvent : Type :=
| Fires (fire : fireAnswers * Instant)
| Activates (now : Instant) (answers : list fireAnswers) (done : fireAnswers).

Definition cronStep (st : triggerState) (e : cronEvent) : triggerState :=
  match e with
  | Fires fire => emitScheduledFire Next offset cfg overlap st fire
  | Activates now answers done => activate Next offset cfg overlap now answers done st
  end.

Definition startTrigger : triggerState := mkTrigger None None ∅ [].

Lemma emits_claims fires st :
  0 <= cc_window cfg -> claims_ok st ->
  claims_ok (foldl (emitScheduledFire Next offset cfg overlap) st fires).
Proof. intros Hw. revert st. induction fires as [|f fires IH]; intros st Hc; [done|]. by apply IH, emit_claims. Qed.

Lemma recordFiring_claims ans st i : claims_ok st -> claims_ok (recordFiring ans st i).
Proof. intros H. unfold recordFiring. by case_match. Qed.

Lemma cron_claims events :
  0 <= cc_window cfg -> claims_ok (foldl cronStep startTrigger events).
Proof.
  intros Hw. assert (H0 : claims_ok startTrigger) by (by intros ? ? ?%elem_of_nil).
  revert H0. generalize startTrigger. induction events as [|e events IH]; intros st Hc; [done|].
  cbn [foldl]. apply IH. destruct e as [fire|now answers done']; [by apply emit_claims|].
  cbn. unfold activate, applyCatchup. destruct (cp_truncated _); [done|].
  case_match; [|apply recordFiring_claims]; by apply emits_claims.
Qed.

End emissions.

(** ** Periodic schedules *)

(** A schedule with one instant every [period], at a phase that depends on the
    location. *)
Definition every (period : Z) (phase : string -> Z) (z : string) (s : Time) : Prop :=
  0 < s /\ (s - phase z) mod period = 0.

Definition everyNext (period : Z) (phase : string -> Z) (i : Instant) : Instant :=
  let t := Z.max 0 (at_ i) in
  mkInstant (t + period - (t - phase (location i)) mod period) (location i).

Lemma everyNext_schedule period phase :
  0 < period -> Schedule (everyNext period phase) (every period phase).
Proof.
  intros Hp. split; [by intros z s [H _]|]. intros z t. right. unfold everyNext. cbn [at_ location].
  set (t' := Z.max 0 t). set (ph := phase z). pose proof (Z.mod_pos_bound (t' - ph) period Hp).
  pose proof (Z.div_mod (t' - ph) period ltac:(lia)) as Hd.
  eexists. split; [done|]. split_and!; [split; [lia|]|lia|].
  - fold ph. replace (_ - ph) with (((t' - ph) / period + 1) * period) by lia. apply Z.mod_mul. lia.
  - intros s' [H0 Hm] Hs'. fold ph in Hm. pose proof (Z.div_mod (s' - ph) period ltac:(lia)) as Hd'.
    rewrite Hm in Hd'. assert (t' < s') by (subst t'; lia). clearbody t'.
    remember ((t' - ph) / period) as q eqn:Eq. remember ((s' - ph) / period) as q' eqn:Eq'.
    remember ((t' - ph) mod period) as r eqn:Er. clear Eq Eq' Er.
    assert (q + 1 <= q') by nia. nia.
Qed.

Lemma every_unbounded period phase z u : 0 < period -> exists v, every period phase z v /\ u < v.
Proof.
  intros Hp. destruct (@sched_next _ _ (everyNext_schedule period phase Hp) z u)
    as [[E Hn]|(s & _ & Hs & Hu & _)]; [|by exists s].
  exfalso. unfold everyNext in E. injection E as E _. cbn in E. unfold zeroTime in E.
  pose proof (Z.mod_pos_bound (Z.max 0 u - phase z) period Hp). lia.
Qed.

Definition hour : Duration := 3600 * Second.

Abbreviation NewYork := "America/New_York".

Definition demoOffset (z : string) (t : Time) : Z := if decide (z = NewYork) then -5 * hour else 0.

Definition hourly : Instant -> Instant := everyNext hour (fun _ => 0).

Definition atNine : string -> Z := fun z => 9 * hour - demoOffset z 0.

Definition daily : Instant -> Instant := everyNext (24 * hour) atNine.

#[export] Instance daily_schedule : Schedule daily (every (24 * hour) atNine).
Proof. by apply everyNext_schedule. Qed.

Definition demoCatchup : catchupConfig := mkCatchupConfig misfireFireAll (72 * hour) 10.

(** The answers of a runtime that works, and of one whose trigger state fails. *)
Definition works (clock : Time) : fireAnswers := mkAnswers clock false false (fun _ => None) (Some "exec").

Definition stateDown (clock : Time) : fireAnswers := mkAnswers clock false true (fun _ => None) (Some "exec").

(** A daily schedule at nine in New York, recorded on day ten and activated on day
    twelve: the plan fires the instants at nine in UTC. *)
Lemma catchup_plan_exact_witness :
  let last := 10 * (24 * hour) + 14 * hour in
  let now := mkInstant (12 * (24 * hour) + 15 * hour) NewYork in
  cp_fires (missedFires daily (Some (mkInstant last UTC)) now demoCatchup) =
    [mkInstant (11 * (24 * hour) + 9 * hour) UTC; mkInstant (12 * (24 * hour) + 9 * hour) UTC] /\
  exists l, dueIn (every (24 * hour) atNine UTC) (Z.max (at_ now - 72 * hour) last) (at_ now) l.
Proof.
  cbn zeta. split; [by vm_compute|].
  destruct (catchup_plan_exact (Next := daily) (10 * (24 * hour) + 14 * hour)
    (mkInstant (12 * (24 * hour) + 15 * hour) NewYork) demoCatchup ltac:(by vm_compute) ltac:(by vm_compute))
    as (l & Hl & _). by exists l.
Defined.


(** The hourly trigger fired at two, with the record of it lost, and is activated
    again at half past two: the catch-up is answered as a duplicate. *)
Definition demoHistory (z : string) : list cronEvent :=
  [Fires (works hour, mkInstant hour z); Fires (stateDown (2 * hour), mkInstant (2 * hour) z)].


(** The same trigger in New York runs the moment twice: its firing was written with
    the local offset and the catch-up, planned from the record, is written in UTC,
    so that the deduplicator takes them for different events. *)
Theorem catchup_repeats_outside_utc :
  let st := foldl (cronStep hourly demoOffset demoCatchup overlapAllow) startTrigger (demoHistory NewYork) in
  let now := mkInstant (2 * hour + 1800 * Second) NewYork in
  (fun e => e.1.1) <$> ts_emitted (activate hourly demoOffset demoCatchup overlapAllow now
    [works (at_ now)] (works (at_ now)) st) = [hour; 2 * hour; 2 * hour].
Proof. by vm_compute. Qed.
